(* ===== verification/_CoqProject ===== *)
-Q . S2P
Prelude.v
Backoff.v
Arena.v
ZeroCopy.v
Index.v
SkipList.v
SkipListProof.v
SkipListRep.v
SkipListRemove.v
SkipListSpec.v
SkipListRace.v
SkipListConc.v
SkipListConcIns.v
SkipListPool.v
SkipListLin.v
SkipListConcRem.v
SkipListRemLin.v
SkipListReclaim.v
Ebr.v
Spsc.v
Shard.v
ShardLin.v
MmapLog.v
Store.v
Engine.v
RegBuf.v
Treiber.v
GroupCommit.v
Channel.v
Mesh.v
MeshInv.v
MeshSpec.v
Ingress.v
Service.v
ServiceInv.v
ServiceFlow.v
ServiceSpec.v
ServiceLive.v
BlockOn.v
RunQueue.v
CommitBench.v
DirectIo.v
Derive.v
Bench.v
BenchAb.v
BenchService.v
Latency.v
