(* ===== verification/Prelude.v ===== *)
(** * zerokv: a verification library

    The library models the Rust crate [crates/zerokv] (a sharded in-memory
    key-value engine with a write-ahead log) and proves what its parts promise
    and what their composition does. All paths below are under
    [src/crates/zerokv/src/].

    ** The program and its model

    A [KvStore] ([store.rs]) is an optional pre-allocated log and a
    [ShardedIndex] ([shard.rs]) that routes each key by its FNV-1a hash to one
    of 2^k lock-free skiplists ([skiplist.rs]); the skiplists retire nodes and
    values to the epoch-based reclaimer ([ebr.rs]). Beside it stand the arena
    ([arena.rs], [zerocopy.rs]), the SPSC ring ([spsc.rs]), the registered
    buffers and the portable I/O backend ([regbuf.rs]), the group-commit log
    built on that backend ([group_commit.rs]), and the thread-per-core mesh
    built on the rings ([mesh.rs]).

    - [Prelude]: outcomes of Rust code ([res]: a value, or undefined
      behaviour, a panic, an abort, or lack of fuel), 64-bit words that wrap,
      powers of two and masks, byte strings with their order and little-endian
      encoding, and the [blit]/[slice] view of a buffer.
    - [Backoff]: [backoff.rs], the xorshift generator, the spin/yield state
      machine and the tower heights of the skiplist.
    - [Arena], [ZeroCopy]: [arena.rs] and the [ArenaKv] of [zerocopy.rs]; the
      allocation loop both as a function and as steps that interleave.
    - [Index]: the interface between an index and its clients (class [Index]
      with its laws). [Shard] and [Store] are proved against it; [SkipListSpec]
      provides the instance and [Engine] puts the two together.
    - [SkipList]: every operation of [skiplist.rs] as a program of atomic
      accesses to a heap of nodes, links and values ([prog], [exec], [run]).
      [SkipListProof] has the search, [SkipListRep] the representation
      invariant with lookup and insertion, [SkipListRemove] removal,
      reclamation and teardown, [SkipListSpec] the theorems, [SkipListRace] an
      interleaving of two operations.
    - [Ebr]: [ebr.rs], threads as program counters over the atomic accesses of
      pin, retire, unpin and collect, interleaved by [step].
    - [Spsc]: [spsc.rs], the ring as functions and as two interleaved
      endpoints whose loads of the other cursor may lag.
    - [Shard], [MmapLog], [Store], [Engine]: [shard.rs], [mmap_log.rs],
      [store.rs] and their composition.
    - [RegBuf]: [regbuf.rs], pool, handles and the portable backend.
    - [Treiber], [GroupCommit]: the stack of pending nodes shared by
      [ebr.rs], [group_commit.rs] and [mesh.rs], and [group_commit.rs] itself:
      writers, batcher and polling tasks interleaved.
    - [SkipListConc], [SkipListConcIns], [SkipListPool], [SkipListLin]: the
      skiplist shared by threads: the invariant every access keeps, what one
      thread may rely on while the others run, insertion and lookup proved
      access by access, the pool of threads with what it means for it to be
      linearizable, and the theorem for inserts and lookups. [SkipListConcRem]
      and [SkipListRemLin] do the same for removals and lookups, with the
      number of times links can still change as the bound on retries, and
      [SkipListReclaim] adds the reclamation domain, which frees retired records
      while calls run, under the grace period that [Ebr] proves.
      [ShardLin] puts 2^p such lists together into the sharded index shared by
      threads.
    - [Channel], [Mesh], [MeshInv], [MeshSpec]: the queue between two shards as
      an interface, [run_put_workload] of [mesh.rs] with its workers
      interleaved at queue calls and counters, its invariant and its theorems.
    - [Ingress], [Service], [ServiceInv], [ServiceFlow], [ServiceSpec],
      [ServiceLive]: the service of [mesh.rs]: the inbox of a shard as an
      interface with the [Ingress] stack as its instance, clients and workers
      interleaved, the invariant, the flow of requests with the work left, and
      the theorems.
    - [CommitBench]: the executor and the group-commit log together, as
      [group_commit_bench] of [main.rs] runs them.
    - [BlockOn], [RunQueue], [DirectIo]: [executor.rs], the reference-counted
      waker under [block_on], the run queue of [Executor], the direct read.
    - [Derive]: the macro of [crates/zerokv-derive/src/lib.rs] with the [Pod]
      types of [zerocopy.rs]: which structs are accepted, and the generated
      [encode], [decode] and [view] over any layout.
    - [Bench], [BenchAb], [BenchService], [Latency]: [main.rs], the operations of
      the benchmark threads in any order, the shared-nothing comparison, the
      service benchmark, the demos, and the latency report with its binary64
      indices.

    ** What the theorems show

    - Refinement: histories of operations on the skiplist, the sharded index,
      the durable store, the ring and the arena store return what a finite map
      or a FIFO list returns. Inserts and lookups of many threads on one
      skiplist, and on the sharded index, are linearizable, whatever the order
      of their accesses; so are removals and lookups, which leave a quiescent
      list behind.
    - Memory safety: no history faults; reclamation and teardown free every
      cell exactly once; the reclaimer frees a record only after every guard
      that was live at its retirement is gone, and under that rule concurrent
      removals and lookups never touch freed memory, whenever the reclaimer
      runs; regions and buffers handed out never overlap.
    - Durability: the mapped log holds the loaded file and the frames that
      fitted, and a flush puts them at the front of the file, from where they
      are loaded again; a vectored write succeeds or stops exactly as the
      kernel's answers say; the group-commit file is the old contents and the written
      records, in an order that respects real time; shutdown drains.
    - Mesh: the put workload applies every put once, in its shard, and can
      always be finished from any state backpressure leads to; the service is
      linearizable over one map, a fulfilled request wakes its client, and until
      a shutdown every state can be run to one where all calls have returned.
    - Runtime: [block_on] loses no wake, the executor returns only when all
      tasks are done and is fair, a direct read takes two polls.
    - Derive: the guards accept exactly the padding-free plain records, and
      the generated code is lossless on them whatever the layout.
    - Benchmarks: whatever the order of the threads, every measured read hits,
      and the percentiles reported are entries of the sorted net latencies. The
      executor driving the group-commit log loses no wakeup: [run] can always be
      brought to its end, and by then the log holds every record in task order.
    - What does not hold: a remove that overlaps an insert of the same key
      leaves a retired node linked; nested guards on one thread lose their
      protection; write-ahead frames cannot be split back into records; a full
      log and a failed write are reported as success; a spawn does not wake a
      sleeping executor; a service worker may leave at shutdown while a get is
      on its way to it; a zero-sized arena request ignores its alignment; a log
      smaller than its file loads only the front of it.

    ** Bounds and fuel

    Loops over heap structures take a fuel argument. The skiplist theorems are
    stated for enough fuel ([insert_room] and the number of live nodes bound
    it) and prove that the operations return. Collector, batcher, level loop
    and writes have measures and are shown to terminate. Addresses and
    counters are 64-bit; hypotheses such as [small] or the capacity bounds say
    that they do not overflow, and where the source relies on wrapping (ring
    cursors, hashes) the wrap-around is part of the model.

    ** Interleaving and memory order

    Concurrent components are step functions over explicit schedules under
    sequential consistency; the ring in addition lets cursor loads lag. The
    threads of a skiplist draw their tower heights from one generator, and
    every height up to [max_level] is covered. The linearizability theorems
    keep insertions and removals of one list apart, because together they race.
    Weaker reorderings that [Relaxed] permits are not modelled.

    ** Not modelled

    Prefetch hints, spin hints and thread pinning do not touch the state.
    Of [main.rs] the printing of rates is left out, [benches/throughput.rs] is
    timing around the public interface, and [lib.rs] re-exports. The trait
    [ZeroCopyStorage] of [zerocopy.rs] is a declaration. The native submission
    paths of [regbuf.rs] exist only as comments. The operating system is a
    parameter: the results of opens, reads, seeks, writes, [metadata] and
    allocation are arguments of the definitions that use them.
*)

From Stdlib Require Export ZArith Lia.
From stdpp Require Export prelude gmap.

#[global] Set Default Goal Selector "!".
#[global] Open Scope Z_scope.

(** ** Notation scope and hint database of the development *)

Declare Scope zkv_scope.
Delimit Scope zkv_scope with zkv.
Create HintDb zkv discriminated.
#[export] Hint Constants Opaque : zkv.

(** ** Outcomes of Rust code

    A fault is what ends a Rust computation without a value: undefined
    behaviour (a dereference of a pointer outside every live allocation), a
    panic, an abort ([handle_alloc_error]), or, for the model only, running
    out of the fuel that bounds a loop. *)

Inductive fault : Type :=
| UB
| Panic
| Abort
| OutOfFuel.

Inductive res (A : Type) : Type :=
| Ok (a : A)
| Err (f : fault).
Arguments Ok {A} _.
Arguments Err {A} _.

#[export] Instance fault_eq_dec : EqDecision fault.
Proof. solve_decision. Defined.
#[export] Instance res_eq_dec {A} `{EqDecision A} : EqDecision (res A).
Proof. solve_decision. Defined.

Definition rbind {A B} (m : res A) (k : A → res B) : res B :=
  match m with
  | Ok a => k a
  | Err f => Err f
  end.

Notation "x ←r m ; k" := (rbind m (λ x, k))
  (at level 20, m at level 100, k at level 200, right associativity) : zkv_scope.
Notation "' pat ←r m ; k" := (rbind m (λ pat, k))
  (at level 20, pat pattern, m at level 100, k at level 200,
   right associativity) : zkv_scope.

(** [o.expect(..)] / an index that must be in range. *)
Definition or_err {A} (f : fault) (o : option A) : res A :=
  match o with
  | Some a => Ok a
  | None => Err f
  end.

(** ** 64-bit words

    [usize] and [u64] are integers of [0, 2^64); release builds wrap, which
    is what the explicit reductions below write out. *)

Definition W64 : Z := 2 ^ 64.
Definition wrap64 (x : Z) : Z := x mod W64.
Definition wadd (x y : Z) : Z := wrap64 (x + y).
Definition wsub (x y : Z) : Z := wrap64 (x - y).
Definition wmul (x y : Z) : Z := wrap64 (x * y).
Definition wshl (x n : Z) : Z := wrap64 (Z.shiftl x n).
(** [!x] on a 64-bit word. *)
Definition wnot (x : Z) : Z := W64 - 1 - x.
(** [usize::checked_add]. *)
Definition checked_add (x y : Z) : option Z :=
  if x + y <? W64 then Some (x + y) else None.
Definition is_u64 (x : Z) : Prop := 0 ≤ x < W64.

#[export] Instance is_u64_dec x : Decision (is_u64 x).
Proof. unfold is_u64. apply _. Defined.

Lemma W64_val : W64 = 18446744073709551616.
Proof. reflexivity. Qed.

Lemma W64_pos : 0 < W64.
Proof. reflexivity. Qed.

Lemma wrap64_range x : is_u64 (wrap64 x).
Proof. apply Z.mod_pos_bound, W64_pos. Qed.

Lemma wrap64_small x : is_u64 x → wrap64 x = x.
Proof. apply Z.mod_small. Qed.

Lemma wrap64_id x : wrap64 (wrap64 x) = wrap64 x.
Proof. apply wrap64_small, wrap64_range. Qed.

Lemma wadd_small x y : is_u64 (x + y) → wadd x y = x + y.
Proof. apply wrap64_small. Qed.

Lemma wadd_wrap_l x y : wadd (wrap64 x) y = wrap64 (x + y).
Proof. unfold wadd, wrap64. by rewrite Zplus_mod_idemp_l. Qed.

Lemma wsub_wrap x y : wsub (wrap64 x) (wrap64 y) = wrap64 (x - y).
Proof. unfold wsub, wrap64. by rewrite <- Zminus_mod. Qed.

Lemma wrap64_inj x y : wrap64 x = wrap64 y → Z.abs (x - y) < W64 → x = y.
Proof.
  unfold wrap64. intros H Hlt.
  assert ((x - y) mod W64 = 0) as Hm.
  { rewrite Zminus_mod, H, Z.sub_diag. reflexivity. }
  apply Z.mod_divide in Hm; [|discriminate]. destruct Hm as [q Hq].
  assert (q = 0) by (pose proof W64_pos; nia). lia.
Qed.

Lemma lxor_u64 x y : is_u64 x → is_u64 y → is_u64 (Z.lxor x y).
Proof.
  unfold is_u64, W64. intros Hx Hy. split; [apply Z.lxor_nonneg; lia|].
  assert (Z.lxor x y = Z.lxor x y mod 2 ^ 64) as ->.
  - rewrite <- Z.land_ones by lia. apply Z.bits_inj'. intros i Hi.
    rewrite Z.land_spec, Z.lxor_spec.
    destruct (Z.ltb_spec i 64) as [Hl|Hl].
    + rewrite Z.ones_spec_low by lia. by rewrite andb_true_r.
    + rewrite <- (Z.mod_small x (2 ^ 64)), <- (Z.mod_small y (2 ^ 64)) by lia.
      by rewrite !Z.mod_pow2_bits_high by lia.
  - by apply Z.mod_pos_bound.
Qed.

Lemma shiftr_u64 x n : 0 ≤ n → is_u64 x → is_u64 (Z.shiftr x n).
Proof.
  unfold is_u64. intros Hn Hx. rewrite Z.shiftr_div_pow2 by done.
  pose proof (Z.pow_pos_nonneg 2 n ltac:(lia) Hn).
  split; [apply Z.div_pos; lia|].
  apply Z.le_lt_trans with x; [|lia]. apply Z.div_le_upper_bound; nia.
Qed.

#[export] Hint Resolve wrap64_range W64_pos lxor_u64 shiftr_u64 : zkv.

(** ** Powers of two

    [is_power_of_two], [next_power_of_two] and the mask identities that
    stand behind [& (cap - 1)] and [& !(align - 1)]. *)

Definition is_power_of_two (x : Z) : bool := (0 <? x) && (x =? 2 ^ Z.log2 x).
Definition next_power_of_two (x : Z) : Z := 2 ^ Z.log2_up x.

Lemma is_power_of_two_spec x :
  is_power_of_two x = true ↔ ∃ k, 0 ≤ k ∧ x = 2 ^ k.
Proof.
  unfold is_power_of_two. rewrite andb_true_iff, Z.ltb_lt, Z.eqb_eq. split.
  - intros [Hx He]. exists (Z.log2 x). split; [apply Z.log2_nonneg|done].
  - intros (k & Hk & ->). rewrite Z.log2_pow2 by done.
    split; [apply Z.pow_pos_nonneg; lia|done].
Qed.

Lemma next_power_of_two_pow x :
  ∃ k, 0 ≤ k ∧ next_power_of_two x = 2 ^ k.
Proof. eexists; split; [|reflexivity]. apply Z.log2_up_nonneg. Qed.

Lemma next_power_of_two_ge x : x ≤ next_power_of_two x.
Proof.
  unfold next_power_of_two. destruct (Z.le_gt_cases x 1) as [Hx|Hx].
  - rewrite Z.log2_up_eqn0 by lia. simpl. lia.
  - apply Z.log2_up_spec; lia.
Qed.

Lemma next_power_of_two_bound x k :
  0 ≤ k → x ≤ 2 ^ k → next_power_of_two x ≤ 2 ^ k.
Proof.
  intros Hk Hx. unfold next_power_of_two.
  destruct (Z.le_gt_cases x 1) as [H1|H1].
  - rewrite Z.log2_up_eqn0 by lia. apply Z.pow_le_mono_r; lia.
  - apply Z.pow_le_mono_r; [lia|]. apply Z.log2_up_le_pow2; lia.
Qed.

Lemma pow2_lt_W64 k : 2 ^ k < W64 → k < 64.
Proof.
  unfold W64. intros Hlt. by apply Z.pow_lt_mono_r_iff in Hlt; [|lia|lia].
Qed.

Lemma pow2_lt_W64_divide k : 0 ≤ k → 2 ^ k < W64 → (2 ^ k | W64).
Proof.
  intros Hk Hlt%pow2_lt_W64.
  exists (2 ^ (64 - k)). rewrite <- Z.pow_add_r by lia.
  unfold W64. f_equal. lia.
Qed.

Lemma land_mask x k : 0 ≤ k → Z.land x (2 ^ k - 1) = x mod 2 ^ k.
Proof.
  intros Hk. replace (2 ^ k - 1) with (Z.ones k).
  - by apply Z.land_ones.
  - rewrite Z.ones_equiv. lia.
Qed.

Lemma wrap64_mod_pow2 x k :
  0 ≤ k → 2 ^ k < W64 → wrap64 x mod 2 ^ k = x mod 2 ^ k.
Proof.
  intros Hk Hlt. unfold wrap64. by apply Z.mod_mod_divide, pow2_lt_W64_divide.
Qed.

(** Clearing the low bits of a word rounds it down. *)
Lemma land_not_mask x k :
  0 ≤ k → 2 ^ k < W64 → is_u64 x →
  Z.land x (wnot (2 ^ k - 1)) = x - x mod 2 ^ k.
Proof.
  intros Hk Hlt Hx.
  assert (Hld : Z.land x (wnot (2 ^ k - 1)) = Z.ldiff x (Z.ones k)).
  { unfold wnot. replace (2 ^ k - 1) with (Z.ones k) by (rewrite Z.ones_equiv; lia).
    pose proof (pow2_lt_W64 _ Hlt) as Hk64.
    replace (W64 - 1 - Z.ones k) with (Z.ldiff (Z.ones 64) (Z.ones k)).
    - rewrite !Z.ldiff_land, Z.land_assoc.
      f_equal. rewrite Z.land_ones by lia. by apply wrap64_small.
    - rewrite <- Z.sub_nocarry_ldiff.
      + rewrite (Z.ones_equiv 64). unfold W64. lia.
      + apply Z.bits_inj'. intros i Hi. rewrite Z.ldiff_spec, Z.bits_0.
        destruct (Z.ltb_spec i k).
        * rewrite !Z.ones_spec_low by lia. done.
        * by rewrite (Z.ones_spec_high k) by lia. }
  rewrite Hld, Z.ldiff_ones_r by done.
  rewrite Z.shiftr_div_pow2, Z.shiftl_mul_pow2 by done.
  pose proof (Z.div_mod x (2 ^ k)). pose proof (Z.pow_pos_nonneg 2 k). lia.
Qed.

(** [(x + a - 1) & !(a - 1)]: rounding up to a power of two. *)
Definition align_up (x a : Z) : Z := Z.land (wsub (wadd x a) 1) (wnot (a - 1)).

Lemma align_up_spec x k :
  0 ≤ k → 0 ≤ x → x + 2 ^ k ≤ W64 →
  let r := align_up x (2 ^ k) in
  x ≤ r < x + 2 ^ k ∧ r mod 2 ^ k = 0.
Proof.
  intros Hk Hx Hle r. pose proof (Z.pow_pos_nonneg 2 k ltac:(lia) Hk) as Hp.
  assert (Hsum : wsub (wadd x (2 ^ k)) 1 = x + 2 ^ k - 1).
  { unfold wsub, wadd, wrap64. rewrite Zminus_mod_idemp_l.
    apply Z.mod_small. lia. }
  destruct (Z.eq_dec x 0) as [->|Hne].
  - destruct (Z.eq_dec (2 ^ k) W64) as [He|Hne'].
    + subst r. unfold align_up. rewrite Hsum, He. vm_compute. intuition congruence.
    + subst r. unfold align_up. rewrite Hsum, land_not_mask by (unfold is_u64; lia).
      rewrite (Z.mod_small (0 + 2 ^ k - 1)) by lia.
      replace (0 + 2 ^ k - 1 - (0 + 2 ^ k - 1)) with 0 by lia.
      rewrite Z.mod_0_l by lia. lia.
  - subst r. unfold align_up. rewrite Hsum, land_not_mask by (unfold is_u64; lia).
    pose proof (Z.mod_pos_bound (x + 2 ^ k - 1) (2 ^ k) Hp).
    pose proof (Z.div_mod (x + 2 ^ k - 1) (2 ^ k) ltac:(lia)).
    split; [lia|]. rewrite Zminus_mod_idemp_r, Z.sub_diag. by rewrite Z.mod_0_l by lia.
Qed.

(** ** Byte strings

    A byte is an integer of [0, 256); a [&[u8]] is a list of them. [bcmp] is
    the lexicographic [Ord::cmp] of slices. *)

Abbreviation bytes := (list Z).
Definition is_byte (b : Z) : Prop := 0 ≤ b < 256.
Abbreviation blen bs := (Z.of_nat (length bs)).

Fixpoint bcmp (a b : bytes) : comparison :=
  match a, b with
  | [], [] => Eq
  | [], _ :: _ => Lt
  | _ :: _, [] => Gt
  | x :: a', y :: b' =>
    match x ?= y with
    | Eq => bcmp a' b'
    | c => c
    end
  end.

Definition blt (a b : bytes) : Prop := bcmp a b = Lt.

#[export] Instance blt_dec a b : Decision (blt a b).
Proof. unfold blt. apply _. Defined.

Lemma bcmp_eq a b : bcmp a b = Eq ↔ a = b.
Proof.
  revert b. induction a as [|x a IH]; intros [|y b]; simpl; try done.
  destruct (Z.compare_spec x y) as [->|H|H]; split; intros He; simplify_eq; try lia.
  - f_equal. by apply IH.
  - by apply IH.
Qed.

Lemma bcmp_antisym a b : bcmp b a = CompOpp (bcmp a b).
Proof.
  revert b. induction a as [|x a IH]; intros [|y b]; simpl; try done.
  rewrite Z.compare_antisym. destruct (x ?= y); simpl; auto.
Qed.

Lemma blt_trans a b c : blt a b → blt b c → blt a c.
Proof.
  unfold blt. revert b c.
  induction a as [|x a IH]; intros [|y b] [|z c]; simpl; try done.
  destruct (Z.compare_spec x y); destruct (Z.compare_spec y z);
    destruct (Z.compare_spec x z); intros; try done; try lia; eauto.
Qed.

Lemma blt_irrefl a : ¬ blt a a.
Proof. unfold blt. by rewrite (proj2 (bcmp_eq a a) eq_refl). Qed.

#[export] Instance blt_strict : StrictOrder blt.
Proof. split; [intros a; apply blt_irrefl|intros a b c; apply blt_trans]. Qed.

Lemma blt_total a b : {blt a b} + {a = b} + {blt b a}.
Proof.
  unfold blt. destruct (bcmp a b) eqn:E.
  - left. right. by apply bcmp_eq.
  - by left; left.
  - right. by rewrite bcmp_antisym, E.
Qed.

Lemma not_blt a b : ¬ blt a b → a = b ∨ blt b a.
Proof. destruct (blt_total a b) as [[?|?]|?]; tauto. Qed.

(** [uN::to_le_bytes] at [n] bytes, and its inverse. *)
Fixpoint to_le_bytes (n : nat) (x : Z) : bytes :=
  match n with
  | O => []
  | S n' => x mod 256 :: to_le_bytes n' (x / 256)
  end.

Fixpoint of_le_bytes (bs : bytes) : Z :=
  match bs with
  | [] => 0
  | b :: bs' => b + 256 * of_le_bytes bs'
  end.

Lemma length_to_le_bytes n x : length (to_le_bytes n x) = n.
Proof. revert x. induction n; intros; simpl; auto. Qed.

Lemma of_to_le_bytes n x : of_le_bytes (to_le_bytes n x) = x mod 256 ^ Z.of_nat n.
Proof.
  revert x. induction n as [|n IH]; intros x.
  - simpl. by rewrite Z.mod_1_r.
  - simpl to_le_bytes. simpl of_le_bytes.
    rewrite IH, Nat2Z.inj_succ, Z.pow_succ_r by lia.
    rewrite Z.rem_mul_r by lia. lia.
Qed.

(** ** Regions of a flat buffer

    [slice buf off n] is [&buf[off..off+n]]; [blit buf off bs] is
    [ptr::copy_nonoverlapping] into [buf] at [off]. *)

Definition slice (buf : bytes) (off n : Z) : bytes :=
  take (Z.to_nat n) (drop (Z.to_nat off) buf).

Definition blit (buf : bytes) (off : Z) (bs : bytes) : bytes :=
  take (Z.to_nat off) buf ++ bs ++ drop (Z.to_nat off + length bs) buf.

Lemma length_blit buf off bs :
  0 ≤ off → off + blen bs ≤ blen buf → length (blit buf off bs) = length buf.
Proof.
  intros. unfold blit. rewrite !length_app, length_take, length_drop. lia.
Qed.

Lemma length_slice buf off n :
  0 ≤ off → 0 ≤ n → off + n ≤ blen buf → blen (slice buf off n) = n.
Proof. intros. unfold slice. rewrite length_take, length_drop. lia. Qed.

Lemma slice_lookup buf off n (i : nat) :
  0 ≤ off → 0 ≤ n →
  slice buf off n !! i =
  if decide (Z.of_nat i < n) then buf !! (Z.to_nat off + i)%nat else None.
Proof.
  intros. unfold slice. case_decide.
  - rewrite lookup_take_lt by lia. by rewrite lookup_drop.
  - by rewrite lookup_take_ge by lia.
Qed.

Lemma blit_lookup_out buf off bs (i : nat) :
  0 ≤ off → off + blen bs ≤ blen buf →
  (Z.of_nat i < off ∨ off + blen bs ≤ Z.of_nat i) →
  blit buf off bs !! i = buf !! i.
Proof.
  intros Hoff Hfit Hi. unfold blit. destruct Hi as [Hi|Hi].
  - rewrite lookup_app_l by (rewrite length_take; lia).
    by rewrite lookup_take_lt by lia.
  - rewrite lookup_app_r by (rewrite length_take; lia).
    rewrite length_take, lookup_app_r by lia.
    rewrite lookup_drop. f_equal. lia.
Qed.

Lemma slice_blit_same buf off bs :
  0 ≤ off → off + blen bs ≤ blen buf → slice (blit buf off bs) off (blen bs) = bs.
Proof.
  intros. unfold slice, blit. rewrite drop_app_length'.
  - rewrite Nat2Z.id. by rewrite take_app_length.
  - rewrite length_take. lia.
Qed.

Lemma slice_blit_disjoint buf off bs o n :
  0 ≤ off → 0 ≤ o → 0 ≤ n → off + blen bs ≤ blen buf →
  (o + n ≤ off ∨ off + blen bs ≤ o) →
  slice (blit buf off bs) o n = slice buf o n.
Proof.
  intros. apply list_eq. intros i. rewrite !slice_lookup by lia.
  case_decide; [|done]. apply blit_lookup_out; lia.
Qed.

Lemma slice_blit_prefix buf bs off :
  0 ≤ off → off + blen bs ≤ blen buf →
  slice (blit buf off bs) 0 (off + blen bs) = slice buf 0 off ++ bs.
Proof.
  intros. unfold slice, blit. rewrite !drop_0.
  rewrite app_assoc, take_app_length'.
  - done.
  - rewrite length_app, length_take. lia.
Qed.

#[export] Hint Resolve length_blit slice_blit_same : zkv.

(** ** The global allocator

    [Layout::from_size_align] accepts a power-of-two alignment and a size
    that, rounded up to it, does not exceed [isize::MAX]. What
    [std::alloc::alloc] promises of a non-null block: it is aligned and does
    not wrap around the address space. *)

Definition layout_from_size_align (size align : Z) : bool :=
  is_power_of_two align && (size <=? 2 ^ 63 - align).

Definition block_ok (addr size align : Z) : Prop :=
  0 < addr ∧ addr mod align = 0 ∧ addr + size < W64.
