(* ===== verification/Backoff.v ===== *)
(** * Backoff: jittered exponential backoff and the level generator

    Models [crates/zerokv/src/backoff.rs]: the xorshift64* generator, the
    [Backoff] state machine ([spin], [snooze], [is_completed]) and
    [random_geometric_level], the skiplist's tower-height generator. A [Cell]
    is explicit state; the spinning itself is the number of [spin_loop] hints
    an operation issues. *)

From S2P Require Import Prelude.
Local Open Scope Z_scope.
Local Open Scope zkv_scope.

(** ** xorshift64* *)

Module Xorshift64.

(** [Xorshift64::new]: [seed | 1]. *)
Definition new (seed : Z) : Z := Z.lor seed 1.

(** The three shift-xor lines shared by [Xorshift64::next] and
    [random_geometric_level]. *)
Definition scramble (x : Z) : Z :=
  let x := Z.lxor x (Z.shiftr x 12) in
  let x := Z.lxor x (wshl x 25) in
  Z.lxor x (Z.shiftr x 27).

Definition output (x : Z) : Z := wmul x 0x2545F4914F6CDD1D.

(** [Xorshift64::next]: the new state and the returned word. *)
Definition next (state : Z) : Z * Z :=
  let x := scramble state in (x, output x).

Lemma lxor_shiftr_nonzero x n :
  0 < n → 0 < x → Z.lxor x (Z.shiftr x n) ≠ 0.
Proof.
  intros Hn Hx He%Z.lxor_eq. rewrite Z.shiftr_div_pow2 in He by lia.
  pose proof (Z.div_lt x (2 ^ n) Hx).
  pose proof (Z.pow_gt_1 2 n ltac:(lia)). lia.
Qed.

Lemma lxor_wshl_nonzero x : is_u64 x → x ≠ 0 → Z.lxor x (wshl x 25) ≠ 0.
Proof.
  intros [H0 H1] Hx He%Z.lxor_eq. apply Hx.
  unfold wshl, wrap64 in He. rewrite Z.shiftl_mul_pow2 in He by lia.
  assert (Hd : (W64 | (2 ^ 25 - 1) * x)).
  { exists (x * 2 ^ 25 / W64).
    pose proof (Z.div_mod (x * 2 ^ 25) W64 ltac:(done)). lia. }
  apply Z.gauss in Hd; [|reflexivity].
  destruct Hd as [q Hq]. assert (q = 0) by (pose proof W64_pos; nia). lia.
Qed.

Lemma scramble_u64 x : is_u64 x → is_u64 (scramble x).
Proof.
  intros Hx. unfold scramble. cbv zeta.
  repeat (apply lxor_u64 || apply shiftr_u64 || apply wrap64_range || lia || assumption).
Qed.

(** The generator leaves its state off the all-zero fixed point. *)
Lemma scramble_nonzero x : is_u64 x → x ≠ 0 → scramble x ≠ 0.
Proof.
  intros Hx Hne. unfold scramble. cbv zeta.
  set (y := Z.lxor x (Z.shiftr x 12)).
  assert (is_u64 y) as Hy by (apply lxor_u64; [done|apply shiftr_u64; [lia|done]]).
  assert (y ≠ 0) as Hyne by (apply lxor_shiftr_nonzero; unfold is_u64 in *; lia).
  set (z := Z.lxor y (wshl y 25)).
  assert (is_u64 z) as Hz by (apply lxor_u64; [done|apply wrap64_range]).
  assert (z ≠ 0) as Hzne by (by apply lxor_wshl_nonzero).
  apply lxor_shiftr_nonzero; unfold is_u64 in *; lia.
Qed.

Lemma new_state seed : is_u64 seed → is_u64 (new seed) ∧ new seed ≠ 0.
Proof.
  unfold new, is_u64. intros Hs.
  assert (Hb : Z.testbit (Z.lor seed 1) 0 = true).
  { rewrite Z.lor_spec. by rewrite orb_true_r. }
  assert (0 ≤ Z.lor seed 1) as Hnn by (apply Z.lor_nonneg; lia).
  split; [|intros He; rewrite He, Z.testbit_0_l in Hb; done]. split; [done|].
  destruct (Z.eq_dec (Z.lor seed 1) 0) as [->|Hne]; [done|].
  apply Z.log2_lt_pow2; [lia|]. rewrite Z.log2_lor by lia.
  destruct (Z.eq_dec seed 0) as [->|]; [done|].
  apply Z.max_lub_lt; [apply Z.log2_lt_pow2; unfold W64 in *; lia|done].
Qed.

End Xorshift64.

(** ** The backoff state machine *)

Definition SPIN_LIMIT : Z := 6.
Definition YIELD_LIMIT : Z := 10.

Record Backoff : Type := mkBackoff {
  step : Z;
  rng : Z
}.

(** What a call does to the core: that many [spin_loop] hints, or a
    [thread::yield_now]. *)
Inductive wait_action : Type :=
| Spins (n : Z)
| Yields.

(** [Backoff::new]; [addr] is the stack address the seed is taken from. *)
Definition Backoff_new (addr : Z) : Backoff :=
  mkBackoff 0 (Xorshift64.new (wmul addr 0x9E3779B97F4A7C15)).

(** [Backoff::spin]: new state, hints issued, and the returned flag. *)
Definition spin (b : Backoff) : Backoff * Z * bool :=
  let base := Z.shiftl 1 (Z.min (step b) SPIN_LIMIT) in
  let '(r', w) := Xorshift64.next (rng b) in
  let jitter := Z.land w (Z.max base 2 / 2 - 1) in
  let iters := base + jitter in
  let step' := if step b <=? YIELD_LIMIT then step b + 1 else step b in
  (mkBackoff step' r', iters, step b <=? SPIN_LIMIT).

(** [Backoff::snooze]. *)
Definition snooze (b : Backoff) : Backoff * wait_action :=
  if step b <=? SPIN_LIMIT then
    let '(b', iters, _) := spin b in (b', Spins iters)
  else
    (mkBackoff (if step b <=? YIELD_LIMIT then step b + 1 else step b) (rng b),
     Yields).

(** [Backoff::is_completed]. *)
Definition is_completed (b : Backoff) : bool := YIELD_LIMIT <? step b.

(** The type invariant: the exponent never leaves [0, YIELD_LIMIT + 1] and
    the generator never reaches zero. *)
Definition Backoff_wf (b : Backoff) : Prop :=
  0 ≤ step b ≤ YIELD_LIMIT + 1 ∧ is_u64 (rng b) ∧ rng b ≠ 0.

Lemma Backoff_new_wf addr : Backoff_wf (Backoff_new addr).
Proof.
  split; [done|]. apply Xorshift64.new_state, wrap64_range.
Qed.

Lemma spin_wf b : Backoff_wf b → Backoff_wf (spin b).1.1.
Proof.
  unfold Backoff_wf, spin, YIELD_LIMIT. intros (Hs & Hu & Hn). simpl.
  split; [destruct (Z.leb_spec (step b) 10); lia|].
  split; [by apply Xorshift64.scramble_u64|by apply Xorshift64.scramble_nonzero].
Qed.

Lemma snooze_wf b : Backoff_wf b → Backoff_wf (snooze b).1.
Proof.
  intros Hb. pose proof (spin_wf b Hb) as Hw. unfold snooze.
  destruct (step b <=? SPIN_LIMIT).
  - by destruct (spin b) as [[b' i] f].
  - destruct Hb as (Hs & Hr). unfold Backoff_wf, YIELD_LIMIT in *. simpl.
    destruct (Z.leb_spec (step b) 10); split; (lia || done).
Qed.

(** [n] calls of [f] on a fresh backoff. *)
Definition after {A} (f : Backoff → Backoff * A) (n : nat) (b : Backoff) : Backoff :=
  Nat.iter n (λ b, (f b).1) b.

(** A call that raises the exponent by one up to its cap. *)
Definition counts_up (f : Backoff → Backoff) : Prop :=
  ∀ b, Backoff_wf b →
    Backoff_wf (f b) ∧ step (f b) = Z.min (step b + 1) (YIELD_LIMIT + 1).

Lemma iter_counts_up f n b :
  counts_up f → Backoff_wf b →
  Backoff_wf (Nat.iter n f b) ∧
  step (Nat.iter n f b) = Z.min (step b + Z.of_nat n) (YIELD_LIMIT + 1).
Proof.
  intros Hf Hb. induction n as [|n [IHw IHs]].
  - simpl. split; [done|]. destruct Hb. lia.
  - rewrite Nat.iter_succ. destruct (Hf _ IHw) as [Hw Hs].
    split; [done|]. rewrite Hs, IHs. lia.
Qed.

Lemma spin_counts_up : counts_up (λ b, (spin b).1.1).
Proof.
  intros b Hb. split; [by apply spin_wf|]. destruct Hb as [Hs _].
  unfold spin. simpl. unfold YIELD_LIMIT in *.
  destruct (Z.leb_spec (step b) 10); lia.
Qed.

Lemma snooze_counts_up : counts_up (λ b, (snooze b).1).
Proof.
  intros b Hb. split; [by apply snooze_wf|].
  pose proof (spin_counts_up b Hb) as [_ Hsp]. destruct Hb as [Hs _].
  unfold snooze. destruct (step b <=? SPIN_LIMIT).
  - by destruct (spin b) as [[b' i] f].
  - simpl. unfold YIELD_LIMIT in *. destruct (Z.leb_spec (step b) 10); lia.
Qed.

Lemma land_jitter w j : 0 ≤ j → 0 ≤ Z.land w (2 ^ j - 1) < 2 ^ j.
Proof. intros. rewrite land_mask by done. apply Z.mod_pos_bound. lia. Qed.

Lemma spin_iters_bound b :
  Backoff_wf b →
  let base := 2 ^ Z.min (step b) SPIN_LIMIT in
  base ≤ (spin b).1.2 ∧ (spin b).1.2 < base + Z.max (base / 2) 1.
Proof.
  intros ([Hs0 Hs1] & _) base. unfold spin. simpl.
  rewrite Z.shiftl_1_l. fold base.
  unfold base, SPIN_LIMIT in *. destruct (Z.eq_dec (step b) 0) as [->|Hne].
  - simpl. rewrite Z.land_0_r. lia.
  - set (m := Z.min (step b) 6) in *.
    assert (Hm : 2 ^ m = 2 * 2 ^ (m - 1)).
    { rewrite <- Z.pow_succ_r by lia. f_equal. lia. }
    assert (Hp : 0 < 2 ^ (m - 1)) by (apply Z.pow_pos_nonneg; lia).
    rewrite Z.max_l by lia.
    replace (2 ^ m / 2) with (2 ^ (m - 1)) by (rewrite Hm, Z.mul_comm, Z.div_mul; lia).
    pose proof (land_jitter (Xorshift64.output (Xorshift64.scramble (rng b))) (m - 1)).
    lia.
Qed.

(** ** Tower heights *)

(** The [while] loop of [random_geometric_level]. *)
Fixpoint level_loop (fuel : nat) (max_level level bits : Z) : res Z :=
  match fuel with
  | O => Err OutOfFuel
  | S fuel' =>
    if (level <? max_level) && (Z.land bits 3 =? 3)
    then level_loop fuel' max_level (level + 1) (Z.shiftr bits 2)
    else Ok level
  end.

(** [random_geometric_level]: the new generator state and the level. *)
Definition random_geometric_level (fuel : nat) (rng_state max_level : Z)
    : res (Z * Z) :=
  let x := Xorshift64.scramble rng_state in
  let r := Xorshift64.output x in
  level ←r level_loop fuel max_level 1 r;
  Ok (x, level).

Lemma level_loop_total fuel max_level level bits :
  (Z.to_nat (max_level - level) < fuel)%nat →
  ∃ l, level_loop fuel max_level level bits = Ok l ∧
    level ≤ l ≤ Z.max level max_level.
Proof.
  revert level bits. induction fuel as [|fuel IH]; intros level bits Hf; [lia|].
  simpl. destruct (Z.ltb_spec level max_level) as [Hl|Hl]; simpl.
  - destruct (Z.land bits 3 =? 3).
    + destruct (IH (level + 1) (Z.shiftr bits 2)) as (l & -> & Hr); [lia|].
      exists l. split; [done|lia].
    + exists level. split; [done|lia].
  - exists level. split; [done|lia].
Qed.

Lemma random_geometric_level_total fuel s max_level :
  1 ≤ max_level → (Z.to_nat max_level ≤ fuel)%nat →
  ∃ l, random_geometric_level fuel s max_level = Ok (Xorshift64.scramble s, l) ∧
    1 ≤ l ≤ max_level.
Proof.
  intros Hm Hf.
  destruct (level_loop_total fuel max_level 1
              (Xorshift64.output (Xorshift64.scramble s))) as (l & Hl & Hr); [lia|].
  exists l. unfold random_geometric_level. rewrite Hl. split; [done|lia].
Qed.

(** The level a word encodes: one more than its leading run of [11] pairs,
    capped. *)
Definition pair11 (r j : Z) : Prop := Z.land (Z.shiftr r (2 * j)) 3 = 3.

Lemma level_loop_spec fuel max_level : ∀ level bits,
  1 ≤ level ≤ max_level → (Z.to_nat (max_level - level) < fuel)%nat →
  ∃ l, level_loop fuel max_level level bits = Ok l ∧ level ≤ l ≤ max_level ∧
    (∀ j, 0 ≤ j < l - level → pair11 bits j) ∧ (l = max_level ∨ ¬ pair11 bits (l - level)).
Proof.
  induction fuel as [|fuel IH]; intros level bits Hl Hf; [lia|]. cbn [level_loop].
  destruct (Z.ltb_spec level max_level) as [Hlt|Hge]; simpl.
  - destruct (Z.eqb_spec (Z.land bits 3) 3) as [H3|H3].
    + destruct (IH (level + 1) (Z.shiftr bits 2)) as (l & Hr & Hb & Hp & He); [lia|lia|].
      assert (Hs : ∀ j, 0 ≤ j → pair11 (Z.shiftr bits 2) j ↔ pair11 bits (j + 1)).
      { intros j Hj. unfold pair11. rewrite Z.shiftr_shiftr by lia.
        replace (2 + 2 * j) with (2 * (j + 1)) by lia. done. }
      exists l. split; [done|]. split; [lia|]. split.
      * intros j Hj. destruct (Z.eq_dec j 0) as [->|Hne]; [done|].
        replace j with (j - 1 + 1) by lia. apply Hs; [lia|]. apply Hp. lia.
      * destruct He as [He|He]; [by left|]. right. intros Hx. apply He.
        apply Hs; [lia|]. by replace (l - (level + 1) + 1) with (l - level) by lia.
    + exists level. split; [done|]. split; [lia|]. split; [lia|]. right.
      rewrite Z.sub_diag. done.
  - exists level. split; [done|]. split; [lia|]. split; [lia|]. left. lia.
Qed.

(** ** Claims *)

(** Calls a contended loop makes on its backoff. *)
Inductive wait_call : Type :=
| CallSpin
| CallSnooze.

Definition do_wait (b : Backoff) (c : wait_call) : Backoff :=
  match c with
  | CallSpin => (spin b).1.1
  | CallSnooze => (snooze b).1
  end.

Lemma do_waits cs : ∀ b,
  Backoff_wf b →
  Backoff_wf (foldl do_wait b cs) ∧
  step (foldl do_wait b cs) = Z.min (step b + Z.of_nat (length cs)) (YIELD_LIMIT + 1).
Proof.
  induction cs as [|c cs IH]; intros b Hb.
  - simpl. split; [done|]. destruct Hb. lia.
  - cbn [foldl length]. assert (Hc : Backoff_wf (do_wait b c) ∧
      step (do_wait b c) = Z.min (step b + 1) (YIELD_LIMIT + 1)).
    { destruct c; [by apply spin_counts_up|by apply snooze_counts_up]. }
    destruct Hc as [Hw Hs]. destruct (IH _ Hw) as [Hw' Hs']. split; [done|]. rewrite Hs', Hs. lia.
Qed.

(** The backoff schedule: after any mix of [n] spins and snoozes the
    exponent is [min n 11] and the wait reports completion exactly from the
    eleventh call on; a spin then issues at least [2^min(n,6)] and fewer than
    96 pause hints, and a snooze yields the core exactly once past the spin
    regime. The generator state never degenerates to zero. *)
Lemma backoff_schedule (addr : Z) (cs : list wait_call) :
  let n := Z.of_nat (length cs) in
  let b := foldl do_wait (Backoff_new addr) cs in
  step b = Z.min n 11 ∧ is_completed b = (11 <=? n) ∧ rng b ≠ 0 ∧
  2 ^ Z.min n 6 ≤ (spin b).1.2 < 96 ∧
  ((snooze b).2 = Yields ↔ 7 ≤ n).
Proof.
  intros n b. destruct (do_waits cs _ (Backoff_new_wf addr)) as [Hw Hs]. fold b in Hw, Hs.
  assert (Hst : step b = Z.min n 11) by (rewrite Hs; unfold YIELD_LIMIT, n; simpl; lia).
  pose proof (spin_iters_bound b Hw) as Hit. destruct Hw as (_ & _ & Hr).
  assert (Hn : 0 ≤ n) by lia. split; [done|]. split; [|split; [done|]].
  { unfold is_completed, YIELD_LIMIT. rewrite Hst.
    destruct (Z.ltb_spec 10 (Z.min n 11)), (Z.leb_spec 11 n); (done || lia). }
  split.
  - unfold SPIN_LIMIT in Hit. rewrite Hst in Hit.
    replace (Z.min (Z.min n 11) 6) with (Z.min n 6) in Hit by lia. split; [lia|].
    assert (Hm : Z.min n 6 ∈ [0; 1; 2; 3; 4; 5; 6]).
    { assert (Z.min n 6 = 0 ∨ Z.min n 6 = 1 ∨ Z.min n 6 = 2 ∨ Z.min n 6 = 3 ∨
        Z.min n 6 = 4 ∨ Z.min n 6 = 5 ∨ Z.min n 6 = 6) by lia. set_solver. }
    destruct Hit as [_ Hit]. revert Hit. generalize (spin b).1.2. intros it.
    repeat (apply elem_of_cons in Hm as [->|Hm]; [vm_compute (Z.max _ _); lia|]).
    by apply elem_of_nil in Hm.
  - unfold snooze, SPIN_LIMIT. rewrite Hst. destruct (Z.leb_spec (Z.min n 11) 6).
    + destruct (spin b) as [[b' i] f]. simpl. split; [done|lia].
    + simpl. split; [lia|done].
Qed.

(** Tower heights: with [max_level] rounds of fuel the level loop always
    returns, the level is one more than the run of [11] bit pairs at the low
    end of the generated word, cut off at [max_level], and a non-zero
    generator state stays non-zero. *)
Lemma random_level_spec (fuel : nat) (s max_level : Z)
    (Hmax : 1 ≤ max_level) (Hfuel : (Z.to_nat max_level ≤ fuel)%nat)
    (Hs : is_u64 s) (Hs0 : s ≠ 0) :
  ∃ s' l, random_geometric_level fuel s max_level = Ok (s', l) ∧
    1 ≤ l ≤ max_level ∧ s' ≠ 0 ∧ is_u64 s' ∧
    (∀ j, 0 ≤ j < l - 1 → pair11 (Xorshift64.output s') j) ∧
    (l = max_level ∨ ¬ pair11 (Xorshift64.output s') (l - 1)).
Proof.
  destruct (level_loop_spec fuel max_level 1 (Xorshift64.output (Xorshift64.scramble s)))
    as (l & Hl & Hr & Hp & He); [lia|lia|].
  exists (Xorshift64.scramble s), l. unfold random_geometric_level. rewrite Hl.
  split; [done|]. split; [lia|]. split; [by apply Xorshift64.scramble_nonzero|].
  split; [by apply Xorshift64.scramble_u64|]. done.
Qed.
