(* ===== verification/Arena.v ===== *)
(** * Arena: the bump allocator

    Models [crates/zerokv/src/arena.rs]. [try_reserve] is the body of the
    [alloc_raw] loop up to its CAS and [attempt] one turn of the loop, CAS
    included; [alloc_raw] runs the turns of one caller, and [arena_step]
    interleaves the turns of any number of threads on the shared cursor. *)

From S2P Require Import Prelude.
Local Open Scope Z_scope.
Local Open Scope zkv_scope.

(** ** State *)

(** [struct Arena], with the bytes of the backing allocation. *)
Record Arena : Type := mkArena {
  base : Z;
  cap : Z;
  align : Z;
  head : Z;
  mem : bytes
}.

Definition set_head (a : Arena) (h : Z) : Arena :=
  mkArena (base a) (cap a) (align a) h (mem a).
Definition set_mem (a : Arena) (m : bytes) : Arena :=
  mkArena (base a) (cap a) (align a) (head a) m.

(** [Arena::with_capacity]; [raw] is the block the allocator returned (0 for
    null) and [junk] its uninitialised contents. *)
Definition with_capacity (cap align raw : Z) (junk : bytes) : res Arena :=
  if negb (is_power_of_two align) then Err Panic
  else if negb (0 <? cap) then Err Panic
  else if negb (layout_from_size_align cap align) then Err Panic
  else if raw =? 0 then Err Abort
  else Ok (mkArena raw cap align 0 junk).

(** ** Allocation *)

(** The loop body of [alloc_raw] before the CAS: the aligned address and the
    cursor to publish, or [None] when the arena is exhausted. *)
Definition try_reserve (a : Arena) (cur size align : Z) : option (Z * Z) :=
  let start := wadd (base a) cur in
  let aligned := align_up start align in
  let pad := wsub aligned start in
  h1 ← checked_add cur pad;
  new_head ← checked_add h1 size;
  if cap a <? new_head then None else Some (aligned, new_head).

(** Where a call of [alloc_raw] stands: about to run the loop body with a
    local [cur], or returned. *)
Inductive alloc_pc : Type :=
| ALoop (cur size align : Z)
| ADone (ptr : option Z).

(** The part of [alloc_raw] before the loop. *)
Definition alloc_start (a : Arena) (size align : Z) : alloc_pc :=
  if size =? 0 then ADone (Some (base a)) else ALoop (head a) size align.

(** One turn of the loop. [spurious] is [compare_exchange_weak] failing
    although the cursor matches. *)
Definition attempt (spurious : bool) (a : Arena) (pc : alloc_pc) : Arena * alloc_pc :=
  match pc with
  | ADone p => (a, ADone p)
  | ALoop cur size align =>
    match try_reserve a cur size align with
    | None => (a, ADone None)
    | Some (aligned, new_head) =>
      if negb spurious && (head a =? cur)
      then (set_head a new_head, ADone (Some aligned))
      else (a, ALoop (head a) size align)
    end
  end.

(** [alloc_raw] run by one caller with nobody else on the arena; [sp] says
    which of its CAS attempts fail spuriously. *)
Fixpoint alloc_run (sp : list bool) (a : Arena) (pc : alloc_pc) : res (option Z * Arena) :=
  match pc with
  | ADone p => Ok (p, a)
  | ALoop _ _ _ =>
    match sp with
    | [] => Err OutOfFuel
    | b :: sp' => let '(a', pc') := attempt b a pc in alloc_run sp' a' pc'
    end
  end.

Definition alloc_raw (sp : list bool) (a : Arena) (size align : Z) : res (option Z * Arena) :=
  alloc_run (sp ++ [false; false]) a (alloc_start a size align).

(** [Arena::push_bytes]: the returned borrow is the pair of its address and
    length. *)
Definition push_bytes (sp : list bool) (a : Arena) (bs : bytes)
    : res (option (Z * Z) * Arena) :=
  '(dst, a') ←r alloc_raw sp a (blen bs) 1;
  match dst with
  | None => Ok (None, a')
  | Some dst =>
    Ok (Some (dst, blen bs), set_mem a' (blit (mem a') (dst - base a') bs))
  end.

(** What a borrow [(ptr, len)] reads. *)
Definition read_span (a : Arena) (s : Z * Z) : bytes :=
  slice (mem a) (s.1 - base a) s.2.

Definition used (a : Arena) : Z := head a.
Definition capacity (a : Arena) : Z := cap a.

(** [Arena::reset]. *)
Definition reset (a : Arena) : Arena := set_head a 0.

(** [Drop for Arena]: the layout handed to [dealloc]. *)
Definition drop_layout (a : Arena) : res (Z * Z) :=
  if layout_from_size_align (cap a) (align a) then Ok (cap a, align a) else Err Panic.

(** ** Invariant *)

(** [base] is a live block of [cap] bytes and [head <= cap]. *)
Definition Arena_wf (a : Arena) : Prop :=
  block_ok (base a) (cap a) (align a) ∧ 0 ≤ head a ≤ cap a ∧ blen (mem a) = cap a.

(** The request leaves room for the rounding in the address space. *)
Definition request_ok (a : Arena) (size al : Z) : Prop :=
  0 ≤ size < W64 ∧ (∃ k, 0 ≤ k ∧ al = 2 ^ k) ∧ base a + cap a + al ≤ W64.

Lemma checked_add_spec x y :
  checked_add x y = if decide (x + y < W64) then Some (x + y) else None.
Proof.
  unfold checked_add. destruct (Z.ltb_spec (x + y) W64); case_decide; (lia || done).
Qed.

Lemma try_reserve_spec a cur size al :
  Arena_wf a → request_ok a size al → 0 ≤ cur ≤ cap a →
  let aligned := align_up (base a + cur) al in
  try_reserve a cur size al =
    (if decide (aligned - base a + size ≤ cap a)
     then Some (aligned, aligned - base a + size) else None) ∧
  base a + cur ≤ aligned < base a + cur + al ∧ aligned mod al = 0.
Proof.
  intros ((Hb & _ & Hbc) & Hh & _) (Hs & (k & Hk & ->) & Hr) Hc aligned.
  pose proof (Z.pow_pos_nonneg 2 k ltac:(lia) Hk) as Hp.
  destruct (align_up_spec (base a + cur) k) as [Hr1 Hr2]; [lia..|].
  fold aligned in Hr1, Hr2. split; [|done].
  unfold try_reserve. rewrite (wadd_small (base a)) by (unfold is_u64; lia).
  fold aligned. cbv zeta.
  unfold wsub. rewrite wrap64_small by (unfold is_u64; lia).
  rewrite checked_add_spec, decide_True by lia. simpl.
  rewrite checked_add_spec. replace (cur + (aligned - (base a + cur)))
    with (aligned - base a) by lia.
  case_decide; simpl.
  - destruct (Z.ltb_spec (cap a) (aligned - base a + size)); case_decide; (lia || done).
  - rewrite decide_False by lia. done.
Qed.

(** ** Concurrent allocation *)

(** A region handed out and still borrowed: offset from [base], size, and the
    alignment it was asked for. *)
Record region : Type := mkRegion {
  r_off : Z;
  r_size : Z;
  r_align : Z
}.

Definition disjoint_regions (r1 r2 : region) : Prop :=
  r_off r1 + r_size r1 ≤ r_off r2 ∨ r_off r2 + r_size r2 ≤ r_off r1.

Record AState : Type := mkAState {
  arena : Arena;
  threads : list alloc_pc;
  live : list region
}.

(** Any thread may call, run a loop turn or take its result; a call that
    returns at once, as a zero-sized one does, hands out its region there and
    then. [reset] is the unsafe call whose contract is that no borrow is
    alive. *)
Inductive arena_step : AState → AState → Prop :=
| step_call s i p size al cur :
    threads s !! i = Some (ADone p) → request_ok (arena s) size al →
    alloc_start (arena s) size al = ALoop cur size al →
    arena_step s (mkAState (arena s) (<[i := ALoop cur size al]> (threads s)) (live s))
| step_call_returns s i p size al ptr :
    threads s !! i = Some (ADone p) → request_ok (arena s) size al →
    alloc_start (arena s) size al = ADone (Some ptr) →
    arena_step s (mkAState (arena s) (<[i := ADone (Some ptr)]> (threads s))
      (mkRegion (ptr - base (arena s)) size al :: live s))
| step_retry s i b cur size al a' cur' :
    threads s !! i = Some (ALoop cur size al) →
    attempt b (arena s) (ALoop cur size al) = (a', ALoop cur' size al) →
    arena_step s (mkAState a' (<[i := ALoop cur' size al]> (threads s)) (live s))
| step_exhausted s i b cur size al a' :
    threads s !! i = Some (ALoop cur size al) →
    attempt b (arena s) (ALoop cur size al) = (a', ADone None) →
    arena_step s (mkAState a' (<[i := ADone None]> (threads s)) (live s))
| step_reserve s i b cur size al a' ptr :
    threads s !! i = Some (ALoop cur size al) →
    attempt b (arena s) (ALoop cur size al) = (a', ADone (Some ptr)) →
    arena_step s (mkAState a' (<[i := ADone (Some ptr)]> (threads s))
      (mkRegion (ptr - base (arena s)) size al :: live s))
| step_release s r1 r r2 :
    live s = r1 ++ r :: r2 →
    arena_step s (mkAState (arena s) (threads s) (r1 ++ r2))
| step_reset s :
    live s = [] →
    arena_step s (mkAState (reset (arena s)) (threads s) []).

Definition arena_init (a : Arena) (n : nat) : AState :=
  mkAState a (replicate n (ADone None)) [].

Definition region_ok (a : Arena) (r : region) : Prop :=
  0 ≤ r_off r ∧ r_off r + r_size r ≤ head a ∧
  (r_size r = 0 ∧ r_off r = 0 ∨
   0 < r_size r ∧ (base a + r_off r) mod r_align r = 0).

Definition pc_ok (a : Arena) (pc : alloc_pc) : Prop :=
  match pc with
  | ADone _ => True
  | ALoop cur size al => 0 ≤ cur ≤ cap a ∧ 0 < size ∧ request_ok a size al
  end.

Record AState_inv (s : AState) : Prop := mkAInv {
  inv_wf : Arena_wf (arena s);
  inv_pcs : Forall (pc_ok (arena s)) (threads s);
  inv_regions : Forall (region_ok (arena s)) (live s);
  inv_disjoint : ForallOrdPairs disjoint_regions (live s)
}.

Lemma FOP_middle_remove {A} (R : A → A → Prop) l1 x l2 :
  ForallOrdPairs R (l1 ++ x :: l2) → ForallOrdPairs R (l1 ++ l2).
Proof.
  induction l1 as [|y l1 IH]; simpl; inversion_clear 1; [done|].
  constructor; [|by apply IH].
  rewrite Forall_app in *. destruct H0 as [? H2]. split; [done|].
  by inversion_clear H2.
Qed.

(** What one loop turn can do. *)
Lemma attempt_cases b a cur size al :
  Arena_wf a → pc_ok a (ALoop cur size al) →
  let '(a', pc') := attempt b a (ALoop cur size al) in
  (a' = a ∧ (pc' = ADone None ∨ pc' = ALoop (head a) size al)) ∨
  (∃ ptr, pc' = ADone (Some ptr) ∧ head a = cur ∧
     a' = set_head a (ptr - base a + size) ∧
     base a + cur ≤ ptr ∧ ptr mod al = 0 ∧ ptr - base a + size ≤ cap a).
Proof.
  intros Hwf (Hc & Hs & Hr). simpl.
  destruct (try_reserve_spec a cur size al Hwf Hr Hc) as (-> & Hge & Hal).
  case_decide; [|by left; split; [|left]].
  destruct (negb b && (head a =? cur)) eqn:E; [|by left; split; [|right]].
  apply andb_true_iff in E as [_ E%Z.eqb_eq].
  right. eexists. repeat (split; [done|]). split; [lia|]. by split.
Qed.

Lemma head_grows a h :
  Arena_wf a → head a ≤ h ≤ cap a →
  Arena_wf (set_head a h) ∧
  (∀ r, region_ok a r → region_ok (set_head a h) r) ∧
  (∀ pc, pc_ok a pc → pc_ok (set_head a h) pc).
Proof.
  intros (Hb & Hh & Hm) Hle. split; [|split].
  - split; [done|]. split; [simpl; lia|done].
  - intros r (H1 & H2 & H3). split; [done|]. simpl. split; [lia|done].
  - by intros [].
Qed.

Lemma reserve_preserves s i size al h ptr :
  AState_inv s → 0 < size →
  base (arena s) + head (arena s) ≤ ptr → ptr mod al = 0 →
  h = ptr - base (arena s) + size → h ≤ cap (arena s) →
  AState_inv (mkAState (set_head (arena s) h)
    (<[i := ADone (Some ptr)]> (threads s))
    (mkRegion (ptr - base (arena s)) size al :: live s)).
Proof.
  intros [Hwf Hp Hr Hd] Hs Hge Hal Hh Hle.
  destruct (head_grows (arena s) h Hwf) as (Hwf' & Hr' & Hp'); [lia|].
  split; simpl.
  - done.
  - apply Forall_insert; [|done]. by eapply Forall_impl.
  - constructor; [|by eapply Forall_impl].
    unfold region_ok. simpl. destruct Hwf as (_ & ? & _).
    replace (base (arena s) + (ptr - base (arena s))) with ptr by lia.
    split; [lia|]. split; [lia|]. by right.
  - constructor; [|done]. eapply Forall_impl; [exact Hr|].
    intros r (_ & Hlt & _). right. simpl. lia.
Qed.

Lemma alloc_start_pc_ok a size al :
  Arena_wf a → request_ok a size al → pc_ok a (alloc_start a size al).
Proof.
  intros (_ & Hh & _) Hr. unfold alloc_start.
  destruct (Z.eqb_spec size 0); [done|]. simpl. destruct Hr as [Hr1 Hr2].
  split; [done|]. split; [lia|done].
Qed.

(** A call that returns at once was for no bytes and got [base]. *)
Lemma alloc_start_done a size al ptr :
  alloc_start a size al = ADone (Some ptr) → size = 0 ∧ ptr = base a.
Proof. unfold alloc_start. destruct (Z.eqb_spec size 0); intros ?; by simplify_eq. Qed.

Lemma empty_preserves s i size al ptr :
  AState_inv s → alloc_start (arena s) size al = ADone (Some ptr) →
  AState_inv (mkAState (arena s) (<[i := ADone (Some ptr)]> (threads s))
    (mkRegion (ptr - base (arena s)) size al :: live s)).
Proof.
  intros [Hwf Hp Hr Hd] [-> ->]%alloc_start_done. rewrite Z.sub_diag.
  destruct Hwf as (? & ? & ?). split; simpl; [done|by apply Forall_insert| |].
  - constructor; [|done]. split; simpl; [lia|]. split; [lia|]. by left.
  - constructor; [|done]. eapply Forall_impl; [exact Hr|].
    intros r (Hlt & _). left. simpl. lia.
Qed.

Lemma arena_step_inv s s' : AState_inv s → arena_step s s' → AState_inv s'.
Proof.
  intros Hinv Hst. pose proof Hinv as [Hwf Hp Hr Hd].
  destruct Hst as [s i p size al cur Hi Hq Hst|s i p size al ptr Hi Hq Hst
    |s i b cur size al a' cur' Hi Ha
    |s i b cur size al a' Hi Ha|s i b cur size al a' ptr Hi Ha|s r1 r r2 Hl|s Hl];
    try (pose proof (Forall_lookup_1 _ _ _ _ Hp Hi) as Hpc;
         pose proof (attempt_cases b (arena s) cur size al Hwf Hpc) as Hc;
         unfold pc_ok in Hpc; rewrite Ha in Hc;
         destruct Hc as [[-> Hc]|(q & Hc & He & Hs' & Hge & Hal & Hle)]).
  - split; simpl; try done. apply Forall_insert; [done|].
    rewrite <- Hst. by apply alloc_start_pc_ok.
  - by apply (empty_preserves s i size al ptr).
  - destruct Hc as [|Hc]; simplify_eq. split; simpl; try done.
    apply Forall_insert; [done|]. destruct Hpc. by split; [apply Hwf|].
  - done.
  - split; simpl; try done. by apply Forall_insert.
  - done.
  - by destruct Hc.
  - simplify_eq. destruct Hpc as (_ & Hsz & _). eapply reserve_preserves; try done; lia.
  - rewrite Hl in *. split; simpl; try done.
    + rewrite Forall_app in *. rewrite Forall_cons_iff in Hr.
      destruct Hr as (? & _ & ?). by split.
    + by eapply FOP_middle_remove.
  - rewrite Hl in *. split; simpl; try done.
    destruct Hwf as (? & ? & ?). split; [done|]. split; [simpl; lia|done].
Qed.

Lemma arena_init_inv a n : Arena_wf a → AState_inv (arena_init a n).
Proof.
  intros Hwf. split; simpl; try done; [|constructor].
  apply Forall_replicate. done.
Qed.

(** ** One caller *)

Lemma alloc_run_loop sp a size al :
  Arena_wf a → pc_ok a (ALoop (head a) size al) →
  let aligned := align_up (base a + head a) al in
  alloc_run (sp ++ [false; false]) a (ALoop (head a) size al) =
    if decide (aligned - base a + size ≤ cap a)
    then Ok (Some aligned, set_head a (aligned - base a + size))
    else Ok (None, a).
Proof.
  intros Hwf (Hc & Hs & Hr) aligned.
  destruct (try_reserve_spec a (head a) size al Hwf Hr Hc) as (He & _).
  fold aligned in He.
  induction sp as [|[] sp IH]; simpl; rewrite He; case_decide; simpl;
    rewrite ?Z.eqb_refl; simpl; try done; by destruct sp as [|? sp].
Qed.

(** [alloc_raw] on every branch: a zero-sized request is [base]; otherwise
    the cursor rounded up, or [None] exactly when the request does not fit. *)
Lemma alloc_raw_spec sp a size al :
  Arena_wf a → request_ok a size al →
  let aligned := align_up (base a + head a) al in
  alloc_raw sp a size al =
    if decide (size = 0) then Ok (Some (base a), a)
    else if decide (aligned - base a + size ≤ cap a)
    then Ok (Some aligned, set_head a (aligned - base a + size))
    else Ok (None, a).
Proof.
  intros Hwf Hr aligned. unfold alloc_raw.
  pose proof (alloc_start_pc_ok a size al Hwf Hr) as Hpc.
  revert Hpc. unfold alloc_start.
  destruct (Z.eqb_spec size 0) as [->|Hne]; intros Hpc.
  - rewrite decide_True by done. by destruct sp.
  - rewrite decide_False by done. by apply alloc_run_loop.
Qed.

Lemma align_up_1 x : is_u64 x → align_up x 1 = x.
Proof.
  intros [H0 H1]. destruct (align_up_spec x 0) as [Hr _]; [lia..|].
  change (2 ^ 0) with 1 in Hr. lia.
Qed.

(** [push_bytes] on every branch. *)
Lemma push_bytes_spec sp a bs :
  Arena_wf a → base a + cap a + 1 ≤ W64 → blen bs < W64 →
  push_bytes sp a bs =
    if decide (bs = []) then Ok (Some (base a, 0), set_mem a (mem a))
    else if decide (head a + blen bs ≤ cap a)
    then Ok (Some (base a + head a, blen bs),
             set_mem (set_head a (head a + blen bs)) (blit (mem a) (head a) bs))
    else Ok (None, a).
Proof.
  intros Hwf Hb Hlt. pose proof Hwf as ((Hb0 & _) & Hh & Hm). unfold push_bytes.
  rewrite alloc_raw_spec; [|done|].
  2: { split; [lia|]. split; [by exists 0|lia]. }
  rewrite align_up_1 by (unfold is_u64; lia).
  replace (base a + head a - base a) with (head a) by lia.
  destruct (decide (bs = [])) as [->|Hne].
  - simpl. rewrite Z.sub_diag. unfold blit. simpl. by rewrite drop_0.
  - rewrite decide_False by (destruct bs; simpl; (done || lia)).
    case_decide; [|done]. simpl. unfold set_mem, set_head. simpl.
    by replace (base a + head a - base a) with (head a) by lia.
Qed.

Lemma with_capacity_wf c al raw junk a :
  with_capacity c al raw junk = Ok a → block_ok raw c al → blen junk = c →
  Arena_wf a.
Proof.
  unfold with_capacity. intros Ha Hb Hj.
  destruct (is_power_of_two al); [|done].
  destruct (Z.ltb_spec 0 c); [|done].
  destruct (layout_from_size_align c al); [|done].
  destruct (raw =? 0); [done|]. simpl in Ha. simplify_eq. split; [exact Hb|]. simpl. lia.
Qed.

Lemma arena_reachable_inv s s' :
  AState_inv s → rtc arena_step s s' → AState_inv s'.
Proof. intros Hi Hr. induction Hr; eauto using arena_step_inv. Qed.

(** No step touches the block itself. *)
Lemma attempt_block b a pc : cap (attempt b a pc).1 = cap a ∧ align (attempt b a pc).1 = align a.
Proof.
  destruct pc as [cur size al|p]; simpl; [|done].
  destruct (try_reserve a cur size al) as [[aligned h]|]; [|done]. by destruct (_ && _).
Qed.

Lemma arena_block s s' :
  rtc arena_step s s' → cap (arena s') = cap (arena s) ∧ align (arena s') = align (arena s).
Proof.
  induction 1 as [s|s s1 s2 Hs _ [-> ->]]; [done|].
  destruct Hs as [| | s i b cur size al a' cur' _ Ha | s i b cur size al a' _ Ha
                 | s i b cur size al a' ptr _ Ha | |]; try done;
    pose proof (attempt_block b (arena s) (ALoop cur size al)) as Hb; by rewrite Ha in Hb.
Qed.

Lemma FOP_lookup {A} (R : A → A → Prop) l i j x y :
  (∀ x y, R x y → R y x) → ForallOrdPairs R l →
  i ≠ j → l !! i = Some x → l !! j = Some y → R x y.
Proof.
  intros Hsym Hl. revert i j. induction Hl as [|z l Hz Hl IH]; [done|].
  rewrite Forall_lookup in Hz.
  intros [|i] [|j] Hne Hi Hj; simpl in *; simplify_eq; eauto.
Qed.

Lemma disjoint_regions_sym r1 r2 : disjoint_regions r1 r2 → disjoint_regions r2 r1.
Proof. unfold disjoint_regions. lia. Qed.

Lemma blit_preserves_span a bs s :
  Arena_wf a → 0 ≤ s.2 → base a ≤ s.1 → s.1 + s.2 ≤ base a + head a →
  head a + blen bs ≤ cap a →
  read_span (set_mem (set_head a (head a + blen bs)) (blit (mem a) (head a) bs)) s
  = read_span a s.
Proof.
  intros (_ & Hh & Hm) H1 H2 H3 H4. unfold read_span. simpl.
  apply slice_blit_disjoint; lia.
Qed.

Lemma push_bytes_wf sp a bs o a' :
  Arena_wf a → base a + cap a + 1 ≤ W64 → blen bs < W64 →
  push_bytes sp a bs = Ok (o, a') →
  Arena_wf a' ∧ base a' = base a ∧ cap a' = cap a ∧ head a ≤ head a' ∧
  (∀ s, 0 ≤ s.2 → base a ≤ s.1 → s.1 + s.2 ≤ base a + head a →
     read_span a' s = read_span a s) ∧
  (∀ s, o = Some s → s.2 = blen bs ∧ base a ≤ s.1 ∧ s.1 + s.2 ≤ base a + head a' ∧
     read_span a' s = bs).
Proof.
  intros Hwf Hb Hlt. rewrite push_bytes_spec by done.
  pose proof Hwf as (Hbk & Hh & Hm).
  destruct (decide (bs = [])) as [->|Hne].
  - intros Hx. simplify_eq. unfold set_mem, read_span, slice. simpl.
    split; [by split|]. repeat (split; [done|]).
    intros s Hs. simplify_eq. simpl. repeat split; (lia || done).
  - case_decide; intros Hx; simplify_eq.
    + unfold Arena_wf. simpl. rewrite length_blit by lia.
      split; [split_and!; (done || lia)|].
      do 3 (split; [done || lia|]). split.
      { intros s ???. by apply (blit_preserves_span a bs s). }
      intros s Hs. simplify_eq. simpl. repeat (split; [done || lia|]).
      unfold read_span. simpl.
      replace (base a + head a - base a) with (head a) by lia.
      apply slice_blit_same; lia.
    + repeat (split; [done || lia|]). done.
Qed.

(** ** Properties *)

(** [C22] Whatever the interleaving of any number of allocating threads,
    spurious CAS failures included, and whatever the sizes and alignments
    asked for, every region still borrowed lies inside the arena; one of at
    least a byte starts at the alignment requested, while a zero-sized one
    starts at [base] whatever the alignment. Two borrowed regions never share
    a byte, the cursor never passes the capacity, and dropping the arena frees
    the block with the layout it was allocated with. *)
Theorem arena_concurrent_safety c al raw junk a n s :
  with_capacity c al raw junk = Ok a → block_ok raw c al → blen junk = c →
  rtc arena_step (arena_init a n) s →
  0 ≤ head (arena s) ≤ cap (arena s) ∧
  (∀ i r, live s !! i = Some r →
     0 ≤ r_off r ∧ r_off r + r_size r ≤ cap (arena s) ∧
     (r_size r = 0 ∧ r_off r = 0 ∨
      0 < r_size r ∧ (base (arena s) + r_off r) mod r_align r = 0)) ∧
  (∀ i j r1 r2, i ≠ j → live s !! i = Some r1 → live s !! j = Some r2 →
     disjoint_regions r1 r2) ∧
  drop_layout (arena s) = Ok (c, al).
Proof.
  intros Ha Hb Hj Hs.
  destruct (arena_reachable_inv _ _ (arena_init_inv a n (with_capacity_wf _ _ _ _ _ Ha Hb Hj)) Hs)
    as [(? & Hh & ?) Hp Hr Hd].
  split; [done|]. split; [|split].
  - intros i r Hi. destruct (Forall_lookup_1 _ _ _ _ Hr Hi) as (? & ? & ?).
    split; [done|]. split; [lia|done].
  - intros i j r1 r2. by apply FOP_lookup, Hd; apply disjoint_regions_sym.
  - destruct (arena_block _ _ Hs) as [Ec Ea]. unfold drop_layout. rewrite Ec, Ea. simpl.
    unfold with_capacity in Ha. destruct (negb _); [done|]. destruct (negb _); [done|].
    destruct (layout_from_size_align c al) eqn:Hl; [|done]. simpl in Ha.
    destruct (raw =? 0); [done|]. simplify_eq. simpl. by rewrite Hl.
Qed.

(** [push_bytes] without contention: it returns [None] exactly when the
    bytes do not fit and then changes nothing; otherwise the returned borrow
    reads back the bytes, every earlier borrow still reads what it read, and
    the cursor has moved by the length. *)
Lemma push_bytes_correct sp a bs :
  Arena_wf a → base a + cap a + 1 ≤ W64 → blen bs < W64 →
  ∃ o a', push_bytes sp a bs = Ok (o, a') ∧ Arena_wf a' ∧
    (o = None ↔ cap a < head a + blen bs ∧ bs ≠ []) ∧
    (o = None → a' = a) ∧
    (∀ s, o = Some s → read_span a' s = bs ∧ used a' = used a + blen bs) ∧
    (∀ s, 0 ≤ s.2 → base a ≤ s.1 → s.1 + s.2 ≤ base a + head a →
       read_span a' s = read_span a s).
Proof.
  intros Hwf Hb Hlt. destruct (push_bytes sp a bs) as [[o a']|f] eqn:E.
  2: { rewrite push_bytes_spec in E by done. by repeat case_decide. }
  exists o, a'. split; [done|].
  destruct (push_bytes_wf _ _ _ _ _ Hwf Hb Hlt E) as (? & ? & ? & ? & ? & Ho).
  rewrite push_bytes_spec in E by done. unfold used.
  split; [done|]. split; [|split; [|split; [|done]]].
  - repeat case_decide; simplify_eq; (split; [intros; split; (lia || done)|]);
      intros [? ?]; (lia || done).
  - repeat case_decide; simplify_eq; done.
  - intros s Hs. destruct (Ho s Hs) as (? & _ & _ & ->). split; [done|].
    repeat case_decide; simplify_eq; simpl; lia.
Qed.

Definition demo_arena : Arena := mkArena 4096 64 64 0 (replicate 64 0).

Lemma demo_arena_wf : Arena_wf demo_arena.
Proof. split; [|done]. repeat split; done. Defined.

(** Two threads race for the cursor and the loser retries; the first then
    asks for no bytes at alignment 8192 and gets [base], which is not. *)
Lemma arena_concurrent_safety_witness :
  let s := mkAState (set_head demo_arena 24)
             [ADone (Some 4096); ADone (Some 4112)]
             [mkRegion 0 0 8192; mkRegion 16 8 16; mkRegion 0 5 1] in
  rtc arena_step (arena_init demo_arena 2) s ∧
  disjoint_regions (mkRegion 16 8 16) (mkRegion 0 5 1) ∧ head (arena s) ≤ 64 ∧
  (0 < 8 ∧ (4096 + 16) mod 16 = 0) ∧ (4096 + 0) mod 8192 ≠ 0.
Proof.
  assert (Hr1 : request_ok demo_arena 5 1) by (repeat split; [done..| |done]; by exists 0).
  assert (Hr2 : request_ok demo_arena 8 16) by (repeat split; [done..| |done]; by exists 4).
  assert (Hr3 : request_ok (set_head demo_arena 24) 0 8192)
    by (repeat split; [done..| |done]; by exists 13).
  intros s.
  assert (Hs : rtc arena_step (arena_init demo_arena 2) s).
  { eapply rtc_l; [apply (step_call _ 0%nat None 5 1 0); [reflexivity|exact Hr1|reflexivity]|].
    eapply rtc_l; [apply (step_call _ 1%nat None 8 16 0); [reflexivity|exact Hr2|reflexivity]|].
    eapply rtc_l; [eapply (step_reserve _ 0%nat false 0 5 1 _ 4096); reflexivity|].
    eapply rtc_l; [eapply (step_retry _ 1%nat false 0 8 16 _ 5); reflexivity|].
    eapply rtc_l; [eapply (step_reserve _ 1%nat false 5 8 16 _ 4112); reflexivity|].
    eapply rtc_l; [apply (step_call_returns _ 0%nat (Some 4096) 0 8192 4096);
                   [reflexivity|exact Hr3|reflexivity]|].
    apply rtc_refl. }
  destruct (arena_concurrent_safety 64 64 4096 (replicate 64 0) demo_arena 2 s)
    as (Hh & Hin & Hd & _); [reflexivity|done|done|exact Hs|].
  split; [exact Hs|]. split; [by apply (Hd 1%nat 2%nat)|]. split; [apply Hh|]. split; [|done].
  destruct (Hin 1%nat (mkRegion 16 8 16) eq_refl) as (_ & _ & [[? _]|H]); [done|exact H].
Defined.

(** A zero-sized request ignores the alignment: the address returned is
    [base], here not a multiple of the 64 asked for. *)
Lemma zero_size_misaligned :
  let a := mkArena 4097 64 1 0 (replicate 64 0) in
  Arena_wf a ∧ request_ok a 0 64 ∧
  alloc_raw [] a 0 64 = Ok (Some 4097, a) ∧ 4097 mod 64 ≠ 0.
Proof.
  split; [split; [|done]; repeat split; done|].
  split; [repeat split; [done..| |done]; by exists 6|]. by split.
Qed.
