(* ===== verification/ZeroCopy.v ===== *)
(** * ZeroCopy: the arena-backed store behind the GAT contract

    Models [ArenaKv] of [crates/zerokv/src/zerocopy.rs]: [new], [put] and
    [ZeroCopyStorage::get]. Entries are raw spans into the arena, as in the
    source; [get] materialises a borrow as the span it would point to. The
    specification is the association list of the accepted puts, in which the
    first binding of a key is the one found. *)

From S2P Require Import Prelude Arena.
Local Open Scope Z_scope.
Local Open Scope zkv_scope.

Module ArenaKv.

(** One element of [entries]: key span and value span. *)
Abbreviation entry := (Z * Z * (Z * Z))%type.

Record t : Type := mk {
  arena : Arena;
  entries : list entry
}.

(** [ArenaKv::new]. *)
Definition new (cap raw : Z) (junk : bytes) : res t :=
  a ←r with_capacity cap 64 raw junk; Ok (mk a []).

(** [ArenaKv::put]; [sp1], [sp2] are the spurious CAS failures of the two
    allocations. *)
Definition put (sp1 sp2 : list bool) (kv : t) (key val : bytes) : res (bool * t) :=
  '(k, a1) ←r push_bytes sp1 (arena kv) key;
  match k with
  | None => Ok (false, mk a1 (entries kv))
  | Some k =>
    '(v, a2) ←r push_bytes sp2 a1 val;
    match v with
    | None => Ok (false, mk a2 (entries kv))
    | Some v => Ok (true, mk a2 (entries kv ++ [(k, v)]))
    end
  end.

(** The [for] loop of [ZeroCopyStorage::get]. *)
Fixpoint scan (a : Arena) (es : list entry) (key : bytes) : option (Z * Z) :=
  match es with
  | [] => None
  | (k, v) :: es' => if decide (read_span a k = key) then Some v else scan a es' key
  end.

(** [ZeroCopyStorage::get]: the borrowed span of the value. *)
Definition get (kv : t) (key : bytes) : option (Z * Z) :=
  scan (arena kv) (entries kv) key.

(** ** Specification *)

(** The value of the first binding of a key. *)
Fixpoint first_binding (l : list (bytes * bytes)) (key : bytes) : option bytes :=
  match l with
  | [] => None
  | (k, v) :: l' => if decide (k = key) then Some v else first_binding l' key
  end.

(** A span of bytes already handed out. *)
Definition span_in (a : Arena) (s : Z * Z) : Prop :=
  0 ≤ s.2 ∧ base a ≤ s.1 ∧ s.1 + s.2 ≤ base a + head a.

Definition entry_rep (a : Arena) (e : entry) (b : bytes * bytes) : Prop :=
  span_in a e.1 ∧ span_in a e.2 ∧ read_span a e.1 = b.1 ∧ read_span a e.2 = b.2.

(** The store represents the bindings [l], oldest first. *)
Record rep (kv : t) (l : list (bytes * bytes)) : Prop := mk_rep {
  rep_wf : Arena_wf (arena kv);
  rep_room : base (arena kv) + cap (arena kv) + 1 ≤ W64;
  rep_entries : Forall2 (entry_rep (arena kv)) (entries kv) l
}.

(** What a successful or failed [push_bytes] leaves intact. *)
Lemma push_bytes_entry sp a bs o a' e b :
  Arena_wf a → base a + cap a + 1 ≤ W64 → blen bs < W64 →
  push_bytes sp a bs = Ok (o, a') → entry_rep a e b → entry_rep a' e b.
Proof.
  intros Hwf Hb Hl He ((?&?&?) & (?&?&?) & Hk & Hv).
  destruct (push_bytes_wf _ _ _ _ _ Hwf Hb Hl He) as (_ & Hba & _ & Hh & Hs & _).
  unfold entry_rep, span_in. rewrite Hba.
  rewrite !Hs by (try done; lia). repeat split; (done || lia).
Qed.

Lemma push_bytes_rep sp a bs es l o a' :
  rep (mk a es) l → blen bs < W64 → push_bytes sp a bs = Ok (o, a') →
  rep (mk a' es) l.
Proof.
  intros [Hwf Hb Hf] Hl He. simpl in *.
  destruct (push_bytes_wf _ _ _ _ _ Hwf Hb Hl He) as (? & Hba & Hca & _).
  split; simpl; [done|by rewrite Hba, Hca|].
  eapply Forall2_impl; [exact Hf|]. intros e b. by eapply push_bytes_entry.
Qed.

Lemma scan_rep a es l key :
  Forall2 (entry_rep a) es l →
  read_span a <$> scan a es key = first_binding l key.
Proof.
  induction 1 as [|[k v] [k' v'] es l (_ & _ & Hk & Hv) _ IH]; [done|].
  simpl in *. rewrite Hk. case_decide; simpl; congruence.
Qed.

Lemma push_total sp a bs :
  Arena_wf a → base a + cap a + 1 ≤ W64 → blen bs < W64 →
  ∃ o a', push_bytes sp a bs = Ok (o, a').
Proof. intros. rewrite push_bytes_spec by done. repeat case_decide; eauto. Qed.

Lemma push_bytes_fits sp a bs o a' :
  Arena_wf a → base a + cap a + 1 ≤ W64 → blen bs < W64 →
  push_bytes sp a bs = Ok (o, a') →
  match o with
  | None => bs ≠ [] ∧ cap a < head a + blen bs
  | Some _ => (bs = [] ∨ head a + blen bs ≤ cap a) ∧ head a' = head a + blen bs
  end.
Proof.
  intros Hwf Hb Hl. rewrite push_bytes_spec by done.
  repeat case_decide; intros; simplify_eq; simpl; auto with lia.
Qed.

(** [put] keeps the representation, adding its binding when it succeeds. *)
Lemma put_rep sp1 sp2 kv l key val :
  rep kv l → blen key < W64 → blen val < W64 →
  ∃ b kv', put sp1 sp2 kv key val = Ok (b, kv') ∧
    rep kv' (if b then l ++ [(key, val)] else l) ∧
    (b = true ↔ blen key + blen val ≤ capacity (arena kv) - used (arena kv)
       ∨ key = [] ∧ val = []).
Proof.
  destruct kv as [a es]. intros Hr Hk Hv.
  pose proof Hr as [Hwf Hb _]. simpl in Hwf, Hb.
  destruct (push_total sp1 a key Hwf Hb Hk) as (o1 & a1 & E1).
  pose proof (push_bytes_rep _ _ _ _ _ _ _ Hr Hk E1) as Hr1.
  pose proof Hr1 as [Hwf1 Hb1 _]. simpl in Hwf1, Hb1.
  destruct (push_total sp2 a1 val Hwf1 Hb1 Hv) as (o2 & a2 & E2).
  pose proof (push_bytes_rep _ _ _ _ _ _ _ Hr1 Hv E2) as Hr2.
  destruct (push_bytes_wf _ _ _ _ _ Hwf Hb Hk E1) as (_ & Hba1 & Hca1 & Hh1 & Hs1 & Ho1).
  destruct (push_bytes_wf _ _ _ _ _ Hwf1 Hb1 Hv E2) as (_ & Hba2 & Hca2 & Hh2 & Hs2 & Ho2).
  pose proof (push_bytes_fits _ _ _ _ _ Hwf Hb Hk E1) as F1.
  pose proof (push_bytes_fits _ _ _ _ _ Hwf1 Hb1 Hv E2) as F2.
  unfold put, capacity, used. simpl. rewrite E1. simpl.
  destruct Hwf as (_ & Hhd & _).
  destruct o1 as [k|].
  2: { exists false, (mk a1 es). do 2 (split; [done|]). destruct F1. split; [done|].
       intros [?|[? _]]; [lia|done]. }
  rewrite E2. simpl. destruct (Ho1 k eq_refl) as (Hk2 & ? & ? & Hkr).
  destruct o2 as [v|].
  2: { exists false, (mk a2 es). do 2 (split; [done|]). destruct F2. split; [done|].
       intros [?|[_ ?]]; [lia|done]. }
  exists true, (mk a2 (es ++ [(k, v)])). split; [done|].
  destruct (Ho2 v eq_refl) as (Hv2 & ? & ? & Hvr). split.
  - destruct Hr2 as [? ? Hf2]. split; simpl; [done..|].
    apply Forall2_app; [done|]. constructor; [|constructor].
    unfold entry_rep, span_in. simpl. rewrite Hs2 by lia.
    repeat split; (done || lia).
  - split; [|done]. intros _. destruct F1 as [F1 ?], F2 as [F2 ?].
    destruct F1 as [->|F1], F2 as [->|F2]; simpl in *; try (left; lia); by right.
Qed.

(** Which puts of a sequence fit a store with [room] bytes left. A key that
    fits stays in the arena even when its value does not. *)
Fixpoint fits (room : Z) (ops : list (bytes * bytes)) : list bool :=
  match ops with
  | [] => []
  | (k, v) :: ops' =>
    if decide (blen k ≤ room) then
      if decide (blen v ≤ room - blen k) then true :: fits (room - blen k - blen v) ops'
      else false :: fits (room - blen k) ops'
    else false :: fits room ops'
  end.

Definition room (kv : t) : Z := capacity (arena kv) - used (arena kv).

Lemma push_bytes_room sp a bs :
  Arena_wf a → base a + cap a + 1 ≤ W64 → blen bs < W64 →
  ∃ o a', push_bytes sp a bs = Ok (o, a') ∧ cap a' = cap a ∧
    if decide (blen bs ≤ cap a - head a) then o ≠ None ∧ head a' = head a + blen bs
    else o = None ∧ head a' = head a.
Proof.
  intros Hwf Hb Hl. pose proof Hwf as (_ & Hh & _). rewrite push_bytes_spec by done.
  destruct (decide (bs = [])) as [->|Hne].
  - eexists _, _. split; [done|]. simpl. rewrite decide_True by lia. split; [done|].
    split; [done|lia].
  - destruct (decide (head a + blen bs ≤ cap a)).
    + eexists _, _. split; [done|]. simpl. by rewrite decide_True by lia.
    + eexists _, _. split; [done|]. simpl. by rewrite decide_False by lia.
Qed.

(** [put] accepts exactly when key and value fit the room left. *)
Lemma put_room kv l key val b kv' :
  rep kv l → blen key < W64 → blen val < W64 → put [] [] kv key val = Ok (b, kv') →
  fits (room kv) [(key, val)] = [b] ∧
  ∀ ops, fits (room kv) ((key, val) :: ops) = b :: fits (room kv') ops.
Proof.
  destruct kv as [a es]. intros Hr Hk Hv. pose proof Hr as [Hwf Hb _]. simpl in Hwf, Hb.
  destruct (push_bytes_room [] a key Hwf Hb Hk) as (o1 & a1 & E1 & Hc1 & H1).
  pose proof (push_bytes_rep _ _ _ _ _ _ _ Hr Hk E1) as [Hwf1 Hb1 _]. simpl in Hwf1, Hb1.
  destruct (push_bytes_room [] a1 val Hwf1 Hb1 Hv) as (o2 & a2 & E2 & Hc2 & H2).
  unfold put, room, capacity, used. simpl. rewrite E1. simpl.
  destruct (decide (blen key ≤ cap a - head a)) as [Hf|Hf]; destruct H1 as [Ho1 Hh1].
  2: { subst o1. intros [= <- <-]. simpl. by rewrite Hc1, Hh1. }
  destruct o1 as [k|]; [|done]. rewrite E2. simpl. rewrite Hc1, Hh1 in H2.
  replace (cap a - (head a + blen key)) with (cap a - head a - blen key) in H2 by lia.
  destruct (decide (blen val ≤ cap a - head a - blen key)) as [Hg|Hg]; destruct H2 as [Ho2 Hh2].
  - destruct o2 as [v|]; [|done]. intros [= <- <-]. simpl. split; [done|]. intros ops.
    do 2 f_equal. rewrite Hc2, Hc1, Hh2. lia.
  - subst o2. intros [= <- <-]. simpl. split; [done|]. intros ops.
    do 2 f_equal. rewrite Hc2, Hc1, Hh2. lia.
Qed.

(** A history of puts. *)
Fixpoint puts (kv : t) (ops : list (bytes * bytes)) : res (list bool * t) :=
  match ops with
  | [] => Ok ([], kv)
  | (k, v) :: ops' =>
    '(b, kv1) ←r put [] [] kv k v;
    '(bs, kv2) ←r puts kv1 ops';
    Ok (b :: bs, kv2)
  end.

(** The bindings of the puts that returned [true]. *)
Fixpoint accepted (bs : list bool) (ops : list (bytes * bytes)) : list (bytes * bytes) :=
  match bs, ops with
  | true :: bs', op :: ops' => op :: accepted bs' ops'
  | false :: bs', _ :: ops' => accepted bs' ops'
  | _, _ => []
  end.

Lemma puts_rep ops : ∀ kv l,
  rep kv l → Forall (λ op, blen op.1 < W64 ∧ blen op.2 < W64) ops →
  ∃ kv', puts kv ops = Ok (fits (room kv) ops, kv') ∧
    rep kv' (l ++ accepted (fits (room kv) ops) ops).
Proof.
  induction ops as [|[k v] ops IH]; intros kv l Hr Ho.
  - exists kv. split; [done|]. by rewrite app_nil_r.
  - inversion_clear Ho as [|? ? [Hk Hv] Ho']. simpl in Hk, Hv.
    destruct (put_rep [] [] kv l k v Hr Hk Hv) as (b & kv1 & E1 & Hr1 & _).
    destruct (IH kv1 _ Hr1 Ho') as (kv2 & E2 & Hr2).
    destruct (put_room kv l k v b kv1 Hr Hk Hv E1) as [_ Hfit]. rewrite (Hfit ops).
    exists kv2. cbn [puts]. rewrite E1. simpl rbind. rewrite E2. split; [done|].
    destruct b; [by rewrite <- app_assoc in Hr2|done].
Qed.

Lemma new_rep cap raw junk kv :
  new cap raw junk = Ok kv → block_ok raw cap 64 →
  blen junk = cap → rep kv [] ∧ room kv = cap.
Proof.
  unfold new. destruct (with_capacity cap 64 raw junk) as [a|] eqn:E; [|done].
  simpl. intros Hx Hb Hj. simplify_eq.
  pose proof (with_capacity_wf _ _ _ _ _ E Hb eq_refl) as Hwf. destruct Hb as (_ & _ & Hb).
  revert E. unfold with_capacity. repeat case_match; intros; simplify_eq; simpl in *.
  split; [split; simpl; [done|lia|constructor]|]. unfold room, capacity, used. simpl. lia.
Qed.

(** ** Properties *)

(** [C27] After any history of [put]s on a fresh [ArenaKv], a put is accepted
    exactly when its key and value fit the bytes left, and [get] returns a
    borrow of the value of the first accepted [put] of that key, and [None]
    exactly for a key no accepted [put] named: later puts of a key neither
    disturb nor replace the binding found. *)
Theorem arena_kv_refines cap raw junk kv ops :
  new cap raw junk = Ok kv → block_ok raw cap 64 →
  blen junk = cap → Forall (λ op, blen op.1 < W64 ∧ blen op.2 < W64) ops →
  ∃ kv', puts kv ops = Ok (fits cap ops, kv') ∧
    ∀ key, read_span (arena kv') <$> get kv' key = first_binding (accepted (fits cap ops) ops) key.
Proof.
  intros Hn Hb Hj Ho. destruct (new_rep _ _ _ _ Hn Hb Hj) as [Hrep Hroom].
  destruct (puts_rep ops kv [] Hrep Ho) as (kv' & E & Hrep'). rewrite Hroom in *.
  exists kv'. split; [done|]. intros key. unfold get. by apply scan_rep, Hrep'.
Qed.

Lemma arena_kv_refines_witness :
  ∃ kv', puts (mk (mkArena 4096 16 64 0 (replicate 16 0)) [])
      [([1], [10]); ([2], [20]); ([1], [11])] = Ok ([true; true; true], kv') ∧
    read_span (arena kv') <$> get kv' [1] = Some [10].
Proof.
  destruct (arena_kv_refines 16 4096 (replicate 16 0)
    (mk (mkArena 4096 16 64 0 (replicate 16 0)) [])
    [([1], [10]); ([2], [20]); ([1], [11])]) as (kv' & E & H).
  - reflexivity.
  - done.
  - done.
  - repeat constructor.
  - exists kv'. split; [exact E|]. rewrite H. reflexivity.
Defined.

End ArenaKv.
