(* ===== verification/Index.v ===== *)
(** * Index: what an ordered key-value index promises its clients

    [ShardedIndex] and [KvStore] only use the four operations of an index.
    [Index] lists them over a state type [T]; [IndexLaws] says they implement
    a finite map as long as the remaining budget of insertions (address space
    and loop bounds) is positive. [SkipListSpec.v] provides the instance, and
    the clients are proved against this interface only. *)

From S2P Require Import Prelude.
Local Open Scope Z_scope.
Local Open Scope zkv_scope.

Abbreviation store_map := (gmap (list Z) (list Z)).

Class Index (T : Type) : Type := {
  idx_insert : bytes → bytes → T → res (bool * T);
  idx_get : bytes → T → res (option bytes * T);
  idx_remove : bytes → T → res (bool * T);
  idx_len : T → Z;
  (** [idx_rep t M n]: [t] holds the map [M] and [n] more insertions fit. *)
  idx_rep : T → store_map → nat → Prop
}.

Class IndexLaws (T : Type) `{!Index T} : Prop := {
  idx_insert_ok k v t M n :
    idx_rep t M (S n) →
    ∃ t', idx_insert k v t = Ok (bool_decide (M !! k = None), t') ∧
      idx_rep t' (<[k := v]> M) n;
  idx_get_ok k t M n : idx_rep t M n → idx_get k t = Ok (M !! k, t);
  idx_remove_ok k t M n :
    idx_rep t M n →
    ∃ t', idx_remove k t = Ok (bool_decide (is_Some (M !! k)), t') ∧
      idx_rep t' (delete k M) n;
  idx_len_ok t M n : idx_rep t M n → idx_len t = wrap64 (Z.of_nat (size M));
  idx_rep_weaken t M n n' : idx_rep t M n → (n' ≤ n)%nat → idx_rep t M n'
}.

(** ** Histories of operations *)

Inductive op : Type :=
| Put (k v : bytes)
| Get (k : bytes)
| Del (k : bytes)
| Len.

Inductive out : Type :=
| OBool (b : bool)
| OBytes (o : option bytes)
| OLen (n : Z).

(** What a client sees of a map. *)
Definition map_op (o : op) (M : store_map) : out * store_map :=
  match o with
  | Put k v => (OBool (bool_decide (M !! k = None)), <[k := v]> M)
  | Get k => (OBytes (M !! k), M)
  | Del k => (OBool (bool_decide (is_Some (M !! k))), delete k M)
  | Len => (OLen (wrap64 (Z.of_nat (size M))), M)
  end.

Fixpoint map_ops (os : list op) (M : store_map) : list out * store_map :=
  match os with
  | [] => ([], M)
  | o :: os =>
    let '(r, M1) := map_op o M in
    let '(rs, M2) := map_ops os M1 in (r :: rs, M2)
  end.

Section histories.
Context {T : Type} `{!Index T}.

Definition index_op (o : op) (t : T) : res (out * T) :=
  match o with
  | Put k v => '(b, t) ←r idx_insert k v t; Ok (OBool b, t)
  | Get k => '(v, t) ←r idx_get k t; Ok (OBytes v, t)
  | Del k => '(b, t) ←r idx_remove k t; Ok (OBool b, t)
  | Len => Ok (OLen (idx_len t), t)
  end.

Fixpoint index_ops (os : list op) (t : T) : res (list out * T) :=
  match os with
  | [] => Ok ([], t)
  | o :: os =>
    '(r, t) ←r index_op o t;
    '(rs, t) ←r index_ops os t;
    Ok (r :: rs, t)
  end.

Context `{!IndexLaws T}.

Lemma index_op_ok o t M n :
  idx_rep t M (S n) →
  ∃ t', index_op o t = Ok (fst (map_op o M), t') ∧ idx_rep t' (snd (map_op o M)) n.
Proof.
  intros Hr. assert (Hr' : idx_rep t M n) by (eapply idx_rep_weaken; [exact Hr|lia]).
  destruct o as [k v|k|k|]; simpl.
  - destruct (idx_insert_ok k v t M n Hr) as (t' & -> & ?). eauto.
  - rewrite (idx_get_ok k t M n Hr'). eauto.
  - destruct (idx_remove_ok k t M n Hr') as (t' & -> & ?). eauto.
  - rewrite (idx_len_ok t M n Hr'). eauto.
Qed.

(** A history on an index returns what it returns on a map. *)
Lemma index_ops_ok os : ∀ t M,
  idx_rep t M (length os) →
  ∃ t', index_ops os t = Ok (fst (map_ops os M), t') ∧ idx_rep t' (snd (map_ops os M)) 0.
Proof.
  induction os as [|o os IH]; intros t M Hr; simpl; [eauto|].
  destruct (index_op_ok o t M (length os) Hr) as (t1 & -> & Hr1).
  destruct (map_op o M) as [r M1]. simpl in *.
  destruct (IH t1 M1 Hr1) as (t2 & -> & Hr2).
  destruct (map_ops os M1) as [rs M2]. simpl in *. eauto.
Qed.

End histories.

(** ** The reference index: a finite map, with an unbounded budget *)

#[export] Instance map_index : Index store_map := {|
  idx_insert k v M := Ok (bool_decide (M !! k = None), <[k := v]> M);
  idx_get k M := Ok (M !! k, M);
  idx_remove k M := Ok (bool_decide (is_Some (M !! k)), delete k M);
  idx_len M := wrap64 (Z.of_nat (size M));
  idx_rep M M' _ := M = M'
|}.

#[export] Instance map_laws : IndexLaws store_map.
Proof.
  split; simpl.
  - intros k v t M n ->. eauto.
  - by intros k t M n ->.
  - intros k t M n ->. eauto.
  - by intros t M n ->.
  - done.
Qed.
