(* ===== verification/SkipList.v ===== *)
(** * SkipList: the lock-free ordered index, as code

    Models [crates/zerokv/src/skiplist.rs]. An operation is a [prog], a tree
    of the atomic accesses the source performs (loads, stores and CAS on the
    tagged forward pointers, the value-cell swap, allocation, [retire]) with
    its control flow in between, so the same definitions have two semantics:
    [run] executes one operation alone, [pool_run] interleaves the accesses of
    several threads one at a time. Loops take fuel; a dereference outside
    every live allocation is [UB].

    The tower of a node is the cells [(address, level)] of [links]; prefetch
    hints and backoff delays have no effect on memory and are left out.
    [SkipListProof.v] has the theorems about [run], [SkipListRace.v] the one
    about [pool_run]. *)

From S2P Require Import Prelude Backoff.
Local Open Scope Z_scope.
Local Open Scope zkv_scope.

(** ** Keys *)

Definition MAX_HEIGHT : nat := 16.
Definition INLINE_CAP : nat := 22.

Inductive KeyRepr : Type :=
| Inline (len : Z) (buf : bytes)
| Boxed (b : bytes).

(** [KeyRepr::new]. *)
Definition KeyRepr_new (key : bytes) : KeyRepr :=
  if (length key <=? INLINE_CAP)%nat
  then Inline (Z.of_nat (length key) mod 256) (blit (replicate INLINE_CAP 0) 0 key)
  else Boxed key.

(** [KeyRepr::as_bytes]. *)
Definition as_bytes (k : KeyRepr) : bytes :=
  match k with
  | Inline len buf => slice buf 0 len
  | Boxed b => b
  end.

Inductive BoundKey : Type :=
| NegInf
| Fin (k : KeyRepr)
| PosInf.

(** [SkipList::key_lt] and [SkipList::key_eq]. *)
Definition key_lt (node_key : BoundKey) (target : bytes) : bool :=
  match node_key with
  | NegInf => true
  | PosInf => false
  | Fin k => bool_decide (bcmp (as_bytes k) target = Lt)
  end.

Definition key_eq (node_key : BoundKey) (target : bytes) : bool :=
  match node_key with
  | Fin k => bool_decide (as_bytes k = target)
  | _ => false
  end.

(** ** Tagged forward pointers *)

Module Link.

Definition null : Z := 0.
(** [Link::pack], [Link::ptr_of], [Link::mark_of]. *)
Definition pack (ptr : Z) (mark : bool) : Z := Z.lor ptr (Z.b2z mark).
Definition ptr_of (v : Z) : Z := Z.land v (wnot 1).
Definition mark_of (v : Z) : bool := Z.land v 1 =? 1.

End Link.

(** ** Memory *)

(** The header of [struct Node]; its forward links are separate cells. *)
Record Node : Type := mkNode {
  key : BoundKey;
  value : Z;
  top_level : nat
}.

(** The two drop functions handed to [Guard::retire]. *)
Inductive drop_fn : Type :=
| drop_node
| drop_value.

(** Memory of one skiplist: node headers, tower cells, value records, the
    allocation frontier, the [len] counter, what was retired so far, and the
    thread-local generator state of [random_level]. *)
Record Mem : Type := mkMem {
  nodes : gmap Z Node;
  links : gmap (Z * nat) Z;
  values : gmap Z bytes;
  brk : Z;
  len : Z;
  retired : list (Z * drop_fn);
  rng : Z
}.

(** [struct SkipList] less its counter. *)
Record SkipList : Type := mkSkipList {
  head : Z;
  max_level : nat
}.

Definition set_nodes (m : Mem) (ns : gmap Z Node) : Mem :=
  mkMem ns (links m) (values m) (brk m) (len m) (retired m) (rng m).
Definition set_links (m : Mem) (ls : gmap (Z * nat) Z) : Mem :=
  mkMem (nodes m) ls (values m) (brk m) (len m) (retired m) (rng m).

(** [Node::layout_for]: 40 header bytes and 8 per link. *)
Definition layout_for (height : nat) : Z := 40 + 8 * Z.of_nat height.
Definition value_size : Z := 16.

(** [n] null links at levels [0..n) of node [p]. *)
Definition null_links (p : Z) (n : nat) (ls : gmap (Z * nat) Z) : gmap (Z * nat) Z :=
  foldr (λ l ls, <[(p, l) := Link.null]> ls) ls (seq 0 n).
Definition free_links (p : Z) (n : nat) (ls : gmap (Z * nat) Z) : gmap (Z * nat) Z :=
  foldr (λ l ls, delete (p, l) ls) ls (seq 0 n).

(** ** Atomic accesses *)

Inductive act : Type → Type :=
| ALoad (p : Z) (l : nat) : act Z
| AStore (p : Z) (l : nat) (w : Z) : act unit
| ACas (p : Z) (l : nat) (old new : Z) : act bool
| AKey (p : Z) : act BoundKey
| ATop (p : Z) : act nat
| AValueLoad (p : Z) : act Z
| AValueSwap (p : Z) (v : Z) : act Z
| AValueBytes (v : Z) : act bytes
| ANewValue (bs : bytes) : act Z
| ANewNode (k : BoundKey) (v : Z) (top : nat) : act Z
| AFreeNode (p : Z) : act unit
| AFreeValue (v : Z) : act unit
| ALenAdd (d : Z) : act unit
| ARetire (p : Z) (f : drop_fn) : act unit
| ARandomLevel (max_level : nat) : act nat.

(** [Box::new(ValueRecord {..})]. *)
Definition new_value (bs : bytes) (m : Mem) : res (Z * Mem) :=
  if W64 <? brk m + value_size then Err Abort
  else Ok (brk m, mkMem (nodes m) (links m) (<[brk m := bs]> (values m))
             (brk m + value_size) (len m) (retired m) (rng m)).

(** [Node::new]. *)
Definition Node_new (k : BoundKey) (v : Z) (top : nat) (m : Mem) : res (Z * Mem) :=
  let height := (top + 1)%nat in
  if W64 <? brk m + layout_for height then Err Abort
  else Ok (brk m, mkMem (<[brk m := mkNode k v top]> (nodes m))
             (null_links (brk m) height (links m)) (values m)
             (brk m + layout_for height) (len m) (retired m) (rng m)).

(** [drop(Box::from_raw(v))] of a value record. *)
Definition free_value (v : Z) (m : Mem) : res (unit * Mem) :=
  _ ←r or_err UB (values m !! v);
  Ok (tt, mkMem (nodes m) (links m) (delete v (values m)) (brk m) (len m)
        (retired m) (rng m)).

(** [free_node]. *)
Definition free_node (p : Z) (m : Mem) : res (unit * Mem) :=
  n ←r or_err UB (nodes m !! p);
  '(_, m1) ←r (if value n =? 0 then Ok (tt, m) else free_value (value n) m);
  Ok (tt, mkMem (delete p (nodes m1)) (free_links p (top_level n + 1) (links m1))
        (values m1) (brk m1) (len m1) (retired m1) (rng m1)).

(** [random_level]: a 0-based top index. *)
Definition random_level (max_level : nat) (m : Mem) : res (nat * Mem) :=
  '(rng', lvl) ←r random_geometric_level (max_level + 1) (rng m) (Z.of_nat max_level + 1);
  Ok (Z.to_nat (lvl - 1),
      mkMem (nodes m) (links m) (values m) (brk m) (len m) (retired m) rng').

Definition exec {R} (a : act R) : Mem → res (R * Mem) :=
  match a in act R return Mem → res (R * Mem) with
  | ALoad p l => λ m, w ←r or_err UB (links m !! (p, l)); Ok (w, m)
  | AStore p l w => λ m,
      _ ←r or_err UB (links m !! (p, l)); Ok (tt, set_links m (<[(p, l) := w]> (links m)))
  | ACas p l old new => λ m,
      w ←r or_err UB (links m !! (p, l));
      if w =? old then Ok (true, set_links m (<[(p, l) := new]> (links m)))
      else Ok (false, m)
  | AKey p => λ m, n ←r or_err UB (nodes m !! p); Ok (key n, m)
  | ATop p => λ m, n ←r or_err UB (nodes m !! p); Ok (top_level n, m)
  | AValueLoad p => λ m, n ←r or_err UB (nodes m !! p); Ok (value n, m)
  | AValueSwap p v => λ m,
      n ←r or_err UB (nodes m !! p);
      Ok (value n, set_nodes m (<[p := mkNode (key n) v (top_level n)]> (nodes m)))
  | AValueBytes v => λ m, bs ←r or_err UB (values m !! v); Ok (bs, m)
  | ANewValue bs => new_value bs
  | ANewNode k v top => Node_new k v top
  | AFreeNode p => free_node p
  | AFreeValue v => free_value v
  | ALenAdd d => λ m,
      Ok (tt, mkMem (nodes m) (links m) (values m) (brk m) (wadd (len m) d)
            (retired m) (rng m))
  | ARetire p f => λ m,
      Ok (tt, mkMem (nodes m) (links m) (values m) (brk m) (len m)
            (retired m ++ [(p, f)]) (rng m))
  | ARandomLevel l => random_level l
  end.

(** ** Programs *)

Inductive prog (A : Type) : Type :=
| Ret (a : A)
| Stop (f : fault)
| Do {R : Type} (a : act R) (k : R → prog A).
Arguments Ret {A} _.
Arguments Stop {A} _.
Arguments Do {A R} _ _.

Fixpoint pbind {A B} (p : prog A) (k : A → prog B) : prog B :=
  match p with
  | Ret a => k a
  | Stop f => Stop f
  | Do a k' => Do a (λ r, pbind (k' r) k)
  end.

Definition atom {R} (a : act R) : prog R := Do a Ret.

Notation "x ←p m ; k" := (pbind m (λ x, k))
  (at level 20, m at level 100, k at level 200, right associativity) : zkv_scope.
Notation "' pat ←p m ; k" := (pbind m (λ pat, k))
  (at level 20, pat pattern, m at level 100, k at level 200,
   right associativity) : zkv_scope.

(** One operation alone on the structure. *)
Fixpoint run {A} (p : prog A) (m : Mem) : res (A * Mem) :=
  match p with
  | Ret a => Ok (a, m)
  | Stop f => Err f
  | Do a k =>
    match exec a m with
    | Ok (r, m') => run (k r) m'
    | Err f => Err f
    end
  end.

(** ** Link methods *)

(** [Link::get], [Link::reference], [Link::store], [Link::cas],
    [Link::attempt_mark] on the level-[l] link of node [p]. *)
Definition link_get (p : Z) (l : nat) : prog (Z * bool) :=
  v ←p atom (ALoad p l); Ret (Link.ptr_of v, Link.mark_of v).
Definition link_reference (p : Z) (l : nat) : prog Z :=
  v ←p atom (ALoad p l); Ret (Link.ptr_of v).
Definition link_store (p : Z) (l : nat) (ptr : Z) (mark : bool) : prog unit :=
  atom (AStore p l (Link.pack ptr mark)).
Definition link_cas (p : Z) (l : nat) (exp_ref new_ref : Z) (exp_mark new_mark : bool)
    : prog bool :=
  atom (ACas p l (Link.pack exp_ref exp_mark) (Link.pack new_ref new_mark)).
Definition link_attempt_mark (p : Z) (l : nat) (exp_ref : Z) (mark : bool) : prog bool :=
  atom (ACas p l (Link.pack exp_ref false) (Link.pack exp_ref mark)).

(** An array index. *)
Definition index (l : list Z) (i : nat) : prog Z :=
  match l !! i with
  | Some x => Ret x
  | None => Stop Panic
  end.

(** ** Construction *)

Fixpoint wire (ls : list nat) (hd tl : Z) : prog unit :=
  match ls with
  | [] => Ret tt
  | level :: ls' => _ ←p link_store hd level tl false; wire ls' hd tl
  end.

(** [SkipList::with_max_level]. *)
Definition with_max_level (max_level : nat) : prog SkipList :=
  hd ←p atom (ANewNode NegInf 0 (MAX_HEIGHT - 1));
  tl ←p atom (ANewNode PosInf 0 (MAX_HEIGHT - 1));
  _ ←p wire (seq 0 MAX_HEIGHT) hd tl;
  Ret (mkSkipList hd max_level).

(** [SkipList::with_capacity_hint]; [ceil_log4] is the floating-point
    expression [(n.ln() / 4f64.ln()).ceil() as usize]. *)
Definition with_capacity_hint (ceil_log4 : Z → Z) (expected_items : Z) : prog SkipList :=
  let n := Z.max expected_items 2 in
  let lvl := ceil_log4 n in
  with_max_level (Z.to_nat (Z.min (Z.max lvl 1) (Z.of_nat MAX_HEIGHT)) - 1)%nat.

(** ** find *)

(** [while marked { .. }]: splice out a run of deleted successors. [None] is
    [continue 'retry]. *)
Fixpoint splice_marked (fuel : nat) (level : nat) (pred curr succ : Z) (marked : bool)
    : prog (option (Z * Z)) :=
  match fuel with
  | O => Stop OutOfFuel
  | S fuel' =>
    if marked then
      ok ←p link_cas pred level curr succ false false;
      if negb ok then Ret None
      else
        let curr := succ in
        '(succ, marked) ←p link_get curr level;
        splice_marked fuel' level pred curr succ marked
    else Ret (Some (curr, succ))
  end.

(** The inner [loop] of [find] at one level: the level's [(pred, curr)]. *)
Fixpoint search_level (fuel : nat) (level : nat) (target : bytes) (pred curr : Z)
    : prog (option (Z * Z)) :=
  match fuel with
  | O => Stop OutOfFuel
  | S fuel' =>
    '(succ, marked) ←p link_get curr level;
    r ←p splice_marked fuel level pred curr succ marked;
    match r with
    | None => Ret None
    | Some (curr, succ) =>
      k ←p atom (AKey curr);
      if key_lt k target then search_level fuel' level target curr succ
      else Ret (Some (pred, curr))
    end
  end.

(** [for level in (0..=max_level).rev()], [n] levels to go. *)
Fixpoint descend (fuel : nat) (n : nat) (target : bytes) (pred : Z) (preds succs : list Z)
    : prog (option (list Z * list Z)) :=
  match n with
  | O => Ret (Some (preds, succs))
  | S level =>
    curr ←p link_reference pred level;
    r ←p search_level fuel level target pred curr;
    match r with
    | None => Ret None
    | Some (pred, curr) =>
      descend fuel level target pred (<[level := pred]> preds) (<[level := curr]> succs)
    end
  end.

(** [SkipList::find], ['retry: loop]. *)
Fixpoint find_retry (fuel retries : nat) (sl : SkipList) (target : bytes)
    (preds succs : list Z) : prog (bool * list Z * list Z) :=
  match retries with
  | O => Stop OutOfFuel
  | S retries' =>
    r ←p descend fuel (max_level sl + 1) target (head sl) preds succs;
    match r with
    | None => find_retry fuel retries' sl target preds succs
    | Some (preds, succs) =>
      s0 ←p index succs 0;
      k ←p atom (AKey s0);
      Ret (key_eq k target, preds, succs)
    end
  end.

Definition find (fuel : nat) (sl : SkipList) (target : bytes) (preds succs : list Z) :=
  find_retry fuel fuel sl target preds succs.

Definition null_array : list Z := replicate MAX_HEIGHT 0.

(** ** insert *)

(** [for level in 0..=top_level { node.link(level).store(succs[level], false) }]. *)
Fixpoint init_links (ls : list nat) (node : Z) (succs : list Z) : prog unit :=
  match ls with
  | [] => Ret tt
  | level :: ls' =>
    s ←p index succs level;
    _ ←p link_store node level s false;
    init_links ls' node succs
  end.

(** The CAS loop that links one upper level, re-finding on contention. *)
Fixpoint link_upper (fuel tries : nat) (sl : SkipList) (target : bytes) (node : Z)
    (level : nat) (preds succs : list Z) : prog (list Z * list Z) :=
  match tries with
  | O => Stop OutOfFuel
  | S tries' =>
    pred ←p index preds level;
    succ ←p index succs level;
    _ ←p link_store node level succ false;
    ok ←p link_cas pred level succ node false false;
    if ok then Ret (preds, succs)
    else
      '(_, preds, succs) ←p find fuel sl target preds succs;
      link_upper fuel tries' sl target node level preds succs
  end.

(** [for level in 1..=top_level]. *)
Fixpoint link_uppers (fuel : nat) (sl : SkipList) (target : bytes) (node : Z)
    (ls : list nat) (preds succs : list Z) : prog unit :=
  match ls with
  | [] => Ret tt
  | level :: ls' =>
    '(preds, succs) ←p link_upper fuel fuel sl target node level preds succs;
    link_uppers fuel sl target node ls' preds succs
  end.

(** The outer [loop] of [SkipList::insert]. *)
Fixpoint insert_loop (fuel tries : nat) (sl : SkipList) (target val : bytes)
    (top : nat) (preds succs : list Z) : prog bool :=
  match tries with
  | O => Stop OutOfFuel
  | S tries' =>
    '(found, preds, succs) ←p find fuel sl target preds succs;
    if found then
      node ←p index succs 0;
      newv ←p atom (ANewValue val);
      old ←p atom (AValueSwap node newv);
      _ ←p (if negb (old =? 0) then atom (ARetire old drop_value) else Ret tt);
      Ret false
    else
      valrec ←p atom (ANewValue val);
      node ←p atom (ANewNode (Fin (KeyRepr_new target)) valrec top);
      _ ←p init_links (seq 0 (top + 1)) node succs;
      pred ←p index preds 0;
      succ ←p index succs 0;
      ok ←p link_cas pred 0 succ node false false;
      if negb ok then
        _ ←p atom (AFreeNode node);
        insert_loop fuel tries' sl target val top preds succs
      else
        _ ←p link_uppers fuel sl target node (seq 1 top) preds succs;
        _ ←p atom (ALenAdd 1);
        Ret true
  end.

(** [SkipList::insert]. *)
Definition insert (fuel : nat) (sl : SkipList) (target val : bytes) : prog bool :=
  top ←p atom (ARandomLevel (max_level sl));
  insert_loop fuel fuel sl target val top null_array null_array.

(** ** get *)

(** [while marked]: step over deleted nodes without unlinking them. *)
Fixpoint skip_marked (fuel : nat) (level : nat) (curr succ : Z) (marked : bool)
    : prog (Z * Z) :=
  match fuel with
  | O => Stop OutOfFuel
  | S fuel' =>
    if marked then
      let curr := succ in
      '(succ, marked) ←p link_get curr level;
      skip_marked fuel' level curr succ marked
    else Ret (curr, succ)
  end.

Fixpoint walk_level (fuel : nat) (level : nat) (target : bytes) (pred curr : Z)
    : prog (Z * Z) :=
  match fuel with
  | O => Stop OutOfFuel
  | S fuel' =>
    '(succ, marked) ←p link_get curr level;
    '(curr, succ) ←p skip_marked fuel level curr succ marked;
    k ←p atom (AKey curr);
    if key_lt k target then walk_level fuel' level target curr succ
    else Ret (pred, curr)
  end.

(** The [level == 0] branch: read the candidate's value. *)
Definition get_candidate (target : bytes) (curr : Z) : prog (option bytes) :=
  k ←p atom (AKey curr);
  if key_eq k target then
    '(_, marked) ←p link_get curr 0;
    if (marked : bool) then Ret None
    else
      vp ←p atom (AValueLoad curr);
      if vp =? 0 then Ret None
      else bs ←p atom (AValueBytes vp); Ret (Some bs)
  else Ret None.

Fixpoint get_levels (fuel : nat) (n : nat) (target : bytes) (pred : Z)
    : prog (option bytes) :=
  match n with
  | O => Ret None
  | S level =>
    curr ←p link_reference pred level;
    '(pred, curr) ←p walk_level fuel level target pred curr;
    if (level =? 0)%nat then get_candidate target curr
    else get_levels fuel level target pred
  end.

(** [SkipList::get]. *)
Definition get (fuel : nat) (sl : SkipList) (target : bytes) : prog (option bytes) :=
  get_levels fuel (max_level sl + 1) target (head sl).

(** ** remove *)

(** [while !marked { attempt_mark; re-read }] at one upper level. *)
Fixpoint mark_level (fuel : nat) (node : Z) (level : nat) (succ : Z) (marked : bool)
    : prog unit :=
  match fuel with
  | O => Stop OutOfFuel
  | S fuel' =>
    if negb marked then
      _ ←p link_attempt_mark node level succ true;
      '(succ, marked) ←p link_get node level;
      mark_level fuel' node level succ marked
    else Ret tt
  end.

(** [for level in (1..=top_level).rev()]. *)
Fixpoint mark_uppers (fuel : nat) (node : Z) (n : nat) : prog unit :=
  match n with
  | O => Ret tt
  | S n' =>
    '(succ, marked) ←p link_get node n;
    _ ←p mark_level fuel node n succ marked;
    mark_uppers fuel node n'
  end.

(** The bottom-level [loop]: the CAS that flips the mark decides who removed. *)
Fixpoint mark_bottom (fuel tries : nat) (sl : SkipList) (target : bytes) (node succ : Z)
    (preds succs : list Z) : prog bool :=
  match tries with
  | O => Stop OutOfFuel
  | S tries' =>
    i_marked ←p link_cas node 0 succ succ false true;
    '(succ', marked) ←p link_get node 0;
    if (i_marked : bool) then
      _ ←p find fuel sl target preds succs;
      _ ←p atom (ALenAdd (-1));
      _ ←p atom (ARetire node drop_node);
      Ret true
    else if (marked : bool) then Ret false
    else mark_bottom fuel tries' sl target node succ' preds succs
  end.

(** [SkipList::remove]. *)
Definition remove (fuel : nat) (sl : SkipList) (target : bytes) : prog bool :=
  '(found, preds, succs) ←p find fuel sl target null_array null_array;
  if negb found then Ret false
  else
    node ←p index succs 0;
    top ←p atom (ATop node);
    _ ←p mark_uppers fuel node top;
    '(succ, _) ←p link_get node 0;
    mark_bottom fuel fuel sl target node succ preds succs.

(** ** Teardown and reclamation *)

(** [Drop for SkipList]: free every node of level 0, sentinels included. *)
Fixpoint drop_walk (fuel : nat) (cur : Z) : prog unit :=
  match fuel with
  | O => Stop OutOfFuel
  | S fuel' =>
    if cur =? 0 then Ret tt
    else
      next ←p link_reference cur 0;
      _ ←p atom (AFreeNode cur);
      drop_walk fuel' next
  end.

Definition drop_list (fuel : nat) (sl : SkipList) : prog unit := drop_walk fuel (head sl).

(** Running one [drop_fn] of the reclamation domain. *)
Definition run_drop_fn (p : Z) (f : drop_fn) : prog unit :=
  match f with
  | drop_node => atom (AFreeNode p)
  | drop_value => atom (AFreeValue p)
  end.

(** [SkipList::len]. *)
Definition sl_len (m : Mem) : Z := len m.

(** [SkipList::is_empty]. *)
Definition sl_is_empty (m : Mem) : bool := sl_len m =? 0.

(** ** Interleaving *)

(** A pool of threads, each at some point of its operation. *)
Definition pool_step {A} (i : nat) (ps : list (prog A)) (m : Mem) : res (list (prog A) * Mem) :=
  match ps !! i with
  | Some (Do a k) =>
    '(r, m') ←r exec a m; Ok (<[i := k r]> ps, m')
  | Some (Stop f) => Err f
  | _ => Ok (ps, m)
  end.

(** Run a schedule: a list of thread indices, one atomic access each. *)
Fixpoint pool_run {A} (sched : list nat) (ps : list (prog A)) (m : Mem)
    : res (list (prog A) * Mem) :=
  match sched with
  | [] => Ok (ps, m)
  | i :: sched' => '(ps', m') ←r pool_step i ps m; pool_run sched' ps' m'
  end.

Definition empty_mem (rng : Z) : Mem := mkMem ∅ ∅ ∅ 8 0 [] rng.
