(* ===== verification/SkipListProof.v ===== *)
(** * SkipListProof: the skiplist refines an ordered map

    The representation invariant [rep] of a quiescent skiplist and the
    behaviour of [find], [insert], [get], [remove], reclamation and teardown
    under it, one operation at a time ([run]). The abstract state is a sorted
    list of entries; every level of the towers is the sublist of entries tall
    enough to reach it. Retired nodes and value cells are tracked as well, so
    the theorems cover memory safety: no operation faults, nothing reachable
    is ever freed, nothing is freed twice. *)

From S2P Require Import Prelude Backoff SkipList.
Local Open Scope Z_scope.
Local Open Scope zkv_scope.

(** ** Running programs *)

Lemma run_bind {A B} (p : prog A) (k : A → prog B) m :
  run (pbind p k) m =
  match run p m with
  | Ok (a, m') => run (k a) m'
  | Err f => Err f
  end.
Proof.
  revert m. induction p as [a|f|R a k' IH]; intros m; simpl; [done..|].
  destruct (exec a m) as [[r m']|f]; [apply IH|done].
Qed.

Lemma set_links_eta m : set_links m (links m) = m.
Proof. by destruct m. Qed.

(** ** Keys and tagged pointers *)

Lemma as_bytes_new k : as_bytes (KeyRepr_new k) = k.
Proof.
  unfold KeyRepr_new, INLINE_CAP. destruct (Nat.leb_spec (length k) 22) as [H|H]; [|done].
  simpl. rewrite Z.mod_small by lia. apply slice_blit_same; simpl; lia.
Qed.

Lemma key_lt_new k t : key_lt (Fin (KeyRepr_new k)) t = bool_decide (blt k t).
Proof. simpl. by rewrite as_bytes_new. Qed.

Lemma key_eq_new k t : key_eq (Fin (KeyRepr_new k)) t = bool_decide (k = t).
Proof. simpl. by rewrite as_bytes_new. Qed.

(** An address a tagged pointer can carry. *)
Definition taggable (x : Z) : Prop := 0 ≤ x < W64 ∧ x mod 2 = 0.

Lemma pack_add x b : taggable x → Link.pack x b = x + Z.b2z b.
Proof.
  intros [H0 H1]. apply Z.mod_divide in H1 as [y ->]; [|done].
  assert (0 ≤ y) by lia. unfold Link.pack.
  destruct b; simpl Z.b2z; [|by rewrite Z.lor_0_r, Z.add_0_r].
  rewrite (Z.mul_comm y 2). destruct y; (reflexivity || lia).
Qed.

Lemma ptr_of_pack x b : taggable x → Link.ptr_of (Link.pack x b) = x.
Proof.
  intros Hx. rewrite pack_add by done. destruct Hx as [H0 H1]. unfold Link.ptr_of.
  change 1 with (2 ^ 1 - 1) at 1. pose proof W64_val.
  assert (x < W64 - 1).
  { destruct (Z.eq_dec x (W64 - 1)) as [->|]; [done|lia]. }
  rewrite land_not_mask; [|lia|done|destruct b; simpl; unfold is_u64; lia].
  change (2 ^ 1) with 2.
  assert ((x + Z.b2z b) mod 2 = Z.b2z b) as ->; [|lia].
  rewrite Z.add_mod, H1 by lia. by destruct b.
Qed.

Lemma mark_of_pack x b : taggable x → Link.mark_of (Link.pack x b) = b.
Proof.
  intros Hx. rewrite pack_add by done. destruct Hx as [H0 H1]. unfold Link.mark_of.
  change 1 with (2 ^ 1 - 1) at 1. rewrite land_mask by lia. change (2 ^ 1) with 2.
  rewrite Z.add_mod, H1 by lia. by destruct b.
Qed.

(** ** Chains

    [chain m l X p xs]: from node [p] the level-[l] links lead through the
    addresses [xs]; the link leaving a node carries the mark [X] gives it. *)

Fixpoint chain (m : Mem) (l : nat) (X : Z → bool) (p : Z) (xs : list Z) : Prop :=
  match xs with
  | [] => True
  | x :: xs' => links m !! (p, l) = Some (Link.pack x (X p)) ∧ chain m l X x xs'
  end.

Definition unmarked : Z → bool := λ _, false.
Definition only (a : Z) : Z → bool := λ p, bool_decide (p = a).

(** The nodes whose outgoing link a chain mentions. *)
Lemma chain_ext m m' l X X' p xs :
  (∀ q, q ∈ removelast (p :: xs) → links m' !! (q, l) = links m !! (q, l) ∧ X' q = X q) →
  chain m l X p xs → chain m' l X' p xs.
Proof.
  revert p. induction xs as [|x xs IH]; intros p Hq; [done|].
  intros [Hp Hc]. change (removelast (p :: x :: xs)) with (p :: removelast (x :: xs)) in Hq.
  destruct (Hq p) as [E1 E2]; [apply list_elem_of_here|].
  split; [by rewrite E1, E2|].
  apply IH; [|done]. intros q Hin. by apply Hq, list_elem_of_further.
Qed.

(** The last address reached, [p] itself if none. *)
Fixpoint lastd (p : Z) (xs : list Z) : Z :=
  match xs with
  | [] => p
  | x :: xs' => lastd x xs'
  end.

Lemma lastd_app p xs y ys : lastd p (xs ++ y :: ys) = lastd y ys.
Proof. revert p. induction xs; intros; simpl; auto. Qed.

Lemma lastd_elem p xs : lastd p xs ∈ p :: xs.
Proof.
  revert p. induction xs as [|x xs IH]; intros p; simpl; [apply list_elem_of_here|].
  apply list_elem_of_further, IH.
Qed.

Lemma chain_app m l X p xs ys :
  chain m l X p (xs ++ ys) ↔ chain m l X p xs ∧ chain m l X (lastd p xs) ys.
Proof.
  revert p. induction xs as [|x xs IH]; intros p; simpl; [tauto|].
  rewrite IH. tauto.
Qed.

Lemma removelast_snoc (xs : list Z) x : removelast (xs ++ [x]) = xs.
Proof. rewrite List.removelast_app by done. by rewrite app_nil_r. Qed.

Lemma elem_of_removelast (x : Z) xs : x ∈ removelast xs → x ∈ xs.
Proof.
  induction xs as [|y [|z xs] IH]; intros H; [done|by apply not_elem_of_nil in H|].
  change (x ∈ y :: removelast (z :: xs)) in H.
  apply elem_of_cons in H as [->|H]; [apply list_elem_of_here|].
  by apply list_elem_of_further, IH.
Qed.

(** Redirecting the last node [z] of a prefix to a node [n] that leads on to
    [ys]; what [z] pointed to before is cut out. *)
Lemma chain_relink m m' l X p xs zs n ys :
  chain m l X p (xs ++ zs) → chain m l X n ys → X (lastd p xs) = false →
  NoDup (p :: xs ++ n :: ys) →
  links m' !! (lastd p xs, l) = Some (Link.pack n false) →
  (∀ q, q ≠ lastd p xs → links m' !! (q, l) = links m !! (q, l)) →
  chain m' l X p (xs ++ n :: ys).
Proof.
  intros Hc Hn Hx Hnd Hz Hq. apply chain_app in Hc as [Hc _].
  apply chain_app. split; [|simpl; split; [by rewrite Hx|]].
  - clear Hn. revert p Hc Hnd Hx Hz Hq.
    induction xs as [|x xs IH]; intros p Hc Hnd Hx Hz Hq; [done|].
    destruct Hc as [Hp Hc]. apply NoDup_cons in Hnd as [Hni Hnd].
    split; [|by apply IH]. rewrite Hq; [done|].
    simpl. intros Heq. apply Hni. rewrite Heq.
    change (lastd x xs ∈ (x :: xs) ++ n :: ys).
    apply elem_of_app. left. apply lastd_elem.
  - eapply chain_ext; [|exact Hn]. intros q Hin%elem_of_removelast. split; [|done].
    apply Hq. intros ->.
    change (p :: xs ++ n :: ys) with ((p :: xs) ++ n :: ys) in Hnd.
    apply NoDup_app in Hnd as (_ & Hd & _). by apply (Hd (lastd p xs)); [apply lastd_elem|].
Qed.

(** ** Searching one level *)

Lemma run_link_get m p l x b :
  links m !! (p, l) = Some (Link.pack x b) → taggable x →
  run (link_get p l) m = Ok ((x, b), m).
Proof.
  intros Hl Hx. unfold link_get. simpl. rewrite Hl. simpl.
  by rewrite ptr_of_pack, mark_of_pack.
Qed.

Lemma run_link_reference m p l x b :
  links m !! (p, l) = Some (Link.pack x b) → taggable x →
  run (link_reference p l) m = Ok (x, m).
Proof.
  intros Hl Hx. unfold link_reference. simpl. rewrite Hl. simpl. by rewrite ptr_of_pack.
Qed.

Lemma run_link_cas m p l x y b b' :
  links m !! (p, l) = Some (Link.pack x b) →
  run (link_cas p l x y b b') m
  = Ok (true, set_links m (<[(p, l) := Link.pack y b']> (links m))).
Proof. intros Hl. unfold link_cas. simpl. rewrite Hl. simpl. by rewrite Z.eqb_refl. Qed.

Lemma run_key m p n : nodes m !! p = Some n → run (atom (AKey p)) m = Ok (key n, m).
Proof. intros H. simpl. by rewrite H. Qed.

(** The node a search stops at: its own link is readable and unmarked. *)
Definition stops_at (m : Mem) (l : nat) (target : bytes) (q : Z) : Prop :=
  (∃ s, links m !! (q, l) = Some (Link.pack s false) ∧ taggable s) ∧
  ∃ n, nodes m !! q = Some n ∧ key_lt (key n) target = false.

Definition passed (m : Mem) (target : bytes) (q : Z) : Prop :=
  ∃ n, nodes m !! q = Some n ∧ key_lt (key n) target = true.

Lemma chain_next m l X p xs q :
  chain m l X p (xs ++ [q]) → links m !! (p, l) = Some (Link.pack (List.hd q xs) (X p)).
Proof. destruct xs; simpl; tauto. Qed.

Lemma splice_marked_run level X target q : ∀ xs fuel x pred m,
  chain m level X pred (x :: xs ++ [q]) →
  X pred = false → Forall (λ a, X a = true) (x :: xs) →
  stops_at m level target q →
  NoDup (pred :: x :: xs ++ [q]) → Forall taggable (x :: xs ++ [q]) →
  (length xs + 2 ≤ fuel)%nat →
  ∃ s, run (splice_marked fuel level pred x (List.hd q xs) true) m
    = Ok (Some (q, s), set_links m (<[(pred, level) := Link.pack q false]> (links m))).
Proof.
  induction xs as [|y ys IH]; intros [|fuel] x pred m [Hp Hc] Hxp Hxs Hq Hnd Ht Hf;
    try (simpl in Hf; lia);
    rewrite Hxp in Hp; apply Forall_cons in Hxs as [Hx Hxs];
    apply Forall_cons in Ht as [Htx Ht]; apply NoDup_cons in Hnd as [Hni Hnd];
    cbn [splice_marked List.hd];
    rewrite run_bind, (run_link_cas _ _ _ _ _ _ _ Hp); cbn [negb];
    rewrite run_bind; set (m1 := set_links _ _);
    assert (Hne : ∀ z, z ≠ pred → links m1 !! (z, level) = links m !! (z, level))
      by (intros z Hz; apply lookup_insert_ne; congruence).
  - destruct Hq as [(s & Hs & Hts) _]. exists s.
    rewrite (run_link_get m1 q level s false); [|rewrite Hne; [done|set_solver]|done].
    destruct fuel; [simpl in Hf; lia|]. done.
  - destruct Hc as [_ Hc]. pose proof (Forall_inv Hxs) as Hy.
    pose proof (chain_next _ _ _ _ _ _ Hc) as Hly. rewrite Hy in Hly.
    rewrite (run_link_get m1 y level (List.hd q ys) true);
      [|rewrite Hne; [done|set_solver]|destruct ys; decompose_Forall_hyps; done].
    destruct (IH fuel y pred m1) as [s Hs].
    + split; [unfold m1; simpl; by rewrite lookup_insert_eq, Hxp|].
      eapply chain_ext; [|exact Hc].
      intros r Hr%elem_of_removelast. split; [|done]. apply Hne. set_solver.
    + done.
    + done.
    + destruct Hq as [(s & Hs & Hts) Hn]. split; [|done].
      exists s. split; [|done]. rewrite Hne; [done|set_solver].
    + apply NoDup_cons in Hnd as [_ Hnd]. apply NoDup_cons. split; [set_solver|done].
    + done.
    + simpl in Hf. lia.
    + exists s. rewrite Hs. unfold m1, set_links. simpl. by rewrite insert_insert_eq.
Qed.

(** The inner loop of [find]: pass [lo], cut out [xs], stop at [q]. *)
Lemma search_level_run level X target q xs : ∀ lo fuel pred m,
  chain m level X pred (lo ++ xs ++ [q]) →
  X pred = false → Forall (λ a, X a = false) lo → Forall (λ a, X a = true) xs →
  Forall (passed m target) lo → stops_at m level target q →
  NoDup (pred :: lo ++ xs ++ [q]) → Forall taggable (lo ++ xs ++ [q]) →
  (length lo + length xs + 2 ≤ fuel)%nat →
  run (search_level fuel level target pred (List.hd q (lo ++ xs))) m
    = Ok (Some (lastd pred lo, q),
          set_links m (<[(lastd pred lo, level) := Link.pack q false]> (links m))).
Proof.
  induction lo as [|a lo IH]; intros [|fuel] pred m Hc Hp Hlo Hxs Hpass Hq Hnd Ht Hf;
    try (simpl in Hf; lia); cbn [search_level app]; rewrite run_bind.
  - pose proof Hq as [(s & Hs & Hts) (n & Hn & Hk)]. destruct xs as [|x xs].
    + cbn [List.hd]. rewrite (run_link_get _ _ _ _ _ Hs Hts), run_bind.
      cbn [splice_marked run]. rewrite run_bind, (run_key _ _ _ Hn), Hk. simpl.
      rewrite insert_id, set_links_eta; [done|].
      pose proof (chain_next _ _ _ _ [] _ Hc) as H. by rewrite Hp in H.
    + pose proof Hc as [_ Hc']. pose proof (chain_next _ _ _ _ _ _ Hc') as Hl.
      rewrite (Forall_inv Hxs) in Hl. cbn [List.hd].
      rewrite (run_link_get _ _ _ _ _ Hl);
        [|destruct xs; simpl in Ht; decompose_Forall_hyps; done].
      rewrite run_bind.
      destruct (splice_marked_run level X target q xs (S fuel) x pred m) as [s' Hs'];
        try done; [simpl in Hf; lia|].
      rewrite Hs', run_bind, run_key with (n := n) by done. by rewrite Hk.
  - destruct Hc as [Hpa Hc]. pose proof (Forall_inv Hlo) as Ha.
    pose proof (Forall_inv Hpass) as (n & Hn & Hk).
    assert (Hl : links m !! (a, level) = Some (Link.pack (List.hd q (lo ++ xs)) false)).
    { rewrite <- Ha. apply chain_next. by rewrite <- app_assoc. }
    cbn [List.hd]. rewrite (run_link_get _ _ _ _ _ Hl), run_bind.
    2: { destruct lo, xs; simpl in Ht; decompose_Forall_hyps; done. }
    cbn [splice_marked run]. rewrite run_bind, (run_key _ _ _ Hn), Hk.
    apply NoDup_cons in Hnd as [_ Hnd]. apply Forall_cons in Hlo as [_ Hlo].
    apply Forall_cons in Hpass as [_ Hpass]. apply Forall_cons in Ht as [_ Ht].
    apply IH; try done. simpl in Hf. lia.
Qed.

(** The inner loop of [get], on a level without marks. *)
Lemma walk_level_run level target q : ∀ lo fuel pred m,
  chain m level unmarked pred (lo ++ [q]) →
  Forall (passed m target) lo → stops_at m level target q →
  Forall taggable (lo ++ [q]) → (length lo + 2 ≤ fuel)%nat →
  run (walk_level fuel level target pred (List.hd q lo)) m = Ok ((lastd pred lo, q), m).
Proof.
  induction lo as [|a lo IH]; intros [|fuel] pred m Hc Hpass Hq Ht Hf;
    try (simpl in Hf; lia); cbn [walk_level app List.hd]; rewrite run_bind.
  - destruct Hq as [(s & Hs & Hts) (n & Hn & Hk)].
    rewrite (run_link_get _ _ _ _ _ Hs Hts), run_bind.
    cbn [skip_marked run]. by rewrite run_bind, (run_key _ _ _ Hn), Hk.
  - destruct Hc as [Hpa Hc]. pose proof (Forall_inv Hpass) as (n & Hn & Hk).
    pose proof (chain_next _ _ _ _ _ _ Hc) as Hl. change (unmarked a) with false in Hl.
    rewrite (run_link_get _ _ _ _ _ Hl), run_bind.
    2: { destruct lo; simpl in Ht; decompose_Forall_hyps; done. }
    cbn [skip_marked run]. rewrite run_bind, (run_key _ _ _ Hn), Hk.
    apply Forall_cons in Hpass as [_ Hpass]. apply Forall_cons in Ht as [_ Ht].
    apply IH; try done. simpl in Hf. lia.
Qed.

(** ** Entries and levels *)

(** What one data node stands for. *)
Record entry : Type := mkEntry {
  e_addr : Z;
  e_key : bytes;
  e_vptr : Z;
  e_top : nat;
  e_bytes : bytes
}.

(** The addresses of the nodes that reach level [l]. *)
Definition addrs (l : nat) (es : list entry) : list Z :=
  e_addr <$> filter (λ e, (l ≤ e_top e)%nat) es.

Lemma addrs_app l es1 es2 : addrs l (es1 ++ es2) = addrs l es1 ++ addrs l es2.
Proof. unfold addrs. by rewrite filter_app, fmap_app. Qed.

Lemma addrs_0 es : addrs 0 es = e_addr <$> es.
Proof.
  unfold addrs. f_equal. induction es as [|e es IH]; [done|].
  rewrite filter_cons_True by lia. by rewrite IH.
Qed.

Lemma elem_of_addrs l es a : a ∈ addrs l es ↔ ∃ e, e ∈ es ∧ e_addr e = a ∧ (l ≤ e_top e)%nat.
Proof.
  unfold addrs. rewrite list_elem_of_fmap. setoid_rewrite list_elem_of_filter. naive_solver.
Qed.

Lemma Forall_addrs (P : Z → Prop) l es :
  Forall (λ e, P (e_addr e)) es → Forall P (addrs l es).
Proof.
  rewrite !Forall_forall. intros H a (e & He & <- & _)%elem_of_addrs. by apply H.
Qed.

Lemma length_addrs l es : (length (addrs l es) ≤ length es)%nat.
Proof. unfold addrs. rewrite length_fmap. apply length_filter. Qed.

Lemma addrs_above es l n :
  Forall (λ e, (e_top e ≤ n)%nat) es → (n < l)%nat → addrs l es = [].
Proof.
  intros H Hl. unfold addrs. induction H as [|e es He _ IH]; [done|].
  by rewrite filter_cons_False by lia.
Qed.

Lemma NoDup_level l h t es :
  NoDup (h :: t :: (e_addr <$> es)) → NoDup (h :: addrs l es ++ [t]).
Proof.
  rewrite !NoDup_cons, NoDup_app. intros (Hh & Ht & Hnd).
  assert (Hsub : ∀ a, a ∈ addrs l es → a ∈ e_addr <$> es).
  { intros a (e & He & <- & _)%elem_of_addrs. by apply list_elem_of_fmap_2. }
  split; [set_solver|]. split; [|split; [|apply NoDup_singleton]].
  - eapply sublist_NoDup; [exact Hnd|]. apply fmap_sublist, sublist_filter.
  - intros a Ha%Hsub ->%list_elem_of_singleton. done.
Qed.

(** Restarting one level down from where the level above stopped. *)
Lemma resume l h lo :
  ∃ A B, h :: addrs l lo = A ++ lastd h (addrs (S l) lo) :: B.
Proof.
  apply list_elem_of_split.
  pose proof (lastd_elem h (addrs (S l) lo)) as [->|H]%elem_of_cons; [apply list_elem_of_here|].
  apply list_elem_of_further. apply elem_of_addrs in H as (e & He & <- & Hl).
  apply elem_of_addrs. exists e. split; [done|]. split; [done|lia].
Qed.

Lemma chain_resume m l X h L K A p B :
  chain m l X h (L ++ K) → h :: L = A ++ p :: B →
  chain m l X p (B ++ K) ∧ lastd p B = lastd h L.
Proof.
  intros Hc He. destruct A as [|a A]; simplify_list_eq; [done|].
  apply chain_app in Hc as [_ [_ Hc]]. by rewrite lastd_app.
Qed.

(** ** find *)

Definition lo_ok (m : Mem) (X : Z → bool) (target : bytes) (a : Z) : Prop :=
  X a = false ∧ passed m target a.
Definition hi_ok (m : Mem) (X : Z → bool) (target : bytes) (a : Z) : Prop :=
  X a = false ∧ ∃ nd, nodes m !! a = Some nd ∧ key_lt (key nd) target = false.

(** A memory that a search for [target] can run on, at levels below [n]: the
    entries [lo] are passed, [xs] are marked, the search stops in front of
    [hi] or at the tail. *)
Record searchable (sl : SkipList) (tl : Z) (X : Z → bool) (target : bytes)
    (lo xs hi : list entry) (n : nat) (m : Mem) : Prop := mkSearchable {
  s_chain : ∀ l, (l < n)%nat → chain m l X (head sl) (addrs l (lo ++ xs ++ hi) ++ [tl]);
  s_head : X (head sl) = false;
  s_lo : Forall (λ e, lo_ok m X target (e_addr e)) lo;
  s_xs : Forall (λ e, X (e_addr e) = true) xs;
  s_hi : Forall (λ e, hi_ok m X target (e_addr e)) hi;
  s_tail : ∃ nd, nodes m !! tl = Some nd ∧ key_lt (key nd) target = false;
  s_tail_links : ∀ l, (l < n)%nat → links m !! (tl, l) = Some (Link.pack 0 false);
  s_nodup : NoDup (head sl :: tl :: (e_addr <$> lo ++ xs ++ hi));
  s_tag : Forall taggable (tl :: (e_addr <$> lo ++ xs ++ hi))
}.

(** What [find] leaves in [preds[l]] and [succs[l]]. *)
Definition pred_at (sl : SkipList) (lo : list entry) (l : nat) : Z :=
  lastd (head sl) (addrs l lo).
Definition succ_at (tl : Z) (hi : list entry) (l : nat) : Z := List.hd tl (addrs l hi).

Section find.
Context (sl : SkipList) (tl : Z) (X : Z → bool) (target : bytes).
Context (lo xs hi : list entry).
Local Abbreviation sok := (searchable sl tl X target lo xs hi).

Lemma searchable_stop n l m :
  sok n m → (l < n)%nat → stops_at m l target (succ_at tl hi l).
Proof.
  intros [Hc Hh Hlo Hxs Hhi Ht Htl Hnd Htag] Hl. unfold succ_at.
  specialize (Hc l Hl). rewrite app_assoc, addrs_app, <- app_assoc in Hc.
  apply chain_app in Hc as [_ Hc].
  pose proof (Forall_addrs (hi_ok m X target) l _ Hhi) as Hq. apply Forall_cons in Htag as [Htt Htag].
  assert (Hta : Forall taggable (addrs l hi ++ [tl])).
  { apply Forall_app. split; [|by constructor]. apply Forall_addrs.
    rewrite Forall_fmap, !Forall_app in Htag. apply Htag. }
  destruct (addrs l hi) as [|q R]; simpl.
  - split; [|done]. exists 0. split; [by apply Htl|]. split; [by split|done].
  - apply Forall_cons in Hq as [[HX Hn] _]. split; [|done].
    exists (List.hd tl R). destruct Hc as [_ Hc%chain_next]. rewrite HX in Hc.
    split; [done|]. destruct R; simpl in Hta; decompose_Forall_hyps; done.
Qed.

Lemma succ_at_split l : ∃ R, addrs l hi ++ [tl] = succ_at tl hi l :: R.
Proof. unfold succ_at. destruct (addrs l hi) as [|q' R]; simpl; eauto. Qed.

(** The stretch of level [l] a descent walks: from where level [l + 1]
    stopped through [B] and the marked nodes up to [succ_at]. *)
Lemma searchable_view n l m :
  sok n m → (l < n)%nat →
  let p := pred_at sl lo (S l) in let q := succ_at tl hi l in
  ∃ B,
    chain m l X p (B ++ addrs l xs ++ [q]) ∧ lastd p B = pred_at sl lo l ∧
    X p = false ∧ Forall (λ a, X a = false) B ∧ Forall (passed m target) B ∧
    NoDup (p :: B ++ addrs l xs ++ [q]) ∧ Forall taggable (B ++ addrs l xs ++ [q]) ∧
    (length B ≤ length lo)%nat.
Proof.
  intros [Hc Hh Hlo Hxs Hhi Ht Htl Hnd Htag] Hl p q. specialize (Hc l Hl).
  pose proof (NoDup_level l _ _ _ Hnd) as Hndl.
  assert (Htl' : Forall taggable (addrs l (lo ++ xs ++ hi) ++ [tl])).
  { apply Forall_cons in Htag as [? Htag]. apply Forall_app. split; [|by constructor].
    apply Forall_addrs. by rewrite Forall_fmap in Htag. }
  destruct (succ_at_split l) as [R HR]. fold q in HR.
  rewrite !addrs_app, <- !app_assoc, HR in Hc, Hndl, Htl'.
  destruct (resume l (head sl) lo) as (A & B & HAB).
  change (lastd (head sl) (addrs (S l) lo)) with p in HAB.
  destruct (chain_resume _ _ _ _ _ _ _ _ _ Hc HAB) as [Hcp Hlast].
  assert (HpX : Forall (λ a, X a = false) (head sl :: addrs l lo)).
  { constructor; [done|]. apply Forall_addrs. eapply Forall_impl; [exact Hlo|]. by intros e []. }
  rewrite HAB, Forall_app, Forall_cons in HpX. destruct HpX as (_ & HXp & HXB).
  assert (HBsub : ∀ a, a ∈ B → a ∈ addrs l lo).
  { intros a Ha. destruct A as [|? A]; injection HAB as _ ->; [done|].
    apply elem_of_app. right. by apply list_elem_of_further. }
  exists B. split; [|do 3 (split; [done|]); split; [|split; [|split]]].
  - rewrite app_assoc. apply (chain_app _ _ _ _ _ R). by rewrite <- !app_assoc.
  - apply Forall_forall. intros a Ha%HBsub. revert a Ha. apply Forall_forall, Forall_addrs.
    eapply Forall_impl; [exact Hlo|]. by intros e [].
  - replace (head sl :: addrs l lo ++ addrs l xs ++ q :: R)
      with (A ++ (p :: B ++ addrs l xs ++ [q]) ++ R) in Hndl.
    + by apply NoDup_app in Hndl as (_ & _ & (? & _ & _)%NoDup_app).
    + transitivity ((head sl :: addrs l lo) ++ addrs l xs ++ q :: R); [|done].
      rewrite HAB, <- !app_assoc. simpl. by rewrite <- !app_assoc.
  - rewrite Forall_forall in Htl' |- *. intros a Ha. apply Htl'. set_solver.
  - apply (f_equal length) in HAB. rewrite length_app in HAB. simpl in HAB.
    pose proof (length_addrs l lo). lia.
Qed.

(** One level of the descent of [find]. *)
Lemma searchable_level fuel n l m :
  sok n m → (l < n)%nat → (length (lo ++ xs ++ hi) + 2 ≤ fuel)%nat →
  run (curr ←p link_reference (pred_at sl lo (S l)) l;
       search_level fuel l target (pred_at sl lo (S l)) curr) m
  = Ok (Some (pred_at sl lo l, succ_at tl hi l),
        set_links m (<[(pred_at sl lo l, l) := Link.pack (succ_at tl hi l) false]> (links m))).
Proof.
  intros Hs Hl Hf. pose proof (searchable_stop n l m Hs Hl) as Hstop.
  destruct (searchable_view n l m Hs Hl) as
    (B & Hc & Hlast & HXp & HXB & Hpass & Hnd & Htag & Hlen).
  rewrite run_bind, (run_link_reference m _ l (List.hd (succ_at tl hi l) (B ++ addrs l xs)) false).
  - rewrite (search_level_run l X target _ (addrs l xs) B); try done; [by rewrite Hlast| |].
    + apply Forall_addrs. by apply (s_xs _ _ _ _ _ _ _ _ _ Hs).
    + rewrite !length_app in Hf. pose proof (length_addrs l xs). lia.
  - rewrite <- HXp. apply chain_next. by rewrite <- app_assoc.
  - destruct B, (addrs l xs); simpl in Htag; decompose_Forall_hyps; done.
Qed.

(** The effect of a descent through the levels below [n]. *)
Definition relinked (n : nat) (m m' : Mem) : Prop :=
  m' = set_links m (links m') ∧
  ∀ p l, links m' !! (p, l) =
    if decide ((l < n)%nat ∧ p = pred_at sl lo l)
    then Some (Link.pack (succ_at tl hi l) false) else links m !! (p, l).

Definition located (n : nat) (preds succs : list Z) : Prop :=
  ∀ l, (l < n)%nat → preds !! l = Some (pred_at sl lo l) ∧ succs !! l = Some (succ_at tl hi l).

Lemma searchable_lower l m p w :
  sok (S l) m → sok l (set_links m (<[(p, l) := w]> (links m))).
Proof.
  intros [Hc Hh Hlo Hxs Hhi Ht Htl Hnd Htag].
  assert (Hne : ∀ q k, (k < l)%nat →
    links (set_links m (<[(p, l) := w]> (links m))) !! (q, k) = links m !! (q, k)).
  { intros q k Hk. apply lookup_insert_ne. intros [=]. lia. }
  split; try done.
  - intros k Hk. eapply chain_ext; [|apply Hc; lia]. intros q _. split; [by apply Hne|done].
  - intros k Hk. rewrite Hne by done. apply Htl. lia.
Qed.

Lemma descend_run fuel : ∀ n preds succs m,
  sok n m → (n ≤ length preds)%nat → (n ≤ length succs)%nat →
  (length (lo ++ xs ++ hi) + 2 ≤ fuel)%nat →
  ∃ preds' succs' m',
    run (descend fuel n target (pred_at sl lo n) preds succs) m
      = Ok (Some (preds', succs'), m') ∧
    length preds' = length preds ∧ length succs' = length succs ∧
    (∀ l, (n ≤ l)%nat → preds' !! l = preds !! l ∧ succs' !! l = succs !! l) ∧
    located n preds' succs' ∧ relinked n m m'.
Proof.
  induction n as [|n IH]; intros preds succs m Hs Hlp Hls Hf.
  - exists preds, succs, m. repeat (split; [done|]).
    split; [by intros l Hl; lia|]. split; [by rewrite set_links_eta|].
    intros p l. rewrite decide_False; [done|lia].
  - pose proof (searchable_level fuel (S n) n m Hs ltac:(lia) Hf) as Hr.
    rewrite run_bind in Hr. cbn [descend]. rewrite run_bind.
    destruct (run (link_reference (pred_at sl lo (S n)) n) m) as [[c m0]|f]; [|done].
    rewrite run_bind, Hr.
    destruct (IH (<[n := pred_at sl lo n]> preds) (<[n := succ_at tl hi n]> succs)
      (set_links m (<[(pred_at sl lo n, n) := Link.pack (succ_at tl hi n) false]> (links m))))
      as (ps & ss & m' & -> & Hp & Hs' & Hge & Hloc & Hm & Hlk);
      [by apply searchable_lower|rewrite length_insert; lia..|done|].
    rewrite length_insert in Hp, Hs'. exists ps, ss, m'.
    do 3 (split; [done|]). split; [|split; [|split]].
    + intros l Hl. destruct (Hge l) as [-> ->]; [lia|].
      by rewrite !list_lookup_insert_ne by lia.
    + intros l Hl. destruct (decide (l = n)) as [->|Hne]; [|apply Hloc; lia].
      destruct (Hge n) as [-> ->]; [lia|]. by rewrite !list_lookup_insert_eq by lia.
    + rewrite Hm. done.
    + intros p l. rewrite Hlk. unfold set_links. simpl.
      destruct (decide (l = n)) as [->|Hne].
      * rewrite decide_False by lia. destruct (decide (p = pred_at sl lo n)) as [->|Hnp].
        { rewrite lookup_insert_eq, decide_True; [done|]. split; [lia|done]. }
        rewrite decide_False by tauto. apply lookup_insert_ne. congruence.
      * rewrite lookup_insert_ne by congruence.
        destruct (decide (p = pred_at sl lo l)).
        { do 2 case_decide; try done; lia. }
        by rewrite !decide_False by tauto.
Qed.

Lemma find_run fuel preds succs m :
  sok (max_level sl + 1) m → Forall (λ e, (e_top e ≤ max_level sl)%nat) lo →
  (max_level sl < length preds)%nat → (max_level sl < length succs)%nat →
  (length (lo ++ xs ++ hi) + 2 ≤ fuel)%nat →
  ∃ nd preds' succs' m',
    nodes m !! succ_at tl hi 0 = Some nd ∧
    run (find fuel sl target preds succs) m
      = Ok ((key_eq (key nd) target, preds', succs'), m') ∧
    length preds' = length preds ∧ length succs' = length succs ∧
    located (max_level sl + 1) preds' succs' ∧ relinked (max_level sl + 1) m m'.
Proof.
  intros Hs Htop Hlp Hls Hf.
  destruct (searchable_stop _ 0 _ Hs) as [_ (nd & Hnd & _)]; [lia|].
  destruct (descend_run fuel (max_level sl + 1) preds succs m Hs) as
    (ps & ss & m' & Hr & Hp & Hs' & _ & Hloc & Hrel); [lia..|].
  exists nd, ps, ss, m'. split; [done|]. split; [|done].
  assert (Hpred : pred_at sl lo (max_level sl + 1) = head sl).
  { unfold pred_at. by rewrite (addrs_above _ _ (max_level sl)) by (done || lia). }
  rewrite Hpred in Hr. unfold find. destruct fuel as [|fuel]; [lia|].
  cbn [find_retry]. rewrite run_bind, Hr, run_bind.
  destruct (Hloc 0%nat) as [_ Hs0]; [lia|]. unfold index. rewrite Hs0. cbn [run].
  rewrite run_bind, (run_key _ _ nd); [done|]. destruct Hrel as [-> _]. done.
Qed.

Lemma relinked_chain n m m' l :
  sok n m → relinked n m m' → (l < n)%nat →
  chain m' l X (head sl) (addrs l (lo ++ hi) ++ [tl]).
Proof.
  intros [Hc Hh Hlo Hxs Hhi Ht Htl Hnd Htag] [_ Hlk] Hl. specialize (Hc l Hl).
  rewrite !addrs_app, <- !app_assoc in Hc. rewrite addrs_app, <- app_assoc.
  destruct (succ_at_split l) as [R HR]. rewrite HR in Hc |- *.
  assert (HndR : NoDup (head sl :: addrs l lo ++ succ_at tl hi l :: R)).
  { rewrite <- HR, app_assoc, <- addrs_app. apply NoDup_level.
    eapply sublist_NoDup; [exact Hnd|]. do 2 apply sublist_skip. apply fmap_sublist.
    apply sublist_app; [done|]. by apply sublist_inserts_l. }
  eapply chain_relink; [exact Hc| | |done| |].
  - rewrite app_assoc in Hc. by apply chain_app in Hc as [_ [_ Hc]].
  - pose proof (lastd_elem (head sl) (addrs l lo)) as [->|Hin]%elem_of_cons; [done|].
    revert Hin. generalize (lastd (head sl) (addrs l lo)). apply Forall_forall, Forall_addrs.
    eapply Forall_impl; [exact Hlo|]. by intros e [].
  - rewrite Hlk, decide_True; [done|]. by split.
  - intros q Hq. rewrite Hlk, decide_False; [done|]. by intros [_ ?].
Qed.

End find.

(** ** The level descent of [get] *)

Lemma walk_at_level sl tl target lo hi fuel n l m :
  searchable sl tl unmarked target lo [] hi n m → (l < n)%nat →
  (length (lo ++ hi) + 2 ≤ fuel)%nat →
  run (curr ←p link_reference (pred_at sl lo (S l)) l;
       walk_level fuel l target (pred_at sl lo (S l)) curr) m
  = Ok ((pred_at sl lo l, succ_at tl hi l), m).
Proof.
  intros Hs Hl Hf. pose proof (searchable_stop _ _ _ _ _ _ _ n l m Hs Hl) as Hstop.
  destruct (searchable_view _ _ _ _ _ _ _ n l m Hs Hl) as
    (B & Hc & Hlast & _ & _ & Hpass & _ & Htag & Hlen).
  rewrite run_bind, (run_link_reference m _ l (List.hd (succ_at tl hi l) B) false).
  - rewrite (walk_level_run l target _ B); try done; [by rewrite Hlast|].
    rewrite length_app in Hf. lia.
  - by apply (chain_next _ _ unmarked).
  - destruct B; simpl in Htag; decompose_Forall_hyps; done.
Qed.
