(* ===== verification/SkipListRep.v ===== *)
(** * SkipListRep: the representation invariant and its operations

    [rep sl tl m es G gv]: memory [m] holds a quiescent skiplist whose data
    nodes are [es] in key order, with [G] the retired nodes and [gv] the
    retired value cells not yet reclaimed. Each operation of the index, the
    reclamation of a retired cell and the teardown are proved against it. *)

From Stdlib Require Import Sorted.
From S2P Require Import Prelude Backoff SkipList SkipListProof.
Local Open Scope Z_scope.
Local Open Scope zkv_scope.

(** ** Invariant *)

(** The header and the value cell of an entry. *)
Definition entry_ok (sl : SkipList) (m : Mem) (e : entry) : Prop :=
  nodes m !! e_addr e = Some (mkNode (Fin (KeyRepr_new (e_key e))) (e_vptr e) (e_top e)) ∧
  values m !! e_vptr e = Some (e_bytes e) ∧
  (e_top e ≤ max_level sl)%nat.

(** Allocations lie below the frontier; nodes are 8-byte aligned. *)
Record heap_ok (m : Mem) : Prop := mkHeapOk {
  h_brk : 0 < brk m ≤ W64 ∧ brk m mod 8 = 0;
  h_nodes : ∀ p, is_Some (nodes m !! p) → 0 < p < brk m ∧ p mod 8 = 0;
  h_links : ∀ p l, is_Some (links m !! (p, l)) → p < brk m;
  h_values : ∀ v, is_Some (values m !! v) → 0 < v < brk m
}.

Definition retired_as (G : list entry) (gv : list Z) : list (Z * drop_fn) :=
  ((λ e, (e_addr e, drop_node)) <$> G) ++ ((λ v, (v, drop_value)) <$> gv).

Record rep (sl : SkipList) (tl : Z) (m : Mem) (es G : list entry) (gv : list Z) : Prop := mkRep {
  r_height : (max_level sl < MAX_HEIGHT)%nat;
  r_head : nodes m !! head sl = Some (mkNode NegInf 0 (MAX_HEIGHT - 1));
  r_tail : nodes m !! tl = Some (mkNode PosInf 0 (MAX_HEIGHT - 1));
  r_tail_links : ∀ l, (l < MAX_HEIGHT)%nat → links m !! (tl, l) = Some 0;
  r_entries : Forall (entry_ok sl m) (es ++ G);
  r_addrs : NoDup (head sl :: tl :: (e_addr <$> es ++ G));
  r_vals : NoDup ((e_vptr <$> es ++ G) ++ gv);
  r_gv : Forall (λ v, is_Some (values m !! v)) gv;
  r_retired : retired m ≡ₚ retired_as G gv;
  r_heap : heap_ok m;
  r_sorted : StronglySorted blt (e_key <$> es);
  r_len : len m = wrap64 (Z.of_nat (length es));
  r_chains : ∀ l, (l ≤ max_level sl)%nat →
    chain m l unmarked (head sl) (addrs l es ++ [tl]);
  r_no_leak_nodes : ∀ p, is_Some (nodes m !! p) → p ∈ head sl :: tl :: (e_addr <$> es ++ G);
  r_no_leak_values : ∀ v, is_Some (values m !! v) → v ∈ (e_vptr <$> es ++ G) ++ gv
}.

(** The abstract map. *)
Definition abs (es : list entry) : gmap (list Z) (list Z) :=
  list_to_map ((λ e, (e_key e, e_bytes e)) <$> es).

(** ** Ordered entries *)

Definition below (target : bytes) (e : entry) : Prop := blt (e_key e) target.
Definition above (target : bytes) (e : entry) : Prop := blt target (e_key e).

Lemma sorted_app_inv (ks1 ks2 : list bytes) :
  StronglySorted blt (ks1 ++ ks2) ↔
  StronglySorted blt ks1 ∧ StronglySorted blt ks2 ∧
  (∀ k1 k2, k1 ∈ ks1 → k2 ∈ ks2 → blt k1 k2).
Proof.
  induction ks1 as [|k ks1 IH]; simpl.
  - split; [intros H; repeat split; [constructor|done|set_solver]|tauto].
  - split.
    + inversion_clear 1 as [|? ? Hs Hk]. apply IH in Hs as (H1 & H2 & H3).
      rewrite Forall_app in Hk. destruct Hk as [Hk1 Hk2]. split; [by constructor|].
      split; [done|]. intros k1 k2 [->|Hin]%elem_of_cons Hin2; [|by apply H3].
      by eapply (proj1 (Forall_forall _ _) Hk2).
    + intros (H1 & H2 & H3). inversion_clear H1 as [|? ? Hs Hk].
      constructor; [apply IH; set_solver|]. apply Forall_app. split; [done|].
      apply Forall_forall. intros k2 Hin. apply H3; [apply list_elem_of_here|done].
Qed.

(** Where a key sits in a sorted list of entries. *)
Lemma split_at target (es : list entry) :
  StronglySorted blt (e_key <$> es) →
  ∃ lo mid hi, es = lo ++ mid ++ hi ∧ Forall (below target) lo ∧ Forall (above target) hi ∧
    (mid = [] ∨ ∃ e, mid = [e] ∧ e_key e = target).
Proof.
  induction es as [|e es IH]; intros Hs; [by exists [], [], []; auto|].
  simpl in Hs. inversion_clear Hs as [|? ? Hs' Hk].
  assert (Hall : ∀ k, blt k (e_key e) → Forall (above k) es).
  { intros k Hlt. rewrite Forall_fmap in Hk. eapply Forall_impl; [exact Hk|].
    intros e' He'. unfold above. by etrans. }
  destruct (blt_total (e_key e) target) as [[Hlt|Heq]|Hgt].
  - destruct (IH Hs') as (lo & mid & hi & -> & Hlo & Hhi & Hm).
    exists (e :: lo), mid, hi. split; [done|]. split; [by constructor|done].
  - exists [], [e], es. split; [done|]. split; [constructor|]. split; [|eauto].
    rewrite <- Heq. by rewrite Forall_fmap in Hk.
  - exists [], [], (e :: es). split; [done|]. split; [constructor|].
    split; [|by left]. constructor; [done|by apply Hall].
Qed.

Lemma sorted_NoDup (ks : list bytes) : StronglySorted blt ks → NoDup ks.
Proof.
  induction 1 as [|k ks _ IH Hk]; constructor; [|done].
  intros Hin. apply (blt_irrefl k). by eapply (proj1 (Forall_forall _ _) Hk).
Qed.

(** ** The abstract map under the edits of the operations *)

Lemma abs_split lo e hi :
  StronglySorted blt (e_key <$> lo ++ e :: hi) →
  abs (lo ++ e :: hi) = <[e_key e := e_bytes e]> (abs (lo ++ hi)) ∧
  abs (lo ++ hi) !! e_key e = None.
Proof.
  intros Hs%sorted_NoDup. unfold abs.
  assert (Hnd : NoDup ((λ e, (e_key e, e_bytes e)) <$> lo ++ e :: hi).*1).
  { rewrite <- list_fmap_compose. exact Hs. }
  split.
  - rewrite (list_to_map_proper _ ((e_key e, e_bytes e) ::
      ((λ e, (e_key e, e_bytes e)) <$> lo ++ hi))); [done|done|].
    rewrite !fmap_app. simpl. by rewrite Permutation_middle.
  - apply not_elem_of_list_to_map. rewrite <- list_fmap_compose.
    change (fst ∘ (λ e, (e_key e, e_bytes e))) with e_key.
    rewrite fmap_app in Hs |- *. simpl in Hs. rewrite <- Permutation_middle in Hs.
    by apply NoDup_cons in Hs as [? _].
Qed.

Lemma abs_lookup_below_above target lo hi :
  Forall (below target) lo → Forall (above target) hi → abs (lo ++ hi) !! target = None.
Proof.
  intros Hlo Hhi. apply not_elem_of_list_to_map. rewrite <- list_fmap_compose.
  intros (e & -> & He)%list_elem_of_fmap. simpl in *. apply elem_of_app in He as [He|He].
  - eapply (proj1 (Forall_forall _ _) Hlo) in He. by apply blt_irrefl in He.
  - eapply (proj1 (Forall_forall _ _) Hhi) in He. by apply blt_irrefl in He.
Qed.

Lemma above_not_blt target e : above target e → ¬ blt (e_key e) target.
Proof. intros H1 H2. apply (blt_irrefl target). by etrans. Qed.

Lemma mod8_taggable p b : 0 < p < b → b ≤ W64 → p mod 8 = 0 → taggable p.
Proof.
  intros Hp Hb H8. split; [lia|]. apply Z.mod_divide in H8 as [k ->]; [|done].
  replace (k * 8) with (0 + (k * 4) * 2) by lia. by rewrite Z.mod_add.
Qed.

Lemma heap_taggable m p : heap_ok m → is_Some (nodes m !! p) → taggable p.
Proof.
  intros [[Hb _] Hn _ _] Hp. destruct (Hn p Hp). by eapply mod8_taggable; [|apply Hb|].
Qed.

(** ** Searching a represented list *)

Lemma entry_key_lt sl m e target :
  entry_ok sl m e →
  ∃ n, nodes m !! e_addr e = Some n ∧ key_lt (key n) target = bool_decide (blt (e_key e) target).
Proof. intros [Hn _]. eexists. split; [exact Hn|]. apply key_lt_new. Qed.

(** Enough of [rep] for a search, whatever the marks. *)
Lemma rep_searchable sl tl m es G gv X target lo xs hi :
  rep sl tl m es G gv → es = lo ++ xs ++ hi →
  Forall (below target) lo → Forall (λ e, ¬ blt (e_key e) target) hi →
  X (head sl) = false → Forall (λ e, X (e_addr e) = false) (lo ++ hi) →
  Forall (λ e, X (e_addr e) = true) xs →
  ∀ m', nodes m' = nodes m → (∀ l, links m' !! (tl, l) = links m !! (tl, l)) →
  (∀ l, (l ≤ max_level sl)%nat → chain m' l X (head sl) (addrs l es ++ [tl])) →
  searchable sl tl X target lo xs hi (max_level sl + 1) m'.
Proof.
  intros Hr -> Hlo Hhi HXh HXe HXx m' Hn Htl Hc.
  destruct Hr as [Hh Hhd Htail Htll Hent Hnd _ _ _ Hheap _ _ _ _ _].
  rewrite Forall_app in HXe. destruct HXe as [HXlo HXhi].
  rewrite !Forall_app in Hent. destruct Hent as [(Elo & Exs & Ehi) _].
  assert (Htag : ∀ e, entry_ok sl m e → taggable (e_addr e)).
  { intros e [He _]. by eapply heap_taggable. }
  split; try done.
  - intros l Hl. apply Hc. lia.
  - rewrite Forall_forall in *. intros e He. split; [by apply HXlo|].
    destruct (entry_key_lt sl m e target (Elo e He)) as (n & Hne & Hk).
    exists n. rewrite Hn. split; [done|]. rewrite Hk. by apply bool_decide_eq_true, Hlo.
  - rewrite Forall_forall in *. intros e He. split; [by apply HXhi|].
    destruct (entry_key_lt sl m e target (Ehi e He)) as (n & Hne & Hk).
    exists n. rewrite Hn. split; [done|]. rewrite Hk. by apply bool_decide_eq_false, Hhi.
  - rewrite Hn. eauto.
  - intros l Hl. rewrite Htl. apply Htll. unfold MAX_HEIGHT in *. lia.
  - eapply sublist_NoDup; [exact Hnd|]. do 2 apply sublist_skip.
    apply fmap_sublist. by apply sublist_inserts_r.
  - constructor; [by eapply heap_taggable|]. rewrite Forall_fmap, !Forall_app.
    split_and!; (eapply Forall_impl; [first [exact Elo|exact Exs|exact Ehi]|exact Htag]).
Qed.

(** [succs[0]] of a search holds the target's node when there is one. *)
Lemma succ_at_found sl tl m es G gv target lo mid hi nd :
  rep sl tl m es G gv → es = lo ++ mid ++ hi → Forall (above target) hi →
  (mid = [] ∨ ∃ e, mid = [e] ∧ e_key e = target) →
  nodes m !! succ_at tl (mid ++ hi) 0 = Some nd →
  key_eq (key nd) target = bool_decide (mid ≠ []).
Proof.
  intros Hr -> Hhi Hmid Hnd. unfold succ_at in Hnd. rewrite addrs_0 in Hnd.
  pose proof (r_entries _ _ _ _ _ _ Hr) as Hent. rewrite !Forall_app in Hent.
  destruct Hent as [(_ & Hm & Hh) _].
  destruct Hmid as [->|(e & -> & He)].
  - rewrite bool_decide_false by tauto. destruct hi as [|e hi]; simpl in Hnd.
    + rewrite (r_tail _ _ _ _ _ _ Hr) in Hnd. by simplify_eq.
    + apply Forall_cons in Hh as [[Hn _] _]. rewrite Hn in Hnd. simplify_eq.
      cbn [key]. rewrite key_eq_new. apply bool_decide_false. intros <-.
      apply Forall_cons in Hhi as [Ha _]. by apply blt_irrefl in Ha.
  - rewrite bool_decide_true by done. simpl in Hnd.
    apply Forall_cons in Hm as [[Hn _] _]. rewrite Hn in Hnd. simplify_eq.
    cbn [key]. rewrite key_eq_new. by apply bool_decide_true.
Qed.

Lemma not_blt_mid target mid hi :
  (mid = [] ∨ ∃ e, mid = [e] ∧ e_key e = target) → Forall (above target) hi →
  Forall (λ e, ¬ blt (e_key e) target) (mid ++ hi).
Proof.
  intros Hm Hhi. apply Forall_app. split.
  - destruct Hm as [->|(e & -> & <-)]; [constructor|]. constructor; [apply blt_irrefl|done].
  - eapply Forall_impl; [exact Hhi|]. intros e. apply above_not_blt.
Qed.

(** Any quiescent list can be searched. *)
Lemma rep_find_ready sl tl m es G gv target lo mid hi :
  rep sl tl m es G gv → es = lo ++ mid ++ hi →
  Forall (below target) lo → Forall (above target) hi →
  (mid = [] ∨ ∃ e, mid = [e] ∧ e_key e = target) →
  searchable sl tl unmarked target lo [] (mid ++ hi) (max_level sl + 1) m.
Proof.
  intros Hr He Hlo Hhi Hmid.
  eapply (rep_searchable sl tl m es G gv); try done.
  - by apply not_blt_mid.
  - by apply Forall_true.
  - by apply (r_chains _ _ _ _ _ _ Hr).
Qed.

Lemma get_levels_run sl tl target lo hi fuel m : ∀ n,
  searchable sl tl unmarked target lo [] hi (S n) m →
  (length (lo ++ hi) + 2 ≤ fuel)%nat →
  run (get_levels fuel (S n) target (pred_at sl lo (S n))) m
  = run (get_candidate target (succ_at tl hi 0)) m.
Proof.
  induction n as [|n IH]; intros Hs Hf; cbn [get_levels]; rewrite run_bind;
    pose proof (walk_at_level _ _ _ _ _ _ _ _ _ Hs (Nat.lt_succ_diag_r _) Hf) as Hw;
    rewrite run_bind in Hw;
    destruct (run (link_reference _ _) m) as [[c m0]|f]; try done;
    rewrite run_bind, Hw; [done|].
  apply IH; [|done]. destruct Hs as [Hc ? ? ? ? ? Htl ? ?].
  split; try done; intros l Hl; [apply Hc|apply Htl]; lia.
Qed.

Lemma get_run sl tl m es G gv target fuel :
  rep sl tl m es G gv → (length es + 2 ≤ fuel)%nat →
  run (get fuel sl target) m = Ok (abs es !! target, m).
Proof.
  intros Hr Hf.
  destruct (split_at target es (r_sorted _ _ _ _ _ _ Hr)) as
    (lo & mid & hi & He & Hlo & Hhi & Hmid).
  pose proof (rep_find_ready _ _ _ _ _ _ _ _ _ _ Hr He Hlo Hhi Hmid) as Hs.
  assert (Hpred : pred_at sl lo (max_level sl + 1) = head sl).
  { unfold pred_at. rewrite (addrs_above _ _ (max_level sl)); [done| |lia].
    pose proof (r_entries _ _ _ _ _ _ Hr) as Hent. rewrite He, !Forall_app in Hent.
    eapply Forall_impl; [apply Hent|]. by intros e (_ & _ & ?). }
  unfold get. rewrite <- Hpred, Nat.add_1_r.
  rewrite (get_levels_run sl tl target lo (mid ++ hi)).
  2: { by rewrite Nat.add_1_r in Hs. }
  2: { by rewrite He in Hf. }
  destruct (searchable_stop _ _ _ _ _ _ _ _ 0 _ Hs) as [(s & Hl & Hts) (nd & Hnd & _)]; [lia|].
  pose proof (succ_at_found _ _ _ _ _ _ _ _ _ _ _ Hr He Hhi Hmid Hnd) as Hk.
  unfold get_candidate. rewrite run_bind, (run_key _ _ _ Hnd), Hk.
  destruct Hmid as [->|(e & -> & Hek)]; simpl negb.
  - rewrite bool_decide_false by tauto. rewrite He. simpl app.
    by rewrite (abs_lookup_below_above target) by done.
  - rewrite bool_decide_true by done.
    rewrite run_bind, (run_link_get _ _ _ _ _ Hl Hts).
    pose proof (r_entries _ _ _ _ _ _ Hr) as Hent. rewrite He, !Forall_app in Hent.
    destruct Hent as [(_ & Hent & _) _]. apply Forall_cons in Hent as [(Hn & Hv & _) _].
    unfold succ_at. rewrite addrs_0. simpl. rewrite Hn. simpl.
    destruct (h_values m (r_heap _ _ _ _ _ _ Hr) (e_vptr e)) as [Hpos _]; [eauto|].
    destruct (Z.eqb_spec (e_vptr e) 0); [lia|]. simpl. rewrite Hv. simpl.
    rewrite He. simpl app. pose proof (r_sorted _ _ _ _ _ _ Hr) as Hsort. rewrite He in Hsort.
    destruct (abs_split lo e hi Hsort) as [-> _]. by rewrite <- Hek, lookup_insert_eq.
Qed.

(** ** find on a quiescent list *)

Lemma rep_tops sl tl m es G gv lo mid hi :
  rep sl tl m es G gv → es = lo ++ mid ++ hi →
  Forall (λ e, (e_top e ≤ max_level sl)%nat) lo.
Proof.
  intros Hr ->. pose proof (r_entries _ _ _ _ _ _ Hr) as Hent. rewrite !Forall_app in Hent.
  eapply Forall_impl; [apply Hent|]. by intros e (_ & _ & ?).
Qed.

(** The link a search crosses last at each level. *)
Lemma pred_at_link sl tl m X target lo xs hi n l :
  searchable sl tl X target lo xs hi n m → xs = [] → (l < n)%nat →
  links m !! (pred_at sl lo l, l) = Some (Link.pack (succ_at tl hi l) false).
Proof.
  intros [Hc Hh Hlo _ _ _ _ _ _] -> Hl. specialize (Hc l Hl). simpl in Hc.
  rewrite addrs_app, <- app_assoc in Hc. apply chain_app in Hc as [_ Hc].
  destruct (succ_at_split tl hi l) as [R HR]. rewrite HR in Hc. destruct Hc as [Hc _].
  unfold pred_at. rewrite Hc. f_equal. f_equal.
  pose proof (lastd_elem (head sl) (addrs l lo)) as [->|Hin]%elem_of_cons; [done|].
  revert Hin. generalize (lastd (head sl) (addrs l lo)). apply Forall_forall, Forall_addrs.
  eapply Forall_impl; [exact Hlo|]. by intros e [].
Qed.

Lemma find_quiescent sl tl m es G gv target lo mid hi fuel :
  rep sl tl m es G gv → es = lo ++ mid ++ hi →
  Forall (below target) lo → Forall (above target) hi →
  (mid = [] ∨ ∃ e, mid = [e] ∧ e_key e = target) →
  (length es + 2 ≤ fuel)%nat →
  ∃ preds succs,
    run (find fuel sl target null_array null_array) m
      = Ok ((bool_decide (mid ≠ []), preds, succs), m) ∧
    length preds = MAX_HEIGHT ∧ length succs = MAX_HEIGHT ∧
    located sl tl lo (mid ++ hi) (max_level sl + 1) preds succs.
Proof.
  intros Hr He Hlo Hhi Hmid Hf.
  pose proof (rep_find_ready _ _ _ _ _ _ _ _ _ _ Hr He Hlo Hhi Hmid) as Hs.
  pose proof (r_height _ _ _ _ _ _ Hr) as Hmh.
  destruct (find_run sl tl unmarked target lo [] (mid ++ hi) fuel null_array null_array m Hs)
    as (nd & ps & ss & m' & Hnd & Hrun & Hlp & Hls & Hloc & Hm & Hlk).
  - by eapply rep_tops.
  - done.
  - done.
  - cbn [app]. by rewrite <- He.
  - exists ps, ss. rewrite Hrun. split; [|by rewrite Hlp, Hls].
    rewrite (succ_at_found _ _ _ _ _ _ _ _ _ _ _ Hr He Hhi Hmid Hnd).
    rewrite Hm, (map_eq (links m') (links m)), set_links_eta; [done|].
    intros [p l]. rewrite Hlk. case_decide as Hd; [|done]. destruct Hd as [Hl ->].
    symmetry. by eapply pred_at_link.
Qed.

(** ** Allocation *)

(** Cells [(p, 0)] to [(p, n - 1)] all set to [w]. *)
Definition fill_links (p w : Z) (n : nat) (ls : gmap (Z * nat) Z) : gmap (Z * nat) Z :=
  foldr (λ l ls, <[(p, l) := w]> ls) ls (seq 0 n).

Lemma fill_links_lookup p w n ls q l :
  fill_links p w n ls !! (q, l) =
  if decide (q = p ∧ (l < n)%nat) then Some w else ls !! (q, l).
Proof.
  unfold fill_links. assert (H : (l ∈ seq 0 n) ↔ (0 ≤ l < 0 + n)%nat) by apply elem_of_seq.
  revert H. generalize (seq 0 n). intros lv H.
  assert (Hd : foldr (λ l ls, <[(p, l) := w]> ls) ls lv !! (q, l)
    = if decide (q = p ∧ l ∈ lv) then Some w else ls !! (q, l)).
  { clear H. induction lv as [|k lv IH]; simpl.
    - rewrite decide_False; [done|]. intros [_ ?%elem_of_nil]. done.
    - destruct (decide ((p, k) = (q, l))) as [[= -> ->]|Hne].
      + rewrite lookup_insert_eq, decide_True; [done|]. split; [done|apply list_elem_of_here].
      + rewrite lookup_insert_ne, IH by done.
        do 2 case_decide; try done; set_solver. }
  rewrite Hd. do 2 case_decide; try done; exfalso; naive_solver lia.
Qed.

Lemma null_links_lookup p n ls q l :
  null_links p n ls !! (q, l) =
  if decide (q = p ∧ (l < n)%nat) then Some Link.null else ls !! (q, l).
Proof. apply (fill_links_lookup p Link.null). Qed.

Lemma free_links_lookup p n ls q l :
  q ≠ p → free_links p n ls !! (q, l) = ls !! (q, l).
Proof.
  intros Hq. unfold free_links. induction (seq 0 n) as [|k lv IH]; simpl; [done|].
  rewrite lookup_delete_ne; [done|]. congruence.
Qed.

Lemma heap_ok_new_value m bs :
  heap_ok m → brk m + value_size ≤ W64 →
  ∃ m', new_value bs m = Ok (brk m, m') ∧
    m' = mkMem (nodes m) (links m) (<[brk m := bs]> (values m)) (brk m + value_size)
           (len m) (retired m) (rng m) ∧ heap_ok m'.
Proof.
  intros [[Hb H8] Hn Hl Hv] Hle. unfold new_value, value_size in *.
  destruct (Z.ltb_spec W64 (brk m + 16)); [lia|].
  eexists. split; [done|]. split; [done|]. split; simpl.
  - split; [lia|]. rewrite Z.add_mod, H8 by done. done.
  - intros p Hp. destruct (Hn p Hp). split; [lia|done].
  - intros p l Hp. specialize (Hl p l Hp). lia.
  - intros v [x Hx]. destruct (decide (brk m = v)) as [<-|Hne]; [lia|].
    rewrite lookup_insert_ne in Hx by done. destruct (Hv v); [eauto|lia].
Qed.

Lemma heap_ok_new_node m k v top :
  heap_ok m → brk m + layout_for (top + 1) ≤ W64 →
  ∃ m', Node_new k v top m = Ok (brk m, m') ∧
    m' = mkMem (<[brk m := mkNode k v top]> (nodes m))
           (null_links (brk m) (top + 1) (links m)) (values m)
           (brk m + layout_for (top + 1)) (len m) (retired m) (rng m) ∧ heap_ok m'.
Proof.
  intros [[Hb H8] Hn Hl Hv] Hle. unfold Node_new, layout_for in *.
  destruct (Z.ltb_spec W64 (brk m + (40 + 8 * Z.of_nat (top + 1)))); [lia|].
  eexists. split; [done|]. split; [done|]. split; simpl.
  - split; [lia|]. replace (brk m + (40 + 8 * Z.of_nat (top + 1)))
      with (brk m + (5 + Z.of_nat (top + 1)) * 8) by lia. by rewrite Z.mod_add.
  - intros p [x Hx]. destruct (decide (brk m = p)) as [<-|Hne]; [lia|].
    rewrite lookup_insert_ne in Hx by done. destruct (Hn p); [eauto|]. split; [lia|done].
  - intros p l. rewrite null_links_lookup. case_decide as Hd.
    + intros _. destruct Hd as [-> _]. lia.
    + intros Hp%Hl. lia.
  - intros v' Hx. destruct (Hv v' Hx). lia.
Qed.

(** ** Freshness *)

Lemma rep_vptr_lt sl tl m es G gv v :
  rep sl tl m es G gv → v ∈ (e_vptr <$> es ++ G) ++ gv → 0 < v < brk m.
Proof.
  intros Hr Hv. apply (h_values m (r_heap _ _ _ _ _ _ Hr)).
  apply elem_of_app in Hv as [(e & -> & He)%list_elem_of_fmap|Hv].
  - pose proof (proj1 (Forall_forall _ _) (r_entries _ _ _ _ _ _ Hr) e He) as (_ & Hx & _).
    eauto.
  - by apply (proj1 (Forall_forall _ _) (r_gv _ _ _ _ _ _ Hr) v Hv).
Qed.

Lemma rep_addr_lt sl tl m es G gv a :
  rep sl tl m es G gv → a ∈ head sl :: tl :: (e_addr <$> es ++ G) → 0 < a < brk m.
Proof.
  intros Hr Ha. apply (h_nodes m (r_heap _ _ _ _ _ _ Hr)).
  apply elem_of_cons in Ha as [->|[->|(e & -> & He)%list_elem_of_fmap]%elem_of_cons].
  - rewrite (r_head _ _ _ _ _ _ Hr). eauto.
  - rewrite (r_tail _ _ _ _ _ _ Hr). eauto.
  - pose proof (proj1 (Forall_forall _ _) (r_entries _ _ _ _ _ _ Hr) e He) as (Hx & _).
    eauto.
Qed.

(** An entry keeps its cells when other addresses are written. *)
Lemma entry_ok_ext sl m m' e :
  entry_ok sl m e → nodes m' !! e_addr e = nodes m !! e_addr e →
  values m' !! e_vptr e = values m !! e_vptr e → entry_ok sl m' e.
Proof. intros (H1 & H2 & H3) E1 E2. split_and!; by rewrite ?E1, ?E2. Qed.

(** ** insert, the key is present *)

Definition with_value (e : entry) (v : Z) (bs : bytes) : entry :=
  mkEntry (e_addr e) (e_key e) v (e_top e) bs.

Lemma addrs_with_value l lo e hi v bs :
  addrs l (lo ++ with_value e v bs :: hi) = addrs l (lo ++ e :: hi).
Proof. rewrite !addrs_app. f_equal. unfold addrs. rewrite !filter_cons. simpl. by case_decide. Qed.

Lemma perm_mid (lo hi G : list entry) e : (lo ++ e :: hi) ++ G ≡ₚ e :: lo ++ hi ++ G.
Proof. rewrite <- app_assoc. simpl. by rewrite <- Permutation_middle. Qed.

(** A cell written at the end of the heap hides nothing that was there. *)
Lemma insert_keeps_some {A} (N : gmap Z A) p x (l : list Z) :
  Forall (λ v, is_Some (N !! v)) l → Forall (λ v, is_Some (<[p := x]> N !! v)) l.
Proof.
  intros H. eapply Forall_impl; [exact H|]. intros v [y Hy].
  destruct (decide (p = v)) as [<-|Hne]; [rewrite lookup_insert_eq; eauto|].
  rewrite lookup_insert_ne by done. eauto.
Qed.

(** Overwriting a node keeps the heap well formed. *)
Lemma heap_ok_set_node m a n x rt :
  nodes m !! a = Some x → heap_ok m →
  heap_ok (mkMem (<[a := n]> (nodes m)) (links m) (values m) (brk m) (len m) rt (rng m)).
Proof.
  intros Ha [H1 H2 H3 H4]. split; simpl; try done. intros p [y Hy]. apply H2.
  destruct (decide (a = p)) as [<-|Hne]; [eauto|]. rewrite lookup_insert_ne in Hy by done. eauto.
Qed.

Lemma rep_update sl tl m lo e hi G gv val :
  rep sl tl m (lo ++ e :: hi) G gv →
  heap_ok (mkMem (nodes m) (links m) (<[brk m := val]> (values m))
             (brk m + value_size) (len m) (retired m) (rng m)) →
  rep sl tl
    (mkMem (<[e_addr e := mkNode (Fin (KeyRepr_new (e_key e))) (brk m) (e_top e)]> (nodes m))
       (links m) (<[brk m := val]> (values m)) (brk m + value_size) (len m)
       (retired m ++ [(e_vptr e, drop_value)]) (rng m))
    (lo ++ with_value e (brk m) val :: hi) G (gv ++ [e_vptr e]).
Proof.
  intros Hr Hh1. set (e' := with_value e (brk m) val).
  assert (Hvne : ∀ v, v ∈ (e_vptr <$> (lo ++ e :: hi) ++ G) ++ gv → brk m ≠ v).
  { intros v Hv%(rep_vptr_lt _ _ _ _ _ _ _ Hr). lia. }
  destruct Hr as [Hmh Hhd Htail Htl Hent Hnd Hvals Hgv Hret Hheap Hsort Hlen Hch Hln Hlv].
  assert (Hnd' : e_addr e ≠ head sl ∧ e_addr e ≠ tl ∧ e_addr e ∉ e_addr <$> lo ++ hi ++ G).
  { rewrite perm_mid in Hnd. simpl in Hnd. rewrite !NoDup_cons in Hnd. set_solver. }
  destruct Hnd' as (Hneh & Hnet & HneR).
  rewrite perm_mid in Hent. apply Forall_cons in Hent as [He HentR].
  assert (Haddr : e_addr <$> (lo ++ e' :: hi) ++ G = e_addr <$> (lo ++ e :: hi) ++ G).
  { by rewrite !fmap_app. }
  split; simpl; try done.
  - by rewrite lookup_insert_ne.
  - by rewrite lookup_insert_ne.
  - rewrite perm_mid. constructor.
    + destruct He as (_ & _ & Htop). split_and!; simpl; [by rewrite lookup_insert_eq..|done].
    + rewrite Forall_forall in HentR |- *. intros f Hf.
      apply (entry_ok_ext sl m); [by apply HentR| |]; simpl.
      * apply lookup_insert_ne. intros Heq. apply HneR. rewrite Heq.
        by apply list_elem_of_fmap_2.
      * apply lookup_insert_ne, Hvne. apply elem_of_app. left. apply list_elem_of_fmap_2.
        set_solver.
  - by rewrite Haddr.
  - assert ((e_vptr <$> (lo ++ e' :: hi) ++ G) ++ gv ++ [e_vptr e]
      ≡ₚ brk m :: (e_vptr <$> (lo ++ e :: hi) ++ G) ++ gv) as ->.
    { rewrite !perm_mid. simpl. rewrite app_assoc, <- Permutation_cons_append. done. }
    constructor; [|done]. intros Hin. by apply (Hvne _ Hin).
  - rewrite Forall_app. split.
    + by apply insert_keeps_some.
    + constructor; [|done]. destruct He as (_ & Hv & _). rewrite lookup_insert_ne; [eauto|].
      apply Hvne. set_solver.
  - unfold retired_as in *. rewrite Hret, fmap_app, app_assoc. done.
  - destruct He as [Hn _]. by apply (heap_ok_set_node (mkMem (nodes m) _ _ _ _ (retired m) _) _ _ _ _ Hn).
  - by rewrite fmap_app in *.
  - by rewrite length_app in *.
  - intros l Hl. unfold e'. rewrite addrs_with_value.
    eapply chain_ext; [|by apply (Hch l Hl)]. done.
  - intros p Hp. rewrite Haddr. apply Hln. destruct (decide (e_addr e = p)) as [<-|Hne].
    + destruct He as [-> _]. eauto.
    + by rewrite lookup_insert_ne in Hp.
  - intros v Hv. rewrite perm_mid. destruct (decide (brk m = v)) as [<-|Hne].
    + set_solver.
    + rewrite lookup_insert_ne in Hv by done. apply Hlv in Hv. rewrite perm_mid in Hv.
      set_solver.
Qed.

(** ** insert, the key is absent *)

Lemma init_links_run succs node (s : nat → Z) : ∀ ls m,
  (∀ l, l ∈ ls → succs !! l = Some (s l) ∧ is_Some (links m !! (node, l))) →
  ∃ m', run (init_links ls node succs) m = Ok (tt, m') ∧ m' = set_links m (links m') ∧
    ∀ q l, links m' !! (q, l) =
      if decide (q = node ∧ l ∈ ls) then Some (Link.pack (s l) false) else links m !! (q, l).
Proof.
  induction ls as [|k ls IH]; intros m Hl.
  - exists m. split; [done|]. split; [by rewrite set_links_eta|].
    intros q l. rewrite decide_False; [done|]. by intros [_ ?%elem_of_nil].
  - destruct (Hl k) as [Hs [w Hw]]; [apply list_elem_of_here|].
    cbn [init_links]. unfold index. rewrite Hs, run_bind. cbn [run].
    rewrite run_bind. unfold link_store. simpl. rewrite Hw. simpl.
    set (m1 := set_links m _).
    destruct (IH m1) as (m' & Hr & Hm & Hlk).
    { intros l Hin. destruct (Hl l) as [? ?]; [by apply list_elem_of_further|].
      split; [done|]. unfold m1. simpl. rewrite lookup_insert_is_Some'. by right. }
    exists m'. split; [done|]. split; [by rewrite Hm|].
    intros q l. rewrite Hlk. unfold m1. simpl.
    destruct (decide (q = node ∧ l ∈ ls)) as [[-> Hin]|Hn].
    + rewrite decide_True; [done|]. split; [done|by apply list_elem_of_further].
    + destruct (decide ((node, k) = (q, l))) as [[= -> ->]|Hne].
      * rewrite lookup_insert_eq, decide_True; [done|]. split; [done|apply list_elem_of_here].
      * rewrite lookup_insert_ne, decide_False; [done| |done].
        intros [-> [->|Hin]%elem_of_cons]; [done|tauto].
Qed.

Lemma link_uppers_run fuel sl target node preds succs (p s : nat → Z) : ∀ ls m,
  (1 ≤ fuel)%nat → NoDup ls →
  (∀ l, l ∈ ls → preds !! l = Some (p l) ∧ succs !! l = Some (s l) ∧
     links m !! (p l, l) = Some (Link.pack (s l) false) ∧
     links m !! (node, l) = Some (Link.pack (s l) false)) →
  ∃ m', run (link_uppers fuel sl target node ls preds succs) m = Ok (tt, m') ∧
    m' = set_links m (links m') ∧
    ∀ q l, links m' !! (q, l) =
      if decide (q = p l ∧ l ∈ ls) then Some (Link.pack node false) else links m !! (q, l).
Proof.
  intros ls. induction ls as [|k ls IH]; intros m Hf Hnd Hl.
  - exists m. split; [done|]. split; [by rewrite set_links_eta|].
    intros q l. rewrite decide_False; [done|]. by intros [_ ?%elem_of_nil].
  - destruct (Hl k) as (Hp & Hs & Hpl & Hnl); [apply list_elem_of_here|].
    apply NoDup_cons in Hnd as [Hk Hnd].
    destruct fuel as [|fuel]; [lia|]. cbn [link_uppers link_upper].
    unfold index at 1 2. rewrite Hp, Hs. rewrite run_bind. cbn [pbind].
    rewrite run_bind. unfold link_store. cbn [run atom exec].
    rewrite Hnl. simpl rbind. rewrite (insert_id _ _ _ Hnl), set_links_eta.
    rewrite run_bind, (run_link_cas _ _ _ _ _ _ _ Hpl). cbn [run].
    set (m1 := set_links m _).
    assert (Hm1 : ∀ q l, l ≠ k → links m1 !! (q, l) = links m !! (q, l)).
    { intros q l Hne. apply lookup_insert_ne. congruence. }
    destruct (IH m1) as (m' & Hr & Hm & Hlk); [done|done| |].
    { intros l Hin. destruct (Hl l) as (? & ? & ? & ?); [by apply list_elem_of_further|].
      rewrite !Hm1 by (intros ->; done). done. }
    exists m'. split; [done|]. split; [by rewrite Hm|].
    intros q l. rewrite Hlk. destruct (decide (l = k)) as [->|Hne].
    + rewrite decide_False by tauto. unfold m1. simpl.
      destruct (decide (q = p k)) as [->|Hq].
      * rewrite lookup_insert_eq, decide_True; [done|]. split; [done|apply list_elem_of_here].
      * rewrite lookup_insert_ne, decide_False; [done|tauto|congruence].
    + rewrite Hm1 by done. do 2 case_decide; try done; set_solver.
Qed.

(** The links after a new node [a] of height [top] has been linked in. *)
Definition linked_in (sl : SkipList) (tl : Z) (lo hi : list entry) (a : Z) (top : nat)
    (m m' : Mem) : Prop :=
  ∀ q l, links m' !! (q, l) =
    if decide (q = a ∧ (l ≤ top)%nat) then Some (Link.pack (succ_at tl hi l) false)
    else if decide (q = pred_at sl lo l ∧ (l ≤ top)%nat) then Some (Link.pack a false)
    else links m !! (q, l).

Lemma linked_in_chain sl tl lo hi e m m' l :
  linked_in sl tl lo hi (e_addr e) (e_top e) m m' →
  NoDup (head sl :: tl :: e_addr e :: (e_addr <$> lo ++ hi)) →
  chain m l unmarked (head sl) (addrs l (lo ++ hi) ++ [tl]) →
  chain m' l unmarked (head sl) (addrs l (lo ++ e :: hi) ++ [tl]).
Proof.
  intros Hlk Hnd Hc. destruct (succ_at_split tl hi l) as [R HR].
  assert (Hfull : NoDup (head sl :: addrs l (lo ++ e :: hi) ++ [tl])).
  { apply NoDup_level. rewrite fmap_app in Hnd |- *. simpl.
    by rewrite <- Permutation_middle. }
  rewrite addrs_app in Hc, Hfull |- *. rewrite <- app_assoc in Hc, Hfull |- *.
  assert (Hpre : addrs l (e :: hi) = (if decide (l ≤ e_top e)%nat then [e_addr e] else []) ++ addrs l hi).
  { unfold addrs. rewrite filter_cons. by case_decide. }
  rewrite Hpre, <- app_assoc, HR in Hfull |- *. rewrite HR in Hc.
  assert (Hane : e_addr e ∉ head sl :: addrs l lo ++ succ_at tl hi l :: R).
  { rewrite !NoDup_cons in Hnd. destruct Hnd as (Hh & Ht & Ha & _).
    rewrite <- HR. intros Hin. apply elem_of_cons in Hin as [Hin|Hin]; [set_solver|].
    assert (Hx : ∃ x, x ∈ lo ++ hi ∧ e_addr x = e_addr e).
    { apply elem_of_app in Hin as [Hin|Hin]; [|apply elem_of_app in Hin as [Hin|Hin]].
      - apply elem_of_addrs in Hin as (x & Hx & Hxe & _). set_solver.
      - apply elem_of_addrs in Hin as (x & Hx & Hxe & _). set_solver.
      - apply list_elem_of_singleton in Hin. set_solver. }
    destruct Hx as (x & Hx & Hxe). apply Ha. rewrite <- Hxe. by apply list_elem_of_fmap_2. }
  destruct (decide (l ≤ e_top e)%nat) as [Hl|Hl]; simpl app in *.
  - set (m2 := set_links m (<[(e_addr e, l) := Link.pack (succ_at tl hi l) false]> (links m))).
    assert (Hm2 : ∀ q, q ≠ e_addr e → links m2 !! (q, l) = links m !! (q, l)).
    { intros q Hq. apply lookup_insert_ne. congruence. }
    eapply (chain_relink m2); [| |done|exact Hfull| |].
    + eapply chain_ext; [|exact Hc]. intros q Hq%elem_of_removelast.
      split; [|done]. apply Hm2. set_solver.
    + split; [by apply lookup_insert_eq|]. apply chain_app in Hc as [_ [_ Hc]].
      eapply chain_ext; [|exact Hc]. intros q Hq%elem_of_removelast.
      split; [|done]. apply Hm2. set_solver.
    + rewrite Hlk, decide_False, decide_True; [done|by split|].
      intros [He _]. apply Hane. unfold pred_at in He. rewrite <- He.
      pose proof (lastd_elem (head sl) (addrs l lo)). set_solver.
    + intros q Hq. rewrite Hlk. destruct (decide (q = e_addr e)) as [->|Hqe].
      * rewrite decide_True by done. symmetry. by apply lookup_insert_eq.
      * rewrite Hm2 by done. rewrite !decide_False; [done|tauto|tauto].
  - eapply chain_ext; [|exact Hc]. intros q _. split; [|done].
    rewrite Hlk, !decide_False; [done|tauto|tauto].
Qed.

Lemma pred_at_elem sl lo l : pred_at sl lo l ∈ head sl :: (e_addr <$> lo).
Proof.
  unfold pred_at. pose proof (lastd_elem (head sl) (addrs l lo)) as Hin.
  apply elem_of_cons in Hin as [->|(e & He & <- & _)%elem_of_addrs]; [apply list_elem_of_here|].
  by apply list_elem_of_further, list_elem_of_fmap_2.
Qed.

(** Inserting an entry whose node sits at [brk m + value_size]. *)
Definition fresh_entry (m : Mem) (target val : bytes) (top : nat) : entry :=
  mkEntry (brk m + value_size) target (brk m) top val.

Definition inserted_mem (m : Mem) (target val : bytes) (top : nat) (lk : gmap (Z * nat) Z)
    : Mem :=
  let a := brk m + value_size in
  mkMem (<[a := mkNode (Fin (KeyRepr_new target)) (brk m) top]> (nodes m)) lk
    (<[brk m := val]> (values m)) (a + layout_for (top + 1)) (wadd (len m) 1)
    (retired m) (rng m).

Lemma heap_ok_inserted sl tl m lo hi G gv target val top lk :
  rep sl tl m (lo ++ hi) G gv →
  linked_in sl tl lo hi (brk m + value_size) top m (inserted_mem m target val top lk) →
  brk m + value_size + layout_for (top + 1) ≤ W64 →
  heap_ok (inserted_mem m target val top lk).
Proof.
  intros Hr Hlk Hb. pose proof (r_heap _ _ _ _ _ _ Hr) as [[Hb0 H8] Hn Hl Hv].
  unfold linked_in, inserted_mem, value_size, layout_for in *. simpl in *. split; simpl.
  - split; [lia|]. replace (brk m + 16 + (40 + 8 * Z.of_nat (top + 1)))
      with (brk m + (7 + Z.of_nat (top + 1)) * 8) by lia. by rewrite Z.mod_add.
  - intros p [x Hx]. destruct (decide (brk m + 16 = p)) as [<-|Hne].
    + split; [lia|]. by rewrite (Z.add_mod _ 16), H8.
    + rewrite lookup_insert_ne in Hx by done. destruct (Hn p); [eauto|]. split; [lia|done].
  - intros p l. rewrite Hlk. case_decide as Hd; [intros _; destruct Hd as [-> _]; lia|].
    case_decide as Hd'; [|intros Hp%Hl; lia]. intros _. destruct Hd' as [-> _].
    assert (0 < pred_at sl lo l < brk m); [|lia]. eapply rep_addr_lt; [exact Hr|].
    pose proof (pred_at_elem sl lo l). set_solver.
  - intros v [x Hx]. destruct (decide (brk m = v)) as [<-|Hne]; [lia|].
    rewrite lookup_insert_ne in Hx by done. destruct (Hv v); [eauto|lia].
Qed.

(** A key between two parts of a sorted list. *)
Lemma sorted_insert_mid lo hi (e : entry) target :
  e_key e = target → Forall (below target) lo → Forall (above target) hi →
  StronglySorted blt (e_key <$> lo ++ hi) → StronglySorted blt (e_key <$> lo ++ e :: hi).
Proof.
  intros <- Hlo Hhi Hsort. rewrite !fmap_app in Hsort |- *. rewrite fmap_cons.
  apply sorted_app_inv in Hsort as (S1 & S2 & S3). rewrite Forall_forall in Hlo, Hhi.
  apply sorted_app_inv. split_and!; [done| |].
  - constructor; [done|]. rewrite Forall_fmap, Forall_forall. done.
  - intros k1 k2 H1 [->|H2]%elem_of_cons; [|by apply S3].
    apply list_elem_of_fmap in H1 as (f & -> & Hf). by apply Hlo.
Qed.

(** Splicing a node in does not touch the links of the tail. *)
Lemma linked_in_tail sl tl lo hi G a top m m' l :
  linked_in sl tl lo hi a top m m' → a ≠ tl →
  NoDup (head sl :: tl :: (e_addr <$> (lo ++ hi) ++ G)) →
  links m' !! (tl, l) = links m !! (tl, l).
Proof.
  intros Hlk Hne Hnd. rewrite (Hlk tl l), !decide_False; [done| |].
  - intros [Heq _]. pose proof (pred_at_elem sl lo l) as Hin. rewrite <- Heq in Hin.
    rewrite !fmap_app in Hnd. apply NoDup_cons in Hnd as [H1 H2].
    apply NoDup_cons in H2 as [H2 _]. set_solver.
  - intros [? _]. congruence.
Qed.

Lemma rep_inserted sl tl m lo hi G gv target val top lk :
  rep sl tl m (lo ++ hi) G gv → Forall (below target) lo → Forall (above target) hi →
  (top ≤ max_level sl)%nat →
  linked_in sl tl lo hi (brk m + value_size) top m (inserted_mem m target val top lk) →
  brk m + value_size + layout_for (top + 1) ≤ W64 →
  rep sl tl (inserted_mem m target val top lk) (lo ++ fresh_entry m target val top :: hi) G gv.
Proof.
  intros Hr Hlo Hhi Htop Hlk Hb.
  pose proof (heap_ok_inserted _ _ _ _ _ _ _ _ _ _ _ Hr Hlk Hb) as Hheap'.
  assert (Hvlt := λ v, rep_vptr_lt _ _ _ _ _ _ v Hr).
  assert (Halt := λ a, rep_addr_lt _ _ _ _ _ _ a Hr).
  destruct Hr as [Hmh Hhd Htail Htl Hent Hnd Hvals Hgv Hret Hheap Hsort Hlen Hch Hln Hlv].
  assert (Hfresh : brk m + value_size ∉ head sl :: tl :: (e_addr <$> (lo ++ hi) ++ G)).
  { intros ?%Halt. unfold value_size in *. lia. }
  set (e := fresh_entry m target val top). rewrite <- app_assoc in *.
  split; simpl; try done.
  - rewrite lookup_insert_ne; [done|]. set_solver.
  - rewrite lookup_insert_ne; [done|]. set_solver.
  - intros l Hl. erewrite <- Htl by done.
    eapply (linked_in_tail _ _ _ _ G _ _ _ _ l Hlk); [set_solver|]. by rewrite <- app_assoc.
  - rewrite perm_mid. constructor.
    + split_and!; simpl; [by rewrite lookup_insert_eq..|done].
    + rewrite Forall_forall in Hent |- *. intros f Hf.
      apply (entry_ok_ext sl m); [by apply Hent| |]; simpl; apply lookup_insert_ne.
      * intros Heq. apply Hfresh. rewrite Heq. do 2 apply list_elem_of_further.
        by apply list_elem_of_fmap_2.
      * intros Heq. assert (0 < e_vptr f < brk m); [|lia]. apply Hvlt, elem_of_app. left.
        by apply list_elem_of_fmap_2.
  - rewrite perm_mid. simpl.
    rewrite (Permutation_swap (brk m + value_size) tl), (Permutation_swap _ (head sl)).
    by constructor.
  - rewrite perm_mid. simpl. constructor; [|done]. intros ?%Hvlt. lia.
  - by apply insert_keeps_some.
  - by eapply (sorted_insert_mid lo hi e target).
  - rewrite Hlen, !length_app. simpl. unfold wadd, wrap64.
    rewrite Zplus_mod_idemp_l. f_equal. lia.
  - intros l Hl. eapply (linked_in_chain _ _ _ _ e); [done| |].
    + rewrite (Permutation_swap _ tl), (Permutation_swap _ (head sl)).
      constructor; [set_solver|]. eapply sublist_NoDup; [exact Hnd|].
      do 2 apply sublist_skip. apply fmap_sublist. rewrite app_assoc. by apply sublist_inserts_r.
    + by apply Hch.
  - intros p Hp. rewrite perm_mid. destruct (decide (brk m + value_size = p)) as [<-|Hne].
    + set_solver.
    + rewrite lookup_insert_ne in Hp by done. apply Hln in Hp. set_solver.
  - intros v Hv. rewrite perm_mid. destruct (decide (brk m = v)) as [<-|Hne].
    + set_solver.
    + rewrite lookup_insert_ne in Hv by done. apply Hlv in Hv. set_solver.
Qed.

(** Publishing node [a]: initialise its tower, link level 0, then the rest. *)
Definition publish (fuel : nat) (sl : SkipList) (target : bytes) (a : Z) (top : nat)
    (preds succs : list Z) (lost won : prog bool) : prog bool :=
  _ ←p init_links (seq 0 (top + 1)) a succs;
  pred ←p index preds 0;
  succ ←p index succs 0;
  ok ←p link_cas pred 0 succ a false false;
  if negb ok then lost
  else _ ←p link_uppers fuel sl target a (seq 1 top) preds succs; won.

Lemma publish_run fuel sl tl target lo hi a top preds succs lost won m :
  (1 ≤ fuel)%nat → (top ≤ max_level sl)%nat →
  located sl tl lo hi (max_level sl + 1) preds succs →
  (∀ l, (l ≤ top)%nat → is_Some (links m !! (a, l))) →
  (∀ l, (l ≤ top)%nat →
    links m !! (pred_at sl lo l, l) = Some (Link.pack (succ_at tl hi l) false)) →
  a ∉ head sl :: (e_addr <$> lo) →
  ∃ m', run (publish fuel sl target a top preds succs lost won) m = run won m' ∧
    m' = set_links m (links m') ∧ linked_in sl tl lo hi a top m m'.
Proof.
  intros Hf Htop Hloc Ha Hp Hna.
  assert (Hpa : ∀ l, pred_at sl lo l ≠ a).
  { intros l <-. apply Hna, pred_at_elem. }
  destruct (init_links_run succs a (succ_at tl hi) (seq 0 (top + 1)) m)
    as (m1 & Hr1 & Hm1 & Hl1).
  { intros l Hin%elem_of_seq. split; [apply Hloc|apply Ha]; lia. }
  assert (Hl1a : ∀ l, (l ≤ top)%nat → links m1 !! (a, l) = Some (Link.pack (succ_at tl hi l) false)).
  { intros l Hl. rewrite Hl1, decide_True; [done|]. split; [done|]. apply elem_of_seq. lia. }
  assert (Hl1p : ∀ q l, q ≠ a → links m1 !! (q, l) = links m !! (q, l)).
  { intros q l Hq. rewrite Hl1, decide_False; [done|tauto]. }
  destruct (Hloc 0%nat) as [Hp0 Hs0]; [lia|].
  unfold publish. rewrite run_bind, Hr1. unfold index. rewrite Hp0, Hs0.
  cbn [pbind]. rewrite run_bind.
  rewrite (run_link_cas _ _ _ (succ_at tl hi 0)) by (rewrite Hl1p by done; apply Hp; lia).
  cbn [negb]. rewrite run_bind. set (m2 := set_links m1 _).
  assert (Hm2 : ∀ q l, l ≠ 0%nat → links m2 !! (q, l) = links m1 !! (q, l)).
  { intros q l Hl. apply lookup_insert_ne. congruence. }
  destruct (link_uppers_run fuel sl target a preds succs (pred_at sl lo) (succ_at tl hi)
    (seq 1 top) m2) as (m3 & Hr3 & Hm3 & Hl3); [done|apply NoDup_seq| |].
  { intros l Hin%elem_of_seq. destruct (Hloc l) as [? ?]; [lia|].
    rewrite !Hm2 by lia. rewrite Hl1p by done. rewrite Hp, Hl1a by lia. done. }
  exists m3. rewrite Hr3. split; [done|]. split; [rewrite Hm3; unfold m2; by rewrite Hm1|].
  assert (Hseq : ∀ k n l, l ∈ seq k n ↔ (k ≤ l < k + n)%nat) by (intros; apply elem_of_seq).
  intros q l. rewrite Hl3.
  destruct (decide (q = a)) as [->|Hqa].
  { assert (Hpf : ∀ P, ¬ (a = pred_at sl lo l ∧ P)) by (intros P [E _]; by eapply Hpa).
    rewrite decide_False by apply Hpf. unfold m2. simpl.
    rewrite lookup_insert_ne by (intros [= E _]; by eapply Hpa). rewrite Hl1.
    destruct (decide (l ≤ top)%nat) as [Hl|Hl].
    - rewrite !decide_True; [done|done|]. split; [done|]. apply Hseq. lia.
    - rewrite !decide_False; [done|apply Hpf|tauto|]. rewrite Hseq. lia. }
  rewrite (decide_False (P := q = a ∧ _)) by tauto.
  destruct (decide (l = 0%nat)) as [->|Hl0].
  - rewrite decide_False by (rewrite Hseq; lia). unfold m2. simpl.
    destruct (decide (q = pred_at sl lo 0)) as [->|Hq].
    + rewrite lookup_insert_eq, decide_True; [done|]. split; [done|lia].
    + rewrite lookup_insert_ne, decide_False by naive_solver. by apply Hl1p.
  - rewrite Hm2, Hl1p by done. do 2 case_decide; try done; naive_solver lia.
Qed.

Lemma rep_set_rng sl tl m es G gv r :
  rep sl tl m es G gv →
  rep sl tl (mkMem (nodes m) (links m) (values m) (brk m) (len m) (retired m) r) es G gv.
Proof.
  intros [? ? ? ? Hent ? ? ? ? [] ? ? Hch ? ?]. split; try done.
  intros l Hl. eapply chain_ext; [|by apply Hch]. done.
Qed.

Lemma random_level_run sl tl m es G gv :
  rep sl tl m es G gv →
  ∃ top m', run (atom (ARandomLevel (max_level sl))) m = Ok (top, m') ∧
    rep sl tl m' es G gv ∧ (top ≤ max_level sl)%nat ∧ brk m' = brk m.
Proof.
  intros Hr. simpl. unfold random_level.
  destruct (random_geometric_level_total (max_level sl + 1) (rng m)
    (Z.of_nat (max_level sl) + 1)) as (l & -> & Hl); [lia..|]. simpl.
  eexists _, _. split; [done|]. split; [by apply rep_set_rng|]. split; [lia|done].
Qed.

(** Bytes one insertion may take: a value record and a full tower. *)
Definition insert_room : Z := value_size + layout_for MAX_HEIGHT.

Lemma insert_present_run sl tl m lo e hi G gv val top fuel preds succs tries :
  rep sl tl m (lo ++ e :: hi) G gv → brk m + value_size ≤ W64 →
  run (find fuel sl (e_key e) null_array null_array) m = Ok ((true, preds, succs), m) →
  succs !! 0%nat = Some (e_addr e) →
  ∃ m', run (insert_loop fuel (S tries) sl (e_key e) val top null_array null_array) m
      = Ok (false, m') ∧ brk m' = brk m + value_size ∧
    rep sl tl m' (lo ++ with_value e (brk m) val :: hi) G (gv ++ [e_vptr e]).
Proof.
  intros Hr Hb Hfind Hs0.
  destruct (heap_ok_new_value m val (r_heap _ _ _ _ _ _ Hr) Hb) as (m1 & Hv & Hm1 & Hh1).
  pose proof (r_entries _ _ _ _ _ _ Hr) as Hent. rewrite perm_mid in Hent.
  apply Forall_cons in Hent as [(Hn & Hval & _) _].
  destruct (h_values m (r_heap _ _ _ _ _ _ Hr) (e_vptr e)) as [Hpos _]; [eauto|].
  cbn [insert_loop]. rewrite run_bind, Hfind. unfold index. rewrite Hs0.
  rewrite run_bind. cbn [run]. rewrite run_bind. cbn [run atom exec]. rewrite Hv.
  rewrite run_bind. cbn [run atom exec]. rewrite Hm1. cbn [nodes]. rewrite Hn. simpl.
  destruct (Z.eqb_spec (e_vptr e) 0); [lia|]. simpl.
  eexists. split; [done|]. split; [done|]. rewrite Hm1 in Hh1. by apply rep_update.
Qed.

Lemma insert_absent_run sl tl m lo hi G gv target val top fuel preds succs tries :
  rep sl tl m (lo ++ hi) G gv → brk m + insert_room ≤ W64 →
  Forall (below target) lo → Forall (above target) hi → (top ≤ max_level sl)%nat →
  (1 ≤ fuel)%nat →
  run (find fuel sl target null_array null_array) m = Ok ((false, preds, succs), m) →
  located sl tl lo hi (max_level sl + 1) preds succs →
  ∃ m', run (insert_loop fuel (S tries) sl target val top null_array null_array) m
      = Ok (true, m') ∧ brk m' ≤ brk m + insert_room ∧
    rep sl tl m' (lo ++ fresh_entry m target val top :: hi) G gv.
Proof.
  intros Hr Hb Hlo Hhi Htop Hf Hfind Hloc. unfold insert_room, layout_for, value_size in Hb.
  pose proof (r_height _ _ _ _ _ _ Hr) as Hmh. unfold MAX_HEIGHT in Hb, Hmh.
  destruct (heap_ok_new_value m val (r_heap _ _ _ _ _ _ Hr)) as (m1 & Hv & Hm1 & Hh1).
  { unfold value_size. lia. }
  destruct (heap_ok_new_node m1 (Fin (KeyRepr_new target)) (brk m) top Hh1)
    as (m2 & Hn & Hm2 & Hh2).
  { rewrite Hm1. unfold value_size, layout_for. simpl. lia. }
  set (a := brk m1) in *. assert (Ha : a = brk m + value_size) by (by unfold a; rewrite Hm1).
  assert (Hfa : a ∉ head sl :: (e_addr <$> lo)).
  { intros Hin. assert (0 < a < brk m); [|unfold value_size in Ha; lia].
    eapply rep_addr_lt; [exact Hr|]. set_solver. }
  assert (Hl2 : ∀ q l, links m2 !! (q, l) =
    if decide (q = a ∧ (l < top + 1)%nat) then Some Link.null else links m !! (q, l)).
  { intros q l. rewrite Hm2. simpl. rewrite null_links_lookup, Hm1. done. }
  destruct (publish_run fuel sl tl target lo hi a top preds succs
    (_ ←p atom (AFreeNode a); insert_loop fuel tries sl target val top preds succs)
    (_ ←p atom (ALenAdd 1); Ret true) m2) as (m3 & Hr3 & Hm3 & Hl3); try done.
  { intros l Hl. rewrite Hl2, decide_True; [eauto|]. split; [done|lia]. }
  { intros l Hl. rewrite Hl2, decide_False.
    - eapply (pred_at_link _ _ _ unmarked target _ [] _ (max_level sl + 1)); [|done|lia].
      by eapply (rep_find_ready _ _ _ _ _ _ _ _ []); try done; left.
    - intros [He _]. apply Hfa. rewrite <- He. apply pred_at_elem. }
  cbn [insert_loop]. rewrite run_bind, Hfind. rewrite run_bind. cbn [run atom exec].
  rewrite Hv. rewrite run_bind. cbn [run atom exec]. rewrite Hn.
  unfold publish in Hr3. rewrite Hr3. simpl.
  eexists. split; [done|]. rewrite Hm3, Hm2, Hm1. simpl. rewrite Ha.
  split; [unfold insert_room, layout_for, value_size, MAX_HEIGHT; lia|].
  apply (rep_inserted sl tl m lo hi G gv target val top (links m3)); try done.
  - intros q l. simpl. rewrite Hl3, Hl2. rewrite <- Ha.
    destruct (decide (q = a ∧ (l ≤ top)%nat)) as [Hd|Hd]; [done|].
    destruct (decide (q = pred_at sl lo l ∧ (l ≤ top)%nat)) as [Hd'|Hd']; [done|].
    rewrite decide_False; [done|]. intros [? ?]. apply Hd. split; [done|lia].
  - unfold value_size, layout_for. lia.
Qed.

(** ** insert *)

Lemma insert_run sl tl m es G gv target val fuel :
  rep sl tl m es G gv → brk m + insert_room ≤ W64 → (length es + 2 ≤ fuel)%nat →
  ∃ m' es' gv',
    run (insert fuel sl target val) m = Ok (bool_decide (abs es !! target = None), m') ∧
    rep sl tl m' es' G gv' ∧ abs es' = <[target := val]> (abs es) ∧
    brk m' ≤ brk m + insert_room ∧ (length es' ≤ S (length es))%nat.
Proof.
  intros Hr0 Hb0 Hf.
  destruct (random_level_run _ _ _ _ _ _ Hr0) as (top & m0 & Hrun0 & Hr & Htop & Hbrk).
  assert (Hb : brk m0 + insert_room ≤ W64) by lia. rewrite <- Hbrk.
  unfold insert. rewrite run_bind, Hrun0.
  destruct (split_at target es (r_sorted _ _ _ _ _ _ Hr)) as
    (lo & mid & hi & He & Hlo & Hhi & Hmid).
  destruct (find_quiescent _ _ _ _ _ _ _ _ _ _ fuel Hr He Hlo Hhi Hmid) as
    (preds & succs & Hfind & _ & _ & Hloc); [done|].
  pose proof (r_sorted _ _ _ _ _ _ Hr) as Hsort.
  destruct fuel as [|fuel]; [lia|].
  destruct Hmid as [->|(e & -> & <-)]; simpl app in *.
  - rewrite He in Hr. rewrite bool_decide_false in Hfind by tauto.
    destruct (insert_absent_run _ _ _ _ _ _ _ target val top (S fuel) preds succs fuel Hr Hb Hlo Hhi Htop)
      as (m' & Hrun & Hbrk' & Hr'); [lia|done|done|].
    rewrite He, bool_decide_true by (by apply abs_lookup_below_above).
    eexists _, _, _. split; [exact Hrun|]. split; [exact Hr'|].
    destruct (abs_split _ _ _ (r_sorted _ _ _ _ _ _ Hr')) as [-> _].
    split; [done|]. split; [done|]. rewrite !length_app. simpl. lia.
  - rewrite He in Hr, Hsort. rewrite bool_decide_true in Hfind by done.
    destruct (insert_present_run _ _ _ _ _ _ _ _ val top (S fuel) preds succs fuel Hr) as
      (m' & Hrun & Hbrk' & Hr'); [unfold insert_room, layout_for in Hb; lia|done| |].
    { destruct (Hloc 0%nat) as [_ ->]; [lia|]. unfold succ_at. by rewrite addrs_0. }
    destruct (abs_split _ _ _ Hsort) as [Habs _].
    rewrite He, Habs, lookup_insert_eq, bool_decide_false by done.
    eexists _, _, _. split; [exact Hrun|]. split; [exact Hr'|].
    destruct (abs_split _ _ _ (r_sorted _ _ _ _ _ _ Hr')) as [-> _]. simpl.
    rewrite insert_insert_eq. split; [done|].
    split; [rewrite Hbrk'; unfold insert_room, layout_for; lia|]. rewrite !length_app. simpl. lia.
Qed.
