(* ===== verification/SkipListRemove.v ===== *)
(** * SkipListRemove: deletion, reclamation, construction and teardown

    [remove] marks the tower top-down, decides the race at level 0 and has
    [find] splice the node out; the node then sits in the retired list until
    its [drop_fn] runs. This file proves all of it against [rep]. *)

From Stdlib Require Import Sorted.
From S2P Require Import Prelude Backoff SkipList SkipListProof SkipListRep.
Local Open Scope Z_scope.
Local Open Scope zkv_scope.

(** ** Marking a tower *)

(** Levels [1..n] of [a] marked, every other link as it was. *)
Definition marked_levels (a : Z) (s : nat → Z) (P : nat → Prop) `{!∀ l, Decision (P l)}
    (m m' : Mem) : Prop :=
  m' = set_links m (links m') ∧
  ∀ q l, links m' !! (q, l) =
    if decide (q = a ∧ P l) then Some (Link.pack (s l) true) else links m !! (q, l).

Lemma mark_level_run fuel a l s m :
  links m !! (a, l) = Some (Link.pack s false) → taggable s → (2 ≤ fuel)%nat →
  run (mark_level fuel a l s false) m
  = Ok (tt, set_links m (<[(a, l) := Link.pack s true]> (links m))).
Proof.
  intros Hl Hs Hf. destruct fuel as [|[|fuel]]; [lia..|].
  cbn [mark_level negb]. rewrite run_bind.
  change (link_attempt_mark a l s true) with (link_cas a l s s false true).
  rewrite (run_link_cas _ _ _ _ _ _ _ Hl), run_bind.
  rewrite (run_link_get _ _ _ s true); [done|apply lookup_insert_eq|done].
Qed.

Lemma mark_uppers_run fuel a (s : nat → Z) : ∀ n m,
  (∀ l, (1 ≤ l ≤ n)%nat → links m !! (a, l) = Some (Link.pack (s l) false) ∧ taggable (s l)) →
  (2 ≤ fuel)%nat →
  ∃ m', run (mark_uppers fuel a n) m = Ok (tt, m') ∧
    marked_levels a s (λ l, 1 ≤ l ≤ n)%nat m m'.
Proof.
  induction n as [|n IH]; intros m Hl Hf.
  - exists m. split; [done|]. split; [by rewrite set_links_eta|].
    intros q l. rewrite decide_False by lia. done.
  - destruct (Hl (S n)) as [Hn Hs]; [lia|]. cbn [mark_uppers].
    rewrite run_bind, (run_link_get _ _ _ _ _ Hn Hs), run_bind, mark_level_run by done.
    set (m1 := set_links m _).
    assert (Hm1 : ∀ q l, (q, l) ≠ (a, S n) → links m1 !! (q, l) = links m !! (q, l)).
    { intros q l Hne. by apply lookup_insert_ne. }
    destruct (IH m1) as (m' & Hr & Hm & Hlk); [|done|].
    { intros l Hll. rewrite Hm1 by (intros [= ->]; lia). apply Hl. lia. }
    exists m'. split; [done|]. split; [by rewrite Hm|]. intros q l. rewrite Hlk.
    destruct (decide (q = a ∧ l = S n)) as [[-> ->]|Hne].
    + rewrite decide_False by lia. rewrite decide_True by lia. apply lookup_insert_eq.
    + rewrite Hm1 by (intros [= -> ->]; tauto).
      do 2 case_decide; try done; exfalso; naive_solver lia.
Qed.

(** Marking a node's whole tower turns its chains into chains with that node
    marked. *)
Lemma chain_mark m m' a (s : nat → Z) top l p xs :
  (∀ q, links m' !! (q, l) =
    if decide (q = a ∧ (l ≤ top)%nat) then Some (Link.pack (s l) true) else links m !! (q, l)) →
  (a ∈ removelast (p :: xs) → (l ≤ top)%nat ∧ links m !! (a, l) = Some (Link.pack (s l) false)) →
  (∀ q, q ∈ xs → taggable q) → taggable (s l) →
  chain m l unmarked p xs → chain m' l (only a) p xs.
Proof.
  intros Hlk. revert p. induction xs as [|x xs IH]; intros p Ha Ht Hs; [done|].
  change (removelast (p :: x :: xs)) with (p :: removelast (x :: xs)) in Ha.
  intros [Hp Hc]. split.
  - rewrite Hlk. unfold only. destruct (decide (p = a)) as [->|Hne].
    + destruct Ha as [Hl Hal]; [apply list_elem_of_here|].
      rewrite decide_True by done. rewrite bool_decide_true by done.
      rewrite Hal in Hp. injection Hp as Hp. f_equal. f_equal.
      rewrite <- (ptr_of_pack (s l) false), Hp by done.
      apply ptr_of_pack, Ht, list_elem_of_here.
    + rewrite decide_False by tauto. by rewrite bool_decide_false.
  - apply IH; [| |done|done].
    + intros Hin. apply Ha. by apply list_elem_of_further.
    + intros q Hq. apply Ht. by apply list_elem_of_further.
Qed.

(** ** remove *)

Lemma rep_taggable sl tl m es G gv a :
  rep sl tl m es G gv → a ∈ tl :: (e_addr <$> es) → taggable a.
Proof.
  intros Hr Ha. eapply heap_taggable; [apply (r_heap _ _ _ _ _ _ Hr)|].
  apply elem_of_cons in Ha as [->|(e & -> & He)%list_elem_of_fmap].
  - rewrite (r_tail _ _ _ _ _ _ Hr). eauto.
  - pose proof (r_entries _ _ _ _ _ _ Hr) as Hent. rewrite Forall_app in Hent.
    destruct Hent as [Hent _]. rewrite Forall_forall in Hent.
    destruct (Hent e He) as [-> _]. eauto.
Qed.

Lemma succ_at_elem tl hi l : succ_at tl hi l ∈ tl :: (e_addr <$> hi).
Proof.
  unfold succ_at. destruct (addrs l hi) as [|x xs] eqn:Hx; simpl; [apply list_elem_of_here|].
  assert (Hin : x ∈ addrs l hi) by (rewrite Hx; apply list_elem_of_here).
  apply elem_of_addrs in Hin as (e & He & <- & _).
  by apply list_elem_of_further, list_elem_of_fmap_2.
Qed.

Lemma addrs_cons l e hi :
  addrs l (e :: hi) = (if decide (l ≤ e_top e)%nat then [e_addr e] else []) ++ addrs l hi.
Proof. unfold addrs. rewrite filter_cons. by case_decide. Qed.

(** The tower of a live node. *)
Lemma rep_tower sl tl m lo e hi G gv l :
  rep sl tl m (lo ++ e :: hi) G gv → (l ≤ e_top e)%nat →
  links m !! (e_addr e, l) = Some (Link.pack (succ_at tl hi l) false) ∧
  taggable (succ_at tl hi l).
Proof.
  intros Hr Hl. split.
  - assert (Hm : (l ≤ max_level sl)%nat).
    { pose proof (r_entries _ _ _ _ _ _ Hr) as Hent. rewrite perm_mid in Hent.
      apply Forall_cons in Hent as [(_ & _ & ?) _]. lia. }
    pose proof (r_chains _ _ _ _ _ _ Hr l Hm) as Hc.
    rewrite addrs_app, addrs_cons, decide_True, <- app_assoc in Hc by done.
    apply chain_app in Hc as [_ [_ Hc]]. by apply chain_next in Hc.
  - eapply rep_taggable; [exact Hr|]. pose proof (succ_at_elem tl hi l). set_solver.
Qed.

Definition removed_mem (m : Mem) (lk : gmap (Z * nat) Z) (a : Z) : Mem :=
  mkMem (nodes m) lk (values m) (brk m) (wadd (len m) (-1))
    (retired m ++ [(a, drop_node)]) (rng m).

Lemma rep_removed sl tl m lo e hi G gv lk :
  rep sl tl m (lo ++ e :: hi) G gv →
  (∀ l, (l < MAX_HEIGHT)%nat → lk !! (tl, l) = Some 0) →
  (∀ p l, is_Some (lk !! (p, l)) → p < brk m) →
  (∀ l, (l ≤ max_level sl)%nat →
    chain (removed_mem m lk (e_addr e)) l unmarked (head sl) (addrs l (lo ++ hi) ++ [tl])) →
  rep sl tl (removed_mem m lk (e_addr e)) (lo ++ hi) (e :: G) gv.
Proof.
  intros [Hmh Hhd Htail Htl Hent Hnd Hvals Hgv Hret [Hb Hn _ Hv] Hsort Hlen Hch Hln Hlv] Htl' Hlk Hch'.
  assert (Hperm : (lo ++ hi) ++ e :: G ≡ₚ (lo ++ e :: hi) ++ G).
  { rewrite perm_mid, <- Permutation_middle, app_assoc. done. }
  split; simpl; try done.
  - by rewrite Hperm.
  - by rewrite Hperm.
  - by rewrite Hperm.
  - rewrite Hret. unfold retired_as. simpl. by rewrite <- Permutation_cons_append.
  - rewrite fmap_app in Hsort. apply sorted_app_inv in Hsort as (S1 & S2 & S3).
    rewrite fmap_app. apply sorted_app_inv. simpl in S2, S3. inversion_clear S2.
    split_and!; [done..|]. intros k1 k2 H1 H2. apply S3; [done|by apply list_elem_of_further].
  - rewrite Hlen, !length_app. simpl. unfold wadd, wrap64.
    rewrite Zplus_mod_idemp_l. f_equal. lia.
  - intros p Hp. rewrite Hperm. by apply Hln.
  - intros v Hx. rewrite Hperm. by apply Hlv.
Qed.

(** The memory once every level of [e]'s tower is marked. *)
Lemma rep_marked sl tl m lo e hi G gv target m2 :
  rep sl tl m (lo ++ e :: hi) G gv → e_key e = target →
  Forall (below target) lo → Forall (above target) hi →
  marked_levels (e_addr e) (succ_at tl hi) (λ l, l ≤ e_top e)%nat m m2 →
  searchable sl tl (only (e_addr e)) target lo [e] hi (max_level sl + 1) m2.
Proof.
  intros Hr He Hlo Hhi [Hm2 Hl2].
  pose proof (r_addrs _ _ _ _ _ _ Hr) as Hnd. rewrite perm_mid in Hnd. simpl in Hnd.
  rewrite !NoDup_cons in Hnd. destruct Hnd as (Hn1 & Hn2 & Hn3 & _).
  assert (Honly : ∀ q, q ≠ e_addr e → only (e_addr e) q = false).
  { intros q Hq. by apply bool_decide_false. }
  eapply (rep_searchable sl tl m (lo ++ e :: hi) G gv); try done.
  - eapply Forall_impl; [exact Hhi|]. intros f. apply above_not_blt.
  - apply Honly. set_solver.
  - apply Forall_forall. intros f Hf. apply Honly. intros Heq. apply Hn3. rewrite <- Heq.
    apply list_elem_of_fmap_2. set_solver.
  - constructor; [|done]. by apply bool_decide_true.
  - by rewrite Hm2.
  - intros l. rewrite Hl2, decide_False; [done|]. intros [-> _]. set_solver.
  - intros l Hl. eapply (chain_mark m m2 _ (succ_at tl hi) (e_top e)); [done| | | |].
    + rewrite app_comm_cons, removelast_snoc. intros [Hin|Hin]%elem_of_cons; [set_solver|].
      assert (Hle : (l ≤ e_top e)%nat).
      { rewrite addrs_app, addrs_cons in Hin. case_decide; [done|]. exfalso. apply Hn3.
        apply elem_of_app in Hin as [Hin|Hin];
          apply elem_of_addrs in Hin as (f & Hf & <- & _); apply list_elem_of_fmap_2;
          set_solver. }
      split; [done|]. by eapply rep_tower.
    + intros q Hq. eapply rep_taggable; [exact Hr|].
      apply elem_of_app in Hq as [(f & Hf & <- & _)%elem_of_addrs|Hq].
      * by apply list_elem_of_further, list_elem_of_fmap_2.
      * apply list_elem_of_singleton in Hq as ->. apply list_elem_of_here.
    + eapply rep_taggable; [exact Hr|]. pose proof (succ_at_elem tl hi l). set_solver.
    + by apply (r_chains _ _ _ _ _ _ Hr).
Qed.

(** Splicing the marked node out leaves the list without it. *)
Lemma rep_spliced sl tl m lo e hi G gv target m2 m3 :
  rep sl tl m (lo ++ e :: hi) G gv → e_key e = target →
  Forall (below target) lo → Forall (above target) hi →
  marked_levels (e_addr e) (succ_at tl hi) (λ l, l ≤ e_top e)%nat m m2 →
  relinked sl tl lo hi (max_level sl + 1) m2 m3 →
  rep sl tl (removed_mem m (links m3) (e_addr e)) (lo ++ hi) (e :: G) gv.
Proof.
  intros Hr He Hlo Hhi Hmk Hrl.
  pose proof (rep_marked _ _ _ _ _ _ _ _ _ _ Hr He Hlo Hhi Hmk) as Hs.
  pose proof (λ l, relinked_chain _ _ _ _ _ _ _ _ _ _ l Hs Hrl) as Hch.
  destruct Hmk as [Hm2 Hl2], Hrl as [Hm3 Hl3].
  pose proof (r_addrs _ _ _ _ _ _ Hr) as Hnd. rewrite perm_mid in Hnd. simpl in Hnd.
  rewrite !NoDup_cons in Hnd. destruct Hnd as (Hn1 & Hn2 & Hn3 & _).
  apply rep_removed; [done| | |].
  - intros l Hl. rewrite Hl3, decide_False.
    + rewrite Hl2, decide_False by set_solver. by apply (r_tail_links _ _ _ _ _ _ Hr).
    + intros [_ Heq]. pose proof (pred_at_elem sl lo l) as Hin. rewrite <- Heq in Hin.
      set_solver.
  - intros p l. rewrite Hl3. assert (Hlt := λ a, rep_addr_lt _ _ _ _ _ _ a Hr).
    case_decide as Hd.
    + intros _. destruct Hd as [_ ->]. apply Hlt. pose proof (pred_at_elem sl lo l). set_solver.
    + rewrite Hl2. case_decide as Hd'; [|apply (h_links m (r_heap _ _ _ _ _ _ Hr))].
      intros _. destruct Hd' as [-> _]. apply Hlt. set_solver.
  - intros l Hl. eapply chain_ext; [|apply Hch; lia]. intros q Hq. split; [done|].
    symmetry. apply bool_decide_false. intros ->.
    rewrite app_comm_cons, removelast_snoc in Hq. apply elem_of_cons in Hq as [Hq|Hq].
    + set_solver.
    + apply elem_of_addrs in Hq as (f & Hf & Hfe & _). apply Hn3. rewrite <- Hfe.
      apply list_elem_of_fmap_2. set_solver.
Qed.

(** From the tower marks to the node's retirement. *)
Lemma mark_and_unlink_run sl tl m lo e hi G gv fuel preds succs :
  rep sl tl m (lo ++ e :: hi) G gv →
  Forall (below (e_key e)) lo → Forall (above (e_key e)) hi →
  (length (lo ++ e :: hi) + 2 ≤ fuel)%nat →
  length preds = MAX_HEIGHT → length succs = MAX_HEIGHT →
  ∃ lk, run (_ ←p mark_uppers fuel (e_addr e) (e_top e);
             '(succ, _) ←p link_get (e_addr e) 0;
             mark_bottom fuel fuel sl (e_key e) (e_addr e) succ preds succs) m
        = Ok (true, removed_mem m lk (e_addr e)) ∧
    rep sl tl (removed_mem m lk (e_addr e)) (lo ++ hi) (e :: G) gv.
Proof.
  intros Hr Hlo Hhi Hf Hlp Hls.
  destruct (mark_uppers_run fuel (e_addr e) (succ_at tl hi) (e_top e) m) as
    (m1 & Hr1 & Hm1 & Hl1).
  { intros l Hl. eapply rep_tower; [exact Hr|lia]. }
  { lia. }
  destruct (rep_tower _ _ _ _ _ _ _ _ 0 Hr) as [H0 Ht0]; [lia|].
  assert (H10 : links m1 !! (e_addr e, 0%nat) = Some (Link.pack (succ_at tl hi 0) false)).
  { rewrite Hl1, decide_False by lia. done. }
  rewrite run_bind, Hr1, run_bind, (run_link_get _ _ _ _ _ H10 Ht0).
  destruct fuel as [|fuel]; [lia|]. cbn [mark_bottom].
  rewrite run_bind, (run_link_cas _ _ _ _ _ _ _ H10), run_bind. set (m2 := set_links m1 _).
  rewrite (run_link_get m2 _ _ (succ_at tl hi 0) true); [|apply lookup_insert_eq|done].
  assert (Hmk : marked_levels (e_addr e) (succ_at tl hi) (λ l, l ≤ e_top e)%nat m m2).
  { split; [unfold m2; by rewrite Hm1|]. intros q l. unfold m2. simpl.
    destruct (decide (q = e_addr e ∧ l = 0%nat)) as [[-> ->]|Hne].
    - rewrite lookup_insert_eq, decide_True; [done|]. split; [done|lia].
    - rewrite lookup_insert_ne, Hl1 by naive_solver.
      do 2 case_decide; try done; exfalso; naive_solver lia. }
  pose proof (r_height _ _ _ _ _ _ Hr) as Hmh.
  destruct (find_run sl tl (only (e_addr e)) (e_key e) lo [e] hi (S fuel) preds succs m2)
    as (nd & ps & ss & m3 & _ & Hrun & _ & _ & _ & Hrl); [|by eapply (rep_tops _ _ _ _ _ _ _ [e])|lia|lia| |].
  { by eapply rep_marked. }
  { cbn [app]. lia. }
  exists (links m3). split; [|by eapply rep_spliced].
  rewrite run_bind, Hrun. destruct Hrl as [Hm3 _], Hmk as [Hm2 _].
  simpl. unfold removed_mem. by rewrite Hm3, Hm2.
Qed.

Lemma remove_run sl tl m es G gv target fuel :
  rep sl tl m es G gv → (length es + 2 ≤ fuel)%nat →
  ∃ m' es' G',
    run (remove fuel sl target) m = Ok (bool_decide (is_Some (abs es !! target)), m') ∧
    rep sl tl m' es' G' gv ∧ abs es' = delete target (abs es) ∧
    brk m' = brk m ∧ (length es' ≤ length es)%nat.
Proof.
  intros Hr Hf.
  destruct (split_at target es (r_sorted _ _ _ _ _ _ Hr)) as
    (lo & mid & hi & He & Hlo & Hhi & Hmid).
  destruct (find_quiescent _ _ _ _ _ _ _ _ _ _ fuel Hr He Hlo Hhi Hmid) as
    (preds & succs & Hfind & Hlp & Hls & Hloc); [done|].
  unfold remove. rewrite run_bind, Hfind.
  destruct Hmid as [->|(e & -> & <-)]; simpl app in *.
  - rewrite (bool_decide_false (_ ≠ _)) by tauto.
    pose proof (abs_lookup_below_above _ _ _ Hlo Hhi) as Hno.
    exists m, es, G. rewrite He, Hno, bool_decide_false by (by apply is_Some_None).
    split; [done|]. rewrite He in Hr. split; [done|]. by rewrite delete_id.
  - rewrite (bool_decide_true (_ ≠ _)) by done. subst es.
    destruct (abs_split _ _ _ (r_sorted _ _ _ _ _ _ Hr)) as [Habs Hno].
    rewrite Habs, lookup_insert_eq, bool_decide_true by eauto.
    destruct (Hloc 0%nat) as [_ Hs0]; [lia|]. unfold index. rewrite Hs0.
    assert (Hnode : succ_at tl (e :: hi) 0 = e_addr e).
    { unfold succ_at. by rewrite addrs_0. }
    pose proof (r_entries _ _ _ _ _ _ Hr) as Hent. rewrite perm_mid in Hent.
    apply Forall_cons in Hent as [(Hn & _) _].
    cbn [negb]. rewrite run_bind. cbn [run]. rewrite Hnode, run_bind.
    cbn [run atom exec]. rewrite Hn. cbn [rbind or_err run top_level].
    destruct (mark_and_unlink_run _ _ _ _ _ _ _ _ fuel preds succs Hr Hlo Hhi Hf Hlp Hls)
      as (lk & Hrun & Hr'). cbv zeta in Hrun. rewrite Hrun.
    eexists _, _, _. split; [done|]. split; [exact Hr'|].
    rewrite delete_insert_eq, delete_id by done. split; [done|]. split; [done|].
    rewrite !length_app. simpl. lia.
Qed.

(** ** Reclamation *)

(** The domain runs the drop function of the [i]-th retired cell. *)
Definition reclaim (i : nat) (m : Mem) : res Mem :=
  match retired m !! i with
  | None => Ok m
  | Some (p, f) =>
    '(_, m') ←r run (run_drop_fn p f) m;
    Ok (mkMem (nodes m') (links m') (values m') (brk m') (len m')
          (delete i (retired m')) (rng m'))
  end.

Lemma free_links_sub p n ls q l : is_Some (free_links p n ls !! (q, l)) → is_Some (ls !! (q, l)).
Proof.
  unfold free_links. induction (seq 0 n) as [|k lv IH]; simpl; [done|].
  intros [y Hy]. apply lookup_delete_Some in Hy as [_ Hy]. eauto.
Qed.

Lemma rep_perm sl tl m es G G' gv gv' :
  G ≡ₚ G' → gv ≡ₚ gv' → rep sl tl m es G gv → rep sl tl m es G' gv'.
Proof.
  intros HG Hgv Hr. pose proof Hr as [Hmh Hhd Htail Htl Hent Hnd Hvals Hg Hret Hheap Hsort Hlen Hch Hln Hlv].
  split; try done.
  - by rewrite <- HG.
  - by rewrite <- HG.
  - by rewrite <- HG, <- Hgv.
  - by rewrite <- Hgv.
  - unfold retired_as in *. by rewrite <- HG, <- Hgv.
  - intros p Hp. rewrite <- HG. by apply Hln.
  - intros v Hv. rewrite <- HG, <- Hgv. by apply Hlv.
Qed.

(** Dropping a retired value record. *)
Lemma rep_free_value sl tl m es G v gv rs :
  rep sl tl m es G (v :: gv) → rs ≡ₚ retired_as G gv →
  rep sl tl (mkMem (nodes m) (links m) (delete v (values m)) (brk m) (len m) rs (rng m))
    es G gv.
Proof.
  intros [Hmh Hhd Htail Htl Hent Hnd Hvals Hg Hret [Hb Hn Hl Hv] Hsort Hlen Hch Hln Hlv] Hrs.
  rewrite <- Permutation_middle in Hvals. apply NoDup_cons in Hvals as [Hvn Hvals].
  assert (Hne : ∀ x, x ∈ (e_vptr <$> es ++ G) ++ gv → delete v (values m) !! x = values m !! x).
  { intros x Hx. apply lookup_delete_ne. by intros ->. }
  split; simpl; try done.
  - rewrite Forall_forall in Hent |- *. intros e He.
    apply (entry_ok_ext sl m); [by apply Hent|done|]. apply Hne, elem_of_app. left.
    by apply list_elem_of_fmap_2.
  - apply Forall_cons in Hg as [_ Hg]. rewrite Forall_forall in Hg |- *. intros x Hx.
    rewrite Hne; [by apply Hg|]. apply elem_of_app. by right.
  - split; simpl; try done. intros x [y Hy]. apply lookup_delete_Some in Hy as [_ Hy]. eauto.
  - intros l Hll. eapply chain_ext; [|by apply Hch]. done.
  - intros x [y Hy]. apply lookup_delete_Some in Hy as [Hvx Hy].
    specialize (Hlv x). rewrite <- Permutation_middle in Hlv.
    destruct (proj1 (elem_of_cons _ _ _) (Hlv ltac:(eauto))) as [->|?]; done.
Qed.

(** Dropping a retired node with the value record it owns. *)
Lemma rep_free_node sl tl m es e G gv rs :
  rep sl tl m es (e :: G) gv → rs ≡ₚ retired_as G gv →
  rep sl tl (mkMem (delete (e_addr e) (nodes m)) (free_links (e_addr e) (e_top e + 1) (links m))
      (delete (e_vptr e) (values m)) (brk m) (len m) rs (rng m)) es G gv.
Proof.
  intros [Hmh Hhd Htail Htl Hent Hnd Hvals Hg Hret [Hb Hn Hl Hv] Hsort Hlen Hch Hln Hlv] Hrs.
  assert (HG : es ++ e :: G ≡ₚ e :: es ++ G) by (by rewrite Permutation_middle).
  rewrite HG in Hent, Hnd, Hvals. simpl in Hvals. apply NoDup_cons in Hvals as [Hvn Hvals].
  simpl in Hnd. rewrite (Permutation_swap _ tl), (Permutation_swap _ (head sl)) in Hnd.
  apply NoDup_cons in Hnd as [Han Hnd]. apply Forall_cons in Hent as [_ Hent].
  assert (Hvne : ∀ x, x ∈ (e_vptr <$> es ++ G) ++ gv →
    delete (e_vptr e) (values m) !! x = values m !! x).
  { intros x Hx. apply lookup_delete_ne. by intros <-. }
  assert (Hane : ∀ x, x ∈ head sl :: tl :: (e_addr <$> es ++ G) → x ≠ e_addr e).
  { intros x Hx ->. done. }
  assert (Hlk : ∀ q l, q ≠ e_addr e →
    free_links (e_addr e) (e_top e + 1) (links m) !! (q, l) = links m !! (q, l)).
  { intros q l. apply free_links_lookup. }
  split; simpl; try done.
  - rewrite lookup_delete_ne; [done|]. apply not_eq_sym, Hane. set_solver.
  - rewrite lookup_delete_ne; [done|]. apply not_eq_sym, Hane. set_solver.
  - intros l Hll. rewrite Hlk; [by apply Htl|]. apply Hane. set_solver.
  - rewrite Forall_forall in Hent |- *. intros f Hf.
    apply (entry_ok_ext sl m); [by apply Hent| |]; simpl.
    + apply lookup_delete_ne, not_eq_sym, Hane. do 2 apply list_elem_of_further.
      by apply list_elem_of_fmap_2.
    + apply Hvne, elem_of_app. left. by apply list_elem_of_fmap_2.
  - rewrite Forall_forall in Hg |- *. intros x Hx. rewrite Hvne; [by apply Hg|].
    apply elem_of_app. by right.
  - split; simpl; try done.
    + intros p [y Hy]. apply lookup_delete_Some in Hy as [_ Hy]. eauto.
    + intros p l Hx. apply (Hl p l). by apply free_links_sub in Hx.
    + intros x [y Hy]. apply lookup_delete_Some in Hy as [_ Hy]. eauto.
  - intros l Hll. eapply chain_ext; [|by apply Hch]. intros q Hq. split; [|done].
    apply Hlk, Hane. rewrite app_comm_cons, removelast_snoc in Hq.
    apply elem_of_cons in Hq as [->|(f & Hf & <- & _)%elem_of_addrs]; [set_solver|].
    do 2 apply list_elem_of_further. apply list_elem_of_fmap_2. set_solver.
  - intros p [y Hy]. apply lookup_delete_Some in Hy as [Hpe Hy].
    specialize (Hln p ltac:(eauto)). rewrite HG in Hln. set_solver.
  - intros x [y Hy]. apply lookup_delete_Some in Hy as [Hvx Hy].
    specialize (Hlv x ltac:(eauto)). rewrite HG in Hlv. set_solver.
Qed.

Lemma reclaim_run sl tl m es G gv i :
  rep sl tl m es G gv →
  ∃ m' G' gv', reclaim i m = Ok m' ∧ rep sl tl m' es G' gv' ∧ brk m' = brk m ∧
    retired m' = delete i (retired m).
Proof.
  intros Hr. unfold reclaim. destruct (retired m !! i) as [[p f]|] eqn:Hi.
  2: { exists m, G, gv. split; [done|]. split; [done|]. split; [done|].
       apply lookup_ge_None in Hi. rewrite delete_take_drop, take_ge, drop_ge by lia.
       by rewrite app_nil_r. }
  pose proof (r_retired _ _ _ _ _ _ Hr) as Hret.
  assert (Hdel : retired_as G gv ≡ₚ (p, f) :: delete i (retired m)).
  { rewrite <- Hret. by apply delete_Permutation. }
  assert (Hin : (p, f) ∈ retired_as G gv) by (rewrite Hdel; apply list_elem_of_here).
  unfold retired_as in Hin. apply elem_of_app in Hin as [Hin|Hin];
    apply list_elem_of_fmap in Hin as (x & [= -> ->] & Hx);
    apply list_elem_of_split in Hx as (l1 & l2 & ->).
  - assert (Hr' : rep sl tl m es (x :: l1 ++ l2) gv).
    { eapply rep_perm; [|done|exact Hr]. by rewrite Permutation_middle. }
    pose proof (r_entries _ _ _ _ _ _ Hr') as Hent. rewrite Forall_app in Hent.
    destruct Hent as [_ Hent]. apply Forall_cons in Hent as [(Hn & Hv & _) _].
    destruct (h_values m (r_heap _ _ _ _ _ _ Hr) (e_vptr x)) as [Hpos _]; [eauto|].
    simpl. unfold free_node, free_value. rewrite Hn. simpl.
    destruct (Z.eqb_spec (e_vptr x) 0); [lia|]. rewrite Hv. simpl.
    eexists _, (l1 ++ l2), gv. split; [done|]. split; [|done]. simpl.
    apply rep_free_node; [done|]. apply (Permutation_cons_inv (a := (e_addr x, drop_node))).
    rewrite <- Hdel. unfold retired_as. by rewrite <- Permutation_middle.
  - assert (Hr' : rep sl tl m es G (x :: l1 ++ l2)).
    { eapply rep_perm; [done| |exact Hr]. by rewrite Permutation_middle. }
    pose proof (r_gv _ _ _ _ _ _ Hr') as Hgv. apply Forall_cons in Hgv as [[y Hy] _].
    simpl. unfold free_value. rewrite Hy. simpl.
    eexists _, G, (l1 ++ l2). split; [done|]. split; [|done]. simpl.
    apply rep_free_value; [done|]. apply (Permutation_cons_inv (a := (x, drop_value))).
    rewrite <- Hdel. unfold retired_as. rewrite !fmap_app. simpl.
    by rewrite <- !Permutation_middle.
Qed.

(** ** Construction *)

(** The memory [with_max_level] builds: two sentinels, the head wired to the
    tail at every level. *)
Definition sentinels (r : Z) : Mem :=
  mkMem {[8 := mkNode NegInf 0 15; 176 := mkNode PosInf 0 15]}
    (fill_links 8 176 MAX_HEIGHT (fill_links 176 0 MAX_HEIGHT ∅)) ∅ 344 0 [] r.

Lemma rep_sentinels ml m :
  (ml < MAX_HEIGHT)%nat →
  nodes m = {[8 := mkNode NegInf 0 15; 176 := mkNode PosInf 0 15]} →
  (∀ q l, links m !! (q, l) =
    if decide (q = 8 ∧ (l < MAX_HEIGHT)%nat) then Some 176
    else if decide (q = 176 ∧ (l < MAX_HEIGHT)%nat) then Some 0 else None) →
  values m = ∅ → brk m = 344 → len m = 0 → retired m = [] →
  rep (mkSkipList 8 ml) 176 m [] [] [].
Proof.
  intros Hml Hn Hlk Hv Hb Hlen Hret. split; simpl; rewrite ?Hn, ?Hv, ?Hret, ?Hlen; try done.
  - intros l Hl. rewrite Hlk. by rewrite decide_False, decide_True by naive_solver.
  - repeat constructor; set_solver.
  - constructor.
  - split; rewrite ?Hn, ?Hv, ?Hb.
    + done.
    + intros p [x Hx]. apply lookup_insert_Some in Hx as [[<- _]|[_ Hx]]; [done|].
      by apply lookup_singleton_Some in Hx as [<- _].
    + intros p l. rewrite Hlk. intros [x Hx]. repeat case_decide; naive_solver lia.
    + intros v [x Hx]. by rewrite lookup_empty in Hx.
  - constructor.
  - intros l Hl. split; [|done]. rewrite Hlk, decide_True; [done|]. split; [done|lia].
  - intros p [x Hx]. apply lookup_insert_Some in Hx as [[<- _]|[_ Hx]]; [set_solver|].
    apply lookup_singleton_Some in Hx as [<- _]. set_solver.
  - intros v [x Hx]. by rewrite lookup_empty in Hx.
Qed.

Lemma with_max_level_run ml r :
  (ml < MAX_HEIGHT)%nat →
  run (with_max_level ml) (empty_mem r) = Ok (mkSkipList 8 ml, sentinels r) ∧
  rep (mkSkipList 8 ml) 176 (sentinels r) [] [] [].
Proof.
  intros Hml. split; [vm_compute; reflexivity|].
  apply rep_sentinels; [done|reflexivity| |reflexivity..].
  intros q l. unfold sentinels. cbn [links]. rewrite 2!fill_links_lookup.
  by rewrite (lookup_empty (A := Z) (q, l)).
Qed.

(** ** Teardown *)

(** What [free_node] needs of a node and the value record it owns. *)
Definition owns (m : Mem) (c : Z * Z) : Prop :=
  (∃ n, nodes m !! c.1 = Some n ∧ value n = c.2) ∧
  (c.2 = 0 ∨ is_Some (values m !! c.2)).

Lemma free_node_owned m a v :
  owns m (a, v) →
  ∃ m', free_node a m = Ok (tt, m') ∧ nodes m' = delete a (nodes m) ∧
    values m' = (if decide (v = 0) then values m else delete v (values m)) ∧
    (∀ q l, q ≠ a → links m' !! (q, l) = links m !! (q, l)).
Proof.
  intros [(n & Hn & Hv) Hval]. simpl in *. unfold free_node, free_value. rewrite Hn. simpl.
  rewrite Hv. destruct (Z.eqb_spec v 0) as [->|Hne].
  - eexists. split; [done|]. split; [done|]. split; [done|]. intros q l. apply free_links_lookup.
  - destruct Hval as [?|[x Hx]]; [done|]. rewrite Hx. simpl. eexists. split; [done|].
    split; [done|]. rewrite decide_False by done. split; [done|].
    intros q l. apply free_links_lookup.
Qed.

Lemma owns_after_free m m' a v c :
  owns m c → c.1 ≠ a → (c.2 ≠ 0 → c.2 ≠ v) →
  nodes m' = delete a (nodes m) →
  values m' = (if decide (v = 0) then values m else delete v (values m)) → owns m' c.
Proof.
  intros [(n & Hn & Hv) Hval] Ha Hne Hns Hvs. split.
  - exists n. rewrite Hns, lookup_delete_ne by done. done.
  - destruct (decide (c.2 = 0)) as [|H0]; [by left|right].
    destruct Hval as [?|Hval]; [done|]. rewrite Hvs. case_decide; [done|].
    rewrite lookup_delete_ne; [done|]. intros ->. by apply Hne.
Qed.

(** Freeing one more cell: what is left of a heap, and of one in which the null
    cell is never freed. *)
Lemma freed_cons {A} (N N' : gmap Z A) a l :
  (∀ p, N' !! p = if decide (p ∈ l) then None else delete a N !! p) →
  ∀ p, N' !! p = if decide (p ∈ a :: l) then None else N !! p.
Proof.
  intros H p. rewrite H. destruct (decide (p = a)) as [->|Hpa].
  - rewrite (decide_True (P := a ∈ a :: _)) by apply list_elem_of_here.
    rewrite lookup_delete_eq. by case_decide.
  - rewrite lookup_delete_ne by done. do 2 case_decide; try done; set_solver.
Qed.

Lemma freed_cons_null {A} (N N' : gmap Z A) v l :
  (∀ x, x ≠ 0 → N' !! x = if decide (x ∈ l) then None else (if decide (v = 0) then N else delete v N) !! x) →
  ∀ x, x ≠ 0 → N' !! x = if decide (x ∈ v :: l) then None else N !! x.
Proof.
  intros H x Hx. rewrite H by done. clear H. destruct (decide (x = v)) as [->|Hxv].
  - rewrite (decide_True (P := v ∈ v :: _)) by apply list_elem_of_here.
    rewrite (decide_False (P := v = 0)), lookup_delete_eq by done. by case_decide.
  - assert ((if decide (v = 0) then N else delete v N) !! x = N !! x) as ->
      by (case_decide; [done|by apply lookup_delete_ne]).
    do 2 case_decide; try done; set_solver.
Qed.

Lemma drop_walk_run : ∀ cs fuel m a v,
  chain m 0 unmarked a (cs.*1 ++ [0]) → NoDup (a :: cs.*1) →
  Forall (λ c, owns m c ∧ taggable c.1 ∧ c.1 ≠ 0) ((a, v) :: cs) →
  NoDup (filter (.≠ 0) (v :: cs.*2)) → (length cs + 2 ≤ fuel)%nat →
  ∃ m', run (drop_walk fuel a) m = Ok (tt, m') ∧
    (∀ p, nodes m' !! p = if decide (p ∈ a :: cs.*1) then None else nodes m !! p) ∧
    (∀ x, x ≠ 0 → values m' !! x = if decide (x ∈ v :: cs.*2) then None else values m !! x) ∧
    values m' !! 0 = values m !! 0.
Proof.
  induction cs as [|[a' v'] cs IH]; intros fuel m a v Hc Hnd Ho Hvs Hf;
    (destruct fuel as [|fuel]; [lia|]); apply Forall_cons in Ho as [(Ho & Ht & H0) Hos];
    destruct (free_node_owned _ _ _ Ho) as (m1 & Hfree & Hn1 & Hv1 & Hl1);
    cbn [drop_walk]; destruct (Z.eqb_spec a 0); try done; rewrite run_bind.
  - rewrite (run_link_reference _ _ _ 0 false); [|apply Hc|done]. rewrite run_bind.
    cbn [run atom exec]. rewrite Hfree. destruct fuel as [|fuel]; [simpl in Hf; lia|].
    exists m1. split; [done|]. rewrite Hn1, Hv1. clear Hv1. split; [|split].
    + apply freed_cons. intros p. rewrite decide_False; [done|]. apply not_elem_of_nil.
    + apply freed_cons_null. intros x _. rewrite (decide_False (P := x ∈ _)); [done|]. apply not_elem_of_nil.
    + case_decide; [done|]. by apply lookup_delete_ne.
  - destruct Hc as [Hl Hc]. rewrite (run_link_reference _ _ _ a' false); [|apply Hl|].
    2: { by apply Forall_cons in Hos as [(_ & ? & _) _]. }
    rewrite run_bind. cbn [run atom exec]. rewrite Hfree.
    apply NoDup_cons in Hnd as [Ha Hnd]. cbn [length] in Hf.
    assert (Hvs' : NoDup (filter (.≠ 0) (v' :: cs.*2)) ∧
      ∀ x, x ∈ v' :: cs.*2 → x ≠ 0 → x ≠ v).
    { clear Hv1. cbn [fmap list_fmap snd] in Hvs. rewrite filter_cons in Hvs. case_decide.
      - apply NoDup_cons in Hvs as [Hnin ?]. split; [done|]. intros x Hx Hx0 ->.
        apply Hnin. by apply list_elem_of_filter.
      - split; [done|]. intros x _ Hx ->. tauto. }
    destruct Hvs' as [Hvs' Hvne].
    destruct (IH fuel m1 a' v') as (m' & Hr & Hn & Hv & Hz); [| |  |done|lia|].
    + eapply chain_ext; [|exact Hc]. intros q Hq. split; [|done]. apply Hl1. intros ->.
      rewrite app_comm_cons, removelast_snoc in Hq. done.
    + done.
    + apply Forall_forall. intros c Hcin. rewrite Forall_forall in Hos.
      destruct (Hos c Hcin) as (Hoc & ? & ?). split; [|done].
      eapply owns_after_free; [exact Hoc| | |exact Hn1|exact Hv1].
      * intros <-. apply Ha. change (a' :: cs.*1) with (((a', v') :: cs).*1).
        by apply list_elem_of_fmap_2.
      * intros Hx. apply Hvne; [|done]. change (v' :: cs.*2) with (((a', v') :: cs).*2).
        by apply list_elem_of_fmap_2.
    + exists m'. split; [done|]. rewrite Hv1 in Hv, Hz. rewrite Hn1 in Hn. split; [|split].
      * by apply freed_cons.
      * by apply freed_cons_null.
      * rewrite Hz. clear. case_decide; [done|]. by apply lookup_delete_ne.
Qed.

Definition cell_of (e : entry) : Z * Z := (e_addr e, e_vptr e).

(** The cells of a whole list, sentinels included, are owned and not null. *)
Lemma list_cells_owned sl tl m es G gv :
  rep sl tl m es G gv →
  Forall (λ c, owns m c ∧ taggable c.1 ∧ c.1 ≠ 0) ((head sl, 0) :: (cell_of <$> es) ++ [(tl, 0)]).
Proof.
  intros Hr. assert (Happos := λ a, rep_addr_lt _ _ _ _ _ _ a Hr).
  pose proof (r_heap _ _ _ _ _ _ Hr) as Hheap.
  assert (Hsent : ∀ p, (∃ n, nodes m !! p = Some n ∧ value n = 0) → 0 < p → owns m (p, 0) ∧ taggable p ∧ p ≠ 0).
  { intros p (n & Hn & Hv) Hp. split; [|split; [eapply heap_taggable; eauto|lia]].
    split; [by exists n|by left]. }
  constructor; [|rewrite Forall_app, Forall_fmap; split].
  - apply Hsent; [eexists; split; [apply (r_head _ _ _ _ _ _ Hr)|done]|]. apply Happos. set_solver.
  - pose proof (r_entries _ _ _ _ _ _ Hr) as Hent. rewrite Forall_app in Hent. destruct Hent as [Hent _].
    rewrite Forall_forall in Hent |- *. intros e He.
    destruct (Hent e He) as (Hn & Hv & _). split; [|split]; simpl.
    + split; [eauto|right; eauto].
    + eapply heap_taggable; [done|eauto].
    + assert (0 < e_addr e < brk m); [|lia]. apply Happos.
      do 2 apply list_elem_of_further. apply list_elem_of_fmap_2. set_solver.
  - constructor; [|done]. apply Hsent; [eexists; split; [apply (r_tail _ _ _ _ _ _ Hr)|done]|].
    apply Happos. set_solver.
Qed.

(** What is left when exactly the cells of the list are gone. *)
Lemma list_cells_left sl tl m m' es G gv :
  rep sl tl m es G gv →
  (∀ p, nodes m' !! p = if decide (p ∈ head sl :: (e_addr <$> es) ++ [tl]) then None else nodes m !! p) →
  (∀ x, x ≠ 0 → values m' !! x = if decide (x ∈ 0 :: (e_vptr <$> es) ++ [0]) then None else values m !! x) →
  values m' !! 0 = values m !! 0 →
  (∀ p, is_Some (nodes m' !! p) ↔ p ∈ e_addr <$> G) ∧
  (∀ v, is_Some (values m' !! v) ↔ v ∈ (e_vptr <$> G) ++ gv).
Proof.
  intros Hr Hn Hv Hz. pose proof (r_entries _ _ _ _ _ _ Hr) as Hent. rewrite Forall_app in Hent.
  destruct Hent as [_ Hent]. rewrite Forall_forall in Hent.
  pose proof (r_addrs _ _ _ _ _ _ Hr) as Hnd. pose proof (r_vals _ _ _ _ _ _ Hr) as Hvals. split.
  - intros p. rewrite Hn. split.
    + case_decide as Hp; [intros [? [=]]|].
      intros Hx%(r_no_leak_nodes _ _ _ _ _ _ Hr). rewrite fmap_app in Hx. set_solver.
    + intros Hp. rewrite decide_False.
      * apply list_elem_of_fmap in Hp as (e & -> & He). destruct (Hent e He) as [-> _]. eauto.
      * rewrite fmap_app in Hnd. intros Hin. revert Hnd Hp Hin. clear.
        rewrite !NoDup_cons, NoDup_app. set_solver.
  - intros v. destruct (decide (v = 0)) as [->|Hv0].
    { rewrite Hz. split.
      - intros ?%(h_values m (r_heap _ _ _ _ _ _ Hr)). lia.
      - intros Hin. assert (0 < 0 < brk m); [|lia]. apply (rep_vptr_lt _ _ _ _ _ _ _ Hr).
        rewrite fmap_app. set_solver. }
    rewrite Hv by done. split.
    + case_decide as Hp; [intros [? [=]]|].
      intros Hx%(r_no_leak_values _ _ _ _ _ _ Hr). rewrite fmap_app in Hx. set_solver.
    + intros Hp. rewrite decide_False.
      * apply elem_of_app in Hp as [(e & -> & He)%list_elem_of_fmap|Hp].
        -- destruct (Hent e He) as (_ & -> & _). eauto.
        -- pose proof (r_gv _ _ _ _ _ _ Hr) as Hgv. rewrite Forall_forall in Hgv. by apply Hgv.
      * rewrite fmap_app, <- app_assoc, NoDup_app in Hvals. set_solver.
Qed.

Lemma drop_list_run sl tl m es G gv fuel :
  rep sl tl m es G gv → (length es + 3 ≤ fuel)%nat →
  ∃ m', run (drop_list fuel sl) m = Ok (tt, m') ∧
    (∀ p, is_Some (nodes m' !! p) ↔ p ∈ e_addr <$> G) ∧
    (∀ v, is_Some (values m' !! v) ↔ v ∈ (e_vptr <$> G) ++ gv).
Proof.
  intros Hr Hf. set (cs := (cell_of <$> es) ++ [(tl, 0)]).
  assert (H1 : cs.*1 = (e_addr <$> es) ++ [tl]).
  { unfold cs. by rewrite fmap_app, <- list_fmap_compose. }
  assert (H2 : cs.*2 = (e_vptr <$> es) ++ [0]).
  { unfold cs. by rewrite fmap_app, <- list_fmap_compose. }
  destruct (drop_walk_run cs fuel m (head sl) 0) as (m' & Hrun & Hn & Hv & Hz).
  - rewrite H1, <- app_assoc. pose proof (r_chains _ _ _ _ _ _ Hr 0) as Hc.
    rewrite addrs_0 in Hc. rewrite app_assoc. apply chain_app. split; [apply Hc; lia|].
    rewrite lastd_app. split; [|done]. by apply (r_tail_links _ _ _ _ _ _ Hr 0); vm_compute; lia.
  - rewrite H1, <- Permutation_cons_append. eapply sublist_NoDup; [apply (r_addrs _ _ _ _ _ _ Hr)|].
    do 2 apply sublist_skip. rewrite fmap_app. by apply sublist_inserts_r.
  - by eapply list_cells_owned.
  - rewrite H2, filter_cons_False, filter_app by tauto.
    rewrite filter_cons_False, filter_nil, app_nil_r by tauto.
    eapply sublist_NoDup; [apply (r_vals _ _ _ _ _ _ Hr)|]. etrans; [apply sublist_filter|].
    rewrite fmap_app, <- app_assoc. by apply sublist_inserts_r.
  - unfold cs. rewrite length_app, length_fmap. simpl. lia.
  - exists m'. split; [done|]. rewrite H1 in Hn. rewrite H2 in Hv. by eapply list_cells_left.
Qed.
