(* ===== verification/SkipListSpec.v ===== *)
(** * SkipListSpec: the skiplist implements an ordered map

    The instance of [Index] for one skiplist and the theorems on the index as
    its users see it: every history, with reclamation interleaved anywhere,
    behaves as on a finite map; retired cells are freed once; teardown leaks
    nothing. *)

From Stdlib Require Import Sorted.
From S2P Require Import Prelude Backoff Index SkipList SkipListProof SkipListRep SkipListRemove.
Local Open Scope Z_scope.
Local Open Scope zkv_scope.

(** ** The instance *)

(** A skiplist and the memory it lives in. *)
Record SL : Type := mkSL {
  sl_list : SkipList;
  sl_mem : Mem
}.

Definition on_mem {A} (p : prog A) (t : SL) : res (A * SL) :=
  '(a, m) ←r run p (sl_mem t); Ok (a, mkSL (sl_list t) m).

(** [t] holds [M], [n] more insertions fit below the end of the address space
    and every loop stays within [fuel] rounds. *)
Definition sl_rep (fuel : nat) (t : SL) (M : store_map) (n : nat) : Prop :=
  ∃ tl es G gv, rep (sl_list t) tl (sl_mem t) es G gv ∧ abs es = M ∧
    (length es + n + 2 ≤ fuel)%nat ∧ brk (sl_mem t) + Z.of_nat n * insert_room ≤ W64.

Lemma size_abs es : StronglySorted blt (e_key <$> es) → size (abs es) = length es.
Proof.
  induction es as [|e es IH]; intros Hs; [done|].
  destruct (abs_split [] e es Hs) as [Heq Hno]. simpl in Heq, Hno. rewrite Heq.
  rewrite map_size_insert_None by done. simpl in Hs. inversion_clear Hs.
  by rewrite IH.
Qed.

Lemma insert_room_nonneg : 0 ≤ insert_room.
Proof. done. Qed.

Section instance.
Context (fuel : nat).

Instance SL_index : Index SL := {|
  idx_insert k v t := on_mem (insert fuel (sl_list t) k v) t;
  idx_get k t := on_mem (get fuel (sl_list t) k) t;
  idx_remove k t := on_mem (remove fuel (sl_list t) k) t;
  idx_len t := sl_len (sl_mem t);
  idx_rep := sl_rep fuel
|}.

#[export] Instance SL_laws : IndexLaws SL.
Proof.
  split; simpl.
  - intros k v t M n (tl & es & G & gv & Hr & <- & Hf & Hb).
    pose proof insert_room_nonneg.
    destruct (insert_run _ _ _ _ _ _ k v fuel Hr) as (m' & es' & gv' & Hrun & Hr' & Habs & Hb' & Hl);
      [lia|lia|].
    unfold on_mem. rewrite Hrun. simpl. eexists. split; [done|].
    exists tl, es', G, gv'. split; [done|]. split; [done|]. simpl. split; lia.
  - intros k t M n (tl & es & G & gv & Hr & <- & Hf & Hb). unfold on_mem.
    rewrite (get_run _ _ _ _ _ _ _ _ Hr) by lia. by destruct t.
  - intros k t M n (tl & es & G & gv & Hr & <- & Hf & Hb).
    destruct (remove_run _ _ _ _ _ _ k fuel Hr) as (m' & es' & G' & Hrun & Hr' & Habs & Hb' & Hl);
      [lia|].
    unfold on_mem. rewrite Hrun. simpl. eexists. split; [done|].
    exists tl, es', G', gv. split; [done|]. split; [done|]. simpl. split; lia.
  - intros t M n (tl & es & G & gv & Hr & <- & Hf & Hb).
    rewrite size_abs by apply (r_sorted _ _ _ _ _ _ Hr). apply (r_len _ _ _ _ _ _ Hr).
  - intros t M n n' (tl & es & G & gv & Hr & <- & Hf & Hb) Hn.
    exists tl, es, G, gv. split; [done|]. split; [done|]. split; [lia|].
    pose proof insert_room_nonneg. nia.
Qed.

End instance.

(** [is_empty] says whether the map is empty. *)
Lemma is_empty_run sl tl m es G gv :
  rep sl tl m es G gv → Z.of_nat (length es) < W64 → sl_is_empty m = bool_decide (abs es = ∅).
Proof.
  intros Hr Hb. unfold sl_is_empty, sl_len. rewrite (r_len _ _ _ _ _ _ Hr), wrap64_small by (split; lia).
  pose proof (size_abs es (r_sorted _ _ _ _ _ _ Hr)) as Hs.
  destruct (Z.eqb_spec (Z.of_nat (length es)) 0) as [E|E]; symmetry.
  - apply bool_decide_eq_true. apply map_size_empty_iff. lia.
  - apply bool_decide_eq_false. intros H. rewrite H, map_size_empty in Hs. lia.
Qed.

Lemma with_capacity_hint_run ceil_log4 N r :
  ∃ ml, (ml < MAX_HEIGHT)%nat ∧
    run (with_capacity_hint ceil_log4 N) (empty_mem r) = Ok (mkSkipList 8 ml, sentinels r) ∧
    rep (mkSkipList 8 ml) 176 (sentinels r) [] [] [].
Proof.
  eexists. assert (Hml : ((Z.to_nat (Z.min (Z.max (ceil_log4 (Z.max N 2)) 1)
    (Z.of_nat MAX_HEIGHT)) - 1) < MAX_HEIGHT)%nat) by (unfold MAX_HEIGHT; lia).
  split; [exact Hml|]. by apply with_max_level_run.
Qed.

(** ** Histories with reclamation *)

(** The reclamation domain may run the drop function of any retired cell
    between two operations. *)
Inductive event : Type :=
| Op (o : op)
| Reclaim (i : nat).

Fixpoint run_history (fuel : nat) (h : list event) (t : SL) : res (list out * SL) :=
  match h with
  | [] => Ok ([], t)
  | Op o :: h =>
    '(r, t) ←r index_op (Index0 := SL_index fuel) o t;
    '(rs, t) ←r run_history fuel h t;
    Ok (r :: rs, t)
  | Reclaim i :: h =>
    m ←r reclaim i (sl_mem t);
    run_history fuel h (mkSL (sl_list t) m)
  end.

Definition ops_of (h : list event) : list op :=
  omap (λ e, match e with Op o => Some o | Reclaim _ => None end) h.

Lemma reclaim_rep fuel t M n i :
  sl_rep fuel t M n →
  ∃ m, reclaim i (sl_mem t) = Ok m ∧ sl_rep fuel (mkSL (sl_list t) m) M n ∧
    retired m = delete i (retired (sl_mem t)).
Proof.
  intros (tl & es & G & gv & Hr & <- & Hf & Hb).
  destruct (reclaim_run _ _ _ _ _ _ i Hr) as (m & G' & gv' & Hrun & Hr' & Hb' & Hret).
  exists m. split; [done|]. split; [|done]. exists tl, es, G', gv'. simpl. by rewrite Hb'.
Qed.

Lemma run_history_ok fuel : ∀ h t M,
  sl_rep fuel t M (length h) →
  ∃ t', run_history fuel h t = Ok (fst (map_ops (ops_of h) M), t') ∧
    sl_rep fuel t' (snd (map_ops (ops_of h) M)) 0.
Proof.
  induction h as [|[o|i] h IH]; intros t M Hr; [by exists t| |]; cbn [run_history ops_of omap].
  - destruct (index_op_ok (IndexLaws0 := SL_laws fuel) o t M (length h) Hr) as (t1 & -> & Hr1).
    simpl. destruct (map_op o M) as [r M1]. simpl in *.
    destruct (IH t1 M1 Hr1) as (t2 & -> & Hr2). unfold ops_of in *.
    destruct (map_ops _ M1) as [rs M2]. simpl in *. eauto.
  - destruct (reclaim_rep fuel t M (length h) i) as (m & -> & Hr1 & _).
    { by apply (idx_rep_weaken (IndexLaws := SL_laws fuel) _ _ _ _ Hr); simpl; lia. }
    simpl. by apply IH.
Qed.

(** Every retired cell, in order. *)
Fixpoint reclaim_all (n : nat) (m : Mem) : res Mem :=
  match n with
  | O => Ok m
  | S n => m ←r reclaim 0 m; reclaim_all n m
  end.

Lemma reclaim_all_ok fuel : ∀ n t M k,
  sl_rep fuel t M k → n = length (retired (sl_mem t)) →
  ∃ m, reclaim_all n (sl_mem t) = Ok m ∧ sl_rep fuel (mkSL (sl_list t) m) M k ∧ retired m = [].
Proof.
  induction n as [|n IH]; intros t M k Hr Hn; simpl.
  - exists (sl_mem t). destruct t. split; [done|]. split; [done|]. by apply nil_length_inv.
  - destruct (reclaim_rep fuel t M k 0 Hr) as (m & -> & Hr1 & Hret). simpl.
    apply (IH (mkSL (sl_list t) m) M k Hr1). simpl. rewrite Hret.
    destruct (retired (sl_mem t)); simpl in *; lia.
Qed.

Lemma fresh_sl_rep ml r fuel n :
  (ml < MAX_HEIGHT)%nat → rep (mkSkipList 8 ml) 176 (sentinels r) [] [] [] →
  (n + 2 ≤ fuel)%nat → 344 + Z.of_nat n * insert_room ≤ W64 →
  sl_rep fuel (mkSL (mkSkipList 8 ml) (sentinels r)) ∅ n.
Proof. intros Hml Hr Hf Hb. by exists 176, [], [], []. Qed.

Lemma drop_list_empty sl tl m es G gv fuel :
  rep sl tl m es G gv → retired m = [] → (length es + 3 ≤ fuel)%nat →
  ∃ m', run (drop_list fuel sl) m = Ok (tt, m') ∧ nodes m' = ∅ ∧ values m' = ∅.
Proof.
  intros Hr Hret Hf. pose proof (r_retired _ _ _ _ _ _ Hr) as Hp. rewrite Hret in Hp.
  apply Permutation_nil_l, symmetry, app_eq_nil in Hp as [HG Hgv].
  apply fmap_nil_inv in HG as ->. apply fmap_nil_inv in Hgv as ->.
  destruct (drop_list_run _ _ _ _ _ _ _ Hr Hf) as (m' & Hrun & Hn & Hv).
  exists m'. split; [done|]. simpl in Hn, Hv.
  split; apply map_empty; intros x; apply eq_None_not_Some.
  - rewrite Hn. by intros ?%elem_of_nil.
  - rewrite Hv. by intros ?%elem_of_nil.
Qed.

(** ** Claims *)

Section claims.
(** The floating-point height estimate and the generator state are arbitrary:
    correctness does not depend on tower heights. *)
Context (ceil_log4 : Z → Z) (expected_items r : Z).

(** [C1] Any history of puts, gets, deletes and length queries on a freshly
    built skiplist, with any retired cells reclaimed at any points in between,
    runs to completion without undefined behaviour and returns exactly what
    the same history returns on a finite map. *)
Theorem skiplist_history (fuel : nat) (h : list event)
    (Hfuel : (length h + 2 ≤ fuel)%nat)
    (Hroom : 344 + Z.of_nat (length h) * insert_room ≤ W64) :
  ∃ sl m t,
    run (with_capacity_hint ceil_log4 expected_items) (empty_mem r) = Ok (sl, m) ∧
    run_history fuel h (mkSL sl m) = Ok (fst (map_ops (ops_of h) ∅), t).
Proof.
  destruct (with_capacity_hint_run ceil_log4 expected_items r) as (ml & Hml & Hrun & Hr).
  destruct (run_history_ok fuel h _ ∅ (fresh_sl_rep ml r fuel _ Hml Hr Hfuel Hroom))
    as (t & Ht & _). eauto.
Qed.

(** [C15] Teardown: after any such history, reclaiming what is still retired
    and dropping the list frees every node and every value record exactly
    once: no fault (no double free, no dangling access) and nothing left. *)
Theorem skiplist_teardown (fuel : nat) (h : list event)
    (Hfuel : (length h + 2 ≤ fuel)%nat)
    (Hroom : 344 + Z.of_nat (length h) * insert_room ≤ W64) :
  ∃ sl m os t m1 m2,
    run (with_capacity_hint ceil_log4 expected_items) (empty_mem r) = Ok (sl, m) ∧
    run_history fuel h (mkSL sl m) = Ok (os, t) ∧
    reclaim_all (length (retired (sl_mem t))) (sl_mem t) = Ok m1 ∧
    run (drop_list (S fuel) (sl_list t)) m1 = Ok (tt, m2) ∧
    nodes m2 = ∅ ∧ values m2 = ∅.
Proof.
  destruct (with_capacity_hint_run ceil_log4 expected_items r) as (ml & Hml & Hrun & Hr).
  destruct (run_history_ok fuel h _ ∅ (fresh_sl_rep ml r _ _ Hml Hr Hfuel Hroom))
    as (t & Ht & Hrt).
  destruct (reclaim_all_ok fuel _ t _ _ Hrt eq_refl) as
    (m1 & Hm1 & (tl & es & G & gv & Hr1 & _ & Hf1 & _) & Hret).
  destruct (drop_list_empty _ _ _ _ _ _ (S fuel) Hr1 Hret) as (m2 & Hm2 & Hn & Hv).
  { lia. }
  eexists _, _, _, t, m1, m2. split; [exact Hrun|]. split; [exact Ht|]. done.
Qed.

End claims.

Definition demo_history : list event :=
  [Op (Put [1] [10]); Op (Put [2] [20]); Op (Put [1] [11]); Reclaim 0; Op (Get [1]);
   Op (Del [2]); Op (Get [2]); Reclaim 0; Op Len].

Lemma skiplist_history_witness :
  (length demo_history + 2 ≤ 12)%nat ∧
  fst (map_ops (ops_of demo_history) ∅) =
    [OBool true; OBool true; OBool false; OBytes (Some [11]); OBool true; OBytes None; OLen 1] ∧
  ∃ sl m t,
    run (with_capacity_hint (λ _, 2) 16) (empty_mem 3) = Ok (sl, m) ∧
    run_history 12 demo_history (mkSL sl m) = Ok (fst (map_ops (ops_of demo_history) ∅), t).
Proof.
  split; [vm_compute; lia|]. split; [vm_compute; reflexivity|].
  apply skiplist_history; vm_compute; [lia|discriminate].
Defined.

Lemma skiplist_teardown_witness :
  ∃ sl m os t m1 m2,
    run (with_capacity_hint (λ _, 2) 16) (empty_mem 3) = Ok (sl, m) ∧
    run_history 12 demo_history (mkSL sl m) = Ok (os, t) ∧
    reclaim_all (length (retired (sl_mem t))) (sl_mem t) = Ok m1 ∧
    run (drop_list 13 (sl_list t)) m1 = Ok (tt, m2) ∧
    nodes m2 = ∅ ∧ values m2 = ∅.
Proof. apply skiplist_teardown; vm_compute; [lia|discriminate]. Defined.

(** ** Words and keys *)

(** Key representation: whatever its length, inline or boxed, a stored
    key reads back as the bytes it was built from, and the comparisons the
    searches make are the lexicographic order and equality of byte strings. *)
Lemma key_repr_order (k target : bytes) :
  as_bytes (KeyRepr_new k) = k ∧
  key_lt (Fin (KeyRepr_new k)) target = bool_decide (blt k target) ∧
  key_eq (Fin (KeyRepr_new k)) target = bool_decide (k = target) ∧
  key_lt NegInf target = true ∧ key_lt PosInf target = false.
Proof. split; [apply as_bytes_new|]. split; [apply key_lt_new|]. by split; [apply key_eq_new|]. Qed.

(** Tagged forward pointers: packing an 8-byte aligned address with a
    deletion mark and taking the word apart returns both, so the mark never
    disturbs the address. *)
Lemma link_word_roundtrip (p : Z) (b : bool) (Hp : is_u64 p) (Halign : p mod 8 = 0) :
  Link.ptr_of (Link.pack p b) = p ∧ Link.mark_of (Link.pack p b) = b ∧
  is_u64 (Link.pack p b).
Proof.
  assert (Ht : taggable p).
  { destruct (Z.eq_dec p 0) as [->|]; [by vm_compute|].
    apply (mod8_taggable p W64); [unfold is_u64 in Hp; lia|lia|done]. }
  split; [by apply ptr_of_pack|]. split; [by apply mark_of_pack|].
  rewrite pack_add by done. apply Z.mod_divide in Halign as [q ->]; [|done].
  unfold is_u64, W64 in *. destruct b; simpl Z.b2z; lia.
Qed.
