(* ===== verification/SkipListRace.v ===== *)
(** * SkipListRace: an insert and a remove of one key, interleaved

    The sequential theorems of [SkipListSpec.v] say nothing about two threads
    inside the index at once. [pool_run] interleaves the atomic accesses of
    the same programs, and one schedule of an [insert] and a [remove] of the
    same key leaves a retired node reachable. *)

From S2P Require Import Prelude Backoff SkipList SkipListProof SkipListRep SkipListRemove.
Local Open Scope Z_scope.
Local Open Scope zkv_scope.

(** A list of two levels, and the two racing operations. *)
Definition race_list : SkipList := mkSkipList 8 1.
Definition racers : list (prog bool) :=
  [insert 5 race_list [7] [70]; remove 5 race_list [7]].

(** The inserter stops right after its level-0 CAS. *)
Definition race_published : list nat := replicate 13 0%nat.
(** Then the remover runs to its end, then the inserter does. *)
Definition race_removed : list nat := race_published ++ replicate 40 1%nat.
Definition race_done : list nat := race_removed ++ replicate 40 0%nat.

Definition results (ps : list (prog bool)) : list (option bool) :=
  (λ p, match p with Ret b => Some b | _ => None end) <$> ps.

(** The state after a schedule: the results so far and the memory. *)
Definition race_at (sched : list nat) : res (list (option bool) * Mem) :=
  '(ps, m) ←r pool_run sched racers (sentinels 3);
  Ok (results ps, m).

(** [C16] The linking loop of [insert] (lines 502-513) stores an unmarked
    successor into the upper links of a node that a concurrent [remove] may
    already have marked and retired, and then links that node again. Both
    operations report success; in between, [len] has wrapped below zero; at
    the end the retired node is still reachable at level 1, so once the
    reclamation domain frees it, which no live guard prevents, a lookup
    dereferences freed memory. *)
Theorem insert_remove_race :
  ('(rs, m) ←r race_at race_removed; Ok (rs, len m, retired m))
    = Ok ([None; Some true], W64 - 1, [(360, drop_node)]) ∧
  ('(rs, m) ←r race_at race_done; Ok (rs, links m !! (8, 1%nat), links m !! (8, 0%nat)))
    = Ok ([Some true; Some true], Some (Link.pack 360 false), Some (Link.pack 176 false)) ∧
  ('(_, m) ←r race_at race_done; m' ←r reclaim 0 m; Ok (nodes m' !! 360)) = Ok None ∧
  ('(_, m) ←r race_at race_done; m' ←r reclaim 0 m; run (get 5 race_list [7]) m') = Err UB.
Proof.
  split; [vm_compute; reflexivity|]. split; [vm_compute; reflexivity|].
  split; vm_compute; reflexivity.
Qed.
