(* ===== verification/SkipListConc.v ===== *)
(** * SkipListConc: inserts and lookups that run at the same time

    The programs of [SkipList] under interleaving, for [insert] and [get] (a
    concurrent [remove] is what [SkipListRace] is about). The shared state is
    described by a ghost [world]: the addresses linked at every level, the
    value cells that have been published, and the contents of the map after
    every step so far. A thread relies on the others to change the world only
    by [evolves], and guarantees the same; [wp] says that an operation, from a
    given world on and whatever the others do in between, never faults, and
    ends in a given postcondition. This file has the search; [SkipListConcIns]
    has the insertion, [SkipListLin] the theorem. *)

From Stdlib Require Import Sorted.
From S2P Require Import Prelude Backoff Index SkipList SkipListProof SkipListRep.
Local Open Scope Z_scope.
Local Open Scope zkv_scope.

(** ** Order of bound keys *)

Definition bk_lt (a b : BoundKey) : Prop :=
  match a, b with
  | NegInf, NegInf => False
  | NegInf, _ => True
  | Fin _, NegInf => False
  | Fin x, Fin y => blt (as_bytes x) (as_bytes y)
  | Fin _, PosInf => True
  | PosInf, _ => False
  end.

Lemma bk_lt_irrefl a : ¬ bk_lt a a.
Proof. destruct a; simpl; try tauto. apply blt_irrefl. Qed.

Lemma bk_lt_trans a b c : bk_lt a b → bk_lt b c → bk_lt a c.
Proof. destruct a, b, c; simpl; try tauto. apply blt_trans. Qed.

(** The key a search looks for. *)
Abbreviation fin t := (Fin (KeyRepr_new t)).

Lemma key_lt_bk nk t : key_lt nk t = true ↔ bk_lt nk (fin t).
Proof.
  destruct nk as [|x|]; simpl; [done| |done]. rewrite as_bytes_new. apply bool_decide_eq_true.
Qed.

Lemma key_ge_bk nk t : key_lt nk t = false → key_eq nk t = false → bk_lt (fin t) nk.
Proof.
  destruct nk as [|x|]; simpl; [done| |done].
  rewrite as_bytes_new, !bool_decide_eq_false. intros H1 H2.
  destruct (blt_total (as_bytes x) t) as [[?|?]|?]; done.
Qed.

Lemma fin_inj k t : fin k = fin t → k = t.
Proof. intros H. rewrite <- (as_bytes_new k), <- (as_bytes_new t). congruence. Qed.

(** ** Worlds *)

Record world : Type := mkWorld {
  wm : Mem;
  (** the addresses linked at a level, in key order *)
  lv : nat → list Z;
  (** value cells that are or were the value of a linked node *)
  pub : gset Z;
  (** the map before every step taken so far, and now *)
  hist : list store_map
}.

(** The nodes [L0] of level 0 hold the map [M]. *)
Definition holds (m : Mem) (L0 : list Z) (M : store_map) : Prop :=
  ∀ k bs, M !! k = Some bs ↔
    ∃ a v t, a ∈ L0 ∧ nodes m !! a = Some (mkNode (fin k) v t) ∧ values m !! v = Some bs.

(** [a] comes before [b] in key order. *)
Definition alt (m : Mem) (a b : Z) : Prop :=
  ∃ na nb, nodes m !! a = Some na ∧ nodes m !! b = Some nb ∧ bk_lt (key na) (key nb).

Section conc.
Context (sl : SkipList) (tl : Z).

(** A level with its sentinels. *)
Definition full (w : world) (l : nat) : list Z := head sl :: lv w l ++ [tl].

Record inv (w : world) : Prop := mkInv {
  i_height : (max_level sl < MAX_HEIGHT)%nat;
  i_heap : heap_ok (wm w);
  i_len : is_u64 (len (wm w));
  i_head : nodes (wm w) !! head sl = Some (mkNode NegInf 0 (MAX_HEIGHT - 1));
  i_tail : nodes (wm w) !! tl = Some (mkNode PosInf 0 (MAX_HEIGHT - 1));
  i_tail_links : ∀ l, (l < MAX_HEIGHT)%nat → links (wm w) !! (tl, l) = Some 0;
  i_nodes : ∀ a, a ∈ lv w 0 → ∃ k v t,
    nodes (wm w) !! a = Some (mkNode (fin k) v t) ∧ (t ≤ max_level sl)%nat ∧ v ∈ pub w;
  i_pub : ∀ v, v ∈ pub w → is_Some (values (wm w) !! v);
  i_sorted : StronglySorted (alt (wm w)) (full w 0);
  i_sub : ∀ l, sublist (lv w (S l)) (lv w l);
  i_chain : ∀ l, (l ≤ max_level sl)%nat → chain (wm w) l unmarked (head sl) (lv w l ++ [tl]);
  i_hist : ∃ M, last (hist w) = Some M ∧ holds (wm w) (lv w 0) M
}.

(** What may happen to the world while the addresses of [P] are protected. *)
Record evolves (P : Z → Prop) (w w' : world) : Prop := mkEvolves {
  e_brk : brk (wm w) ≤ brk (wm w');
  e_pub : pub w ⊆ pub w';
  e_pub_val : ∀ v, v ∈ pub w → values (wm w') !! v = values (wm w) !! v;
  e_lv : ∀ l, sublist (lv w l) (lv w' l);
  e_node : ∀ a n, a ∈ lv w 0 → nodes (wm w) !! a = Some n →
    ∃ v, nodes (wm w') !! a = Some (mkNode (key n) v (top_level n));
  e_prot_node : ∀ a, P a → a ≠ head sl → a ∉ lv w 0 → nodes (wm w') !! a = nodes (wm w) !! a;
  e_prot_link : ∀ a l, P a → a ≠ head sl → a ∉ lv w l →
    (a ∉ lv w' l) ∧ links (wm w') !! (a, l) = links (wm w) !! (a, l);
  e_prot_val : ∀ v, P v → v ∉ pub w → (v ∉ pub w') ∧ values (wm w') !! v = values (wm w) !! v;
  e_hist : hist w `prefix_of` hist w'
}.

Lemma evolves_refl P w : evolves P w w.
Proof. split; try done. intros a n _ Hn. exists (value n). by destruct n. Qed.

Lemma evolves_trans P w1 w2 w3 : evolves P w1 w2 → evolves P w2 w3 → evolves P w1 w3.
Proof.
  intros [B1 S1 V1 L1 N1 PN1 PL1 PV1 H1] [B2 S2 V2 L2 N2 PN2 PL2 PV2 H2]. split.
  - lia.
  - set_solver.
  - intros v Hv. rewrite V2, V1 by set_solver. done.
  - intros l. etrans; [apply L1|apply L2].
  - intros a n Ha Hn. destruct (N1 a n Ha Hn) as [v Hv].
    destruct (N2 a _ (elem_of_sublist _ _ _ Ha (L1 0%nat)) Hv) as [v' Hv']. eauto.
  - intros a Ha Hh Hn. destruct (PL1 a 0%nat Ha Hh Hn). rewrite PN2, PN1 by done. done.
  - intros a l Ha Hh Hn. destruct (PL1 a l Ha Hh Hn) as [Hn' E1].
    destruct (PL2 a l Ha Hh Hn') as [? E2]. split; [done|]. by rewrite E2.
  - intros v Hv Hn. destruct (PV1 v Hv Hn) as [Hn' E1].
    destruct (PV2 v Hv Hn') as [? E2]. split; [done|]. by rewrite E2.
  - etrans; [apply H1|apply H2].
Qed.

Lemma evolves_weaken (P P' : Z → Prop) w w' :
  (∀ a, P' a → P a) → evolves P w w' → evolves P' w w'.
Proof. intros HP [? ? ? ? ? ? ? ? ?]. split; eauto. Qed.

(** ** Positions *)

Lemma sorted_sublist {A} (R : A → A → Prop) xs ys :
  sublist xs ys → StronglySorted R ys → StronglySorted R xs.
Proof.
  induction 1 as [|x xs ys Hs IH|x xs ys Hs IH]; intros Ho; inversion_clear Ho as [|? ? Ho' Hf].
  - constructor.
  - constructor; [by apply IH|]. rewrite Forall_forall in Hf |- *. intros y Hy.
    apply Hf. by eapply elem_of_sublist.
  - by apply IH.
Qed.

Lemma sorted_pair {A} (R : A → A → Prop) L1 p L2 c L3 :
  StronglySorted R (L1 ++ p :: L2 ++ c :: L3) → R p c.
Proof.
  induction L1 as [|x L1 IH]; intros Ho; inversion_clear Ho as [|? ? Ho' Hf]; [|by apply IH].
  rewrite Forall_forall in Hf. apply Hf. set_solver.
Qed.

Lemma nodup_split {A} (L1 : list A) p L2 L1' L2' :
  NoDup (L1 ++ p :: L2) → L1 ++ p :: L2 = L1' ++ p :: L2' → L1 = L1' ∧ L2 = L2'.
Proof.
  revert L1'. induction L1 as [|x L1 IH]; intros [|y L1'] Hnd He; simplify_list_eq; [done|..].
  - apply NoDup_cons in Hnd as [Hni _]. set_solver.
  - apply NoDup_cons in Hnd as [Hni _]. set_solver.
  - apply NoDup_cons in Hnd as [_ Hnd]. by destruct (IH L1' Hnd) as [-> ->].
Qed.

Lemma lv_sub w l : inv w → sublist (lv w l) (lv w 0).
Proof.
  intros Hi. induction l as [|l IH]; [done|]. etrans; [apply (i_sub w Hi)|done].
Qed.

Lemma full_sub w l : inv w → sublist (full w l) (full w 0).
Proof. intros Hi. apply sublist_skip, sublist_app; [by apply lv_sub|done]. Qed.

Lemma full_sorted w l : inv w → StronglySorted (alt (wm w)) (full w l).
Proof. intros Hi. eapply sorted_sublist; [by apply full_sub|apply (i_sorted w Hi)]. Qed.

Lemma alt_irrefl m a : ¬ alt m a a.
Proof. intros (n & n' & H1 & H2 & H3). simplify_eq. by eapply bk_lt_irrefl. Qed.

Lemma sorted_nodup m xs : StronglySorted (alt m) xs → NoDup xs.
Proof.
  induction 1 as [|x xs _ IH Hf]; constructor; [|done]. intros Hx.
  rewrite Forall_forall in Hf. by eapply alt_irrefl, Hf.
Qed.

Lemma full_nodup w l : inv w → NoDup (full w l).
Proof. intros Hi. by eapply sorted_nodup, full_sorted. Qed.

Lemma full_node w l a : inv w → a ∈ full w l → is_Some (nodes (wm w) !! a).
Proof.
  intros Hi Ha. eapply elem_of_sublist in Ha; [|by apply full_sub].
  unfold full in Ha. rewrite elem_of_cons, elem_of_app, list_elem_of_singleton in Ha.
  destruct Ha as [->|[Ha| ->]]; [rewrite (i_head w Hi); eauto| |rewrite (i_tail w Hi); eauto].
  destruct (i_nodes w Hi a Ha) as (k & v & t & -> & _). eauto.
Qed.

Lemma full_taggable w l a : inv w → a ∈ full w l → taggable a.
Proof. intros Hi Ha. eapply heap_taggable; [apply (i_heap w Hi)|by eapply full_node]. Qed.

Lemma chain_at m l h xs A p c B :
  chain m l unmarked h xs → h :: xs = A ++ p :: c :: B →
  links m !! (p, l) = Some (Link.pack c false).
Proof.
  revert h A. induction xs as [|x xs IH]; intros h A.
  - intros _ He. destruct A as [|? [|? ?]]; simplify_list_eq.
  - intros [Hp Hc] He. destruct A as [|a A]; simplify_list_eq; [done|]. by apply (IH x A).
Qed.

Lemma full_link w l A p c B :
  inv w → (l ≤ max_level sl)%nat → full w l = A ++ p :: c :: B →
  links (wm w) !! (p, l) = Some (Link.pack c false).
Proof. intros Hi Hl He. eapply chain_at; [by apply (i_chain w Hi)|exact He]. Qed.

(** Every address but the tail has a successor. *)
Lemma full_next w l p : p ∈ head sl :: lv w l → ∃ A c B, full w l = A ++ p :: c :: B.
Proof.
  intros (A & B & He)%list_elem_of_split. exists A.
  assert (Hf : full w l = A ++ p :: B ++ [tl]).
  { unfold full. change (head sl :: lv w l ++ [tl]) with ((head sl :: lv w l) ++ [tl]).
    rewrite He, <- app_assoc. done. }
  destruct (B ++ [tl]) as [|c B'] eqn:E; [by destruct B|]. eauto.
Qed.

(** [p] has at least [r] addresses before it at level [l], [c] comes after it,
    and directly after it if the level still has [n] nodes. *)
Definition hop (w : world) (l r n : nat) (p c : Z) : Prop :=
  ∃ A B1 B2, full w l = A ++ p :: B1 ++ c :: B2 ∧ (r ≤ length A)%nat ∧
    (n ≤ length (lv w l))%nat ∧ (length (lv w l) = n → B1 = []).

Lemma sublist_length_eq {A} (xs ys : list A) : sublist xs ys → length xs = length ys → xs = ys.
Proof.
  induction 1 as [|x xs ys Hs IH|x xs ys Hs IH]; simpl; intros Hl; [done| |].
  - f_equal. auto.
  - apply sublist_length in Hs. lia.
Qed.

Lemma full_mono P w w' l : evolves P w w' → sublist (full w l) (full w' l).
Proof. intros He. apply sublist_skip, sublist_app; [apply (e_lv _ _ _ He)|done]. Qed.

Lemma hop_stable P w w' l r n p c : evolves P w w' → hop w l r n p c → hop w' l r n p c.
Proof.
  intros He (A & B1 & B2 & Hf & Hr & Hn & Hd). pose proof (full_mono _ _ _ l He) as Hs.
  pose proof (sublist_length _ _ (e_lv _ _ _ He l)) as Hlen.
  destruct (decide (length (lv w' l) = length (lv w l))) as [Heq|Hne].
  - assert (lv w l = lv w' l) as Hl by (apply sublist_length_eq; [apply (e_lv _ _ _ He)|done]).
    exists A, B1, B2. unfold full in *. rewrite <- Hl. done.
  - rewrite Hf in Hs. apply sublist_app_l in Hs as (A' & R & HfR & HA & HR).
    apply sublist_cons_l in HR as (X & Y & -> & HY).
    apply sublist_app_l in HY as (B1' & R & -> & HB1 & HR).
    apply sublist_cons_l in HR as (X' & Y' & -> & HY').
    exists (A' ++ X), (B1' ++ X'), Y'. split; [rewrite HfR; by rewrite <- !app_assoc|].
    apply sublist_length in HA. rewrite length_app. split; [lia|]. split; [lia|]. lia.
Qed.

Lemma hop_elem w l r n p c : hop w l r n p c → p ∈ full w l ∧ c ∈ full w l.
Proof. intros (A & B1 & B2 & -> & _). set_solver. Qed.

Lemma hop_pred w l r n p c : inv w → hop w l r n p c → p ∈ head sl :: lv w l.
Proof.
  intros Hi (A & B1 & B2 & Hf & _). pose proof (full_nodup w l Hi) as Hnd.
  unfold full in *. change (head sl :: lv w l ++ [tl]) with ((head sl :: lv w l) ++ [tl]) in *.
  assert (Hin : p ∈ (head sl :: lv w l) ++ [tl]) by (rewrite Hf; set_solver).
  apply elem_of_app in Hin as [Hin| ->%list_elem_of_singleton]; [done|]. exfalso.
  assert (∃ C, (B1 ++ c :: B2) = C ++ [lastd c B2]) as [C HC].
  { clear. revert c B1. induction B2 as [|b B2 IH]; intros c B1; [by exists B1|].
    destruct (IH b (B1 ++ [c])) as [C HC]. exists C. by rewrite <- app_assoc in HC. }
  rewrite HC, app_comm_cons, app_assoc in Hf. apply app_inj_2 in Hf as [Hf Hl]; [|done].
  rewrite Hf in Hnd. apply NoDup_app in Hnd as (_ & Hd & _).
  apply (Hd tl); set_solver.
Qed.

Lemma hop_succ w l r n p c : inv w → hop w l r n p c → c ∈ lv w l ++ [tl].
Proof.
  intros Hi (A & B1 & B2 & Hf & _). unfold full in Hf. destruct A as [|a A].
  - injection Hf as _ ->. set_solver.
  - injection Hf as _ ->. set_solver.
Qed.

Lemma hop_rank w l r n p c : hop w l r n p c → (r ≤ length (lv w l))%nat.
Proof.
  intros (A & B1 & B2 & Hf & Hr & _). apply (f_equal length) in Hf. unfold full in Hf.
  rewrite !length_app in Hf. simpl in Hf. rewrite !length_app in Hf. simpl in Hf. lia.
Qed.

(** The key of a linked address, the same for ever. *)
Definition key_at (w : world) (p : Z) (bk : BoundKey) : Prop :=
  ∃ nd, nodes (wm w) !! p = Some nd ∧ key nd = bk.

Lemma key_at_ex w l p : inv w → p ∈ full w l → ∃ bk, key_at w p bk.
Proof. intros Hi Hp. destruct (full_node w l p Hi Hp) as [nd Hn]. by exists (key nd), nd. Qed.

Lemma key_at_fun w p b1 b2 : key_at w p b1 → key_at w p b2 → b1 = b2.
Proof. intros (n1 & H1 & <-) (n2 & H2 & <-). congruence. Qed.

Lemma key_at_stable P w w' l p bk :
  inv w → inv w' → evolves P w w' → p ∈ full w l → key_at w p bk → key_at w' p bk.
Proof.
  intros Hi Hi' He Hp (nd & Hn & <-). eapply elem_of_sublist in Hp; [|by apply full_sub].
  unfold full in Hp. rewrite elem_of_cons, elem_of_app, list_elem_of_singleton in Hp.
  destruct Hp as [->|[Hp| ->]].
  - rewrite (i_head w Hi) in Hn. simplify_eq. eexists. by rewrite (i_head w' Hi').
  - destruct (e_node _ _ _ He p nd Hp Hn) as [v Hv]. by eexists.
  - rewrite (i_tail w Hi) in Hn. simplify_eq. eexists. by rewrite (i_tail w' Hi').
Qed.

Lemma hop_lt w l r n p c bp bc :
  inv w → hop w l r n p c → key_at w p bp → key_at w c bc → bk_lt bp bc.
Proof.
  intros Hi (A & B1 & B2 & Hf & _) (np & Hp & <-) (nc & Hc & <-).
  pose proof (full_sorted w l Hi) as Hs. rewrite Hf in Hs. apply sorted_pair in Hs.
  destruct Hs as (n1 & n2 & H1 & H2 & Hlt). by simplify_eq.
Qed.

(** Two linked nodes with one key are one node. *)
Lemma key_unique w a b bk : inv w → a ∈ full w 0 → b ∈ full w 0 →
  key_at w a bk → key_at w b bk → a = b.
Proof.
  intros Hi Ha Hb Ka Kb. destruct (decide (a = b)) as [|Hne]; [done|]. exfalso.
  apply list_elem_of_split in Ha as (A & B & Hf). rewrite Hf in Hb.
  pose proof (full_sorted w 0 Hi) as Hs. rewrite Hf in Hs.
  assert (Hlt : alt (wm w) a b ∨ alt (wm w) b a).
  { apply elem_of_app in Hb as [Hb|[Hb|Hb]%elem_of_cons]; [|done|].
    - right. apply list_elem_of_split in Hb as (C & D & ->). rewrite <- app_assoc in Hs.
      by eapply sorted_pair.
    - left. apply list_elem_of_split in Hb as (C & D & ->). by eapply sorted_pair. }
  destruct Ka as (na & Hna & <-), Kb as (nb & Hnb & Hk).
  destruct Hlt as [(n1 & n2 & ? & ? & Hl)|(n1 & n2 & ? & ? & Hl)]; simplify_eq;
    rewrite Hk in Hl; by eapply bk_lt_irrefl.
Qed.

(** Since time [s] there was an instant at which no key between [bp] and [bc]
    was in the map. *)
Definition gap (s : nat) (w : world) (bp bc : BoundKey) : Prop :=
  ∃ t M, (s ≤ t)%nat ∧ hist w !! t = Some M ∧
    ∀ k, bk_lt bp (fin k) → bk_lt (fin k) bc → M !! k = None.

Lemma gap_stable P s w w' bp bc : evolves P w w' → gap s w bp bc → gap s w' bp bc.
Proof.
  intros He (t & M & Hs & Ht & HM). exists t, M. split; [done|]. split; [|done].
  destruct (e_hist _ _ _ He) as [ms ->]. by apply lookup_app_l_Some.
Qed.

(** Neighbours of level 0 leave no room for a key in between. *)
Lemma near_absent w A p c B bp bc k M :
  inv w → full w 0 = A ++ p :: c :: B → key_at w p bp → key_at w c bc →
  bk_lt bp (fin k) → bk_lt (fin k) bc → holds (wm w) (lv w 0) M → M !! k = None.
Proof.
  intros Hi Hf (np & Hp & <-) (nc & Hc & <-) Hlp Hlc HM.
  destruct (M !! k) as [bs|] eqn:E; [|done]. exfalso.
  apply HM in E as (a & v & t & Ha & Hna & _).
  pose proof (full_sorted w 0 Hi) as Hs. rewrite Hf in Hs.
  assert (Hin : a ∈ full w 0) by (unfold full; set_solver). rewrite Hf in Hin.
  assert (Hle : ∀ x y L1 L2 L3 nx ny, A ++ p :: c :: B = L1 ++ x :: L2 ++ y :: L3 →
    nodes (wm w) !! x = Some nx → nodes (wm w) !! y = Some ny → bk_lt (key nx) (key ny)).
  { intros x y L1 L2 L3 nx ny HL Hx Hy. rewrite HL in Hs. apply sorted_pair in Hs.
    destruct Hs as (n1 & n2 & ? & ? & ?). by simplify_eq. }
  apply elem_of_app in Hin as [Hin|Hin].
  - apply list_elem_of_split in Hin as (C & D & ->).
    assert (bk_lt (fin k) (key np)).
    { apply (Hle a p C D (c :: B) (mkNode (fin k) v t) np); [by rewrite <- app_assoc|done|done]. }
    eapply bk_lt_irrefl, bk_lt_trans; [exact Hlp|done].
  - apply elem_of_cons in Hin as [->|Hin].
    { simplify_eq. by eapply bk_lt_irrefl. }
    apply elem_of_cons in Hin as [->|Hin].
    { simplify_eq. by eapply bk_lt_irrefl. }
    apply list_elem_of_split in Hin as (C & D & ->).
    assert (bk_lt (key nc) (fin k)).
    { apply (Hle c a (A ++ [p]) C D nc (mkNode (fin k) v t)); [by rewrite <- app_assoc|done|done]. }
    eapply bk_lt_irrefl, bk_lt_trans; [exact Hlc|done].
Qed.

(** ** Rely, guarantee and safety of one thread *)

(** The ghost state of a thread: the addresses it alone may use, whether it may
    still link a node (0 or 1), the bytes it may still allocate, whether it has
    linked a node without counting it, and when its operation took effect. *)
Record loc : Type := mkLoc {
  own : gset Z;
  tok : nat;
  room : Z;
  debt : nat;
  eff : option nat
}.

Context (N : nat) (kv : option (bytes * bytes)).

(** What the thread knows about the shared limits and its own addresses. *)
Definition bnd (ℓ : loc) (w : world) : Prop :=
  (length (lv w 0) + tok ℓ ≤ N)%nat ∧ brk (wm w) + room ℓ ≤ W64 ∧
  ∀ a, a ∈ own ℓ → a < brk (wm w).

(** One step of the thread; [kv] is the pair its operation inserts. *)
Record guar (ℓ : loc) (w : world) (ℓ' : loc) (w' : world) : Prop := mkGuar {
  g_ev : evolves (λ a, a < brk (wm w) ∧ a ∉ own ℓ) w w';
  g_own : ∀ a, a ∈ own ℓ' → a ∈ own ℓ ∨ brk (wm w) ≤ a < brk (wm w');
  g_tok : (length (lv w' 0) + tok ℓ' ≤ length (lv w 0) + tok ℓ)%nat;
  g_room : brk (wm w') + room ℓ' ≤ brk (wm w) + room ℓ;
  g_room0 : 0 ≤ room ℓ → 0 ≤ room ℓ';
  g_len : len (wm w') = wrap64 (len (wm w)
    + (Z.of_nat (length (lv w' 0)) - Z.of_nat (debt ℓ'))
    - (Z.of_nat (length (lv w 0)) - Z.of_nat (debt ℓ)));
  g_hist : ∃ M, last (hist w) = Some M ∧
    (hist w' = hist w ++ [M] ∧ eff ℓ' = eff ℓ ∨
     ∃ k v, kv = Some (k, v) ∧ eff ℓ = None ∧ eff ℓ' = Some (length (hist w) - 1)%nat ∧
       hist w' = hist w ++ [<[k := v]> M])
}.

Fixpoint wp {A} (p : prog A) (Q : A → loc → world → Prop) (ℓ : loc) (w : world) : Prop :=
  match p with
  | Ret a => Q a ℓ w
  | Stop _ => False
  | Do a k => ∀ w1, inv w1 → evolves (.∈ own ℓ) w w1 → bnd ℓ w1 →
    ∃ r ℓ2 w2, exec a (wm w1) = Ok (r, wm w2) ∧ inv w2 ∧ guar ℓ w1 ℓ2 w2 ∧ wp (k r) Q ℓ2 w2
  end.

Lemma wp_bind {A B} (p : prog A) (k : A → prog B) Q ℓ w :
  wp p (λ a, wp (k a) Q) ℓ w → wp (pbind p k) Q ℓ w.
Proof.
  revert ℓ w. induction p as [a|f|R a k' IH]; intros ℓ w Hw; simpl in *; [done..|].
  intros w1 Hi He Hb. destruct (Hw w1 Hi He Hb) as (r & ℓ2 & w2 & Hx & Hi2 & Hg & Hk).
  exists r, ℓ2, w2. split_and!; [done..|]. by apply IH.
Qed.

Lemma wp_mono {A} (p : prog A) (Q Q' : A → loc → world → Prop) ℓ w :
  (∀ a ℓ w, Q a ℓ w → Q' a ℓ w) → wp p Q ℓ w → wp p Q' ℓ w.
Proof.
  intros HQ. revert ℓ w. induction p as [a|f|R a k IH]; intros ℓ w Hw; simpl in *; [by apply HQ|done|].
  intros w1 Hi He Hb. destruct (Hw w1 Hi He Hb) as (r & ℓ2 & w2 & Hx & Hi2 & Hg & Hk).
  exists r, ℓ2, w2. split_and!; [done..|]. by apply IH.
Qed.

(** The world one step later, with nothing changed but time. *)
Definition tick (w : world) : world :=
  mkWorld (wm w) (lv w) (pub w) (hist w ++ option_list (last (hist w))).

Lemma tick_hist w M : last (hist w) = Some M → hist (tick w) = hist w ++ [M].
Proof. intros HM. simpl. by rewrite HM. Qed.

Lemma tick_inv w : inv w → inv (tick w).
Proof.
  intros [? ? ? ? ? ? ? ? ? ? ? (M & HM & Hh)]. split; try done.
  exists M. rewrite (tick_hist w M HM), last_snoc. done.
Qed.

Lemma tick_evolves P w : evolves P w (tick w).
Proof.
  split; try done.
  - intros a n _ Hn. exists (value n). by destruct n.
  - by exists (option_list (last (hist w))).
Qed.

Lemma tick_guar ℓ w : inv w → guar ℓ w ℓ (tick w).
Proof.
  intros Hi. split; simpl; try done; [apply tick_evolves|by left| |].
  - symmetry. rewrite wrap64_small; [lia|]. replace (_ - _) with (len (wm w)) by lia. apply (i_len w Hi).
  - destruct (i_hist w Hi) as (M & HM & _). exists M. split; [done|]. left.
    rewrite HM. done.
Qed.

(** An access that only reads. *)
Lemma wp_read {A R} (a : act R) (k : R → prog A) Q ℓ w :
  (∀ w1, inv w1 → evolves (.∈ own ℓ) w w1 → bnd ℓ w1 →
    ∃ r, exec a (wm w1) = Ok (r, wm w1) ∧ wp (k r) Q ℓ (tick w1)) →
  wp (Do a k) Q ℓ w.
Proof.
  intros Hr w1 Hi He Hb. destruct (Hr w1 Hi He Hb) as (r & Hx & Hk).
  exists r, ℓ, (tick w1). split_and!; [done|by apply tick_inv|by apply tick_guar|done].
Qed.

(** ** Walking a level *)

(** A search for [t] that started at time [s] stands on [p] and has read the
    link to [c]. *)
Definition walk (s : nat) (w : world) (l r n : nat) (p c : Z) (t : bytes) : Prop :=
  hop w l r n p c ∧ ∃ bp bc, key_at w p bp ∧ key_at w c bc ∧ bk_lt bp (fin t) ∧
    (l = 0%nat → gap s w bp bc).

Definition stopped (w : world) (c : Z) (t : bytes) : Prop :=
  ∃ bc, key_at w c bc ∧ key_lt bc t = false.

Lemma walk_stable P s w w' l r n p c t :
  inv w → inv w' → evolves P w w' → walk s w l r n p c t → walk s w' l r n p c t.
Proof.
  intros Hi Hi' He (Hh & bp & bc & Kp & Kc & Hlt & Hg).
  destruct (hop_elem _ _ _ _ _ _ Hh) as [Hp Hc].
  split; [by eapply hop_stable|]. exists bp, bc.
  split_and!; [exact (key_at_stable P w w' l p bp Hi Hi' He Hp Kp)|
    exact (key_at_stable P w w' l c bc Hi Hi' He Hc Kc)|done|].
  intros Hl. exact (gap_stable P s w w' bp bc He (Hg Hl)).
Qed.

Lemma stopped_stable P w w' l c t :
  inv w → inv w' → evolves P w w' → c ∈ full w l → stopped w c t → stopped w' c t.
Proof.
  intros Hi Hi' He Hc (bc & Kc & Hb). exists bc.
  split; [exact (key_at_stable P w w' l c bc Hi Hi' He Hc Kc)|done].
Qed.

Lemma hist_gap s w A p c B bp bc :
  inv w → (s < length (hist w))%nat → full w 0 = A ++ p :: c :: B →
  key_at w p bp → key_at w c bc → gap s w bp bc.
Proof.
  intros Hi Hs Hf Kp Kc. destruct (i_hist w Hi) as (M & HM & Hh).
  exists (length (hist w) - 1)%nat, M. split; [lia|]. split.
  - rewrite last_lookup in HM. replace (length (hist w) - 1)%nat with (pred (length (hist w))) by lia. done.
  - intros k H1 H2. by eapply near_absent.
Qed.

(** Reading the link of a node that has been passed. *)
Lemma walk_load s w l r A p B t bp :
  inv w → (l ≤ max_level sl)%nat → (s < length (hist w))%nat →
  full w l = A ++ p :: B → (r ≤ length A)%nat → p ∈ head sl :: lv w l →
  key_at w p bp → bk_lt bp (fin t) →
  ∃ c, links (wm w) !! (p, l) = Some (Link.pack c false) ∧ taggable c ∧
    walk s w l r (length (lv w l)) p c t.
Proof.
  intros Hi Hl Hs Hf Hr Hp Kp Hlt. destruct (full_next w l p Hp) as (A' & c & B' & Hf').
  destruct (nodup_split A' p (c :: B') A B) as [-> _]; [|by rewrite <- Hf'|].
  { rewrite <- Hf'. by apply full_nodup. }
  assert (Hc : c ∈ full w l) by (rewrite Hf'; set_solver).
  exists c. split; [by eapply full_link|]. split; [by eapply full_taggable|].
  split; [exists A, [], B'; split_and!; try done|].
  destruct (key_at_ex w l c Hi Hc) as [bc Kc]. exists bp, bc. split_and!; try done.
  intros ->. by eapply hist_gap.
Qed.

(** Any link of a level can be read, the tail's too, and none is marked. *)
Lemma full_load w l c : inv w → (l ≤ max_level sl)%nat → c ∈ full w l →
  ∃ v, links (wm w) !! (c, l) = Some v ∧ Link.mark_of v = false.
Proof.
  intros Hi Hl Hc. unfold full in Hc.
  destruct (decide (c ∈ head sl :: lv w l)) as [Hin|Hni].
  - destruct (full_next w l c Hin) as (A & d & B & Hf). exists (Link.pack d false).
    split; [by eapply full_link|]. apply mark_of_pack. eapply full_taggable; [done|].
    rewrite Hf. set_solver.
  - assert (c = tl) as -> by set_solver. exists 0. split; [|done].
    apply (i_tail_links w Hi). pose proof (i_height w Hi). lia.
Qed.

Lemma evolves_tick P w w1 : evolves P w w1 → evolves P w (tick w1).
Proof. intros He. eapply evolves_trans; [exact He|apply tick_evolves]. Qed.

Lemma hist_later P s w w1 : evolves P w w1 → (s < length (hist w))%nat → (s < length (hist w1))%nat.
Proof. intros He Hs. pose proof (prefix_length _ _ (e_hist _ _ _ He)). lia. Qed.

Lemma lv_later P w w1 l : evolves P w w1 → (length (lv w l) ≤ length (lv w1 l))%nat.
Proof. intros He. apply sublist_length, (e_lv _ _ _ He). Qed.

Lemma lv_length w l : inv w → (length (lv w l) ≤ length (lv w 0))%nat.
Proof. intros Hi. by apply sublist_length, lv_sub. Qed.

Lemma walk_tick s w l r n p c t : inv w → walk s w l r n p c t → walk s (tick w) l r n p c t.
Proof.
  intros Hi. apply (walk_stable (λ _, False)); [done|by apply tick_inv|apply tick_evolves].
Qed.

Lemma run_key_at w c bc : key_at w c bc → exec (AKey c) (wm w) = Ok (bc, wm w).
Proof. intros (nd & Hn & <-). simpl. by rewrite Hn. Qed.

(** One round of the inner loop of [find] or [get]: read the link of [c], then
    its key, and either move on to the next address or stop in front of [c]. *)
Lemma wp_visit {A} (k : Z → prog A) (kl : Z → prog A) (kr : prog A) Q ℓ w s l r n p c t :
  (∀ v, Link.mark_of v = false →
    k v = Do (AKey c) (λ bk, if key_lt bk t then kl (Link.ptr_of v) else kr)) →
  inv w → walk s w l r n p c t → (s < length (hist w))%nat → (l ≤ max_level sl)%nat →
  (∀ w2 c2 n2, inv w2 → evolves (.∈ own ℓ) w w2 → walk s w2 l (S r) n2 c c2 t →
    (length (lv w l) ≤ n2)%nat → (S r ≤ N)%nat → wp (kl c2) Q ℓ w2) →
  (∀ w2, inv w2 → evolves (.∈ own ℓ) w w2 → walk s w2 l r n p c t → stopped w2 c t →
    wp kr Q ℓ w2) →
  wp (Do (ALoad c l) k) Q ℓ w.
Proof.
  intros Hk Hi Hw Hs Hl Hgo Hstop. apply wp_read. intros w1 Hi1 He1 [Hb _].
  pose proof (walk_stable _ _ _ _ _ _ _ _ _ _ Hi Hi1 He1 Hw) as Hw1.
  pose proof Hw1 as [Hh1 _]. destruct (hop_elem _ _ _ _ _ _ Hh1) as [_ Hc].
  destruct (key_at_ex w1 l c Hi1 Hc) as [bc Kc].
  assert (Hkey : ∀ w2, inv w2 → evolves (.∈ own ℓ) (tick w1) w2 → key_at w2 c bc).
  { intros w2 Hi2 He2.
    exact (key_at_stable _ (tick w1) w2 l c bc (tick_inv w1 Hi1) Hi2 He2 Hc Kc). }
  destruct (key_lt bc t) eqn:Hlt.
  - assert (Hcl : c ∈ head sl :: lv w1 l).
    { pose proof (hop_succ _ _ _ _ _ _ Hi1 Hh1) as Hc'.
      apply elem_of_app in Hc' as [?| ->%list_elem_of_singleton]; [set_solver|].
      destruct Kc as (nd & Hn & <-). rewrite (i_tail w1 Hi1) in Hn. by simplify_eq. }
    destruct Hh1 as (A' & B1 & B2 & Hf & Hr & _).
    destruct (walk_load s w1 l (S r) (A' ++ p :: B1) c B2 t bc) as (c2 & Hlk & Ht & Hw2);
      [done|done|exact (hist_later _ _ _ _ He1 Hs)|by rewrite <- app_assoc|rewrite length_app; simpl; lia|done|done|
       by apply key_lt_bk|].
    exists (Link.pack c2 false). split; [simpl; by rewrite Hlk|].
    rewrite Hk, ptr_of_pack by (done || by apply mark_of_pack).
    apply wp_read. intros w2 Hi2 He2 [Hb2 _]. exists bc.
    split; [apply run_key_at; by apply Hkey|]. rewrite Hlt.
    assert (He : evolves (.∈ own ℓ) w (tick w2)).
    { apply evolves_tick. eapply evolves_trans; [|exact He2]. by apply evolves_tick. }
    apply (Hgo _ c2 (length (lv w1 l))); [by apply tick_inv|done| |exact (lv_later _ _ _ l He1)|].
    + apply walk_tick; [done|].
      exact (walk_stable _ s _ _ _ _ _ _ _ _ (tick_inv w1 Hi1) Hi2 He2 (walk_tick _ _ _ _ _ _ _ _ Hi1 Hw2)).
    + pose proof (hop_rank _ _ _ _ _ _ (proj1 Hw2)). pose proof (lv_length w1 l Hi1). lia.
  - destruct (full_load w1 l c Hi1 Hl Hc) as (v & Hlk & Hm).
    exists v. split; [simpl; by rewrite Hlk|]. rewrite Hk by done.
    apply wp_read. intros w2 Hi2 He2 _. exists bc.
    split; [apply run_key_at; by apply Hkey|]. rewrite Hlt.
    apply Hstop; [by apply tick_inv| | |].
    + apply evolves_tick. eapply evolves_trans; [|exact He2]. by apply evolves_tick.
    + apply walk_tick; [done|].
      exact (walk_stable _ s _ _ _ _ _ _ _ _ (tick_inv w1 Hi1) Hi2 He2 (walk_tick _ _ _ _ _ _ _ _ Hi1 Hw1)).
    + exists bc. split; [exact (Hkey w2 Hi2 He2)|done].
Qed.

(** What a search of one level returns, relative to the world it started in. *)
Definition searched (s : nat) (ℓ0 : loc) (w0 : world) (l n0 : nat) (t : bytes) (p c : Z)
    (ℓ : loc) (w : world) : Prop :=
  ℓ = ℓ0 ∧ inv w ∧ evolves (.∈ own ℓ0) w0 w ∧
  ∃ n, (n0 ≤ n)%nat ∧ walk s w l 0 n p c t ∧ stopped w c t.

Lemma walk_rank0 s w l r n p c t : walk s w l r n p c t → walk s w l 0 n p c t.
Proof.
  intros [(A & B1 & B2 & Hf & Hr & Hn) Hk]. split; [|done].
  exists A, B1, B2. split; [done|]. split; [lia|done].
Qed.

Lemma searched_trans s ℓ w0 w1 l n0 n1 t p c ℓ' w :
  evolves (.∈ own ℓ) w0 w1 → (n0 ≤ n1)%nat →
  searched s ℓ w1 l n1 t p c ℓ' w → searched s ℓ w0 l n0 t p c ℓ' w.
Proof.
  intros He Hn (-> & Hi & He' & n & Hn' & Hw). split_and!; [done|done|by eapply evolves_trans|].
  exists n. split; [lia|done].
Qed.

(** The inner loop of [find] comes to an end in front of the target. *)
Lemma wp_search_level s l t (ℓ : loc) : ∀ fuel r n n0 p c w,
  inv w → walk s w l r n p c t → (s < length (hist w))%nat → (l ≤ max_level sl)%nat →
  (n0 ≤ n)%nat → (n0 ≤ length (lv w l))%nat → (N + 2 ≤ fuel + r)%nat → (r ≤ N)%nat →
  wp (search_level fuel l t p c) (λ o ℓ' w', ∃ p' c', o = Some (p', c') ∧
    searched s ℓ w l n0 t p' c' ℓ' w') ℓ w.
Proof.
  induction fuel as [|fuel IH]; intros r n n0 p c w Hi Hw Hs Hl Hn Hn0 Hf Hr; [lia|].
  cbn [search_level link_get atom pbind].
  apply (wp_visit _ (λ c2, search_level fuel l t c c2) (Ret (Some (p, c))) _ ℓ w s l r n p c t); try done.
  - intros v Hm. rewrite Hm. done.
  - intros w2 c2 n2 Hi2 He2 Hw2 Hn2 Hr2.
    eapply wp_mono; [|apply (IH (S r) n2 n0 c c2 w2); try done; try lia].
    + intros o ℓ' w' (p' & c' & -> & Hse). exists p', c'. split; [done|].
      by eapply searched_trans; [exact He2| |exact Hse].
    + exact (hist_later _ _ _ _ He2 Hs).
    + pose proof (lv_later _ _ _ l He2). lia.
  - intros w2 Hi2 He2 Hw2 Hst. exists p, c. split; [done|]. split_and!; try done.
    exists n. split; [done|]. split; [by eapply walk_rank0|done].
Qed.

(** The inner loop of [get]. *)
Lemma wp_walk_level s l t (ℓ : loc) : ∀ fuel r n p c w,
  inv w → walk s w l r n p c t → (s < length (hist w))%nat → (l ≤ max_level sl)%nat →
  (N + 2 ≤ fuel + r)%nat → (r ≤ N)%nat →
  wp (walk_level fuel l t p c) (λ o ℓ' w', searched s ℓ w l 0 t o.1 o.2 ℓ' w') ℓ w.
Proof.
  induction fuel as [|fuel IH]; intros r n p c w Hi Hw Hs Hl Hf Hr; [lia|].
  cbn [walk_level link_get atom pbind].
  apply (wp_visit _ (λ c2, walk_level fuel l t c c2) (Ret (p, c)) _ ℓ w s l r n p c t); try done.
  - intros v Hm. rewrite Hm. done.
  - intros w2 c2 n2 Hi2 He2 Hw2 Hn2 Hr2.
    eapply wp_mono; [|apply (IH (S r) n2 c c2 w2); try done; try lia].
    + intros o ℓ' w' Hse. by eapply searched_trans; [exact He2| |exact Hse].
    + exact (hist_later _ _ _ _ He2 Hs).
  - intros w2 Hi2 He2 Hw2 Hst. split_and!; try done.
    exists n. split; [lia|]. split; [by eapply walk_rank0|done].
Qed.

(** ** Descending the levels *)

(** [p] is a place to start from at level [l]. *)
Definition start_at (w : world) (l : nat) (p : Z) (t : bytes) : Prop :=
  p ∈ head sl :: lv w l ∧ ∃ bp, key_at w p bp ∧ bk_lt bp (fin t).

Lemma start_at_head w l t : inv w → start_at w l (head sl) t.
Proof.
  intros Hi. split; [set_solver|]. exists NegInf. split; [|done].
  eexists. by rewrite (i_head w Hi).
Qed.

Lemma in_full w l p : p ∈ head sl :: lv w l → p ∈ full w l.
Proof. unfold full. set_solver. Qed.

Lemma start_at_stable P w w' l p t :
  inv w → inv w' → evolves P w w' → start_at w l p t → start_at w' l p t.
Proof.
  intros Hi Hi' He [Hp (bp & Kp & Hlt)]. split.
  - apply elem_of_cons in Hp as [->|Hp]; [set_solver|].
    apply list_elem_of_further. eapply elem_of_sublist; [exact Hp|apply (e_lv _ _ _ He)].
  - exists bp. split; [|done]. exact (key_at_stable P w w' l p bp Hi Hi' He (in_full _ _ _ Hp) Kp).
Qed.

Lemma walk_start s w l r n p c t : inv w → walk s w l r n p c t → start_at w l p t.
Proof. intros Hi [Hh (bp & bc & Kp & _ & Hlt & _)]. split; [by eapply hop_pred|eauto]. Qed.

Lemma start_at_lower w l p t : inv w → start_at w (S l) p t → start_at w l p t.
Proof.
  intros Hi [Hp Hk]. split; [|done]. apply elem_of_cons in Hp as [->|Hp]; [set_solver|].
  apply list_elem_of_further. eapply elem_of_sublist; [exact Hp|apply (i_sub w Hi)].
Qed.

(** Reading the first link of a level. *)
Lemma wp_enter {A} (k : Z → prog A) Q ℓ w s l p t :
  inv w → start_at w l p t → (s < length (hist w))%nat → (l ≤ max_level sl)%nat →
  (∀ w2 c n, inv w2 → evolves (.∈ own ℓ) w w2 → walk s w2 l 0 n p c t →
    (length (lv w l) ≤ n)%nat → (length (lv w2 l) = n)%nat → wp (k c) Q ℓ w2) →
  wp (pbind (link_reference p l) k) Q ℓ w.
Proof.
  intros Hi Hst Hs Hl Hk. cbn [link_reference atom pbind]. apply wp_read.
  intros w1 Hi1 He1 _.
  destruct (start_at_stable _ _ _ _ _ _ Hi Hi1 He1 Hst) as [Hp (bp & Kp & Hlt)].
  destruct (list_elem_of_split _ _ (in_full _ _ _ Hp)) as (L1 & L2 & Hf).
  destruct (walk_load s w1 l 0 L1 p L2 t bp) as (c & Hlk & Ht & Hw);
    [done|done|exact (hist_later _ _ _ _ He1 Hs)|done|lia|done..|].
  exists (Link.pack c false). split; [simpl; by rewrite Hlk|]. rewrite ptr_of_pack by done.
  apply (Hk _ c (length (lv w1 l))); [by apply tick_inv|by apply evolves_tick|by apply walk_tick| |done].
  exact (lv_later _ _ _ l He1).
Qed.

(** What [find] leaves at index [l] of its two arrays. *)
Definition located_at (s : nat) (w : world) (t : bytes) (ps ss : list Z) (l n0 : nat) : Prop :=
  ∃ p c n, ps !! l = Some p ∧ ss !! l = Some c ∧ (n0 ≤ n)%nat ∧
    walk s w l 0 n p c t ∧ stopped w c t.

Lemma located_stable P s w w' t ps ss l n0 :
  inv w → inv w' → evolves P w w' → located_at s w t ps ss l n0 → located_at s w' t ps ss l n0.
Proof.
  intros Hi Hi' He (p & c & n & Hp & Hc & Hn & Hw & Hst). exists p, c, n.
  split_and!; [done..|exact (walk_stable _ _ _ _ _ _ _ _ _ _ Hi Hi' He Hw)|].
  exact (stopped_stable _ _ _ _ _ _ Hi Hi' He (proj2 (hop_elem _ _ _ _ _ _ (proj1 Hw))) Hst).
Qed.

Lemma wp_descend s t (ℓ : loc) fuel : (N + 2 ≤ fuel)%nat → ∀ n pred ps ss w,
  inv w → (s < length (hist w))%nat → (n ≤ S (max_level sl))%nat →
  (n ≤ length ps)%nat → (n ≤ length ss)%nat → start_at w (Nat.pred n) pred t →
  wp (descend fuel n t pred ps ss) (λ o ℓ' w', ∃ ps' ss', o = Some (ps', ss') ∧
    ℓ' = ℓ ∧ inv w' ∧ evolves (.∈ own ℓ) w w' ∧
    length ps' = length ps ∧ length ss' = length ss ∧
    (∀ l, (l < n)%nat → located_at s w' t ps' ss' l (length (lv w l))) ∧
    (∀ l, (n ≤ l)%nat → ps' !! l = ps !! l ∧ ss' !! l = ss !! l)) ℓ w.
Proof.
  intros Hf. induction n as [|n IH]; intros pred ps ss w Hi Hs Hn Hlp Hls Hst; cbn [descend].
  - exists ps, ss. split_and!; [done..|apply evolves_refl|done|done|lia|done].
  - apply (wp_enter _ _ _ _ s n pred t); [done..|lia|].
    intros w1 c n1 Hi1 He1 Hw1 Hn1 Hl1. apply wp_bind.
    eapply wp_mono; [|apply (wp_search_level s n t ℓ fuel 0 n1 (length (lv w n))); try done; try lia].
    2: { exact (hist_later _ _ _ _ He1 Hs). }
    intros o ℓ' w2 (p & c' & -> & -> & Hi2 & He2 & n2 & Hn2 & Hw2 & Hst2).
    assert (Hs2 : (s < length (hist w2))%nat).
    { exact (hist_later _ _ _ _ He2 (hist_later _ _ _ _ He1 Hs)). }
    eapply wp_mono; [|apply (IH p (<[n := p]> ps) (<[n := c']> ss) w2); try done; rewrite ?length_insert; try lia].
    2: { destruct n as [|n]; [by eapply walk_start|]. apply start_at_lower; [done|]. by eapply walk_start. }
    intros o ℓ' w3 (ps' & ss' & -> & -> & Hi3 & He3 & Hp3 & Hs3 & Hlo & Hhi).
    rewrite length_insert in Hp3, Hs3.
    assert (He02 : evolves (.∈ own ℓ) w w2) by (by eapply evolves_trans).
    exists ps', ss'. split_and!; [done..|by eapply evolves_trans|done|done| |].
    + intros l Hl. destruct (decide (l = n)) as [->|Hne].
      * destruct (Hhi n) as [E1 E2]; [done|]. exists p, c', n2.
        rewrite E1, E2, !list_lookup_insert_eq by lia.
        split_and!; [done..|lia|exact (walk_stable _ _ _ _ _ _ _ _ _ _ Hi2 Hi3 He3 Hw2)|].
        exact (stopped_stable _ _ _ _ _ _ Hi2 Hi3 He3 (proj2 (hop_elem _ _ _ _ _ _ (proj1 Hw2))) Hst2).
      * destruct (Hlo l) as (q & d & m & ? & ? & ? & ?); [lia|]. exists q, d, m.
        split_and!; try tauto. pose proof (lv_later _ _ _ l He02). lia.
    + intros l Hl. destruct (Hhi l) as [E1 E2]; [lia|]. by rewrite E1, E2, !list_lookup_insert_ne by lia.
Qed.

(** ** find *)

Definition found_post (s : nat) (t : bytes) (ℓ : loc) (w : world) (ps ss : list Z)
    (o : bool * list Z * list Z) (ℓ' : loc) (w' : world) : Prop :=
  ∃ ps' ss' s0 bk, o = (key_eq bk t, ps', ss') ∧ ℓ' = ℓ ∧ inv w' ∧ evolves (.∈ own ℓ) w w' ∧
    length ps' = length ps ∧ length ss' = length ss ∧
    ss' !! 0%nat = Some s0 ∧ key_at w' s0 bk ∧
    ∀ l, (l ≤ max_level sl)%nat → located_at s w' t ps' ss' l (length (lv w l)).

(** [find] returns, with a place at every level that is right unless the level
    has grown since. *)
Lemma wp_find s t (ℓ : loc) fuel w ps ss :
  (N + 2 ≤ fuel)%nat → inv w → (s < length (hist w))%nat →
  (max_level sl < length ps)%nat → (max_level sl < length ss)%nat →
  wp (find fuel sl t ps ss) (found_post s t ℓ w ps ss) ℓ w.
Proof.
  intros Hf Hi Hs Hp Hss. unfold find. destruct fuel as [|fuel]; [lia|]. cbn [find_retry].
  apply wp_bind. eapply wp_mono; [|apply (wp_descend s t ℓ (S fuel) Hf (max_level sl + 1));
    try done; try lia; by apply start_at_head].
  intros o ℓ' w1 (ps' & ss' & -> & -> & Hi1 & He1 & Hp1 & Hs1 & Hlo & _).
  destruct (Hlo 0%nat) as (p & c & n & _ & Hc0 & _ & Hw & _); [lia|].
  unfold index. rewrite Hc0. cbn [pbind atom].
  destruct (hop_elem _ _ _ _ _ _ (proj1 Hw)) as [_ Hc].
  destruct (key_at_ex w1 0 c Hi1 Hc) as [bk Kc].
  apply wp_read. intros w2 Hi2 He2 _.
  pose proof (key_at_stable _ _ _ _ _ _ Hi1 Hi2 He2 Hc Kc) as Kc2.
  exists bk. split; [by apply run_key_at|]. exists ps', ss', c, bk.
  split_and!; [done|done|by apply tick_inv| |done|done|done|done|].
  - apply evolves_tick. by eapply evolves_trans.
  - intros l Hl. apply (located_stable (.∈ own ℓ) s w1); [done|by apply tick_inv|by apply evolves_tick|].
    apply Hlo. lia.
Qed.

(** ** get *)

(** At some instant since [s] the map answered [o] for [t]. *)
Definition answered (s : nat) (w : world) (t : bytes) (o : option bytes) : Prop :=
  ∃ u M, (s ≤ u)%nat ∧ hist w !! u = Some M ∧ o = M !! t.

Lemma node_shared w a bk t : inv w → a ∈ full w 0 → key_at w a bk → key_eq bk t = true →
  a ∈ lv w 0 ∧ bk = fin t.
Proof.
  intros Hi Ha (nd & Hn & <-) Hk.
  assert (Hin : a ∈ lv w 0).
  { unfold full in Ha. rewrite elem_of_cons, elem_of_app, list_elem_of_singleton in Ha.
    destruct Ha as [->|[Ha| ->]]; [|done|].
    - rewrite (i_head w Hi) in Hn. by simplify_eq.
    - rewrite (i_tail w Hi) in Hn. by simplify_eq. }
  split; [done|]. destruct (i_nodes w Hi a Hin) as (k & v & tp & Hn' & _). simplify_eq.
  cbn [key] in *. rewrite key_eq_new in Hk. apply bool_decide_eq_true in Hk. by subst.
Qed.

Lemma shared_value w a t : inv w → a ∈ lv w 0 → key_at w a (fin t) →
  ∃ v tp bs M, nodes (wm w) !! a = Some (mkNode (fin t) v tp) ∧ v ∈ pub w ∧ v ≠ 0 ∧
    values (wm w) !! v = Some bs ∧ last (hist w) = Some M ∧ M !! t = Some bs.
Proof.
  intros Hi Ha (nd & Hn & Hk). destruct (i_nodes w Hi a Ha) as (k & v & tp & Hn' & _ & Hv).
  simplify_eq. apply fin_inj in Hk as ->. destruct (i_pub w Hi v Hv) as [bs Hbs].
  destruct (i_hist w Hi) as (M & HM & Hh). exists v, tp, bs, M. split_and!; try done.
  - destruct (h_values _ (i_heap w Hi) v) as [? _]; [eauto|lia].
  - apply Hh. eauto 10.
Qed.

Lemma in_lv_stable P w w' l a : evolves P w w' → a ∈ lv w l → a ∈ lv w' l.
Proof. intros He Ha. eapply elem_of_sublist; [exact Ha|apply (e_lv _ _ _ He)]. Qed.

Lemma wp_get_candidate s t (ℓ : loc) w n p c :
  inv w → (s < length (hist w))%nat → walk s w 0 0 n p c t → stopped w c t →
  wp (get_candidate t c) (λ o ℓ' w', ℓ' = ℓ ∧ answered s w' t o) ℓ w.
Proof.
  intros Hi Hs Hw (bc & Kc & Hge). unfold get_candidate. cbn [atom pbind].
  destruct (hop_elem _ _ _ _ _ _ (proj1 Hw)) as [Hp Hc].
  apply wp_read. intros w1 Hi1 He1 _.
  pose proof (key_at_stable _ _ _ _ _ _ Hi Hi1 He1 Hc Kc) as Kc1.
  exists bc. split; [by apply run_key_at|]. destruct (key_eq bc t) eqn:Hk.
  2: { split; [done|]. destruct Hw as [_ (bp & bc' & Kp & Kc' & Hlt & Hg)].
    pose proof (key_at_fun _ _ _ _ Kc Kc') as ->.
    destruct (gap_stable _ _ _ _ _ _ (evolves_tick _ _ _ He1) (Hg eq_refl)) as (u & M & Hu & HM & HN).
    exists u, M. split_and!; [done..|]. symmetry. apply HN; [done|]. by apply key_ge_bk. }
  destruct (node_shared w c bc t Hi Hc Kc Hk) as [Hin ->].
  cbn [link_get atom pbind]. apply wp_read. intros w2 Hi2 He2 _.
  assert (He02 : evolves (.∈ own ℓ) w w2) by (eapply evolves_trans; [by apply evolves_tick|exact He2]).
  destruct (full_load w2 0 c Hi2) as (x & Hx & Hm); [lia|by eapply elem_of_sublist; [|by eapply full_mono]|].
  exists x. split; [simpl; by rewrite Hx|]. rewrite Hm.
  apply wp_read. intros w3 Hi3 He3 _.
  assert (He03 : evolves (.∈ own ℓ) w w3) by (eapply evolves_trans; [by apply evolves_tick|exact He3]).
  destruct (shared_value w3 c t Hi3) as (v & tp & bs & M & Hn & Hv & Hv0 & Hbs & HM & Hl).
  { by eapply in_lv_stable. }
  { exact (key_at_stable _ _ _ _ _ _ Hi Hi3 He03 Hc Kc). }
  exists v. split; [simpl; by rewrite Hn|]. rewrite (proj2 (Z.eqb_neq v 0)) by done.
  apply wp_read. intros w4 Hi4 He4 _. exists bs.
  split; [simpl; rewrite (e_pub_val _ _ _ He4 v Hv); simpl; by rewrite Hbs|].
  split; [done|]. exists (length (hist w3) - 1)%nat, M.
  pose proof (hist_later _ _ _ _ He03 Hs). split; [lia|]. split; [|done].
  destruct (e_hist _ _ _ (evolves_trans _ _ _ _ (tick_evolves _ w3) (evolves_tick _ _ _ He4))) as [ms ->].
  apply lookup_app_l_Some. rewrite last_lookup in HM.
  by replace (length (hist w3) - 1)%nat with (pred (length (hist w3))) by lia.
Qed.

Lemma wp_get_levels s t (ℓ : loc) fuel : (N + 2 ≤ fuel)%nat → ∀ n pred w,
  inv w → (s < length (hist w))%nat → (n ≤ max_level sl)%nat → start_at w n pred t →
  wp (get_levels fuel (S n) t pred) (λ o ℓ' w', ℓ' = ℓ ∧ answered s w' t o) ℓ w.
Proof.
  intros Hf. induction n as [|n IH]; intros pred w Hi Hs Hn Hst; cbn [get_levels];
    (eapply wp_enter; [done|exact Hst|exact Hs|lia|]);
    intros w1 c n1 Hi1 He1 Hw1 Hn1 Hl1; apply wp_bind;
    (eapply wp_mono; [|apply (wp_walk_level s _ t ℓ fuel 0 n1 pred c w1 Hi1 Hw1);
       [exact (hist_later _ _ _ _ He1 Hs)|lia|lia|lia]]);
    intros [p' c'] ℓ' w2 (-> & Hi2 & He2 & n2 & _ & Hw2 & Hst2); cbn [fst snd] in *;
    pose proof (hist_later _ _ _ _ He2 (hist_later _ _ _ _ He1 Hs)) as Hs2.
  - by eapply wp_get_candidate.
  - apply IH; [done|done|lia|]. apply start_at_lower; [done|]. by eapply walk_start.
Qed.

(** A lookup that runs alongside inserts returns what the map held for its key
    at some instant while it ran. *)
Lemma wp_get s t (ℓ : loc) fuel w :
  (N + 2 ≤ fuel)%nat → inv w → (s < length (hist w))%nat →
  wp (get fuel sl t) (λ o ℓ' w', ℓ' = ℓ ∧ answered s w' t o) ℓ w.
Proof.
  intros Hf Hi Hs. unfold get. rewrite Nat.add_1_r.
  apply wp_get_levels; [done..|]. by apply start_at_head.
Qed.

End conc.
