(* ===== verification/SkipListConcIns.v ===== *)
(** * SkipListConcIns: the insertion under interleaving

    The writing accesses of [insert] against the rely and guarantee of
    [SkipListConc]: allocation and initialisation touch only what the thread
    owns, the compare-and-swap at level 0 and the swap of a value cell change
    the map at one instant, and the upper levels are linked without changing
    it. *)

From Stdlib Require Import Sorted.
From S2P Require Import Prelude Backoff Index SkipList SkipListProof SkipListRep SkipListConc.
Local Open Scope Z_scope.
Local Open Scope zkv_scope.

Section ins.
Context (sl : SkipList) (tl : Z) (N : nat).
Local Abbreviation inv := (inv sl tl).
Local Abbreviation full := (full sl tl).
Local Abbreviation evolves := (evolves sl).

(** ** Writes to private memory *)

(** The world one step later with another memory but the same list. *)
Definition upd (w : world) (m : Mem) : world :=
  mkWorld m (lv w) (pub w) (hist w ++ option_list (last (hist w))).

Record private (ℓ : loc) (w : world) (m : Mem) : Prop := mkPrivate {
  p_heap : heap_ok m;
  p_len : is_u64 (len m);
  p_brk : brk (wm w) ≤ brk m;
  p_nodes : ∀ a, nodes m !! a = nodes (wm w) !! a ∨
    (a ∉ full w 0) ∧ (a ∈ own ℓ ∨ brk (wm w) ≤ a);
  p_links : ∀ a l, links m !! (a, l) = links (wm w) !! (a, l) ∨
    (a ∉ full w l) ∧ (a ∈ own ℓ ∨ brk (wm w) ≤ a);
  p_values : ∀ v, values m !! v = values (wm w) !! v ∨
    (v ∉ pub w) ∧ (v ∈ own ℓ ∨ brk (wm w) ≤ v)
}.

(** How the ghost state of the thread may move along. *)
Record lstep (ℓ : loc) (w : world) (ℓ' : loc) (m : Mem) : Prop := mkLstep {
  s_own : ∀ a, a ∈ own ℓ' → a ∈ own ℓ ∨ brk (wm w) ≤ a < brk m;
  s_tok : (tok ℓ' ≤ tok ℓ)%nat;
  s_room : brk m + room ℓ' ≤ brk (wm w) + room ℓ;
  s_room0 : 0 ≤ room ℓ → 0 ≤ room ℓ';
  s_len : len m = wrap64 (len (wm w) + Z.of_nat (debt ℓ) - Z.of_nat (debt ℓ'));
  s_eff : eff ℓ' = eff ℓ
}.

Lemma private_full ℓ w m : inv w → private ℓ w m →
  (∀ a, a ∈ full w 0 → nodes m !! a = nodes (wm w) !! a) ∧
  (∀ a l, a ∈ full w l → links m !! (a, l) = links (wm w) !! (a, l)) ∧
  (∀ v, v ∈ pub w → values m !! v = values (wm w) !! v).
Proof.
  intros Hi [_ _ _ Hn Hl Hv]. split_and!.
  - intros a Ha. by destruct (Hn a) as [?|[? _]].
  - intros a l Ha. by destruct (Hl a l) as [?|[? _]].
  - intros v Hv'. by destruct (Hv v) as [?|[? _]].
Qed.

Lemma full_head w l : head sl ∈ full w l.
Proof. unfold SkipListConc.full. set_solver. Qed.
Lemma full_tail w l : tl ∈ full w l.
Proof. unfold SkipListConc.full. set_solver. Qed.
Lemma full_lv w l a : a ∈ lv w l → a ∈ full w l.
Proof. unfold SkipListConc.full. set_solver. Qed.
#[local] Hint Resolve full_head full_tail full_lv : zkv.

Lemma holds_ext m m' L M :
  (∀ a, a ∈ L → nodes m' !! a = nodes m !! a) →
  (∀ a n, a ∈ L → nodes m !! a = Some n → values m' !! value n = values m !! value n) →
  holds m L M → holds m' L M.
Proof.
  intros Hn Hv Hh k bs. rewrite (Hh k bs). split; intros (a & v & t & Ha & Hna & Hva); exists a, v, t.
  - rewrite Hn by done. split_and!; [done..|].
    pose proof (Hv a _ Ha Hna) as E. simpl in E. congruence.
  - rewrite Hn in Hna by done. split_and!; [done..|].
    pose proof (Hv a _ Ha Hna) as E. simpl in E. congruence.
Qed.

Lemma alt_ext m m' a b :
  nodes m' !! a = nodes m !! a → nodes m' !! b = nodes m !! b → alt m a b → alt m' a b.
Proof. intros Ha Hb (na & nb & ? & ? & ?). exists na, nb. by rewrite Ha, Hb. Qed.

Lemma sorted_ext m m' L :
  (∀ a, a ∈ L → nodes m' !! a = nodes m !! a) → StronglySorted (alt m) L → StronglySorted (alt m') L.
Proof.
  intros Hn Hs. induction Hs as [|x L Hs IH Hf]; constructor.
  - apply IH. intros a Ha. apply Hn. set_solver.
  - rewrite Forall_forall in Hf |- *. intros y Hy.
    apply (alt_ext m); [apply Hn; set_solver..|by apply Hf].
Qed.

Lemma upd_inv ℓ w m : inv w → private ℓ w m → inv (upd w m).
Proof.
  intros Hi Hp. destruct (private_full ℓ w m Hi Hp) as (Hn & Hl & Hv).
  destruct Hi as [H1 H2 H2' H3 H4 H5 H6 H7 H8 H9 H10 (M & HM & Hh)]. split; simpl; try done.
  - apply (p_heap _ _ _ Hp).
  - apply (p_len _ _ _ Hp).
  - rewrite Hn by auto with zkv. done.
  - rewrite Hn by auto with zkv. done.
  - intros l Hl'. rewrite Hl by auto with zkv. by apply H5.
  - intros a Ha. rewrite Hn by auto with zkv. by apply H6.
  - intros v Hv'. rewrite Hv by done. by apply H7.
  - by eapply sorted_ext.
  - intros l Hl'. eapply chain_ext; [|by apply H10]. intros q Hq%elem_of_removelast.
    split; [|done]. by apply Hl.
  - exists M. rewrite HM. simpl. rewrite last_snoc. split; [done|].
    eapply holds_ext; [| |exact Hh].
    + intros a Ha. apply Hn. auto with zkv.
    + intros a n Ha Hna. apply Hv. destruct (H6 a Ha) as (k & v & t & Hn' & _ & Hvp). by simplify_eq/=.
Qed.

(** Protected addresses that the write leaves alone stay as they are. *)
Lemma upd_evolves (P : Z → Prop) ℓ w m :
  inv w → private ℓ w m →
  (∀ a, P a → nodes m !! a = nodes (wm w) !! a ∧
    (∀ l, a ∉ lv w l → links m !! (a, l) = links (wm w) !! (a, l)) ∧
    values m !! a = values (wm w) !! a) →
  evolves P w (upd w m).
Proof.
  intros Hi Hp HP. destruct (private_full ℓ w m Hi Hp) as (Hn & Hl & Hv).
  split; simpl; try done.
  - apply (p_brk _ _ _ Hp).
  - intros a n Ha Hna. exists (value n). rewrite Hn by auto with zkv. rewrite Hna. by destruct n.
  - intros a Ha _ _. by apply HP.
  - intros a l Ha _ Hna. split; [done|]. by apply HP.
  - intros v Ha Hna. split; [done|]. by apply HP.
  - by exists (option_list (last (hist w))).
Qed.

Lemma upd_guar kv ℓ ℓ' w m :
  inv w → private ℓ w m → lstep ℓ w ℓ' m → guar sl kv ℓ w ℓ' (upd w m).
Proof.
  intros Hi Hp [So St Sr Sr0 Sl Se]. split; simpl.
  - apply (upd_evolves _ ℓ); [done|done|]. intros a [Ha1 Ha2].
    split; [by destruct (p_nodes _ _ _ Hp a) as [?|[_ [?|?]]]; [done|done|lia]|].
    split; [|by destruct (p_values _ _ _ Hp a) as [?|[_ [?|?]]]; [done|done|lia]].
    intros l _. by destruct (p_links _ _ _ Hp a l) as [?|[_ [?|?]]]; [done|done|lia].
  - done.
  - lia.
  - done.
  - done.
  - rewrite Sl. f_equal. lia.
  - destruct (i_hist _ _ w Hi) as (M & HM & _). exists M. split; [done|]. left. by rewrite HM.
Qed.

(** An access that changes private memory only. *)
Lemma wp_private {A R} kv (a : act R) (k : R → prog A) Q ℓ w :
  (∀ w1, inv w1 → evolves (.∈ own ℓ) w w1 → bnd N ℓ w1 →
    ∃ r m ℓ', exec a (wm w1) = Ok (r, m) ∧ private ℓ w1 m ∧ lstep ℓ w1 ℓ' m ∧
      wp sl tl N kv (k r) Q ℓ' (upd w1 m)) →
  wp sl tl N kv (Do a k) Q ℓ w.
Proof.
  intros Hr w1 Hi He Hb. destruct (Hr w1 Hi He Hb) as (r & m & ℓ' & Hx & Hp & Hs & Hk).
  exists r, ℓ', (upd w1 m). split_and!; [done|by eapply upd_inv|by apply upd_guar|done].
Qed.

(** ** Allocation *)

Lemma fresh_full w l a : inv w → brk (wm w) ≤ a → a ∉ full w l.
Proof.
  intros Hi Ha Hin. destruct (h_nodes _ (i_heap _ _ w Hi) a); [by eapply full_node|]. lia.
Qed.

Lemma fresh_pub w v : inv w → brk (wm w) ≤ v → v ∉ pub w.
Proof.
  intros Hi Hv Hin. destruct (h_values _ (i_heap _ _ w Hi) v); [by apply (i_pub _ _ w Hi)|]. lia.
Qed.

Lemma len_same (x : Z) (d : nat) : is_u64 x → x = wrap64 (x + Z.of_nat d - Z.of_nat d).
Proof. intros Hx. rewrite wrap64_small; [lia|]. by replace (x + _ - _) with x by lia. Qed.

(** The ghost state after allocating [n] bytes at [a]. *)
Definition alloc (ℓ : loc) (a n : Z) : loc :=
  mkLoc ({[a]} ∪ own ℓ) (tok ℓ) (room ℓ - n) (debt ℓ) (eff ℓ).

Lemma alloc_step ℓ w m n :
  inv w → 0 < n → n ≤ room ℓ → brk m = brk (wm w) + n → len m = len (wm w) →
  lstep ℓ w (alloc ℓ (brk (wm w)) n) m.
Proof.
  intros Hi Hn Hr Hb Hl. split; simpl; [|done|lia|lia| |done].
  - intros a [->%elem_of_singleton|?]%elem_of_union; [right; lia|by left].
  - rewrite Hl. apply len_same, (i_len _ _ w Hi).
Qed.

Lemma wp_new_value {A} kv bs (k : Z → prog A) Q ℓ w :
  value_size ≤ room ℓ →
  (∀ w2 v, inv w2 → evolves (.∈ own ℓ) w w2 → v ∉ own ℓ → v ∉ pub w2 →
    values (wm w2) !! v = Some bs → wp sl tl N kv (k v) Q (alloc ℓ v value_size) w2) →
  wp sl tl N kv (Do (ANewValue bs) k) Q ℓ w.
Proof.
  intros Hroom Hk. apply wp_private. intros w1 Hi He (_ & Hb & Hown).
  destruct (heap_ok_new_value (wm w1) bs (i_heap _ _ w1 Hi)) as (m & Hx & Hm & Hh); [lia|].
  exists (brk (wm w1)), m, (alloc ℓ (brk (wm w1)) value_size).
  assert (Hp : private ℓ w1 m).
  { rewrite Hm. split; simpl; [by rewrite Hm in Hh|apply (i_len _ _ w1 Hi)|unfold value_size; lia|by left..|].
    intros v. destruct (decide (v = brk (wm w1))) as [->|Hne].
    - right. split; [by apply fresh_pub|]. right. done.
    - left. by rewrite lookup_insert_ne. }
  split; [done|]. split; [done|]. split.
  - rewrite Hm. apply alloc_step; [done|by unfold value_size|done..].
  - apply Hk.
    + by eapply upd_inv.
    + eapply evolves_trans; [exact He|]. apply (upd_evolves _ ℓ); [done|done|].
      intros a Ha%Hown. rewrite Hm. simpl. split_and!; [done|done|]. rewrite lookup_insert_ne; [done|lia].
    + intros Ha%Hown. lia.
    + exact (fresh_pub w1 _ Hi (Z.le_refl _)).
    + simpl. rewrite Hm. simpl. by rewrite lookup_insert_eq.
Qed.

(** A node that is not linked anywhere yet, with its value cell. *)
Record mine (ℓ : loc) (w : world) (a v : Z) (t val : bytes) (top : nat) : Prop := mkMine {
  m_own : a ∈ own ℓ ∧ v ∈ own ℓ;
  m_node : nodes (wm w) !! a = Some (mkNode (fin t) v top);
  m_value : values (wm w) !! v = Some val;
  m_out : a ∉ lv w 0;
  m_pub : v ∉ pub w;
  m_links : ∀ l, (l ≤ top)%nat → is_Some (links (wm w) !! (a, l))
}.

Lemma mine_lv ℓ w a v t val top l : inv w → mine ℓ w a v t val top → a ∉ lv w l.
Proof.
  intros Hi Hm Ha. apply (m_out _ _ _ _ _ _ _ Hm). eapply elem_of_sublist; [exact Ha|by eapply lv_sub].
Qed.

Lemma mine_full ℓ w a v t val top l : inv w → mine ℓ w a v t val top → a ∉ full w l.
Proof.
  intros Hi Hm. unfold SkipListConc.full. pose proof (m_node _ _ _ _ _ _ _ Hm) as Hn.
  rewrite elem_of_cons, elem_of_app, list_elem_of_singleton. intros [->|[Ha| ->]].
  - rewrite (i_head _ _ w Hi) in Hn. done.
  - by eapply mine_lv.
  - rewrite (i_tail _ _ w Hi) in Hn. done.
Qed.

Lemma mine_head ℓ w a v t val top : inv w → mine ℓ w a v t val top → a ≠ head sl.
Proof.
  intros Hi Hm ->. pose proof (m_node _ _ _ _ _ _ _ Hm) as Hn.
  rewrite (i_head _ _ w Hi) in Hn. done.
Qed.

Lemma mine_stable ℓ ℓ' w w' a v t val top :
  inv w → evolves (.∈ own ℓ) w w' → a ∈ own ℓ' → v ∈ own ℓ' →
  mine ℓ w a v t val top → mine ℓ' w' a v t val top.
Proof.
  intros Hi He Ha' Hv' Hm. pose proof (mine_lv _ _ _ _ _ _ _ 0 Hi Hm) as Hout.
  pose proof (mine_head _ _ _ _ _ _ _ Hi Hm) as Hh.
  assert (Hlv := λ l, mine_lv _ _ _ _ _ _ _ l Hi Hm).
  destruct Hm as [[Ha Hv] Hn Hva _ Hpub Hl].
  destruct (e_prot_link _ _ _ _ He a 0%nat Ha Hh Hout) as [Hout' _].
  destruct (e_prot_val _ _ _ _ He v Hv Hpub) as [Hpub' Ev]. split; try done.
  - by rewrite (e_prot_node _ _ _ _ He a Ha Hh Hout).
  - by rewrite Ev.
  - intros l Hl'. destruct (e_prot_link _ _ _ _ He a l Ha Hh (Hlv l)) as [_ ->]. by apply Hl.
Qed.

Lemma wp_new_node {A} kv t v val top (k : Z → prog A) Q ℓ w :
  layout_for (top + 1) ≤ room ℓ → inv w →
  v ∈ own ℓ → v ∉ pub w → values (wm w) !! v = Some val →
  (∀ w2 a, inv w2 → evolves (.∈ own ℓ) w w2 →
    mine (alloc ℓ a (layout_for (top + 1))) w2 a v t val top →
    wp sl tl N kv (k a) Q (alloc ℓ a (layout_for (top + 1))) w2) →
  wp sl tl N kv (Do (ANewNode (fin t) v top) k) Q ℓ w.
Proof.
  intros Hroom Hiw Hv Hpub Hval Hk. apply wp_private. intros w1 Hi He (_ & Hb & Hown).
  destruct (heap_ok_new_node (wm w1) (fin t) v top (i_heap _ _ w1 Hi)) as (m & Hx & Hm & Hh); [lia|].
  set (a := brk (wm w1)) in *. exists a, m, (alloc ℓ a (layout_for (top + 1))).
  assert (Hl : ∀ q l, links m !! (q, l) =
    if decide (q = a ∧ (l < top + 1)%nat) then Some Link.null else links (wm w1) !! (q, l)).
  { intros q l. rewrite Hm. simpl. apply null_links_lookup. }
  assert (Hp : private ℓ w1 m).
  { split; [done| | | | |]; [rewrite Hm; apply (i_len _ _ w1 Hi)|rewrite Hm; unfold layout_for; simpl; lia| | |].
    - intros b. destruct (decide (b = a)) as [->|Hne].
      + right. split; [by apply fresh_full|]. by right.
      + left. rewrite Hm. simpl. by rewrite lookup_insert_ne.
    - intros b l. rewrite Hl. case_decide as Hd; [|by left]. right. destruct Hd as [-> _].
      split; [by apply fresh_full|by right].
    - left. by rewrite Hm. }
  assert (He2 : evolves (.∈ own ℓ) w (upd w1 m)).
  { eapply evolves_trans; [exact He|]. apply (upd_evolves _ ℓ); [done|done|].
    intros b Hb'%Hown. split_and!.
    - rewrite Hm. simpl. rewrite lookup_insert_ne; [done|lia].
    - intros l _. rewrite Hl, decide_False; [done|]. lia.
    - by rewrite Hm. }
  split; [done|]. split; [done|]. split.
  { rewrite Hm. apply alloc_step; [done|unfold layout_for; lia|done..]. }
  apply Hk; [by eapply upd_inv|done|].
  destruct (e_prot_val _ _ _ _ He2 v Hv Hpub) as [Hpub' Ev].
  split; simpl; [set_solver| | | |done|].
  - rewrite Hm. simpl. by rewrite lookup_insert_eq.
  - simpl in Ev. by rewrite Ev.
  - intros Ha. eapply (fresh_full w1 0 a Hi); [done|]. by apply full_lv.
  - intros l Hl'. rewrite Hl, decide_True; [eauto|]. split; [done|lia].
Qed.

(** ** Private stores, release, and accesses beside the list *)

(** Any step, forgetting who owns what. *)
Abbreviation later := (evolves (λ _, False)).

Lemma evolves_later P w w' : evolves P w w' → later w w'.
Proof. by apply evolves_weaken. Qed.

Definition stored (w : world) (a : Z) (l : nat) (x : Z) : world :=
  upd w (set_links (wm w) (<[(a, l) := x]> (links (wm w)))).

Lemma heap_ok_set_link m a l x :
  heap_ok m → is_Some (links m !! (a, l)) → heap_ok (set_links m (<[(a, l) := x]> (links m))).
Proof.
  intros [Hb Hn Hl Hv] Ha. split; simpl; try done.
  intros p l' [y Hy]. destruct (decide ((a, l) = (p, l'))) as [[= <- <-]|Hne]; [by eapply Hl|].
  rewrite lookup_insert_ne in Hy by done. eauto.
Qed.

Lemma stored_private ℓ w a l x :
  inv w → a ∈ own ℓ → a ∉ full w l → is_Some (links (wm w) !! (a, l)) →
  private ℓ w (set_links (wm w) (<[(a, l) := x]> (links (wm w)))).
Proof.
  intros Hi Ha Hf Hl. split; simpl; [|apply (i_len _ _ w Hi)|done|by left| |by left].
  - apply heap_ok_set_link; [apply (i_heap _ _ w Hi)|done].
  - intros b l'. destruct (decide ((a, l) = (b, l'))) as [[= <- <-]|Hne].
    + right. split; [done|]. by left.
    + left. by rewrite lookup_insert_ne.
Qed.

Lemma upd_later ℓ w m : inv w → private ℓ w m → later w (upd w m).
Proof. intros Hi Hp. by apply (upd_evolves _ ℓ). Qed.

Lemma wp_store {A} kv a l x (k : unit → prog A) Q ℓ w :
  a ∈ own ℓ →
  (∀ w1, inv w1 → evolves (.∈ own ℓ) w w1 → (a ∉ full w1 l) ∧ is_Some (links (wm w1) !! (a, l))) →
  (∀ w1, inv w1 → evolves (.∈ own ℓ) w w1 → inv (stored w1 a l x) →
    later w (stored w1 a l x) → wp sl tl N kv (k tt) Q ℓ (stored w1 a l x)) →
  wp sl tl N kv (Do (AStore a l x) k) Q ℓ w.
Proof.
  intros Ha Hcell Hk. apply wp_private. intros w1 Hi He _. destruct (Hcell w1 Hi He) as [Hf Hl].
  pose proof (stored_private ℓ w1 a l x Hi Ha Hf Hl) as Hp.
  eexists tt, _, ℓ. split; [simpl; destruct Hl as [y ->]; simpl; reflexivity|].
  split; [exact Hp|]. split.
  - split; simpl; [by left|done|lia|done|apply len_same, (i_len _ _ w1 Hi)|done].
  - apply Hk; [done|done|by eapply upd_inv|].
    eapply evolves_trans; [by eapply evolves_later|]. by apply (upd_later ℓ).
Qed.

Lemma stored_mine ℓ w b l x a v t val top :
  mine ℓ w a v t val top → mine ℓ (stored w b l x) a v t val top.
Proof.
  intros [? ? ? ? ? Hl]. split; simpl; try done. intros l' Hl'. apply Hl in Hl' as [y Hy].
  destruct (decide ((b, l) = (a, l'))) as [->|Hne]; [rewrite lookup_insert_eq; eauto|].
  rewrite lookup_insert_ne by done. eauto.
Qed.

(** [init_links]: the tower of a private node points at the successors. *)
Lemma wp_init_links kv a v t val top ss ℓ : ∀ ls w,
  inv w → mine ℓ w a v t val top → NoDup ls →
  (∀ l, l ∈ ls → (l ≤ top)%nat ∧ is_Some (ss !! l)) →
  wp sl tl N kv (init_links ls a ss) (λ _ ℓ' w', ℓ' = ℓ ∧ inv w' ∧ later w w' ∧
    mine ℓ w' a v t val top ∧
    (∀ l s, l ∈ ls → ss !! l = Some s → links (wm w') !! (a, l) = Some (Link.pack s false)) ∧
    (∀ l, l ∉ ls → links (wm w') !! (a, l) = links (wm w) !! (a, l))) ℓ w.
Proof.
  induction ls as [|l ls IH]; intros w Hi Hm Hnd Hls; cbn [init_links].
  - split_and!; [done|done|apply evolves_refl|done|set_solver|done].
  - destruct (Hls l) as [Hl [s Hs]]; [set_solver|]. unfold index. rewrite Hs.
    cbn [pbind link_store atom]. apply NoDup_cons in Hnd as [Hni Hnd].
    destruct (m_own _ _ _ _ _ _ _ Hm) as [Ha Hv].
    apply wp_store; [done| |].
    { intros w1 Hi1 He1. pose proof (mine_stable _ _ _ _ _ _ _ _ _ Hi He1 Ha Hv Hm) as Hm1.
      split; [by eapply mine_full|]. by apply (m_links _ _ _ _ _ _ _ Hm1). }
    intros w1 Hi1 He1 Hi2 He2. pose proof (mine_stable _ _ _ _ _ _ _ _ _ Hi He1 Ha Hv Hm) as Hm1.
    eapply wp_mono; [|apply IH; [done|by apply stored_mine|done|intros l' Hl'; apply Hls; set_solver]].
    intros _ ℓ' w3 (-> & Hi3 & He3 & Hm3 & Hin & Hout).
    split_and!; [done|done|by eapply evolves_trans|done| |].
    + intros l' s' [->|Hl']%elem_of_cons Hs'; [|by apply Hin]. rewrite Hout by done.
      simpl. rewrite lookup_insert_eq. congruence.
    + intros l' Hl'. rewrite Hout by set_solver. simpl. rewrite lookup_insert_ne by set_solver.
      apply (e_prot_link _ _ _ _ He1); [done|by eapply mine_head|by eapply mine_lv].
Qed.

(** Accesses that leave nodes, links, values and the frontier alone. *)
Definition aside (m m' : Mem) : Prop :=
  nodes m' = nodes m ∧ links m' = links m ∧ values m' = values m ∧ brk m' = brk m.

Lemma aside_private ℓ w m : inv w → aside (wm w) m → is_u64 (len m) → private ℓ w m.
Proof.
  intros Hi (Hn & Hl & Hv & Hb) Hlen. destruct (i_heap _ _ w Hi) as [H1 H2 H3 H4].
  split; [|done|by rewrite Hb|intros; left; by rewrite ?Hn, ?Hl, ?Hv..].
  split; rewrite ?Hb, ?Hn, ?Hl, ?Hv; done.
Qed.

Lemma wp_aside {A R} kv (a : act R) (k : R → prog A) Q ℓ ℓ' w :
  own ℓ' = own ℓ → tok ℓ' = tok ℓ → room ℓ' = room ℓ → eff ℓ' = eff ℓ →
  (∀ w1, inv w1 → evolves (.∈ own ℓ) w w1 → ∃ r m, exec a (wm w1) = Ok (r, m) ∧
    aside (wm w1) m ∧ len m = wrap64 (len (wm w1) + Z.of_nat (debt ℓ) - Z.of_nat (debt ℓ')) ∧
    (inv (upd w1 m) → evolves (.∈ own ℓ) w (upd w1 m) → wp sl tl N kv (k r) Q ℓ' (upd w1 m))) →
  wp sl tl N kv (Do a k) Q ℓ w.
Proof.
  intros Ho Ht Hr He Hk. apply wp_private. intros w1 Hi He1 _.
  destruct (Hk w1 Hi He1) as (r & m & Hx & Hm & Hlen & Hgo).
  assert (Hp : private ℓ w1 m) by (apply aside_private; [done|done|rewrite Hlen; apply wrap64_range]).
  exists r, m, ℓ'. split; [done|]. split; [done|]. destruct Hm as (Hn & Hl & Hv & Hb). split.
  - split; [rewrite Ho; by left|lia|lia|lia|done|done].
  - apply Hgo; [by eapply upd_inv|]. eapply evolves_trans; [exact He1|].
    apply (upd_evolves _ ℓ); [done|done|]. intros b _. by rewrite Hn, Hl, Hv.
Qed.

Lemma wp_retire {A} kv p f (k : unit → prog A) Q ℓ w :
  (∀ w2, inv w2 → evolves (.∈ own ℓ) w w2 → wp sl tl N kv (k tt) Q ℓ w2) →
  wp sl tl N kv (Do (ARetire p f) k) Q ℓ w.
Proof.
  intros Hk. apply (wp_aside _ _ _ _ ℓ ℓ); try done. intros w1 Hi He. eexists tt, _.
  split; [reflexivity|]. split; [by split_and!|]. simpl.
  split; [apply len_same, (i_len _ _ w1 Hi)|]. intros. by apply Hk.
Qed.

(** Counting the node that was linked. *)
Definition paid (ℓ : loc) : loc := mkLoc (own ℓ) (tok ℓ) (room ℓ) 0 (eff ℓ).

Lemma wp_len_add {A} kv (k : unit → prog A) Q ℓ w :
  debt ℓ = 1%nat →
  (∀ w2, inv w2 → evolves (.∈ own ℓ) w w2 → wp sl tl N kv (k tt) Q (paid ℓ) w2) →
  wp sl tl N kv (Do (ALenAdd 1) k) Q ℓ w.
Proof.
  intros Hd Hk. apply (wp_aside _ _ _ _ ℓ (paid ℓ)); try done. intros w1 Hi He. eexists tt, _.
  split; [reflexivity|]. split; [by split_and!|]. simpl.
  split; [rewrite Hd; unfold wadd; f_equal; lia|]. intros. by apply Hk.
Qed.

Lemma wp_random_level {A} kv (k : nat → prog A) Q ℓ w :
  (∀ w2 top, inv w2 → evolves (.∈ own ℓ) w w2 → (top ≤ max_level sl)%nat →
    wp sl tl N kv (k top) Q ℓ w2) →
  wp sl tl N kv (Do (ARandomLevel (max_level sl)) k) Q ℓ w.
Proof.
  intros Hk. apply (wp_aside _ _ _ _ ℓ ℓ); try done. intros w1 Hi He.
  destruct (random_geometric_level_total (max_level sl + 1) (rng (wm w1))
    (Z.of_nat (max_level sl) + 1)) as (lvl & Hx & Hlvl); [lia..|].
  eexists (Z.to_nat (lvl - 1)), _. split; [simpl; unfold random_level; rewrite Hx; reflexivity|].
  split; [by split_and!|]. simpl. split; [apply len_same, (i_len _ _ w1 Hi)|].
  intros. apply Hk; [done|done|lia].
Qed.

(** [free_node] of a node that lost the race at level 0. *)
Lemma wp_free_node {A} kv a v t val top (k : unit → prog A) Q ℓ w :
  inv w → mine ℓ w a v t val top →
  (∀ w2, inv w2 → later w w2 → wp sl tl N kv (k tt) Q ℓ w2) →
  wp sl tl N kv (Do (AFreeNode a) k) Q ℓ w.
Proof.
  intros Hiw Hmw Hk. apply wp_private. intros w1 Hi He _.
  destruct (m_own _ _ _ _ _ _ _ Hmw) as [Ha Hv].
  pose proof (mine_stable _ _ _ _ _ _ _ _ _ Hiw He Ha Hv Hmw) as Hm.
  assert (Hfull := λ l, mine_full _ _ _ _ _ _ _ l Hi Hm). destruct Hm as [_ Hn Hval _ Hpub _].
  destruct (i_heap _ _ w1 Hi) as [H1 H2 H3 H4].
  assert (Hv0 : v ≠ 0) by (destruct (H4 v); [eauto|lia]).
  eexists tt, _, ℓ. split.
  { simpl. unfold free_node. rewrite Hn. simpl. rewrite (proj2 (Z.eqb_neq v 0)) by done.
    unfold free_value. rewrite Hval. simpl. reflexivity. }
  set (m := mkMem _ _ _ _ _ _ _).
  assert (Hlk : ∀ q l, q ≠ a → links m !! (q, l) = links (wm w1) !! (q, l)).
  { intros q l Hq. by apply free_links_lookup. }
  assert (Hp : private ℓ w1 m).
  { split; simpl.
    - split; simpl; [done| | |].
      + intros p Hp. apply H2. destruct Hp as [x [_ Hx]%lookup_delete_Some]. eauto.
      + intros p l Hp. destruct (decide (p = a)) as [->|Hne]; [by apply H2; eauto|].
        apply (H3 p l). rewrite <- (Hlk p l Hne). done.
      + intros u Hu. apply H4. destruct Hu as [x [_ Hx]%lookup_delete_Some]. eauto.
    - apply (i_len _ _ w1 Hi).
    - done.
    - intros b. destruct (decide (b = a)) as [->|Hne]; [right; split; [done|by left]|].
      left. by rewrite lookup_delete_ne.
    - intros b l. destruct (decide (b = a)) as [->|Hne]; [right; split; [done|by left]|].
      left. by apply Hlk.
    - intros u. destruct (decide (u = v)) as [->|Hne]; [right; split; [done|by left]|].
      left. by rewrite lookup_delete_ne. }
  split; [done|]. split.
  - split; simpl; [by left|done|lia|done|apply len_same, (i_len _ _ w1 Hi)|done].
  - apply Hk; [by eapply upd_inv|]. eapply evolves_trans; [by eapply evolves_later|]. by apply (upd_later ℓ).
Qed.

(** ** Linking a node at one level *)

Lemma full_split w l A p c B :
  full w l = A ++ p :: c :: B →
  ∃ X Y, lv w l = X ++ Y ∧ A ++ [p] = head sl :: X ∧ c :: B = Y ++ [tl].
Proof.
  unfold SkipListConc.full. intros Hf.
  assert (Hcb : ∃ Y z, c :: B = Y ++ [z]).
  { destruct (exists_last (l := c :: B)) as (Y & z & ->); [done|eauto]. }
  destruct Hcb as (Y & z & Hcb). destruct A as [|h A]; simpl in Hf; injection Hf as <- Hf.
  - rewrite Hcb in Hf. apply app_inj_2 in Hf as [-> [= ->]]; [|done]. exists [], Y. done.
  - replace (A ++ p :: c :: B) with ((A ++ [p] ++ Y) ++ [z]) in Hf.
    + apply app_inj_2 in Hf as [-> [= ->]]; [|done]. exists (A ++ [p]), Y.
      split; [by rewrite <- app_assoc|done].
    + rewrite Hcb. by rewrite <- !app_assoc.
Qed.

Lemma alt_trans m a b c : alt m a b → alt m b c → alt m a c.
Proof.
  intros (na & nb & H1 & H2 & H3) (nb' & nc & H4 & H5 & H6). simplify_eq.
  exists na, nc. split_and!; [done..|]. by eapply bk_lt_trans.
Qed.

Lemma sorted_insert m A p a c B :
  StronglySorted (alt m) (A ++ p :: c :: B) → alt m p a → alt m a c →
  StronglySorted (alt m) (A ++ p :: a :: c :: B).
Proof.
  intros Hs Hp Hc. induction A as [|x A IH]; simpl in *; inversion_clear Hs as [|? ? Hs' Hf].
  - pose proof Hs' as Hcb. inversion_clear Hs' as [|? ? Hs Hfc].
    constructor; [constructor; [done|constructor; [done|]]|by constructor].
    rewrite Forall_forall in Hfc |- *. intros b Hb. eapply alt_trans; [exact Hc|by apply Hfc].
  - constructor; [by apply IH|]. rewrite Forall_app, !Forall_cons in Hf.
    rewrite Forall_app, !Forall_cons.
    destruct Hf as (? & Hxp & ? & ?). split_and!; try done. exact (alt_trans m x p a Hxp Hp).
Qed.

Lemma sorted_incl m xs ys :
  StronglySorted (alt m) xs → StronglySorted (alt m) ys → (∀ x, x ∈ xs → x ∈ ys) → sublist xs ys.
Proof.
  intros Hx Hy. revert xs Hx. induction Hy as [|y ys Hy IH Hf]; intros xs Hx Hin.
  - destruct xs as [|x xs]; [constructor|]. specialize (Hin x). set_solver.
  - destruct xs as [|x xs]; [apply sublist_nil_l|].
    inversion_clear Hx as [|? ? Hx' Hfx]. rewrite Forall_forall in Hf, Hfx.
    destruct (decide (x = y)) as [->|Hne].
    + apply sublist_skip, IH; [done|]. intros z Hz.
      assert (Hzy : z ∈ y :: ys) by (apply Hin; set_solver).
      apply elem_of_cons in Hzy as [->|?]; [|done]. exfalso. by eapply alt_irrefl, Hfx.
    + apply sublist_cons, IH; [by constructor; [|apply Forall_forall]|].
      assert (Hxy : x ∈ ys).
      { assert (H : x ∈ y :: ys) by (apply Hin; set_solver). by apply elem_of_cons in H as [?|?]. }
      intros z Hz. pose proof (Hin z Hz) as [->|?]%elem_of_cons; [|done]. exfalso.
      apply elem_of_cons in Hz as [?|Hz]; [done|].
      eapply alt_irrefl, alt_trans; [by apply Hf, Hxy|by apply Hfx].
Qed.

(** The world after [a] has been put between [p] and [c] at level [l]. *)
Definition spliced (w : world) (l : nat) (p a : Z) (X Y : list Z) (pb : gset Z)
    (h : list store_map) : world :=
  mkWorld (set_links (wm w) (<[(p, l) := Link.pack a false]> (links (wm w))))
    (λ j, if decide (j = l) then X ++ a :: Y else lv w j) pb h.

Section splice.
Context (w : world) (l : nat) (A : list Z) (p c : Z) (B X Y : list Z) (a v : Z) (t : bytes) (top : nat).
Context (Hi : inv w) (Hl : (l ≤ max_level sl)%nat).
Context (Hf : full w l = A ++ p :: c :: B).
Context (HXY : lv w l = X ++ Y) (HX : A ++ [p] = head sl :: X) (HY : c :: B = Y ++ [tl]).
Context (Hn : nodes (wm w) !! a = Some (mkNode (fin t) v top)) (Htop : (top ≤ max_level sl)%nat).
Context (Hout : a ∉ lv w l) (Hlink : links (wm w) !! (a, l) = Some (Link.pack c false)).
Context (Hpa : alt (wm w) p a) (Hac : alt (wm w) a c).
Context (Hbelow : l ≠ 0%nat → a ∈ lv w (Nat.pred l)).

Lemma spliced_full pb h : full (spliced w l p a X Y pb h) l = A ++ p :: a :: c :: B.
Proof.
  unfold SkipListConc.full. simpl. rewrite decide_True by done.
  change (head sl :: (X ++ a :: Y) ++ [tl]) with ((head sl :: X ++ a :: Y) ++ [tl]).
  rewrite app_comm_cons, <- HX, <- !app_assoc. simpl. by rewrite HY.
Qed.

Lemma spliced_sorted : StronglySorted (alt (wm w)) (A ++ p :: a :: c :: B).
Proof. apply sorted_insert; [|done|done]. rewrite <- Hf. by apply full_sorted. Qed.

Lemma last_of_prefix : lastd (head sl) X = p.
Proof.
  assert (Hl' : ∀ zs z h xs, zs ++ [z] = h :: xs → lastd h xs = z).
  { clear. intros zs. induction zs as [|y zs IH]; intros z h xs He; simplify_list_eq; [done|].
    destruct zs as [|y' zs]; simpl in *; [done|]. by apply (IH z y'). }
  by eapply Hl'.
Qed.

Lemma spliced_chain pb h j : (j ≤ max_level sl)%nat →
  chain (wm (spliced w l p a X Y pb h)) j unmarked (head sl)
    (lv (spliced w l p a X Y pb h) j ++ [tl]).
Proof.
  intros Hj. simpl. case_decide as Hd.
  - subst j. rewrite <- app_assoc. simpl.
    pose proof (i_chain _ _ w Hi l Hl) as Hc. rewrite HXY, <- app_assoc in Hc.
    eapply chain_relink; [exact Hc| |done| | |].
    + apply chain_app in Hc as [_ Hc]. rewrite <- HY in Hc |- *. split; [done|]. apply Hc.
    + pose proof (sorted_nodup _ _ spliced_sorted) as Hnd.
      replace (head sl :: X ++ a :: Y ++ [tl]) with (A ++ p :: a :: c :: B); [done|].
      rewrite app_comm_cons, <- HX, <- HY, <- app_assoc. done.
    + rewrite last_of_prefix. simpl. by rewrite lookup_insert_eq.
    + intros q Hq. simpl. rewrite lookup_insert_ne; [done|]. rewrite last_of_prefix in Hq. congruence.
  - eapply chain_ext; [|by apply (i_chain _ _ w Hi)]. intros q _. split; [|done].
    simpl. rewrite lookup_insert_ne; [done|]. congruence.
Qed.

Lemma spliced_sub pb h j :
  sublist (lv (spliced w l p a X Y pb h) (S j)) (lv (spliced w l p a X Y pb h) j).
Proof.
  pose proof spliced_sorted as Hss. simpl. assert (Hmid : sublist (X ++ Y) (X ++ a :: Y)).
  { apply sublist_app; [done|]. by apply sublist_cons. }
  repeat case_decide; subst; try lia.
  - simpl in Hbelow. apply (sorted_incl (wm w)).
    + eapply sorted_sublist; [|exact Hss].
      replace (A ++ p :: a :: c :: B) with (head sl :: (X ++ a :: Y) ++ [tl]).
      * apply sublist_cons, sublist_inserts_r. done.
      * rewrite <- app_assoc, app_comm_cons, <- HX, <- app_assoc. simpl. by rewrite HY.
    + eapply sorted_sublist; [|by apply (full_sorted sl tl w j)].
      apply sublist_cons, sublist_inserts_r. done.
    + intros x Hx. assert (Hx' : x = a ∨ x ∈ lv w (S j)) by (rewrite HXY; set_solver).
      destruct Hx' as [->|Hx']; [by apply Hbelow|].
      eapply elem_of_sublist; [exact Hx'|apply (i_sub _ _ w Hi)].
  - etrans; [apply (i_sub _ _ w Hi)|]. by rewrite HXY.
  - apply (i_sub _ _ w Hi).
Qed.

Lemma pred_not_tail : p ≠ tl.
Proof.
  intros ->. destruct Hpa as (n1 & n2 & H1 & H2 & H3).
  rewrite (i_tail _ _ w Hi) in H1. simplify_eq. done.
Qed.

Lemma pred_linked : p ∈ head sl :: lv w l.
Proof. rewrite HXY, app_comm_cons, <- HX. set_solver. Qed.

Lemma in_spliced pb h j b : b ∈ lv (spliced w l p a X Y pb h) j ↔ b ∈ lv w j ∨ j = l ∧ b = a.
Proof. simpl. case_decide as Hd; [subst j; rewrite HXY|]; set_solver. Qed.

Lemma spliced_inv pb h M :
  v ∈ pb → pub w ⊆ pb → (∀ u, u ∈ pb → is_Some (values (wm w) !! u)) → last h = Some M →
  holds (wm w) (lv (spliced w l p a X Y pb h) 0) M → inv (spliced w l p a X Y pb h).
Proof.
  intros Hv Hpub Hpv Hh HM. split; try done.
  - apply (i_height _ _ w Hi).
  - apply heap_ok_set_link; [apply (i_heap _ _ w Hi)|]. by erewrite full_link.
  - apply (i_len _ _ w Hi).
  - apply (i_head _ _ w Hi).
  - apply (i_tail _ _ w Hi).
  - intros j Hj. simpl. rewrite lookup_insert_ne; [by apply (i_tail_links _ _ w Hi)|].
    pose proof pred_not_tail. congruence.
  - intros b [Hb|[<- ->]]%in_spliced; [|eauto 10].
    destruct (i_nodes _ _ w Hi b Hb) as (k & u & tp & ? & ? & ?). exists k, u, tp.
    split_and!; [done..|set_solver].
  - destruct (decide (l = 0%nat)) as [Hl0|Hl0].
    + assert (Hfl := spliced_full pb h). rewrite Hl0 in Hfl |- * at 2. rewrite Hfl.
      apply spliced_sorted.
    + unfold SkipListConc.full. simpl. rewrite decide_False by done. apply (i_sorted _ _ w Hi).
  - apply spliced_sub.
  - apply spliced_chain.
  - by exists M.
Qed.

Lemma spliced_evolves (P : Z → Prop) pb h :
  (∀ b, P b → b ≠ a) → pub w ⊆ pb → (∀ u, P u → u ∉ pub w → u ∉ pb) → hist w `prefix_of` h →
  evolves P w (spliced w l p a X Y pb h).
Proof.
  intros HP Hpub HPv Hh. pose proof pred_linked as Hpl. split; try done.
  - intros j. simpl. case_decide; [|done]. subst j. rewrite HXY.
    apply sublist_app; [done|]. by apply sublist_cons.
  - intros b n _ Hb. exists (value n). simpl. rewrite Hb. by destruct n.
  - intros b j Hb Hbh Hnb. split.
    + rewrite in_spliced. intros [?|[_ ?]]; [done|]. by eapply HP.
    + simpl. rewrite lookup_insert_ne; [done|]. intros [= -> ->].
      by apply elem_of_cons in Hpl as [?|?].
  - intros u Hu Hnu. split; [by apply HPv|done].
Qed.

End splice.

(** ** The compare-and-swap *)

Lemma pack_inj x y : taggable x → taggable y → Link.pack x false = Link.pack y false → x = y.
Proof. intros Hx Hy He. rewrite <- (ptr_of_pack x false), <- (ptr_of_pack y false) by done. by rewrite He. Qed.

(** What a compare-and-swap of the link [p -> c] finds: the link as it was read,
    or a level that has grown since. *)
Lemma cas_view s w l n p c t :
  inv w → (l ≤ max_level sl)%nat → walk sl tl s w l 0 n p c t →
  (∃ A B, full w l = A ++ p :: c :: B ∧ links (wm w) !! (p, l) = Some (Link.pack c false)) ∨
  (∃ x, links (wm w) !! (p, l) = Some x ∧ x ≠ Link.pack c false ∧ (n < length (lv w l))%nat).
Proof.
  intros Hi Hl [Hh _]. pose proof (hop_elem _ _ _ _ _ _ _ _ Hh) as [_ Hc].
  destruct (full_next sl tl w l p) as (A & c' & B & Hf); [by eapply hop_pred|].
  assert (Hlk := full_link sl tl w l A p c' B Hi Hl Hf).
  destruct (decide (c' = c)) as [->|Hne]; [left; eauto|]. right.
  exists (Link.pack c' false). split; [done|]. split.
  - intros He. apply Hne. apply pack_inj; [..|done]; eapply full_taggable; [done| |done|done].
    rewrite Hf. set_solver.
  - destruct Hh as (A' & B1 & B2 & Hf' & _ & Hn & Hd).
    destruct (decide (length (lv w l) = n)) as [Heq|]; [|lia]. exfalso. apply Hne.
    rewrite (Hd Heq) in Hf'. simpl in Hf'.
    destruct (nodup_split A p (c' :: B) A' (c :: B2)) as [_ [= ]]; [| |done].
    + rewrite <- Hf. by apply full_nodup.
    + by rewrite <- Hf, <- Hf'.
Qed.

(** A node linked below level [j] and not yet from [j] on. *)
Record rising (ℓ : loc) (w : world) (a : Z) (t : bytes) (top j : nat) : Prop := mkRising {
  r_own : a ∈ own ℓ;
  r_in : a ∈ lv w 0 ∧ a ∈ lv w (Nat.pred j);
  r_node : ∃ v, nodes (wm w) !! a = Some (mkNode (fin t) v top);
  r_up : ∀ l, (j ≤ l ≤ top)%nat → (a ∉ lv w l) ∧ is_Some (links (wm w) !! (a, l))
}.

Lemma rising_head ℓ w a t top j : inv w → rising ℓ w a t top j → a ≠ head sl.
Proof.
  intros Hi Hr ->. destruct (r_node _ _ _ _ _ _ Hr) as [v Hn]. rewrite (i_head _ _ w Hi) in Hn. done.
Qed.

Lemma rising_stable ℓ w w' a t top j :
  inv w → evolves (.∈ own ℓ) w w' → rising ℓ w a t top j → rising ℓ w' a t top j.
Proof.
  intros Hi He Hr. pose proof (rising_head _ _ _ _ _ _ Hi Hr) as Hh.
  destruct Hr as [Ho [H0 Hj] [v Hn] Hup]. split; [done| | |].
  - split; by eapply in_lv_stable.
  - by destruct (e_node _ _ _ _ He a _ H0 Hn) as [v' Hv]; eauto.
  - intros l Hl. destruct (Hup l Hl) as [Hout Hl']. 
    destruct (e_prot_link _ _ _ _ He a l Ho Hh Hout) as [? ->]. done.
Qed.

Lemma rising_key ℓ w a t top j : rising ℓ w a t top j → key_at w a (fin t).
Proof. intros Hr. destruct (r_node _ _ _ _ _ _ Hr) as [v Hn]. by eexists. Qed.

(** The successor found at a level where the node is missing comes after it. *)
Lemma rising_succ ℓ w a t top j c :
  inv w → rising ℓ w a t top j → (j ≤ top)%nat → c ∈ full w j → stopped w c t → alt (wm w) a c.
Proof.
  intros Hi Hr Hj Hc (bc & Kc & Hge). destruct (r_node _ _ _ _ _ _ Hr) as [v Hn].
  destruct (key_eq bc t) eqn:Hk.
  - exfalso. destruct (node_shared sl tl w c bc t Hi) as [Hin ->]; [|done|done|].
    { eapply elem_of_sublist; [exact Hc|by apply full_sub]. }
    assert (c = a) as ->.
    { eapply (key_unique sl tl w c a); [done|by apply full_lv|apply full_lv, (r_in _ _ _ _ _ _ Hr)|done|].
      by eapply rising_key. }
    destruct (r_up _ _ _ _ _ _ Hr j) as [Hout _]; [lia|]. apply Hout.
    unfold SkipListConc.full in Hc. rewrite elem_of_cons, elem_of_app, list_elem_of_singleton in Hc.
    destruct Hc as [->|[?| ->]]; [|done|].
    + by apply (rising_head _ _ _ _ _ _ Hi) in Hr.
    + rewrite (i_tail _ _ w Hi) in Hn. done.
  - destruct Kc as (nc & Hnc & <-). exists (mkNode (fin t) v top), nc. split_and!; [done..|].
    by apply key_ge_bk.
Qed.

Lemma walk_alt s w l r n p c t a v top :
  walk sl tl s w l r n p c t → nodes (wm w) !! a = Some (mkNode (fin t) v top) → alt (wm w) p a.
Proof.
  intros [_ (bp & bc & (np & Hp & <-) & _ & Hlt & _)] Hn. exists np, (mkNode (fin t) v top). done.
Qed.

(** A compare-and-swap that finds another value reads only. *)
Lemma cas_fails m p l x old new :
  links m !! (p, l) = Some x → x ≠ old → exec (ACas p l old new) m = Ok (false, m).
Proof. intros Hx Hne. simpl. rewrite Hx. simpl. by rewrite (proj2 (Z.eqb_neq _ _)). Qed.

Lemma cas_wins m p l x new :
  links m !! (p, l) = Some x →
  exec (ACas p l x new) m = Ok (true, set_links m (<[(p, l) := new]> (links m))).
Proof. intros Hx. simpl. rewrite Hx. simpl. by rewrite Z.eqb_refl. Qed.

(** The step that links [a] at an upper level [l] between [p] and [c]. *)
Lemma splice_step kv ℓ w l A p c B a t top :
  inv w → (l ≠ 0)%nat → (l ≤ top)%nat → (top ≤ max_level sl)%nat →
  full w l = A ++ p :: c :: B → rising ℓ w a t top l →
  links (wm w) !! (a, l) = Some (Link.pack c false) → alt (wm w) p a → alt (wm w) a c →
  ∃ w2, wm w2 = set_links (wm w) (<[(p, l) := Link.pack a false]> (links (wm w))) ∧
    inv w2 ∧ guar sl kv ℓ w ℓ w2 ∧ later w w2 ∧ rising ℓ w2 a t top (S l).
Proof.
  intros Hi Hl0 Hlt Htop Hf Hr Hal Hpa Hac.
  destruct (r_up _ _ _ _ _ _ Hr l) as [Hout _]; [lia|].
  destruct (r_node _ _ _ _ _ _ Hr) as [v Hn]. destruct (r_in _ _ _ _ _ _ Hr) as [Hin0 Hinp].
  destruct (full_split w l A p c B Hf) as (X & Y & HXY & HX & HY).
  destruct (i_hist _ _ w Hi) as (M & HM & Hhold). assert (Hl : (l ≤ max_level sl)%nat) by lia.
  set (w2 := spliced w l p a X Y (pub w) (hist w ++ [M])).
  assert (Hi2 : inv w2).
  { eapply (spliced_inv w l A p c B X Y a v t top Hi Hl Hf HXY HX HY Hn Htop Hout Hal Hpa Hac (λ _, Hinp) _ _ M);
      [|done|apply (i_pub _ _ w Hi)|apply last_snoc|].
    - destruct (i_nodes _ _ w Hi a Hin0) as (k' & v' & t' & Hn' & _ & Hp). by simplify_eq.
    - simpl. by rewrite decide_False by done. }
  assert (Hev : ∀ P : Z → Prop, (∀ b, P b → b ≠ a) → evolves P w w2).
  { intros P HP. eapply spliced_evolves; try done. by eexists. }
  assert (Hin2 : ∀ j b, b ∈ lv w2 j ↔ b ∈ lv w j ∨ j = l ∧ b = a) by (intros j b; by eapply in_spliced).
  assert (Hsame : lv w2 0 = lv w 0) by (simpl; by rewrite decide_False).
  exists w2. split_and!; [done|done| |by apply Hev|].
  - split; rewrite ?Hsame; [|by left|done|done|done| |].
    + apply Hev. intros b [_ Hb'] ->. apply Hb', (r_own _ _ _ _ _ _ Hr).
    + simpl. rewrite wrap64_small; [lia|]. replace (_ - _) with (len (wm w)) by lia. apply (i_len _ _ w Hi).
    + exists M. split; [done|]. by left.
  - split; [apply (r_own _ _ _ _ _ _ Hr)| |by exists v|].
    + split; apply Hin2; [by left|by right].
    + intros j Hj. destruct (r_up _ _ _ _ _ _ Hr j) as [Hjo Hjl]; [lia|]. split.
      * rewrite Hin2. intros [?|[? _]]; [done|lia].
      * simpl. rewrite lookup_insert_ne; [done|]. intros [= _ ->]. lia.
Qed.

Lemma wp_cas_upper {A} kv (k : bool → prog A) Q ℓ w s l n p c a t top :
  inv w → (l ≠ 0)%nat → (l ≤ max_level sl)%nat → (l ≤ top)%nat → (top ≤ max_level sl)%nat →
  walk sl tl s w l 0 n p c t → stopped w c t → rising ℓ w a t top l →
  links (wm w) !! (a, l) = Some (Link.pack c false) →
  (∀ w2, inv w2 → later w w2 → rising ℓ w2 a t top (S l) → wp sl tl N kv (k true) Q ℓ w2) →
  (∀ w2, inv w2 → evolves (.∈ own ℓ) w w2 → (n < length (lv w2 l) ≤ N)%nat →
    wp sl tl N kv (k false) Q ℓ w2) →
  wp sl tl N kv (Do (ACas p l (Link.pack c false) (Link.pack a false)) k) Q ℓ w.
Proof.
  intros Hiw Hl0 Hl Hlt Htop Hww Hstw Hrw Hlkw Hwin Hlose w1 Hi He [Hb _].
  pose proof (walk_stable _ _ _ _ _ _ _ _ _ _ _ _ Hiw Hi He Hww) as Hw.
  pose proof (hop_elem _ _ _ _ _ _ _ _ (proj1 Hww)) as [_ Hcw].
  pose proof (stopped_stable _ _ _ _ _ _ _ _ Hiw Hi He Hcw Hstw) as Hst.
  pose proof (rising_stable _ _ _ _ _ _ _ Hiw He Hrw) as Hr.
  destruct (cas_view s w1 l n p c t Hi Hl Hw) as [(A' & B & Hf & Hlk)|(x & Hlk & Hne & Hgrew)].
  - destruct (r_up _ _ _ _ _ _ Hrw l) as [Houtw _]; [lia|].
    destruct (r_node _ _ _ _ _ _ Hr) as [v Hn].
    destruct (splice_step kv ℓ w1 l A' p c B a t top) as (w2 & Hm2 & Hi2 & Hg & He2 & Hr2); try done.
    + destruct (e_prot_link _ _ _ _ He a l (r_own _ _ _ _ _ _ Hrw)
        (rising_head _ _ _ _ _ _ Hiw Hrw) Houtw) as [_ ->]. done.
    + by eapply walk_alt.
    + eapply rising_succ; [done|exact Hr|done|rewrite Hf; set_solver|done].
    + exists true, ℓ, w2. rewrite Hm2. split_and!; [by apply cas_wins|done|done|].
      apply Hwin; [done| |done]. eapply evolves_trans; [by eapply evolves_later|done].
  - exists false, ℓ, (tick w1). split; [by eapply cas_fails|].
    split; [by apply tick_inv|]. split; [by eapply tick_guar|].
    apply Hlose; [by apply tick_inv|by apply evolves_tick|]. simpl.
    pose proof (lv_length _ _ w1 l Hi). lia.
Qed.

(** ** The upper levels *)

Lemma rising_full ℓ w a t top j l : inv w → rising ℓ w a t top j → (j ≤ l ≤ top)%nat → a ∉ full w l.
Proof.
  intros Hi Hr Hl. destruct (r_up _ _ _ _ _ _ Hr l Hl) as [Hout _].
  destruct (r_node _ _ _ _ _ _ Hr) as [v Hn]. unfold SkipListConc.full.
  rewrite elem_of_cons, elem_of_app, list_elem_of_singleton. intros [->|[Ha| ->]]; [|done|].
  - rewrite (i_head _ _ w Hi) in Hn. done.
  - rewrite (i_tail _ _ w Hi) in Hn. done.
Qed.

Lemma stored_rising ℓ w b l x a t top j :
  rising ℓ w a t top j → rising ℓ (stored w b l x) a t top j.
Proof.
  intros [? ? ? Hup]. split; try done. intros l' Hl'. destruct (Hup l' Hl') as [? [y Hy]].
  split; [done|]. simpl. destruct (decide ((b, l) = (a, l'))) as [->|Hne].
  - rewrite lookup_insert_eq. eauto.
  - rewrite lookup_insert_ne by done. eauto.
Qed.

(** The two arrays hold a place for every level from [j] on. *)
Definition arrays (s : nat) (w : world) (t : bytes) (ps ss : list Z) (j : nat) : Prop :=
  length ps = MAX_HEIGHT ∧ length ss = MAX_HEIGHT ∧
  ∀ l, (j ≤ l ≤ max_level sl)%nat → located_at sl tl s w t ps ss l 0.

Lemma arrays_later s w w' t ps ss j j' :
  inv w → inv w' → later w w' → (j ≤ j')%nat → arrays s w t ps ss j → arrays s w' t ps ss j'.
Proof.
  intros Hi Hi' He Hj (Hp & Hs & Hl). split_and!; [done..|]. intros l Hl'.
  eapply located_stable; [exact Hi|exact Hi'|exact He|]. apply Hl. lia.
Qed.

Lemma located_weaken s w t ps ss l n0 n1 :
  (n1 ≤ n0)%nat → located_at sl tl s w t ps ss l n0 → located_at sl tl s w t ps ss l n1.
Proof. intros Hn (p & c & n & ? & ? & ? & ?). exists p, c, n. split_and!; try tauto. lia. Qed.

(** Linking one upper level: every failed attempt means that the level grew. *)
Lemma wp_link_upper kv s t a top l ℓ fuel : (N + 2 ≤ fuel)%nat →
  (l ≠ 0)%nat → (l ≤ top)%nat → (top ≤ max_level sl)%nat →
  ∀ tries n0 ps ss w, inv w → (s < length (hist w))%nat → rising ℓ w a t top l →
  arrays s w t ps ss l → located_at sl tl s w t ps ss l n0 →
  (n0 ≤ N)%nat → (N + 1 ≤ tries + n0)%nat →
  wp sl tl N kv (link_upper fuel tries sl t a l ps ss) (λ o ℓ' w', ℓ' = ℓ ∧ inv w' ∧ later w w' ∧
    rising ℓ w' a t top (S l) ∧ arrays s w' t o.1 o.2 (S l)) ℓ w.
Proof.
  intros Hf Hl0 Hlt Htop. induction tries as [|tries IH];
    intros n0 ps ss w Hi Hs Hr Har (p & c & n & Hp & Hc & Hn & Hw & Hst) HnN Hm; [lia|].
  cbn [link_upper]. unfold index. rewrite Hp, Hc. cbn [pbind link_store link_cas atom].
  pose proof (r_own _ _ _ _ _ _ Hr) as Ho.
  apply wp_store; [done| |].
  { intros w1 Hi1 He1. pose proof (rising_stable _ _ _ _ _ _ _ Hi He1 Hr) as Hr1.
    split; [eapply rising_full; [done|exact Hr1|lia]|]. apply (r_up _ _ _ _ _ _ Hr1). lia. }
  intros w1 Hi1 He1 Hi2 He2. set (w2 := stored _ _ _ _) in *.
  pose proof (stored_rising _ _ a l (Link.pack c false) _ _ _ _ (rising_stable _ _ _ _ _ _ _ Hi He1 Hr)) as Hr2.
  fold w2 in Hr2. pose proof (hop_elem _ _ _ _ _ _ _ _ (proj1 Hw)) as [_ Hcf].
  pose proof (hist_later _ _ _ _ _ He2 Hs) as Hs2.
  eapply (wp_cas_upper _ _ _ _ w2 s l n p c a t top); try done; [lia| | | | |].
  - exact (walk_stable _ _ _ _ _ _ _ _ _ _ _ _ Hi Hi2 He2 Hw).
  - exact (stopped_stable _ _ _ _ _ _ _ _ Hi Hi2 He2 Hcf Hst).
  - simpl. by rewrite lookup_insert_eq.
  - intros w3 Hi3 He3 Hr3. simpl. split_and!; [done|done|by eapply evolves_trans|done|].
    eapply arrays_later; [exact Hi|exact Hi3|by eapply evolves_trans| |exact Har]. lia.
  - intros w3 Hi3 He3 [Hg HgN]. destruct Har as (Hlp & Hls & _). apply wp_bind.
    pose proof (i_height _ _ w Hi) as Hh. pose proof (hist_later _ _ _ _ _ He3 Hs2) as Hs3.
    eapply wp_mono; [|apply (wp_find sl tl N kv s t ℓ fuel w3 ps ss); try done; lia].
    intros [[b ps'] ss'] ℓ' w4 (ps4 & ss4 & s0 & bk & [= -> -> ->] & -> & Hi4 & He4 & Hp4 & Hs4 & _ & _ & Hloc).
    assert (He04 : later w w4).
    { eapply evolves_trans; [exact He2|]. eapply evolves_trans; by eapply evolves_later. }
    eapply wp_mono; [|apply (IH (length (lv w3 l)) ps4 ss4 w4)]; try done; try lia.
    + intros o ℓ' w5 (-> & Hi5 & He5 & Hrest). split_and!; try tauto. by eapply evolves_trans.
    + exact (hist_later _ _ _ _ _ He04 Hs).
    + eapply rising_stable; [|exact He4|]; [done|]. eapply rising_stable; [|exact He3|]; done.
    + split_and!; [lia|lia|]. intros l' Hl'. eapply located_weaken; [|apply Hloc]; lia.
    + apply Hloc. lia.
Qed.

Lemma wp_link_uppers kv s t a top ℓ fuel : (N + 2 ≤ fuel)%nat → (top ≤ max_level sl)%nat →
  ∀ n l ps ss w, inv w → (s < length (hist w))%nat → (l ≠ 0)%nat → (l + n = S top)%nat →
  rising ℓ w a t top l → arrays s w t ps ss l →
  wp sl tl N kv (link_uppers fuel sl t a (seq l n) ps ss) (λ _ ℓ' w',
    ℓ' = ℓ ∧ inv w' ∧ later w w') ℓ w.
Proof.
  intros Hf Htop. induction n as [|n IH]; intros l ps ss w Hi Hs Hl0 Hl Hr Har; cbn [seq link_uppers].
  - split_and!; [done|done|apply evolves_refl].
  - apply wp_bind. eapply wp_mono; [|apply (wp_link_upper kv s t a top l ℓ fuel Hf Hl0) with (n0 := 0%nat)];
      try done; try lia.
    + intros [ps' ss'] ℓ' w1 (-> & Hi1 & He1 & Hr1 & Har1).
      eapply wp_mono; [|apply (IH (S l) ps' ss' w1)]; try done; try lia.
      * intros _ ℓ' w2 (-> & Hi2 & He2). split_and!; [done|done|by eapply evolves_trans].
      * exact (hist_later _ _ _ _ _ He1 Hs).
    + destruct Har as (_ & _ & Hloc). apply Hloc. lia.
Qed.

(** ** The steps that change the map *)

(** The operation on [t] took effect at some instant since [s], and [b] says
    whether the key was new then. *)
Definition took_effect (s : nat) (ℓ : loc) (w : world) (t : bytes) (b : bool) : Prop :=
  ∃ u M, eff ℓ = Some u ∧ (s ≤ u)%nat ∧ hist w !! u = Some M ∧ b = bool_decide (M !! t = None).

(** The ghost state once the operation has taken effect at the next step. *)
Definition effected (ℓ : loc) (w : world) (d : nat) : loc :=
  mkLoc (own ℓ) 0 (room ℓ) d (Some (length (hist w) - 1)%nat).

Lemma effected_took s ℓ w d t M ms m L pb :
  (s < length (hist w))%nat → last (hist w) = Some M →
  took_effect s (effected ℓ w d) (mkWorld m L pb (hist w ++ ms)) t (bool_decide (M !! t = None)).
Proof.
  intros Hs HM. exists (length (hist w) - 1)%nat, M. split_and!; [done|lia| |done]. simpl.
  apply lookup_app_l_Some. rewrite last_lookup in HM.
  by replace (length (hist w) - 1)%nat with (pred (length (hist w))) by lia.
Qed.

Lemma took_later s ℓ w w' t b : later w w' → took_effect s ℓ w t b → took_effect s ℓ w' t b.
Proof.
  intros He (u & M & Hu & Hs & HM & Hb). exists u, M. split_and!; [done..| |done].
  destruct (e_hist _ _ _ _ He) as [ms ->]. by apply lookup_app_l_Some.
Qed.

Lemma holds_add m L X Y a v t val top M :
  L = X ++ Y → nodes m !! a = Some (mkNode (fin t) v top) → values m !! v = Some val →
  M !! t = None → holds m L M → holds m (X ++ a :: Y) (<[t := val]> M).
Proof.
  intros -> Hn Hv HM Hh k bs. rewrite lookup_insert_Some. split.
  - intros [[<- <-]|[Hne Hk]]; [exists a, v, top; set_solver|].
    apply Hh in Hk as (b & u & tp & Hb & ?). exists b, u, tp. set_solver.
  - intros (b & u & tp & Hb & Hnb & Hvb).
    assert (Hb' : b = a ∨ b ∈ X ++ Y) by set_solver. destruct Hb' as [->|Hb'].
    + left. rewrite Hn in Hnb. injection Hnb as Hk <- <-.
      apply (f_equal as_bytes) in Hk. rewrite !as_bytes_new in Hk. by simplify_eq.
    + right. assert (Hk : M !! k = Some bs) by (apply Hh; eauto 10).
      split; [congruence|done].
Qed.

(** The step that links [a] at level 0, and so adds its key to the map. *)
Lemma publish_step s ℓ w A p c B a v t val top bp bc :
  inv w → (s < length (hist w))%nat → (top ≤ max_level sl)%nat →
  tok ℓ = 1%nat → debt ℓ = 0%nat → eff ℓ = None → full w 0 = A ++ p :: c :: B →
  key_at w p bp → bk_lt bp (fin t) → key_at w c bc → bk_lt (fin t) bc →
  mine ℓ w a v t val top → links (wm w) !! (a, 0%nat) = Some (Link.pack c false) →
  ∃ w2, wm w2 = set_links (wm w) (<[(p, 0%nat) := Link.pack a false]> (links (wm w))) ∧
    inv w2 ∧ guar sl (Some (t, val)) ℓ w (effected ℓ w 1) w2 ∧ later w w2 ∧
    rising (effected ℓ w 1) w2 a t top 1 ∧ took_effect s (effected ℓ w 1) w2 t true.
Proof.
  intros Hi Hs Htop Htok Hdebt Heff Hf Kp Hlt Kc Hgt Hm Hal.
  assert (Hlv := λ l, mine_lv _ _ _ _ _ _ _ l Hi Hm). destruct Hm as [[Ha Hv] Hn Hval Hout Hpub Hlinks].
  destruct (full_split w 0 A p c B Hf) as (X & Y & HXY & HX & HY).
  destruct (i_hist _ _ w Hi) as (M & HM & Hhold).
  assert (HMt : M !! t = None) by (by eapply (near_absent sl tl w A p c B bp bc)).
  assert (Hpa : alt (wm w) p a).
  { destruct Kp as (np & Hnp & <-). exists np, (mkNode (fin t) v top). done. }
  assert (Hac : alt (wm w) a c).
  { destruct Kc as (nc & Hnc & <-). exists (mkNode (fin t) v top), nc. done. }
  set (w2 := spliced w 0 p a X Y ({[v]} ∪ pub w) (hist w ++ [<[t := val]> M])).
  assert (Hi2 : inv w2).
  { eapply (spliced_inv w 0 A p c B X Y a v t top Hi ltac:(lia) Hf HXY HX HY Hn Htop Hout Hal Hpa Hac
      ltac:(done) _ _ (<[t := val]> M)); [set_solver|set_solver| |apply last_snoc|by eapply holds_add].
    intros u [->%elem_of_singleton|Hu]%elem_of_union; [eauto|by apply (i_pub _ _ w Hi)]. }
  assert (Hev : ∀ P : Z → Prop, (∀ b, P b → b ≠ a ∧ b ≠ v) → evolves P w w2).
  { intros P HP. eapply spliced_evolves; try done; try lia; [by apply HP|set_solver| |by eexists].
    intros u [_ Hu]%HP. set_solver. }
  assert (Hin2 : ∀ j b, b ∈ lv w2 j ↔ b ∈ lv w j ∨ j = 0%nat ∧ b = a).
  { intros j b. eapply in_spliced; done || lia. }
  assert (Hlen : length (lv w2 0) = S (length (lv w 0))).
  { simpl. rewrite HXY, !length_app. simpl. lia. }
  exists w2. split_and!; [done|done| |by apply Hev| |].
  - split; [|by left|rewrite Hlen; simpl; lia|simpl; lia|done| |].
    + apply Hev. intros b [_ Hb']. split; intros ->; done.
    + rewrite Hlen. simpl. rewrite Hdebt, wrap64_small; [lia|].
      replace (_ - _) with (len (wm w)) by lia. apply (i_len _ _ w Hi).
    + exists M. split; [done|]. right. exists t, val. done.
  - split; [done|split; apply Hin2; by right|by exists v|]. intros l Hl.
    split; [rewrite Hin2; intros [?|[? _]]; [by eapply Hlv|lia]|].
    simpl. rewrite lookup_insert_ne by (intros [= _ <-]; lia). apply Hlinks. lia.
  - rewrite <- (bool_decide_true (M !! t = None)) by done. by apply effected_took.
Qed.

Lemma wp_publish {A} (k : bool → prog A) Q ℓ w s n p c a v t val top bc :
  inv w → (s < length (hist w))%nat → (top ≤ max_level sl)%nat →
  tok ℓ = 1%nat → debt ℓ = 0%nat → eff ℓ = None →
  walk sl tl s w 0 0 n p c t → key_at w c bc → key_lt bc t = false → key_eq bc t = false →
  mine ℓ w a v t val top → links (wm w) !! (a, 0%nat) = Some (Link.pack c false) →
  (∀ w2 ℓ2, inv w2 → later w w2 → tok ℓ2 = 0%nat → debt ℓ2 = 1%nat → rising ℓ2 w2 a t top 1 →
    took_effect s ℓ2 w2 t true → wp sl tl N (Some (t, val)) (k true) Q ℓ2 w2) →
  (∀ w2, inv w2 → evolves (.∈ own ℓ) w w2 → (n < length (lv w2 0) ≤ N)%nat →
    wp sl tl N (Some (t, val)) (k false) Q ℓ w2) →
  wp sl tl N (Some (t, val)) (Do (ACas p 0 (Link.pack c false) (Link.pack a false)) k) Q ℓ w.
Proof.
  intros Hiw Hs Htop Htok Hdebt Heff Hww Kcw Hge Hne Hmw Hlkw Hwin Hlose w1 Hi He [Hb _].
  pose proof (walk_stable _ _ _ _ _ _ _ _ _ _ _ _ Hiw Hi He Hww) as Hw.
  pose proof (hop_elem _ _ _ _ _ _ _ _ (proj1 Hww)) as [_ Hcw].
  pose proof (key_at_stable _ _ _ _ _ _ _ _ Hiw Hi He Hcw Kcw) as Kc.
  destruct (m_own _ _ _ _ _ _ _ Hmw) as [Ha Hv].
  pose proof (mine_stable _ _ _ _ _ _ _ _ _ Hiw He Ha Hv Hmw) as Hm.
  destruct (cas_view s w1 0 n p c t Hi ltac:(lia) Hw) as [(A' & B & Hf & Hlk)|(x & Hlk & Hx & Hgrew)].
  - destruct Hw as [_ (bp & bc' & Kp & _ & Hlt & _)].
    destruct (publish_step s ℓ w1 A' p c B a v t val top bp bc)
      as (w2 & Hm2 & Hi2 & Hg & He2 & Hr & Hte); try done.
    + exact (hist_later _ _ _ _ _ He Hs).
    + by apply key_ge_bk.
    + destruct (e_prot_link _ _ _ _ He a 0%nat Ha (mine_head _ _ _ _ _ _ _ Hiw Hmw)
        (m_out _ _ _ _ _ _ _ Hmw)) as [_ ->]. done.
    + exists true, (effected ℓ w1 1), w2. rewrite Hm2. split_and!; [by apply cas_wins|done|done|].
      apply Hwin; try done. eapply evolves_trans; [by eapply evolves_later|done].
  - exists false, ℓ, (tick w1). split; [by eapply cas_fails|].
    split; [by apply tick_inv|]. split; [by eapply tick_guar|].
    apply Hlose; [by apply tick_inv|by apply evolves_tick|]. simpl. lia.
Qed.

(** The world after the value cell of [a] has been replaced by [nv]. *)
Definition swapped (w : world) (a : Z) (nd : Node) (nv : Z) (M' : store_map) : world :=
  mkWorld (set_nodes (wm w) (<[a := mkNode (key nd) nv (top_level nd)]> (nodes (wm w))))
    (lv w) ({[nv]} ∪ pub w) (hist w ++ [M']).

Section swap.
Context (w : world) (a nv old : Z) (t val : bytes) (tp : nat) (M : store_map).
Context (Hi : inv w) (Ha : a ∈ lv w 0).
Context (Hn : nodes (wm w) !! a = Some (mkNode (fin t) old tp)).
Context (Hnv : values (wm w) !! nv = Some val).
Context (HM : last (hist w) = Some M) (Hh : holds (wm w) (lv w 0) M).
Local Abbreviation w2 := (swapped w a (mkNode (fin t) old tp) nv (<[t := val]> M)).

Lemma swapped_node b n :
  nodes (wm w2) !! b = Some n →
  (b = a ∧ n = mkNode (fin t) nv tp) ∨ (b ≠ a ∧ nodes (wm w) !! b = Some n).
Proof. simpl. rewrite lookup_insert_Some. naive_solver. Qed.

Lemma swapped_holds : holds (wm w2) (lv w 0) (<[t := val]> M).
Proof.
  intros k bs. rewrite lookup_insert_Some. split.
  - intros [[<- <-]|[Hne Hk]].
    + exists a, nv, tp. simpl. by rewrite lookup_insert_eq.
    + apply Hh in Hk as (b & u & tp' & Hb & Hnb & Hvb). exists b, u, tp'. simpl.
      rewrite lookup_insert_ne; [done|]. intros ->. rewrite Hn in Hnb.
      injection Hnb as Hk _ _. apply (f_equal as_bytes) in Hk. by rewrite !as_bytes_new in Hk.
  - intros (b & u & tp' & Hb & Hnb & Hvb). apply swapped_node in Hnb as [[-> Hnb]|[Hne Hnb]].
    + left. injection Hnb as Hk -> _. apply (f_equal as_bytes) in Hk.
      rewrite !as_bytes_new in Hk. simpl in Hvb. by simplify_eq.
    + right. split; [|apply Hh; eauto 10]. intros ->. apply Hne.
      eapply (key_unique sl tl w b a); [done|by apply full_lv..|by eexists|by eexists].
Qed.

Lemma swapped_inv : inv w2.
Proof.
  assert (Hna : a ≠ head sl ∧ a ≠ tl).
  { split; intros ->; [rewrite (i_head _ _ w Hi) in Hn|rewrite (i_tail _ _ w Hi) in Hn]; done. }
  destruct Hna as [Hah Hat]. destruct (i_heap _ _ w Hi) as [H1 H2 H3 H4].
  split; simpl; try (by apply Hi); try (by rewrite lookup_insert_ne by done; apply Hi).
  - split; simpl; try done. intros b [n [[-> _]|[_ Hb]]%lookup_insert_Some]; eauto.
  - intros b Hb. destruct (i_nodes _ _ w Hi b Hb) as (k & u & t' & Hnb & Ht & Hu).
    destruct (decide (a = b)) as [<-|Hne].
    + exists t, nv, tp. rewrite lookup_insert_eq. simplify_eq. split_and!; [done|done|set_solver].
    + exists k, u, t'. rewrite lookup_insert_ne by done. split_and!; [done..|set_solver].
  - intros u [->%elem_of_singleton|Hu]%elem_of_union; [eauto|by apply (i_pub _ _ w Hi)].
  - assert (Hx : ∀ x y, alt (wm w) x y → alt (wm w2) x y).
    { assert (Hk : ∀ x n, nodes (wm w) !! x = Some n → ∃ n', nodes (wm w2) !! x = Some n' ∧ key n' = key n).
      { intros x n Hx. simpl. destruct (decide (a = x)) as [<-|Hne].
        - rewrite lookup_insert_eq. eexists. split; [done|]. by simplify_eq.
        - rewrite lookup_insert_ne by done. eauto. }
      intros x y (nx & ny & Hx & Hy & Hlt). destruct (Hk x nx Hx) as (nx' & ? & Ex).
      destruct (Hk y ny Hy) as (ny' & ? & Ey). exists nx', ny'. by rewrite Ex, Ey. }
    assert (HL : ∀ L, StronglySorted (alt (wm w)) L → StronglySorted (alt (wm w2)) L).
    { intros L Hs. induction Hs as [|x L Hs IH Hf]; constructor; [done|].
      eapply Forall_impl; [exact Hf|]. intros y. apply Hx. }
    exact (HL _ (i_sorted _ _ w Hi)).
  - intros l Hl. eapply chain_ext; [|by apply (i_chain _ _ w Hi)]. done.
  - exists (<[t := val]> M). rewrite last_snoc. split; [done|]. apply swapped_holds.
Qed.

Lemma swapped_evolves (P : Z → Prop) : (∀ b, P b → b ≠ nv) → evolves P w w2.
Proof.
  intros HP. split; simpl; try done.
  - set_solver.
  - intros b n Hb Hnb. destruct (decide (a = b)) as [<-|Hne].
    + exists nv. rewrite lookup_insert_eq. by simplify_eq.
    + exists (value n). rewrite lookup_insert_ne by done. rewrite Hnb. by destruct n.
  - intros b Hb _ Hout. rewrite lookup_insert_ne; [done|]. congruence.
  - intros u Hu Hnu. apply HP in Hu. set_solver.
  - by exists [<[t := val]> M].
Qed.

End swap.

Lemma wp_value_swap {A} (k : Z → prog A) Q ℓ w s a nv t val :
  inv w → (s < length (hist w))%nat → eff ℓ = None → debt ℓ = 0%nat →
  a ∈ lv w 0 → key_at w a (fin t) →
  nv ∈ own ℓ → nv ∉ pub w → values (wm w) !! nv = Some val →
  (∀ w2 ℓ2 old, inv w2 → debt ℓ2 = 0%nat → took_effect s ℓ2 w2 t false →
    wp sl tl N (Some (t, val)) (k old) Q ℓ2 w2) →
  wp sl tl N (Some (t, val)) (Do (AValueSwap a nv) k) Q ℓ w.
Proof.
  intros Hiw Hs Heff Hdebt Ha Ka Ho Hpub Hval Hk w1 Hi He _.
  destruct (e_prot_val _ _ _ _ He nv Ho Hpub) as [Hpub1 Hval1]. rewrite Hval in Hval1.
  assert (Ha1 : a ∈ lv w1 0) by (by eapply in_lv_stable).
  assert (Ka1 : key_at w1 a (fin t)).
  { exact (key_at_stable _ _ _ _ _ _ _ _ Hiw Hi He (full_lv w 0 a Ha) Ka). }
  destruct (shared_value sl tl w1 a t Hi Ha1 Ka1) as (old & tp & bs & M & Hn & _ & _ & _ & HM & HMt).
  destruct (i_hist _ _ w1 Hi) as (M' & HM' & Hh). assert (M' = M) as -> by congruence.
  exists old, (effected ℓ w1 0), (swapped w1 a (mkNode (fin t) old tp) nv (<[t := val]> M)).
  split; [simpl; by rewrite Hn|]. split; [by apply swapped_inv|]. split.
  - split; simpl; [|by left|lia|lia|done| |].
    + apply swapped_evolves; [done..|]. by intros b [_ Hb] ->.
    + rewrite Hdebt, wrap64_small; [lia|]. replace (_ - _) with (len (wm w1)) by lia. apply (i_len _ _ w1 Hi).
    + exists M. split; [done|]. right. exists t, val. done.
  - apply Hk; [by apply swapped_inv|done|].
    rewrite <- (bool_decide_false (M !! t = None)) by (by rewrite HMt).
    apply effected_took; [exact (hist_later _ _ _ _ _ He Hs)|done].
Qed.

(** ** insert *)

Definition inserted (s : nat) (t : bytes) (b : bool) (ℓ : loc) (w : world) : Prop :=
  debt ℓ = 0%nat ∧ took_effect s ℓ w t b.

Lemma room_enough top : (top < MAX_HEIGHT)%nat → value_size + layout_for (top + 1) ≤ insert_room.
Proof. unfold insert_room, layout_for, MAX_HEIGHT. lia. Qed.

(** The branch that replaces the value of a node that is there. *)
Lemma wp_insert_present s t val ℓ w a :
  inv w → (s < length (hist w))%nat → eff ℓ = None → debt ℓ = 0%nat → value_size ≤ room ℓ →
  a ∈ lv w 0 → key_at w a (fin t) →
  wp sl tl N (Some (t, val))
    (newv ←p atom (ANewValue val); old ←p atom (AValueSwap a newv);
     _ ←p (if negb (old =? 0) then atom (ARetire old drop_value) else Ret tt); Ret false)
    (inserted s t) ℓ w.
Proof.
  intros Hi Hs Heff Hdebt Hroom Ha Ka. cbn [atom pbind].
  apply wp_new_value; [done|]. intros w1 nv Hi1 He1 Hnv Hpub Hval. cbn [pbind].
  eapply (wp_value_swap _ _ _ _ s a nv t val); simpl; try done.
  - exact (hist_later _ _ _ _ _ He1 Hs).
  - by eapply in_lv_stable.
  - exact (key_at_stable _ _ _ _ _ _ _ _ Hi Hi1 He1 (full_lv w 0 a Ha) Ka).
  - set_solver.
  - intros w2 ℓ2 old Hi2 Hd Ht. destruct (negb (old =? 0)); cbn [pbind].
    + apply wp_retire. intros w3 Hi3 He3. split; [done|]. eapply took_later; [|exact Ht].
      by eapply evolves_later.
    + split; done.
Qed.

(** The rest of the operation once the node is linked at level 0. *)
Lemma wp_insert_rest s t val a top ps ss ℓ w fuel :
  (N + 2 ≤ fuel)%nat → inv w → (s < length (hist w))%nat → (top ≤ max_level sl)%nat →
  debt ℓ = 1%nat → rising ℓ w a t top 1 → arrays s w t ps ss 1 → took_effect s ℓ w t true →
  wp sl tl N (Some (t, val))
    (_ ←p link_uppers fuel sl t a (seq 1 top) ps ss; _ ←p atom (ALenAdd 1); Ret true)
    (inserted s t) ℓ w.
Proof.
  intros Hf Hi Hs Htop Hd Hr Har Ht. apply wp_bind.
  eapply wp_mono; [|by eapply (wp_link_uppers _ s t a top ℓ fuel Hf Htop top 1 ps ss w)].
  intros _ ℓ' w1 (-> & Hi1 & He1). cbn [atom pbind]. apply wp_len_add; [done|].
  intros w2 Hi2 He2. split; [done|]. eapply (took_later s (paid ℓ) w1); [by eapply evolves_later|].
  eapply (took_later s ℓ w); done.
Qed.

Lemma wp_insert_loop s t val top fuel : (N + 2 ≤ fuel)%nat → (top ≤ max_level sl)%nat →
  ∀ tries n0 ps ss ℓ w, inv w → (s < length (hist w))%nat →
  tok ℓ = 1%nat → debt ℓ = 0%nat → eff ℓ = None →
  length ps = MAX_HEIGHT → length ss = MAX_HEIGHT →
  (n0 ≤ length (lv w 0))%nat → (n0 ≤ N)%nat → (N + 1 ≤ tries + n0)%nat →
  (Z.of_nat N + 1 - Z.of_nat n0) * insert_room ≤ room ℓ →
  wp sl tl N (Some (t, val)) (insert_loop fuel tries sl t val top ps ss) (inserted s t) ℓ w.
Proof.
  intros Hf Htop. induction tries as [|tries IH];
    intros n0 ps ss ℓ w Hi Hs Htok Hdebt Heff Hps Hss Hn0 HnN Hm Hroom; [lia|].
  pose proof (i_height _ _ w Hi) as Hh. pose proof (room_enough top ltac:(lia)) as Hre.
  assert (Hir : insert_room = 184) by reflexivity.
  assert (Hone : insert_room ≤ room ℓ) by nia.
  cbn [insert_loop]. apply wp_bind.
  eapply wp_mono; [|apply (wp_find sl tl N _ s t ℓ fuel w ps ss); try done; lia].
  intros [[b ps0] ss0] ℓ' w1 (ps1 & ss1 & s0 & bk & [= -> -> ->] & -> & Hi1 & He1 & Hp1 & Hs1 & Hs0 & Kbk & Hloc).
  pose proof (hist_later _ _ _ _ _ He1 Hs) as Hsw1.
  destruct (Hloc 0%nat) as (p & c & n & Hp & Hc & Hn & Hw & (bc & Kc & Hge)); [lia|].
  rewrite Hs0 in Hc. injection Hc as <-. pose proof (key_at_fun _ _ _ _ Kbk Kc) as ->.
  pose proof (hop_elem _ _ _ _ _ _ _ _ (proj1 Hw)) as [_ Hcf].
  destruct (key_eq bc t) eqn:Hk.
  { unfold index. rewrite Hs0. cbn [pbind]. destruct (node_shared sl tl w1 s0 bc t Hi1 Hcf Kc Hk) as [Hin ->].
    apply wp_insert_present; try done. unfold value_size. lia. }
  cbn [atom pbind]. apply wp_new_value; [unfold layout_for in Hre; lia|].
  intros w2 v Hi2 He2 Hv Hpub Hval. cbn [atom pbind].
  apply (wp_new_node _ t v val top); simpl; [lia|done|set_solver|done|done|].
  intros w3 a Hi3 He3 Hmine. set (ℓ3 := alloc _ _ _) in *. apply wp_bind.
  assert (He13 : later w1 w3) by (eapply evolves_trans; by eapply evolves_later).
  eapply wp_mono; [|apply (wp_init_links _ a v t val top ss1 ℓ3 (seq 0 (top + 1)) w3 Hi3 Hmine (NoDup_seq _ _))].
  2: { intros l Hl%elem_of_seq. split; [lia|].
    destruct (Hloc l) as (? & ? & ? & _ & -> & _); [lia|]. eauto. }
  intros _ ℓ' w4 (-> & Hi4 & He4 & Hm4 & Hlk4 & _). unfold index. rewrite Hp, Hs0.
  cbn [pbind link_cas atom]. assert (He14 : later w1 w4) by (by eapply evolves_trans).
  pose proof (hist_later _ _ _ _ _ He14 Hsw1) as Hsw4.
  eapply (wp_publish _ _ _ _ s n p s0 a v t val top bc); try done.
  - exact (walk_stable _ _ _ _ _ _ _ _ _ _ _ _ Hi1 Hi4 He14 Hw).
  - exact (key_at_stable _ _ _ _ _ _ _ _ Hi1 Hi4 He14 Hcf Kc).
  - apply Hlk4; [|done]. apply elem_of_seq. lia.
  - intros w5 ℓ5 Hi5 He5 Ht5 Hd5 Hr5 Hte5. cbn [negb].
    pose proof (hist_later _ _ _ _ _ He5 Hsw4). eapply wp_insert_rest; try done.
    split_and!; [lia|lia|]. intros l Hl. eapply located_stable; [exact Hi1|exact Hi5|by eapply evolves_trans|].
    eapply located_weaken; [|apply Hloc]; lia.
  - intros w5 Hi5 He5 [Hg HgN]. cbn [negb atom pbind].
    destruct (m_own _ _ _ _ _ _ _ Hm4) as [Ho1 Ho2].
    eapply (wp_free_node _ a v t val top); [done|exact (mine_stable ℓ3 ℓ3 w4 w5 a v t val top Hi4 He5 Ho1 Ho2 Hm4)|].
    intros w6 Hi6 He6. apply (IH (length (lv w5 0))); simpl; try done; try lia.
    + eapply hist_later; [|exact Hsw4]. eapply evolves_trans; [by eapply evolves_later|exact He6].
    + apply sublist_length, (e_lv _ _ _ _ He6).
Qed.

(** An insertion that runs alongside others takes effect at one instant while
    it runs, and reports whether the key was new at that instant. *)
Lemma wp_insert s t val ℓ w fuel :
  (N + 2 ≤ fuel)%nat → inv w → (s < length (hist w))%nat →
  tok ℓ = 1%nat → debt ℓ = 0%nat → eff ℓ = None →
  (Z.of_nat N + 1) * insert_room ≤ room ℓ →
  wp sl tl N (Some (t, val)) (insert fuel sl t val) (inserted s t) ℓ w.
Proof.
  intros Hf Hi Hs Htok Hdebt Heff Hroom. unfold insert. cbn [atom pbind]. apply wp_random_level.
  intros w1 top Hi1 He1 Htop. apply (wp_insert_loop s t val top fuel Hf Htop fuel 0); try done; try lia.
  exact (hist_later _ _ _ _ _ He1 Hs).
Qed.

End ins.
