(* ===== verification/SkipListPool.v ===== *)
(** * SkipListPool: threads that call one skiplist

    Any number of threads call [insert], [get] and [remove] of one skiplist, and
    their atomic accesses interleave in any order. [pool_exec] runs such a
    schedule and records what every call returned and when; [linearized] says
    that every call behaved as if it had happened at one instant between its
    invocation and its response. [SkipListLin] proves it of insertions and
    lookups, [SkipListRemLin] of removals and lookups. *)

From S2P Require Import Prelude Index SkipList SkipListRemove.
Local Open Scope Z_scope.
Local Open Scope zkv_scope.

(** ** Threads that call the index *)

Inductive call : Type :=
| CInsert (k v : bytes)
| CGet (k : bytes)
| CRemove (k : bytes).

Definition code (fuel : nat) (sl : SkipList) (c : call) : prog out :=
  match c with
  | CInsert k v => b ←p insert fuel sl k v; Ret (OBool b)
  | CGet k => o ←p get fuel sl k; Ret (OBytes o)
  | CRemove k => b ←p remove fuel sl k; Ret (OBool b)
  end.

(** A call, when it was made, and when and with what it returned. *)
Record oprec : Type := mkOp {
  o_call : call;
  o_start : nat;
  o_res : option (nat * out)
}.

(** The threads (idle, or at some point of the call with a given number), the
    calls so far, the number of events so far, and the memory. *)
Record Pool : Type := mkPool {
  threads : list (option (nat * prog out));
  ops : list oprec;
  time : nat;
  pmem : Mem
}.

Inductive event : Type :=
| Invoke (i : nat) (c : call)
| Step (i : nat).

(** One event: an idle thread makes a call, or a thread does its next access,
    and returns if that was the last. Anything else changes nothing. *)
Definition pool_event (fuel : nat) (sl : SkipList) (e : event) (σ : Pool) : res Pool :=
  let idle := Ok (mkPool (threads σ) (ops σ) (S (time σ)) (pmem σ)) in
  match e with
  | Invoke i c =>
    match threads σ !! i with
    | Some None =>
      Ok (mkPool (<[i := Some (length (ops σ), code fuel sl c)]> (threads σ))
            (ops σ ++ [mkOp c (time σ) None]) (S (time σ)) (pmem σ))
    | _ => idle
    end
  | Step i =>
    match threads σ !! i with
    | Some (Some (id, Do a k)) =>
      '(r, m) ←r exec a (pmem σ);
      match k r with
      | Ret o =>
        Ok (mkPool (<[i := None]> (threads σ))
              (alter (λ op, mkOp (o_call op) (o_start op) (Some (time σ, o))) id (ops σ))
              (S (time σ)) m)
      | p => Ok (mkPool (<[i := Some (id, p)]> (threads σ)) (ops σ) (S (time σ)) m)
      end
    | Some (Some (_, Stop f)) => Err f
    | _ => idle
    end
  end.

Fixpoint pool_exec (fuel : nat) (sl : SkipList) (es : list event) (σ : Pool) : res Pool :=
  match es with
  | [] => Ok σ
  | e :: es => σ ←r pool_event fuel sl e σ; pool_exec fuel sl es σ
  end.

(** [n] idle threads on a memory. *)
Definition pool_start (n : nat) (m : Mem) : Pool := mkPool (replicate n None) [] 0 m.

(** How many insertions and removals a schedule asks for. *)
Definition is_insert (e : event) : nat :=
  match e with
  | Invoke _ (CInsert _ _) => 1
  | _ => 0
  end.
Definition inserts (es : list event) : nat := sum_list_with is_insert es.
Definition is_remove (e : event) : nat :=
  match e with
  | Invoke _ (CRemove _) => 1
  | _ => 0
  end.
Definition removes (es : list event) : nat := sum_list_with is_remove es.

Lemma pool_event_threads fuel sl e σ σ' :
  pool_event fuel sl e σ = Ok σ' → length (threads σ') = length (threads σ) ∧ time σ' = S (time σ).
Proof.
  destruct e as [i c|i]; cbn [pool_event]; destruct (threads σ !! i) as [[[id p]|]|]; try by intros [= <-].
  - intros [= <-]. simpl. by rewrite length_insert.
  - destruct p as [o|f|R a k]; try by intros [= <-]. destruct (exec a (pmem σ)) as [[x m]|]; simpl; [|done].
    destruct (k x); intros [= <-]; simpl; by rewrite length_insert.
Qed.

(** ** Calls on a map *)

Definition call_key (c : call) : bytes :=
  match c with CInsert k _ | CGet k | CRemove k => k end.

(** What a call does to a map, and what it returns. *)
Definition effect_of (c : call) (M : store_map) : store_map :=
  match c with
  | CInsert k v => <[k := v]> M
  | CGet _ => M
  | CRemove k => delete k M
  end.
Definition answer (c : call) (M : store_map) : out :=
  match c with
  | CInsert k _ => OBool (bool_decide (M !! k = None))
  | CGet k => OBytes (M !! k)
  | CRemove k => OBool (bool_decide (is_Some (M !! k)))
  end.

(** Both speak of the call's key only. *)
Lemma effect_other c M k : k ≠ call_key c → effect_of c M !! k = M !! k.
Proof.
  destruct c; simpl; intros Hne; [by rewrite lookup_insert_ne|done|by rewrite lookup_delete_ne].
Qed.

Lemma effect_key c M M' : M !! call_key c = M' !! call_key c →
  effect_of c M !! call_key c = effect_of c M' !! call_key c.
Proof. destruct c; simpl; intros E; [by rewrite !lookup_insert_eq|done|by rewrite !lookup_delete_eq]. Qed.

Lemma answer_key c M M' : M !! call_key c = M' !! call_key c → answer c M = answer c M'.
Proof. destruct c; simpl; by intros ->. Qed.

Lemma effect_idle c M M' : M !! call_key c = M' !! call_key c → effect_of c M = M → effect_of c M' = M'.
Proof.
  intros E Hid. apply map_eq. intros k. destruct (decide (k = call_key c)) as [->|Hne]; [|by apply effect_other].
  rewrite <- E, <- (effect_key c M M' E). by rewrite Hid.
Qed.

(** ** Linearizability

    [h] lists the map before every event and after the last; [lin] gives the
    event at which a call changed the map. A call with such an event is after
    its start, changes the map there as the call does and returns what the map
    says there; a call without one (it is no insertion) returns what the map
    says at an instant between its start and its return at which it would have
    changed nothing. *)

Definition op_linear (h : list store_map) (lin : gmap nat nat) (id : nat) (op : oprec) : Prop :=
  let c := o_call op in
  (∀ t, lin !! id = Some t → ∃ M, (o_start op ≤ t)%nat ∧
     h !! t = Some M ∧ h !! S t = Some (effect_of c M)) ∧
  (∀ e o, o_res op = Some (e, o) → ∃ t M, (o_start op ≤ t)%nat ∧ h !! t = Some M ∧ o = answer c M ∧
     match lin !! id with
     | Some u => t = u ∧ (t ≤ e)%nat
     | None => (t ≤ S e)%nat ∧ effect_of c M = M ∧ ∀ k v, c ≠ CInsert k v
     end).

Record linearized (M0 : store_map) (σ : Pool) (h : list store_map) (lin : gmap nat nat) : Prop :=
  mkLinearized {
  l_length : length h = S (time σ);
  l_first : h !! 0%nat = Some M0;
  l_ops : ∀ id op, ops σ !! id = Some op → op_linear h lin id op;
  l_steps : ∀ t M, (t < time σ)%nat → h !! t = Some M →
    h !! S t = Some M ∨ ∃ id, lin !! id = Some t;
  l_calls : ∀ id t, lin !! id = Some t →
    ∃ op, ops σ !! id = Some op ∧ ∀ k, o_call op ≠ CGet k;
  l_once : ∀ id id' t, lin !! id = Some t → lin !! id' = Some t → id = id'
}.

Lemma op_linear_app h ms lin id op : op_linear h lin id op → op_linear (h ++ ms) lin id op.
Proof.
  assert (Hl : ∀ t M, h !! t = Some M → (h ++ ms) !! t = Some M).
  { intros t M Ht. by apply lookup_app_l_Some. }
  intros [H1 H2]. split.
  - intros t Ht. destruct (H1 t Ht) as (M & ? & ? & ?). exists M. eauto.
  - intros e o Ho. destruct (H2 e o Ho) as (t & M & ? & ? & ? & ?). exists t, M. eauto.
Qed.

(** An event that leaves the map alone. *)
Lemma lin_stutter M0 ths os n m h lin M ths' m' :
  linearized M0 (mkPool ths os n m) h lin → last h = Some M →
  linearized M0 (mkPool ths' os (S n) m') (h ++ [M]) lin.
Proof.
  intros [H1 H2 H3 H4 H5 H6] HM. simpl in *. split; simpl; try done.
  - rewrite length_app. simpl. lia.
  - by apply lookup_app_l_Some.
  - intros id op Ho. apply op_linear_app. by apply H3.
  - intros t Mt Ht Hl. destruct (decide (t = n)) as [->|Hne].
    + left. rewrite lookup_app_l in Hl by lia. rewrite last_lookup, H1 in HM. simpl in HM.
      simplify_eq. rewrite <- H1. by apply list_lookup_middle.
    + rewrite lookup_app_l in Hl by lia. destruct (H4 t Mt) as [Hs|?]; [lia|done| |by right].
      left. by apply lookup_app_l_Some.
Qed.

(** An event at which the call [id] takes effect. *)
Lemma lin_effect M0 ths os n m h lin M ths' m' id c s :
  linearized M0 (mkPool ths os n m) h lin → last h = Some M → (∀ k, c ≠ CGet k) →
  os !! id = Some (mkOp c s None) → lin !! id = None → (s ≤ n)%nat →
  linearized M0 (mkPool ths' os (S n) m') (h ++ [effect_of c M]) (<[id := n]> lin).
Proof.
  intros [H1 H2 H3 H4 H5 H6] HM Hup Hid Hnew Hs. simpl in *.
  assert (Hn : h !! n = Some M) by (by rewrite last_lookup, H1 in HM).
  assert (Hlt : ∀ id' t, lin !! id' = Some t → (t < n)%nat).
  { intros id' t Ht. destruct (H5 id' t Ht) as (op & Ho & _).
    destruct (proj1 (H3 id' _ Ho) t Ht) as (M' & _ & _ & HS). apply lookup_lt_Some in HS. lia. }
  split; simpl.
  - rewrite length_app. simpl. lia.
  - by apply lookup_app_l_Some.
  - intros id' op Ho. destruct (decide (id' = id)) as [->|Hne].
    + rewrite Hid in Ho. simplify_eq. split; [|done]. intros t Ht. simpl.
      rewrite lookup_insert_eq in Ht. simplify_eq. exists M. split; [done|].
      split; [by apply lookup_app_l_Some|]. rewrite <- H1. by apply list_lookup_middle.
    + pose proof (op_linear_app h [effect_of c M] lin id' op (H3 id' op Ho)) as Hop.
      unfold op_linear in *. by rewrite lookup_insert_ne.
  - intros t Mt Ht Hl. destruct (decide (t = n)) as [->|Hne].
    + right. exists id. by rewrite lookup_insert_eq.
    + rewrite lookup_app_l in Hl by lia. destruct (H4 t Mt) as [HS|(id' & Hid')]; [lia|done| |].
      * left. by apply lookup_app_l_Some.
      * right. exists id'. rewrite lookup_insert_ne; [done|]. congruence.
  - intros id' t [[<- <-]|[Hne Ht]]%lookup_insert_Some; [by eexists|exact (H5 id' t Ht)].
  - intros id1 id2 t [[<- <-]|[Hn1 Ht1]]%lookup_insert_Some [[<- E]|[Hn2 Ht2]]%lookup_insert_Some;
      [done|apply Hlt in Ht2; lia|subst; apply Hlt in Ht1; lia|exact (H6 id1 id2 t Ht1 Ht2)].
Qed.

(** A new call, and the return of one. *)
Lemma lin_invoke M0 ths os n m h lin ths' m' c s :
  linearized M0 (mkPool ths os n m) h lin →
  linearized M0 (mkPool ths' (os ++ [mkOp c s None]) n m') h lin.
Proof.
  intros [H1 H2 H3 H4 H5 H6]. split; simpl in *; try done.
  - intros id op [Ho|[Hge Ho]]%lookup_app_Some; [by apply H3|].
    apply list_lookup_singleton_Some in Ho as [Hid <-]. split; [|done]. intros t Ht.
    destruct (H5 id t Ht) as (? & Ho%lookup_lt_Some & _). lia.
  - intros id t Ht. destruct (H5 id t Ht) as (op & Ho & Hc). exists op. split; [|done].
    by apply lookup_app_l_Some.
Qed.

Lemma lin_return M0 ths os n m h lin ths' m' id c s r :
  linearized M0 (mkPool ths os n m) h lin → os !! id = Some (mkOp c s None) →
  op_linear h lin id (mkOp c s (Some r)) →
  linearized M0 (mkPool ths' (alter (λ op, mkOp (o_call op) (o_start op) (Some r)) id os) n m') h lin.
Proof.
  intros [H1 H2 H3 H4 H5 H6] Hid Hop. split; simpl in *; try done.
  - intros id' op Ho. destruct (decide (id' = id)) as [->|Hne].
    + rewrite list_lookup_alter_eq, Hid in Ho. simpl in Ho. by simplify_eq.
    + rewrite list_lookup_alter_ne in Ho by done. by apply H3.
  - intros id' t Ht. destruct (H5 id' t Ht) as (op & Ho & Hc).
    destruct (decide (id' = id)) as [->|Hne].
    + rewrite list_lookup_alter_eq, Ho. simpl. eauto 10.
    + rewrite list_lookup_alter_ne by done. eauto 10.
Qed.

(** ** Sums over the threads *)

Definition sumZ {A} (f : A → Z) (xs : list A) : Z := foldr (λ x s, f x + s) 0 xs.

Lemma sumZ_insert {A} (f : A → Z) xs i x y :
  xs !! i = Some x → sumZ f (<[i := y]> xs) = sumZ f xs - f x + f y.
Proof.
  revert i. induction xs as [|z xs IH]; intros [|i] Hi; simplify_eq/=; [lia|]. rewrite (IH i) by done. lia.
Qed.

Lemma sumZ_elem {A} (f : A → Z) xs i x :
  (∀ y, y ∈ xs → 0 ≤ f y) → xs !! i = Some x → f x ≤ sumZ f xs.
Proof.
  intros Hf. revert i. induction xs as [|z xs IH]; intros [|i] Hi; simplify_eq/=.
  - assert (0 ≤ sumZ f xs); [|lia]. assert (Hf' : ∀ y, y ∈ xs → 0 ≤ f y) by set_solver.
    clear -Hf'. induction xs as [|y xs IH]; simpl; [lia|].
    pose proof (Hf' y ltac:(set_solver)). assert (0 ≤ sumZ f xs); [|lia]. apply IH. set_solver.
  - assert (f x ≤ sumZ f xs) by (apply (IH ltac:(set_solver) i); done).
    pose proof (Hf z ltac:(set_solver)). lia.
Qed.

Lemma sumZ_zero {A} (f : A → Z) xs : (∀ x, x ∈ xs → f x = 0) → sumZ f xs = 0.
Proof.
  induction xs as [|x xs IH]; intros Hf; simpl; [done|]. rewrite Hf by set_solver.
  apply IH. set_solver.
Qed.

Definition is_ret {A} (p : prog A) : Prop := match p with Ret _ => True | _ => False end.

Lemma code_busy fuel sl c : ¬ is_ret (code fuel sl c).
Proof.
  destruct c as [k v|k|k]; [simpl; tauto|simpl|].
  - unfold get. rewrite Nat.add_1_r. simpl. tauto.
  - unfold code, remove, find. destruct fuel as [|fuel]; [simpl; tauto|]. cbn [find_retry].
    rewrite Nat.add_1_r. simpl. tauto.
Qed.

(** Every new effect is that of the event [e], a step of a thread. *)
Definition marks (e : event) (σ : Pool) (lin lin' : gmap nat nat) : Prop :=
  ∀ id t, lin' !! id = Some t → lin !! id = Some t ∨
    (t = time σ ∧ ∃ i, e = Step i ∧ (i < length (threads σ))%nat).

Lemma marks_refl e σ lin : marks e σ lin lin.
Proof. intros id t Ht. by left. Qed.

(** Effects belong to events that are steps of threads. *)
Definition effects_at (es : list event) (σ : Pool) (lin lin' : gmap nat nat) : Prop :=
  ∀ id t, lin' !! id = Some t → lin !! id = Some t ∨
    ∃ u i, t = (time σ + u)%nat ∧ es !! u = Some (Step i) ∧ (i < length (threads σ))%nat.

Lemma effects_cons fuel sl e es σ σ1 lin lin1 lin' :
  pool_event fuel sl e σ = Ok σ1 → marks e σ lin lin1 → effects_at es σ1 lin1 lin' →
  effects_at (e :: es) σ lin lin'.
Proof.
  intros Hx Hm Ha id t Ht. destruct (pool_event_threads _ _ _ _ _ Hx) as [El Et].
  destruct (Ha id t Ht) as [H1|(u & i & -> & Hu & Hi)].
  - destruct (Hm id t H1) as [?|(-> & i & -> & Hi)]; [by left|right]. exists 0%nat, i.
    split_and!; [lia|done|done].
  - right. exists (S u), i. rewrite El in Hi. split_and!; [lia|done|done].
Qed.
