(* ===== verification/SkipListLin.v ===== *)
(** * SkipListLin: concurrent inserts and lookups are linearizable

    Any number of threads call [insert] and [get] of one skiplist
    ([SkipListPool]); the theorem says that no schedule faults and that every
    call behaves as if it had happened at one instant between its invocation
    and its response. *)

From Stdlib Require Import Sorted.
From S2P Require Import Prelude Backoff Index SkipList SkipListProof SkipListRep SkipListRemove.
From S2P Require Import SkipListConc SkipListConcIns SkipListPool.
Local Open Scope Z_scope.
Local Open Scope zkv_scope.

Section lin.
Context (sl : SkipList) (tl : Z) (fuel N : nat) (Hfuel : (N + 2 ≤ fuel)%nat).

(** Bytes one insertion may allocate, retries included. *)
Definition op_room : Z := (Z.of_nat N + 1) * insert_room.

Lemma op_room_nonneg : 0 ≤ op_room.
Proof. unfold op_room. change insert_room with 184. lia. Qed.

Definition kv_of (c : call) : option (bytes * bytes) :=
  match c with
  | CInsert k v => Some (k, v)
  | CGet _ | CRemove _ => None
  end.

(** What a call has established when it returns. *)
Definition post (c : call) (s : nat) (o : out) (ℓ : loc) (w : world) : Prop :=
  debt ℓ = 0%nat ∧
  match c with
  | CInsert k v => ∃ b, o = OBool b ∧ took_effect s ℓ w k b
  | CGet k => ∃ r, o = OBytes r ∧ answered s w k r
  | CRemove _ => False
  end.

(** A thread with its ghost state: idle with nothing left to count, or inside a
    call that will be right whatever the others do. *)
Definition thread_ok (w : world) (os : list oprec) (lin : gmap nat nat)
    (th : option (nat * prog out)) (ℓ : loc) : Prop :=
  match th with
  | None => debt ℓ = 0%nat
  | Some (id, p) => ∃ c s, os !! id = Some (mkOp c s None) ∧ lin !! id = eff ℓ ∧
      (s < length (hist w))%nat ∧ ¬ is_ret p ∧ wp sl tl N (kv_of c) p (post c s) ℓ w
  end.

(** [rem] insertions are still to be called. *)
Record pinv (rem : nat) (M0 : store_map) (σ : Pool) (w : world) (ls : list loc)
    (lin : gmap nat nat) : Prop := mkPinv {
  q_mem : wm w = pmem σ;
  q_inv : inv sl tl w;
  q_locs : length ls = length (threads σ);
  q_threads : ∀ i th ℓ, threads σ !! i = Some th → ls !! i = Some ℓ → thread_ok w (ops σ) lin th ℓ;
  q_ids : ∀ i j id p q, threads σ !! i = Some (Some (id, p)) →
    threads σ !! j = Some (Some (id, q)) → i = j;
  q_own : ∀ i ℓ a, ls !! i = Some ℓ → a ∈ own ℓ → a < brk (wm w);
  q_disj : ∀ i j ℓ ℓ' a, i ≠ j → ls !! i = Some ℓ → ls !! j = Some ℓ' → a ∈ own ℓ → a ∉ own ℓ';
  q_room0 : ∀ ℓ, ℓ ∈ ls → 0 ≤ room ℓ;
  q_tok : Z.of_nat (length (lv w 0)) + sumZ (λ ℓ, Z.of_nat (tok ℓ)) ls + Z.of_nat rem ≤ Z.of_nat N;
  q_room : brk (wm w) + sumZ room ls + Z.of_nat rem * op_room ≤ W64;
  q_len : len (wm w) = wrap64 (Z.of_nat (length (lv w 0)) - sumZ (λ ℓ, Z.of_nat (debt ℓ)) ls);
  q_lin : linearized M0 σ (hist w) lin
}.

Lemma wp_rely {A} kv (p : prog A) Q ℓ w w' :
  ¬ is_ret p → evolves sl (.∈ own ℓ) w w' → wp sl tl N kv p Q ℓ w → wp sl tl N kv p Q ℓ w'.
Proof.
  intros Hp He. destruct p as [a|f|R a k]; [by destruct Hp; simpl|done|].
  intros Hw w1 Hi He1 Hb. apply Hw; [done| |done]. by eapply evolves_trans.
Qed.

(** A thread that does not move stays as it is. *)
Lemma thread_ok_other w w' os os' lin lin' th ℓ :
  thread_ok w os lin th ℓ → evolves sl (.∈ own ℓ) w w' →
  (∀ id p, th = Some (id, p) → os' !! id = os !! id ∧ lin' !! id = lin !! id) →
  thread_ok w' os' lin' th ℓ.
Proof.
  intros Ht He Hid. destruct th as [[id p]|]; [|done].
  destruct Ht as (c & s & Ho & Hl & Hs & Hp & Hw). destruct (Hid id p eq_refl) as [Eo El].
  exists c, s. rewrite Eo, El. split_and!; [done..|by eapply hist_later|done|by eapply wp_rely].
Qed.

(** ** The bounds a thread may use *)

Lemma pinv_bnd rem M0 σ w ls lin i ℓ :
  pinv rem M0 σ w ls lin → ls !! i = Some ℓ → bnd N ℓ w.
Proof.
  intros Hq Hl. split_and!.
  - pose proof (sumZ_elem (λ ℓ, Z.of_nat (tok ℓ)) ls i ℓ (λ y _, Nat2Z.is_nonneg _) Hl) as Ht.
    pose proof (q_tok _ _ _ _ _ _ Hq). cbn beta in Ht. lia.
  - pose proof (sumZ_elem room ls i ℓ (q_room0 _ _ _ _ _ _ Hq) Hl). pose proof (q_room _ _ _ _ _ _ Hq).
    pose proof op_room_nonneg. nia.
  - intros a Ha. by eapply (q_own _ _ _ _ _ _ Hq).
Qed.

(** ** Events *)

(** An event that does nothing. *)
Lemma pinv_idle rem M0 σ w ls lin :
  pinv rem M0 σ w ls lin →
  pinv rem M0 (mkPool (threads σ) (ops σ) (S (time σ)) (pmem σ)) (tick w) ls lin.
Proof.
  intros Hq. destruct (i_hist _ _ w (q_inv _ _ _ _ _ _ Hq)) as (M & HM & _).
  pose proof (tick_inv _ _ w (q_inv _ _ _ _ _ _ Hq)) as Hi'.
  destruct Hq as [H1 H2 H3 H4 H5 H6 H7 H8 H9 H10 H11 H12]. split; simpl; try done.
  - intros i th ℓ Hth Hl. eapply thread_ok_other; [by eapply H4|apply tick_evolves|done].
  - rewrite HM. simpl. destruct σ. by eapply lin_stutter.
Qed.

(** Thread [i] moves: its ghost state and the world change together. *)
Lemma pinv_move rem rem' M0 σ w ls lin i ℓ th' ℓ' w' os' lin' :
  pinv rem M0 σ w ls lin → ls !! i = Some ℓ → inv sl tl w' →
  evolves sl (λ a, a < brk (wm w) ∧ a ∉ own ℓ) w w' →
  (∀ a, a ∈ own ℓ' → a ∈ own ℓ ∨ brk (wm w) ≤ a < brk (wm w')) → 0 ≤ room ℓ' →
  (length (lv w' 0) + tok ℓ' + rem' ≤ length (lv w 0) + tok ℓ + rem)%nat →
  brk (wm w') + room ℓ' + Z.of_nat rem' * op_room ≤ brk (wm w) + room ℓ + Z.of_nat rem * op_room →
  len (wm w') = wrap64 (len (wm w) + (Z.of_nat (length (lv w' 0)) - Z.of_nat (debt ℓ'))
    - (Z.of_nat (length (lv w 0)) - Z.of_nat (debt ℓ))) →
  thread_ok w' os' lin' th' ℓ' →
  (∀ id p j q, th' = Some (id, p) → j ≠ i → threads σ !! j ≠ Some (Some (id, q))) →
  (∀ j id p, j ≠ i → threads σ !! j = Some (Some (id, p)) →
    os' !! id = ops σ !! id ∧ lin' !! id = lin !! id) →
  linearized M0 (mkPool (<[i := th']> (threads σ)) os' (S (time σ)) (wm w')) (hist w') lin' →
  pinv rem' M0 (mkPool (<[i := th']> (threads σ)) os' (S (time σ)) (wm w')) w' (<[i := ℓ']> ls) lin'.
Proof.
  intros [H1 H2 H3 H4 H5 H6 H7 H8 H9 H10 H11 H12] Hl Hi' He Hown Hr0 Htok Hroom Hlen Hth Hids Hops Hlin.
  assert (Hev : ∀ j ℓj, j ≠ i → ls !! j = Some ℓj → evolves sl (.∈ own ℓj) w w').
  { intros j ℓj Hj Hlj. eapply evolves_weaken; [|exact He]. intros a Ha.
    split; [by eapply H6|by eapply (H7 j i)]. }
  pose proof (e_brk _ _ _ _ He) as Hb.
  split; simpl; [done|done|by rewrite !length_insert|..].
  - intros j th ℓj Hj Hlj.
    apply list_lookup_insert_Some in Hj as [(<- & <- & _)|[Hj Ht]].
    + rewrite list_lookup_insert_eq in Hlj by (by eapply lookup_lt_Some). by simplify_eq.
    + rewrite list_lookup_insert_ne in Hlj by done.
      eapply thread_ok_other; [by eapply H4|by eapply Hev|]. intros id p ->. by eapply Hops.
  - intros j1 j2 id p q Hj1 Hj2.
    apply list_lookup_insert_Some in Hj1 as [(<- & -> & _)|[Hj1 Ht1]];
      apply list_lookup_insert_Some in Hj2 as [(<- & E & _)|[Hj2 Ht2]]; [done| | |by eapply H5].
    + exfalso. by eapply (Hids id p j2 q).
    + exfalso. subst. by eapply (Hids id q j1 p).
  - intros j ℓj a Hj Ha. apply list_lookup_insert_Some in Hj as [(<- & <- & _)|[Hj Hlj]].
    + destruct (Hown a Ha) as [Ha'|?]; [|lia]. pose proof (H6 _ _ _ Hl Ha'). lia.
    + pose proof (H6 _ _ _ Hlj Ha). lia.
  - intros j1 j2 ℓ1 ℓ2 a Hne Hj1 Hj2 Ha1 Ha2.
    apply list_lookup_insert_Some in Hj1 as [(<- & <- & _)|[Hj1 Hl1]];
      apply list_lookup_insert_Some in Hj2 as [(<- & E & _)|[Hj2 Hl2]]; [done|..].
    + destruct (Hown a Ha1) as [Ha'|?]; [by eapply (H7 i j2)|]. pose proof (H6 _ _ _ Hl2 Ha2). lia.
    + subst. destruct (Hown a Ha2) as [Ha'|?]; [by eapply (H7 j1 i)|]. pose proof (H6 _ _ _ Hl1 Ha1). lia.
    + by eapply (H7 j1 j2).
  - intros ℓj [j Hj]%list_elem_of_lookup. apply list_lookup_insert_Some in Hj as [(<- & <- & _)|[_ Hj]]; [done|].
    apply H8. by eapply list_elem_of_lookup_2.
  - rewrite (sumZ_insert _ _ _ ℓ) by done. lia.
  - rewrite (sumZ_insert _ _ _ ℓ) by done. lia.
  - rewrite (sumZ_insert _ _ _ ℓ) by done. rewrite Hlen, H11. unfold wrap64.
    rewrite <- Z.add_sub_assoc, Zplus_mod_idemp_l. f_equal. lia.
  - done.
Qed.

(** The ghost state a call starts with. *)
Definition loc_of (c : call) : loc :=
  match c with
  | CInsert _ _ => mkLoc ∅ 1 op_room 0 None
  | CGet _ | CRemove _ => mkLoc ∅ 0 0 0 None
  end.
Definition tok_of (c : call) : nat :=
  match c with
  | CInsert _ _ => 1
  | CGet _ | CRemove _ => 0
  end.

Lemma wp_code c s w : (∀ k, c ≠ CRemove k) → inv sl tl w → (s < length (hist w))%nat →
  wp sl tl N (kv_of c) (code fuel sl c) (post c s) (loc_of c) w.
Proof.
  intros Hc Hi Hs. destruct c as [k v|k|k]; [| |by destruct (Hc k)]; unfold code; apply wp_bind.
  - eapply wp_mono; [|by apply (wp_insert sl tl N s k v)]. intros b ℓ w' [Hd Ht]. split; [done|eauto].
  - eapply wp_mono; [|by apply (wp_get sl tl N None s k)]. intros r ℓ w' [-> Ha]. split; [done|eauto].
Qed.

Lemma pinv_invoke rem M0 σ w ls lin i c :
  pinv (tok_of c + rem) M0 σ w ls lin → threads σ !! i = Some None → (∀ k, c ≠ CRemove k) →
  pinv rem M0 (mkPool (<[i := Some (length (ops σ), code fuel sl c)]> (threads σ))
      (ops σ ++ [mkOp c (time σ) None]) (S (time σ)) (pmem σ))
    (tick w) (<[i := loc_of c]> ls) lin.
Proof.
  intros Hq Hi Hc. destruct (i_hist _ _ w (q_inv _ _ _ _ _ _ Hq)) as (M & HM & _).
  destruct (lookup_lt_is_Some_2 ls i) as [ℓ Hl].
  { rewrite (q_locs _ _ _ _ _ _ Hq). by eapply lookup_lt_Some. }
  assert (Hd : debt ℓ = 0%nat) by exact (q_threads _ _ _ _ _ _ Hq _ _ _ Hi Hl).
  assert (Hr0 : 0 ≤ room ℓ) by (apply (q_room0 _ _ _ _ _ _ Hq); by eapply list_elem_of_lookup_2).
  pose proof op_room_nonneg as Hop. pose proof (q_lin _ _ _ _ _ _ Hq) as Hlin.
  assert (Hfresh : lin !! length (ops σ) = None).
  { destruct (lin !! length (ops σ)) as [t|] eqn:E; [|done].
    destruct (l_calls _ _ _ _ Hlin _ _ E) as (? & Ho%lookup_lt_Some & _). lia. }
  assert (Hids : ∀ j id p, threads σ !! j = Some (Some (id, p)) → (id < length (ops σ))%nat).
  { intros j id p Hj. destruct (lookup_lt_is_Some_2 ls j) as [ℓj Hlj].
    { rewrite (q_locs _ _ _ _ _ _ Hq). by eapply lookup_lt_Some. }
    destruct (q_threads _ _ _ _ _ _ Hq _ _ _ Hj Hlj) as (c' & s & Ho & _). by eapply lookup_lt_Some. }
  rewrite <- (q_mem _ _ _ _ _ _ Hq). change (wm w) with (wm (tick w)).
  eapply (pinv_move (tok_of c + rem)); [exact Hq|exact Hl|apply tick_inv, Hq|apply tick_evolves|..].
  - destruct c; simpl; set_solver.
  - destruct c; simpl; lia.
  - destruct c; simpl; lia.
  - destruct c; simpl; lia.
  - assert (debt (loc_of c) = 0%nat) as -> by (by destruct c). rewrite Hd. simpl.
    rewrite wrap64_small; [lia|]. replace (_ - _) with (len (wm w)) by lia. apply (i_len sl tl w), Hq.
  - exists c, (time σ). split_and!.
    + by apply list_lookup_middle.
    + rewrite Hfresh. by destruct c.
    + simpl. rewrite length_app, (l_length _ _ _ _ Hlin), HM. simpl. lia.
    + apply code_busy.
    + apply wp_code; [done|apply tick_inv, Hq|].
      simpl. rewrite length_app, (l_length _ _ _ _ Hlin), HM. simpl. lia.
  - intros id p j q [= <- _] Hj Ht%Hids. lia.
  - intros j id p Hj Ht%Hids. split; [|done]. by apply lookup_app_l.
  - simpl. rewrite HM. simpl. apply lin_invoke with (ths := threads σ) (m := pmem σ).
    destruct σ. by eapply lin_stutter.
Qed.

(** What a step of call [id] does to the record of effects. *)
Lemma step_effect M0 σ w lin id c s ℓ ℓ' w' :
  linearized M0 σ (hist w) lin → ops σ !! id = Some (mkOp c s None) → lin !! id = eff ℓ →
  (s < length (hist w))%nat → guar sl (kv_of c) ℓ w ℓ' w' →
  ∃ lin', lin' !! id = eff ℓ' ∧ (∀ id', id' ≠ id → lin' !! id' = lin !! id') ∧
    (lin' = lin ∨ lin' = <[id := time σ]> lin) ∧
    ∀ ths m, linearized M0 (mkPool ths (ops σ) (S (time σ)) m) (hist w') lin'.
Proof.
  intros Hlin Ho Hl Hs Hg. destruct (g_hist _ _ _ _ _ _ Hg) as (M & HM & Hcase).
  pose proof (l_length _ _ _ _ Hlin) as Hlen. destruct σ as [ths0 os n m0]. simpl in *.
  destruct Hcase as [[-> He]|(k & v & Hkv & He & He' & ->)].
  - exists lin. split_and!; [congruence|done|by left|]. intros ths m. by eapply lin_stutter.
  - destruct c as [k' v'|k'|k']; [|done..]. injection Hkv as -> ->.
    exists (<[id := n]> lin). rewrite lookup_insert_eq, He', Hlen. split_and!.
    + f_equal. lia.
    + intros id' Hne. by rewrite lookup_insert_ne.
    + by right.
    + intros ths m. apply (lin_effect M0 ths0 _ _ m0 _ _ M ths m id (CInsert k v) s); [done..|congruence|lia].
Qed.

(** A call that returns satisfies its part of the specification. *)
Lemma post_linear M0 ths os n m h lin id c s o ℓ w :
  linearized M0 (mkPool ths os n m) h lin → os !! id = Some (mkOp c s None) →
  h = hist w → lin !! id = eff ℓ → post c s o ℓ w → (0 < n)%nat →
  op_linear h lin id (mkOp c s (Some (Nat.pred n, o))).
Proof.
  intros Hlin Ho -> Hl [_ Hp] Hn. pose proof (l_ops _ _ _ _ Hlin id _ Ho) as Hop.
  pose proof (l_length _ _ _ _ Hlin) as Hlen. unfold op_linear in *. simpl in *.
  destruct Hop as [H1 _]. split; [done|]. intros e o' [= <- <-]. rewrite Hl.
  destruct c as [k v|k|k]; [| |done].
  - destruct Hp as (b & -> & u & M & Hu & Hs & HM & ->). exists u, M. rewrite Hu. split_and!; [done..|].
    destruct (H1 u) as (M' & _ & _ & HS%lookup_lt_Some); [congruence|]. lia.
  - destruct Hp as (r & -> & u & M & Hu & HM & ->). exists u, M. split_and!; [done..|].
    apply lookup_lt_Some in HM as Hlt. destruct (eff ℓ) as [u'|] eqn:E; [|split_and!; [lia|done..]].
    destruct (l_calls _ _ _ _ Hlin id u' Hl) as (op & Ho' & Hg). simpl in Ho'. simplify_eq. by destruct (Hg k).
Qed.

Lemma pinv_step rem M0 σ w ls lin i id R (a : act R) k :
  pinv rem M0 σ w ls lin → threads σ !! i = Some (Some (id, Do a k)) →
  ∃ σ' w' ls' lin', pool_event fuel sl (Step i) σ = Ok σ' ∧ pinv rem M0 σ' w' ls' lin' ∧
    marks (Step i) σ lin lin'.
Proof.
  intros Hq Hi. destruct (lookup_lt_is_Some_2 ls i) as [ℓ Hl].
  { rewrite (q_locs _ _ _ _ _ _ Hq). by eapply lookup_lt_Some. }
  destruct (q_threads _ _ _ _ _ _ Hq _ _ _ Hi Hl) as (c & s & Ho & Hlin & Hs & _ & Hw).
  destruct (Hw w (q_inv _ _ _ _ _ _ Hq) (evolves_refl _ _ _) (pinv_bnd _ _ _ _ _ _ _ _ Hq Hl))
    as (r & ℓ' & w' & Hx & Hi' & Hg & Hk).
  destruct (step_effect M0 σ w lin id c s ℓ ℓ' w' (q_lin _ _ _ _ _ _ Hq) Ho Hlin Hs Hg)
    as (lin' & Hid & Hother & Hm & Hlin').
  assert (Hmk : marks (Step i) σ lin lin').
  { apply lookup_lt_Some in Hi as Hlt. intros id' t. destruct Hm as [->| ->]; [by left|].
    intros [[_ <-]|[_ ?]]%lookup_insert_Some; [right; eauto|by left]. }
  assert (Hr0 : 0 ≤ room ℓ').
  { apply (g_room0 _ _ _ _ _ _ Hg), (q_room0 _ _ _ _ _ _ Hq). by eapply list_elem_of_lookup_2. }
  assert (Hids : ∀ j id' p, j ≠ i → threads σ !! j = Some (Some (id', p)) → id' ≠ id).
  { intros j id' p Hj Ht ->. apply Hj. by eapply (q_ids _ _ _ _ _ _ Hq j i). }
  assert (Hmove : ∀ th' os', thread_ok w' os' lin' th' ℓ' →
    (∀ id' p, th' = Some (id', p) → id' = id) →
    (∀ id', id' ≠ id → os' !! id' = ops σ !! id') →
    linearized M0 (mkPool (<[i := th']> (threads σ)) os' (S (time σ)) (wm w')) (hist w') lin' →
    pinv rem M0 (mkPool (<[i := th']> (threads σ)) os' (S (time σ)) (wm w')) w' (<[i := ℓ']> ls) lin').
  { intros th' os' Hth Hsame Hos Hl'. pose proof (g_tok _ _ _ _ _ _ Hg). pose proof (g_room _ _ _ _ _ _ Hg).
    eapply (pinv_move rem); [exact Hq|exact Hl|done|apply Hg|apply Hg|done|lia|lia|apply Hg|done| | |done].
    - intros id' p j q -> Hj Ht. rewrite (Hsame _ _ eq_refl) in Ht. by eapply Hids.
    - intros j id' p Hj Ht. pose proof (Hids _ _ _ Hj Ht). split; [by apply Hos|by apply Hother]. }
  cbn [pool_event]. rewrite Hi, <- (q_mem _ _ _ _ _ _ Hq), Hx. cbn [rbind].
  destruct (k r) as [o|f|R' a' k'] eqn:Ekr; [|done|].
  - eexists _, w', (<[i := ℓ']> ls), lin'. split; [reflexivity|]. split; [|done]. apply Hmove.
    + apply Hk.
    + done.
    + intros id' Hne. by rewrite list_lookup_alter_ne.
    + eapply (lin_return _ []); [apply (Hlin' [] (wm w'))|exact Ho|].
      eapply (post_linear M0 [] _ (S (time σ)) (wm w')); [apply Hlin'|exact Ho|done|done|exact Hk|lia].
  - eexists _, w', (<[i := ℓ']> ls), lin'. split; [reflexivity|]. split; [|done]. apply Hmove.
    + exists c, s. split_and!; [done|done| |by intros []|done].
      exact (hist_later _ _ _ _ _ (g_ev _ _ _ _ _ _ Hg) Hs).
    + by intros id' p [= -> _].
    + done.
    + apply Hlin'.
Qed.

Lemma pinv_event rem M0 σ w ls lin e :
  pinv (is_insert e + rem) M0 σ w ls lin → is_remove e = 0%nat →
  ∃ σ' w' ls' lin', pool_event fuel sl e σ = Ok σ' ∧ pinv rem M0 σ' w' ls' lin' ∧ marks e σ lin lin'.
Proof.
  intros Hq He. destruct e as [i c|i].
  - assert (Hc : is_insert (Invoke i c) = tok_of c) by (by destruct c). rewrite Hc in Hq. cbn [pool_event].
    destruct (threads σ !! i) as [[x|]|] eqn:Hi; cycle 1.
    { eexists _, _, _, _. split; [reflexivity|]. split; [|apply marks_refl].
      apply pinv_invoke; [done|done|]. by intros k ->. }
    all: eexists _, _, ls, lin; split; [reflexivity|]; split; [|apply marks_refl]; apply pinv_idle.
    all: destruct Hq as [H1 H2 H3 H4 H5 H6 H7 H8 H9 H10 H11 H12]; split; try done; [lia|].
    all: pose proof op_room_nonneg; nia.
  - simpl in Hq. destruct (threads σ !! i) as [[[id [o|f|R a k]]|]|] eqn:Hi.
    + exfalso. destruct (lookup_lt_is_Some_2 ls i) as [ℓ Hl].
      { rewrite (q_locs _ _ _ _ _ _ Hq). by eapply lookup_lt_Some. }
      destruct (q_threads _ _ _ _ _ _ Hq _ _ _ Hi Hl) as (c & s & _ & _ & _ & Hp & _). by apply Hp.
    + exfalso. destruct (lookup_lt_is_Some_2 ls i) as [ℓ Hl].
      { rewrite (q_locs _ _ _ _ _ _ Hq). by eapply lookup_lt_Some. }
      by destruct (q_threads _ _ _ _ _ _ Hq _ _ _ Hi Hl) as (c & s & _ & _ & _ & _ & Hw).
    + by eapply pinv_step.
    + cbn [pool_event]. rewrite Hi. eexists _, _, ls, lin. split; [reflexivity|].
      split; [by apply pinv_idle|apply marks_refl].
    + cbn [pool_event]. rewrite Hi. eexists _, _, ls, lin. split; [reflexivity|].
      split; [by apply pinv_idle|apply marks_refl].
Qed.

Lemma pinv_exec es : ∀ M0 σ w ls lin,
  removes es = 0%nat → pinv (inserts es) M0 σ w ls lin →
  ∃ σ' w' ls' lin', pool_exec fuel sl es σ = Ok σ' ∧ pinv 0 M0 σ' w' ls' lin' ∧
    effects_at es σ lin lin'.
Proof.
  induction es as [|e es IH]; intros M0 σ w ls lin Hno Hq.
  { exists σ, w, ls, lin. split_and!; [done|done|]. intros id t Ht. by left. }
  unfold removes in Hno. simpl in Hno.
  destruct (pinv_event (inserts es) M0 σ w ls lin e Hq) as (σ1 & w1 & ls1 & lin1 & Hx & Hq1 & Hm); [lia|].
  cbn [pool_exec]. rewrite Hx. cbn [rbind].
  destruct (IH M0 σ1 w1 ls1 lin1) as (σ' & w' & ls' & lin' & Hx' & Hq' & Ha); [unfold removes; lia|done|].
  exists σ', w', ls', lin'. split_and!; [done|done|]. by eapply effects_cons.
Qed.

End lin.

(** ** The start *)

(** The world of a quiescent list. *)
Definition world_of (m : Mem) (es : list entry) : world :=
  mkWorld m (λ l, addrs l es) (list_to_set (e_vptr <$> es)) [abs es].

Lemma abs_lookup es k bs : StronglySorted blt (e_key <$> es) →
  abs es !! k = Some bs ↔ ∃ e, e ∈ es ∧ e_key e = k ∧ e_bytes e = bs.
Proof.
  intros Hs%sorted_NoDup. unfold abs. rewrite <- elem_of_list_to_map.
  - rewrite list_elem_of_fmap. naive_solver.
  - rewrite <- list_fmap_compose. exact Hs.
Qed.

Lemma sorted_entries m es hd tl :
  nodes m !! hd = Some (mkNode NegInf 0 (MAX_HEIGHT - 1)) →
  nodes m !! tl = Some (mkNode PosInf 0 (MAX_HEIGHT - 1)) →
  (∀ e, e ∈ es → nodes m !! e_addr e = Some (mkNode (fin (e_key e)) (e_vptr e) (e_top e))) →
  StronglySorted blt (e_key <$> es) → StronglySorted (alt m) (hd :: (e_addr <$> es) ++ [tl]).
Proof.
  intros Hh Ht He Hs. constructor.
  - induction es as [|e es IH]; simpl in *; [repeat constructor|]. inversion_clear Hs as [|? ? Hs' Hf].
    constructor; [apply IH; [set_solver|done]|]. apply Forall_app. split.
    + rewrite Forall_fmap, Forall_forall in Hf. rewrite Forall_fmap, Forall_forall. intros e' He'.
      eexists _, _. split; [apply He; set_solver|]. split; [apply He; set_solver|].
      simpl. rewrite !as_bytes_new. by apply Hf.
    + constructor; [|constructor]. eexists _, _. split; [apply He; set_solver|]. done.
  - apply Forall_app. split; [|constructor; [|constructor]].
    + rewrite Forall_fmap, Forall_forall. intros e' He'. eexists _, _. split; [exact Hh|].
      split; [by apply He|done].
    + eexists _, _. split; [exact Hh|]. done.
Qed.

Lemma addrs_sub l es : sublist (addrs (S l) es) (addrs l es).
Proof.
  unfold addrs. apply fmap_sublist. induction es as [|e es IH]; [done|]. rewrite !filter_cons.
  repeat case_decide; try lia; [by apply sublist_skip|by apply sublist_cons|done].
Qed.

Lemma world_of_inv sl tl m es G gv : rep sl tl m es G gv → inv sl tl (world_of m es).
Proof.
  intros [Hmh Hhd Htail Htl Hent Hnd Hvals Hgv Hret Hheap Hsort Hlen Hch Hln Hlv].
  rewrite Forall_app in Hent. destruct Hent as [Hent _]. rewrite Forall_forall in Hent.
  split; simpl; try done.
  - rewrite Hlen. apply wrap64_range.
  - intros a (e & He & <- & _)%elem_of_addrs. destruct (Hent e He) as (Hn & Hv & Ht).
    exists (e_key e), (e_vptr e), (e_top e). split_and!; [done..|].
    apply elem_of_list_to_set. by apply list_elem_of_fmap_2.
  - intros v (e & -> & He)%elem_of_list_to_set%list_elem_of_fmap.
    destruct (Hent e He) as (_ & Hv & _). eauto.
  - unfold full. simpl. rewrite addrs_0. apply sorted_entries; [done|done| |done].
    intros e He. by apply Hent.
  - intros l. apply addrs_sub.
  - exists (abs es). split; [done|]. intros k bs. rewrite abs_lookup by done. rewrite addrs_0. split.
    + intros (e & He & <- & <-). destruct (Hent e He) as (Hn & Hv & _).
      exists (e_addr e), (e_vptr e), (e_top e). split_and!; [by apply list_elem_of_fmap_2|done|done].
    + intros (a & v & t & (e & -> & He)%list_elem_of_fmap & Hn' & Hv').
      destruct (Hent e He) as (Hn & Hv & _). exists e. rewrite Hn in Hn'.
      injection Hn' as Hk <- _. apply (f_equal as_bytes) in Hk. rewrite !as_bytes_new in Hk.
      split_and!; [done|done|congruence].
Qed.

(** The map has one entry per linked node. *)
Lemma holds_size sl tl w M : inv sl tl w → holds (wm w) (lv w 0) M → size M = length (lv w 0).
Proof.
  intros Hi Hh.
  assert (Hks : ∃ ks, Forall2 (λ a k, key_at w a (fin k)) (lv w 0) ks).
  { assert (Ha : ∀ a, a ∈ lv w 0 → ∃ k, key_at w a (fin k)).
    { intros a Ha. destruct (i_nodes _ _ w Hi a Ha) as (k & v & t & Hn & _). exists k. by eexists. }
    revert Ha. generalize (lv w 0). intros L. induction L as [|a L IH]; intros Ha; [by exists []|].
    destruct (Ha a) as [k Hk]; [set_solver|]. destruct IH as [ks Hks]; [set_solver|].
    exists (k :: ks). by constructor. }
  destruct Hks as [ks Hks].
  assert (Hdom : dom M = list_to_set ks).
  { apply set_eq. intros k. rewrite elem_of_dom, elem_of_list_to_set. split.
    - intros [bs (a & v & t & Ha & Hn & _)%Hh]. apply list_elem_of_lookup in Ha as [i Hia].
      destruct (Forall2_lookup_l _ _ _ _ _ Hks Hia) as (k' & Hk' & nd & Hn' & Hkey).
      rewrite Hn in Hn'. simplify_eq. cbn [key] in Hkey. apply fin_inj in Hkey as ->.
      by eapply list_elem_of_lookup_2.
    - intros [i Hik]%list_elem_of_lookup. destruct (Forall2_lookup_r _ _ _ _ _ Hks Hik) as (a & Hia & Ka).
      destruct (shared_value sl tl w a k Hi) as (v & t & bs & M' & Hn & _ & _ & Hv & _ & _);
        [by eapply list_elem_of_lookup_2|done|].
      exists bs. apply Hh. exists a, v, t. split_and!; [by eapply list_elem_of_lookup_2|done..]. }
  rewrite <- size_dom, Hdom, size_list_to_set; [symmetry; by eapply Forall2_length|].
  apply NoDup_alt. intros i j k Hi1 Hj1.
  destruct (Forall2_lookup_r _ _ _ _ _ Hks Hi1) as (a & Ha & Ka).
  destruct (Forall2_lookup_r _ _ _ _ _ Hks Hj1) as (b & Hb & Kb).
  assert (a = b) as ->.
  { eapply (key_unique sl tl w); [done|unfold full; apply list_elem_of_further, elem_of_app; left;
      by eapply list_elem_of_lookup_2..|done|done]. }
  pose proof (full_nodup sl tl w 0 Hi) as Hnd. unfold full in Hnd.
  apply NoDup_cons in Hnd as [_ Hnd]. apply NoDup_app in Hnd as [Hnd _].
  by eapply NoDup_lookup.
Qed.

(** Idle threads on a quiescent list satisfy the invariant of the pool. *)
Lemma pinv_start sl tl m es G gv n evs :
  rep sl tl m es G gv → let N := (length es + inserts evs)%nat in
  brk m + Z.of_nat (inserts evs) * op_room N ≤ W64 →
  pinv sl tl N (inserts evs) (abs es) (pool_start n m) (world_of m es)
    (replicate n (mkLoc ∅ 0 0 0 None)) ∅.
Proof.
  intros Hr N Hroom. pose proof (r_len _ _ _ _ _ _ Hr) as Hlen.
  assert (Hsum : ∀ f : loc → Z, f (mkLoc ∅ 0 0 0 None) = 0 →
    sumZ f (replicate n (mkLoc ∅ 0 0 0 None)) = 0).
  { intros f Hf. apply sumZ_zero. intros x [-> _]%elem_of_replicate. done. }
  assert (Hl0 : length (addrs 0 es) = length es) by (rewrite addrs_0; apply length_fmap).
  split; simpl.
  - done.
  - by eapply world_of_inv.
  - by rewrite !length_replicate.
  - intros i th ℓ [-> _]%lookup_replicate [-> _]%lookup_replicate. done.
  - intros i j id p q [? _]%lookup_replicate. done.
  - intros i ℓ a [-> _]%lookup_replicate Ha. set_solver.
  - intros i j ℓ ℓ' a _ [-> _]%lookup_replicate _ Ha. set_solver.
  - intros ℓ [-> _]%elem_of_replicate. done.
  - rewrite Hsum by done. rewrite Hl0. lia.
  - rewrite Hsum by done. lia.
  - rewrite Hsum by done. rewrite Hl0, Hlen. f_equal. lia.
  - split; simpl; try done. lia.
Qed.

(** What the theorem below says, with the events at which effects happen. *)
Lemma pool_linearizes (sl : SkipList) (tl : Z) (m : Mem) (es G : list entry)
    (gv : list Z) (n fuel : nat) (evs : list event) :
  rep sl tl m es G gv → (length es + inserts evs + 2 ≤ fuel)%nat →
  brk m + Z.of_nat (inserts evs) * op_room (length es + inserts evs) ≤ W64 → removes evs = 0%nat →
  ∃ σ h lin, pool_exec fuel sl evs (pool_start n m) = Ok σ ∧
    linearized (abs es) σ h lin ∧
    (∀ id t, lin !! id = Some t → ∃ i, evs !! t = Some (Step i) ∧ (i < n)%nat) ∧
    (Forall (λ th, th = None) (threads σ) →
     ∃ M, last h = Some M ∧ sl_len (pmem σ) = wrap64 (Z.of_nat (size M))).
Proof.
  intros Hrep Hfuel Hroom Hno.
  destruct (pinv_exec sl tl fuel _ Hfuel evs _ _ _ _ _ Hno (pinv_start sl tl m es G gv n evs Hrep Hroom))
    as (σ & w & ls & lin & Hx & Hq & Ha).
  exists σ, (hist w), lin. split_and!; [done|apply Hq| |].
  - intros id t Ht. destruct (Ha id t Ht) as [Hn|(u & i & -> & Hu & Hi)]; [by rewrite lookup_empty in Hn|].
    simpl in *. rewrite length_replicate in Hi. eauto.
  - intros Hidle.
    destruct (i_hist _ _ w (q_inv _ _ _ _ _ _ _ _ _ Hq)) as (M & HM & Hh). exists M. split; [done|].
    unfold sl_len. rewrite <- (q_mem _ _ _ _ _ _ _ _ _ Hq), (q_len _ _ _ _ _ _ _ _ _ Hq).
    rewrite (holds_size sl tl w M); [|apply Hq|done]. f_equal. rewrite sumZ_zero; [lia|].
    intros ℓ [i Hi]%list_elem_of_lookup. destruct (lookup_lt_is_Some_2 (threads σ) i) as [th Ht].
    { rewrite <- (q_locs _ _ _ _ _ _ _ _ _ Hq). by eapply lookup_lt_Some. }
    pose proof (q_threads _ _ _ _ _ _ _ _ _ Hq _ _ _ Ht Hi) as Hok.
    rewrite (Forall_lookup_1 _ _ _ _ Hidle Ht) in Hok. simpl in Hok. lia.
Qed.

(** [C2] Inserts and lookups that run at the same time are linearizable: from
    any quiescent skiplist, for any number of threads, any calls and any
    interleaving of their atomic accesses (no removal among them), no access
    faults and no loop runs out of rounds; the map changes exactly at the
    effects of insertions, one effect per insertion, between its call and its
    return, and the insertion reports whether the key was absent at that instant; a lookup returns what
    the map held for its key at some instant between its call and its return;
    and when all calls have returned [len] is the size of the map. *)
Theorem skiplist_linearizable (sl : SkipList) (tl : Z) (m : Mem) (es G : list entry)
    (gv : list Z) (n fuel : nat) (evs : list event)
    (Hrep : rep sl tl m es G gv)
    (Hfuel : (length es + inserts evs + 2 ≤ fuel)%nat)
    (Hroom : brk m + Z.of_nat (inserts evs) * op_room (length es + inserts evs) ≤ W64)
    (Hno : removes evs = 0%nat) :
  ∃ σ h lin, pool_exec fuel sl evs (pool_start n m) = Ok σ ∧
    linearized (abs es) σ h lin ∧
    (Forall (λ th, th = None) (threads σ) →
     ∃ M, last h = Some M ∧ sl_len (pmem σ) = wrap64 (Z.of_nat (size M))).
Proof.
  destruct (pool_linearizes sl tl m es G gv n fuel evs Hrep Hfuel Hroom Hno) as (σ & h & lin & ? & ? & _ & ?).
  by exists σ, h, lin.
Qed.

(** ** Witness: two inserts of one key and a lookup, interleaved *)

Definition lin_list : SkipList := mkSkipList 8 1.
Definition lin_events : list event :=
  [Invoke 0 (CInsert [7] [70]); Invoke 1 (CInsert [7] [71]); Invoke 2 (CGet [7])]
  ++ concat (replicate 40 [Step 0; Step 1; Step 2]).

Lemma skiplist_linearizable_witness :
  (σ ←r pool_exec 4 lin_list lin_events (pool_start 3 (sentinels 3)); Ok (o_res <$> ops σ))
    = Ok [Some (48, OBool true); Some (73, OBool false); Some (23, OBytes None)]%nat ∧
  ∃ σ h lin, pool_exec 4 lin_list lin_events (pool_start 3 (sentinels 3)) = Ok σ ∧
    linearized (abs []) σ h lin.
Proof.
  split; [vm_compute; reflexivity|].
  destruct (skiplist_linearizable lin_list 176 (sentinels 3) [] [] [] 3 4 lin_events)
    as (σ & h & lin & Hx & Hl & _).
  - apply (with_max_level_run 1 3). apply Nat.leb_le. reflexivity.
  - apply Nat.leb_le. reflexivity.
  - apply Z.leb_le. vm_compute. reflexivity.
  - reflexivity.
  - exists σ, h, lin. split; [exact Hx|exact Hl].
Defined.
