(* ===== verification/SkipListConcRem.v ===== *)
(** * SkipListConcRem: removals and lookups that run at the same time

    The programs [remove] and [get] of [SkipList] under interleaving, while
    nobody inserts (an insert that overlaps a remove is what [SkipListRace] is
    about). Everything that happens to the memory is then monotone: a link only
    moves forward over marked nodes, a marked link is frozen, and no cell is
    allocated or freed. So what a thread has seen stays true whatever the
    others do, and the number of times links can still change bounds the
    retries. [rwp] says that an operation, from a given world on, never faults,
    touches only nodes that traversals met when it began and ends in a given
    postcondition; [SkipListRemLin] has the result about the pool of threads. *)

From Stdlib Require Import Sorted.
From S2P Require Import Prelude Backoff Index SkipList SkipListProof SkipListRep SkipListRemove.
From S2P Require Import SkipListConc SkipListConcIns SkipListLin.
Local Open Scope Z_scope.
Local Open Scope zkv_scope.

(** ** Positions in a list *)

(** How many elements follow [c]. *)
Fixpoint ahead (c : Z) (xs : list Z) : nat :=
  match xs with
  | [] => 0
  | x :: xs => if decide (x = c) then length xs else ahead c xs
  end.

Lemma ahead_app A c D : c ∉ A → ahead c (A ++ c :: D) = length D.
Proof.
  induction A as [|a A IH]; simpl; intros Hn; [by rewrite decide_True|].
  rewrite decide_False by set_solver. apply IH. set_solver.
Qed.

Lemma ahead_lt c xs : c ∈ xs → (ahead c xs < length xs)%nat.
Proof.
  induction xs as [|x xs IH]; [by intros ?%elem_of_nil|]. simpl. case_decide; [lia|].
  intros [->|Hc]%elem_of_cons; [done|]. specialize (IH Hc). lia.
Qed.

Lemma ahead_le c xs : (ahead c xs ≤ length xs)%nat.
Proof. induction xs as [|x xs IH]; simpl; [done|]. case_decide; lia. Qed.

Lemma sum_list_with_le {A} (f g : A → nat) xs :
  (∀ x, x ∈ xs → (f x ≤ g x)%nat) → (sum_list_with f xs ≤ sum_list_with g xs)%nat.
Proof.
  induction xs as [|x xs IH]; simpl; intros H; [done|].
  pose proof (H x ltac:(set_solver)). specialize (IH ltac:(set_solver)). lia.
Qed.

Lemma sum_list_with_lt {A} (f g : A → nat) xs y :
  (∀ x, x ∈ xs → (f x ≤ g x)%nat) → y ∈ xs → (f y < g y)%nat →
  (sum_list_with f xs < sum_list_with g xs)%nat.
Proof.
  induction xs as [|x xs IH]; simpl; intros H Hy Hlt; [by apply elem_of_nil in Hy|].
  pose proof (H x ltac:(set_solver)). apply elem_of_cons in Hy as [->|Hy].
  - assert (sum_list_with f xs ≤ sum_list_with g xs)%nat; [|lia]. apply sum_list_with_le. set_solver.
  - specialize (IH ltac:(set_solver) Hy Hlt). lia.
Qed.

Lemma sum_list_with_bound {A} (f : A → nat) b xs :
  (∀ x, x ∈ xs → (f x ≤ b)%nat) → (sum_list_with f xs ≤ length xs * b)%nat.
Proof.
  induction xs as [|x xs IH]; simpl; intros H; [lia|].
  pose proof (H x ltac:(set_solver)). specialize (IH ltac:(set_solver)). lia.
Qed.

Section rem.
Context (sl : SkipList) (tl : Z) (m0 : Mem) (es G : list entry) (gv : list Z).
Context (Hrep : rep sl tl m0 es G gv).

(** ** The nodes, which stay what they are *)

(** A level with its sentinels, as it was at the start. *)
Definition level (l : nat) : list Z := head sl :: addrs l es ++ [tl].

(** The key of a node. *)
Definition nkey (p : Z) (bk : BoundKey) : Prop := ∃ nd, nodes m0 !! p = Some nd ∧ key nd = bk.

Lemma level_nodup l : NoDup (level l).
Proof. exact (full_nodup sl tl _ l (world_of_inv _ _ _ _ _ _ Hrep)). Qed.

Lemma level_tag l p : p ∈ level l → taggable p.
Proof. exact (full_taggable sl tl _ l p (world_of_inv _ _ _ _ _ _ Hrep)). Qed.

Lemma level_key l p : p ∈ level l → ∃ bk, nkey p bk.
Proof. exact (key_at_ex sl tl _ l p (world_of_inv _ _ _ _ _ _ Hrep)). Qed.

Lemma level_lt l A p B c D bp bc :
  level l = A ++ p :: B ++ c :: D → nkey p bp → nkey c bc → bk_lt bp bc.
Proof.
  intros Hl (np & Hp & <-) (nc & Hc & <-).
  pose proof (full_sorted sl tl _ l (world_of_inv _ _ _ _ _ _ Hrep)) as Hs.
  change (full sl tl (world_of m0 es) l) with (level l) in Hs. rewrite Hl in Hs. apply sorted_pair in Hs.
  destruct Hs as (n1 & n2 & H1 & H2 & Hlt). simpl in H1, H2. by simplify_eq.
Qed.

Lemma level_down l p : p ∈ head sl :: addrs (S l) es → p ∈ head sl :: addrs l es.
Proof.
  intros [->|Hp]%elem_of_cons; [apply list_elem_of_here|]. apply list_elem_of_further.
  eapply elem_of_sublist; [exact Hp|apply addrs_sub].
Qed.

Lemma level_entry e l : e ∈ es → (l ≤ e_top e)%nat → e_addr e ∈ addrs l es.
Proof. intros He Hl. apply elem_of_addrs. eauto. Qed.

Lemma entry_node e : e ∈ es → nodes m0 !! e_addr e = Some (mkNode (fin (e_key e)) (e_vptr e) (e_top e)) ∧
  values m0 !! e_vptr e = Some (e_bytes e) ∧ (e_top e ≤ max_level sl)%nat ∧ e_vptr e ≠ 0.
Proof.
  intros He. pose proof (r_entries _ _ _ _ _ _ Hrep) as Hent. rewrite Forall_forall in Hent.
  destruct (Hent e ltac:(set_solver)) as (Hn & Hv & Ht). split_and!; [done..|].
  assert (0 < e_vptr e < brk m0); [|lia]. apply (h_values m0 (r_heap _ _ _ _ _ _ Hrep)). eauto.
Qed.

Lemma entry_nkey e : e ∈ es → nkey (e_addr e) (fin (e_key e)).
Proof. intros He. destruct (entry_node e He) as [Hn _]. by eexists. Qed.

Lemma entry_inj e e' : e ∈ es → e' ∈ es → e_key e = e_key e' ∨ e_addr e = e_addr e' → e = e'.
Proof.
  intros [i Hi]%list_elem_of_lookup [j Hj]%list_elem_of_lookup Heq.
  assert (i = j) as ->; [|congruence]. destruct Heq as [Heq|Heq].
  - pose proof (sorted_NoDup _ (r_sorted _ _ _ _ _ _ Hrep)) as Hnd.
    eapply (NoDup_lookup _ _ _ (e_key e) Hnd); rewrite list_lookup_fmap; [by rewrite Hi|by rewrite Hj, Heq].
  - pose proof (r_addrs _ _ _ _ _ _ Hrep) as Hnd. rewrite !NoDup_cons, fmap_app, NoDup_app in Hnd.
    destruct Hnd as (_ & _ & Hnd & _).
    eapply (NoDup_lookup _ _ _ (e_addr e) Hnd); rewrite list_lookup_fmap; [by rewrite Hi|by rewrite Hj, Heq].
Qed.

(** A data node of a level is one of the entries. *)
Lemma level_fin l c k : c ∈ level l → nkey c (fin k) → ∃ e, e ∈ es ∧ e_addr e = c ∧ e_key e = k ∧ (l ≤ e_top e)%nat.
Proof.
  intros Hc (nd & Hn & Hk). unfold level in Hc.
  rewrite elem_of_cons, elem_of_app, list_elem_of_singleton in Hc. destruct Hc as [->|[Hc| ->]].
  - rewrite (r_head _ _ _ _ _ _ Hrep) in Hn. by simplify_eq.
  - apply elem_of_addrs in Hc as (e & He & <- & Hl). exists e. split_and!; [done..| |done].
    destruct (entry_node e He) as [Hn' _]. rewrite Hn in Hn'. simplify_eq. by apply fin_inj.
  - rewrite (r_tail _ _ _ _ _ _ Hrep) in Hn. by simplify_eq.
Qed.

(** ** The links, which only move forward *)

Definition marked (m : Mem) (p : Z) (l : nat) : Prop :=
  ∃ v, links m !! (p, l) = Some v ∧ Link.mark_of v = true.

#[export] Instance marked_dec m p l : Decision (marked m p l).
Proof.
  destruct (links m !! (p, l)) as [v|] eqn:Hl; [|right; intros (v & Hv & _); congruence].
  destruct (Link.mark_of v) eqn:Hm; [left; by exists v|right; intros (v' & Hv & Hm'); congruence].
Defined.

(** [c] comes after [p] and everything in between is deleted at this level. *)
Definition skips (m : Mem) (l : nat) (p c : Z) : Prop :=
  ∃ A B D, level l = A ++ p :: B ++ c :: D ∧ ∀ b, b ∈ B → marked m b l.

(** The nodes a traversal of a level meets. *)
Inductive reach (m : Mem) (l : nat) : Z → Prop :=
| reach_head : reach m l (head sl)
| reach_next p v : reach m l p → p ∈ head sl :: addrs l es → links m !! (p, l) = Some v →
    reach m l (Link.ptr_of v).

(** No traversal meets a node between [p] and [c]. *)
Definition cut (m : Mem) (l : nat) (p c : Z) : Prop :=
  ∀ x, x ∈ level l → (ahead c (level l) < ahead x (level l) < ahead p (level l))%nat → ¬ reach m l x.

Record rinv (m : Mem) (M : store_map) (gone : list Z) : Prop := mkRinv {
  ri_len : is_u64 (len m);
  ri_heap : heap_ok m;
  ri_nodes : nodes m = nodes m0;
  ri_values : values m = values m0;
  ri_tail : ∀ l, (l < MAX_HEIGHT)%nat → links m !! (tl, l) = Some 0;
  ri_link : ∀ l p, (l ≤ max_level sl)%nat → p ∈ head sl :: addrs l es →
    ∃ c k, links m !! (p, l) = Some (Link.pack c k) ∧ skips m l p c ∧ cut m l p c;
  ri_reach : ∀ l p, (l ≤ max_level sl)%nat → p ∈ head sl :: addrs l es → ¬ marked m p l → reach m l p;
  ri_head : ∀ l, (l ≤ max_level sl)%nat → ¬ marked m (head sl) l;
  ri_down : ∀ e l, e ∈ es → (S l ≤ e_top e)%nat → marked m (e_addr e) l → marked m (e_addr e) (S l);
  ri_map : ∀ k bs, M !! k = Some bs ↔
    ∃ e, e ∈ es ∧ e_key e = k ∧ e_bytes e = bs ∧ ¬ marked m (e_addr e) 0;
  ri_nodup : NoDup gone;
  ri_gone : ∀ a, a ∈ gone ↔ ∃ e, e ∈ es ∧ e_addr e = a ∧ marked m a 0
}.

(** ** How often links can still change *)

Definition cells : list (Z * nat) :=
  concat ((λ l, (λ p, (p, l)) <$> head sl :: addrs l es) <$> seq 0 (S (max_level sl))).

Definition weight (m : Mem) (x : Z * nat) : nat :=
  match links m !! x with
  | Some v => 2 * ahead (Link.ptr_of v) (level x.2) + if Link.mark_of v then 0 else 1
  | None => 0
  end.

Definition pot (m : Mem) : nat := sum_list_with (weight m) cells.

Lemma elem_of_cells p l : (p, l) ∈ cells ↔ (l ≤ max_level sl)%nat ∧ p ∈ head sl :: addrs l es.
Proof.
  unfold cells. rewrite list_elem_of_In, in_concat. setoid_rewrite <- list_elem_of_In. split.
  - intros (xs & Hxs & Hp). apply list_elem_of_fmap in Hxs as (l' & -> & Hl').
    apply list_elem_of_fmap in Hp as (p' & [= -> ->] & Hp'). apply elem_of_seq in Hl'. split; [lia|done].
  - intros [Hl Hp]. exists ((λ p, (p, l)) <$> head sl :: addrs l es). split.
    + apply list_elem_of_fmap. exists l. split; [done|]. apply elem_of_seq. lia.
    + apply list_elem_of_fmap. eauto.
Qed.

Lemma level_length l : (length (level l) ≤ length es + 2)%nat.
Proof. unfold level. simpl. rewrite length_app. simpl. pose proof (length_addrs l es). lia. Qed.

Lemma cells_length n : ∀ i,
  (length (concat ((λ l, (λ p : Z, (p, l)) <$> head sl :: addrs l es) <$> seq i n)) ≤ n * S (length es))%nat.
Proof.
  induction n as [|n IH]; intros i; [done|]. cbn [seq]. rewrite fmap_cons, concat_cons, length_app, length_fmap.
  specialize (IH (S i)). pose proof (length_addrs i es). rewrite Nat.mul_succ_l. cbn [length]. lia.
Qed.

(** A bound on the potential, whatever the links are. *)
Definition pot_bound : nat :=
  (S (max_level sl) * S (length es) * (2 * (length es + 2) + 1))%nat.

Lemma pot_le m : (pot m ≤ pot_bound)%nat.
Proof.
  unfold pot. etrans; [apply (sum_list_with_bound _ (2 * (length es + 2) + 1))|].
  - intros [p l] _. unfold weight. destruct (links m !! (p, l)) as [v|]; [|lia].
    pose proof (ahead_le (Link.ptr_of v) (level l)) as H. pose proof (level_length l).
    cbn [snd]. destruct (Link.mark_of v); lia.
  - unfold pot_bound. apply Nat.mul_le_mono_r, cells_length.
Qed.

(** ** Skipping deleted nodes *)

Lemma skips_elem m l p c : skips m l p c → p ∈ head sl :: addrs l es ∧ c ∈ addrs l es ++ [tl].
Proof.
  intros (A & B & D & Hl & _). unfold level in Hl. split.
  - destruct (decide (D = [])) as [->|HD].
    + change (head sl :: addrs l es ++ [tl]) with ((head sl :: addrs l es) ++ [tl]) in Hl.
      replace (A ++ p :: B ++ [c]) with ((A ++ p :: B) ++ [c]) in Hl by (by rewrite <- app_assoc).
      apply app_inj_2 in Hl as [Hl _]; [|done]. rewrite Hl. set_solver.
    + destruct (exists_last HD) as (D' & d & ->).
      change (head sl :: addrs l es ++ [tl]) with ((head sl :: addrs l es) ++ [tl]) in Hl.
      replace (A ++ p :: B ++ c :: D' ++ [d]) with ((A ++ p :: B ++ c :: D') ++ [d]) in Hl
        by (by rewrite <- !app_assoc, <- !app_comm_cons, <- !app_assoc).
      apply app_inj_2 in Hl as [Hl _]; [|done]. rewrite Hl. set_solver.
  - destruct A as [|a A]; injection Hl as _ ->; set_solver.
Qed.

Lemma skips_level m l p c : skips m l p c → p ∈ level l ∧ c ∈ level l.
Proof. intros (A & B & D & -> & _). set_solver. Qed.

Lemma split_ahead l A p B c D :
  level l = A ++ p :: B ++ c :: D → (ahead c (level l) < ahead p (level l))%nat.
Proof.
  intros Hl. pose proof (level_nodup l) as Hnd. rewrite Hl in Hnd |- *.
  rewrite NoDup_app, NoDup_cons, NoDup_app in Hnd.
  destruct Hnd as (_ & Hd1 & Hp & _ & Hd2 & _).
  rewrite (ahead_app A p) by (intros Hin; apply (Hd1 p Hin); set_solver).
  rewrite app_comm_cons, app_assoc, ahead_app; [rewrite !length_app; simpl; lia|].
  intros [Hin|[->|Hin]%elem_of_cons]%elem_of_app.
  - apply (Hd1 c Hin). set_solver.
  - set_solver.
  - apply (Hd2 c Hin). set_solver.
Qed.

Lemma skips_ahead m l p c : skips m l p c → (ahead c (level l) < ahead p (level l))%nat.
Proof. intros (A & B & D & Hl & _). by eapply split_ahead. Qed.

Lemma skips_trans m l p c d : skips m l p c → marked m c l → skips m l c d → skips m l p d.
Proof.
  intros (A & B & D & Hl & HB) Hc (A' & B' & D' & Hl' & HB').
  pose proof (level_nodup l) as Hnd. rewrite Hl in Hnd, Hl'.
  rewrite app_comm_cons, app_assoc in Hnd, Hl'.
  destruct (nodup_split _ _ _ _ _ Hnd Hl') as [_ ->].
  exists A, (B ++ c :: B'), D'. split; [by rewrite Hl, <- !app_assoc|].
  intros b [Hb|[->|Hb]%elem_of_cons]%elem_of_app; auto.
Qed.

(** Everything strictly between is deleted. *)
Lemma skips_between m l p c x bp bc bx :
  skips m l p c → x ∈ level l → nkey p bp → nkey c bc → nkey x bx →
  bk_lt bp bx → bk_lt bx bc → marked m x l.
Proof.
  intros (A & B & D & Hl & HB) Hx Kp Kc Kx H1 H2. rewrite Hl in Hx.
  assert (Hir : ∀ b b', bk_lt b b' → bk_lt b' b → False).
  { intros b b' Hb Hb'. eapply bk_lt_irrefl, bk_lt_trans; eauto. }
  assert (Hfun : ∀ q b b', nkey q b → nkey q b' → b = b').
  { intros q b b' (n1 & Hn1 & <-) (n2 & Hn2 & <-). congruence. }
  apply elem_of_app in Hx as [Hx|[->|Hx]%elem_of_cons].
  - exfalso. apply list_elem_of_split in Hx as (A1 & A2 & ->).
    apply (Hir bp bx); [done|]. eapply (level_lt l A1 x A2 p (B ++ c :: D)); [|done..].
    by rewrite Hl, <- app_assoc.
  - exfalso. rewrite (Hfun _ _ _ Kp Kx) in H1. by eapply bk_lt_irrefl.
  - apply elem_of_app in Hx as [Hx|[->|Hx]%elem_of_cons]; [by apply HB|..]; exfalso.
    + rewrite (Hfun _ _ _ Kc Kx) in H2. by eapply bk_lt_irrefl.
    + apply list_elem_of_split in Hx as (D1 & D2 & ->). apply (Hir bx bc); [done|].
      eapply (level_lt l (A ++ p :: B) c D1 x D2); [|done..]. by rewrite Hl, <- app_assoc.
Qed.

(** ** One link changes *)

Definition set_link (m : Mem) (p : Z) (l : nat) (c : Z) (k : bool) : Mem :=
  set_links m (<[(p, l) := Link.pack c k]> (links m)).

Lemma marked_set m p l c0 c k q j :
  links m !! (p, l) = Some (Link.pack c0 false) → taggable c0 → taggable c →
  marked (set_link m p l c k) q j ↔ (q = p ∧ j = l ∧ k = true) ∨ marked m q j.
Proof.
  intros Hl Hc0 Hc. unfold marked, set_link. simpl. destruct (decide ((p, l) = (q, j))) as [[= <- <-]|Hne].
  - rewrite lookup_insert_eq. split.
    + intros (v & [= <-] & Hv). rewrite mark_of_pack in Hv by done. auto.
    + intros [(_ & _ & ->)|(v & Hv & Hm)]; [eexists; split; [done|by apply mark_of_pack]|].
      rewrite Hl in Hv. injection Hv as <-. by rewrite mark_of_pack in Hm.
  - rewrite lookup_insert_ne by done. split; [by right|]. intros [(-> & -> & _)|?]; [congruence|done].
Qed.

(** What an operation may replace the link to [c0] by: the same one marked, or
    the link of [c0] if [c0] is deleted. *)
Definition forward (m : Mem) (l : nat) (c0 c : Z) (k : bool) : Prop :=
  (c = c0 ∧ k = true) ∨
  (k = false ∧ links m !! (c0, l) = Some (Link.pack c true) ∧ skips m l c0 c ∧ cut m l c0 c).

Lemma skips_tag m l p c : skips m l p c → taggable c.
Proof. intros Hs. eapply level_tag. by apply (skips_level _ _ _ _ Hs). Qed.

Lemma forward_marked m l c0 c k : forward m l c0 c k → c ≠ c0 → marked m c0 l.
Proof.
  intros [[-> _]|(_ & Hl & Hs & _)] Hne; [done|]. eexists. split; [exact Hl|].
  apply mark_of_pack. by eapply skips_tag.
Qed.

Lemma forward_skips m l p c0 c k : skips m l p c0 → forward m l c0 c k → skips m l p c.
Proof.
  intros Hs [[-> _]|(_ & Hl & Hs' & _)]; [done|]. eapply skips_trans; [done| |done].
  eexists. split; [exact Hl|]. apply mark_of_pack. by eapply skips_tag.
Qed.

Lemma forward_ahead m l c0 c k :
  forward m l c0 c k → (c = c0 ∧ k = true) ∨ (ahead c (level l) < ahead c0 (level l))%nat.
Proof. intros [?|(_ & _ & Hs & _)]; [by left|right]. by eapply skips_ahead. Qed.

Lemma reach_level m M gone l x : rinv m M gone → (l ≤ max_level sl)%nat → reach m l x → x ∈ level l.
Proof.
  intros Hi Hl. induction 1 as [|p v _ IH Hp Hv]; [apply list_elem_of_here|].
  destruct (ri_link _ _ _ Hi l p Hl Hp) as (c & k & Hc & Hs & _). rewrite Hc in Hv. injection Hv as <-.
  rewrite ptr_of_pack by (by eapply skips_tag). by apply (skips_level _ _ _ _ Hs).
Qed.

Lemma ahead_inj l x y : x ∈ level l → y ∈ level l → ahead x (level l) = ahead y (level l) → x = y.
Proof.
  generalize (level l). intros L. induction L as [|z L IH]; simpl; [by intros ?%elem_of_nil|].
  intros Hx Hy. repeat case_decide; subst; try done; intros E.
  - apply elem_of_cons in Hy as [->|Hy]; [done|]. apply ahead_lt in Hy. lia.
  - apply elem_of_cons in Hx as [->|Hx]; [done|]. apply ahead_lt in Hx. lia.
  - apply IH; set_solver.
Qed.

(** Two nodes that traversals meet do not link to one node. *)
Lemma reach_unique m l p q c :
  skips m l p c → skips m l q c → cut m l p c → cut m l q c → reach m l p → reach m l q → p = q.
Proof.
  intros Hp Hq Cp Cq Rp Rq.
  destruct (skips_level _ _ _ _ Hp) as [Lp _], (skips_level _ _ _ _ Hq) as [Lq _].
  apply skips_ahead in Hp, Hq. apply (ahead_inj l); [done|done|].
  destruct (lt_eq_lt_dec (ahead p (level l)) (ahead q (level l))) as [[Hlt|?]|Hlt]; [|done|].
  - by destruct (Cq p Lp).
  - by destruct (Cp q Lq).
Qed.

Section set.
Context (m : Mem) (M : store_map) (gone : list Z) (p : Z) (l : nat) (c0 c : Z) (k : bool).
Context (Hi : rinv m M gone) (Hcell : (p, l) ∈ cells).
Context (Hlink : links m !! (p, l) = Some (Link.pack c0 false)) (Hsk0 : skips m l p c0).
Context (Hfw : forward m l c0 c k).
Let m' : Mem := set_link m p l c k.

Lemma set_skips : skips m l p c.
Proof. by eapply forward_skips. Qed.

Lemma set_tags : taggable c0 ∧ taggable c.
Proof. split; [by eapply skips_tag|]. eapply skips_tag, set_skips. Qed.

Lemma set_other q j : (q, j) ≠ (p, l) → links m' !! (q, j) = links m !! (q, j).
Proof. intros Hne. unfold m', set_link. simpl. by rewrite lookup_insert_ne. Qed.

Lemma set_self : links m' !! (p, l) = Some (Link.pack c k).
Proof. unfold m', set_link. simpl. by rewrite lookup_insert_eq. Qed.

Lemma link_cut : cut m l p c0.
Proof.
  apply elem_of_cells in Hcell as [Hl Hp]. destruct (ri_link _ _ _ Hi l p Hl Hp) as (d & b & Hd & Hs & Hc).
  rewrite Hlink in Hd. injection Hd as E. apply (f_equal Link.ptr_of) in E.
  rewrite !ptr_of_pack in E by (by eapply skips_tag). by subst d.
Qed.

(** The links of a node that is met lead to nodes that were met before. *)
Lemma reach_links j q v : q ∈ head sl :: addrs j es → reach m j q → links m' !! (q, j) = Some v →
  reach m j (Link.ptr_of v).
Proof.
  destruct set_tags as [Ht0 Htc]. intros Hq Hr Hv. destruct (decide ((q, j) = (p, l))) as [[= -> ->]|Hne].
  2:{ rewrite set_other in Hv by done. by apply (reach_next _ _ q). }
  rewrite set_self in Hv. injection Hv as <-. rewrite ptr_of_pack by done.
  pose proof (reach_next m l p _ Hr Hq Hlink) as R0. rewrite ptr_of_pack in R0 by done.
  destruct Hfw as [[-> _]|(_ & Hl & Hs & _)]; [done|]. destruct (skips_elem _ _ _ _ Hs) as [Ht _].
  pose proof (reach_next m l c0 _ R0 Ht Hl) as R1. by rewrite ptr_of_pack in R1.
Qed.

(** Traversals meet fewer nodes. *)
Lemma reach_back j x : reach m' j x → reach m j x.
Proof. induction 1 as [|q v _ IH Hq Hv]; [constructor|]. by eapply reach_links. Qed.

(** They lose at most the deleted node that is unlinked. *)
Lemma reach_forth j x : reach m j x → reach m' j x ∨ (j = l ∧ x = c0 ∧ c ≠ c0 ∧ reach m' l p).
Proof.
  destruct set_tags as [Ht0 Htc]. induction 1 as [|q v _ IH Hq Hv]; [left; constructor|].
  destruct IH as [IH|(-> & -> & Hne & Hp)].
  - destruct (decide ((q, j) = (p, l))) as [[= -> ->]|Hne].
    2:{ left. apply (reach_next _ _ q); [done|done|]. by rewrite set_other. }
    rewrite Hlink in Hv. injection Hv as <-. rewrite ptr_of_pack by done.
    destruct (decide (c = c0)) as [E|Hcc]; [left|right; done]. rewrite <- E.
    pose proof (reach_next m' l p _ IH Hq set_self) as R. by rewrite ptr_of_pack in R.
  - left. destruct Hfw as [[-> _]|(_ & Hl & _)]; [done|]. rewrite Hl in Hv. injection Hv as <-.
    rewrite ptr_of_pack by done. apply elem_of_cells in Hcell as [_ Hin].
    pose proof (reach_next m' l p _ Hp Hin set_self) as R. by rewrite ptr_of_pack in R.
Qed.

Lemma cut_back j q d : cut m j q d → cut m' j q d.
Proof. intros Hc x Hx Ha Hr. by eapply Hc, reach_back. Qed.

(** Once unlinked, never met again. *)
Lemma unlinked : c ≠ c0 → ¬ marked m p l → ¬ reach m' l c0.
Proof.
  intros Hne Hun Hr. destruct set_tags as [Ht0 Htc]. pose proof Hcell as [Hl Hp]%elem_of_cells.
  remember c0 as y eqn:Ey in Hr. destruct Hr as [|q v Hr Hq Hv].
  - destruct (skips_elem _ _ _ _ Hsk0) as [_ Hin]. pose proof (level_nodup l) as Hnd.
    unfold level in Hnd. apply NoDup_cons in Hnd as [Hnd _]. by rewrite Ey in Hnd.
  - destruct (decide ((q, l) = (p, l))) as [[= ->]|Hqp].
    { rewrite set_self in Hv. injection Hv as <-. rewrite ptr_of_pack in Ey by done. done. }
    rewrite set_other in Hv by done. destruct (ri_link _ _ _ Hi l q Hl Hq) as (d & b & Hd & Hs & Hc).
    rewrite Hd in Hv. injection Hv as <-. rewrite ptr_of_pack in Ey by (by eapply skips_tag). subst d.
    apply Hqp. f_equal. eapply (reach_unique m l q p c0); [done|done|done|apply link_cut|by apply reach_back|].
    by apply (ri_reach _ _ _ Hi).
Qed.

Lemma cut_new : ¬ marked m p l → cut m' l p c.
Proof.
  intros Hun x Hx Ha Hr. destruct (decide (c = c0)) as [E|Hne].
  { eapply link_cut; [exact Hx| |by apply reach_back]. by rewrite <- E. }
  assert (Hs : skips m l c0 c ∧ cut m l c0 c) by (by destruct Hfw as [[? _]|(_ & _ & ? & ?)]).
  destruct (lt_eq_lt_dec (ahead x (level l)) (ahead c0 (level l))) as [[Hlt|E]|Hlt].
  - eapply Hs; [exact Hx| |by apply reach_back]. lia.
  - apply (ahead_inj l) in E; [|done|by apply (skips_level _ _ _ _ Hsk0)]. subst x. by apply unlinked.
  - eapply link_cut; [exact Hx| |by apply reach_back]. lia.
Qed.

Lemma rinv_set M' gone' :
  (k = true → p ≠ head sl ∧ ∀ e, e ∈ es → e_addr e = p → (S l ≤ e_top e)%nat → marked m p (S l)) →
  (∀ k' bs, M' !! k' = Some bs ↔ ∃ e, e ∈ es ∧ e_key e = k' ∧ e_bytes e = bs ∧ ¬ marked m' (e_addr e) 0) →
  NoDup gone' → (∀ a, a ∈ gone' ↔ ∃ e, e ∈ es ∧ e_addr e = a ∧ marked m' a 0) →
  rinv m' M' gone'.
Proof.
  intros Hk HM Hnd Hgone. pose proof Hcell as [Hl Hp]%elem_of_cells. destruct set_tags as [Ht0 Htc].
  assert (Hms := λ q j, marked_set m p l c0 c k q j Hlink Ht0 Htc).
  assert (Hun : ¬ marked m p l).
  { intros (v & Hv & Hm). rewrite Hlink in Hv. injection Hv as <-. by rewrite mark_of_pack in Hm. }
  assert (Hup : ∀ q j d, skips m j q d → skips m' j q d).
  { intros q j d (A & B & D & HL & HB). exists A, B, D. split; [done|]. intros b Hb. apply Hms. right. auto. }
  assert (Htl : p ≠ tl).
  { pose proof (level_nodup l) as Hnl. unfold level in Hnl. intros ->.
    change (head sl :: addrs l es ++ [tl]) with ((head sl :: addrs l es) ++ [tl]) in Hnl.
    apply NoDup_app in Hnl as (_ & Hnl & _). apply (Hnl tl Hp). set_solver. }
  pose proof Hi as [Hln Hhp Hn Hv Ht Hlk Hre Hh Hd _ _ _]. split; try done.
  - apply heap_ok_set_link; [done|by eexists].
  - intros j Hj. rewrite set_other by congruence. auto.
  - intros j q Hj Hq. destruct (decide ((q, j) = (p, l))) as [[= -> ->]|Hne].
    + exists c, k. split_and!; [apply set_self|apply Hup, set_skips|by apply cut_new].
    + destruct (Hlk j q Hj Hq) as (d & k' & Hd' & Hs & Hc). exists d, k'. rewrite set_other by done.
      split_and!; [done|by apply Hup|by apply cut_back].
  - intros j q Hj Hq Hm. assert (Hm' : ¬ marked m q j) by (intros ?; apply Hm, Hms; by right).
    destruct (reach_forth j q (Hre j q Hj Hq Hm')) as [?|(-> & -> & Hne & _)]; [done|].
    destruct Hm'. by eapply forward_marked.
  - intros j Hj [(<- & _ & ->)|Hm]%Hms; [|by eapply Hh]. by destruct (Hk eq_refl).
  - intros e j He Hj [(Heq & -> & ->)|Hm]%Hms; apply Hms; right.
    + rewrite Heq. destruct (Hk eq_refl) as [_ Hk2]. by eapply Hk2.
    + by apply Hd.
Qed.

End set.

Lemma pot_set m p l c0 c k :
  (p, l) ∈ cells → links m !! (p, l) = Some (Link.pack c0 false) → taggable c0 → taggable c →
  (c = c0 ∧ k = true) ∨ (ahead c (level l) < ahead c0 (level l))%nat →
  (pot (set_link m p l c k) < pot m)%nat.
Proof.
  intros Hin Hl Ht0 Htc Hlt. unfold pot.
  assert (Hself : (weight (set_link m p l c k) (p, l) < weight m (p, l))%nat).
  { unfold weight, set_link, set_links. cbn [links snd]. rewrite lookup_insert_eq, Hl, !ptr_of_pack, !mark_of_pack by done.
    destruct Hlt as [[-> ->]|Hlt]; [lia|]. destruct k; lia. }
  apply (sum_list_with_lt _ _ _ (p, l)); [|done..]. intros x _.
  destruct (decide (x = (p, l))) as [->|Hne]; [lia|]. unfold weight, set_link. simpl.
  by rewrite lookup_insert_ne.
Qed.

(** ** Worlds, rely and guarantee *)

(** The memory, the map before every step so far and now, and the nodes taken
    out so far. *)
Record rworld : Type := mkRW {
  rm : Mem;
  rhist : list store_map;
  rgone : list Z
}.

Definition winv (w : rworld) : Prop :=
  ∃ M, last (rhist w) = Some M ∧ rinv (rm w) M (rgone w).

(** What may happen to the world, whoever does it. *)
Record revolves (w w' : rworld) : Prop := mkRevolves {
  v_frozen : ∀ p l, marked (rm w) p l → links (rm w') !! (p, l) = links (rm w) !! (p, l);
  v_pot : (pot (rm w') ≤ pot (rm w))%nat;
  v_change : ∀ p l, links (rm w') !! (p, l) = links (rm w) !! (p, l) ∨
    (pot (rm w') < pot (rm w))%nat;
  v_reach : ∀ l x, reach (rm w') l x → reach (rm w) l x;
  v_stay : ∀ l p, p ∈ head sl :: addrs l es → reach (rm w) l p → reach (rm w') l p ∨ marked (rm w') p l;
  v_links : ∀ l p v, p ∈ head sl :: addrs l es → reach (rm w) l p → links (rm w') !! (p, l) = Some v →
    reach (rm w) l (Link.ptr_of v);
  v_hist : rhist w `prefix_of` rhist w'
}.

Lemma revolves_refl w : revolves w w.
Proof. split; auto. intros l p v Hp Hr Hv. by apply (reach_next _ _ p). Qed.

Lemma marked_stable w w' p l : revolves w w' → marked (rm w) p l → marked (rm w') p l.
Proof. intros He Hm. pose proof (v_frozen _ _ He p l Hm) as Hl. destruct Hm as (v & Hv & Hm). exists v. by rewrite Hl. Qed.

Lemma revolves_trans w1 w2 w3 : revolves w1 w2 → revolves w2 w3 → revolves w1 w3.
Proof.
  intros H1 H2. split.
  - intros p l Hm. rewrite (v_frozen _ _ H2); [by apply H1|]. by eapply marked_stable.
  - pose proof (v_pot _ _ H1). pose proof (v_pot _ _ H2). lia.
  - intros p l. pose proof (v_pot _ _ H1). pose proof (v_pot _ _ H2).
    destruct (v_change _ _ H1 p l) as [E1|?]; [|right; lia].
    destruct (v_change _ _ H2 p l) as [E2|?]; [left; congruence|right; lia].
  - intros l x Hr. by eapply H1, H2.
  - intros l p Hp Hr. destruct (v_stay _ _ H1 l p Hp Hr) as [Hr2|Hm]; [by apply H2|right; by eapply marked_stable].
  - intros l p v Hp Hr Hv. destruct (v_stay _ _ H1 l p Hp Hr) as [Hr2|Hm].
    + by eapply (v_reach _ _ H1), (v_links _ _ H2).
    + rewrite (v_frozen _ _ H2) in Hv by done. by eapply (v_links _ _ H1).
  - etrans; [apply H1|apply H2].
Qed.

Lemma skips_stable w w' l p c : revolves w w' → skips (rm w) l p c → skips (rm w') l p c.
Proof.
  intros He (A & B & D & Hl & HB). exists A, B, D. split; [done|]. intros b Hb.
  eapply marked_stable; eauto.
Qed.

Lemma cut_stable w w' l p c : revolves w w' → cut (rm w) l p c → cut (rm w') l p c.
Proof. intros He Hc x Hx Ha Hr. by eapply Hc, (v_reach _ _ He). Qed.

(** Since the potential was [P], the link of [p] still is the one to [c]; [p]
    still is not marked. *)
Definition held (P : nat) (w : rworld) (l : nat) (p c : Z) : Prop :=
  (pot (rm w) ≤ P)%nat ∧
  (links (rm w) !! (p, l) = Some (Link.pack c false) ∨ (pot (rm w) < P)%nat).
Definition clear (P : nat) (w : rworld) (l : nat) (p : Z) : Prop :=
  (pot (rm w) ≤ P)%nat ∧ (¬ marked (rm w) p l ∨ (pot (rm w) < P)%nat).

Lemma held_stable P w w' l p c : revolves w w' → held P w l p c → held P w' l p c.
Proof.
  intros He [Hp H]. pose proof (v_pot _ _ He). split; [lia|].
  destruct H as [H|H]; [|right; lia]. destruct (v_change _ _ He p l) as [E|?]; [left; congruence|right; lia].
Qed.

Lemma clear_stable P w w' l p : revolves w w' → clear P w l p → clear P w' l p.
Proof.
  intros He [Hp H]. pose proof (v_pot _ _ He). split; [lia|].
  destruct H as [H|H]; [|right; lia]. destruct (v_change _ _ He p l) as [E|?]; [left|right; lia].
  unfold marked in *. by rewrite E.
Qed.

Lemma held_clear P w l p c : taggable c → held P w l p c → clear P w l p.
Proof.
  intros Ht [Hp [H|H]]; (split; [done|]); [left|by right].
  intros (v & Hv & Hm). rewrite H in Hv. injection Hv as <-. by rewrite mark_of_pack in Hm.
Qed.

(** The ghost state of a thread: when its removal took effect, how many nodes it
    has taken out and not yet subtracted from the length, and which it has not
    yet retired; and the node it is marking. *)
Record rloc : Type := mkRloc {
  reff : option nat;
  rdebt : nat;
  rowe : list Z;
  rmid : option Z
}.

Definition retire_of (a : Z) : Z * drop_fn := (a, drop_node).

(** No traversal of any level meets the node. *)
Definition off (m : Mem) (a : Z) : Prop := ∀ l, (l ≤ max_level sl)%nat → ¬ reach m l a.

Lemma off_stable w w' a : revolves w w' → off (rm w) a → off (rm w') a.
Proof. intros He Ho l Hl Hr. by eapply Ho, (v_reach _ _ He). Qed.

(** New marks are those of the node the thread is marking, which it leaves only
    when the bottom link is marked too. *)
Definition mids (ℓ : rloc) (m : Mem) (ℓ' : rloc) (m' : Mem) : Prop :=
  (∀ e l, e ∈ es → (l ≤ e_top e)%nat → marked m' (e_addr e) l →
     marked m (e_addr e) l ∨ marked m' (e_addr e) 0 ∨ rmid ℓ' = Some (e_addr e)) ∧
  (∀ a, rmid ℓ = Some a → rmid ℓ' = Some a ∨ marked m' a 0).

(** One step of a thread whose call removes [key] (or does not remove). A node
    is retired when no traversal meets it any more. *)
Record rguar (key : option bytes) (ℓ : rloc) (w : rworld) (ℓ' : rloc) (w' : rworld) : Prop := mkRguar {
  rg_ev : revolves w w';
  rg_ret : ∃ rs gn, retired (rm w') = retired (rm w) ++ (retire_of <$> rs) ∧
    rgone w' = rgone w ++ gn ∧ rs ++ rowe ℓ' ≡ₚ rowe ℓ ++ gn ∧ ∀ a, a ∈ rs → off (rm w') a;
  rg_mid : mids ℓ (rm w) ℓ' (rm w');
  rg_hist : ∃ M M', last (rhist w) = Some M ∧ rhist w' = rhist w ++ [M'] ∧
    len (rm w') = wrap64 (len (rm w) + (Z.of_nat (size M') + Z.of_nat (rdebt ℓ'))
      - (Z.of_nat (size M) + Z.of_nat (rdebt ℓ))) ∧
    (M' = M ∧ reff ℓ' = reff ℓ ∨
     ∃ k, key = Some k ∧ reff ℓ = None ∧ reff ℓ' = Some (length (rhist w) - 1)%nat ∧
       is_Some (M !! k) ∧ M' = delete k M)
}.

(** [ws] is the world in which the call began. *)
Context (key : option bytes) (ws : rworld) (Hws : winv ws).

(** The cells a call may touch: those of nodes that traversals met when it
    began. *)
Definition safe (p : Z) : Prop := ∃ l, (l ≤ max_level sl)%nat ∧ reach (rm ws) l p.
Definition tame {R} (a : act R) : Prop :=
  match a with
  | ALoad p _ | ACas p _ _ _ | AKey p | ATop p | AValueLoad p => safe p
  | AValueBytes v => ∃ e, e ∈ es ∧ e_vptr e = v ∧ safe (e_addr e)
  | ALenAdd _ | ARetire _ _ => True
  | _ => False
  end.

(** Whatever the others do in between, the program touches such cells only,
    never faults, keeps its guarantee and ends in [Q]. *)
Fixpoint rwp {A} (p : prog A) (Q : A → rloc → rworld → Prop) (ℓ : rloc) (w : rworld) : Prop :=
  match p with
  | Ret a => Q a ℓ w
  | Stop _ => False
  | Do a k => tame a ∧ ∀ w1, winv w1 → revolves w w1 → revolves ws w1 →
    ∃ r ℓ2 w2, exec a (rm w1) = Ok (r, rm w2) ∧ winv w2 ∧ rguar key ℓ w1 ℓ2 w2 ∧ rwp (k r) Q ℓ2 w2
  end.

Lemma rwp_bind {A B} (p : prog A) (k : A → prog B) Q ℓ w :
  rwp p (λ a, rwp (k a) Q) ℓ w → rwp (pbind p k) Q ℓ w.
Proof.
  revert ℓ w. induction p as [a|f|R a k' IH]; intros ℓ w Hw; simpl in *; [done..|].
  destruct Hw as [Ht Hw]. split; [done|].
  intros w1 Hi He Hs. destruct (Hw w1 Hi He Hs) as (r & ℓ2 & w2 & Hx & Hi2 & Hg & Hk).
  exists r, ℓ2, w2. split_and!; [done..|]. by apply IH.
Qed.

Lemma rwp_mono {A} (p : prog A) (Q Q' : A → rloc → rworld → Prop) ℓ w :
  (∀ a ℓ w, Q a ℓ w → Q' a ℓ w) → rwp p Q ℓ w → rwp p Q' ℓ w.
Proof.
  intros HQ. revert ℓ w. induction p as [a|f|R a k IH]; intros ℓ w Hw; simpl in *; [by apply HQ|done|].
  destruct Hw as [Ht Hw]. split; [done|].
  intros w1 Hi He Hs. destruct (Hw w1 Hi He Hs) as (r & ℓ2 & w2 & Hx & Hi2 & Hg & Hk).
  exists r, ℓ2, w2. split_and!; [done..|]. by apply IH.
Qed.

(** The world one step later, with another memory and the same map. *)
Definition rnext (w : rworld) (m : Mem) : rworld :=
  mkRW m (rhist w ++ option_list (last (rhist w))) (rgone w).

Lemma rguar_next ℓ w ℓ' m rs :
  winv w → revolves w (rnext w m) → reff ℓ' = reff ℓ → mids ℓ (rm w) ℓ' m →
  retired m = retired (rm w) ++ (retire_of <$> rs) → rs ++ rowe ℓ' ≡ₚ rowe ℓ → (∀ a, a ∈ rs → off m a) →
  len m = wrap64 (len (rm w) + Z.of_nat (rdebt ℓ') - Z.of_nat (rdebt ℓ)) →
  rguar key ℓ w ℓ' (rnext w m).
Proof.
  intros (M & HM & _) He Hf Hmid Hrs Howe Hoff Hlen. split; [done| |done|].
  - exists rs, []. simpl. rewrite !app_nil_r. done.
  - exists M, M. simpl. rewrite HM. simpl. split_and!; [done|done| |by left]. rewrite Hlen. f_equal. lia.
Qed.

(** A step that touches links at most. *)
Lemma rguar_links ℓ w ℓ' m :
  winv w → revolves w (rnext w m) → retired m = retired (rm w) → len m = len (rm w) →
  reff ℓ' = reff ℓ → rdebt ℓ' = rdebt ℓ → rowe ℓ' = rowe ℓ → mids ℓ (rm w) ℓ' m →
  rguar key ℓ w ℓ' (rnext w m).
Proof.
  intros Hi He Hr Hl Hf Hd Ho Hm. apply (rguar_next _ _ _ _ []); try done.
  - by rewrite app_nil_r.
  - by rewrite Ho.
  - by intros a ?%elem_of_nil.
  - destruct Hi as (M & _ & Hi). rewrite Hl, Hd, Z.add_simpl_r, wrap64_small; [done|]. apply (ri_len _ _ _ Hi).
Qed.

Lemma mids_same ℓ m m' : (∀ e l, e ∈ es → marked m' (e_addr e) l → marked m (e_addr e) l) → mids ℓ m ℓ m'.
Proof. intros H. split; [intros e l He _ Hm; left; by apply H|intros a Ha; by left]. Qed.

Lemma rnext_inv w m :
  (∀ M, last (rhist w) = Some M → rinv (rm w) M (rgone w) → rinv m M (rgone w)) →
  winv w → winv (rnext w m).
Proof.
  intros Hm (M & HM & Hi). exists M. simpl. rewrite HM. simpl. rewrite last_snoc. auto.
Qed.

(** What does not touch nodes, links and values does not matter. *)
Lemma rinv_links m M gone m' :
  rinv m M gone → is_u64 (len m') → nodes m' = nodes m → links m' = links m → values m' = values m →
  brk m' = brk m → rinv m' M gone.
Proof.
  intros Hi Hl En El Ev Eb.
  assert (Hmk : ∀ p l, marked m' p l ↔ marked m p l) by (intros p l; unfold marked; by rewrite El).
  assert (Hre : ∀ l x, reach m' l x ↔ reach m l x).
  { intros l x. split; (induction 1 as [|p v _ IH Hp Hv]; [constructor|]; apply (reach_next _ _ p); [done|done|]);
      [by rewrite <- El|by rewrite El]. }
  destruct Hi as [H1 [B N L V] H2 H3 H4 H5 H6 H7 H8 H9 H10 H11].
  split; rewrite ?En, ?El, ?Ev; try done.
  - split; rewrite ?Eb, ?En, ?El, ?Ev; done.
  - intros l p Hlm Hp. destruct (H5 l p Hlm Hp) as (c & k & Hc & (A & B' & D & HL & HB) & Hcut). exists c, k.
    split_and!; [done|exists A, B', D; split; [done|]; intros b Hb; by apply Hmk, HB|].
    intros x Hx Ha Hr. by eapply Hcut, Hre.
  - intros l p Hlm Hp Hn. apply Hre, H6; [done|done|]. by rewrite <- Hmk.
  - intros l Hlm. rewrite Hmk. by apply H7.
  - intros e l. rewrite !Hmk. apply H8.
  - intros k bs. rewrite H9. by setoid_rewrite Hmk.
  - intros a. rewrite H11. by setoid_rewrite Hmk.
Qed.

Lemma rnext_hist w m : rhist w `prefix_of` rhist (rnext w m).
Proof. by eexists. Qed.

Lemma same_revolves w m : links m = links (rm w) → revolves w (rnext w m).
Proof.
  intros E. assert (Hp : pot m = pot (rm w)) by (unfold pot, weight; by rewrite E).
  assert (Hre : ∀ l x, reach m l x ↔ reach (rm w) l x).
  { intros l x. split; (induction 1 as [|p v _ IH Hp' Hv]; [constructor|]; apply (reach_next _ _ p); [done|done|]);
      [by rewrite <- E|by rewrite E]. }
  split; simpl; rewrite ?E, ?Hp; auto; [by apply Hre|..|apply (rnext_hist w m)].
  - intros l p _ Hr. left. by apply Hre.
  - intros l p v Hin Hr Hv. by apply (reach_next _ _ p).
Qed.

Definition with_mid (ℓ : rloc) (o : option Z) : rloc := mkRloc (reff ℓ) (rdebt ℓ) (rowe ℓ) o.

Lemma with_mid_same ℓ : with_mid ℓ (rmid ℓ) = ℓ.
Proof. by destruct ℓ. Qed.

(** An access that only reads, after which the thread may start or stop marking
    a node. *)
Lemma rwp_read_mid {A R} (a : act R) (k : R → prog A) Q ℓ w :
  tame a →
  (∀ w1, winv w1 → revolves w w1 → revolves ws w1 →
    ∃ r o, exec a (rm w1) = Ok (r, rm w1) ∧ (∀ x, rmid ℓ = Some x → o = Some x ∨ marked (rm w1) x 0) ∧
      rwp (k r) Q (with_mid ℓ o) (rnext w1 (rm w1))) →
  rwp (Do a k) Q ℓ w.
Proof.
  intros Ht Hr. split; [done|]. intros w1 Hi He Hs. destruct (Hr w1 Hi He Hs) as (r & o & Hx & Ho & Hk).
  exists r, (with_mid ℓ o), (rnext w1 (rm w1)). split_and!; [done|by apply rnext_inv| |done].
  apply rguar_links; [done|by apply same_revolves|done..|]. split; [intros e l _ _ Hm; by left|done].
Qed.

(** An access that only reads. *)
Lemma rwp_read {A R} (a : act R) (k : R → prog A) Q ℓ w :
  tame a →
  (∀ w1, winv w1 → revolves w w1 → revolves ws w1 →
    ∃ r, exec a (rm w1) = Ok (r, rm w1) ∧ rwp (k r) Q ℓ (rnext w1 (rm w1))) →
  rwp (Do a k) Q ℓ w.
Proof.
  intros Ht Hr. apply rwp_read_mid; [done|]. intros w1 Hi He Hs. destruct (Hr w1 Hi He Hs) as (r & Hx & Hk).
  exists r, (rmid ℓ). rewrite with_mid_same. split_and!; [done|by left|done].
Qed.

(** The world after a read. *)
Lemma revolves_next w w1 : revolves w w1 → revolves w (rnext w1 (rm w1)).
Proof. intros He. eapply revolves_trans; [exact He|]. by apply same_revolves. Qed.

Lemma winv_next w : winv w → winv (rnext w (rm w)).
Proof. by apply rnext_inv. Qed.

(** ** Accesses to links *)

Lemma link_read w l p :
  winv w → (l ≤ max_level sl)%nat → p ∈ head sl :: addrs l es →
  ∃ c k, links (rm w) !! (p, l) = Some (Link.pack c k) ∧ skips (rm w) l p c ∧ cut (rm w) l p c ∧ taggable c.
Proof.
  intros (M & _ & Hi) Hl Hp. destruct (ri_link _ _ _ Hi l p Hl Hp) as (c & k & Hlk & Hs & Hc).
  exists c, k. split_and!; [done..|by eapply skips_tag].
Qed.

Lemma marked_pack w l p c k :
  links (rm w) !! (p, l) = Some (Link.pack c k) → taggable c → marked (rm w) p l ↔ k = true.
Proof.
  intros Hl Ht. unfold marked. rewrite Hl. split.
  - intros (v & [= <-] & Hv). by rewrite mark_of_pack in Hv.
  - intros ->. eexists. split; [done|]. by apply mark_of_pack.
Qed.

(** A successful compare-and-swap. *)
Lemma set_revolves w w' M p l c0 c k :
  rinv (rm w) M (rgone w) → rm w' = set_link (rm w) p l c k → rhist w `prefix_of` rhist w' →
  (p, l) ∈ cells → links (rm w) !! (p, l) = Some (Link.pack c0 false) → skips (rm w) l p c0 →
  forward (rm w) l c0 c k →
  revolves w w' ∧ (pot (rm w') < pot (rm w))%nat.
Proof.
  intros Hi Hm' Hh Hin Hl Hs0 Hfw. destruct (set_tags _ _ _ _ _ _ Hs0 Hfw) as [Ht0 Htc].
  pose proof (pot_set (rm w) p l c0 c k Hin Hl Ht0 Htc (forward_ahead _ _ _ _ _ Hfw)) as Hpot.
  rewrite <- Hm' in Hpot. split; [|done].
  split; [|lia|auto| | | |done].
  - intros q j Hm. rewrite Hm'. simpl. rewrite lookup_insert_ne; [done|].
    intros [= <- <-]. by apply (marked_pack w l p c0 false) in Hm.
  - intros j x. rewrite Hm'. by eapply reach_back.
  - intros j q Hq Hr. rewrite Hm'. destruct (reach_forth _ _ _ _ _ _ Hin Hl Hs0 Hfw j q Hr)
      as [?|(-> & -> & Hne & _)]; [by left|right]. apply (marked_set _ _ _ c0); [done..|right].
    by eapply forward_marked.
  - intros j q v Hq Hr. rewrite Hm'. by eapply reach_links.
Qed.

(** A change that marks no node at the bottom keeps the map. *)
Lemma rinv_same w M p l c0 c k :
  rinv (rm w) M (rgone w) → (p, l) ∈ cells → links (rm w) !! (p, l) = Some (Link.pack c0 false) →
  skips (rm w) l p c0 → forward (rm w) l c0 c k →
  (k = true → p ≠ head sl ∧ ∀ e, e ∈ es → e_addr e = p → (S l ≤ e_top e)%nat → marked (rm w) p (S l)) →
  (0 < l)%nat ∨ k = false → rinv (set_link (rm w) p l c k) M (rgone w).
Proof.
  intros Hi Hin Hl Hs0 Hfw Hk Hup. destruct (set_tags _ _ _ _ _ _ Hs0 Hfw) as [Ht0 Htc].
  assert (Hsame : ∀ q, marked (set_link (rm w) p l c k) q 0 ↔ marked (rm w) q 0).
  { intros q. rewrite marked_set by done. split; [|by right]. intros [(_ & <- & ->)|?]; [|done].
    destruct Hup as [?|?]; [lia|done]. }
  eapply (rinv_set _ M (rgone w)); try done.
  - intros k' bs. rewrite (ri_map _ _ _ Hi). by setoid_rewrite Hsame.
  - apply (ri_nodup _ _ _ Hi).
  - intros a. rewrite (ri_gone _ _ _ Hi). by setoid_rewrite Hsame.
Qed.

(** A link that still is what it was when read. *)
Lemma read_cut w l p c k :
  winv w → (l ≤ max_level sl)%nat → p ∈ head sl :: addrs l es →
  links (rm w) !! (p, l) = Some (Link.pack c k) → taggable c → cut (rm w) l p c.
Proof.
  intros Hi Hl Hp Hlk Ht. destruct (link_read w l p Hi Hl Hp) as (d & b & Hd & _ & Hc & Htd).
  rewrite Hlk in Hd. injection Hd as E. apply (f_equal Link.ptr_of) in E. by rewrite !ptr_of_pack in E by done; subst.
Qed.

Lemma rwp_unlink {A} (k : bool → prog A) Q ℓ w P l p c d :
  (l ≤ max_level sl)%nat → safe p → held P w l p c → skips (rm w) l p c →
  links (rm w) !! (c, l) = Some (Link.pack d true) → skips (rm w) l c d →
  (∀ w2, winv w2 → revolves w w2 → (pot (rm w2) < P)%nat → rwp (k false) Q ℓ w2) →
  (∀ w2, winv w2 → revolves w w2 → (pot (rm w2) < P)%nat → skips (rm w2) l p d → cut (rm w2) l p d →
     rwp (k true) Q ℓ w2) →
  rwp (Do (ACas p l (Link.pack c false) (Link.pack d false)) k) Q ℓ w.
Proof.
  intros Hl Hsafe Hh Hpc Hc Hcd Hno Hyes. split; [done|]. intros w1 Hi1 He1 _.
  pose proof (held_stable _ _ _ _ _ _ He1 Hh) as [Hp1 Hh1].
  pose proof (skips_stable _ _ _ _ _ He1 Hpc) as Hpc1. pose proof (skips_stable _ _ _ _ _ He1 Hcd) as Hcd1.
  destruct (skips_elem _ _ _ _ Hpc) as [Hpin _]. destruct (skips_elem _ _ _ _ Hcd) as [Hcin _].
  pose proof (skips_tag _ _ _ _ Hpc) as Htc. pose proof (skips_tag _ _ _ _ Hcd) as Htd.
  assert (Hc1 : links (rm w1) !! (c, l) = Some (Link.pack d true)).
  { rewrite (v_frozen _ _ He1); [done|]. by apply (marked_pack w l c d true). }
  destruct (link_read w1 l p Hi1 Hl Hpin) as (x & kx & Hx & _ & _). simpl. rewrite Hx. simpl.
  destruct (Z.eqb_spec (Link.pack x kx) (Link.pack c false)) as [Heq|Hne].
  - rewrite Heq in Hx. pose proof Hi1 as (M & HM & Hr1).
    assert (Hfw : forward (rm w1) l c d false) by (right; split_and!; [done..|by eapply read_cut]).
    assert (Hin : (p, l) ∈ cells) by (by apply elem_of_cells).
    set (w2 := rnext w1 (set_link (rm w1) p l d false)).
    destruct (set_revolves w1 w2 M p l c d false Hr1 eq_refl (rnext_hist _ _) Hin Hx Hpc1 Hfw) as [He2 Hlt].
    assert (Hi2 : winv w2).
    { apply rnext_inv; [|done]. intros M' _ Hi. eapply (rinv_same w1 M' p l c d false); try done. by right. }
    exists true, ℓ, w2. split_and!; [done|done|apply rguar_links; try done|].
    { apply mids_same. intros e j _ [(_ & _ & ?)|?]%(marked_set _ _ _ c); done. }
    assert (Hs2 : skips (rm w2) l p d) by (eapply (skips_stable w1); [done|by eapply forward_skips]).
    apply Hyes; [done|by eapply revolves_trans|lia|done|].
    eapply (read_cut w2 l p d false); [done|done|done| |done]. simpl. by rewrite lookup_insert_eq.
  - exists false, ℓ, (rnext w1 (rm w1)). split_and!; [done|by apply winv_next| |].
    + apply rguar_links; try done; [by apply same_revolves|by apply mids_same].
    + apply Hno; [by apply winv_next|by apply revolves_next|]. simpl.
      destruct Hh1 as [Hh1|?]; [|done]. congruence.
Qed.

Lemma entry_cell e l : e ∈ es → (l ≤ e_top e)%nat → (e_addr e, l) ∈ cells.
Proof.
  intros He Hl. destruct (entry_node e He) as (_ & _ & Ht & _). apply elem_of_cells. split; [lia|].
  apply list_elem_of_further. by apply level_entry.
Qed.

Lemma entry_not_head e : e ∈ es → e_addr e ≠ head sl.
Proof.
  intros He Heq. pose proof (r_addrs _ _ _ _ _ _ Hrep) as Hnd. apply NoDup_cons in Hnd as [Hnd _].
  apply Hnd, list_elem_of_further. rewrite <- Heq. apply list_elem_of_fmap_2. set_solver.
Qed.

(** Marking a link above the bottom, all higher ones being marked. *)
Lemma rwp_mark_upper {A} (k : bool → prog A) Q ℓ w P e l c :
  e ∈ es → (0 < l ≤ e_top e)%nat → (∀ j, (l < j ≤ e_top e)%nat → marked (rm w) (e_addr e) j) →
  rmid ℓ = Some (e_addr e) → safe (e_addr e) → held P w l (e_addr e) c → skips (rm w) l (e_addr e) c →
  (∀ w2, winv w2 → revolves w w2 → (pot (rm w2) < P)%nat → rwp (k false) Q ℓ w2) →
  (∀ w2, winv w2 → revolves w w2 → marked (rm w2) (e_addr e) l → rwp (k true) Q ℓ w2) →
  rwp (Do (ACas (e_addr e) l (Link.pack c false) (Link.pack c true)) k) Q ℓ w.
Proof.
  intros He Hl Hup Hmid Hsafe Hh Hs Hno Hyes. split; [done|]. intros w1 Hi1 He1 _. set (p := e_addr e) in *.
  pose proof (held_stable _ _ _ _ _ _ He1 Hh) as [Hp1 Hh1]. pose proof (skips_stable _ _ _ _ _ He1 Hs) as Hs1.
  pose proof (skips_tag _ _ _ _ Hs) as Htc.
  pose proof (entry_cell e l He ltac:(lia)) as Hin. pose proof Hin as [Hlm Hpin]%elem_of_cells.
  destruct (link_read w1 l p Hi1 Hlm Hpin) as (x & kx & Hx & _ & _). simpl. rewrite Hx. simpl.
  destruct (Z.eqb_spec (Link.pack x kx) (Link.pack c false)) as [Heq|Hne].
  - rewrite Heq in Hx. set (w2 := rnext w1 (set_link (rm w1) p l c true)). pose proof Hi1 as (M & _ & Hr1).
    assert (Hfw : forward (rm w1) l c c true) by (by left).
    destruct (set_revolves w1 w2 M p l c c true Hr1 eq_refl (rnext_hist _ _) Hin Hx Hs1 Hfw) as [He2 _].
    assert (Hi2 : winv w2).
    { apply rnext_inv; [|done]. intros M' _ Hi. eapply (rinv_same w1 M' p l c c true); try done; [|left; lia].
      intros _. split; [by apply entry_not_head|]. intros e' He' Hpe Hle.
      assert (e' = e) as -> by (apply entry_inj; auto). eapply marked_stable; [done|]. apply Hup. lia. }
    exists true, ℓ, w2. split_and!; [done|done|apply rguar_links; try done|].
    { split; [|intros a Ha; by left]. intros e' j He' _ [(-> & _)|?]%(marked_set _ _ _ c); [by right; right|by left|done..]. }
    apply Hyes; [done|by eapply revolves_trans|]. simpl. apply (marked_set (rm w1) p l c c true); auto.
  - exists false, ℓ, (rnext w1 (rm w1)). split_and!; [done|by apply winv_next| |].
    + apply rguar_links; try done; [by apply same_revolves|by apply mids_same].
    + apply Hno; [by apply winv_next|by apply revolves_next|]. simpl. destruct Hh1 as [Hh1|?]; [congruence|done].
Qed.

(** Taking a node out of the map. *)
Lemma rinv_take w M e c :
  rinv (rm w) M (rgone w) → e ∈ es → links (rm w) !! (e_addr e, 0%nat) = Some (Link.pack c false) →
  skips (rm w) 0 (e_addr e) c → (∀ j, (0 < j ≤ e_top e)%nat → marked (rm w) (e_addr e) j) →
  M !! e_key e = Some (e_bytes e) ∧
  rinv (set_link (rm w) (e_addr e) 0 c true) (delete (e_key e) M) (rgone w ++ [e_addr e]).
Proof.
  intros Hi He Hl Hs Hup. set (p := e_addr e) in *. pose proof (skips_tag _ _ _ _ Hs) as Htc.
  assert (Hun : ¬ marked (rm w) p 0) by (rewrite (marked_pack w 0 p c false) by done; done).
  assert (Hms := λ q j, marked_set (rm w) p 0 c c true q j Hl Htc Htc).
  split; [apply (ri_map _ _ _ Hi); eauto|].
  apply (rinv_set _ M (rgone w) p 0 c c true); try done.
  - by apply entry_cell; [|lia].
  - by left.
  - intros _. split; [by apply entry_not_head|]. intros e' He' Hpe Hle.
    assert (e' = e) as -> by (apply entry_inj; auto). apply Hup. lia.
  - intros k bs. rewrite lookup_delete_Some, (ri_map _ _ _ Hi). setoid_rewrite Hms. split.
    + intros (Hne & e' & He' & <- & Hb & Hnm). exists e'. split_and!; [done..|].
      intros [(Heq & _)|?]; [|done]. apply Hne. by rewrite (entry_inj e' e He' He (or_intror Heq)).
    + intros (e' & He' & <- & Hb & Hnm). split; [|exists e'; split_and!; auto].
      intros Heq. apply Hnm. left. by rewrite <- (entry_inj e e' He He' (or_introl Heq)).
  - apply NoDup_app. split; [apply (ri_nodup _ _ _ Hi)|]. split; [|apply NoDup_singleton].
    intros a Ha ->%list_elem_of_singleton. apply (ri_gone _ _ _ Hi) in Ha as (? & _ & _ & ?). done.
  - intros a. rewrite elem_of_app, list_elem_of_singleton, (ri_gone _ _ _ Hi). setoid_rewrite Hms. split.
    + intros [(e' & ? & ? & ?)| ->]; [exists e'; auto|exists e; split_and!; [done..|by left]].
    + intros (e' & He' & Ha & [(-> & _)|Hm]); [by right|left; eauto].
Qed.

(** The compare-and-swap that decides who removed the node. *)
Lemma rwp_mark_bottom {A} (k : bool → prog A) Q ℓ w P e c :
  e ∈ es → key = Some (e_key e) → reff ℓ = None → rmid ℓ = Some (e_addr e) → safe (e_addr e) →
  (∀ j, (0 < j ≤ e_top e)%nat → marked (rm w) (e_addr e) j) →
  held P w 0 (e_addr e) c ∨ marked (rm w) (e_addr e) 0 → skips (rm w) 0 (e_addr e) c →
  (∀ w2, winv w2 → revolves w w2 → (pot (rm w2) < P)%nat ∨ marked (rm w2) (e_addr e) 0 →
     rwp (k false) Q ℓ w2) →
  (∀ w2 t M, winv w2 → revolves w w2 → rhist w2 !! t = Some M → is_Some (M !! e_key e) →
     marked (rm w2) (e_addr e) 0 →
     rwp (k true) Q (mkRloc (Some t) (S (rdebt ℓ)) (rowe ℓ ++ [e_addr e]) None) w2) →
  rwp (Do (ACas (e_addr e) 0 (Link.pack c false) (Link.pack c true)) k) Q ℓ w.
Proof.
  intros He Hkey Heff Hmid Hsafe Hup Hh Hs Hno Hyes. split; [done|]. intros w1 Hi1 He1 _. set (p := e_addr e) in *.
  pose proof (skips_stable _ _ _ _ _ He1 Hs) as Hs1. pose proof (skips_tag _ _ _ _ Hs) as Htc.
  pose proof (entry_cell e 0 He ltac:(lia)) as Hin. pose proof Hin as [Hlm Hpin]%elem_of_cells.
  destruct (link_read w1 0 p Hi1 Hlm Hpin) as (x & kx & Hx & _ & _). simpl. rewrite Hx. simpl.
  destruct (Z.eqb_spec (Link.pack x kx) (Link.pack c false)) as [Heq|Hne].
  - rewrite Heq in Hx. destruct Hi1 as (M & HM & Hi1).
    destruct (rinv_take w1 M e c) as [Hpres Hi2]; try done.
    { intros j Hj. eapply marked_stable; [done|auto]. }
    set (w2 := mkRW (set_link (rm w1) p 0 c true) (rhist w1 ++ [delete (e_key e) M]) (rgone w1 ++ [p])).
    destruct (set_revolves w1 w2 M p 0 c c true) as [He2 _]; try done; [by eexists|by left|].
    assert (Hm2 : marked (rm w2) p 0) by (simpl; apply (marked_set _ _ _ c); auto).
    assert (Hw2 : winv w2) by (exists (delete (e_key e) M); split; [apply last_snoc|done]).
    eexists true, _, w2. split_and!; [done|done| |].
    2:{ apply (Hyes w2 (length (rhist w1) - 1)%nat M); [done|by eapply revolves_trans| |by eexists|done].
      simpl. apply lookup_app_l_Some. rewrite last_lookup in HM. by rewrite Nat.sub_1_r. }
    split; [done| | |].
    + exists [], [p]. simpl. rewrite app_nil_r. split_and!; [done..|by intros a ?%elem_of_nil].
    + split; [|intros a Ha; right; rewrite Hmid in Ha; by injection Ha as <-].
      intros e' j He' _ [(-> & _)|?]%(marked_set _ _ _ c); [by right; left|by left|done..].
    + exists M, (delete (e_key e) M). simpl. split_and!; [done|done| |right; exists (e_key e); eauto 10].
      rewrite map_size_delete_Some by eauto.
      assert (size M ≠ 0%nat).
      { rewrite map_size_non_empty_iff. intros ->. by rewrite lookup_empty in Hpres. }
      symmetry. rewrite wrap64_small; [lia|]. replace (_ - _) with (len (rm w1)) by lia.
      apply (ri_len _ _ _ Hi1).
  - exists false, ℓ, (rnext w1 (rm w1)). split_and!; [done|by apply winv_next| |].
    + apply rguar_links; try done; [by apply same_revolves|by apply mids_same].
    + apply Hno; [by apply winv_next|by apply revolves_next|]. simpl.
      destruct Hh as [Hh|Hm]; [|right; by eapply marked_stable].
      left. destruct (held_stable _ _ _ _ _ _ He1 Hh) as [_ [?|?]]; [congruence|done].
Qed.

(** ** What a thread has read *)

Lemma nkey_fun p b b' : nkey p b → nkey p b' → b = b'.
Proof. intros (n1 & Hn1 & <-) (n2 & Hn2 & <-). congruence. Qed.

Lemma level_cases l c : c ∈ level l → c ∈ head sl :: addrs l es ∨ c = tl.
Proof.
  unfold level. rewrite elem_of_cons, elem_of_app, list_elem_of_singleton. intros [->|[?|?]]; [left|left|by right].
  - apply list_elem_of_here.
  - by apply list_elem_of_further.
Qed.

Lemma tail_key : nkey tl PosInf.
Proof. eexists. split; [apply (r_tail _ _ _ _ _ _ Hrep)|done]. Qed.

Lemma head_key : nkey (head sl) NegInf.
Proof. eexists. split; [apply (r_head _ _ _ _ _ _ Hrep)|done]. Qed.

(** The link [(s, k)] of [c], read since the potential was [P]. *)
Definition sees (P : nat) (w : rworld) (l : nat) (c s : Z) (k : bool) : Prop :=
  (c = tl ∧ s = 0 ∧ k = false) ∨
  (skips (rm w) l c s ∧ cut (rm w) l c s ∧ (reach (rm ws) l c → reach (rm ws) l s) ∧
   if k then links (rm w) !! (c, l) = Some (Link.pack s true)
   else held P w l c s ∧ ¬ marked (rm ws) c l).

Lemma sees_stable P w w' l c s k : revolves w w' → sees P w l c s k → sees P w' l c s k.
Proof.
  intros He [?|(Hs & Hc & Hr & Hk)]; [by left|right].
  split_and!; [by eapply skips_stable|by eapply cut_stable|done|].
  destruct k; [|destruct Hk; split; [by eapply held_stable|done]]. rewrite (v_frozen _ _ He); [done|].
  eexists. split; [exact Hk|apply mark_of_pack; by eapply skips_tag].
Qed.

(** Reading a link of the level, and knowing whether the node is deleted. *)
Lemma rwp_get_link_mid {A} (k : Z * bool → prog A) Q ℓ w P l c (o : bool → option Z) :
  (l ≤ max_level sl)%nat → c ∈ level l → safe c → (pot (rm w) ≤ P)%nat →
  (∀ w2 b x, (b = true ↔ marked (rm w2) c l) → rmid ℓ = Some x → o b = Some x ∨ marked (rm w2) x 0) →
  (∀ w2 s b, winv w2 → revolves w w2 → sees P w2 l c s b → (b = true ↔ marked (rm w2) c l) →
     rwp (k (s, b)) Q (with_mid ℓ (o b)) w2) →
  rwp (pbind (link_get c l) k) Q ℓ w.
Proof.
  intros Hl Hc Hsafe HP Ho Hk. cbn [link_get atom pbind]. apply rwp_read_mid; [done|]. intros w1 Hi1 He1 Hs1.
  pose proof (v_pot _ _ He1) as Hp1. pose proof (winv_next w1 Hi1) as Hi2.
  pose proof (revolves_next _ _ He1) as He2.
  destruct (level_cases l c Hc) as [Hc'| ->].
  - destruct (link_read w1 l c Hi1 Hl Hc') as (s & b & Hlk & Hs & Hcu & Ht).
    assert (Hb : b = true ↔ marked (rm w1) c l) by (symmetry; by apply (marked_pack w1 l c s)).
    exists (Link.pack s b), (o b). split_and!; [simpl; by rewrite Hlk|intros x; by apply Ho|].
    rewrite ptr_of_pack, mark_of_pack by done.
    apply Hk; [done|done|right; split_and!; [done|done| |]|done].
    + intros Hr. pose proof (v_links _ _ Hs1 l c _ Hc' Hr Hlk) as R. by rewrite ptr_of_pack in R.
    + destruct b; [done|]. split; [split; simpl; [lia|by left]|]. intros Hm.
      by pose proof (proj2 Hb (marked_stable _ _ _ _ Hs1 Hm)).
  - destruct Hi1 as (M & HM & Hi1). pose proof (r_height _ _ _ _ _ _ Hrep) as Hh.
    pose proof (ri_tail _ _ _ Hi1 l ltac:(lia)) as Ht.
    assert (Hb : false = true ↔ marked (rm w1) tl l).
    { split; [done|]. intros (v & Hv & Hm). rewrite Ht in Hv. by injection Hv as <-. }
    exists 0, (o false). split_and!; [simpl; by rewrite Ht|intros x; by apply Ho|].
    change (Link.ptr_of 0) with 0. change (Link.mark_of 0) with false.
    apply Hk; [done|done|by left|done].
Qed.

Lemma rwp_get_link {A} (k : Z * bool → prog A) Q ℓ w P l c :
  (l ≤ max_level sl)%nat → c ∈ level l → safe c → (pot (rm w) ≤ P)%nat →
  (∀ w2 s b, winv w2 → revolves w w2 → sees P w2 l c s b → (b = true ↔ marked (rm w2) c l) →
     rwp (k (s, b)) Q ℓ w2) →
  rwp (pbind (link_get c l) k) Q ℓ w.
Proof.
  intros Hl Hc Hsafe HP Hk. apply (rwp_get_link_mid _ _ _ _ P _ _ (λ _, rmid ℓ)); [done..|by left|].
  intros w2 s b. rewrite with_mid_same. apply Hk.
Qed.

(** Reading a node's key. *)
Lemma rwp_key {A} (k : BoundKey → prog A) Q ℓ w c bk :
  safe c → nkey c bk → (∀ w2, winv w2 → revolves w w2 → rwp (k bk) Q ℓ w2) →
  rwp (pbind (atom (AKey c)) k) Q ℓ w.
Proof.
  intros Hsafe (nd & Hn & <-) Hk. cbn [atom pbind]. apply rwp_read; [done|]. intros w1 Hi1 He1 _.
  pose proof Hi1 as (M & _ & Hr). exists (SkipList.key nd). split; [simpl; by rewrite (ri_nodes _ _ _ Hr), Hn|].
  apply Hk; [by apply winv_next|by apply revolves_next].
Qed.

(** ** What was there when the call began *)

(** A node that was not deleted then was met by traversals, also one level down. *)
Lemma fresh_reach l p :
  (l ≤ max_level sl)%nat → p ∈ head sl :: addrs l es → ¬ marked (rm ws) p l → reach (rm ws) l p.
Proof. destruct Hws as (M & _ & Hi). apply (ri_reach _ _ _ Hi). Qed.

Lemma fresh_down l p :
  (l ≤ max_level sl)%nat → p ∈ head sl :: addrs (S l) es → ¬ marked (rm ws) p (S l) → ¬ marked (rm ws) p l.
Proof.
  destruct Hws as (M & _ & Hi). intros Hl Hin Hun Hm.
  apply elem_of_cons in Hin as [->|(e & He & <- & Ht)%elem_of_addrs].
  - by eapply (ri_head _ _ _ Hi l).
  - by apply Hun, (ri_down _ _ _ Hi).
Qed.

Lemma fresh_head l : (l ≤ max_level sl)%nat → ¬ marked (rm ws) (head sl) l.
Proof. destruct Hws as (M & _ & Hi). apply (ri_head _ _ _ Hi). Qed.

Lemma reach_safe l p : (l ≤ max_level sl)%nat → reach (rm ws) l p → safe p.
Proof. by exists l. Qed.

(** ** find *)

(** [w0] is some earlier world: what was deleted there is not in the result. *)
Lemma rwp_splice Q ℓ P l p w0 fuel : (l ≤ max_level sl)%nat → ∀ w c s k,
  winv w → revolves w0 w → (ahead c (level l) + 1 ≤ fuel)%nat →
  held P w l p c → skips (rm w) l p c → cut (rm w) l p c → reach (rm ws) l p → reach (rm ws) l c →
  sees P w l c s k → (k = false → ¬ marked (rm w0) c l) →
  (∀ w2, winv w2 → revolves w w2 → (pot (rm w2) < P)%nat → Q None ℓ w2) →
  (∀ w2 c' s', winv w2 → revolves w w2 → held P w2 l p c' → skips (rm w2) l p c' → cut (rm w2) l p c' →
     reach (rm ws) l c' → sees P w2 l c' s' false → ¬ marked (rm w0) c' l →
     (ahead c' (level l) ≤ ahead c (level l))%nat → Q (Some (c', s')) ℓ w2) →
  rwp (splice_marked fuel l p c s k) Q ℓ w.
Proof.
  intros Hl. induction fuel as [|fuel IH]; intros w c s k Hi H0 Hf Hh Hpc Hcut Rp Rc Hsee Hun Hno Hyes; [lia|].
  cbn [splice_marked]. destruct k; [|apply Hyes; auto using revolves_refl].
  destruct Hsee as [(_ & _ & [=])|(Hcs & _ & Rs%(λ H, H Rc) & Hlk)]. pose proof (skips_ahead _ _ _ _ Hcs) as Hah.
  cbn [link_cas atom pbind]. eapply rwp_unlink; [done|by eapply reach_safe|done..| |].
  - intros w2 Hi2 He2 Hp2. simpl. by apply Hno.
  - intros w2 Hi2 He2 Hp2 Hps Hcu. cbn [negb].
    apply (rwp_get_link _ _ _ _ P); [done|by apply (skips_level _ _ _ _ Hps)|by eapply reach_safe|lia|].
    intros w3 s' k' Hi3 He3 Hsee' Hk'. pose proof (v_pot _ _ He3) as Hp3.
    pose proof (revolves_trans _ _ _ H0 (revolves_trans _ _ _ He2 He3)) as H03.
    apply IH; [done|done|lia|split; [lia|right; lia]|by apply (skips_stable w2)
      |by apply (cut_stable w2)|done|done|done|..].
    + intros -> Hm. by pose proof (proj2 Hk' (marked_stable _ _ _ _ H03 Hm)).
    + intros w4 Hi4 He4. apply Hno; [done|]. by do 2 (eapply revolves_trans; [done|]).
    + intros w4 c' s'' Hi4 He4 ? ? ? ? ? ? ?. apply Hyes; try done; [|lia].
      by do 2 (eapply revolves_trans; [done|]).
Qed.

(** Both sides of the target on a level, with nothing but deleted nodes between. *)
Definition around (w : rworld) (l : nat) (p c : Z) (t : bytes) : Prop :=
  skips (rm w) l p c ∧ (∃ bp, nkey p bp ∧ bk_lt bp (fin t)) ∧ (∃ bc, nkey c bc ∧ key_lt bc t = false) ∧
  ¬ marked (rm ws) p l ∧ reach (rm ws) l c.

Lemma around_stable w w' l p c t : revolves w w' → around w l p c t → around w' l p c t.
Proof. intros He (? & ?). split; [by eapply skips_stable|done]. Qed.

(** The level has been searched since [w0]. *)
Definition swept (w0 w : rworld) (l : nat) (t : bytes) : Prop :=
  ∃ p c, around w l p c t ∧ cut (rm w) l p c ∧ ¬ marked (rm w0) c l.

Lemma swept_stable w0 w w' l t : revolves w w' → swept w0 w l t → swept w0 w' l t.
Proof.
  intros He (p & c & ? & ? & ?). exists p, c. split_and!; [by eapply around_stable|by eapply cut_stable|done].
Qed.

Lemma rwp_search Q ℓ P l t w0 fuel : (l ≤ max_level sl)%nat → ∀ w p c bp,
  winv w → revolves w0 w → (ahead c (level l) + 1 ≤ fuel)%nat → nkey p bp → bk_lt bp (fin t) →
  held P w l p c → skips (rm w) l p c → cut (rm w) l p c → ¬ marked (rm ws) p l → reach (rm ws) l c →
  (∀ w2, winv w2 → revolves w w2 → (pot (rm w2) < P)%nat → Q None ℓ w2) →
  (∀ w2 p' c', winv w2 → revolves w w2 → clear P w2 l p' → around w2 l p' c' t → swept w0 w2 l t →
     Q (Some (p', c')) ℓ w2) →
  rwp (search_level fuel l t p c) Q ℓ w.
Proof.
  intros Hl. induction fuel as [|fuel IH]; intros w p c bp Hi H0 Hf Kp Hlt Hh Hpc Hcut Up Rc Hno Hyes; [lia|].
  pose proof (fresh_reach l p Hl (proj1 (skips_elem _ _ _ _ Hpc)) Up) as Rp. cbn [search_level].
  apply (rwp_get_link _ _ _ _ P); [done|by apply (skips_level _ _ _ _ Hpc)|by eapply reach_safe|apply Hh|].
  intros w1 s k Hi1 He1 Hsee Hk1. apply rwp_bind. pose proof (revolves_trans _ _ _ H0 He1) as H01.
  apply (rwp_splice _ _ P _ _ w0); [done|done|done|lia|by apply (held_stable _ w)|by apply (skips_stable w)
    |by apply (cut_stable w)|done|done|done|..].
  { intros -> Hm. by pose proof (proj2 Hk1 (marked_stable _ _ _ _ H01 Hm)). }
  { intros w2 Hi2 He2 Hp2. apply Hno; [done|by eapply revolves_trans|done]. }
  intros w2 c' s' Hi2 He2 Hh2 Hpc2 Hcut2 Rc2 Hsee2 Hun Hah. pose proof (revolves_trans _ _ _ He1 He2) as He02.
  destruct (level_key l c') as [bc Kc]; [by apply (skips_level _ _ _ _ Hpc2)|].
  apply (rwp_key _ _ _ _ _ bc (reach_safe _ _ Hl Rc2) Kc). intros w3 Hi3 He3.
  pose proof (revolves_trans _ _ _ He02 He3) as He03.
  destruct (key_lt bc t) eqn:Hk.
  - destruct Hsee2 as [(-> & _)|(Hcs & Hcc & Rs%(λ H, H Rc2) & Hhc & Uc)]; [by rewrite (nkey_fun _ _ _ Kc tail_key) in Hk|].
    pose proof (skips_ahead _ _ _ _ Hcs). apply key_lt_bk in Hk.
    eapply (IH w3 c' s' bc); [done|by eapply (revolves_trans w0 w)|lia|done|done|by apply (held_stable _ w2)
      |by apply (skips_stable w2)|by apply (cut_stable w2)|done|done|..].
    + intros w4 Hi4 He4. apply Hno; [done|by eapply revolves_trans].
    + intros w4 ? ? Hi4 He4. apply Hyes; [done|by eapply revolves_trans].
  - assert (Ha : around w3 l p c' t) by (split_and!; [by apply (skips_stable w2)|eauto..|done|done]).
    apply Hyes; [done|done|eapply clear_stable; [exact He3|]|done|].
    + eapply held_clear; [|exact Hh2]. by eapply skips_tag.
    + exists p, c'. split_and!; [done|by apply (cut_stable w2)|done].
Qed.

(** A node that a search may start from at level [l]. *)
Definition start_ok (P : nat) (w : rworld) (l : nat) (p : Z) (t : bytes) : Prop :=
  p ∈ head sl :: addrs l es ∧ clear P w l p ∧ ¬ marked (rm ws) p l ∧ ∃ bp, nkey p bp ∧ bk_lt bp (fin t).

Lemma head_ok P w l t : winv w → (l ≤ max_level sl)%nat → (pot (rm w) ≤ P)%nat → start_ok P w l (head sl) t.
Proof.
  intros (M & _ & Hi) Hl HP. split_and!; [apply list_elem_of_here| |by apply fresh_head|exists NegInf; split; [apply head_key|done]].
  split; [done|left]. by apply (ri_head _ _ _ Hi).
Qed.

(** One level down the predecessor may be deleted only if the links changed. *)
Lemma lower_ok P w l p c t : winv w → (l ≤ max_level sl)%nat → clear P w (S l) p → around w (S l) p c t → start_ok P w l p t.
Proof.
  intros (M & _ & Hi) Hl [HP Hcl] (Hs & Hp & _ & Up & _). destruct (skips_elem _ _ _ _ Hs) as [Hin _].
  split_and!; [by apply level_down| |by apply fresh_down|done]. split; [done|]. destruct Hcl as [Hcl|?]; [left|by right].
  intros Hm. apply elem_of_cons in Hin as [->|(e & He & <- & Ht)%elem_of_addrs].
  - by eapply (ri_head _ _ _ Hi l); [lia|].
  - by apply Hcl, (ri_down _ _ _ Hi).
Qed.

Lemma rwp_reference {A} (k : Z → prog A) Q ℓ w l p :
  (l ≤ max_level sl)%nat → p ∈ head sl :: addrs l es → ¬ marked (rm ws) p l →
  (∀ w2 c, winv w2 → revolves w w2 → (∀ P, clear P w l p → held P w2 l p c) → skips (rm w2) l p c →
     cut (rm w2) l p c → reach (rm ws) l c → rwp (k c) Q ℓ w2) →
  rwp (pbind (link_reference p l) k) Q ℓ w.
Proof.
  intros Hl Hin Up Hk. pose proof (fresh_reach l p Hl Hin Up) as Rp. cbn [link_reference atom pbind].
  apply rwp_read; [by eapply reach_safe|]. intros w1 Hi1 He1 Hs1.
  destruct (link_read w1 l p Hi1 Hl Hin) as (c & b & Hlk & Hs & Hc & Ht).
  pose proof (v_links _ _ Hs1 l p _ Hin Rp Hlk) as Rc. rewrite ptr_of_pack in Rc by done. simpl. rewrite Hlk. simpl.
  eexists. split; [done|]. rewrite ptr_of_pack by done.
  apply Hk; [by apply winv_next|by apply revolves_next| |done|done|done]. intros P Hcl.
  destruct (clear_stable _ _ _ _ _ He1 Hcl) as [HP Hu]. split; [done|]. simpl.
  destruct b; [|by left]. right. destruct Hu as [Hu|]; [|done]. destruct Hu. by apply (marked_pack w1 l p c true).
Qed.

Lemma rwp_descend Q ℓ P t w0 fuel n : (length es + 3 ≤ fuel)%nat → ∀ w p preds succs,
  winv w → revolves w0 w → (n ≤ S (max_level sl))%nat → (0 < length succs)%nat →
  (∀ l, n = S l → start_ok P w l p t) →
  (n = 0%nat → ∃ q c, succs !! 0%nat = Some c ∧ around w 0 q c t) →
  (∀ l, (n ≤ l ≤ max_level sl)%nat → swept w0 w l t) →
  (∀ w2, winv w2 → revolves w w2 → (pot (rm w2) < P)%nat → Q None ℓ w2) →
  (∀ w2 preds' succs' q c, winv w2 → revolves w w2 → succs' !! 0%nat = Some c → around w2 0 q c t →
     (∀ l, (l ≤ max_level sl)%nat → swept w0 w2 l t) → Q (Some (preds', succs')) ℓ w2) →
  rwp (descend fuel n t p preds succs) Q ℓ w.
Proof.
  intros Hf. induction n as [|l IH]; intros w p preds succs Hi H0 Hn Hlen Hst Hend Hsw Hno Hyes; cbn [descend].
  { destruct (Hend eq_refl) as (q & c & Hc & Ha).
    eapply Hyes; [done|apply revolves_refl|done|done|]. intros l Hl. apply Hsw. lia. }
  destruct (Hst l eq_refl) as (Hin & Hcl0 & Up & bp & Kp & Hbp). apply rwp_reference; [lia|done|done|].
  intros w1 c Hi1 He1 Hh1%(λ H, H P Hcl0) Hs1 Hc1 Rc. apply rwp_bind.
  pose proof (ahead_le c (level l)). pose proof (level_length l).
  eapply (rwp_search _ _ _ _ _ w0); [lia|done|by eapply revolves_trans|lia|done|done|done|done|done|done|done|..].
  - intros w2 Hi2 He2. apply Hno; [done|by eapply revolves_trans].
  - intros w2 p' c' Hi2 He2 Hcl Ha Hs2. pose proof (revolves_trans _ _ _ He1 He2) as He02.
    eapply IH; [done|by eapply revolves_trans|lia|by rewrite length_insert|..].
    + intros l' ->. eapply lower_ok; [done|lia|done..].
    + intros ->. exists p', c'. split; [by apply list_lookup_insert_eq|done].
    + intros j Hj. destruct (decide (j = l)) as [->|]; [done|].
      eapply swept_stable; [exact He02|]. apply Hsw. lia.
    + intros w3 Hi3 He3. apply Hno; [done|]. by eapply revolves_trans.
    + intros w3 ? ? ? ? Hi3 He3. apply Hyes; [done|]. by eapply revolves_trans.
Qed.

Lemma rwp_find Q ℓ t w0 fuel n : (length es + 3 ≤ fuel)%nat → ∀ w preds succs,
  winv w → revolves w0 w → (pot (rm w) < n)%nat → (0 < length succs)%nat →
  (∀ w2 preds' succs' q c bc, winv w2 → revolves w w2 → succs' !! 0%nat = Some c → around w2 0 q c t →
     nkey c bc → (∀ l, (l ≤ max_level sl)%nat → swept w0 w2 l t) → Q (key_eq bc t, preds', succs') ℓ w2) →
  rwp (find_retry fuel n sl t preds succs) Q ℓ w.
Proof.
  intros Hf. induction n as [|n IH]; intros w preds succs Hi H0 Hn Hlen Hyes; [lia|].
  cbn [find_retry]. rewrite Nat.add_1_r. apply rwp_bind.
  apply (rwp_descend _ _ (pot (rm w)) _ w0); [done|done|done|lia|done|..].
  - intros l [= <-]. by apply head_ok.
  - done.
  - intros l Hl. lia.
  - intros w2 Hi2 He2 Hp2. apply IH; [done|by eapply revolves_trans|lia|done|]. intros w3 ? ? ? ? ? Hi3 He3.
    apply Hyes; [done|by eapply revolves_trans].
  - intros w2 preds' succs' q c Hi2 He2 Hc Ha Hsw. unfold index. rewrite Hc. cbn [pbind].
    pose proof Ha as (_ & _ & (bc & Kc & Hge) & _ & Rc).
    apply (rwp_key _ _ _ _ _ bc (reach_safe 0 c ltac:(lia) Rc) Kc). intros w3 Hi3 He3.
    apply (Hyes _ _ _ q c bc); [done|by eapply revolves_trans|done|by eapply around_stable|done|].
    intros l Hl. eapply swept_stable; [exact He3|auto].
Qed.

(** ** What a search has shown *)

(** At some instant since [s] the map answered [o] for [t]. *)
Definition ranswered (s : nat) (w : rworld) (t : bytes) (o : option bytes) : Prop :=
  ∃ u M, (s ≤ u)%nat ∧ rhist w !! u = Some M ∧ o = M !! t.

Lemma ranswered_now s w M t :
  last (rhist w) = Some M → (s < length (rhist w))%nat → ranswered s w t (M !! t).
Proof. intros HM Hs. rewrite last_lookup in HM. exists (Nat.pred (length (rhist w))), M. split_and!; [lia|done..]. Qed.

Lemma ranswered_stable s w w' t o : revolves w w' → ranswered s w t o → ranswered s w' t o.
Proof.
  intros He (u & M & Hu & HM & Ho). exists u, M. split_and!; [done| |done].
  by eapply prefix_lookup_Some; [|apply He].
Qed.

Lemma hist_grows s w w' : revolves w w' → (s < length (rhist w))%nat → (s < length (rhist w'))%nat.
Proof. intros He Hs. pose proof (prefix_length _ _ (v_hist _ _ He)). lia. Qed.

(** No node with the key: the map does not have it. *)
Lemma around_absent w M gone q c t bc :
  rinv (rm w) M gone → around w 0 q c t → nkey c bc → key_eq bc t = false → M !! t = None.
Proof.
  intros Hi (Hs & (bq & Kq & Hq) & (bc' & Kc' & Hge) & _) Kc Hne. rewrite (nkey_fun _ _ _ Kc' Kc) in Hge.
  destruct (M !! t) as [bs|] eqn:HM; [|done]. apply (ri_map _ _ _ Hi) in HM as (e & He & <- & _ & Hun).
  destruct Hun. eapply (skips_between _ 0 q c (e_addr e)); [done| |done|done|by apply entry_nkey|done|].
  - unfold level. apply list_elem_of_further, elem_of_app. left. apply level_entry; [done|lia].
  - by apply key_ge_bk.
Qed.

(** A node with the key is one of the entries. *)
Lemma around_found w q c t bc :
  around w 0 q c t → nkey c bc → key_eq bc t = true → ∃ e, e ∈ es ∧ e_addr e = c ∧ e_key e = t.
Proof.
  intros (Hs & _) Kc Heq. destruct (skips_level _ _ _ _ Hs) as [_ Hc].
  destruct bc as [|x|]; [done| |done]. simpl in Heq. apply bool_decide_eq_true in Heq.
  destruct (level_cases 0 c Hc) as [[->|(e & He & <- & _)%elem_of_addrs]%elem_of_cons| ->].
  - by pose proof (nkey_fun _ _ _ Kc head_key).
  - exists e. split_and!; [done..|]. pose proof (nkey_fun _ _ _ Kc (entry_nkey e He)) as E.
    injection E as ->. by rewrite as_bytes_new in Heq.
  - by pose proof (nkey_fun _ _ _ Kc tail_key).
Qed.

(** A deleted entry's key is gone, another one's is there. *)
Lemma entry_gone w M gone e : rinv (rm w) M gone → e ∈ es → marked (rm w) (e_addr e) 0 → M !! e_key e = None.
Proof.
  intros Hi He Hm. destruct (M !! e_key e) as [bs|] eqn:HM; [|done].
  apply (ri_map _ _ _ Hi) in HM as (e' & He' & Hk & _ & Hun).
  destruct Hun. by rewrite (entry_inj e' e He' He (or_introl Hk)).
Qed.

Lemma entry_there w M gone e :
  rinv (rm w) M gone → e ∈ es → ¬ marked (rm w) (e_addr e) 0 → M !! e_key e = Some (e_bytes e).
Proof. intros Hi He Hm. apply (ri_map _ _ _ Hi). by exists e. Qed.

(** ** get *)

Lemma rwp_skip Q ℓ l p fuel : (l ≤ max_level sl)%nat → ∀ w c s k,
  winv w → (ahead c (level l) + 1 ≤ fuel)%nat → skips (rm w) l p c → reach (rm ws) l c → sees pot_bound w l c s k →
  (∀ w2 c' s', winv w2 → revolves w w2 → skips (rm w2) l p c' → reach (rm ws) l c' →
     sees pot_bound w2 l c' s' false →
     (ahead c' (level l) ≤ ahead c (level l))%nat → Q (c', s') ℓ w2) →
  rwp (skip_marked fuel l c s k) Q ℓ w.
Proof.
  intros Hl. induction fuel as [|fuel IH]; intros w c s k Hi Hf Hpc Rc Hsee Hyes; [lia|].
  cbn [skip_marked]. destruct k; [|apply Hyes; auto using revolves_refl].
  destruct Hsee as [(_ & _ & [=])|(Hcs & _ & Rs%(λ H, H Rc) & Hlk)]. pose proof (skips_ahead _ _ _ _ Hcs) as Hah.
  assert (Hm : marked (rm w) c l).
  { apply (marked_pack w l c s true); [done| |done]. eapply level_tag. by apply (skips_level _ _ _ _ Hcs). }
  apply (rwp_get_link _ _ _ _ pot_bound);
    [done|by apply (skips_level _ _ _ _ Hcs)|by eapply reach_safe|apply pot_le|].
  intros w3 s' k' Hi3 He3 Hsee' _.
  apply IH; [done|lia|eapply (skips_stable w); [done|by eapply skips_trans]|done|done|].
  intros w4 c' s'' Hi4 He4 ? ? ? ?. apply Hyes; try done; [|lia]. by eapply revolves_trans.
Qed.

Lemma rwp_walk Q ℓ l t fuel : (l ≤ max_level sl)%nat → ∀ w p c bp,
  winv w → (ahead c (level l) + 1 ≤ fuel)%nat → nkey p bp → bk_lt bp (fin t) → skips (rm w) l p c →
  ¬ marked (rm ws) p l → reach (rm ws) l c →
  (∀ w2 p' c', winv w2 → revolves w w2 → around w2 l p' c' t → Q (p', c') ℓ w2) →
  rwp (walk_level fuel l t p c) Q ℓ w.
Proof.
  intros Hl. induction fuel as [|fuel IH]; intros w p c bp Hi Hf Kp Hlt Hpc Up Rc Hyes; [lia|].
  cbn [walk_level]. apply (rwp_get_link _ _ _ _ pot_bound);
    [done|by apply (skips_level _ _ _ _ Hpc)|by eapply reach_safe|apply pot_le|].
  intros w1 s k Hi1 He1 Hsee _. apply rwp_bind.
  eapply rwp_skip; [done|done|lia|by apply (skips_stable w)|done|done|].
  intros w2 c' s' Hi2 He2 Hpc2 Rc2 Hsee2 Hah. pose proof (revolves_trans _ _ _ He1 He2) as He02.
  destruct (level_key l c') as [bc Kc]; [by apply (skips_level _ _ _ _ Hpc2)|].
  apply (rwp_key _ _ _ _ _ bc (reach_safe _ _ Hl Rc2) Kc). intros w3 Hi3 He3.
  pose proof (revolves_trans _ _ _ He02 He3) as He03.
  destruct (key_lt bc t) eqn:Hk.
  - destruct Hsee2 as [(-> & _)|(Hcs & _ & Rs%(λ H, H Rc2) & _ & Uc)]; [by rewrite (nkey_fun _ _ _ Kc tail_key) in Hk|].
    pose proof (skips_ahead _ _ _ _ Hcs). apply key_lt_bk in Hk.
    eapply (IH w3 c' s' bc); [done|lia|done|done|by apply (skips_stable w2)|done|done|].
    intros w4 ? ? Hi4 He4. apply Hyes; [done|by eapply revolves_trans].
  - apply Hyes; [done|done|]. split_and!; [by apply (skips_stable w2)|eauto..|done|done].
Qed.

Lemma rwp_candidate s ℓ w p c t :
  winv w → (s < length (rhist w))%nat → around w 0 p c t →
  rwp (get_candidate t c) (λ o ℓ' w', ℓ' = ℓ ∧ ranswered s w' t o) ℓ w.
Proof.
  intros Hi Hs Ha. pose proof Ha as (Hsk & _ & (bc & Kc & _) & _ & Rc).
  pose proof (reach_safe 0 c ltac:(lia) Rc) as Sc. unfold get_candidate.
  apply (rwp_key _ _ _ _ _ bc Sc Kc). intros w1 Hi1 He1.
  pose proof (hist_grows _ _ _ He1 Hs) as Hs1. pose proof (around_stable _ _ _ _ _ _ He1 Ha) as Ha1.
  destruct (key_eq bc t) eqn:Hk.
  2:{ destruct Hi1 as (M & HM & Hi1). split; [done|].
      rewrite <- (around_absent _ _ _ _ _ _ _ Hi1 Ha1 Kc Hk). by apply ranswered_now. }
  destruct (around_found _ _ _ _ _ Ha1 Kc Hk) as (e & He & <- & <-).
  destruct (entry_node e He) as (Hn & Hv & _ & Hv0).
  apply (rwp_get_link _ _ _ _ pot_bound); [lia|by apply (skips_level _ _ _ _ Hsk)|done|apply pot_le|].
  intros w2 s' b (M & HM & Hi2) He2 _ Hb. pose proof (hist_grows _ _ _ He2 Hs1) as Hs2. destruct b.
  { split; [done|]. rewrite <- (entry_gone w2 M (rgone w2) e Hi2 He (proj1 Hb eq_refl)). by apply ranswered_now. }
  assert (Hans : ranswered s w2 (e_key e) (Some (e_bytes e))).
  { rewrite <- (entry_there w2 M (rgone w2) e Hi2 He); [by apply ranswered_now|]. intros Hm%Hb. done. }
  cbn [atom pbind]. apply rwp_read; [done|]. intros w3 (M3 & _ & Hi3) He3 _. simpl.
  rewrite (ri_nodes _ _ _ Hi3), Hn. simpl. eexists. split; [done|]. cbn [value].
  destruct (Z.eqb_spec (e_vptr e) 0) as [|_]; [done|]. apply rwp_read; [by exists e|]. intros w4 (M4 & _ & Hi4) He4 _. simpl.
  rewrite (ri_values _ _ _ Hi4), Hv. simpl. eexists. split; [done|]. split; [done|].
  eapply ranswered_stable; [|exact Hans]. eapply revolves_trans; [by apply revolves_next|by apply revolves_next].
Qed.

Lemma rwp_levels s ℓ t fuel n : (length es + 3 ≤ fuel)%nat → ∀ w p bp,
  winv w → (s < length (rhist w))%nat → (n ≤ max_level sl)%nat →
  p ∈ head sl :: addrs n es → ¬ marked (rm ws) p n → nkey p bp → bk_lt bp (fin t) →
  rwp (get_levels fuel (S n) t p) (λ o ℓ' w', ℓ' = ℓ ∧ ranswered s w' t o) ℓ w.
Proof.
  intros Hf. induction n as [|n IH]; intros w p bp Hi Hs Hn Hin Up Kp Hbp; cbn [get_levels];
    (apply rwp_reference; [lia|done|done|]); intros w1 c Hi1 He1 _ Hs1 _ Rc; apply rwp_bind;
    match goal with |- rwp (walk_level _ ?l _ _ _) _ _ _ =>
      pose proof (ahead_le c (level l)); pose proof (level_length l) end;
    (eapply rwp_walk; [lia|done|lia|done|done|done|done|done|]); intros w2 p' c' Hi2 He2 Ha; cbn [Nat.eqb];
    pose proof (hist_grows _ _ _ He2 (hist_grows _ _ _ He1 Hs)) as Hs2.
  - by eapply rwp_candidate.
  - destruct Ha as (Hsk & (bp' & Kp' & Hbp') & _ & Up' & _). destruct (skips_elem _ _ _ _ Hsk) as [Hin' _].
    apply (IH _ _ bp'); [done|done|lia|by apply level_down|apply fresh_down; [lia|done..]|done|done].
Qed.

(** A lookup never faults, and answers for some instant of its own. *)
Lemma rwp_get s ℓ t fuel w :
  (length es + 3 ≤ fuel)%nat → winv w → (s < length (rhist w))%nat →
  rwp (get fuel sl t) (λ o ℓ' w', ℓ' = ℓ ∧ ranswered s w' t o) ℓ w.
Proof.
  intros Hf Hi Hs. unfold get. rewrite Nat.add_1_r.
  apply (rwp_levels _ _ _ _ _ Hf _ _ NegInf); [done|done|done|apply list_elem_of_here|by apply fresh_head|apply head_key|done].
Qed.

(** ** remove *)

Lemma entry_level e l : e ∈ es → (l ≤ e_top e)%nat → e_addr e ∈ level l.
Proof. intros He Hl. unfold level. apply list_elem_of_further, elem_of_app. left. by apply level_entry. Qed.

Lemma entry_not_tail e : e ∈ es → e_addr e ≠ tl.
Proof.
  intros He Heq. pose proof (level_nodup 0) as Hnd. unfold level in Hnd.
  apply NoDup_cons in Hnd as [_ Hnd]. apply NoDup_app in Hnd as (_ & Hnd & _).
  apply (Hnd (e_addr e)); [apply level_entry; [done|lia]|rewrite Heq; set_solver].
Qed.

Lemma sees_entry P w e l s k : e ∈ es → sees P w l (e_addr e) s k →
  skips (rm w) l (e_addr e) s ∧ (if k then marked (rm w) (e_addr e) l else held P w l (e_addr e) s).
Proof.
  intros He [(Ht & _)|(Hs & _ & _ & Hk)]; [by destruct (entry_not_tail e He)|]. split; [done|].
  destruct k; [|apply Hk].
  eexists. split; [exact Hk|]. apply mark_of_pack. eapply level_tag. by apply (skips_level _ _ _ _ Hs).
Qed.

Definition uppers (w : rworld) (e : entry) (l : nat) : Prop :=
  ∀ j, (l < j ≤ e_top e)%nat → marked (rm w) (e_addr e) j.

Lemma uppers_stable w w' e l : revolves w w' → uppers w e l → uppers w' e l.
Proof. intros He Hu j Hj. eapply marked_stable; [done|auto]. Qed.

(** Every round marks the link, or finds that links have changed. *)
Lemma rwp_mark_level Q ℓ e l fuel : e ∈ es → (0 < l ≤ e_top e)%nat → rmid ℓ = Some (e_addr e) → safe (e_addr e) → ∀ w P s k,
  winv w → uppers w e l → sees P w l (e_addr e) s k → ((if k then 0 else S P) < fuel)%nat →
  (∀ w2, winv w2 → revolves w w2 → marked (rm w2) (e_addr e) l → Q tt ℓ w2) →
  rwp (mark_level fuel (e_addr e) l s k) Q ℓ w.
Proof.
  intros He Hl Hmid Hsafe. destruct (entry_node e He) as (_ & _ & Htop & _).
  induction fuel as [|fuel IH]; intros w P s k Hi Hu Hsee Hf Hyes; [lia|].
  destruct (sees_entry _ _ _ _ _ _ He Hsee) as [Hs Hk]. cbn [mark_level].
  destruct k; cbn [negb]; [apply Hyes; auto using revolves_refl|].
  cbn [link_attempt_mark atom pbind]. apply (rwp_mark_upper _ _ _ _ P); [done..| |].
  - intros w2 Hi2 He2 Hp2. apply (rwp_get_link _ _ _ _ (pred P)); [lia|apply entry_level; [done|lia]|done|lia|].
    intros w3 s' k' Hi3 He3 Hsee' _. pose proof (revolves_trans _ _ _ He2 He3) as He03.
    eapply IH; [done|by eapply (uppers_stable w)|done|destruct k'; lia|].
    intros w4 Hi4 He4. apply Hyes; [done|by eapply revolves_trans].
  - intros w2 Hi2 He2 Hm2. apply (rwp_get_link _ _ _ _ (pot (rm w2))); [lia|apply entry_level; [done|lia]|done|lia|].
    intros w3 s' k' Hi3 He3 Hsee' Hk'. pose proof (revolves_trans _ _ _ He2 He3) as He03.
    rewrite (proj2 Hk' (marked_stable _ _ _ _ He3 Hm2)) in *.
    eapply IH; [done|by eapply (uppers_stable w)|done|lia|].
    intros w4 Hi4 He4. apply Hyes; [done|by eapply revolves_trans].
Qed.

Lemma rwp_mark_uppers Q ℓ e fuel : e ∈ es → (pot_bound + 2 ≤ fuel)%nat → rmid ℓ = Some (e_addr e) → safe (e_addr e) → ∀ n w,
  winv w → (n ≤ e_top e)%nat → uppers w e n →
  (∀ w2, winv w2 → revolves w w2 → uppers w2 e 0 → Q tt ℓ w2) →
  rwp (mark_uppers fuel (e_addr e) n) Q ℓ w.
Proof.
  intros He Hf Hmid Hsafe. destruct (entry_node e He) as (_ & _ & Htop & _).
  induction n as [|n IH]; intros w Hi Hn Hu Hyes; cbn [mark_uppers]; [apply Hyes; auto using revolves_refl|].
  apply (rwp_get_link _ _ _ _ pot_bound); [lia|by apply entry_level|done|apply pot_le|].
  intros w1 s k Hi1 He1 Hsee _. apply rwp_bind.
  eapply rwp_mark_level; [done|lia|done|done|done|by eapply uppers_stable|done|destruct k; lia|].
  intros w2 Hi2 He2 Hm2. pose proof (revolves_trans _ _ _ He1 He2) as He02.
  apply IH; [done|lia| |].
  - intros j Hj. destruct (decide (j = S n)) as [->|]; [done|]. apply (uppers_stable _ _ _ _ He02 Hu). lia.
  - intros w3 Hi3 He3. apply Hyes; [done|by eapply revolves_trans].
Qed.

(** Order of positions is order of keys. *)
Lemma key_ahead l x y bx bY :
  x ∈ level l → y ∈ level l → nkey x bx → nkey y bY → bk_lt bx bY →
  (ahead y (level l) < ahead x (level l))%nat.
Proof.
  intros Hx Hy Kx Ky Hlt. apply list_elem_of_split in Hx as (A & B & Hl). rewrite Hl in Hy.
  apply elem_of_app in Hy as [Hy|[->|Hy]%elem_of_cons].
  - exfalso. apply list_elem_of_split in Hy as (A1 & A2 & ->).
    eapply bk_lt_irrefl, bk_lt_trans; [exact Hlt|]. eapply (level_lt l A1 y A2 x B); [|done..].
    by rewrite Hl, <- app_assoc.
  - exfalso. rewrite (nkey_fun _ _ _ Kx Ky) in Hlt. by eapply bk_lt_irrefl.
  - apply list_elem_of_split in Hy as (B1 & B2 & ->). by eapply split_ahead.
Qed.

(** A node that was deleted before all levels were searched for its key is met by
    no traversal. *)
Lemma swept_off w0 w M e :
  rinv (rm w) M (rgone w) → e ∈ es → (∀ l, (l ≤ e_top e)%nat → marked (rm w0) (e_addr e) l) →
  (∀ l, (l ≤ max_level sl)%nat → swept w0 w l (e_key e)) → off (rm w) (e_addr e).
Proof.
  intros Hi He Hm Hsw l Hl Hr. pose proof (reach_level _ _ _ _ _ Hi Hl Hr) as Hlv.
  pose proof (entry_nkey e He) as Ke.
  destruct (level_fin l _ _ Hlv Ke) as (e' & He' & Ha & _ & Htop).
  rewrite (entry_inj e' e He' He (or_intror Ha)) in Htop.
  destruct (Hsw l Hl) as (p & c & (Hs & (bp & Kp & Hbp) & (bc & Kc & Hge) & _) & Hcut & Hun).
  destruct (skips_level _ _ _ _ Hs) as [Lp Lc].
  assert (Hgt : bk_lt (fin (e_key e)) bc).
  { apply key_ge_bk; [done|]. destruct (key_eq bc (e_key e)) eqn:Hk; [|done]. destruct Hun.
    destruct bc as [|x|]; [done| |done]. simpl in Hk. apply bool_decide_eq_true in Hk.
    destruct (level_cases l c Lc) as [[->|(e2 & He2 & <- & _)%elem_of_addrs]%elem_of_cons| ->].
    - by pose proof (nkey_fun _ _ _ Kc head_key).
    - pose proof (nkey_fun _ _ _ Kc (entry_nkey e2 He2)) as E. injection E as ->.
      rewrite as_bytes_new in Hk. rewrite (entry_inj e2 e He2 He (or_introl Hk)). auto.
    - by pose proof (nkey_fun _ _ _ Kc tail_key). }
  apply (Hcut (e_addr e)); [done| |done].
  split; [by apply (key_ahead l (e_addr e) c (fin (e_key e)) bc)|by apply (key_ahead l p (e_addr e) bp (fin (e_key e)))].
Qed.

(** The accesses that settle a thread's accounts. *)
Lemma rwp_len_sub {A} (k : unit → prog A) Q f d o w :
  (∀ w2, winv w2 → revolves w w2 → rwp (k tt) Q (mkRloc f d o None) w2) →
  rwp (pbind (atom (ALenAdd (-1))) k) Q (mkRloc f (S d) o None) w.
Proof.
  intros Hk. split; [done|]. intros w1 Hi1 He1 _. set (m := mkMem (nodes (rm w1)) (links (rm w1)) (values (rm w1)) (brk (rm w1))
    (wadd (len (rm w1)) (-1)) (retired (rm w1)) (rng (rm w1))).
  assert (He2 : revolves w1 (rnext w1 m)) by (by apply same_revolves).
  assert (Hi2 : winv (rnext w1 m)).
  { apply rnext_inv; [|done]. intros M _ Hi. apply (rinv_links (rm w1)); try done. apply wrap64_range. }
  exists tt, (mkRloc f d o None), (rnext w1 m).
  split_and!; [done|done| |apply Hk; [done|by eapply revolves_trans]].
  apply (rguar_next _ _ _ _ []); try done.
  - split; [intros e l _ _ Hm; by left|done].
  - by rewrite app_nil_r.
  - by intros a ?%elem_of_nil.
  - simpl. unfold wadd. f_equal. lia.
Qed.

Lemma rwp_retire {A} (k : unit → prog A) Q f d o a w :
  off (rm w) a → (∀ w2, winv w2 → revolves w w2 → rwp (k tt) Q (mkRloc f d o None) w2) →
  rwp (pbind (atom (ARetire a drop_node)) k) Q (mkRloc f d (o ++ [a]) None) w.
Proof.
  intros Hoff Hk. split; [done|]. intros w1 Hi1 He1 _. set (m := mkMem (nodes (rm w1)) (links (rm w1)) (values (rm w1)) (brk (rm w1))
    (len (rm w1)) (retired (rm w1) ++ [(a, drop_node)]) (rng (rm w1))).
  assert (He2 : revolves w1 (rnext w1 m)) by (by apply same_revolves).
  assert (Hi2 : winv (rnext w1 m)).
  { apply rnext_inv; [|done]. intros M _ Hi. apply (rinv_links (rm w1)); try done. apply (ri_len _ _ _ Hi). }
  exists tt, (mkRloc f d o None), (rnext w1 m).
  split_and!; [done|done| |apply Hk; [done|by eapply revolves_trans]].
  apply (rguar_next _ _ _ _ [a]); try done.
  - split; [intros e l _ _ Hm; by left|done].
  - simpl. by rewrite Permutation_app_comm.
  - intros x ->%list_elem_of_singleton. eapply (off_stable w1 (rnext w1 m)); [done|by eapply off_stable].
  - simpl. destruct Hi1 as (M & _ & Hi1). rewrite Z.add_simpl_r, wrap64_small; [done|apply (ri_len _ _ _ Hi1)].
Qed.

(** What a removal has established when it returns. *)
Definition rtook (s : nat) (t : bytes) (b : bool) (ℓ : rloc) (w : rworld) : Prop :=
  rdebt ℓ = 0%nat ∧ rowe ℓ = [] ∧ rmid ℓ = None ∧
  if b then ∃ u M, reff ℓ = Some u ∧ rhist w !! u = Some M ∧ is_Some (M !! t)
  else reff ℓ = None ∧ ranswered s w t None.

Lemma rwp_bottom s e fuel preds succs tries :
  e ∈ es → safe (e_addr e) → key = Some (e_key e) → (pot_bound + length es + 3 ≤ fuel)%nat → (0 < length succs)%nat →
  ∀ w P c, winv w → (s < length (rhist w))%nat → uppers w e 0 → skips (rm w) 0 (e_addr e) c →
  (held P w 0 (e_addr e) c ∧ (P < tries)%nat) ∨ (marked (rm w) (e_addr e) 0 ∧ (0 < tries)%nat) →
  rwp (mark_bottom fuel tries sl (e_key e) (e_addr e) c preds succs) (rtook s (e_key e))
    (mkRloc None 0 [] (Some (e_addr e))) w.
Proof.
  intros He Hsafe Hkey Hf Hlen. pose proof (entry_level e 0 He ltac:(lia)) as Hlv.
  induction tries as [|tries IH]; intros w P c Hi Hs Hu Hsk Hst; [lia|].
  cbn [mark_bottom link_cas atom pbind].
  eapply (rwp_mark_bottom _ _ _ _ P); [done|done|done|done|done|done|destruct Hst as [[? _]|[? _]]; auto|done|..].
  - intros w2 Hi2 He2 Hno.
    apply (rwp_get_link_mid _ _ _ _ (pot (rm w2)) _ _ (λ b, if b then None else Some (e_addr e)));
      [lia|done|done|lia|..].
    { intros w3 b x Hb [= <-]. destruct b; [right; by apply Hb|by left]. }
    intros w3 c' b Hi3 He3 Hsee Hb. pose proof (revolves_trans _ _ _ He2 He3) as He03.
    pose proof (hist_grows _ _ _ He03 Hs) as Hs3. destruct b.
    + destruct Hi3 as (M & HM & Hi3). split_and!; [done..|].
      rewrite <- (entry_gone w3 M (rgone w3) e Hi3 He (proj1 Hb eq_refl)). by apply ranswered_now.
    + destruct (sees_entry _ _ _ _ _ _ He Hsee) as [Hsk3 Hh3].
      eapply (IH w3 (pot (rm w2))); [done|done|by eapply (uppers_stable w)|done|left; split; [done|]].
      assert (Hun : ¬ marked (rm w3) (e_addr e) 0) by (intros Hm%Hb; done).
      destruct Hno as [Hno|Hm]; [|destruct Hun; by apply (marked_stable w2)].
      destruct Hst as [[_ ?]|[Hm _]]; [lia|]. destruct Hun. by apply (marked_stable w).
  - intros w2 t M Hi2 He2 Ht HM Hm2.
    apply (rwp_get_link _ _ _ _ (pot (rm w2))); [lia|done|done|lia|]. intros w3 c' b Hi3 He3 _ _.
    apply rwp_bind. pose proof (pot_le (rm w3)). apply (rwp_find _ _ _ w2); [lia|done|done|lia|done|].
    intros w4 _ _ _ _ _ Hi4 He4 _ _ _ Hsw. apply rwp_len_sub. intros w5 Hi5 He5.
    apply (rwp_retire _ _ _ _ []).
    { eapply off_stable; [exact He5|]. destruct Hi4 as (M4 & _ & Hi4). eapply (swept_off w2); [done|done| |done].
      intros l Hl. destruct l as [|l]; [done|]. apply (uppers_stable w w2 e 0 He2 Hu). lia. }
    intros w6 Hi6 He6. split_and!; [done..|]. exists t, M. split_and!; [done| |done].
    eapply prefix_lookup_Some; [exact Ht|]. do 3 (etrans; [eapply v_hist; eassumption|]). by apply v_hist.
Qed.

(** A removal never faults; it takes the node out, or the key was absent at some
    instant of its own. *)
Lemma rwp_remove s t fuel w :
  key = Some t → (pot_bound + length es + 3 ≤ fuel)%nat → winv w → (s < length (rhist w))%nat →
  rwp (remove fuel sl t) (rtook s t) (mkRloc None 0 [] None) w.
Proof.
  intros Hkey Hf Hi Hs. unfold remove, find. apply rwp_bind. pose proof (pot_le (rm w)).
  apply (rwp_find _ _ _ w); [lia|done|apply revolves_refl|lia
    |unfold null_array; rewrite length_replicate; unfold MAX_HEIGHT; lia|].
  intros w1 preds succs q c bc Hi1 He1 Hc Ha Kc _. pose proof (hist_grows _ _ _ He1 Hs) as Hs1.
  destruct (key_eq bc t) eqn:Hk; cbn [negb].
  2:{ destruct Hi1 as (M & HM & Hi1). split_and!; [done..|].
      rewrite <- (around_absent _ _ _ _ _ _ _ Hi1 Ha Kc Hk). by apply ranswered_now. }
  destruct (around_found _ _ _ _ _ Ha Kc Hk) as (e & He & <- & <-).
  assert (Hsafe : safe (e_addr e)) by (apply (reach_safe 0); [lia|apply Ha]).
  destruct (entry_node e He) as (Hn & _ & Htop & _). unfold index. rewrite Hc. cbn [pbind atom].
  apply rwp_read_mid; [done|]. intros w2 Hi2 He2 _. pose proof Hi2 as (M2 & _ & Hr2).
  exists (e_top e), (Some (e_addr e)). split_and!; [simpl; by rewrite (ri_nodes _ _ _ Hr2), Hn|done|].
  pose proof (winv_next _ Hi2) as Hi2'. pose proof (hist_grows _ _ _ (revolves_next _ _ He2) Hs1) as Hs2.
  apply rwp_bind. apply rwp_mark_uppers; [done|lia|done|done|done|done|intros j Hj; lia|].
  intros w3 Hi3 He3 Hu3. apply (rwp_get_link _ _ _ _ pot_bound); [lia|apply entry_level; [done|lia]|done|apply pot_le|].
  intros w4 c' b Hi4 He4 Hsee _. destruct (sees_entry _ _ _ _ _ _ He Hsee) as [Hsk4 Hb].
  apply lookup_lt_Some in Hc.
  eapply (rwp_bottom s e fuel _ _ fuel He Hsafe Hkey Hf); [lia|done| |by eapply (uppers_stable w3)|done|].
  - by do 2 (eapply hist_grows; [done|]).
  - destruct b; [right; split; [done|lia]|left; split; [exact Hb|lia]].
Qed.

End rem.
