(* ===== verification/SkipListRemLin.v ===== *)
(** * SkipListRemLin: concurrent removals and lookups are linearizable

    Any number of threads call [remove] and [get] of one skiplist
    ([SkipListPool]), and their atomic accesses interleave in any order. No
    schedule faults or starves, of the threads that remove one key exactly one
    succeeds, and every node that was taken out is handed to the reclamation
    domain exactly once. Nothing is freed here; [SkipListReclaim] has the
    theorem in which the domain takes part. *)

From Stdlib Require Import Sorted.
From S2P Require Import Prelude Backoff Index SkipList SkipListProof SkipListRep SkipListRemove SkipListSpec.
From S2P Require Import SkipListConc SkipListConcIns SkipListPool SkipListLin SkipListConcRem.
Local Open Scope Z_scope.
Local Open Scope zkv_scope.

Section remlin.
Context (sl : SkipList) (tl : Z) (m0 : Mem) (es G : list entry) (gv : list Z).
Context (Hrep : rep sl tl m0 es G gv).
Context (fuel : nat) (Hfuel : (pot_bound sl es + length es + 3 ≤ fuel)%nat).

Abbreviation wpr := (rwp sl tl m0 es).
Abbreviation evo := (revolves sl tl es).

Definition rkey (c : call) : option bytes :=
  match c with
  | CRemove k => Some k
  | _ => None
  end.

(** What a call has established when it returns. *)
Definition rpost (c : call) (s : nat) (o : out) (ℓ : rloc) (w : rworld) : Prop :=
  rdebt ℓ = 0%nat ∧ rowe ℓ = [] ∧ rmid ℓ = None ∧
  match c with
  | CRemove k => ∃ b, o = OBool b ∧ rtook s k b ℓ w
  | CGet k => reff ℓ = None ∧ ∃ r, o = OBytes r ∧ ranswered s w k r
  | CInsert _ _ => False
  end.

(** A running call began in a world [w0] that has evolved into this one. *)
Definition rthread_ok (w : rworld) (os : list oprec) (lin : gmap nat nat) (wss : list rworld)
    (th : option (nat * prog out)) (ℓ : rloc) : Prop :=
  match th with
  | None => rdebt ℓ = 0%nat ∧ rowe ℓ = [] ∧ rmid ℓ = None
  | Some (id, p) => ∃ c s, os !! id = Some (mkOp c s None) ∧ lin !! id = reff ℓ ∧
      (s < length (rhist w))%nat ∧ ¬ is_ret p ∧
      ∃ w0, wss !! id = Some w0 ∧ evo w0 w ∧ wpr (rkey c) w0 p (rpost c s) ℓ w
  end.

(** The length lags behind by the debts; what has been taken out is retired, and
    then off the list, or owed by a thread; a node that is marked above the
    bottom only is being marked by a thread. [wss] has the worlds in which the
    calls began. *)
Record rpinv (M0 : store_map) (σ : Pool) (w : rworld) (ls : list rloc) (lin : gmap nat nat)
    (wss : list rworld) : Prop := mkRpinv {
  z_mem : rm w = pmem σ;
  z_inv : winv sl tl m0 es w;
  z_locs : length ls = length (threads σ);
  z_threads : ∀ i th ℓ, threads σ !! i = Some th → ls !! i = Some ℓ → rthread_ok w (ops σ) lin wss th ℓ;
  z_starts : length wss = length (ops σ);
  z_ids : ∀ i j id p q, threads σ !! i = Some (Some (id, p)) →
    threads σ !! j = Some (Some (id, q)) → i = j;
  z_len : ∀ M, last (rhist w) = Some M →
    len (rm w) = wrap64 (Z.of_nat (size M) + sumZ (λ ℓ, Z.of_nat (rdebt ℓ)) ls);
  z_ret : ∃ rs, retired (rm w) = retired m0 ++ (retire_of <$> rs) ∧
    rs ++ concat (rowe <$> ls) ≡ₚ rgone w ∧ ∀ a, a ∈ rs → off sl es (rm w) a;
  z_mid : ∀ e l, e ∈ es → (l ≤ e_top e)%nat → marked (rm w) (e_addr e) l → marked (rm w) (e_addr e) 0 ∨
    ∃ i ℓ, ls !! i = Some ℓ ∧ rmid ℓ = Some (e_addr e);
  z_lin : linearized M0 σ (rhist w) lin
}.

Lemma rwp_rely {A} key ws (p : prog A) Q ℓ w w' :
  ¬ is_ret p → evo w w' → wpr key ws p Q ℓ w → wpr key ws p Q ℓ w'.
Proof.
  intros Hp He. destruct p as [a|f|R a k]; [by destruct Hp; simpl|done|].
  intros [Ht Hw]. split; [done|]. intros w1 Hi He1. apply Hw; [done|]. by eapply revolves_trans.
Qed.

Lemma rthread_other w w' os os' lin lin' wss wss' th ℓ :
  rthread_ok w os lin wss th ℓ → evo w w' → wss `prefix_of` wss' →
  (∀ id p, th = Some (id, p) → os' !! id = os !! id ∧ lin' !! id = lin !! id) →
  rthread_ok w' os' lin' wss' th ℓ.
Proof.
  intros Ht He Hpre Hid. destruct th as [[id p]|]; [|done].
  destruct Ht as (c & s & Ho & Hl & Hs & Hp & w0 & H0 & He0 & Hw). destruct (Hid id p eq_refl) as [Eo El].
  exists c, s. rewrite Eo, El. split_and!; [done..|by eapply hist_grows|done|]. exists w0.
  split_and!; [by eapply prefix_lookup_Some|by eapply revolves_trans|by eapply rwp_rely].
Qed.

(** What the threads owe, when one of them changes. *)
Lemma owed_insert (ls : list rloc) i ℓ ℓ' (rs gn : list Z) :
  ls !! i = Some ℓ → rs ++ rowe ℓ' ≡ₚ rowe ℓ ++ gn →
  rs ++ concat (rowe <$> <[i := ℓ']> ls) ≡ₚ concat (rowe <$> ls) ++ gn.
Proof.
  intros Hi Hp. rewrite insert_take_drop by (by eapply lookup_lt_Some).
  rewrite <- (take_drop_middle ls i ℓ Hi) at 3.
  rewrite !fmap_app, !fmap_cons, !concat_app, !concat_cons.
  rewrite <- !app_assoc. rewrite (Permutation_app_swap_app rs). f_equiv.
  rewrite app_assoc, Hp, <- app_assoc. f_equiv. apply Permutation_app_comm.
Qed.

(** Thread [i] moves: its ghost state and the world change together. *)
Lemma rpinv_move M0 σ w ls lin wss i ℓ th' ℓ' w' os' lin' wss' M M' rs gn :
  rpinv M0 σ w ls lin wss → ls !! i = Some ℓ → winv sl tl m0 es w' → evo w w' →
  retired (rm w') = retired (rm w) ++ (retire_of <$> rs) → rgone w' = rgone w ++ gn →
  rs ++ rowe ℓ' ≡ₚ rowe ℓ ++ gn → (∀ a, a ∈ rs → off sl es (rm w') a) → mids es ℓ (rm w) ℓ' (rm w') →
  last (rhist w) = Some M → last (rhist w') = Some M' →
  len (rm w') = wrap64 (len (rm w) + (Z.of_nat (size M') + Z.of_nat (rdebt ℓ'))
    - (Z.of_nat (size M) + Z.of_nat (rdebt ℓ))) →
  rthread_ok w' os' lin' wss' th' ℓ' → wss `prefix_of` wss' → length wss' = length os' →
  (∀ id p j q, th' = Some (id, p) → j ≠ i → threads σ !! j ≠ Some (Some (id, q))) →
  (∀ j id p, j ≠ i → threads σ !! j = Some (Some (id, p)) →
    os' !! id = ops σ !! id ∧ lin' !! id = lin !! id) →
  linearized M0 (mkPool (<[i := th']> (threads σ)) os' (S (time σ)) (rm w')) (rhist w') lin' →
  rpinv M0 (mkPool (<[i := th']> (threads σ)) os' (S (time σ)) (rm w')) w' (<[i := ℓ']> ls) lin' wss'.
Proof.
  intros [H1 H2 H3 H4 Hst H5 H6 H7 Hz H8] Hl Hi' He Hret Hgone Howe Hoff Hmid HM HM' Hlen Hth Hpre Hwl Hids Hops Hlin.
  split; simpl; [done|done|by rewrite !length_insert|..].
  - intros j th ℓj Hj Hlj.
    apply list_lookup_insert_Some in Hj as [(<- & <- & _)|[Hj Ht]].
    + rewrite list_lookup_insert_eq in Hlj by (by eapply lookup_lt_Some). by simplify_eq.
    + rewrite list_lookup_insert_ne in Hlj by done.
      eapply rthread_other; [by eapply H4|done|done|]. intros id p ->. by eapply Hops.
  - done.
  - intros j1 j2 id p q Hj1 Hj2.
    apply list_lookup_insert_Some in Hj1 as [(<- & -> & _)|[Hj1 Ht1]];
      apply list_lookup_insert_Some in Hj2 as [(<- & E & _)|[Hj2 Ht2]]; [done| | |by eapply H5].
    + exfalso. by eapply (Hids id p j2 q).
    + exfalso. subst. by eapply (Hids id q j1 p).
  - intros M1 HM1. rewrite HM' in HM1. injection HM1 as <-.
    rewrite (sumZ_insert _ _ _ ℓ) by done. rewrite Hlen, (H6 M HM). unfold wrap64.
    rewrite <- Z.add_sub_assoc, Zplus_mod_idemp_l. f_equal. lia.
  - destruct H7 as (rs0 & Hr & Hp & Ho). exists (rs0 ++ rs). rewrite Hret, Hgone, Hr, fmap_app, <- app_assoc.
    split_and!; [done| |].
    + rewrite <- Hp, <- !app_assoc. f_equiv. by apply (owed_insert _ _ ℓ).
    + intros a [Ha|Ha]%elem_of_app; [|by apply Hoff]. eapply off_stable; [exact He|by apply Ho].
  - intros e l He' Hle Hm. assert (Hli : (i < length ls)%nat) by (by eapply lookup_lt_Some).
    assert (Hself : rmid ℓ' = Some (e_addr e) → ∃ j ℓj, <[i := ℓ']> ls !! j = Some ℓj ∧ rmid ℓj = Some (e_addr e)).
    { intros Hr. exists i, ℓ'. by rewrite list_lookup_insert_eq. }
    destruct (proj1 Hmid e l He' Hle Hm) as [Hm0|[?|?]]; [|by left|right; auto].
    destruct (Hz e l He' Hle Hm0) as [Hm1|(j & ℓj & Hj & Hr)]; [left; by eapply marked_stable|].
    destruct (decide (j = i)) as [->|Hne].
    + rewrite Hl in Hj. injection Hj as <-. destruct (proj2 Hmid _ Hr); [right; auto|by left].
    + right. exists j, ℓj. by rewrite list_lookup_insert_ne.
  - done.
Qed.

(** The world when time passes and nothing happens. *)
Abbreviation later w := (rnext w (rm w)).

Lemma rpinv_idle M0 σ w ls lin wss :
  rpinv M0 σ w ls lin wss →
  rpinv M0 (mkPool (threads σ) (ops σ) (S (time σ)) (pmem σ)) (later w) ls lin wss.
Proof.
  intros [H1 H2 H3 H4 Hst H5 H6 H7 Hz H8]. pose proof H2 as (M & HM & _). split; simpl; try done.
  - by apply winv_next.
  - intros i th ℓ Hth Hl. eapply rthread_other; [by eapply H4|by apply same_revolves|done|done].
  - intros M'. rewrite HM. simpl. rewrite last_snoc. intros [= <-]. by apply H6.
  - rewrite HM. simpl. destruct σ. by eapply lin_stutter.
Qed.

Lemma rwp_code c s w : (∀ k v, c ≠ CInsert k v) → winv sl tl m0 es w → (s < length (rhist w))%nat →
  wpr (rkey c) w (code fuel sl c) (rpost c s) (mkRloc None 0 [] None) w.
Proof.
  intros Hc Hi Hs. destruct c as [k v|k|k]; [by destruct (Hc k v)|..]; unfold code; apply rwp_bind.
  - eapply rwp_mono; [|eapply (rwp_get sl tl m0 es G gv Hrep None w Hi s); [lia|done..]].
    intros r ℓ w' [-> Ha]. split_and!; eauto.
  - eapply rwp_mono; [|by eapply (rwp_remove sl tl m0 es G gv Hrep (Some k) w Hi s k)].
    intros b ℓ w' Ht. pose proof Ht as (? & ? & ? & _). split_and!; eauto.
Qed.

Lemma rpinv_invoke M0 σ w ls lin wss i c :
  rpinv M0 σ w ls lin wss → threads σ !! i = Some None → (∀ k v, c ≠ CInsert k v) →
  rpinv M0 (mkPool (<[i := Some (length (ops σ), code fuel sl c)]> (threads σ))
      (ops σ ++ [mkOp c (time σ) None]) (S (time σ)) (pmem σ))
    (later w) (<[i := mkRloc None 0 [] None]> ls) lin (wss ++ [later w]).
Proof.
  intros Hq Hi Hc. pose proof (z_inv _ _ _ _ _ _ Hq) as Hw. pose proof Hw as (M & HM & Hr).
  destruct (lookup_lt_is_Some_2 ls i) as [ℓ Hl].
  { rewrite (z_locs _ _ _ _ _ _ Hq). by eapply lookup_lt_Some. }
  destruct (z_threads _ _ _ _ _ _ Hq _ _ _ Hi Hl) as (Hd & Ho0 & Hm0).
  pose proof (z_lin _ _ _ _ _ _ Hq) as Hlin.
  assert (Hfresh : lin !! length (ops σ) = None).
  { destruct (lin !! length (ops σ)) as [t|] eqn:E; [|done].
    destruct (l_calls _ _ _ _ Hlin _ _ E) as (? & Ho%lookup_lt_Some & _). lia. }
  assert (Hids : ∀ j id p, threads σ !! j = Some (Some (id, p)) → (id < length (ops σ))%nat).
  { intros j id p Hj. destruct (lookup_lt_is_Some_2 ls j) as [ℓj Hlj].
    { rewrite (z_locs _ _ _ _ _ _ Hq). by eapply lookup_lt_Some. }
    destruct (z_threads _ _ _ _ _ _ Hq _ _ _ Hj Hlj) as (c' & s & Ho & _). by eapply lookup_lt_Some. }
  assert (Hlen : length (rhist (later w)) = S (S (time σ))).
  { simpl. rewrite length_app, HM, (l_length _ _ _ _ Hlin). simpl. lia. }
  rewrite <- (z_mem _ _ _ _ _ _ Hq). change (rm w) with (rm (later w)) at 1.
  pose proof (z_starts _ _ _ _ _ _ Hq) as Hst.
  eapply (rpinv_move _ σ w _ _ wss i ℓ _ _ _ _ _ (wss ++ [later w]) M M [] []); [exact Hq|exact Hl|by apply winv_next|by apply same_revolves|..].
  - by rewrite app_nil_r.
  - by rewrite app_nil_r.
  - by rewrite Ho0.
  - by intros a ?%elem_of_nil.
  - split; [intros e l _ _ Hm; by left|]. intros a Ha. congruence.
  - done.
  - simpl. rewrite HM. simpl. apply last_snoc.
  - simpl. rewrite Hd, Z.add_simpl_r. symmetry. apply wrap64_small, (ri_len _ _ _ _ _ _ _ Hr).
  - exists c, (time σ). split_and!; [by apply list_lookup_middle|by rewrite Hfresh|lia|apply code_busy|].
    exists (later w). split_and!; [by apply list_lookup_middle|apply revolves_refl|].
    apply rwp_code; [done|by apply winv_next|lia].
  - by eexists.
  - rewrite !length_app, Hst. done.
  - intros id p j q [= <- _] Hj Ht%Hids. lia.
  - intros j id p Hj Ht%Hids. split; [|done]. by apply lookup_app_l.
  - simpl. rewrite HM. simpl. apply lin_invoke with (ths := threads σ) (m := pmem σ).
    destruct σ. by eapply lin_stutter.
Qed.


(** What a step of call [id] does to the record of effects. *)
Lemma rstep_effect M0 σ w lin id c s ℓ ℓ' w' :
  linearized M0 σ (rhist w) lin → ops σ !! id = Some (mkOp c s None) → lin !! id = reff ℓ →
  (s < length (rhist w))%nat → rguar sl tl es (rkey c) ℓ w ℓ' w' →
  ∃ lin', lin' !! id = reff ℓ' ∧ (∀ id', id' ≠ id → lin' !! id' = lin !! id') ∧
    (lin' = lin ∨ lin' = <[id := time σ]> lin) ∧
    ∀ ths m, linearized M0 (mkPool ths (ops σ) (S (time σ)) m) (rhist w') lin'.
Proof.
  intros Hlin Ho Hl Hs Hg. destruct (rg_hist _ _ _ _ _ _ _ _ Hg) as (M & M' & HM & -> & _ & Hcase).
  pose proof (l_length _ _ _ _ Hlin) as Hlen. destruct σ as [ths0 os n m]. simpl in *.
  destruct Hcase as [[-> He]|(k & Hk & He & He' & _ & ->)].
  - exists lin. split_and!; [congruence|done|by left|]. intros ths m'. by eapply lin_stutter.
  - destruct c as [k' v'|k'|k']; [done..|]. injection Hk as ->.
    exists (<[id := n]> lin). rewrite lookup_insert_eq, He', Hlen. split_and!.
    + f_equal. lia.
    + intros id' Hne. by rewrite lookup_insert_ne.
    + by right.
    + intros ths m'. apply (lin_effect M0 ths0 _ _ m _ _ M ths m' id (CRemove k) s); [done..|congruence|lia].
Qed.

(** A call that returns satisfies its part of the specification. *)
Lemma rpost_linear M0 ths os n m h lin id c s o ℓ w :
  linearized M0 (mkPool ths os n m) h lin → os !! id = Some (mkOp c s None) →
  h = rhist w → lin !! id = reff ℓ → rpost c s o ℓ w → (0 < n)%nat →
  op_linear h lin id (mkOp c s (Some (Nat.pred n, o))).
Proof.
  intros Hlin Ho -> Hl (_ & _ & _ & Hp) Hn. destruct (l_ops _ _ _ _ Hlin id _ Ho) as [H1 _].
  pose proof (l_length _ _ _ _ Hlin) as Hlen. simpl in *. split; [done|]. intros e o' [= <- <-]. rewrite Hl.
  destruct c as [k v|k|k]; simpl in *; [done|..].
  - destruct Hp as (E & r & -> & u & M & Hu & HM & ->). rewrite E. exists u, M. split_and!; try done.
    apply lookup_lt_Some in HM. lia.
  - destruct Hp as (b & -> & _ & _ & _ & Hb). destruct b.
    + destruct Hb as (u & M & E & HM & Hk). rewrite E in *. destruct (H1 u Hl) as (M' & Hu & HM' & HS%lookup_lt_Some).
      exists u, M. split_and!; [done|done| |done|lia]. by rewrite bool_decide_eq_true_2.
    + destruct Hb as (E & u & M & Hu & HM & Hk). rewrite E. exists u, M. split_and!; [done|done| | | |done].
      * rewrite bool_decide_eq_false_2; [done|]. rewrite <- Hk. by intros [? ?].
      * apply lookup_lt_Some in HM. lia.
      * by apply delete_id.
Qed.

Lemma rpinv_step M0 σ w ls lin wss i id R (a : act R) k :
  rpinv M0 σ w ls lin wss → threads σ !! i = Some (Some (id, Do a k)) →
  ∃ σ' w' ls' lin', pool_event fuel sl (Step i) σ = Ok σ' ∧ rpinv M0 σ' w' ls' lin' wss ∧
    evo w w' ∧ marks (Step i) σ lin lin'.
Proof.
  intros Hq Hi. destruct (lookup_lt_is_Some_2 ls i) as [ℓ Hl].
  { rewrite (z_locs _ _ _ _ _ _ Hq). by eapply lookup_lt_Some. }
  destruct (z_threads _ _ _ _ _ _ Hq _ _ _ Hi Hl) as (c & s & Ho & Hlin & Hs & _ & w0 & Hw0 & He0 & _ & Hw).
  destruct (Hw w (z_inv _ _ _ _ _ _ Hq) (revolves_refl _ _ _ _) He0) as (r & ℓ' & w' & Hx & Hi' & Hg & Hk).
  destruct (rstep_effect M0 σ w lin id c s ℓ ℓ' w' (z_lin _ _ _ _ _ _ Hq) Ho Hlin Hs Hg)
    as (lin' & Hid & Hother & Hm & Hlin').
  assert (Hmk : marks (Step i) σ lin lin').
  { apply lookup_lt_Some in Hi as Hlt. intros id' t. destruct Hm as [->| ->]; [by left|].
    intros [[_ <-]|[_ ?]]%lookup_insert_Some; [right; eauto|by left]. }
  assert (Hids : ∀ j id' p, j ≠ i → threads σ !! j = Some (Some (id', p)) → id' ≠ id).
  { intros j id' p Hj Ht ->. apply Hj. by eapply (z_ids _ _ _ _ _ _ Hq j i). }
  assert (Hmove : ∀ th' os', rthread_ok w' os' lin' wss th' ℓ' → length wss = length os' →
    (∀ id' p, th' = Some (id', p) → id' = id) →
    (∀ id', id' ≠ id → os' !! id' = ops σ !! id') →
    linearized M0 (mkPool (<[i := th']> (threads σ)) os' (S (time σ)) (rm w')) (rhist w') lin' →
    rpinv M0 (mkPool (<[i := th']> (threads σ)) os' (S (time σ)) (rm w')) w' (<[i := ℓ']> ls) lin' wss).
  { intros th' os' Hth Hwl Hsame Hos Hl'. destruct (rg_ret _ _ _ _ _ _ _ _ Hg) as (rs & gn & Hrs & Hgn & Howe & Hoff).
    destruct (rg_hist _ _ _ _ _ _ _ _ Hg) as (M & M' & HM & Hh & Hlen & _).
    eapply (rpinv_move _ σ w _ _ wss i ℓ _ _ _ _ _ wss M M' rs gn);
      [exact Hq|exact Hl|done|apply Hg|done|done|done|done|apply Hg|done|by rewrite Hh, last_snoc|done|done|done|done| | |done].
    - intros id' p j q -> Hj Ht. rewrite (Hsame _ _ eq_refl) in Ht. by eapply Hids.
    - intros j id' p Hj Ht. pose proof (Hids _ _ _ Hj Ht). split; [by apply Hos|by apply Hother]. }
  cbn [pool_event]. rewrite Hi, <- (z_mem _ _ _ _ _ _ Hq), Hx. cbn [rbind].
  destruct (k r) as [o|f|R' a' k'] eqn:Ekr; [|done|].
  - eexists _, w', (<[i := ℓ']> ls), lin'. split; [reflexivity|]. split; [|split; [apply Hg|done]]. apply Hmove.
    + destruct Hk as (? & ? & ? & _). done.
    + rewrite length_alter. apply (z_starts _ _ _ _ _ _ Hq).
    + done.
    + intros id' Hne. by rewrite list_lookup_alter_ne.
    + eapply (lin_return _ []); [apply (Hlin' [] (rm w'))|exact Ho|].
      eapply (rpost_linear M0 [] _ (S (time σ)) (rm w')); [apply Hlin'|exact Ho|done|done|exact Hk|lia].
  - eexists _, w', (<[i := ℓ']> ls), lin'. split; [reflexivity|]. split; [|split; [apply Hg|done]]. apply Hmove.
    + exists c, s. split_and!; [done|done| |by intros []|].
      { exact (hist_grows _ _ _ _ _ _ (rg_ev _ _ _ _ _ _ _ _ Hg) Hs). }
      exists w0. split_and!; [done|eapply revolves_trans; [exact He0|apply Hg]|done].
    + apply (z_starts _ _ _ _ _ _ Hq).
    + by intros id' p [= -> _].
    + done.
    + apply Hlin'.
Qed.

(** A call that begins does so in the world after the event. *)
Lemma rpinv_event M0 σ w ls lin wss e :
  rpinv M0 σ w ls lin wss → is_insert e = 0%nat →
  ∃ σ' w' ls' lin' wss', pool_event fuel sl e σ = Ok σ' ∧ rpinv M0 σ' w' ls' lin' wss' ∧
    evo w w' ∧ marks e σ lin lin' ∧ (wss' = wss ∨ wss' = wss ++ [w']).
Proof.
  intros Hq He.
  assert (Hidle : ∃ σ' w' ls' lin' wss', Ok (mkPool (threads σ) (ops σ) (S (time σ)) (pmem σ)) = Ok σ' ∧
    rpinv M0 σ' w' ls' lin' wss' ∧ evo w w' ∧ marks e σ lin lin' ∧ (wss' = wss ∨ wss' = wss ++ [w'])).
  { eexists _, _, ls, lin, wss. split; [reflexivity|].
    split_and!; [by apply rpinv_idle|by apply same_revolves|apply marks_refl|by left]. }
  destruct e as [i c|i].
  - cbn [pool_event]. destruct (threads σ !! i) as [[x|]|] eqn:Hi; [done| |done].
    eexists _, _, _, _, _. split; [reflexivity|].
    split_and!; [|by apply same_revolves|apply marks_refl|by right]. apply rpinv_invoke; [done|done|]. by intros k v ->.
  - destruct (threads σ !! i) as [[[id p]|]|] eqn:Hi; [|cbn [pool_event]; by rewrite Hi..].
    destruct p as [o|f|R a k]; [exfalso|exfalso|].
    3:{ destruct (rpinv_step _ _ _ _ _ _ _ _ _ _ _ Hq Hi) as (σ' & w' & ls' & lin' & Hx & Hq' & He' & Hm).
        exists σ', w', ls', lin', wss. split_and!; [done..|by left]. }
    all: destruct (lookup_lt_is_Some_2 ls i) as [ℓ Hl];
      [rewrite (z_locs _ _ _ _ _ _ Hq); by eapply lookup_lt_Some|].
    all: destruct (z_threads _ _ _ _ _ _ Hq _ _ _ Hi Hl) as (c & s & _ & _ & _ & Hp & w0 & _ & _ & Hw); solve [done|by apply Hp].
Qed.

Lemma rpinv_exec evs : ∀ M0 σ w ls lin wss,
  inserts evs = 0%nat → rpinv M0 σ w ls lin wss →
  ∃ σ' w' ls' lin' wss', pool_exec fuel sl evs σ = Ok σ' ∧ rpinv M0 σ' w' ls' lin' wss' ∧
    effects_at evs σ lin lin'.
Proof.
  induction evs as [|e evs IH]; intros M0 σ w ls lin wss Hno Hq.
  { exists σ, w, ls, lin, wss. split_and!; [done|done|]. intros id t Ht. by left. }
  unfold inserts in Hno. simpl in Hno.
  destruct (rpinv_event M0 σ w ls lin wss e Hq) as (σ1 & w1 & ls1 & lin1 & wss1 & Hx & Hq1 & _ & Hm & _); [lia|].
  cbn [pool_exec]. rewrite Hx. cbn [rbind].
  destruct (IH M0 σ1 w1 ls1 lin1 wss1) as (σ' & w' & ls' & lin' & wss' & Hx' & Hq' & Ha);
    [unfold inserts; lia|done|].
  exists σ', w', ls', lin', wss'. split_and!; [done|done|]. by eapply effects_cons.
Qed.

End remlin.

(** ** The start *)

(** On a quiescent list nothing is marked, and every node is met. *)
Lemma quiet_link sl tl m es G gv l A p c D :
  rep sl tl m es G gv → (l ≤ max_level sl)%nat → level sl tl es l = A ++ p :: c :: D →
  links m !! (p, l) = Some (Link.pack c false) ∧ skips sl tl es m l p c ∧ cut sl tl es m l p c.
Proof.
  intros Hrep Hl E. pose proof (world_of_inv _ _ _ _ _ _ Hrep) as Hi.
  split_and!; [exact (full_link sl tl _ l A p c D Hi Hl E)|exists A, [], D; split; [exact E|set_solver]|].
  intros x Hx Ha. exfalso. pose proof (level_nodup sl tl m es G gv Hrep l) as Hnd. rewrite E in Hnd, Ha.
  apply NoDup_app in Hnd as (_ & Hd & Hnd). apply NoDup_cons in Hnd as [Hp _].
  rewrite (ahead_app A p) in Ha by (intros H; by eapply Hd; [exact H|set_solver]).
  replace (A ++ p :: c :: D) with ((A ++ [p]) ++ c :: D) in Ha by (by rewrite <- app_assoc).
  rewrite (ahead_app (A ++ [p]) c) in Ha; [simpl in Ha; lia|].
  intros [H|H%list_elem_of_singleton]%elem_of_app; [by eapply Hd; [exact H|set_solver]|set_solver].
Qed.

Lemma level_next sl tl es l p : p ∈ head sl :: addrs l es → ∃ A c D, level sl tl es l = A ++ p :: c :: D.
Proof. apply (full_next sl tl (world_of (empty_mem 0) es)). Qed.

Lemma quiet_reach sl tl m es G gv l A : rep sl tl m es G gv → (l ≤ max_level sl)%nat →
  ∀ p D, level sl tl es l = A ++ p :: D → reach sl es m l p.
Proof.
  intros Hrep Hl. induction A as [|q A IH] using rev_ind; intros p D E.
  - injection E as <- _. constructor.
  - rewrite <- app_assoc in E. simpl in E. destruct (quiet_link _ _ _ _ _ _ _ _ _ _ _ Hrep Hl E) as (Hlk & Hs & _).
    destruct (skips_elem sl tl m es G gv Hrep _ _ _ _ Hs) as [Hq _].
    pose proof (reach_next sl es m l q _ (IH _ _ E) Hq Hlk) as R.
    by rewrite ptr_of_pack in R by (by eapply (skips_tag sl tl m es G gv)).
Qed.

Lemma quiet_unmarked sl tl m es G gv l p :
  rep sl tl m es G gv → (l ≤ max_level sl)%nat → p ∈ head sl :: addrs l es → ¬ marked m p l.
Proof.
  intros Hrep Hl Hp (v & Hv & Hm). destruct (level_next sl tl es l p Hp) as (A & c & D & E).
  destruct (quiet_link _ _ _ _ _ _ _ _ _ _ _ Hrep Hl E) as (Hc & Hs & _).
  rewrite Hc in Hv. injection Hv as <-.
  by rewrite mark_of_pack in Hm by (by eapply (skips_tag sl tl m es G gv)).
Qed.

Lemma rinv_start sl tl m es G gv : rep sl tl m es G gv → rinv sl tl m es m (abs es) [].
Proof.
  intros Hrep. pose proof Hrep as [Hmh Hhd Htail Htl Hent Hnd Hvals Hgv Hret Hheap Hsort Hlen Hch Hln Hlv].
  assert (Hun : ∀ e l, e ∈ es → (l ≤ e_top e)%nat → ¬ marked m (e_addr e) l).
  { intros e l He Hl. destruct (entry_node _ _ _ _ _ _ Hrep e He) as (_ & _ & Ht & _).
    eapply quiet_unmarked; [done|lia|]. apply list_elem_of_further. by apply level_entry. }
  split; try done.
  - rewrite Hlen. apply wrap64_range.
  - intros l p Hl Hp. destruct (level_next sl tl es l p Hp) as (A & c & D & E).
    exists c, false. by eapply quiet_link.
  - intros l p Hl Hp _. destruct (level_next sl tl es l p Hp) as (A & c & D & E). by eapply quiet_reach.
  - intros l Hl. eapply quiet_unmarked; [done|done|]. apply list_elem_of_here.
  - intros e l He Hl Hm. destruct (Hun e l He); [lia|done].
  - intros k bs. rewrite abs_lookup by done. split; intros (e & He & Hk & Hb).
    + exists e. split_and!; [done..|]. apply Hun; [done|lia].
    + exists e. naive_solver.
  - constructor.
  - intros a. split; [by intros ?%elem_of_nil|]. intros (e & He & <- & Hm). by destruct (Hun e 0%nat He); [lia|].
Qed.

Lemma rpinv_start sl tl m es G gv n :
  rep sl tl m es G gv →
  rpinv sl tl m es (abs es) (pool_start n m) (mkRW m [abs es] []) (replicate n (mkRloc None 0 [] None)) ∅ [].
Proof.
  intros Hrep. split; simpl.
  - done.
  - exists (abs es). split; [done|]. by eapply rinv_start.
  - by rewrite !length_replicate.
  - intros i th ℓ [-> _]%lookup_replicate [-> _]%lookup_replicate. done.
  - done.
  - intros i j id p q [? _]%lookup_replicate. done.
  - intros M [= <-]. rewrite sumZ_zero by (intros x [-> _]%elem_of_replicate; done).
    rewrite Z.add_0_r. rewrite (r_len _ _ _ _ _ _ Hrep), size_abs by apply Hrep. done.
  - exists []. simpl. rewrite app_nil_r. split; [done|].
    assert (concat (rowe <$> replicate n (mkRloc None 0 [] None)) = []) as ->.
    { induction n as [|n IH]; simpl; [done|exact IH]. }
    split; [done|]. by intros a ?%elem_of_nil.
  - intros e l He Hle Hm. exfalso. destruct (entry_node _ _ _ _ _ _ Hrep e He) as (_ & _ & Ht & _).
    eapply quiet_unmarked; [done| | |exact Hm]; [lia|]. apply list_elem_of_further. by apply level_entry.
  - split; simpl; try done. lia.
Qed.

(** ** The end *)

(** When every deleted node is deleted at all levels and off the list, the links
    are those of a quiescent list again. *)
Section settled.
Context (sl : SkipList) (tl : Z) (m : Mem) (es G : list entry) (gv : list Z).
Context (Hrep : rep sl tl m es G gv).
Context (m1 : Mem) (M : store_map) (gone : list Z).
Context (Hi : rinv sl tl m es m1 M gone).
Context (Hwhole : ∀ e l, e ∈ es → (l ≤ e_top e)%nat → marked m1 (e_addr e) l → marked m1 (e_addr e) 0).
Context (Hoff : ∀ a, a ∈ gone → off sl es m1 a).

Lemma settled_mark e l : e ∈ es → (l ≤ e_top e)%nat → marked m1 (e_addr e) l ↔ marked m1 (e_addr e) 0.
Proof.
  intros He Hl. split; [by apply Hwhole|]. intros Hm. induction l as [|l IH]; [done|].
  apply (ri_down _ _ _ _ _ _ _ Hi); [done|done|]. apply IH. lia.
Qed.

Lemma tail_unmarked l : (l ≤ max_level sl)%nat → ¬ marked m1 tl l.
Proof.
  intros Hl (v & Hv & Hm). pose proof (r_height _ _ _ _ _ _ Hrep).
  rewrite (ri_tail _ _ _ _ _ _ _ Hi) in Hv by lia. by injection Hv as <-.
Qed.

(** A node that is met is not deleted. *)
Lemma met_unmarked l c : (l ≤ max_level sl)%nat → reach sl es m1 l c → ¬ marked m1 c l.
Proof.
  intros Hl Hr Hm. pose proof (reach_level _ _ _ _ _ _ Hrep _ _ _ _ _ Hi Hl Hr) as Hlv.
  destruct (level_cases _ _ _ _ _ Hlv) as [[->|(e & He & <- & Ht)%elem_of_addrs]%elem_of_cons| ->].
  - by eapply (ri_head _ _ _ _ _ _ _ Hi).
  - eapply (Hoff (e_addr e)); [|exact Hl|done]. apply (ri_gone _ _ _ _ _ _ _ Hi). exists e.
    split_and!; [done..|]. by eapply Hwhole.
  - by eapply tail_unmarked.
Qed.

Abbreviation live l := (filter (λ x, ¬ marked m1 x l)).

Lemma settled_chain l : (l ≤ max_level sl)%nat → ∀ n A p D, (length D ≤ n)%nat →
  level sl tl es l = A ++ p :: D → p ∈ head sl :: addrs l es → reach sl es m1 l p →
  chain m1 l unmarked p (live l D).
Proof.
  intros Hl. induction n as [|n IH]; intros A p D Hn E Hp Hr.
  { destruct D; [done|simpl in Hn; lia]. }
  pose proof (level_nodup _ _ _ _ _ _ Hrep l) as Hnd.
  destruct (ri_link _ _ _ _ _ _ _ Hi l p Hl Hp) as (c & k & Hlk & Hs & _).
  pose proof (skips_tag _ _ _ _ _ _ Hrep _ _ _ _ Hs) as Htc.
  pose proof (met_unmarked l p Hl Hr) as Hun.
  assert (k = false) as ->.
  { destruct k; [|done]. destruct Hun. eexists. split; [exact Hlk|by apply mark_of_pack]. }
  pose proof (reach_next _ _ _ _ _ _ Hr Hp Hlk) as Hrc. rewrite ptr_of_pack in Hrc by done.
  destruct Hs as (A' & B & D' & E' & HB). rewrite E in Hnd, E'.
  destruct (nodup_split _ _ _ _ _ Hnd E') as [<- ->]. rewrite filter_app, filter_cons_True by (by apply met_unmarked).
  assert (live l B = []) as ->.
  { apply elem_of_nil_inv. intros x [Hx HxB]%list_elem_of_filter. by apply Hx, HB. }
  split; [done|]. rewrite length_app in Hn. simpl in Hn. rewrite app_comm_cons, app_assoc in E, Hnd.
  destruct (level_cases sl tl es l c) as [Hc| ->]; [rewrite E; set_solver|by eapply IH; [lia|exact E|..]|].
  assert (D' = []) as ->; [|done].
  apply (nodup_split (A ++ p :: B) tl D' (head sl :: addrs l es) []); [done|]. by rewrite <- E.
Qed.

Definition kept : list entry := filter (λ e, ¬ marked m1 (e_addr e) 0) es.
Definition removed : list entry := filter (λ e, ¬ ¬ marked m1 (e_addr e) 0) es.

Lemma kept_perm : kept ++ (G ++ removed) ≡ₚ es ++ G.
Proof.
  rewrite (Permutation_app_comm G), app_assoc. f_equiv. apply filter_app_complement.
Qed.

Lemma addrs_kept l : (l ≤ max_level sl)%nat → addrs l kept ++ [tl] = live l (addrs l es ++ [tl]).
Proof.
  intros Hl. rewrite filter_app, (filter_cons_True _ tl) by (by apply tail_unmarked). f_equal.
  assert (Hm := λ e, settled_mark e l). unfold kept, addrs. clear -Hm.
  induction es as [|e xs IH]; [done|]. specialize (IH ltac:(set_solver)).
  rewrite !filter_cons. pose proof (Hm e ltac:(set_solver)) as He.
  repeat (case_decide; rewrite ?filter_cons, ?fmap_cons); try tauto; rewrite ?filter_cons;
    repeat case_decide; try tauto; by rewrite IH.
Qed.

Lemma abs_kept : abs kept = M.
Proof.
  assert (Hs : StronglySorted blt (e_key <$> kept)).
  { eapply sorted_sublist; [apply fmap_sublist, sublist_filter|apply (r_sorted _ _ _ _ _ _ Hrep)]. }
  apply map_eq. intros k. apply option_eq. intros bs.
  rewrite abs_lookup, (ri_map _ _ _ _ _ _ _ Hi) by done. unfold kept. setoid_rewrite list_elem_of_filter.
  naive_solver.
Qed.

Lemma gone_removed : gone ≡ₚ e_addr <$> removed.
Proof.
  apply NoDup_Permutation; [apply (ri_nodup _ _ _ _ _ _ _ Hi)| |].
  - pose proof (r_addrs _ _ _ _ _ _ Hrep) as Hnd. rewrite !NoDup_cons, fmap_app, NoDup_app in Hnd.
    destruct Hnd as (_ & _ & Hnd & _). eapply sublist_NoDup; [exact Hnd|]. apply fmap_sublist, sublist_filter.
  - intros a. rewrite (ri_gone _ _ _ _ _ _ _ Hi), list_elem_of_fmap. unfold removed.
    setoid_rewrite list_elem_of_filter. split.
    + intros (e & He & <- & Hm). exists e. split_and!; [done|tauto|done].
    + intros (e & -> & Hm & He). exists e. split_and!; [done..|]. by apply dec_stable.
Qed.

Lemma settled_rep rs :
  len m1 = wrap64 (Z.of_nat (size M)) → retired m1 = retired m ++ (retire_of <$> rs) → rs ≡ₚ gone →
  rep sl tl m1 kept (G ++ removed) gv.
Proof.
  intros Hlen Hret Hrs. pose proof Hrep as [Hmh Hhd Htail Htl Hent Hnd Hvals Hgv Hr Hheap Hsort _ _ Hln Hlv].
  pose proof (ri_nodes _ _ _ _ _ _ _ Hi) as En. pose proof (ri_values _ _ _ _ _ _ _ Hi) as Ev.
  split; rewrite ?En, ?Ev; try done.
  - apply (ri_tail _ _ _ _ _ _ _ Hi).
  - rewrite kept_perm. eapply Forall_impl; [exact Hent|]. intros e. unfold entry_ok. by rewrite En, Ev.
  - by rewrite kept_perm.
  - by rewrite kept_perm.
  - rewrite Hret, Hr, Hrs, gone_removed. unfold retired_as. rewrite fmap_app, <- !app_assoc. f_equiv.
    rewrite Permutation_app_comm, <- list_fmap_compose. done.
  - apply (ri_heap _ _ _ _ _ _ _ Hi).
  - eapply sorted_sublist; [apply fmap_sublist, sublist_filter|done].
  - rewrite Hlen, <- abs_kept, size_abs; [done|].
    eapply sorted_sublist; [apply fmap_sublist, sublist_filter|done].
  - intros l Hl. rewrite addrs_kept by done.
    eapply (settled_chain l Hl _ []); [done|done|apply list_elem_of_here|constructor].
  - intros p Hp. rewrite kept_perm. by apply Hln.
  - intros v Hv. rewrite kept_perm. by apply Hlv.
Qed.

End settled.

(** When all calls have returned, nothing is owed and nothing half done. *)
Lemma rpinv_settled sl tl m es G gv M0 σ w ls lin wss :
  rep sl tl m es G gv → rpinv sl tl m es M0 σ w ls lin wss → Forall (λ th, th = None) (threads σ) →
  ∃ es' G', rep sl tl (rm w) es' G' gv ∧ last (rhist w) = Some (abs es').
Proof.
  intros Hrep Hq Hidle. pose proof (z_inv _ _ _ _ _ _ _ _ _ _ Hq) as (M & HM & Hi).
  destruct (z_ret _ _ _ _ _ _ _ _ _ _ Hq) as (rs & Hr & Hp & Hoff).
  assert (Hquiet : ∀ ℓ, ℓ ∈ ls → rdebt ℓ = 0%nat ∧ rowe ℓ = [] ∧ rmid ℓ = None).
  { intros ℓ [i Hl]%list_elem_of_lookup. destruct (lookup_lt_is_Some_2 (threads σ) i) as [th Ht].
    { rewrite <- (z_locs _ _ _ _ _ _ _ _ _ _ Hq). by eapply lookup_lt_Some. }
    pose proof (z_threads _ _ _ _ _ _ _ _ _ _ Hq _ _ _ Ht Hl) as Hok.
    by rewrite (Forall_lookup_1 _ _ _ _ Hidle Ht) in Hok. }
  assert (concat (rowe <$> ls) = []) as E.
  { clear -Hquiet. induction ls as [|ℓ ls IH]; simpl; [done|].
    destruct (Hquiet ℓ ltac:(set_solver)) as (_ & -> & _). apply IH. set_solver. }
  rewrite E, app_nil_r in Hp. exists (kept es (rm w)), (G ++ removed es (rm w)).
  rewrite (abs_kept sl tl m es G gv Hrep (rm w) M (rgone w) Hi). split; [|done].
  apply (settled_rep sl tl m es G gv Hrep (rm w) M (rgone w) Hi) with rs; [| | |done|done].
  - intros e l He Hle Hm. destruct (z_mid _ _ _ _ _ _ _ _ _ _ Hq e l He Hle Hm) as [?|(i & ℓ & Hl & Hmid)]; [done|].
    destruct (Hquiet ℓ) as (_ & _ & E'); [by eapply list_elem_of_lookup_2|congruence].
  - intros a Hga. apply Hoff. by rewrite Hp.
  - rewrite (z_len _ _ _ _ _ _ _ _ _ _ Hq M HM), sumZ_zero; [f_equal; lia|].
    intros ℓ Hl. by destruct (Hquiet ℓ Hl) as (-> & _).
Qed.

(** No schedule of removals and lookups faults or starves, and each is
    linearizable, the effects being those of steps of threads. The nodes retired
    are distinct and met by no traversal, and when all calls have returned the
    memory is that of a quiescent skiplist which holds the final map. *)
Lemma pool_removes (sl : SkipList) (tl : Z) (m : Mem) (es G : list entry)
    (gv : list Z) (n fuel : nat) (evs : list event) :
  rep sl tl m es G gv → (pot_bound sl es + length es + 3 ≤ fuel)%nat → inserts evs = 0%nat →
  ∃ σ h lin rs, pool_exec fuel sl evs (pool_start n m) = Ok σ ∧
    linearized (abs es) σ h lin ∧
    (∀ id t, lin !! id = Some t → ∃ i, evs !! t = Some (Step i) ∧ (i < n)%nat) ∧
    (retired (pmem σ) = retired m ++ (retire_of <$> rs) ∧ NoDup rs ∧
     ∀ a, a ∈ rs → off sl es (pmem σ) a) ∧
    (Forall (λ th, th = None) (threads σ) →
     ∃ es' G', rep sl tl (pmem σ) es' G' gv ∧ last h = Some (abs es')).
Proof.
  intros Hrep Hfuel Hno.
  destruct (rpinv_exec sl tl m es G gv Hrep fuel Hfuel evs _ _ _ _ _ _ Hno (rpinv_start sl tl m es G gv n Hrep))
    as (σ & w & ls & lin & wss & Hx & Hq & Ha).
  pose proof (z_inv _ _ _ _ _ _ _ _ _ _ Hq) as (M & HM & Hi).
  destruct (z_ret _ _ _ _ _ _ _ _ _ _ Hq) as (rs & Hr & Hp & Hoff).
  exists σ, (rhist w), lin, rs. rewrite <- (z_mem _ _ _ _ _ _ _ _ _ _ Hq). split_and!; [done|apply Hq| |done| |done|].
  - intros id t Ht. destruct (Ha id t Ht) as [Hn|(u & i & -> & Hu & Hl)]; [by rewrite lookup_empty in Hn|].
    simpl in *. rewrite length_replicate in Hl. eauto.
  - pose proof (ri_nodup _ _ _ _ _ _ _ Hi) as Hnd. rewrite <- Hp in Hnd. by apply NoDup_app in Hnd as [Hnd _].
  - intros Hidle. by eapply rpinv_settled.
Qed.

(** ** An example: two threads remove one key while a third looks it up *)

Definition rem_list : SkipList := mkSkipList 8 1.
Definition rem_setup : prog bool := _ ←p insert 9 rem_list [7] [70]; insert 9 rem_list [8] [80].
Definition rem_mem : Mem := match run rem_setup (sentinels 3) with Ok (_, m) => m | Err _ => sentinels 3 end.
Definition rem_events : list event :=
  [Invoke 0 (CRemove [7]); Invoke 1 (CRemove [7]); Invoke 2 (CGet [7])]
  ++ concat (replicate 60 [Step 0; Step 1; Step 2]).

Lemma rem_mem_rep : ∃ es gv, rep rem_list 176 rem_mem es [] gv ∧ abs es = {[ [7] := [70]; [8] := [80] ]} ∧
  (length es ≤ 2)%nat.
Proof.
  destruct (with_max_level_run 1 3) as [_ H0]; [apply Nat.ltb_lt; reflexivity|].
  destruct (insert_run _ _ _ _ _ _ [7] [70] 9 H0) as (m1 & es1 & gv1 & R1 & H1 & A1 & B1 & L1);
    [apply Z.leb_le; reflexivity|simpl; lia|].
  change (brk (sentinels 3)) with 344 in B1. change insert_room with 184 in *. simpl in L1.
  destruct (insert_run _ _ _ _ _ _ [8] [80] 9 H1) as (m2 & es2 & gv2 & R2 & H2 & A2 & _ & L2);
    [change insert_room with 184; unfold W64; lia|lia|].
  exists es2, gv2. split_and!; [|rewrite A2, A1; reflexivity|lia].
  unfold rem_mem, rem_setup. rewrite run_bind. unfold rem_list in *. rewrite R1, R2. done.
Qed.

Lemma one_remover_wins :
  (σ ←r pool_exec 60 rem_list rem_events (pool_start 3 rem_mem);
   Ok (o_res <$> ops σ, len (pmem σ), retired (pmem σ), threads σ))
    = Ok ([Some (81%nat, OBool true); Some (43%nat, OBool false); Some (32%nat, OBytes (Some [70]))],
        1, [(360, drop_node)], [None; None; None]).
Proof. vm_compute. reflexivity. Qed.
