(* ===== verification/SkipListReclaim.v ===== *)
(** * SkipListReclaim: removals and lookups while retired nodes are freed

    [SkipListRemLin] runs removals and lookups on a memory in which nothing is
    freed. Here the reclamation domain takes part: at any moment it may run the
    drop function of any retired record, provided that no call that was running
    when the record was retired still runs. That proviso is what the domain
    guarantees ([ebr_grace_period] of [Ebr]: a freed record has no live guard
    among its witnesses), every call holding a guard while it runs. The result
    is that no call ever touches a freed cell: a call touches only nodes that
    traversals met when it began, and a node is retired when none meets it. *)

From S2P Require Import Prelude Backoff Index SkipList SkipListProof SkipListRep SkipListRemove.
From S2P Require Import SkipListConc SkipListConcIns SkipListPool SkipListConcRem SkipListRemLin.
Local Open Scope Z_scope.
Local Open Scope zkv_scope.

(** ** The pool with its reclamation domain *)

(** The threads and the memory, and for every record of [retired] its
    witnesses: the calls that were running when it was retired. *)
Record Rpool : Type := mkRpool {
  base : Pool;
  wits : list (list nat)
}.

Definition running (σ : Pool) : list nat := omap (λ th, fst <$> th) (threads σ).

Inductive revent : Type :=
| Run (e : event)
| Reclaim (i : nat).

(** Time passes and nothing happens. *)
Definition tick (σ : Pool) : Pool := mkPool (threads σ) (ops σ) (S (time σ)) (pmem σ).

(** One event: one of the threads', or the domain frees the [i]-th record unless
    one of its witnesses still runs. *)
Definition rpool_event (fuel : nat) (sl : SkipList) (e : revent) (ρ : Rpool) : res Rpool :=
  let σ := base ρ in
  match e with
  | Run e =>
    σ' ←r pool_event fuel sl e σ;
    Ok (mkRpool σ' (wits ρ ++
      replicate (length (retired (pmem σ')) - length (retired (pmem σ))) (running σ)))
  | Reclaim i =>
    match wits ρ !! i with
    | Some W =>
      if forallb (λ id, bool_decide (id ∉ W)) (running σ) then
        m ←r reclaim i (pmem σ);
        Ok (mkRpool (mkPool (threads σ) (ops σ) (S (time σ)) m) (delete i (wits ρ)))
      else Ok (mkRpool (tick σ) (wits ρ))
    | None => Ok (mkRpool (tick σ) (wits ρ))
    end
  end.

Fixpoint rpool_exec (fuel : nat) (sl : SkipList) (es : list revent) (ρ : Rpool) : res Rpool :=
  match es with
  | [] => Ok ρ
  | e :: es => ρ ←r rpool_event fuel sl e ρ; rpool_exec fuel sl es ρ
  end.

(** [n] idle threads; what is retired already has no witness that runs. *)
Definition rpool_start (n : nat) (m : Mem) : Rpool :=
  mkRpool (pool_start n m) (replicate (length (retired m)) []).

(** The events of the threads. *)
Definition calls_of (evs : list revent) : list event :=
  omap (λ e, match e with Run e => Some e | Reclaim _ => None end) evs.

(** ** Accesses after cells have been freed *)

Definition set_retired (m : Mem) (R : list (Z * drop_fn)) : Mem :=
  mkMem (nodes m) (links m) (values m) (brk m) (len m) R (rng m).

Definition retires {T} (a : act T) : list (Z * drop_fn) :=
  match a with
  | ARetire p f => [(p, f)]
  | _ => []
  end.

(** What was retired earlier does not matter to an access. *)
Lemma exec_retired {T} (a : act T) m r m' R : exec a m = Ok (r, m') →
  retired m' = retired m ++ retires a ∧
  exec a (set_retired m R) = Ok (r, set_retired m' (R ++ retires a)).
Proof.
  intros Hx. destruct a as [p l|p l w|p l old new|p|p|p|p v|v|bs|k v top|p|v|d|p f|l]; simpl in *.
  14:{ by injection Hx as <- <-. }
  all: rewrite !app_nil_r.
  - destruct (links m !! (p, l)); simpl in *; [by injection Hx as <- <-|done].
  - destruct (links m !! (p, l)); simpl in *; [by injection Hx as <- <-|done].
  - destruct (links m !! (p, l)) as [w|]; simpl in *; [|done]. destruct (w =? old); by injection Hx as <- <-.
  - destruct (nodes m !! p); simpl in *; [by injection Hx as <- <-|done].
  - destruct (nodes m !! p); simpl in *; [by injection Hx as <- <-|done].
  - destruct (nodes m !! p); simpl in *; [by injection Hx as <- <-|done].
  - destruct (nodes m !! p); simpl in *; [by injection Hx as <- <-|done].
  - destruct (values m !! v); simpl in *; [by injection Hx as <- <-|done].
  - unfold new_value in *. simpl. destruct (_ <? _); [done|by injection Hx as <- <-].
  - unfold Node_new in *. simpl. destruct (_ <? _); [done|by injection Hx as <- <-].
  - unfold free_node, free_value in *. simpl. destruct (nodes m !! p) as [n|]; simpl in *; [|done].
    destruct (value n =? 0); simpl in *; [by injection Hx as <- <-|].
    destruct (values m !! value n); simpl in *; [by injection Hx as <- <-|done].
  - unfold free_value in *. simpl. destruct (values m !! v); simpl in *; [by injection Hx as <- <-|done].
  - by injection Hx as <- <-.
  - unfold random_level in *. simpl. destruct (random_geometric_level _ _ _) as [[g lv]|]; simpl in *;
      [by injection Hx as <- <-|done].
Qed.

(** The accesses of removals and lookups, those that touch none of the cells
    that freeing the record [x] would free. *)
Definition avoids (m : Mem) {T} (a : act T) (x : Z * drop_fn) : Prop :=
  match a with
  | ALoad q _ | ACas q _ _ _ | AKey q | ATop q | AValueLoad q => x ≠ (q, drop_node)
  | AValueBytes v => x ≠ (v, drop_value) ∧
      ∀ p n, x = (p, drop_node) → nodes m !! p = Some n → value n ≠ v
  | ALenAdd _ | ARetire _ _ => True
  | _ => False
  end.

Definition dropped (p : Z) (f : drop_fn) (m m' : Mem) : Prop := run (run_drop_fn p f) m = Ok (tt, m').

(** What freeing a node does, and when it succeeds. *)
Lemma dropped_node p m m' : dropped p drop_node m m' ↔
  ∃ n, nodes m !! p = Some n ∧ (value n = 0 ∨ is_Some (values m !! value n)) ∧
    m' = mkMem (delete p (nodes m)) (free_links p (top_level n + 1) (links m))
      (if value n =? 0 then values m else delete (value n) (values m)) (brk m) (len m) (retired m) (rng m).
Proof.
  unfold dropped. simpl. unfold free_node, free_value. destruct (nodes m !! p) as [n|]; simpl.
  2:{ split; [done|]. by intros (n & ? & _). }
  destruct (Z.eqb_spec (value n) 0) as [E|Hne]; simpl.
  { split; [intros [= <-]; exists n; rewrite E; by auto|].
    intros (n' & [= <-] & _ & ->). by rewrite E. }
  destruct (values m !! value n) as [bs|] eqn:Hv; simpl.
  - split; [intros [= <-]|intros (n' & [= <-] & _ & ->); by rewrite (proj2 (Z.eqb_neq _ _) Hne)].
    exists n. rewrite (proj2 (Z.eqb_neq _ _) Hne), Hv. eauto.
  - split; [done|]. intros (n' & [= <-] & [?|[? ?]] & _); congruence.
Qed.

Lemma dropped_value v m m' : dropped v drop_value m m' ↔
  is_Some (values m !! v) ∧
  m' = mkMem (nodes m) (links m) (delete v (values m)) (brk m) (len m) (retired m) (rng m).
Proof.
  unfold dropped. simpl. unfold free_value. destruct (values m !! v) as [bs|]; simpl; split.
  - intros [= <-]. eauto.
  - by intros [_ ->].
  - done.
  - by intros [[? ?] _].
Qed.

Lemma free_links_insert p n ls q l v : q ≠ p →
  free_links p n (<[(q, l) := v]> ls) = <[(q, l) := v]> (free_links p n ls).
Proof.
  intros Hne. unfold free_links. induction (seq 0 n) as [|k lv IH]; simpl; [done|].
  rewrite IH, delete_insert_ne by congruence. done.
Qed.

Lemma free_links_some p n ls x v : free_links p n ls !! x = Some v → ls !! x = Some v.
Proof.
  unfold free_links. induction (seq 0 n) as [|k lv IH]; simpl; [done|].
  intros [_ Hx]%lookup_delete_Some. auto.
Qed.

(** The cells an access reads are the same in both memories. *)
Definition agrees (m m2 : Mem) {T} (a : act T) : Prop :=
  match a with
  | ALoad q l | ACas q l _ _ => links m2 !! (q, l) = links m !! (q, l)
  | AKey q | ATop q | AValueLoad q => nodes m2 !! q = nodes m !! q
  | AValueBytes v => values m2 !! v = values m !! v
  | ALenAdd _ | ARetire _ _ => True
  | _ => False
  end.

Lemma dropped_agrees {T} (a : act T) p f m m2 : dropped p f m m2 → avoids m a (p, f) → agrees m m2 a.
Proof.
  intros Hd Ha. destruct f.
  - apply dropped_node in Hd as (n & Hn & Hv & ->).
    destruct a as [q l|q l w|q l old new|q|q|q|q v|v|bs|k v top|q|v|d|q g|l]; simpl in *; try done.
    1-2: apply free_links_lookup; congruence.
    1-3: apply lookup_delete_ne; congruence.
    destruct (value n =? 0); [done|]. apply lookup_delete_ne. by eapply Ha.
  - apply dropped_value in Hd as (Hv & ->).
    destruct a as [q l|q l w|q l old new|q|q|q|q v|v|bs|k v top|q|v|d|q g|l]; simpl in *; try done.
    apply lookup_delete_ne. naive_solver.
Qed.

(** Other links, the length and the list of the retired do not matter to it. *)
Lemma dropped_link p f m m2 q l v : dropped p f m m2 → (p, f) ≠ (q, drop_node) →
  dropped p f (set_links m (<[(q, l) := v]> (links m))) (set_links m2 (<[(q, l) := v]> (links m2))).
Proof.
  intros Hd Hne. destruct f.
  - apply dropped_node in Hd as (n & Hn & Hv & ->). apply dropped_node. exists n.
    split_and!; [done|done|]. unfold set_links. simpl. by rewrite free_links_insert by congruence.
  - apply dropped_value in Hd as (Hv & ->). by apply dropped_value.
Qed.

Definition set_counts (m : Mem) (n : Z) (R : list (Z * drop_fn)) : Mem :=
  mkMem (nodes m) (links m) (values m) (brk m) n R (rng m).

Lemma dropped_counts p f m m2 n R : dropped p f m m2 → dropped p f (set_counts m n R) (set_counts m2 n R).
Proof.
  intros Hd. destruct f.
  - apply dropped_node in Hd as (d & Hn & Hv & ->). apply dropped_node. by exists d.
  - apply dropped_value in Hd as (Hv & ->). by apply dropped_value.
Qed.

Lemma dropped_same p f m m2 : dropped p f m m2 → len m2 = len m ∧ retired m2 = retired m.
Proof.
  destruct f; [intros (n & _ & _ & ->)%dropped_node|intros (_ & ->)%dropped_value]; done.
Qed.

(** An access that avoids a record has the same outcome after it is freed. *)
Lemma exec_dropped {T} (a : act T) p f m m2 r m' :
  dropped p f m m2 → avoids m a (p, f) → exec a m = Ok (r, m') →
  ∃ m2', exec a m2 = Ok (r, m2') ∧ dropped p f m' m2'.
Proof.
  intros Hd Ha Hx. pose proof (dropped_agrees _ _ _ _ _ Hd Ha) as Hg. destruct (dropped_same _ _ _ _ Hd) as [El Er].
  destruct a as [q l|q l w|q l old new|q|q|q|q v|v|bs|k v top|q|v|d|q g|l]; simpl in *; try done;
    rewrite ?Hg, ?El, ?Er.
  - destruct (links m !! (q, l)); simpl in *; [|done]. injection Hx as <- <-. by eexists.
  - destruct (links m !! (q, l)) as [w|]; simpl in *; [|done].
    destruct (w =? old); injection Hx as <- <-; eexists; (split; [done|]); [by apply dropped_link|done].
  - destruct (nodes m !! q); simpl in *; [|done]. injection Hx as <- <-. by eexists.
  - destruct (nodes m !! q); simpl in *; [|done]. injection Hx as <- <-. by eexists.
  - destruct (nodes m !! q); simpl in *; [|done]. injection Hx as <- <-. by eexists.
  - destruct (values m !! v); simpl in *; [|done]. injection Hx as <- <-. by eexists.
  - injection Hx as <- <-. eexists. split; [done|]. by apply dropped_counts.
  - injection Hx as <- <-. eexists. split; [done|]. by apply dropped_counts.
Qed.

(** ** A memory some records of which have been freed *)

Inductive freed_from (m : Mem) : list (Z * drop_fn) → Mem → Prop :=
| freed_none : freed_from m [] m
| freed_more p f D m1 m2 : freed_from m D m1 → dropped p f m1 m2 → freed_from m ((p, f) :: D) m2.

Lemma freed_sub m D m1 : freed_from m D m1 →
  (∀ p n, nodes m1 !! p = Some n → nodes m !! p = Some n) ∧
  (∀ x v, links m1 !! x = Some v → links m !! x = Some v).
Proof.
  induction 1 as [|p f D m1 m2 _ [IHn IHl] Hd]; [done|]. destruct f.
  - apply dropped_node in Hd as (d & Hn & Hv & ->). simpl. split.
    + intros q n [_ Hq]%lookup_delete_Some. auto.
    + intros x v Hx. by eapply IHl, free_links_some.
  - apply dropped_value in Hd as (Hv & ->). done.
Qed.

Lemma exec_freed {T} (a : act T) m D m1 r m' :
  freed_from m D m1 → (∀ x, x ∈ D → avoids m a x) → exec a m = Ok (r, m') →
  ∃ m1', exec a m1 = Ok (r, m1') ∧ freed_from m' D m1'.
Proof.
  intros Hf Ha Hx. induction Hf as [|p f D m1 m2 Hf IH Hd]; [exists m'; split; [done|constructor]|].
  destruct IH as (m1' & Hx1 & Hf1); [set_solver|].
  destruct (exec_dropped a p f m1 m2 r m1' Hd) as (m2' & Hx2 & Hd2); [|done|].
  - specialize (Ha (p, f) ltac:(set_solver)). pose proof (proj1 (freed_sub _ _ _ Hf)) as Hsub.
    destruct a; simpl in *; try done. naive_solver.
  - exists m2'. split; [done|]. by econstructor.
Qed.

(** What none of the records owns is still there. *)
Lemma freed_node m D m1 p n :
  freed_from m D m1 → (p, drop_node) ∉ D → nodes m !! p = Some n → nodes m1 !! p = Some n.
Proof.
  induction 1 as [|q f D m1 m2 _ IH Hd]; [done|]. intros Hp Hn. specialize (IH ltac:(set_solver) Hn). destruct f.
  - apply dropped_node in Hd as (d & _ & _ & ->). simpl. rewrite lookup_delete_ne; [done|]. set_solver.
  - by apply dropped_value in Hd as (_ & ->).
Qed.

Lemma freed_value m D m1 v bs :
  freed_from m D m1 → (v, drop_value) ∉ D →
  (∀ p n, (p, drop_node) ∈ D → nodes m !! p = Some n → value n ≠ v) →
  values m !! v = Some bs → values m1 !! v = Some bs.
Proof.
  induction 1 as [|q f D m1 m2 Hf IH Hd]; [done|]. intros Hv Hown Hn.
  specialize (IH ltac:(set_solver) ltac:(set_solver) Hn). destruct f.
  - apply dropped_node in Hd as (d & Hd & _ & ->). simpl. destruct (value d =? 0); [done|].
    rewrite lookup_delete_ne; [done|]. apply (Hown q); [set_solver|]. by apply (freed_sub _ _ _ Hf).
  - apply dropped_value in Hd as (_ & ->). simpl. rewrite lookup_delete_ne; [done|]. set_solver.
Qed.

(** Freeing a record of the memory, whatever else is waiting. *)
Lemma reclaim_dropped i p f m m2 R :
  R !! i = Some (p, f) → dropped p f m m2 →
  reclaim i (set_retired m R) = Ok (set_retired m2 (delete i R)).
Proof.
  intros Hi Hd. unfold reclaim. simpl. rewrite Hi.
  assert (Hd' : dropped p f (set_retired m R) (set_retired m2 R)).
  { destruct (dropped_same _ _ _ _ Hd) as [El _].
    pose proof (dropped_counts p f m m2 (len m) R Hd) as H. unfold set_counts in H. unfold set_retired. by rewrite El. }
  unfold dropped in Hd'. rewrite Hd'. done.
Qed.

(** A quiescent list stays one. *)
Lemma freed_rep sl tl m D m1 es G gv : freed_from m D m1 → ∀ R,
  rep sl tl m es G gv → retired m ≡ₚ D ++ R →
  ∃ G' gv', rep sl tl (set_retired m1 R) es G' gv'.
Proof.
  induction 1 as [|p f D m1 m2 _ IH Hd]; intros R Hr HR.
  - exists G, gv. destruct Hr as [H1 H2 H3 H4 H5 H6 H7 H8 H9 [B N L V] H11 H12 H13 H14 H15].
    split; try done; simpl; [by rewrite <- H9, HR|]. intros l Hl. eapply chain_ext; [|by apply H13]. done.
  - destruct (IH ((p, f) :: R) Hr) as (G1 & gv1 & Hr1); [rewrite HR; apply Permutation_middle|].
    destruct (reclaim_run _ _ _ _ _ _ 0 Hr1) as (m' & G' & gv' & Hx & Hr' & _).
    rewrite (reclaim_dropped 0 p f m1 m2 ((p, f) :: R) eq_refl Hd) in Hx. injection Hx as <-.
    by exists G', gv'.
Qed.

(** One event, on the memory and on the same memory with records freed. *)
Lemma pool_event_freed fuel sl e σ σ' D m1 R :
  pool_event fuel sl e σ = Ok σ' → freed_from (pmem σ) D m1 →
  (∀ i id T (a : act T) k x, threads σ !! i = Some (Some (id, Do a k)) → x ∈ D → avoids (pmem σ) a x) →
  ∃ m1' new, retired (pmem σ') = retired (pmem σ) ++ new ∧ freed_from (pmem σ') D m1' ∧
    pool_event fuel sl e (mkPool (threads σ) (ops σ) (time σ) (set_retired m1 R)) =
      Ok (mkPool (threads σ') (ops σ') (time σ') (set_retired m1' (R ++ new))).
Proof.
  intros Hx Hf Ha.
  destruct e as [i c|i]; cbn [pool_event threads] in *; destruct (threads σ !! i) as [[[id p]|]|] eqn:Hi;
    try (injection Hx as <-; exists m1, []; by rewrite !app_nil_r).
  destruct p as [o|f|T a k]; [injection Hx as <-; exists m1, []; by rewrite !app_nil_r|done|].
  destruct (exec a (pmem σ)) as [[r m']|] eqn:Hr; [|done]. cbn [rbind] in Hx.
  destruct (exec_freed a _ D m1 r m' Hf (λ x, Ha _ _ _ _ _ x Hi) Hr) as (m1' & Hr1 & Hf1).
  destruct (exec_retired a _ r _ (retired m1) Hr) as [Hnew _].
  destruct (exec_retired a _ r _ R Hr1) as [_ HrR]. cbn [pmem]. rewrite HrR. cbn [rbind].
  exists m1', (retires a). by destruct (k r); injection Hx as <-.
Qed.

(** ** The domain and the threads together *)

Section domain.
Context (sl : SkipList) (tl : Z) (m0 : Mem) (es G : list entry) (gv : list Z).
Context (Hrep : rep sl tl m0 es G gv).

Abbreviation inv := (rpinv sl tl m0 es (abs es)).

(** Every record is a node of the list's or a value cell. *)
Definition known (x : Z * drop_fn) : Prop :=
  (∃ e, e ∈ es ++ G ∧ x = (e_addr e, drop_node)) ∨ ∃ v, v ∈ gv ∧ x = (v, drop_value).

Lemma known_node e : e ∈ es ++ G →
  nodes m0 !! e_addr e = Some (mkNode (fin (e_key e)) (e_vptr e) (e_top e)) ∧
  values m0 !! e_vptr e = Some (e_bytes e).
Proof.
  intros He. pose proof (r_entries _ _ _ _ _ _ Hrep) as Hent. rewrite Forall_forall in Hent.
  by destruct (Hent e He) as (? & ? & _).
Qed.

Lemma known_addr e e' : e ∈ es ++ G → e' ∈ es ++ G → e_addr e = e_addr e' → e = e'.
Proof.
  pose proof (r_addrs _ _ _ _ _ _ Hrep) as Hnd. apply NoDup_cons in Hnd as [_ Hnd]. apply NoDup_cons in Hnd as [_ Hnd].
  intros [i Hi]%list_elem_of_lookup [j Hj]%list_elem_of_lookup E. assert (i = j) as ->; [|congruence].
  eapply (NoDup_lookup _ _ _ (e_addr e) Hnd); rewrite list_lookup_fmap; [by rewrite Hi|by rewrite Hj, E].
Qed.

Lemma known_vptr e e' : e ∈ es ++ G → e' ∈ es ++ G → e_vptr e = e_vptr e' → e = e'.
Proof.
  pose proof (r_vals _ _ _ _ _ _ Hrep) as Hnd. apply NoDup_app in Hnd as [Hnd _].
  intros [i Hi]%list_elem_of_lookup [j Hj]%list_elem_of_lookup E. assert (i = j) as ->; [|congruence].
  eapply (NoDup_lookup _ _ _ (e_vptr e) Hnd); rewrite list_lookup_fmap; [by rewrite Hi|by rewrite Hj, E].
Qed.

Lemma known_apart e : e ∈ es ++ G → e_vptr e ∉ gv.
Proof.
  pose proof (r_vals _ _ _ _ _ _ Hrep) as Hnd. apply NoDup_app in Hnd as (_ & Hnd & _).
  intros He. apply Hnd. by apply list_elem_of_fmap_2.
Qed.

(** What is retired is known, all different, and met by no traversal. *)
Lemma retired_known σ w ls lin wss : inv σ w ls lin wss →
  NoDup (retired (rm w)) ∧
  ∀ x, x ∈ retired (rm w) → known x ∧ ∀ a, x = (a, drop_node) → off sl es (rm w) a.
Proof.
  intros Hq. pose proof (z_inv _ _ _ _ _ _ _ _ _ _ Hq) as (M & _ & Hi).
  destruct (z_ret _ _ _ _ _ _ _ _ _ _ Hq) as (rs & -> & Hp & Hoff).
  pose proof (ri_nodup _ _ _ _ _ _ _ Hi) as Hnd. rewrite <- Hp in Hnd. apply NoDup_app in Hnd as [Hnd _].
  pose proof (r_addrs _ _ _ _ _ _ Hrep) as Hna. apply NoDup_cons in Hna as [Hnh Hna]. apply NoDup_cons in Hna as [Hnt Hna].
  rewrite fmap_app in Hna. apply NoDup_app in Hna as (_ & Hdis & Hng).
  pose proof (r_vals _ _ _ _ _ _ Hrep) as Hnv. apply NoDup_app in Hnv as (_ & _ & Hnv).
  assert (Hes : ∀ a, a ∈ rs → ∃ e, e ∈ es ∧ e_addr e = a).
  { intros a Ha. destruct (proj1 (ri_gone _ _ _ _ _ _ _ Hi a)) as (e & ? & ? & _); [|eauto].
    rewrite <- Hp. apply elem_of_app. by left. }
  split.
  - rewrite (r_retired _ _ _ _ _ _ Hrep). unfold retired_as. rewrite !NoDup_app. split_and!.
    + rewrite (list_fmap_compose e_addr (λ a, (a, drop_node))). by apply NoDup_fmap_2_strong; [intros ? ? _ _ [=]|].
    + intros x (e & -> & _)%list_elem_of_fmap (v & [=] & _)%list_elem_of_fmap.
    + by apply NoDup_fmap_2_strong; [intros ? ? _ _ [=]|].
    + intros x Hx (a & -> & Ha)%list_elem_of_fmap. unfold retire_of in Hx.
      apply elem_of_app in Hx as [(e & [= ->] & He)%list_elem_of_fmap|(v & [=] & _)%list_elem_of_fmap].
      destruct (Hes _ Ha) as (e' & He' & E). apply (Hdis (e_addr e)); [rewrite <- E|]; by apply list_elem_of_fmap_2.
    + apply NoDup_fmap_2_strong; [by intros ? ? _ _ [=]|done].
  - intros x [Hx|(a & -> & Ha)%list_elem_of_fmap]%elem_of_app.
    + rewrite (r_retired _ _ _ _ _ _ Hrep) in Hx.
      apply elem_of_app in Hx as [(e & -> & He)%list_elem_of_fmap|(v & -> & Hv)%list_elem_of_fmap].
      2:{ split; [right; by eexists|by intros a [=]]. }
      split; [left; exists e; set_solver|]. intros a [= <-] l Hl Hr.
      pose proof (reach_level _ _ _ _ _ _ Hrep _ _ _ _ _ Hi Hl Hr) as Hlv.
      assert (He' : e_addr e ∈ e_addr <$> es ++ G) by (apply list_elem_of_fmap_2; set_solver).
      destruct (level_cases _ _ _ _ _ Hlv) as [[E|(e' & Hin & E & _)%elem_of_addrs]%elem_of_cons|E].
      * rewrite E in He'. set_solver.
      * apply (Hdis (e_addr e)); [rewrite <- E|]; by apply list_elem_of_fmap_2.
      * rewrite E in He'. set_solver.
    + split; [|intros a' [= <-]; by apply Hoff]. left. destruct (Hes a Ha) as (e & He & <-). exists e. set_solver.
Qed.

(** A call that began when no traversal met the freed nodes touches none of them. *)
Lemma tame_avoids {T} (a : act T) ws m (D : list (Z * drop_fn)) x :
  tame sl es ws a → nodes m = nodes m0 → x ∈ D →
  (∀ y, y ∈ D → known y ∧ ∀ p, y = (p, drop_node) → off sl es (rm ws) p) → avoids m a x.
Proof.
  intros Ht En Hx HD. destruct (HD x Hx) as [Hk Ho].
  assert (Hsafe : ∀ q, safe sl es ws q → x ≠ (q, drop_node)).
  { intros q (l & Hl & Hr) E. by eapply (Ho q E). }
  destruct a; simpl in *; auto. destruct Ht as (e & He & <- & Hs).
  assert (He' : e ∈ es ++ G) by set_solver. split.
  - intros ->. destruct Hk as [(e' & _ & [=])|(v' & Hv & [= <-])]. by apply (known_apart e).
  - intros p n -> Hn Hv. destruct Hk as [(e' & Hin & [= ->])|(v' & _ & [=])].
    rewrite En, (proj1 (known_node e' Hin)) in Hn. injection Hn as <-. simpl in Hv.
    rewrite (known_vptr e' e Hin He' Hv) in Hsafe. by apply (Hsafe (e_addr e)).
Qed.

(** A record that has not been freed can be. *)
Lemma droppable m D m1 p f :
  nodes m = nodes m0 → values m = values m0 → freed_from m D m1 → (∀ y, y ∈ D → known y) →
  known (p, f) → (p, f) ∉ D → ∃ m2, dropped p f m1 m2.
Proof.
  intros En Ev Hf HD [(e & He & [= -> ->])|(v & Hv & [= -> ->])] Hx.
  - destruct (known_node e He) as [Hn Hb]. eexists. apply dropped_node. eexists.
    split_and!; [|right|reflexivity]; [eapply freed_node; [done|done|by rewrite En]|]. simpl.
    eexists. eapply freed_value; [done| | |by rewrite Ev].
    + intros [(e' & _ & [=])|(v & Hv & [= <-])]%HD. by apply (known_apart e).
    + intros q n Hq Hnq E. destruct (HD _ Hq) as [(e' & Hin & [= ->])|(v & _ & [=])].
      rewrite En, (proj1 (known_node e' Hin)) in Hnq. injection Hnq as <-. simpl in E.
      by rewrite (known_vptr e' e Hin He E) in Hq.
  - pose proof (r_gv _ _ _ _ _ _ Hrep) as Hgv. rewrite Forall_forall in Hgv. destruct (Hgv v Hv) as [bs Hb].
    eexists. apply dropped_value. split; [|reflexivity]. exists bs. eapply freed_value; [done|done| |by rewrite Ev].
    intros q n Hq Hnq E. destruct (HD _ Hq) as [(e' & Hin & [= ->])|(v' & _ & [=])].
    rewrite En, (proj1 (known_node e' Hin)) in Hnq. injection Hnq as <-. simpl in E.
    apply (known_apart e' Hin). by rewrite E.
Qed.

(** The pool [ρ] is the pool [σ] in which nothing is freed, less the records
    [D]; a running call began when no traversal met the freed nodes, nor the
    waiting ones unless it is one of their witnesses. *)
Record dinv (ρ : Rpool) (σ : Pool) (w : rworld) (ls : list rloc) (lin : gmap nat nat) (wss : list rworld)
    (D : list (Z * drop_fn)) (m1 : Mem) : Prop := mkDinv {
  q_inv : inv σ w ls lin wss;
  q_base : base ρ = mkPool (threads σ) (ops σ) (time σ) (set_retired m1 (retired (pmem (base ρ))));
  q_freed : freed_from (rm w) D m1;
  q_retired : retired (rm w) ≡ₚ D ++ retired (pmem (base ρ));
  q_wits : length (wits ρ) = length (retired (pmem (base ρ)));
  q_gone : ∀ a id w0, (a, drop_node) ∈ D → id ∈ running σ → wss !! id = Some w0 → off sl es (rm w0) a;
  q_wait : ∀ j a W id w0, retired (pmem (base ρ)) !! j = Some (a, drop_node) → wits ρ !! j = Some W →
    id ∈ running σ → id ∉ W → wss !! id = Some w0 → off sl es (rm w0) a
}.

Lemma elem_of_running σ id : id ∈ running σ ↔ ∃ i p, threads σ !! i = Some (Some (id, p)).
Proof.
  unfold running. rewrite list_elem_of_omap. split.
  - intros ([[id' p]|] & [i Hi]%list_elem_of_lookup & E); [|done]. injection E as ->. eauto.
  - intros (i & p & Hi). exists (Some (id, p)). split; [by eapply list_elem_of_lookup_2|done].
Qed.

(** What has been retired, freed or not. *)
Lemma dinv_known ρ σ w ls lin wss D m1 : dinv ρ σ w ls lin wss D m1 →
  NoDup (D ++ retired (pmem (base ρ))) ∧
  ∀ x, x ∈ D ∨ x ∈ retired (pmem (base ρ)) → known x ∧ ∀ a, x = (a, drop_node) → off sl es (rm w) a.
Proof.
  intros Hd. destruct (retired_known _ _ _ _ _ (q_inv _ _ _ _ _ _ _ _ Hd)) as [Hnd Hk].
  rewrite (q_retired _ _ _ _ _ _ _ _ Hd) in Hnd. split; [done|].
  intros x Hx. apply Hk. rewrite (q_retired _ _ _ _ _ _ _ _ Hd). by apply elem_of_app.
Qed.

Lemma dinv_avoids ρ σ w ls lin wss D m1 i id T (a : act T) k x :
  dinv ρ σ w ls lin wss D m1 → threads σ !! i = Some (Some (id, Do a k)) → x ∈ D → avoids (rm w) a x.
Proof.
  intros Hd Hi Hx. pose proof (q_inv _ _ _ _ _ _ _ _ Hd) as Hq.
  destruct (lookup_lt_is_Some_2 ls i) as [ℓ Hl].
  { rewrite (z_locs _ _ _ _ _ _ _ _ _ _ Hq). by eapply lookup_lt_Some. }
  destruct (z_threads _ _ _ _ _ _ _ _ _ _ Hq _ _ _ Hi Hl) as (c & s & _ & _ & _ & _ & w0 & H0 & _ & Ht & _).
  destruct (z_inv _ _ _ _ _ _ _ _ _ _ Hq) as (M & _ & Hr).
  eapply (tame_avoids a w0 _ D); [done|apply (ri_nodes _ _ _ _ _ _ _ Hr)|done|].
  intros y Hy. split; [eapply (dinv_known _ _ _ _ _ _ _ _ Hd); by left|]. intros p ->.
  eapply (q_gone _ _ _ _ _ _ _ _ Hd); [done|apply elem_of_running; eauto|done].
Qed.

Context (fuel : nat) (Hfuel : (pot_bound sl es + length es + 3 ≤ fuel)%nat).

Lemma running_event e σ σ' id :
  pool_event fuel sl e σ = Ok σ' → id ∈ running σ' → id ∈ running σ ∨ id = length (ops σ).
Proof.
  rewrite !elem_of_running. intros Hx (j & p & Hj).
  destruct e as [i c|i]; cbn [pool_event] in Hx; destruct (threads σ !! i) as [[[id0 q]|]|] eqn:Hi;
    try (injection Hx as <-; left; eauto; fail).
  - injection Hx as <-. apply list_lookup_insert_Some in Hj as [(<- & [= -> _] & _)|[_ ?]]; [by right|left; eauto].
  - destruct q as [o|f|T a k]; [injection Hx as <-; left; eauto|done|].
    destruct (exec a (pmem σ)) as [[r m']|]; [|done]. cbn [rbind] in Hx. left.
    destruct (k r); injection Hx as <-;
      (apply list_lookup_insert_Some in Hj as [(<- & E & _)|[_ ?]]; [|eauto]);
      [done|injection E as -> _; eauto..].
Qed.

(** The threads move. *)
Lemma dinv_run ρ σ w ls lin wss D m1 e :
  dinv ρ σ w ls lin wss D m1 → is_insert e = 0%nat →
  ∃ ρ' σ' w' ls' lin' wss' m1', rpool_event fuel sl (Run e) ρ = Ok ρ' ∧ dinv ρ' σ' w' ls' lin' wss' D m1'.
Proof.
  intros Hd He. pose proof Hd as [Hq Hb Hf Hr Hw Hg Hwt].
  destruct (rpinv_event sl tl m0 es G gv Hrep fuel Hfuel _ _ _ _ _ _ e Hq He)
    as (σ' & w' & ls' & lin' & wss' & Hx & Hq' & Hev & _ & Hws).
  pose proof (z_mem _ _ _ _ _ _ _ _ _ _ Hq) as Em. pose proof (z_mem _ _ _ _ _ _ _ _ _ _ Hq') as Em'.
  destruct (pool_event_freed fuel sl e σ σ' D m1 (retired (pmem (base ρ))) Hx) as (m1' & new & Hn & Hf' & Hxr).
  { by rewrite <- Em. }
  { intros i id T a k x Hi Hin. rewrite <- Em. by eapply dinv_avoids. }
  rewrite <- Hb in Hxr. rewrite <- Em, <- Em' in Hn. rewrite <- Em' in Hf'.
  assert (Hr' : retired (rm w') ≡ₚ D ++ (retired (pmem (base ρ)) ++ new)) by (by rewrite Hn, Hr, app_assoc).
  assert (Hnow : ∀ a, (a, drop_node) ∈ D ∨ (a, drop_node) ∈ retired (pmem (base ρ)) ++ new → off sl es (rm w') a).
  { intros a Ha. destruct (retired_known _ _ _ _ _ Hq') as [_ Hk]. apply (Hk (a, drop_node)); [|done].
    rewrite Hr'. by apply elem_of_app. }
  assert (Hold : ∀ id w0, id ∈ running σ' → wss' !! id = Some w0 → id ∈ running σ ∧ wss !! id = Some w0 ∨ w0 = w').
  { intros id w0 Hid H0. pose proof (z_starts _ _ _ _ _ _ _ _ _ _ Hq) as Hl.
    destruct (running_event _ _ _ _ Hx Hid) as [Hid'| ->]; destruct Hws as [->| ->].
    - by left.
    - apply lookup_app_Some in H0 as [?|[_ H0]]; [by left|right]. by apply list_lookup_singleton_Some in H0 as [_ ->].
    - apply lookup_lt_Some in H0. lia.
    - right. rewrite <- Hl, list_lookup_middle in H0 by done. by injection H0. }
  cbn [rpool_event]. rewrite Hxr. cbn [rbind pmem]. eexists _, σ', w', ls', lin', wss', m1'. split; [reflexivity|].
  split; simpl; [done|done|done|done|..].
  - rewrite !length_app, length_replicate, Hw. lia.
  - intros a id w0 Ha Hid H0. destruct (Hold id w0 Hid H0) as [[Hid' H0']| ->]; [by eapply Hg|auto].
  - intros j a W id w0 Hj HW Hid Hn' H0. destruct (Hold id w0 Hid H0) as [[Hid' H0']| ->].
    2:{ apply Hnow. right. by eapply list_elem_of_lookup_2. }
    apply lookup_app_Some in HW as [HW|[Hge HW]].
    + rewrite lookup_app_l in Hj by (rewrite <- Hw; by eapply lookup_lt_Some). by eapply Hwt.
    + apply lookup_replicate in HW as [-> _]. rewrite Hb in Hn'. done.
Qed.

(** Time passes, for the pool and for its shadow. *)
Lemma dinv_tick ρ σ w ls lin wss D m1 :
  dinv ρ σ w ls lin wss D m1 →
  dinv (mkRpool (tick (base ρ)) (wits ρ)) (tick σ) (rnext w (rm w)) ls lin wss D m1.
Proof.
  intros [Hq Hb Hf Hr Hw Hg Hwt]. split; simpl; [by apply rpinv_idle| |done..].
  rewrite Hb. done.
Qed.

(** The domain frees a record. *)
Lemma dinv_reclaim ρ σ w ls lin wss D m1 i :
  dinv ρ σ w ls lin wss D m1 →
  ∃ ρ' w' D' m1', rpool_event fuel sl (Reclaim i) ρ = Ok ρ' ∧ dinv ρ' (tick σ) w' ls lin wss D' m1'.
Proof.
  intros Hd. pose proof (dinv_tick _ _ _ _ _ _ _ _ Hd) as Ht. cbn [rpool_event].
  destruct (wits ρ !! i) as [W|] eqn:HW; [|by eauto 10].
  destruct (forallb _ _) eqn:Hall; [|by eauto 10]. rewrite forallb_forall in Hall.
  destruct (dinv_known _ _ _ _ _ _ _ _ Hd) as [Hnd Hk]. pose proof Hd as [Hq Hb Hf Hr Hw Hg Hwt].
  pose proof (z_inv _ _ _ _ _ _ _ _ _ _ Hq) as (M & _ & Hi).
  destruct (lookup_lt_is_Some_2 (retired (pmem (base ρ))) i) as [[p f] Hp].
  { rewrite <- Hw. by eapply lookup_lt_Some. }
  pose proof (list_elem_of_lookup_2 _ _ _ Hp) as Hin.
  destruct (droppable (rm w) D m1 p f) as [m2 Hm2]; [apply (ri_nodes _ _ _ _ _ _ _ Hi)|apply (ri_values _ _ _ _ _ _ _ Hi)
    |done|intros y Hy; apply Hk; by left|apply Hk; by right| |].
  { apply NoDup_app in Hnd as (_ & Hnd & _). intros Hx. by apply (Hnd _ Hx). }
  set (R := retired (pmem (base ρ))) in *.
  assert (Hpm : pmem (base ρ) = set_retired m1 R) by (by rewrite Hb).
  rewrite Hpm, (reclaim_dropped i p f m1 m2 R Hp Hm2). cbn [rbind].
  eexists _, _, ((p, f) :: D), m2. split; [reflexivity|].
  split; simpl; [apply Ht| |by econstructor| | | |].
  - by rewrite Hb.
  - etrans; [exact Hr|]. etrans; [apply Permutation_app_head, (delete_Permutation R i (p, f) Hp)|].
    symmetry. apply Permutation_middle.
  - rewrite !length_delete by eauto. lia.
  - intros a id w0 [[= -> <-]|Ha]%elem_of_cons Hid H0; [|by eapply Hg]. eapply Hwt; [exact Hp|done|done| |done].
    assert (Hid' : id ∈ running (base ρ)) by (by rewrite Hb). apply list_elem_of_In, Hall in Hid'.
    by apply bool_decide_eq_true in Hid'.
  - intros j a W' id w0 Hj HW'. destruct (decide (j < i)%nat) as [Hlt|Hge].
    + rewrite list_lookup_delete_lt in Hj by done. rewrite list_lookup_delete_lt in HW' by done. by eapply Hwt.
    + rewrite list_lookup_delete_ge in Hj by lia. rewrite list_lookup_delete_ge in HW' by lia. by eapply Hwt.
Qed.

Lemma dinv_exec evs : ∀ ρ σ w ls lin wss D m1,
  inserts (calls_of evs) = 0%nat → dinv ρ σ w ls lin wss D m1 →
  ∃ ρ' σ' w' ls' lin' wss' D' m1', rpool_exec fuel sl evs ρ = Ok ρ' ∧ dinv ρ' σ' w' ls' lin' wss' D' m1'.
Proof.
  induction evs as [|e evs IH]; intros ρ σ w ls lin wss D m1 Hno Hd; [by eauto 15|].
  destruct e as [e|i]; cbn [rpool_exec].
  - unfold inserts in Hno. simpl in Hno.
    destruct (dinv_run ρ σ w ls lin wss D m1 e Hd) as (ρ1 & σ1 & w1 & ls1 & lin1 & wss1 & m2 & -> & Hd1); [lia|].
    cbn [rbind]. eapply IH; [unfold inserts; lia|exact Hd1].
  - destruct (dinv_reclaim ρ σ w ls lin wss D m1 i Hd) as (ρ1 & w1 & D1 & m2 & -> & Hd1).
    cbn [rbind]. by eapply IH.
Qed.

End domain.

Lemma dinv_start sl tl m es G gv n : rep sl tl m es G gv →
  dinv sl tl m es (rpool_start n m) (pool_start n m) (mkRW m [abs es] []) (replicate n (mkRloc None 0 [] None)) ∅
    [] [] m.
Proof.
  intros Hrep. split; simpl; [by eapply rpinv_start|by destruct m|constructor|done|by rewrite length_replicate|..].
  - by intros a id w0 ?%elem_of_nil.
  - intros j a W id w0 _ _ (i & p & Hi)%elem_of_running. simpl in Hi. by apply lookup_replicate in Hi as [? _].
Qed.

Lemma linearized_mem M0 σ h lin m :
  linearized M0 σ h lin → linearized M0 (mkPool (threads σ) (ops σ) (time σ) m) h lin.
Proof. intros [H1 H2 H3 H4 H5 H6]. by split. Qed.

(** [C3] Removals and lookups that run at the same time, while retired nodes and
    values are freed under them, are linearizable and never touch freed memory:
    from any quiescent skiplist, for any number of threads, any calls (no
    insertion among them), any interleaving of their atomic accesses and any
    choice of moments at which the domain frees a retired record none of whose
    witnesses still runs, no access faults (none reads or writes a freed cell,
    nothing is freed twice) and no loop runs out of rounds; the map loses a key
    exactly at the effect of a removal, one effect per removal, between its call
    and its return, and that removal returns true; a removal that returns false
    found its key absent, and a lookup returns what the map held, at some instant
    between its call and its return. At any time the records that wait are
    distinct and no traversal from the head meets a retired node, at any level;
    and when all calls have returned the memory is a quiescent skiplist that
    holds the final map, everything else in it being retired. *)
Theorem removals_reclaimed (sl : SkipList) (tl : Z) (m : Mem) (es G : list entry)
    (gv : list Z) (n fuel : nat) (evs : list revent)
    (Hrep : rep sl tl m es G gv)
    (Hfuel : (pot_bound sl es + length es + 3 ≤ fuel)%nat)
    (Hno : inserts (calls_of evs) = 0%nat) :
  ∃ ρ h lin, rpool_exec fuel sl evs (rpool_start n m) = Ok ρ ∧
    linearized (abs es) (base ρ) h lin ∧
    NoDup (retired (pmem (base ρ))) ∧
    (∀ a l, (a, drop_node) ∈ retired (pmem (base ρ)) → (l ≤ max_level sl)%nat →
       ¬ reach sl es (pmem (base ρ)) l a) ∧
    (Forall (λ th, th = None) (threads (base ρ)) →
     ∃ es' G' gv', rep sl tl (pmem (base ρ)) es' G' gv' ∧ last h = Some (abs es')).
Proof.
  destruct (dinv_exec sl tl m es G gv Hrep fuel Hfuel evs _ _ _ _ _ _ _ _ Hno (dinv_start sl tl m es G gv n Hrep))
    as (ρ & σ & w & ls & lin & wss & D & m1 & Hx & Hd).
  destruct (dinv_known sl tl m es G gv Hrep _ _ _ _ _ _ _ _ Hd) as [Hnd Hk].
  destruct Hd as [Hq Hb Hf Hr _ _ _]. set (R := retired (pmem (base ρ))) in *.
  exists ρ, (rhist w), lin. split_and!; [done| |by apply NoDup_app in Hnd as (_ & _ & Hnd)|..].
  - rewrite Hb. apply linearized_mem, Hq.
  - intros a l Ha Hl Hra. destruct (Hk (a, drop_node) (or_intror Ha)) as [_ Hoff]. apply (Hoff a eq_refl l Hl).
    rewrite Hb in Hra. clear -Hra Hf. induction Hra as [|p v _ IH Hp Hv]; [constructor|].
    apply (reach_next _ _ _ _ p); [done|done|]. by apply (freed_sub _ _ _ Hf).
  - intros Hidle. destruct (rpinv_settled sl tl m es G gv _ σ w ls lin wss Hrep Hq) as (es' & G' & Hr' & HM).
    { by rewrite Hb in Hidle. }
    destruct (freed_rep _ _ _ _ _ _ _ _ Hf R Hr' Hr) as (G2 & gv2 & H2). exists es', G2, gv2. split; [|done].
    by rewrite Hb.
Qed.

(** ** Witness: a lookup keeps a removed node alive

    Thread 2 is about to read the node that thread 0 removes and retires; the
    domain may free it only after thread 2 has returned. *)

Definition reader_waits : list revent :=
  Run <$> [Invoke 2 (CGet [7])] ++ replicate 8 (Step 2) ++ [Invoke 0 (CRemove [7])] ++ replicate 40 (Step 0).
Definition reader_done : list revent := Run <$> replicate 30 (Step 2).

Definition freed_view (evs : list revent) : res (list (option (nat * out)) * option Node * list (Z * drop_fn)) :=
  ρ ←r rpool_exec 60 rem_list evs (rpool_start 3 rem_mem);
  Ok (o_res <$> ops (base ρ), nodes (pmem (base ρ)) !! 360, retired (pmem (base ρ))).

(** The wait is needed: freed at once, the node is read after it is gone. *)
Lemma early_free_faults :
  (ρ ←r rpool_exec 60 rem_list reader_waits (rpool_start 3 rem_mem);
   m ←r reclaim 0 (pmem (base ρ));
   pool_event 60 rem_list (Step 2) (mkPool (threads (base ρ)) (ops (base ρ)) (time (base ρ)) m)) = Err UB.
Proof. vm_compute. reflexivity. Qed.

Lemma removals_reclaimed_witness :
  let node := mkNode (fin [7]) 344 1 in
  freed_view (reader_waits ++ [Reclaim 0])
    = Ok ([None; Some (36%nat, OBool true)], Some node, [(360, drop_node)]) ∧
  freed_view (reader_waits ++ [Reclaim 0] ++ reader_done ++ [Reclaim 0])
    = Ok ([Some (52%nat, OBytes (Some [70])); Some (36%nat, OBool true)], None, []) ∧
  ∃ es ρ h lin, rpool_exec 60 rem_list (reader_waits ++ [Reclaim 0] ++ reader_done ++ [Reclaim 0])
      (rpool_start 3 rem_mem) = Ok ρ ∧
    abs es = {[ [7] := [70]; [8] := [80] ]} ∧ linearized (abs es) (base ρ) h lin.
Proof.
  split; [vm_compute; reflexivity|]. split; [vm_compute; reflexivity|].
  destruct rem_mem_rep as (es & gv & Hr & Ha & Hl).
  destruct (removals_reclaimed rem_list 176 rem_mem es [] gv 3 60
    (reader_waits ++ [Reclaim 0] ++ reader_done ++ [Reclaim 0]) Hr) as (ρ & h & lin & Hx & HL & _).
  - unfold pot_bound. cbn [max_level rem_list]. destruct (length es) as [|[|[|]]]; lia.
  - reflexivity.
  - exists es, ρ, h, lin. split; [exact Hx|split; [exact Ha|exact HL]].
Defined.
