(* ===== verification/Ebr.v ===== *)
(** * Ebr: epoch-based reclamation

    Models [crates/zerokv/src/ebr.rs]. Every thread is a program counter over
    the atomic accesses of [pin] (with the slot registration of [local_slot]),
    [retire], [Guard::drop] and [try_collect]/[reclaim_bag]; [step] lets one
    thread make one access, so an execution is a sequence of [(thread, action)]
    pairs under sequential consistency. A bag is the list its Treiber stack
    holds; a push is the CAS that succeeds. Local computation between two
    accesses happens with the access before it. *)

From S2P Require Import Prelude.
Local Open Scope Z_scope.
Local Open Scope zkv_scope.

Definition N_SLOTS : nat := 4096.
Definition N_BAGS : nat := 3.
Definition FREE : Z := W64 - 1.
Definition UNPINNED : Z := Z.shiftl 1 62.
Definition COLLECT_INTERVAL : Z := 128.

(** [struct Retired], with the guards that were live when it was tagged, which
    only the theorems look at. *)
Record Retired : Type := mkRetired {
  ptr : Z;
  drop_fn : Z;
  r_epoch : Z;
  wit : list nat
}.

(** [struct Guard]: its slot, and for the theorems an identity and the global
    epoch when its slot was published. *)
Record Guard : Type := mkGuard {
  idx : nat;
  gid : nat;
  g_epoch : Z
}.

Record Domain : Type := mkDomain {
  epoch : Z;
  slots : list Z;
  bags : list (list Retired);
  hwm : nat
}.

(** [Domain::new]. *)
Definition Domain_new : Domain :=
  mkDomain 0 (replicate N_SLOTS FREE) (replicate N_BAGS []) 0.

(** ** Program counters *)

(** Where a thread is inside [try_collect] and [reclaim_bag]. *)
Inductive cpc : Type :=
| CLoadEpoch
| CLoadHwm (g : Z)
| CScan (g : Z) (h i : nat)
| CAdvance (g : Z)
| CLoadCur
| CSwap (cur : Z) (b : nat)
| CSweep (cur : Z) (b : nat) (node keep : list Retired)
| CRepush (cur : Z) (b : nat) (keep : list Retired).

Inductive tpc : Type :=
| Ready
| Claim (i : nat)
| SetHwm (i : nat)
| PinLoad
| PinStore (e : Z)
| RetireLoad (p f : Z)
| RetirePush (r : Retired)
| Collect (c : cpc).

(** A thread, with its two thread-locals [SLOT] and [TICK] and the guards it
    holds, most recent first. *)
Record Thread : Type := mkThread {
  pc : tpc;
  slot : option nat;
  tick : Z;
  guards : list Guard
}.

Record State : Type := mkState {
  dom : Domain;
  threads : list Thread;
  next_gid : nat;
  freed : list Retired
}.

Definition init (n : nat) : State :=
  mkState Domain_new (replicate n (mkThread Ready None 0 [])) 0 [].

Definition live_gids (s : State) : list nat := mjoin ((λ th, gid <$> guards th) <$> threads s).

(** ** try_collect *)

Definition set_bag (d : Domain) (b : nat) (l : list Retired) : Domain :=
  mkDomain (epoch d) (slots d) (<[b := l]> (bags d)) (hwm d).
Definition set_slots (d : Domain) (ss : list Z) : Domain :=
  mkDomain (epoch d) ss (bags d) (hwm d).

(** [u64::saturating_add]. *)
Definition saturating_add (x y : Z) : Z := Z.min (x + y) (W64 - 1).
Definition eligible (cur : Z) (r : Retired) : bool := saturating_add (r_epoch r) 2 <=? cur.

(** [pinned && v != g] of the slot scan. *)
Definition blocks (g v : Z) : bool :=
  negb (v =? FREE) && negb (v =? UNPINNED) && negb (v =? g).

(** One access of a collection: the next counter ([None] when [try_collect]
    returns), the domain, and the records freed. *)
Definition coll_step (c : cpc) (d : Domain) : option cpc * Domain * list Retired :=
  match c with
  | CLoadEpoch => (Some (CLoadHwm (epoch d)), d, [])
  | CLoadHwm g => (Some (CScan g (Nat.min (hwm d) (N_SLOTS - 1)) 0), d, [])
  | CScan g h i =>
    if (h <? i)%nat then (Some (CAdvance g), d, [])
    else if blocks g (default FREE (slots d !! i)) then (Some CLoadCur, d, [])
    else (Some (CScan g h (S i)), d, [])
  | CAdvance g =>
    (Some CLoadCur,
     if epoch d =? g then mkDomain (wadd g 1) (slots d) (bags d) (hwm d) else d, [])
  | CLoadCur => (Some (CSwap (epoch d) 0), d, [])
  | CSwap cur b =>
    if (N_BAGS <=? b)%nat then (None, d, [])
    else (Some (CSweep cur b (default [] (bags d !! b)) []), set_bag d b [], [])
  | CSweep cur b [] keep => (Some (CRepush cur b keep), d, [])
  | CSweep cur b (r :: node) keep =>
    if eligible cur r then (Some (CSweep cur b node keep), d, [r])
    else (Some (CSweep cur b node (r :: keep)), d, [])
  | CRepush cur b [] => (Some (CSwap cur (S b)), d, [])
  | CRepush cur b (r :: keep) =>
    (Some (CRepush cur b keep), set_bag d b (r :: default [] (bags d !! b)), [])
  end.

(** ** Threads *)

(** What a thread with nothing in progress does next. *)
Inductive action : Type :=
| DoPin
| DoRetire (p f : Z)
| DoDrop (k : nat)
| DoCollect
| Continue.

Definition set_pc (th : Thread) (p : tpc) : Thread := mkThread p (slot th) (tick th) (guards th).

(** The entry of [pin]: [local_slot] returns the cached slot or probes. *)
Definition pin_entry (th : Thread) : tpc :=
  match slot th with
  | Some _ => PinLoad
  | None => Claim 0
  end.

Definition thread_step (a : action) (th : Thread) (s : State)
    : option (res (Thread * Domain * nat * list Retired)) :=
  let d := dom s in
  let ret th' d' := Some (Ok (th', d', next_gid s, [])) in
  match pc th, a with
  | Ready, DoPin => ret (set_pc th (pin_entry th)) d
  | Ready, DoRetire p f =>
    match guards th with
    | [] => None
    | _ => ret (set_pc th (RetireLoad p f)) d
    end
  | Ready, DoDrop k =>
    match guards th !! k with
    | None => None
    | Some g =>
      let n := (tick th + 1) mod 2 ^ 32 in
      ret (mkThread (if n mod COLLECT_INTERVAL =? 0 then Collect CLoadEpoch else Ready)
             (slot th) n (delete k (guards th)))
          (set_slots d (<[idx g := UNPINNED]> (slots d)))
    end
  | Ready, DoCollect => ret (set_pc th (Collect CLoadEpoch)) d
  | Claim i, Continue =>
    match slots d !! i with
    | None => Some (Err Panic)
    | Some v =>
      if v =? FREE
      then ret (mkThread (SetHwm i) (Some i) (tick th) (guards th))
               (set_slots d (<[i := UNPINNED]> (slots d)))
      else ret (set_pc th (Claim (S i))) d
    end
  | SetHwm i, Continue =>
    ret (set_pc th PinLoad) (mkDomain (epoch d) (slots d) (bags d) (Nat.max (hwm d) i))
  | PinLoad, Continue => ret (set_pc th (PinStore (epoch d))) d
  | PinStore e, Continue =>
    match slot th with
    | None => None
    | Some i =>
      Some (Ok (mkThread Ready (slot th) (tick th) (mkGuard i (next_gid s) (epoch d) :: guards th),
                set_slots d (<[i := e]> (slots d)), S (next_gid s), []))
    end
  | RetireLoad p f, Continue =>
    ret (set_pc th (RetirePush (mkRetired p f (epoch d) (live_gids s)))) d
  | RetirePush r, Continue =>
    let b := Z.to_nat (r_epoch r mod Z.of_nat N_BAGS) in
    ret (set_pc th Ready) (set_bag d b (r :: default [] (bags d !! b)))
  | Collect c, Continue =>
    let '(c', d', fs) := coll_step c d in
    Some (Ok (set_pc th (match c' with Some c' => Collect c' | None => Ready end),
              d', next_gid s, fs))
  | _, _ => None
  end.

Definition step (t : nat) (a : action) (s : State) : option (res State) :=
  match threads s !! t with
  | None => None
  | Some th =>
    match thread_step a th s with
    | None => None
    | Some (Err f) => Some (Err f)
    | Some (Ok (th', d', n, fs)) =>
      Some (Ok (mkState d' (<[t := th']> (threads s)) n (freed s ++ fs)))
    end
  end.

(** An execution, from a schedule. *)
Fixpoint run_steps (sched : list (nat * action)) (s : State) : option (res State) :=
  match sched with
  | [] => Some (Ok s)
  | (t, a) :: sched =>
    match step t a s with
    | Some (Ok s') => run_steps sched s'
    | o => o
    end
  end.

(** ** Disciplined executions

    At most one guard per thread at a time; [n] counts the steps. *)

Definition disciplined (t : nat) (a : action) (s : State) : Prop :=
  a = DoPin → ∀ th, threads s !! t = Some th → guards th = [].

Inductive reachable (threads0 : nat) : nat → State → Prop :=
| reach_init : reachable threads0 0 (init threads0)
| reach_step n s t a s' :
    reachable threads0 n s → disciplined t a s → step t a s = Some (Ok s') →
    reachable threads0 (S n) s'.

Definition is_live (s : State) (g : Guard) : Prop :=
  ∃ t th, threads s !! t = Some th ∧ g ∈ guards th.

(** ** Invariant *)

Definition coll_ok (d : Domain) (c : cpc) : Prop :=
  match c with
  | CLoadHwm g | CScan g _ _ | CAdvance g => 0 ≤ g ≤ epoch d
  | CSwap cur _ | CSweep cur _ _ _ | CRepush cur _ _ => cur ≤ epoch d
  | _ => True
  end.

Definition pc_ok (d : Domain) (th : Thread) : Prop :=
  match pc th with
  | Claim _ => slot th = None ∧ guards th = []
  | SetHwm i => slot th = Some i ∧ guards th = []
  | PinLoad => is_Some (slot th) ∧ guards th = []
  | PinStore e => is_Some (slot th) ∧ guards th = [] ∧ 0 ≤ e ≤ epoch d
  | Collect c => coll_ok d c
  | _ => True
  end.

Definition slot_ok (d : Domain) (th : Thread) : Prop :=
  ∀ i, slot th = Some i → (i < N_SLOTS)%nat ∧
    (pc th = SetHwm i ∨ (i ≤ hwm d)%nat) ∧ ∃ v, slots d !! i = Some v ∧ v ≠ FREE.

(** A live guard keeps the global epoch within one of the epoch at which its
    slot was published. *)
Definition guard_ok (d : Domain) (th : Thread) (g : Guard) : Prop :=
  guards th = [g] ∧ slot th = Some (idx g) ∧
  (∃ v, slots d !! idx g = Some v ∧ 0 ≤ v ≤ g_epoch g) ∧
  g_epoch g ≤ epoch d ≤ g_epoch g + 1.

Record local_ok (d : Domain) (th : Thread) : Prop := mkLocalOk {
  l_pc : pc_ok d th;
  l_slot : slot_ok d th;
  l_guard : ∀ g, g ∈ guards th → guard_ok d th g
}.

(** A collection that may still advance the epoch past [g]'s has [g]'s slot
    ahead of it. *)
Definition sees (g : Guard) (p : tpc) : Prop :=
  match p with
  | Collect (CScan e h i) => e ≤ g_epoch g ∨ (i ≤ idx g ≤ h)%nat
  | Collect (CAdvance e) => e ≤ g_epoch g
  | _ => True
  end.

Definition pc_recs (p : tpc) : list Retired :=
  match p with
  | RetirePush r => [r]
  | Collect (CSweep _ _ node keep) => node ++ keep
  | Collect (CRepush _ _ keep) => keep
  | _ => []
  end.

Definition in_bags (d : Domain) (r : Retired) : Prop := ∃ b l, bags d !! b = Some l ∧ r ∈ l.

(** Retired, not yet freed. *)
Definition rec_ok (s : State) (r : Retired) : Prop :=
  0 ≤ r_epoch r ∧ (∀ x, x ∈ wit r → (x < next_gid s)%nat) ∧
  ∀ g, is_live s g → gid g ∈ wit r → g_epoch g ≤ r_epoch r.

(** Freed: no guard that was live at the retire still is. *)
Definition dead_ok (s : State) (r : Retired) : Prop :=
  (∀ x, x ∈ wit r → (x < next_gid s)%nat) ∧ ∀ g, is_live s g → gid g ∉ wit r.

Record Inv (n : nat) (s : State) : Prop := mkInv {
  i_epoch : 0 ≤ epoch (dom s) ≤ Z.of_nat n;
  i_slots : length (slots (dom s)) = N_SLOTS;
  i_local : ∀ t th, threads s !! t = Some th → local_ok (dom s) th;
  i_inj : ∀ t t' th th' i, threads s !! t = Some th → threads s !! t' = Some th' →
    slot th = Some i → slot th' = Some i → t = t';
  i_gid : ∀ g, is_live s g → (gid g < next_gid s)%nat;
  i_sees : ∀ g t th, is_live s g → threads s !! t = Some th → sees g (pc th);
  i_bags : ∀ r, in_bags (dom s) r → rec_ok s r;
  i_recs : ∀ t th r, threads s !! t = Some th → r ∈ pc_recs (pc th) → rec_ok s r;
  i_freed : ∀ r, r ∈ freed s → dead_ok s r
}.

Lemma live_guard_ok n s g :
  Inv n s → is_live s g → ∃ t th, threads s !! t = Some th ∧ g ∈ guards th ∧ guard_ok (dom s) th g.
Proof.
  intros Hi (t & th & Ht & Hg). exists t, th. split; [done|]. split; [done|].
  by apply (l_guard _ _ (i_local _ _ Hi t th Ht)).
Qed.

Lemma ebr_init_inv k : Inv 0 (init k).
Proof.
  assert (Hth : ∀ t th, threads (init k) !! t = Some th → th = mkThread Ready None 0 []).
  { intros t th Ht. simpl in Ht. by apply lookup_replicate in Ht as [-> _]. }
  assert (Hlive : ∀ g, ¬ is_live (init k) g).
  { intros g (t & th & Ht & Hg). apply Hth in Ht as ->. by apply elem_of_nil in Hg. }
  split.
  - simpl. lia.
  - apply length_replicate.
  - intros t th ->%Hth. split; [done|done|]. simpl. by intros g ?%elem_of_nil.
  - intros t t' th th' i ->%Hth _ Hs. done.
  - intros g Hg. by apply Hlive in Hg.
  - intros g t th Hg. by apply Hlive in Hg.
  - intros r (b & l & Hb & Hr). simpl in Hb.
    destruct b as [|[|[|b]]]; simplify_eq/=; by apply elem_of_nil in Hr.
  - intros t th r ->%Hth Hr. by apply elem_of_nil in Hr.
  - intros r Hr. by apply elem_of_nil in Hr.
Qed.

Lemma local_ok_mono d d' th :
  slots d' = slots d → epoch d' = epoch d → (hwm d ≤ hwm d')%nat →
  local_ok d th → local_ok d' th.
Proof.
  intros Hs He Hh [Hp Hsl Hg]. split.
  - unfold pc_ok, coll_ok in *. rewrite He. exact Hp.
  - intros i Hi. destruct (Hsl i Hi) as (H1 & H2 & H3). rewrite Hs. split; [done|].
    split; [|done]. destruct H2 as [?|?]; [by left|right; lia].
  - intros g Hin. unfold guard_ok in *. rewrite Hs, He. by apply Hg.
Qed.

(** A state with one thread replaced. *)
Lemma lookup_thread (s : State) t th th' t' x :
  threads s !! t = Some th → <[t := th']> (threads s) !! t' = Some x →
  (t' = t ∧ x = th') ∨ (t' ≠ t ∧ threads s !! t' = Some x).
Proof. intros Ht Hx. apply list_lookup_insert_Some in Hx. naive_solver. Qed.

Lemma live_same s t th th' d n fs g :
  threads s !! t = Some th → guards th' = guards th →
  is_live (mkState d (<[t := th']> (threads s)) n fs) g ↔ is_live s g.
Proof.
  intros Ht Hgs. split; intros (t' & x & Hx & Hg); simpl in *.
  - destruct (lookup_thread s t th th' t' x Ht Hx) as [[-> ->]|[? ?]].
    + exists t, th. by rewrite <- Hgs.
    + by exists t', x.
  - destruct (decide (t' = t)) as [->|Hne].
    + exists t, th'. simpl. rewrite list_lookup_insert_eq by (by eapply lookup_lt_Some).
      simplify_eq. by rewrite Hgs.
    + exists t', x. simpl. by rewrite list_lookup_insert_ne.
Qed.

(** Steps that leave slots, guards and the epoch alone. *)
Lemma inv_frame n s t th p d' fs :
  Inv n s → threads s !! t = Some th →
  slots d' = slots (dom s) → epoch d' = epoch (dom s) → (hwm (dom s) ≤ hwm d')%nat →
  local_ok d' (set_pc th p) →
  (∀ g, is_live s g → sees g p) →
  (∀ r, r ∈ pc_recs p → rec_ok s r) → (∀ r, in_bags d' r → rec_ok s r) →
  (∀ r, r ∈ fs → dead_ok s r) →
  Inv (S n) (mkState d' (<[t := set_pc th p]> (threads s)) (next_gid s) (freed s ++ fs)).
Proof.
  intros Hi Ht Hsl He Hh Hloc Hsee Hrec Hbag Hfs.
  assert (Hlive : ∀ g, is_live (mkState d' (<[t := set_pc th p]> (threads s)) (next_gid s)
    (freed s ++ fs)) g ↔ is_live s g) by (intros g; by apply (live_same s t th)).
  assert (Hrok : ∀ r, rec_ok s r → rec_ok (mkState d' (<[t := set_pc th p]> (threads s))
    (next_gid s) (freed s ++ fs)) r).
  { intros r (H1 & H2 & H3). split; [done|]. split; [done|]. intros g Hg%Hlive. by apply H3. }
  assert (Hdok : ∀ r, dead_ok s r → dead_ok (mkState d' (<[t := set_pc th p]> (threads s))
    (next_gid s) (freed s ++ fs)) r).
  { intros r (H1 & H2). split; [done|]. intros g Hg%Hlive. by apply H2. }
  split; simpl.
  - rewrite He. pose proof (i_epoch _ _ Hi). lia.
  - rewrite Hsl. apply (i_slots _ _ Hi).
  - intros t' x Hx. destruct (lookup_thread s t th _ t' x Ht Hx) as [[-> ->]|[? Hx']]; [done|].
    eapply local_ok_mono; [done..|]. by eapply i_local.
  - intros t1 t2 x1 x2 i H1 H2 Hs1 Hs2.
    destruct (lookup_thread s t th _ _ _ Ht H1) as [[-> ->]|[? H1']];
      destruct (lookup_thread s t th _ _ _ Ht H2) as [[-> ->]|[? H2']]; try done;
      eapply (i_inj _ _ Hi); done.
  - intros g Hg%Hlive. by apply (i_gid _ _ Hi).
  - intros g t' x Hg%Hlive Hx.
    destruct (lookup_thread s t th _ t' x Ht Hx) as [[-> ->]|[? Hx']]; [by apply Hsee|].
    by eapply (i_sees _ _ Hi).
  - intros r Hr. by apply Hrok, Hbag.
  - intros t' x r Hx Hr. apply Hrok.
    destruct (lookup_thread s t th _ t' x Ht Hx) as [[-> ->]|[? Hx']]; [by apply Hrec|].
    by eapply (i_recs _ _ Hi).
  - intros r Hr. apply Hdok. apply elem_of_app in Hr as [Hr|Hr]; [|by apply Hfs].
    by apply (i_freed _ _ Hi).
Qed.

(** Advancing the epoch: the scan found every live guard at the epoch. *)
Lemma inv_advance n s t th :
  Inv n s → Z.of_nat n < 2 ^ 62 → threads s !! t = Some th →
  pc th = Collect (CAdvance (epoch (dom s))) →
  Inv (S n) (mkState
    (mkDomain (wadd (epoch (dom s)) 1) (slots (dom s)) (bags (dom s)) (hwm (dom s)))
    (<[t := set_pc th (Collect CLoadCur)]> (threads s)) (next_gid s) (freed s ++ [])).
Proof.
  intros Hi Hn Ht Hpc. pose proof (i_epoch _ _ Hi) as He.
  rewrite wadd_small by (unfold is_u64, W64; lia). set (d' := mkDomain _ _ _ _).
  assert (Hge : ∀ g, is_live s g → epoch (dom s) ≤ g_epoch g).
  { intros g Hg. pose proof (i_sees _ _ Hi g t th Hg Ht) as Hs. rewrite Hpc in Hs. exact Hs. }
  assert (Hlm : ∀ t' x p, threads s !! t' = Some x → pc_ok d' (set_pc x p) →
    (∀ i, pc x = SetHwm i → p = SetHwm i) → local_ok d' (set_pc x p)).
  { intros t' x p Hx Hp Hset. destruct (i_local _ _ Hi t' x Hx) as [_ Hsl Hg]. split; [done| |].
    - intros i Hsi. destruct (Hsl i Hsi) as (H1 & H2 & H3). split; [done|]. split; [|done].
      destruct H2 as [H2|H2]; [left; by apply Hset|by right].
    - intros g Hin. destruct (Hg g Hin) as (H1 & H2 & H3 & H4).
      split_and!; try done; unfold d'; simpl; [lia|].
      assert (epoch (dom s) ≤ g_epoch g) by (apply Hge; by exists t', x). lia. }
  assert (Hlive : ∀ g, is_live (mkState d' (<[t := set_pc th (Collect CLoadCur)]> (threads s))
    (next_gid s) (freed s ++ [])) g ↔ is_live s g) by (intros g; by apply (live_same s t th)).
  split; simpl.
  - lia.
  - apply (i_slots _ _ Hi).
  - intros t' x Hx. destruct (lookup_thread s t th _ t' x Ht Hx) as [[-> ->]|[? Hx']].
    + apply (Hlm t); [done|done|]. rewrite Hpc. done.
    + destruct (i_local _ _ Hi t' x Hx') as [Hp _ _].
      assert (Hx2 : x = set_pc x (pc x)) by (by destruct x). rewrite Hx2.
      apply (Hlm t'); [done| |done]. unfold pc_ok, coll_ok, d' in *. simpl in *.
      repeat case_match; naive_solver lia.
  - intros t1 t2 x1 x2 i H1 H2 Hs1 Hs2.
    destruct (lookup_thread s t th _ _ _ Ht H1) as [[-> ->]|[? H1']];
      destruct (lookup_thread s t th _ _ _ Ht H2) as [[-> ->]|[? H2']]; try done;
      eapply (i_inj _ _ Hi); done.
  - intros g Hg%Hlive. by apply (i_gid _ _ Hi).
  - intros g t' x Hg%Hlive Hx.
    destruct (lookup_thread s t th _ t' x Ht Hx) as [[-> ->]|[? Hx']]; [done|].
    by eapply (i_sees _ _ Hi).
  - intros r Hr. destruct (i_bags _ _ Hi r Hr) as (H1 & H2 & H3).
    split; [done|]. split; [done|]. intros g Hg%Hlive. by apply H3.
  - intros t' x r Hx Hr.
    destruct (lookup_thread s t th _ t' x Ht Hx) as [[-> ->]|[? Hx']];
      [by apply elem_of_nil in Hr|].
    destruct (i_recs _ _ Hi t' x r Hx' Hr) as (H1 & H2 & H3).
    split; [done|]. split; [done|]. intros g Hg%Hlive. by apply H3.
  - rewrite app_nil_r. intros r Hr. destruct (i_freed _ _ Hi r Hr) as (H1 & H2).
    split; [done|]. intros g Hg%Hlive. by apply H2.
Qed.

(** The grace period: a record two epochs old has outlived its witnesses. *)
Lemma eligible_dead n s r cur :
  Inv n s → Z.of_nat n < 2 ^ 62 → cur ≤ epoch (dom s) → rec_ok s r → eligible cur r = true →
  dead_ok s r.
Proof.
  intros Hi Hn Hcur (H0 & H1 & H2) He. split; [done|]. intros g Hg Hin.
  destruct (live_guard_ok _ _ _ Hi Hg) as (t & th & Ht & Hgi & _ & _ & _ & Hb).
  specialize (H2 g Hg Hin). pose proof (i_epoch _ _ Hi).
  unfold eligible, saturating_add in He. apply Z.leb_le in He. unfold W64 in He. lia.
Qed.

Lemma in_bags_set d b l r :
  in_bags (set_bag d b l) r → r ∈ l ∨ in_bags d r.
Proof.
  intros (b' & l' & Hb & Hr). simpl in Hb. apply list_lookup_insert_Some in Hb.
  destruct Hb as [(<- & <- & _)|[_ Hb]]; [by left|]. right. by exists b', l'.
Qed.

Lemma elem_bag d b r : r ∈ default [] (bags d !! b) → in_bags d r.
Proof.
  destruct (bags d !! b) as [l|] eqn:Hb; simpl; [|by intros ?%elem_of_nil].
  intros Hr. by exists b, l.
Qed.

(** A collection's accesses other than the epoch CAS. *)
(** The scan starts below every live guard's slot and ends above it. *)
Lemma live_below_hwm n s g :
  Inv n s → is_live s g → (idx g ≤ Nat.min (hwm (dom s)) (N_SLOTS - 1))%nat.
Proof.
  intros Hi Hg. destruct (live_guard_ok _ _ _ Hi Hg) as (t & th & Ht & Hgi & _ & Hs & _ & _).
  pose proof (i_local _ _ Hi t th Ht) as [Hp Hsl _].
  destruct (Hsl _ Hs) as (H1 & H2 & _). unfold N_SLOTS in *. apply Nat.min_glb; [|lia].
  destruct H2 as [H2|H2]; [|done]. unfold pc_ok in Hp. rewrite H2 in Hp.
  destruct Hp as [_ Hp]. rewrite Hp in Hgi. by apply elem_of_nil in Hgi.
Qed.

(** A scan at epoch [e] that passes a live guard's slot finds it at [e]. *)
Lemma unblocked_guard n s g e :
  Inv n s → Z.of_nat n < 2 ^ 62 → is_live s g →
  blocks e (default FREE (slots (dom s) !! idx g)) = false → e ≤ g_epoch g.
Proof.
  intros Hi Hn Hg Hb. pose proof (i_epoch _ _ Hi) as He.
  destruct (live_guard_ok _ _ _ Hi Hg) as (t & th & Ht & Hgi & _ & _ & (v & Hv & Hve) & Hee).
  rewrite Hv in Hb. simpl in Hb. unfold blocks in Hb.
  assert (v < 2 ^ 62) by lia. unfold FREE, UNPINNED, W64 in Hb.
  destruct (Z.eqb_spec v (2 ^ 64 - 1)) as [|]; [lia|].
  destruct (Z.eqb_spec v (Z.shiftl 1 62)) as [Hx|]; [change (Z.shiftl 1 62) with (2 ^ 62) in Hx; lia|].
  destruct (Z.eqb_spec v e) as [|]; [lia|done].
Qed.

(** The invariant after one access of a collection. *)
Definition collected (n : nat) (s : State) (t : nat) (th : Thread) (c : cpc) : Prop :=
  let '(c', d', fs) := coll_step c (dom s) in
  Inv (S n) (mkState d'
    (<[t := set_pc th (match c' with Some c' => Collect c' | None => Ready end)]> (threads s))
    (next_gid s) (freed s ++ fs)).

Section collect.
Context (n : nat) (s : State) (t : nat) (th : Thread).
Context (Hi : Inv n s) (Hn : Z.of_nat n < 2 ^ 62) (Ht : threads s !! t = Some th).

Lemma collect_rec c r : pc th = Collect c → r ∈ pc_recs (Collect c) → rec_ok s r.
Proof. intros Hpc Hr. eapply (i_recs _ _ Hi t th); [done|]. by rewrite Hpc. Qed.

Lemma collector_ok c : pc th = Collect c → coll_ok (dom s) c.
Proof. intros Hpc. destruct (i_local _ _ Hi t th Ht) as [Hp _ _]. unfold pc_ok in Hp. by rewrite Hpc in Hp. Qed.

Lemma collect_local c p d' :
  pc th = Collect c → slots d' = slots (dom s) → epoch d' = epoch (dom s) → hwm d' = hwm (dom s) →
  pc_ok (dom s) (set_pc th p) → local_ok d' (set_pc th p).
Proof.
  intros Hpc H1 H2 H3 Hpo. destruct (i_local _ _ Hi t th Ht) as [_ Hsl Hg].
  eapply local_ok_mono; [done|done|lia|]. split; [done| |done].
  intros i Hsi. destruct (Hsl i Hsi) as (S1 & S2 & S3). split; [done|]. split; [|done].
  right. destruct S2 as [S2|S2]; [congruence|done].
Qed.

(** A step that changes the counter, and perhaps a bag. *)
Ltac frame Hpc := apply inv_frame; try done; try (by eapply collect_local);
  try (by intros ? ?%elem_of_nil); try (apply (i_bags _ _ Hi)).

Lemma inv_scan g h i : pc th = Collect (CScan g h i) → collected n s t th (CScan g h i).
Proof.
  intros Hpc. unfold collected. pose proof (collector_ok _ Hpc) as Hp.
  assert (Hsee : ∀ g', is_live s g' → sees g' (Collect (CScan g h i))).
  { intros g' Hgl. pose proof (i_sees _ _ Hi g' t th Hgl Ht) as Hs. by rewrite Hpc in Hs. }
  cbn [coll_step]. destruct (Nat.ltb_spec h i) as [Hlt|Hge].
  - frame Hpc. intros g' Hg'. simpl. destruct (Hsee g' Hg') as [?|?]; [done|lia].
  - destruct (blocks g (default FREE (slots (dom s) !! i))) eqn:Hb; frame Hpc.
    intros g' Hg'. simpl. destruct (Hsee g' Hg') as [?|[Hii Hih]]; [by left|].
    destruct (decide (i = idx g')) as [->|Hne]; [|right; lia]. left. by eapply unblocked_guard.
Qed.

Lemma inv_swap cur b : pc th = Collect (CSwap cur b) → collected n s t th (CSwap cur b).
Proof.
  intros Hpc. unfold collected. pose proof (collector_ok _ Hpc) as Hp. cbn [coll_step].
  destruct (Nat.leb_spec N_BAGS b); frame Hpc.
  - intros r Hr. simpl in Hr. rewrite app_nil_r in Hr. by apply (i_bags _ _ Hi), (elem_bag _ b).
  - intros r Hr. apply in_bags_set in Hr as [?%elem_of_nil|Hr]; [done|by apply (i_bags _ _ Hi)].
Qed.

Lemma inv_sweep cur b node keep :
  pc th = Collect (CSweep cur b node keep) → collected n s t th (CSweep cur b node keep).
Proof.
  intros Hpc. unfold collected. pose proof (collector_ok _ Hpc) as Hp.
  pose proof (λ r, collect_rec _ r Hpc) as Hrec. cbn [coll_step].
  destruct node as [|r node]; [frame Hpc|]. destruct (eligible cur r) eqn:Hel; frame Hpc.
  - intros r' Hr'. apply Hrec. simpl in *. set_solver.
  - intros r' ->%list_elem_of_singleton.
    eapply eligible_dead; [done|done|exact Hp| |done]. apply Hrec. set_solver.
  - intros r' Hr'. apply Hrec. simpl in *. set_solver.
Qed.

Lemma inv_repush cur b keep : pc th = Collect (CRepush cur b keep) → collected n s t th (CRepush cur b keep).
Proof.
  intros Hpc. unfold collected. pose proof (collector_ok _ Hpc) as Hp.
  pose proof (λ r, collect_rec _ r Hpc) as Hrec. cbn [coll_step].
  destruct keep as [|r keep]; frame Hpc.
  - intros r' Hr'. apply Hrec. simpl in *. set_solver.
  - intros r' Hr'. apply in_bags_set in Hr' as [Hr'|Hr']; [|by apply (i_bags _ _ Hi)].
    apply elem_of_cons in Hr' as [->|Hr']; [apply Hrec; set_solver|].
    by apply (i_bags _ _ Hi), (elem_bag _ b).
Qed.

Lemma inv_collect c : pc th = Collect c → collected n s t th c.
Proof.
  intros Hpc. pose proof (collector_ok _ Hpc) as Hp. pose proof (i_epoch _ _ Hi) as He.
  destruct c as [|g|g h i|g| |cur b|cur b node keep|cur b keep];
    [| |by apply inv_scan| | |by apply inv_swap|by apply inv_sweep|by apply inv_repush];
    unfold collected; cbn [coll_step].
  - frame Hpc. eapply collect_local; try done. unfold pc_ok. simpl. lia.
  - frame Hpc. intros g' Hg'. simpl. right. split; [lia|]. by eapply live_below_hwm.
  - destruct (Z.eqb_spec (epoch (dom s)) g) as [<-|Hne]; [by apply inv_advance|frame Hpc].
  - frame Hpc. eapply collect_local; try done. unfold pc_ok. simpl. lia.
Qed.

End collect.

(** The guards of a state in which thread [t] may have pinned. *)
Lemma live_slot s t th th' d ngid fs g :
  threads s !! t = Some th →
  (∀ g, g ∈ guards th' → g ∈ guards th ∨
     (gid g = next_gid s ∧ (next_gid s < ngid)%nat ∧ g_epoch g = epoch (dom s))) →
  is_live (mkState d (<[t := th']> (threads s)) ngid fs) g →
  is_live s g ∨ (gid g = next_gid s ∧ (next_gid s < ngid)%nat ∧ g_epoch g = epoch (dom s)).
Proof.
  intros Ht Hgs (t' & x & Hx & Hg). simpl in Hx.
  destruct (lookup_thread s t th th' t' x Ht Hx) as [[-> ->]|[? Hx']].
  - destruct (Hgs g Hg) as [?|?]; [left; by exists t, th|by right].
  - left. by exists t', x.
Qed.

(** A slot a thread owns or claims is nobody else's. *)
Lemma slot_own n s t th i t' x j :
  Inv n s → threads s !! t = Some th →
  (slot th = Some i ∨ slot th = None ∧ slots (dom s) !! i = Some FREE) →
  t' ≠ t → threads s !! t' = Some x → slot x = Some j → j ≠ i.
Proof.
  intros Hi Ht Hown Hne Hx Hj ->. destruct Hown as [Hown|[_ Hown]].
  - apply Hne. by eapply (i_inj _ _ Hi).
  - destruct (i_local _ _ Hi t' x Hx) as [_ Hs _]. destruct (Hs i Hj) as (_ & _ & w & Hw & Hwn).
    congruence.
Qed.

(** Steps that write the acting thread's own slot: claiming it, publishing an
    epoch (which may create a guard), unpinning. *)
Lemma inv_slot n s t th th' i v ngid' :
  Inv n s → threads s !! t = Some th → slot th' = Some i →
  (slot th = Some i ∨ slot th = None ∧ slots (dom s) !! i = Some FREE) →
  (next_gid s ≤ ngid')%nat →
  (∀ g, g ∈ guards th' → g ∈ guards th ∨
     (gid g = next_gid s ∧ (next_gid s < ngid')%nat ∧ g_epoch g = epoch (dom s))) →
  local_ok (set_slots (dom s) (<[i := v]> (slots (dom s)))) th' →
  (∀ g, sees g (pc th')) → pc_recs (pc th') = [] →
  Inv (S n) (mkState (set_slots (dom s) (<[i := v]> (slots (dom s))))
               (<[t := th']> (threads s)) ngid' (freed s ++ [])).
Proof.
  intros Hi Ht Hsl Hown Hng Hgs Hloc Hsee Hrec. set (s' := mkState _ _ _ _).
  assert (Hlive : ∀ g, is_live s' g → is_live s g ∨
    (gid g = next_gid s ∧ (next_gid s < ngid')%nat ∧ g_epoch g = epoch (dom s)))
    by (intros g; by apply live_slot with (th := th)).
  assert (Hoth : ∀ t' x j, t' ≠ t → threads s !! t' = Some x → slot x = Some j → j ≠ i)
    by (intros t' x j; by eapply slot_own).
  assert (Hrok : ∀ r, rec_ok s r → rec_ok s' r).
  { intros r (H1 & H2 & H3). split; [done|]. split; [intros x Hx%H2; simpl; lia|].
    intros g Hg Hin. destruct (Hlive g Hg) as [?|(Heq & _)]; [by apply H3|].
    rewrite Heq in Hin. apply H2 in Hin. lia. }
  split; simpl.
  - pose proof (i_epoch _ _ Hi). lia.
  - rewrite length_insert. apply (i_slots _ _ Hi).
  - intros t' x Hx. destruct (lookup_thread s t th th' t' x Ht Hx) as [[-> ->]|[Hne Hx']]; [done|].
    destruct (i_local _ _ Hi t' x Hx') as [Hp Hs Hg]. split; [done| |].
    + intros j Hj. destruct (Hs j Hj) as (H1 & H2 & H3). split; [done|]. split; [done|].
      simpl. rewrite list_lookup_insert_ne; [done|]. apply not_eq_sym. by eapply Hoth.
    + intros g Hin. destruct (Hg g Hin) as (H1 & H2 & H3 & H4). split; [done|]. split; [done|].
      split; [|done]. simpl. rewrite list_lookup_insert_ne; [done|]. apply not_eq_sym. by eapply Hoth.
  - intros t1 t2 x1 x2 j H1 H2 Hs1 Hs2.
    destruct (lookup_thread s t th th' _ _ Ht H1) as [[-> ->]|[Hn1 H1']];
      destruct (lookup_thread s t th th' _ _ Ht H2) as [[-> ->]|[Hn2 H2']]; simplify_eq; try done.
    + exfalso. by eapply (Hoth t2 x2).
    + exfalso. by eapply (Hoth t1 x1).
    + by eapply (i_inj _ _ Hi).
  - intros g Hg. destruct (Hlive g Hg) as [Hg'|(-> & ? & _)]; [|lia].
    pose proof (i_gid _ _ Hi g Hg'). lia.
  - intros g t' x Hg Hx.
    destruct (lookup_thread s t th th' t' x Ht Hx) as [[-> ->]|[? Hx']]; [done|].
    destruct (Hlive g Hg) as [Hg'|(_ & _ & He)]; [by eapply (i_sees _ _ Hi)|].
    pose proof (i_local _ _ Hi t' x Hx') as [Hp _ _]. unfold sees, pc_ok, coll_ok in *.
    rewrite He. repeat case_match; naive_solver lia.
  - intros r Hr. apply Hrok. by apply (i_bags _ _ Hi).
  - intros t' x r Hx Hr. apply Hrok.
    destruct (lookup_thread s t th th' t' x Ht Hx) as [[-> ->]|[? Hx']].
    + rewrite Hrec in Hr. by apply elem_of_nil in Hr.
    + by eapply (i_recs _ _ Hi).
  - rewrite app_nil_r. intros r Hr. destruct (i_freed _ _ Hi r Hr) as (H1 & H2).
    split; [intros x Hx%H1; simpl; lia|]. intros g Hg Hin.
    destruct (Hlive g Hg) as [?|(Heq & _)]; [by eapply H2|].
    rewrite Heq in Hin. apply H1 in Hin. lia.
Qed.

Lemma live_gids_spec s x : x ∈ live_gids s ↔ ∃ g, is_live s g ∧ gid g = x.
Proof.
  unfold live_gids. rewrite list_elem_of_join. setoid_rewrite list_elem_of_fmap. split.
  - intros (l & Hx & th & -> & Hth). apply list_elem_of_fmap in Hx as (g & -> & Hg).
    apply list_elem_of_lookup in Hth as [t Ht]. exists g. split; [|done]. by exists t, th.
  - intros (g & (t & th & Ht & Hg) & <-). exists (gid <$> guards th). split.
    + by apply list_elem_of_fmap_2.
    + exists th. split; [done|]. by eapply list_elem_of_lookup_2.
Qed.

(** A new counter over the same slot and guards. *)
Lemma local_ok_pc d th p :
  local_ok d th → (∀ i, pc th ≠ SetHwm i) → pc_ok d (set_pc th p) → local_ok d (set_pc th p).
Proof.
  intros [_ Hsl Hg] Hne Hpo. split; [done| |done]. intros i Hsi. destruct (Hsl i Hsi) as (H1 & H2 & H3).
  split; [done|]. split; [|done]. right. destruct H2 as [H2|H2]; [by apply Hne in H2|done].
Qed.

(** Opens a step of a thread whose counter is known. *)
Ltac enter_step Hi Hn Hd Ht Hpc Hst :=
  match type of Ht with
  | threads ?s !! ?t = Some ?th =>
    pose proof (i_local _ _ Hi t th Ht) as [Hp Hsl Hg];
    assert (Hloc : ∀ p, (∀ i, pc th ≠ SetHwm i) → pc_ok (dom s) (set_pc th p) →
      local_ok (dom s) (set_pc th p)) by
      (intros ?; apply local_ok_pc; exact (i_local _ _ Hi t th Ht));
    pose proof (i_epoch _ _ Hi) as He; pose proof (i_bags _ _ Hi) as Hbags;
    assert (Hnil : ∀ r : Retired, r ∈ [] → dead_ok s r) by (by intros ? ?%elem_of_nil);
    assert (Hnrec : ∀ r : Retired, r ∈ [] → rec_ok s r) by (by intros ? ?%elem_of_nil);
    unfold step in Hst; rewrite Ht in Hst;
    destruct (thread_step _ th s) as [[[[[th' d'] ng] fs]|]|] eqn:Hts; [|done..]; simplify_eq;
    unfold thread_step in Hts; unfold pc_ok in Hp; rewrite Hpc in Hts, Hp, Hloc
  end.

(** A call begins, or a guard is dropped. *)
Lemma ebr_step_ready n s t a s' th :
  Inv n s → Z.of_nat n < 2 ^ 62 → disciplined t a s → threads s !! t = Some th → pc th = Ready →
  step t a s = Some (Ok s') → Inv (S n) s'.
Proof.
  intros Hi Hn Hd Ht Hpc Hst. enter_step Hi Hn Hd Ht Hpc Hst.
  assert (Hns : ∀ i, Ready ≠ SetHwm i) by done.
  destruct a as [|p f|k| |]; simplify_eq/=.
  - apply inv_frame; try done. 
    + apply Hloc; [done|]. unfold pc_ok, pin_entry. specialize (Hd eq_refl th Ht).
      destruct (slot th) eqn:Hsth; simpl; rewrite Hsth; eauto.
    + intros g _. unfold pin_entry. by destruct (slot th).
    + unfold pin_entry. by destruct (slot th).
  - destruct (guards th); simplify_eq/=. apply inv_frame; try done. by apply Hloc.
  - destruct (guards th !! k) as [g|] eqn:Hgk; simplify_eq/=.
    assert (Hgin : g ∈ guards th) by (by eapply list_elem_of_lookup_2).
    destruct (Hg g Hgin) as (Hgs & Hsg & (v & Hv & _) & Hge).
    rewrite Hgs in Hgk. destruct k as [|k]; simplify_eq/=. rewrite Hgs. simpl.
    eapply inv_slot; try done; simpl.
    + by left.
    + intros g' ?%elem_of_nil. done.
    + destruct (Hsl _ Hsg) as (H1 & H2 & _). split; simpl.
      * unfold pc_ok. simpl. by destruct (_ =? 0).
      * intros i Hsi. simpl in *. simplify_eq. split; [done|]. split.
         { right. destruct H2 as [H2|H2]; [congruence|done]. }
         exists UNPINNED. split; [|done]. apply list_lookup_insert_eq.
         by eapply lookup_lt_Some.
      * by intros g' ?%elem_of_nil.
    + intros g'. by destruct (_ =? 0).
    + by destruct (_ =? 0).
  - apply inv_frame; try done. by apply Hloc.
Qed.

(** [local_slot] claims a slot. *)
Lemma ebr_step_claim n s t a s' th i :
  Inv n s → Z.of_nat n < 2 ^ 62 → disciplined t a s → threads s !! t = Some th → pc th = Claim i →
  step t a s = Some (Ok s') → Inv (S n) s'.
Proof.
  intros Hi Hn Hd Ht Hpc Hst. enter_step Hi Hn Hd Ht Hpc Hst.
  destruct a; simplify_eq/=. destruct Hp as [Hps Hpg].
  destruct (slots (dom s) !! i) as [v|] eqn:Hv; [|done].
  destruct (Z.eqb_spec v FREE) as [->|Hvf]; simplify_eq/=.
  - eapply inv_slot; try done; simpl.
    + by right.
    + by left.
    + split; simpl; [done| |].
      * intros j Hj. simplify_eq/=. split.
         { rewrite <- (i_slots _ _ Hi). by eapply lookup_lt_Some. }
         split; [by left|]. exists UNPINNED. split; [|done]. apply list_lookup_insert_eq.
         by eapply lookup_lt_Some.
      * rewrite Hpg. by intros g ?%elem_of_nil.
  - apply inv_frame; try done. by apply Hloc.
Qed.

(** The high-water mark is raised. *)
Lemma ebr_step_hwm n s t a s' th i :
  Inv n s → Z.of_nat n < 2 ^ 62 → disciplined t a s → threads s !! t = Some th → pc th = SetHwm i →
  step t a s = Some (Ok s') → Inv (S n) s'.
Proof.
  intros Hi Hn Hd Ht Hpc Hst. enter_step Hi Hn Hd Ht Hpc Hst.
  destruct a; simplify_eq/=. destruct Hp as [Hps Hpg].
  apply inv_frame; try done; simpl; [lia|]. split; simpl.
  - unfold pc_ok. simpl. rewrite Hps. eauto.
  - intros j Hj. simpl in Hj. rewrite Hps in Hj. injection Hj as <-.
    destruct (Hsl _ Hps) as (H1 & _ & H3). split; [done|]. split; [|done]. right. simpl. lia.
  - rewrite Hpg. by intros g ?%elem_of_nil.
Qed.

(** [pin] loads the epoch. *)
Lemma ebr_step_load n s t a s' th :
  Inv n s → Z.of_nat n < 2 ^ 62 → disciplined t a s → threads s !! t = Some th → pc th = PinLoad →
  step t a s = Some (Ok s') → Inv (S n) s'.
Proof.
  intros Hi Hn Hd Ht Hpc Hst. enter_step Hi Hn Hd Ht Hpc Hst.
  destruct a; simplify_eq/=. destruct Hp as [Hps Hpg]. apply inv_frame; try done.
  apply Hloc; [done|]. unfold pc_ok. simpl. split_and!; (done || lia).
Qed.

(** [pin] publishes it. *)
Lemma ebr_step_publish n s t a s' th e :
  Inv n s → Z.of_nat n < 2 ^ 62 → disciplined t a s → threads s !! t = Some th → pc th = PinStore e →
  step t a s = Some (Ok s') → Inv (S n) s'.
Proof.
  intros Hi Hn Hd Ht Hpc Hst. enter_step Hi Hn Hd Ht Hpc Hst.
  destruct a; simplify_eq/=. destruct Hp as ((i & Hps) & Hpg & Hep).
  rewrite Hps in Hts. simplify_eq/=. destruct (Hsl i Hps) as (H1 & H2 & (v & Hv & _)).
  assert (Hli : (i < length (slots (dom s)))%nat) by (by eapply lookup_lt_Some).
  eapply inv_slot; try done; simpl.
  - by left.
  - lia.
  - rewrite Hpg. intros g ->%list_elem_of_singleton. right. simpl. split_and!; (done || lia).
  - rewrite Hpg. split; simpl.
    + done.
    + intros j Hj. simplify_eq/=. split; [done|]. split.
      { right. destruct H2 as [H2|H2]; [congruence|done]. }
      exists e. split; [by apply list_lookup_insert_eq|]. unfold FREE, W64. lia.
    + intros g ->%list_elem_of_singleton. unfold guard_ok. simpl.
      split_and!; try done; try lia. exists e. split; [by apply list_lookup_insert_eq|lia].
Qed.

(** [retire] tags the record. *)
Lemma ebr_step_tag n s t a s' th p f :
  Inv n s → Z.of_nat n < 2 ^ 62 → disciplined t a s → threads s !! t = Some th → pc th = RetireLoad p f →
  step t a s = Some (Ok s') → Inv (S n) s'.
Proof.
  intros Hi Hn Hd Ht Hpc Hst. enter_step Hi Hn Hd Ht Hpc Hst.
  destruct a; simplify_eq/=. apply inv_frame; try done; [by apply Hloc|].
  intros r Hr. apply list_elem_of_singleton in Hr as ->. split; [simpl; lia|].
  split; simpl.
  - intros x (g & Hgl & <-)%live_gids_spec. by apply (i_gid _ _ Hi).
  - intros g Hgl _. destruct (live_guard_ok _ _ _ Hi Hgl) as (_ & _ & _ & _ & _ & _ & _ & ?). lia.
Qed.

(** [retire] pushes it into its bag. *)
Lemma ebr_step_push n s t a s' th r :
  Inv n s → Z.of_nat n < 2 ^ 62 → disciplined t a s → threads s !! t = Some th → pc th = RetirePush r →
  step t a s = Some (Ok s') → Inv (S n) s'.
Proof.
  intros Hi Hn Hd Ht Hpc Hst. enter_step Hi Hn Hd Ht Hpc Hst.
  destruct a; simplify_eq/=. apply inv_frame; try done.
  - eapply local_ok_mono; [..|by apply (Hloc Ready)]; done.
  - intros r' Hr'. apply in_bags_set in Hr' as [Hr'|Hr']; [|by apply Hbags].
    apply elem_of_cons in Hr' as [->|Hr'].
    + apply (i_recs _ _ Hi t th r Ht). rewrite Hpc. apply list_elem_of_here.
    + by eapply Hbags, elem_bag.
Qed.

Lemma ebr_step_inv n s t a s' :
  Inv n s → Z.of_nat n < 2 ^ 62 → disciplined t a s → step t a s = Some (Ok s') → Inv (S n) s'.
Proof.
  intros Hi Hn Hd Hst. destruct (threads s !! t) as [th|] eqn:Ht; [|by unfold step in Hst; rewrite Ht in Hst].
  destruct (pc th) as [|i|i| |e|p f|r|c] eqn:Hpc;
    [by eapply ebr_step_ready|by eapply ebr_step_claim|by eapply ebr_step_hwm|by eapply ebr_step_load
    |by eapply ebr_step_publish|by eapply ebr_step_tag|by eapply ebr_step_push|].
  enter_step Hi Hn Hd Ht Hpc Hst.
  destruct a; simplify_eq/=. pose proof (inv_collect n s t th Hi Hn Ht c Hpc) as Hc. unfold collected in Hc.
  destruct (coll_step c (dom s)) as [[c' d''] fs'] eqn:Hcs. simplify_eq/=. exact Hc.
Qed.

Lemma ebr_reachable_inv k n s : Z.of_nat n ≤ 2 ^ 62 → reachable k n s → Inv n s.
Proof.
  intros Hn. induction 1 as [|n s t a s' _ IH Hd Hst]; [apply ebr_init_inv|].
  eapply ebr_step_inv; [apply IH; lia|lia|done|done].
Qed.

(** ** One collection alone *)

(** [try_collect] with no other thread interfering: the domain it leaves and
    the records it frees. *)
Fixpoint run_coll (fuel : nat) (c : cpc) (d : Domain) : res (Domain * list Retired) :=
  match fuel with
  | O => Err OutOfFuel
  | S fuel =>
    let '(c', d', fs) := coll_step c d in
    match c' with
    | None => Ok (d', fs)
    | Some c' => '(d2, fs2) ←r run_coll fuel c' d'; Ok (d2, fs ++ fs2)
    end
  end.

Definition try_collect (fuel : nat) (d : Domain) : res (Domain * list Retired) :=
  run_coll fuel CLoadEpoch d.

(** The epoch may advance when no scanned slot is pinned elsewhere. *)
Definition can_advance (d : Domain) : bool :=
  forallb (λ v, negb (blocks (epoch d) v)) (take (S (Nat.min (hwm d) (N_SLOTS - 1))) (slots d)).

Definition young (cur : Z) (l : list Retired) : list Retired :=
  List.filter (λ r, negb (eligible cur r)) l.
Definition old (cur : Z) (l : list Retired) : list Retired :=
  List.filter (eligible cur) l.

Lemma run_coll_sweep cur b d : ∀ node keep fuel,
  run_coll (S (length node) + fuel) (CSweep cur b node keep) d
  = ('(d2, fs) ←r run_coll fuel (CRepush cur b (rev (young cur node) ++ keep)) d;
     Ok (d2, old cur node ++ fs)).
Proof.
  induction node as [|r node IH]; intros keep fuel.
  - cbn [length Nat.add run_coll coll_step]. by destruct (run_coll _ _ _) as [[]|].
  - change (S (length (r :: node)) + fuel)%nat with (S (S (length node) + fuel)).
    cbn [run_coll coll_step]. unfold young, old in *. cbn [List.filter].
    destruct (eligible cur r); cbn [negb]; rewrite IH.
    + by destruct (run_coll _ _ _) as [[]|].
    + cbn [rev]. rewrite <- app_assoc. by destruct (run_coll _ _ _) as [[]|].
Qed.

Lemma run_coll_repush cur b : ∀ keep d fuel,
  (b < length (bags d))%nat →
  run_coll (S (length keep) + fuel) (CRepush cur b keep) d
  = run_coll fuel (CSwap cur (S b)) (set_bag d b (rev keep ++ default [] (bags d !! b))).
Proof.
  induction keep as [|r keep IH]; intros d fuel Hb.
  - cbn [length Nat.add run_coll coll_step rev app].
    assert (set_bag d b (default [] (bags d !! b)) = d) as ->.
    { apply lookup_lt_is_Some in Hb as [l Hl]. rewrite Hl. simpl. unfold set_bag.
      rewrite list_insert_id by done. by destruct d. }
    by destruct (run_coll fuel _ d) as [[]|].
  - change (S (length (r :: keep)) + fuel)%nat with (S (S (length keep) + fuel)).
    cbn [run_coll coll_step]. rewrite IH by (simpl; by rewrite length_insert).
    cbn [rev]. rewrite <- app_assoc. simpl.
    rewrite list_lookup_insert_eq by done. unfold set_bag. simpl.
    rewrite list_insert_insert_eq. by destruct (run_coll fuel _ _) as [[]|].
Qed.

(** One bag: the old records are freed, the young ones stay in order. *)
Lemma run_coll_bag cur b d l fuel :
  (b < N_BAGS)%nat → bags d !! b = Some l →
  run_coll (3 + length l + length (young cur l) + fuel) (CSwap cur b) d
  = ('(d2, fs) ←r run_coll fuel (CSwap cur (S b)) (set_bag d b (young cur l));
     Ok (d2, old cur l ++ fs)).
Proof.
  intros Hb Hl. set (F := (S (length l) + (S (length (young cur l)) + fuel))%nat).
  replace (3 + length l + length (young cur l) + fuel)%nat with (S F) by (unfold F; lia).
  cbn [run_coll coll_step]. destruct (Nat.leb_spec N_BAGS b); [lia|]. rewrite Hl. simpl default.
  unfold F.
  rewrite run_coll_sweep, app_nil_r, <- (length_rev (young cur l)).
  assert (Hlt : (b < length (bags d))%nat) by (by eapply lookup_lt_Some).
  rewrite run_coll_repush by (simpl; by rewrite length_insert).
  rewrite rev_involutive. simpl. rewrite list_lookup_insert_eq by done. simpl.
  rewrite app_nil_r. unfold set_bag. simpl. rewrite list_insert_insert_eq.
  by destruct (run_coll fuel _ _) as [[]|].
Qed.

Lemma run_coll_scan d h : ∀ k i fuel,
  (h < length (slots d))%nat → (i + k = S h)%nat →
  let ok := forallb (λ v, negb (blocks (epoch d) v)) (take k (drop i (slots d))) in
  ∃ fuel', (fuel ≤ fuel')%nat ∧
    run_coll (S k + fuel) (CScan (epoch d) h i) d
    = run_coll fuel' (if ok then CAdvance (epoch d) else CLoadCur) d.
Proof.
  induction k as [|k IH]; intros i fuel Hh Hik.
  - exists fuel. split; [done|]. cbn [Nat.add run_coll coll_step].
    destruct (Nat.ltb_spec h i); [|lia]. simpl. by destruct (run_coll fuel _ d) as [[]|].
  - assert (is_Some (slots d !! i)) as [v Hv] by (apply lookup_lt_is_Some; lia).
    change (S (S k) + fuel)%nat with (S (S k + fuel)). cbn [run_coll coll_step].
    destruct (Nat.ltb_spec h i); [lia|]. rewrite Hv. simpl default.
    rewrite (drop_S _ _ _ Hv). cbn [take forallb].
    destruct (blocks (epoch d) v); cbn [negb andb].
    + exists (S k + fuel)%nat. split; [lia|]. by destruct (run_coll _ _ d) as [[]|].
    + destruct (IH (S i) fuel Hh ltac:(lia)) as (fuel' & Hle & Heq).
      exists fuel'. split; [done|]. rewrite Heq. by destruct (run_coll fuel' _ d) as [[]|].
Qed.

Lemma run_coll_fuel x : ∀ f f' c d, run_coll f c d = Ok x → (f ≤ f')%nat → run_coll f' c d = Ok x.
Proof.
  intros f. revert x. induction f as [|f IH]; intros x f' c d Hr Hle; [done|].
  destruct f' as [|f']; [lia|]. cbn [run_coll] in *.
  destruct (coll_step c d) as [[[c'|] d'] fs]; [|done].
  destruct (run_coll f c' d') as [y|] eqn:Hy; [|done].
  rewrite (IH y f' _ _ Hy) by lia. exact Hr.
Qed.

Lemma run_coll_bags cur d l0 l1 l2 fuel :
  bags d = [l0; l1; l2] →
  (10 + 2 * (length l0 + length l1 + length l2) ≤ fuel)%nat →
  run_coll fuel (CSwap cur 0) d
  = Ok (mkDomain (epoch d) (slots d) [young cur l0; young cur l1; young cur l2] (hwm d),
        old cur l0 ++ old cur l1 ++ old cur l2).
Proof.
  intros Hb Hf.
  assert (Hy : ∀ l, (length (young cur l) ≤ length l)%nat) by (intros l; apply List.filter_length_le).
  pose proof (Hy l0). pose proof (Hy l1). pose proof (Hy l2).
  eapply (run_coll_fuel _ (3 + length l0 + length (young cur l0) + (3 + length l1
    + length (young cur l1) + (3 + length l2 + length (young cur l2) + 1)))%nat); [|lia].
  rewrite (run_coll_bag cur 0 d l0) by (by rewrite ?Hb; unfold N_BAGS; try lia).
  rewrite (run_coll_bag cur 1 _ l1) by (simpl; rewrite ?Hb; unfold N_BAGS; (done || lia)).
  rewrite (run_coll_bag cur 2 _ l2) by (simpl; rewrite ?Hb; unfold N_BAGS; (done || lia)).
  simpl. unfold set_bag. simpl. rewrite Hb. simpl. by rewrite app_nil_r.
Qed.

Lemma try_collect_run d l0 l1 l2 fuel :
  length (slots d) = N_SLOTS → bags d = [l0; l1; l2] → 0 ≤ epoch d < 2 ^ 62 →
  (N_SLOTS + 20 + 2 * (length l0 + length l1 + length l2) ≤ fuel)%nat →
  let cur := if can_advance d then epoch d + 1 else epoch d in
  try_collect fuel d =
    Ok (mkDomain cur (slots d) [young cur l0; young cur l1; young cur l2] (hwm d),
        old cur l0 ++ old cur l1 ++ old cur l2).
Proof.
  intros Hs Hb He Hf cur.
  set (N := (10 + 2 * (length l0 + length l1 + length l2))%nat) in *.
  set (h := Nat.min (hwm d) (N_SLOTS - 1)).
  assert (Hh : (h < N_SLOTS)%nat) by (unfold h, N_SLOTS; lia).
  destruct (run_coll_scan d h (S h) 0 (2 + N)) as (fuel' & Hle & Hscan); [lia|lia|].
  rewrite drop_0 in Hscan. cbv zeta in Hscan.
  change (forallb _ (take (S h) (slots d))) with (can_advance d) in Hscan.
  eapply (run_coll_fuel _ (S (S (S (S h) + (2 + N))))); [|unfold N; lia].
  unfold try_collect. cbn [run_coll coll_step]. fold h.
  cbn [Nat.add] in Hscan |- *. rewrite Hscan.
  assert (Hlast : run_coll fuel' (if can_advance d then CAdvance (epoch d) else CLoadCur) d =
    Ok (mkDomain cur (slots d) [young cur l0; young cur l1; young cur l2] (hwm d),
        old cur l0 ++ old cur l1 ++ old cur l2)).
  { eapply (run_coll_fuel _ (2 + N)); [|lia]. unfold cur. destruct (can_advance d).
    - cbn [Nat.add run_coll coll_step]. rewrite Z.eqb_refl, wadd_small by (unfold is_u64, W64; lia).
      cbn [run_coll coll_step]. rewrite (run_coll_bags _ _ l0 l1 l2) by (done || unfold N; lia).
      done.
    - eapply (run_coll_fuel _ (1 + N)); [|lia].
      cbn [Nat.add run_coll coll_step]. rewrite (run_coll_bags _ _ l0 l1 l2) by (done || unfold N; lia).
      done. }
  rewrite Hlast. done.
Qed.

(** ** What a collection alone does, slot by slot and record by record *)

Lemma forallb_take_spec {A} (f : A → bool) (l : list A) : ∀ n,
  if forallb f (take n l)
  then ∀ i x, (i < n)%nat → l !! i = Some x → f x = true
  else ∃ i x, (i < n)%nat ∧ l !! i = Some x ∧ f x = false.
Proof.
  induction l as [|y l IH]; intros [|n]; simpl; try (intros; (lia || done)).
  destruct (f y) eqn:Hy; simpl; [|exists 0%nat, y; split_and!; (done || lia)].
  specialize (IH n). destruct (forallb f (take n l)).
  - intros [|i] x Hi Hx; simplify_eq/=; [done|]. apply (IH i); [lia|done].
  - destruct IH as (i & x & ? & ? & ?). exists (S i), x. split_and!; (done || lia).
Qed.

(** The scan passes exactly when every slot up to the high-water mark is
    free, unpinned or at the current epoch. *)
Lemma can_advance_spec d :
  length (slots d) = N_SLOTS →
  if can_advance d
  then ∀ i v, (i ≤ hwm d)%nat → slots d !! i = Some v →
         v = FREE ∨ v = UNPINNED ∨ v = epoch d
  else ∃ i v, (i ≤ hwm d)%nat ∧ slots d !! i = Some v ∧
         v ≠ FREE ∧ v ≠ UNPINNED ∧ v ≠ epoch d.
Proof.
  intros Hs. unfold can_advance. set (n := S _).
  pose proof (forallb_take_spec (λ v, negb (blocks (epoch d) v)) (slots d) n) as H.
  unfold blocks in *. destruct (forallb _ _).
  - intros i v Hi Hv. assert (i < n)%nat as Hn by (apply lookup_lt_Some in Hv; lia).
    specialize (H i v Hn Hv).
    destruct (Z.eqb_spec v FREE), (Z.eqb_spec v UNPINNED), (Z.eqb_spec v (epoch d)); eauto. done.
  - destruct H as (i & v & Hi & Hv & H). exists i, v. split; [lia|]. split; [done|].
    by destruct (Z.eqb_spec v FREE), (Z.eqb_spec v UNPINNED), (Z.eqb_spec v (epoch d)).
Qed.

(** Below the top of the epoch range the saturation never happens. *)
Lemma eligible_spec cur r : cur < W64 - 1 → eligible cur r = (r_epoch r + 2 <=? cur).
Proof.
  intros Hc. unfold eligible, saturating_add.
  destruct (Z.leb_spec (r_epoch r + 2) cur), (Z.leb_spec (Z.min (r_epoch r + 2) (W64 - 1)) cur); lia.
Qed.

Lemma old_spec cur l :
  cur < W64 - 1 → old cur l = filter (λ r, r_epoch r + 2 ≤ cur) l.
Proof.
  intros Hc. induction l as [|r l IH]; [done|]. unfold old in *. cbn [List.filter].
  rewrite filter_cons, IH, eligible_spec by done.
  case_decide; destruct (Z.leb_spec (r_epoch r + 2) cur); (done || lia).
Qed.

Lemma young_spec cur l :
  cur < W64 - 1 → young cur l = filter (λ r, cur < r_epoch r + 2) l.
Proof.
  intros Hc. induction l as [|r l IH]; [done|]. unfold young in *. cbn [List.filter].
  rewrite filter_cons, IH, eligible_spec by done.
  case_decide; destruct (Z.leb_spec (r_epoch r + 2) cur); (done || lia).
Qed.

(** ** Conservation of retired records *)

(** Every record there is: freed, in a bag, or in the hands of a thread. *)
Definition all_recs (s : State) : list Retired :=
  freed s ++ mjoin (bags (dom s)) ++ mjoin ((λ th, pc_recs (pc th)) <$> threads s).

(** What the next access of thread [t] tags for reclamation. *)
Definition tagged (t : nat) (a : action) (s : State) : list Retired :=
  match threads s !! t, a with
  | Some th, Continue =>
    match pc th with
    | RetireLoad p f => [mkRetired p f (epoch (dom s)) (live_gids s)]
    | _ => []
    end
  | _, _ => []
  end.

(** Everything a schedule retires. *)
Fixpoint retired_in (sched : list (nat * action)) (s : State) : list Retired :=
  match sched with
  | [] => []
  | (t, a) :: sched =>
    match step t a s with
    | Some (Ok s') => tagged t a s ++ retired_in sched s'
    | _ => []
    end
  end.

Definition coll_bag_ok (p : tpc) : Prop :=
  match p with
  | Collect (CSweep _ b _ _) | Collect (CRepush _ b _) => (b < N_BAGS)%nat
  | _ => True
  end.

Definition bags_ok (s : State) : Prop :=
  length (bags (dom s)) = N_BAGS ∧ ∀ t th, threads s !! t = Some th → coll_bag_ok (pc th).

#[local] Instance Retired_eq_dec : EqDecision Retired.
Proof. solve_decision. Defined.

(** Permutations of records, by counting. *)
Definition cnt (l : list Retired) (r : Retired) : nat := count_occ Retired_eq_dec l r.

Lemma perm_cnt l l' : l ≡ₚ l' ↔ ∀ r, cnt l r = cnt l' r.
Proof. apply Permutation_count_occ. Qed.

Lemma cnt_app l l' r : cnt (l ++ l') r = (cnt l r + cnt l' r)%nat.
Proof. apply count_occ_app. Qed.

Definition cnt1 (x r : Retired) : nat := if decide (x = r) then 1 else 0.

Lemma cnt_cons x l r : cnt (x :: l) r = (cnt1 x r + cnt l r)%nat.
Proof. unfold cnt, cnt1. simpl. destruct (Retired_eq_dec x r); by case_decide. Qed.

Lemma cnt_nil r : cnt [] r = 0%nat.
Proof. done. Qed.

Ltac perm_lia :=
  apply perm_cnt; let y := fresh "y" in intros y;
  repeat match goal with H : _ ≡ₚ _ |- _ =>
    let H' := fresh in pose proof (proj1 (perm_cnt _ _) H y) as H'; clear H end;
  rewrite ?cnt_app, ?cnt_cons, ?cnt_app, ?cnt_nil in *; lia.

Lemma mjoin_insert (ls : list (list Retired)) i l l' :
  ls !! i = Some l → mjoin (<[i := l']> ls) ++ l ≡ₚ mjoin ls ++ l'.
Proof.
  intros Hi. rewrite insert_take_drop by (by eapply lookup_lt_Some).
  assert (Hls : mjoin ls = mjoin (take i ls) ++ l ++ mjoin (drop (S i) ls)).
  { rewrite <- (take_drop_middle ls i l Hi) at 1. by rewrite join_app. }
  rewrite Hls, join_app. simpl. perm_lia.
Qed.

Lemma bag_lookup d b : length (bags d) = N_BAGS → (b < N_BAGS)%nat →
  bags d !! b = Some (default [] (bags d !! b)).
Proof.
  intros Hl Hb. assert (is_Some (bags d !! b)) as [l ->]; [apply lookup_lt_is_Some; lia|done].
Qed.

(** Moving records between the acting thread, one bag and the freed list. *)
Lemma move_recs s t th th' d' ng fs new :
  threads s !! t = Some th →
  freed s ++ fs ++ mjoin (bags d') ++ pc_recs (pc th')
    ≡ₚ freed s ++ mjoin (bags (dom s)) ++ pc_recs (pc th) ++ new →
  all_recs (mkState d' (<[t := th']> (threads s)) ng (freed s ++ fs)) ≡ₚ all_recs s ++ new.
Proof.
  intros Ht Hp. unfold all_recs. simpl. rewrite list_fmap_insert.
  set (P := (λ th, pc_recs (pc th)) <$> threads s).
  assert (HP : P !! t = Some (pc_recs (pc th))).
  { unfold P. by rewrite list_lookup_fmap, Ht. }
  pose proof (mjoin_insert P t _ (pc_recs (pc th')) HP) as Hm. perm_lia.
Qed.

Lemma coll_recs c d :
  length (bags d) = N_BAGS → coll_bag_ok (Collect c) →
  let '(c', d', fs) := coll_step c d in
  let p := match c' with Some c' => Collect c' | None => Ready end in
  length (bags d') = N_BAGS ∧ coll_bag_ok p ∧
  fs ++ mjoin (bags d') ++ pc_recs p ≡ₚ mjoin (bags d) ++ pc_recs (Collect c).
Proof.
  intros Hl Hc. destruct c as [|g|g h i|g| |cur b|cur b node keep|cur b keep]; cbn [coll_step].
  - done.
  - done.
  - destruct (h <? i)%nat; [done|]. by destruct (blocks _ _).
  - by destruct (epoch d =? g).
  - done.
  - destruct (Nat.leb_spec N_BAGS b) as [|Hb]; [done|]. simpl. rewrite length_insert.
    split; [done|]. split; [done|]. rewrite !app_nil_r.
    pose proof (mjoin_insert _ _ _ [] (bag_lookup d b Hl Hb)) as Hm. rewrite app_nil_r in Hm. exact Hm.
  - destruct node as [|r node]; [done|]. destruct (eligible cur r); cbn [pc_recs];
      (split; [done|]; split; [done|]); simpl app; perm_lia.
  - destruct keep as [|r keep]; [done|]. simpl in Hc |- *. rewrite length_insert.
    split; [done|]. split; [done|].
    pose proof (mjoin_insert _ _ _ (r :: default [] (bags d !! b)) (bag_lookup d b Hl Hc)) as Hm.
    perm_lia.
Qed.

Lemma bags_ok_step s t th th' d' ng fs :
  bags_ok s → threads s !! t = Some th → length (bags d') = N_BAGS → coll_bag_ok (pc th') →
  bags_ok (mkState d' (<[t := th']> (threads s)) ng fs).
Proof.
  intros [_ Hc] Ht Hl Hp. split; [done|]. simpl. intros t' x Hx.
  destruct (lookup_thread s t th th' t' x Ht Hx) as [[-> ->]|[? ?]]; [done|by eapply Hc].
Qed.

Lemma step_recs s t a s' :
  bags_ok s → step t a s = Some (Ok s') →
  bags_ok s' ∧ all_recs s' ≡ₚ all_recs s ++ tagged t a s.
Proof.
  intros Hb Hst. pose proof Hb as [Hl Hc]. unfold step, tagged in *.
  destruct (threads s !! t) as [th|] eqn:Ht; [|done]. specialize (Hc t th Ht).
  destruct (thread_step a th s) as [[[[[th' d'] ng] fs]|]|] eqn:Hts; [|done..]. simplify_eq.
  (* the acting thread holds no record and moves none *)
  assert (Hidle : fs = [] → bags d' = bags (dom s) → pc_recs (pc th) = [] → pc_recs (pc th') = [] →
    coll_bag_ok (pc th') →
    bags_ok (mkState d' (<[t := th']> (threads s)) ng (freed s ++ fs)) ∧
    all_recs (mkState d' (<[t := th']> (threads s)) ng (freed s ++ fs)) ≡ₚ all_recs s ++ []).
  { intros -> Hbd H1 H2 H3. split; [eapply bags_ok_step; [done..|by rewrite Hbd|done]|].
    apply (move_recs s t th); [done|]. by rewrite H1, H2, Hbd. }
  unfold thread_step in Hts. destruct (pc th) as [|i|i| |e|p f|r|c] eqn:Hpc.
  - destruct a as [|p f|k| |]; simplify_eq/=; try (apply Hidle; unfold pin_entry; by destruct (slot th)).
    + destruct (guards th); simplify_eq/=. by apply Hidle.
    + destruct (guards th !! k); simplify_eq/=. apply Hidle; try done; simpl; by destruct (_ =? 0).
  - destruct a; simplify_eq/=. repeat case_match; simplify_eq/=; by apply Hidle.
  - destruct a; simplify_eq/=. by apply Hidle.
  - destruct a; simplify_eq/=. by apply Hidle.
  - destruct a; simplify_eq/=. case_match; simplify_eq/=. by apply Hidle.
  - destruct a; simplify_eq/=. split; [by eapply bags_ok_step|].
    apply (move_recs s t th); [done|]. rewrite Hpc. simpl. done.
  - destruct a; simplify_eq/=.
    set (b := Z.to_nat (r_epoch r mod Z.of_nat N_BAGS)).
    assert (Hbr : (b < N_BAGS)%nat).
    { unfold b, N_BAGS. pose proof (Z.mod_pos_bound (r_epoch r) (Z.of_nat 3)). lia. }
    clear Hidle. split; [eapply bags_ok_step; [done..| |done]; simpl; by rewrite length_insert|].
    apply (move_recs s t th); [done|]. rewrite Hpc. simpl. fold b.
    pose proof (mjoin_insert _ _ _ (r :: default [] (bags (dom s) !! b)) (bag_lookup _ b Hl Hbr)) as Hm.
    perm_lia.
  - destruct a; simplify_eq/=. pose proof (coll_recs c (dom s) Hl Hc) as Hcr.
    destruct (coll_step c (dom s)) as [[c' d''] fs'] eqn:Hcs. simplify_eq/=.
    destruct Hcr as (H1 & H2 & H3). split; [by eapply bags_ok_step|].
    apply (move_recs s t th); [done|]. rewrite Hpc, app_nil_r. simpl. f_equiv. exact H3.
Qed.

Lemma run_steps_recs sched : ∀ s s',
  bags_ok s → run_steps sched s = Some (Ok s') → all_recs s' ≡ₚ all_recs s ++ retired_in sched s.
Proof.
  induction sched as [|[t a] sched IH]; intros s s' Hb Hr; simplify_eq/=; [by rewrite app_nil_r|].
  destruct (step t a s) as [[s1|]|] eqn:Hs; [|done..].
  destruct (step_recs s t a s1 Hb Hs) as [Hb1 Hp1]. rewrite (IH s1 s' Hb1 Hr).
  by rewrite Hp1, <- app_assoc.
Qed.

(** ** Claims *)

(** [C5] Grace period: in every execution of any number of threads in which a
    thread holds at most one guard at a time (and fewer than 2^62 steps), a
    record is freed only after every guard that was live when the record was
    tagged for reclamation has been dropped. *)
Theorem ebr_grace_period (k n : nat) (s : State) (r : Retired) (g : Guard)
    (Hn : Z.of_nat n ≤ 2 ^ 62) (Hreach : reachable k n s)
    (Hfreed : r ∈ freed s) (Hlive : is_live s g) :
  gid g ∉ wit r.
Proof. by apply (i_freed _ _ (ebr_reachable_inv _ _ _ Hn Hreach)). Qed.

(** The epoch invariant the module documentation states: while a guard
    lives, the global epoch is at most one past the epoch at which its slot
    was published, however many collectors race. *)
Lemma ebr_epoch_bound (k n : nat) (s : State) (g : Guard)
    (Hn : Z.of_nat n ≤ 2 ^ 62) (Hreach : reachable k n s) (Hlive : is_live s g) :
  g_epoch g ≤ epoch (dom s) ≤ g_epoch g + 1 ∧
  ∃ v, slots (dom s) !! idx g = Some v ∧ 0 ≤ v ≤ g_epoch g.
Proof.
  destruct (live_guard_ok _ _ _ (ebr_reachable_inv _ _ _ Hn Hreach) Hlive)
    as (_ & _ & _ & _ & _ & _ & Hv & He). done.
Qed.

(** [C20] No record is lost or freed twice: after any schedule, disciplined or
    not, the records freed, waiting in bags and held by threads are, as a
    multiset, exactly the records retired so far. *)
Theorem ebr_conservation (k : nat) (sched : list (nat * action)) (s : State)
    (Hrun : run_steps sched (init k) = Some (Ok s)) :
  all_recs s ≡ₚ retired_in sched (init k).
Proof.
  rewrite (run_steps_recs sched (init k) s); [|split; [done|]|done].
  - assert (Hk : mjoin ((λ th, pc_recs (pc th)) <$> replicate k (mkThread Ready None 0 [])) = []).
    { clear. induction k as [|k IH]; [done|]. exact IH. }
    unfold all_recs. simpl. by rewrite Hk.
  - intros t th Ht. simpl in Ht. by apply lookup_replicate in Ht as [-> _].
Qed.

(** [C21] [try_collect] run alone terminates. The epoch advances by one
    exactly when each slot up to the high-water mark is free, unpinned or at
    the current epoch, and stays when one of them holds another epoch. With
    [cur] the epoch afterwards, exactly the records retired at an epoch [e]
    with [e + 2 <= cur] are freed, and the others stay in their bags in
    order. *)
Theorem try_collect_alone (d : Domain) (l0 l1 l2 : list Retired) (fuel : nat)
    (Hslots : length (slots d) = N_SLOTS) (Hbags : bags d = [l0; l1; l2])
    (Hepoch : 0 ≤ epoch d < 2 ^ 62)
    (Hfuel : (N_SLOTS + 20 + 2 * (length l0 + length l1 + length l2) ≤ fuel)%nat) :
  ∃ cur,
    (cur = epoch d + 1 ∧
       (∀ i v, (i ≤ hwm d)%nat → slots d !! i = Some v →
          v = FREE ∨ v = UNPINNED ∨ v = epoch d) ∨
     cur = epoch d ∧
       (∃ i v, (i ≤ hwm d)%nat ∧ slots d !! i = Some v ∧
          v ≠ FREE ∧ v ≠ UNPINNED ∧ v ≠ epoch d)) ∧
    let gone := filter (λ r, r_epoch r + 2 ≤ cur) in
    let kept := filter (λ r, cur < r_epoch r + 2) in
    try_collect fuel d =
      Ok (mkDomain cur (slots d) [kept l0; kept l1; kept l2] (hwm d),
          gone l0 ++ gone l1 ++ gone l2).
Proof.
  exists (if can_advance d then epoch d + 1 else epoch d). split.
  - pose proof (can_advance_spec d Hslots) as H.
    destruct (can_advance d); [left|right]; by split.
  - rewrite (try_collect_run d l0 l1 l2 fuel) by done. cbv zeta.
    by rewrite !old_spec, !young_spec by (destruct (can_advance d); unfold W64; lia).
Qed.

(** ** Nested guards *)

(** Thread 0 pins twice and drops the inner guard; thread 1 retires a record;
    thread 2 collects twice. *)
Definition pin_first (t probes : nat) : list (nat * action) :=
  (t, DoPin) :: replicate (probes + 4) (t, Continue).
Definition pin_again (t : nat) : list (nat * action) := [(t, DoPin); (t, Continue); (t, Continue)].
Definition retire_by (t : nat) (p f : Z) : list (nat * action) :=
  [(t, DoRetire p f); (t, Continue); (t, Continue)].
Definition nested_schedule : list (nat * action) :=
  pin_first 0 0 ++ pin_again 0 ++ [(0%nat, DoDrop 0)] ++
  pin_first 1 1 ++ retire_by 1 4242 7 ++ [(1%nat, DoDrop 0)] ++
  [(2%nat, DoCollect)] ++ replicate 19 (2%nat, Continue) ++
  [(2%nat, DoCollect)] ++ replicate 18 (2%nat, Continue).

(** [C17] Without that discipline the guarantee fails: all guards of a thread
    share one slot, so dropping an inner guard unpins the outer one. After
    this schedule the outer guard (identity 0) is still live, it was live when
    the record was retired, and the record has been freed. *)
Theorem nested_guard_unsound :
  match run_steps nested_schedule (init 3) with
  | Some (Ok s) =>
    live_gids s = [0%nat] ∧ epoch (dom s) = 2 ∧
    freed s = [mkRetired 4242 7 0 [0; 2]%nat]
  | _ => False
  end.
Proof. vm_compute. done. Qed.

(** ** Witnesses *)

(** Run a schedule, checking the discipline. *)
Fixpoint run_disciplined (sched : list (nat * action)) (s : State) : option State :=
  match sched with
  | [] => Some s
  | (t, a) :: sched =>
    let pins := match a with DoPin => true | _ => false end in
    let held := match threads s !! t with Some th => length (guards th) | None => 0%nat end in
    if pins && negb (held =? 0)%nat then None
    else
      match step t a s with
      | Some (Ok s') => run_disciplined sched s'
      | _ => None
      end
  end.

Lemma run_disciplined_reachable k sched : ∀ n s s',
  reachable k n s → run_disciplined sched s = Some s' →
  reachable k (n + length sched) s'.
Proof.
  induction sched as [|[t a] sched IH]; intros n s s' Hr Hs; simplify_eq/=.
  - by rewrite Nat.add_0_r.
  - case_match eqn:Hb; [done|]. destruct (step t a s) as [[s1|]|] eqn:Hst; [|done..].
    rewrite <- Nat.add_succ_comm. apply (IH (S n) s1); [|done].
    eapply reach_step; [done| |done]. intros -> th Hth. rewrite Hth in Hb. simpl in Hb.
    destruct (guards th); [done|]. done.
Qed.

(** Thread 1 retires and unpins, thread 2 collects twice, thread 0 pins. *)
Definition demo_schedule : list (nat * action) :=
  pin_first 1 0 ++ retire_by 1 4242 7 ++ [(1%nat, DoDrop 0)] ++
  [(2%nat, DoCollect)] ++ replicate 18 (2%nat, Continue) ++
  [(2%nat, DoCollect)] ++ replicate 17 (2%nat, Continue) ++ pin_first 0 1.

Definition demo_state : State := default (init 3) (run_disciplined demo_schedule (init 3)).

Lemma demo_reachable : reachable 3 (length demo_schedule) demo_state.
Proof.
  apply (run_disciplined_reachable 3 demo_schedule 0 (init 3)); [apply reach_init|].
  vm_compute. reflexivity.
Qed.

Lemma demo_live : is_live demo_state (mkGuard 1 1 2).
Proof.
  exists 0%nat, (mkThread Ready (Some 1%nat) 0 [mkGuard 1 1 2]).
  split; [vm_compute; reflexivity|apply list_elem_of_here].
Qed.

Lemma ebr_grace_period_witness :
  mkRetired 4242 7 0 [0%nat] ∈ freed demo_state ∧ is_live demo_state (mkGuard 1 1 2) ∧
  gid (mkGuard 1 1 2) ∉ wit (mkRetired 4242 7 0 [0%nat]).
Proof.
  assert (Hf : mkRetired 4242 7 0 [0%nat] ∈ freed demo_state).
  { assert (freed demo_state = [mkRetired 4242 7 0 [0%nat]]) as -> by (vm_compute; reflexivity).
    apply list_elem_of_here. }
  split; [exact Hf|]. split; [apply demo_live|].
  apply (ebr_grace_period 3 (length demo_schedule) demo_state);
    [vm_compute; discriminate|apply demo_reachable|exact Hf|apply demo_live].
Defined.

Lemma ebr_epoch_bound_witness :
  2 ≤ epoch (dom demo_state) ≤ 2 + 1 ∧
  ∃ v, slots (dom demo_state) !! 1%nat = Some v ∧ 0 ≤ v ≤ 2.
Proof.
  apply (ebr_epoch_bound 3 (length demo_schedule) demo_state (mkGuard 1 1 2));
    [vm_compute; discriminate|apply demo_reachable|apply demo_live].
Defined.

Lemma ebr_conservation_witness :
  ∃ s, run_steps demo_schedule (init 3) = Some (Ok s) ∧
    all_recs s ≡ₚ retired_in demo_schedule (init 3).
Proof.
  exists demo_state. assert (Hr : run_steps demo_schedule (init 3) = Some (Ok demo_state)).
  { vm_compute. reflexivity. }
  split; [exact Hr|]. apply (ebr_conservation 3 demo_schedule demo_state Hr).
Defined.

(** Thread slot 0 pinned at the current epoch 4: the epoch advances and the
    record of epoch 3 goes. Pinned one epoch behind: it stays, and so does the
    record; only the one of epoch 2 goes. *)
Lemma try_collect_alone_witness :
  let l := [mkRetired 1 7 4 []; mkRetired 2 7 3 []; mkRetired 3 7 2 []] in
  let d v := mkDomain 4 (<[0%nat := v]> (replicate N_SLOTS FREE)) [[]; l; []] 0 in
  try_collect 5000 (d 4) =
    Ok (mkDomain 5 (slots (d 4)) [[]; [mkRetired 1 7 4 []]; []] 0,
        [mkRetired 2 7 3 []; mkRetired 3 7 2 []]) ∧
  try_collect 5000 (d 3) =
    Ok (mkDomain 4 (slots (d 3)) [[]; [mkRetired 1 7 4 []; mkRetired 2 7 3 []]; []] 0,
        [mkRetired 3 7 2 []]).
Proof.
  intros l d.
  assert (Hf : (N_SLOTS + 20 + 2 * (length (@nil Retired) + length l + length (@nil Retired))
                ≤ 5000)%nat) by (apply Nat.leb_le; vm_compute; reflexivity).
  assert (He : ∀ v, 0 ≤ epoch (d v) < 2 ^ 62) by (intros v; simpl; lia).
  assert (Hl : ∀ v, length (slots (d v)) = N_SLOTS)
    by (intros v; unfold d, slots; by rewrite length_insert, length_replicate).
  split.
  - destruct (try_collect_alone (d 4) [] l [] 5000 (Hl 4) eq_refl (He 4) Hf)
      as (cur & [[-> _]|[-> (i & v & Hi & Hv & _ & _ & Hne)]] & H); [exact H|].
    unfold d, hwm in Hi. assert (i = 0%nat) as -> by lia. vm_compute in Hv. by simplify_eq.
  - destruct (try_collect_alone (d 3) [] l [] 5000 (Hl 3) eq_refl (He 3) Hf)
      as (cur & [[-> Hall]|[-> _]] & H); [|exact H].
    destruct (Hall 0%nat 3) as [?|[?|?]]; done.
Defined.
