(* ===== verification/Spsc.v ===== *)
(** * Spsc: the single-producer single-consumer ring

    Models [crates/zerokv/src/spsc.rs]. [push], [pop], [drain] and [Drop] are
    functions on the ring; [step] splits [push] and [pop] at their atomic
    accesses and interleaves the two endpoints. Cursors are wrapping 64-bit
    words. A cursor load of the other side may lag: it returns any value the
    cursor held since the last one this side observed, which is what
    [Acquire] loads guarantee. *)

From S2P Require Import Prelude.
Local Open Scope Z_scope.
Local Open Scope zkv_scope.

Section spsc.
Context {T : Type}.

(** [struct Ring]; an uninitialised or moved-out slot is [None]. *)
Record Ring : Type := mkRing {
  buf : list (option T);
  mask : Z;
  tail : Z;
  head : Z
}.

(** [channel]. *)
Definition channel (capacity : Z) : Ring :=
  let cap := next_power_of_two (Z.max capacity 2) in
  mkRing (replicate (Z.to_nat cap) None) (wsub cap 1) 0 0.

(** [ring.buf[i & ring.mask]]. *)
Definition slot_of (r : Ring) (i : Z) : nat := Z.to_nat (Z.land i (mask r)).

(** Writing a slot after the bounds check of the index. *)
Definition slot_write (r : Ring) (i : Z) (v : T) : res Ring :=
  if (slot_of r i <? length (buf r))%nat
  then Ok (mkRing (<[slot_of r i := Some v]> (buf r)) (mask r) (tail r) (head r))
  else Err Panic.

(** [assume_init_read] (and [assume_init_drop]): the value moves out. *)
Definition slot_take (r : Ring) (i : Z) : res (T * Ring) :=
  o ←r or_err Panic (buf r !! slot_of r i);
  v ←r or_err UB o;
  Ok (v, mkRing (<[slot_of r i := None]> (buf r)) (mask r) (tail r) (head r)).

Definition set_tail (r : Ring) (t : Z) : Ring := mkRing (buf r) (mask r) t (head r).
Definition set_head (r : Ring) (h : Z) : Ring := mkRing (buf r) (mask r) (tail r) h.

(** The full test of [push] and the empty test of [pop]. *)
Definition is_full (r : Ring) (t h : Z) : bool := wsub t h =? Z.of_nat (length (buf r)).

(** [Producer::push]; [Some v] is [Err(value)]. *)
Definition push (v : T) (r : Ring) : res (option T * Ring) :=
  let t := tail r in
  let h := head r in
  if is_full r t h then Ok (Some v, r)
  else
    r ←r slot_write r t v;
    Ok (None, set_tail r (wadd t 1)).

(** [Consumer::pop]. *)
Definition pop (r : Ring) : res (option T * Ring) :=
  let h := head r in
  let t := tail r in
  if h =? t then Ok (None, r)
  else
    '(v, r) ←r slot_take r h;
    Ok (Some v, set_head r (wadd h 1)).

(** [Consumer::drain], the callback's arguments in call order. *)
Fixpoint drain_loop (max : nat) (r : Ring) : res (list T * Ring) :=
  match max with
  | O => Ok ([], r)
  | S max' =>
    '(o, r) ←r pop r;
    match o with
    | Some v => '(vs, r) ←r drain_loop max' r; Ok (v :: vs, r)
    | None => Ok ([], r)
    end
  end.
Definition drain (max : nat) (r : Ring) : res (list T * nat * Ring) :=
  '(vs, r) ←r drain_loop max r; Ok (vs, length vs, r).

(** [Drop for Ring]: the values dropped, in order. *)
Fixpoint drop_loop (fuel : nat) (r : Ring) (i t : Z) : res (list T * Ring) :=
  match fuel with
  | O => Err OutOfFuel
  | S fuel' =>
    if i =? t then Ok ([], r)
    else
      '(v, r) ←r slot_take r i;
      '(vs, r) ←r drop_loop fuel' r (wadd i 1) t;
      Ok (v :: vs, r)
  end.
Definition drop_ring (r : Ring) : res (list T * Ring) :=
  drop_loop (length (buf r) + 1) r (head r) (tail r).

(** ** The two endpoints interleaved *)

Inductive ppc : Type :=
| PIdle
| PTail (v : T) (t : Z)
| PSlot (v : T) (t : Z)
| PPublish (v : T) (t : Z).

Inductive cpc : Type :=
| CIdle
| CHead (h : Z)
| CSlot (h : Z)
| CPublish (h : Z) (v : T).

(** The ring, both program counters, and the history: what was published,
    what was taken, and how far each side has seen the other's cursor. *)
Record State : Type := mkState {
  ring : Ring;
  prod : ppc;
  cons_ : cpc;
  sent : list T;
  recvd : list T;
  p_seen : nat;
  c_seen : nat
}.

Inductive label : Type :=
| PushBegin (v : T)
| PushLoadHead (k : nat)
| PushWrite
| PushPublish
| PopBegin
| PopLoadTail (k : nat)
| PopRead
| PopPublish.

(** [None]: the label is not enabled; [Some (Err _)]: the code faults. [k] in
    a load is how many pops (pushes) the observed cursor value accounts for. *)
Definition push_step (l : label) (s : State) : option (res State) :=
  let '(mkState r p c snt rcv ps cs) := s in
  match l, p with
  | PushBegin v, PIdle =>
    Some (Ok (mkState r (PTail v (tail r)) c snt rcv ps cs))
  | PushLoadHead k, PTail v t =>
    if ((ps <=? k) && (k <=? length rcv))%nat then
      Some (Ok (mkState r
        (if is_full r t (wrap64 (Z.of_nat k)) then PIdle else PSlot v t) c snt rcv k cs))
    else None
  | PushWrite, PSlot v t =>
    Some (r' ←r slot_write r t v; Ok (mkState r' (PPublish v t) c snt rcv ps cs))
  | PushPublish, PPublish v t =>
    Some (Ok (mkState (set_tail r (wadd t 1)) PIdle c (snt ++ [v]) rcv ps cs))
  | _, _ => None
  end.

Definition pop_step (l : label) (s : State) : option (res State) :=
  let '(mkState r p c snt rcv ps cs) := s in
  match l, c with
  | PopBegin, CIdle =>
    Some (Ok (mkState r p (CHead (head r)) snt rcv ps cs))
  | PopLoadTail k, CHead h =>
    if ((cs <=? k) && (k <=? length snt))%nat then
      Some (Ok (mkState r p
        (if h =? wrap64 (Z.of_nat k) then CIdle else CSlot h) snt rcv ps k))
    else None
  | PopRead, CSlot h =>
    Some ('(v, r') ←r slot_take r h; Ok (mkState r' p (CPublish h v) snt rcv ps cs))
  | PopPublish, CPublish h v =>
    Some (Ok (mkState (set_head r (wadd h 1)) p CIdle snt (rcv ++ [v]) ps cs))
  | _, _ => None
  end.

Definition step (l : label) (s : State) : option (res State) :=
  match l with
  | PushBegin _ | PushLoadHead _ | PushWrite | PushPublish => push_step l s
  | _ => pop_step l s
  end.

Definition init (capacity : Z) : State := mkState (channel capacity) PIdle CIdle [] [] 0 0.

Inductive reachable (capacity : Z) : State → Prop :=
| reach_init : reachable capacity (init capacity)
| reach_step s l s' :
    reachable capacity s → step l s = Some (Ok s') → reachable capacity s'.

(** ** Indices *)

(** A ring of capacity [2 ^ k]. *)
Definition ring_ok (k : Z) (r : Ring) : Prop :=
  0 ≤ k < 64 ∧ mask r = 2 ^ k - 1 ∧ Z.of_nat (length (buf r)) = 2 ^ k.

Lemma slot_of_logical k r (i : nat) :
  ring_ok k r → slot_of r (wrap64 (Z.of_nat i)) = (i mod length (buf r))%nat.
Proof.
  intros (Hk & Hm & Hl). unfold slot_of. rewrite Hm, land_mask by lia.
  assert (2 ^ k < W64) by (unfold W64; apply Z.pow_lt_mono_r; lia).
  rewrite wrap64_mod_pow2 by lia. rewrite <- Hl, <- Nat2Z.inj_mod. apply Nat2Z.id.
Qed.

Lemma slot_lt (i n : nat) : (0 < n)%nat → (i mod n < n)%nat.
Proof. intros. apply Nat.mod_upper_bound. lia. Qed.

(** Indices less than a full turn apart use different slots. *)
Lemma slots_differ (i j n : nat) : (i < j < i + n)%nat → (i mod n ≠ j mod n)%nat.
Proof.
  intros Hij Heq.
  pose proof (Nat.div_mod_eq i n). pose proof (Nat.div_mod_eq j n).
  assert (n * (j / n) - n * (i / n) = j - i)%nat by lia.
  assert ((j / n) ≤ (i / n) ∨ (i / n) + 1 ≤ j / n)%nat by lia. nia.
Qed.

(** [cells b H f]: the slots of [b], from the one of index [H] on, hold
    [f 0], [f 1], .. around the ring. *)
Definition cells (b : list (option T)) (H : nat) (f : nat → option T) : Prop :=
  ∀ i, (i < length b)%nat → b !! ((H + i) mod length b)%nat = Some (f i).

Lemma cells_ext b H f g :
  cells b H f → (∀ i, (i < length b)%nat → f i = g i) → cells b H g.
Proof. intros Hc Hfg i Hi. rewrite Hc by done. by rewrite Hfg. Qed.

Lemma cells_insert b H f j x :
  (j < length b)%nat → cells b H f →
  cells (<[((H + j) mod length b)%nat := x]> b) H (λ i, if decide (i = j) then x else f i).
Proof.
  intros Hj Hc i. rewrite length_insert. intros Hi. case_decide as Hd.
  - subst i. apply list_lookup_insert_eq. apply slot_lt. lia.
  - rewrite list_lookup_insert_ne; [by apply Hc|].
    destruct (Nat.lt_total i j) as [?|[?|?]]; [|done|].
    + apply not_eq_sym, slots_differ. lia.
    + apply slots_differ. lia.
Qed.

(** Advancing [H] over an empty slot turns it into the last one. *)
Lemma cells_shift b H f g :
  cells b H f → f 0%nat = g (length b - 1)%nat →
  (∀ i, (i < length b - 1)%nat → f (S i) = g i) → cells b (S H) g.
Proof.
  intros Hc H0 Hs i Hi. destruct (decide (i = length b - 1)%nat) as [->|Hne].
  - replace (S H + (length b - 1))%nat with (H + 0 + 1 * length b)%nat by lia.
    rewrite Nat.Div0.mod_add, Hc by lia. by rewrite H0.
  - rewrite Nat.add_succ_comm, Hc by lia. by rewrite Hs by lia.
Qed.

Lemma wrap_eqb (x y : nat) :
  Z.abs (Z.of_nat x - Z.of_nat y) < W64 →
  (wrap64 (Z.of_nat x) =? wrap64 (Z.of_nat y)) = (x =? y)%nat.
Proof.
  intros H. destruct (Z.eqb_spec (wrap64 (Z.of_nat x)) (wrap64 (Z.of_nat y))) as [He|He];
    destruct (Nat.eqb_spec x y) as [->|Hn]; try done.
  apply wrap64_inj in He; lia.
Qed.

Lemma ring_cap k r : ring_ok k r → (0 < length (buf r))%nat ∧ Z.of_nat (length (buf r)) < W64.
Proof.
  intros (Hk & _ & Hl). pose proof (Z.pow_pos_nonneg 2 k).
  assert (2 ^ k < W64) by (unfold W64; apply Z.pow_lt_mono_r; lia). lia.
Qed.

Lemma is_full_logical k r (t h : nat) :
  ring_ok k r → (h ≤ t ≤ h + length (buf r))%nat →
  is_full r (wrap64 (Z.of_nat t)) (wrap64 (Z.of_nat h)) = (t =? h + length (buf r))%nat.
Proof.
  intros Hr Ht. apply ring_cap in Hr as [_ Hc]. unfold is_full.
  rewrite wsub_wrap, wrap64_small by (unfold is_u64; lia).
  destruct (Z.eqb_spec (Z.of_nat t - Z.of_nat h) (Z.of_nat (length (buf r))));
    destruct (Nat.eqb_spec t (h + length (buf r))); (done || lia).
Qed.

Lemma wadd_succ (n : nat) : wadd (wrap64 (Z.of_nat n)) 1 = wrap64 (Z.of_nat (S n)).
Proof. rewrite wadd_wrap_l. f_equal. lia. Qed.

Lemma slot_write_logical k r (i : nat) v :
  ring_ok k r →
  slot_write r (wrap64 (Z.of_nat i)) v =
    Ok (mkRing (<[(i mod length (buf r))%nat := Some v]> (buf r)) (mask r) (tail r) (head r)).
Proof.
  intros Hr. unfold slot_write. rewrite (slot_of_logical k) by done.
  destruct (Nat.ltb_spec (i mod length (buf r)) (length (buf r))) as [|Hge]; [done|].
  pose proof (slot_lt i (length (buf r)) (proj1 (ring_cap _ _ Hr))). lia.
Qed.

Lemma slot_take_logical k r (i : nat) v :
  ring_ok k r → buf r !! (i mod length (buf r))%nat = Some (Some v) →
  slot_take r (wrap64 (Z.of_nat i)) =
    Ok (v, mkRing (<[(i mod length (buf r))%nat := None]> (buf r)) (mask r) (tail r) (head r)).
Proof. intros Hr Hb. unfold slot_take. rewrite (slot_of_logical k) by done. by rewrite Hb. Qed.

(** ** One endpoint at a time *)

(** [r] holds the queue [q], after [H] pops. *)
Record ring_rep (k : Z) (r : Ring) (H : nat) (q : list T) : Prop := mkRingRep {
  rr_ok : ring_ok k r;
  rr_head : head r = wrap64 (Z.of_nat H);
  rr_tail : tail r = wrap64 (Z.of_nat (H + length q));
  rr_fits : (length q ≤ length (buf r))%nat;
  rr_cells : cells (buf r) H (λ i, q !! i)
}.

Lemma channel_rep capacity :
  capacity ≤ 2 ^ 63 →
  ∃ k, ring_rep k (channel capacity) 0 [] ∧
    capacity ≤ Z.of_nat (length (buf (channel capacity))) ∧
    Z.of_nat (length (buf (channel capacity))) = 2 ^ k ∧ 1 ≤ k < 64.
Proof.
  intros Hc. set (c := next_power_of_two (Z.max capacity 2)).
  assert (Hge : Z.max capacity 2 ≤ c) by apply next_power_of_two_ge.
  assert (Hle : c ≤ 2 ^ 63) by (apply next_power_of_two_bound; lia).
  destruct (next_power_of_two_pow (Z.max capacity 2)) as (k & Hk & Hck). fold c in Hck.
  assert (Hk63 : k < 64).
  { apply pow2_lt_W64. rewrite <- Hck. unfold W64. lia. }
  assert (Hk1 : 1 ≤ k).
  { destruct (Z.eq_dec k 0) as [->|]; [simpl in Hck; lia|lia]. }
  assert (Hlen : Z.of_nat (length (buf (channel capacity))) = c).
  { simpl. rewrite length_replicate. fold c. lia. }
  exists k. split; [|split; [lia|split; [by rewrite Hlen|lia]]]. split; [|done|done|simpl; lia|].
  - split; [lia|]. split; [|by rewrite Hlen, Hck]. simpl. fold c. rewrite Hck.
    unfold wsub. rewrite wrap64_small; [done|]. unfold is_u64, W64. lia.
  - intros i Hi. simpl in *. rewrite lookup_replicate_2; [done|].
    rewrite length_replicate in *. apply slot_lt. lia.
Qed.

Lemma push_spec k r H q v :
  ring_rep k r H q →
  (length q < length (buf r))%nat ∧
    (∃ r', push v r = Ok (None, r') ∧ ring_rep k r' H (q ++ [v]) ∧
       length (buf r') = length (buf r)) ∨
  length q = length (buf r) ∧ push v r = Ok (Some v, r).
Proof.
  intros [Hok Hh Ht Hf Hc]. unfold push. rewrite Hh, Ht.
  rewrite (is_full_logical k) by (done || lia).
  destruct (Nat.eqb_spec (H + length q) (H + length (buf r))) as [He|Hne].
  - right. split; [lia|done].
  - left. split; [lia|]. rewrite (slot_write_logical k) by done. simpl. eexists.
    split; [done|]. split; [|simpl; apply length_insert].
    destruct Hok as (Hk & Hm & Hl). split; simpl; try done.
    + split; [done|]. split; [done|]. simpl. by rewrite length_insert.
    + rewrite length_app. simpl. by rewrite wadd_succ, Nat.add_1_r, <- plus_n_Sm.
    + rewrite length_app, length_insert. simpl. lia.
    + eapply cells_ext; [apply cells_insert; [lia|exact Hc]|]. intros i Hi. simpl.
      case_decide as Hd.
      * subst i. by rewrite list_lookup_middle.
      * destruct (Nat.lt_ge_cases i (length q)); [by rewrite lookup_app_l|].
        rewrite !lookup_ge_None_2; [done|rewrite length_app; simpl; lia|done].
Qed.

Lemma pop_spec k r H q :
  ring_rep k r H q →
  match q with
  | [] => pop r = Ok (None, r)
  | v :: q' => ∃ r', pop r = Ok (Some v, r') ∧ ring_rep k r' (S H) q' ∧
                 length (buf r') = length (buf r)
  end.
Proof.
  intros [Hok Hh Ht Hf Hc]. pose proof (ring_cap _ _ Hok) as [Hpos Hcap].
  unfold pop. rewrite Hh, Ht, wrap_eqb by lia.
  destruct q as [|v q]; simpl in *.
  - by rewrite Nat.add_0_r, Nat.eqb_refl.
  - destruct (Nat.eqb_spec H (H + S (length q))); [lia|].
    rewrite (slot_take_logical k _ _ v); [|done|].
    2: { rewrite <- (Nat.add_0_r H) at 1. by rewrite Hc by lia. }
    simpl. eexists. split; [done|]. split; [|simpl; apply length_insert].
    destruct Hok as (Hk & Hm & Hl). split; simpl; try done.
    + split; [done|]. split; [done|]. simpl. by rewrite length_insert.
    + apply wadd_succ.
    + by rewrite Ht, <- plus_n_Sm.
    + rewrite length_insert. lia.
    + assert (Hc' := cells_insert _ _ _ 0 None Hpos Hc). rewrite Nat.add_0_r in Hc'.
      eapply cells_shift; [exact Hc'| |]; rewrite length_insert; simpl.
      * symmetry. apply lookup_ge_None_2. lia.
      * intros i Hi. done.
Qed.

Lemma drain_spec k : ∀ max r H q,
  ring_rep k r H q →
  ∃ r', drain max r = Ok (take max q, Nat.min max (length q), r') ∧
    ring_rep k r' (H + Nat.min max (length q)) (drop max q).
Proof.
  intros max r H q Hr. unfold drain.
  assert (Hl : ∃ r', drain_loop max r = Ok (take max q, r') ∧
    ring_rep k r' (H + Nat.min max (length q)) (drop max q)).
  { revert r H q Hr. induction max as [|max IH]; intros r H q Hr; simpl.
    - exists r. by rewrite Nat.add_0_r, drop_0.
    - pose proof (pop_spec _ _ _ _ Hr) as Hp. destruct q as [|v q]; simpl.
      + rewrite Hp. exists r. by rewrite Nat.add_0_r.
      + destruct Hp as (r1 & -> & Hr1 & _). destruct (IH _ _ _ Hr1) as (r2 & Hd & Hr2).
        simpl. rewrite Hd. exists r2. rewrite <- Nat.add_succ_comm. done. }
  destruct Hl as (r' & -> & Hr'). exists r'. simpl. by rewrite length_take.
Qed.

Lemma drop_loop_spec k : ∀ q fuel r H,
  ring_ok k r → (length q ≤ length (buf r))%nat → cells (buf r) H (λ i, q !! i) →
  (length q < fuel)%nat →
  ∃ r', drop_loop fuel r (wrap64 (Z.of_nat H)) (wrap64 (Z.of_nat (H + length q)))
      = Ok (q, r') ∧ cells (buf r') (H + length q) (λ _, None) ∧ length (buf r') = length (buf r).
Proof.
  induction q as [|v q IH]; intros fuel r H Hok Hf Hc Hfu;
    pose proof (ring_cap _ _ Hok) as [Hpos Hcap];
    (destruct fuel as [|fuel]; [lia|]); cbn [drop_loop]; simpl in *;
    rewrite wrap_eqb by lia.
  - rewrite Nat.add_0_r, Nat.eqb_refl. exists r. split; [done|]. done.
  - destruct (Nat.eqb_spec H (H + S (length q))); [lia|].
    rewrite (slot_take_logical k _ _ v); [|done|].
    2: { rewrite <- (Nat.add_0_r H) at 1. by rewrite Hc by lia. }
    simpl. rewrite wadd_succ, <- plus_n_Sm, <- plus_Sn_m.
    set (r1 := mkRing _ _ _ _).
    assert (Hl1 : length (buf r1) = length (buf r)) by apply length_insert.
    destruct (IH fuel r1 (S H)) as (r' & -> & Hc' & Hl').
    + destruct Hok as (? & ? & ?). split; [done|]. by rewrite Hl1.
    + lia.
    + assert (Hc1 := cells_insert _ _ _ 0 None Hpos Hc). rewrite Nat.add_0_r in Hc1.
      eapply cells_shift; [exact Hc1| |]; rewrite Hl1; simpl.
      * symmetry. apply lookup_ge_None_2. lia.
      * intros i Hi. done.
    + lia.
    + exists r'. simpl. split; [done|]. by rewrite Hl', Hl1.
Qed.

(** ** Both endpoints at once *)

(** What slot [H + i] holds: a taken slot stays empty until the pop is
    published, a written slot is filled before the push is. *)
Definition queued (p : ppc) (snt : list T) (j : nat) : option T :=
  match p with
  | PPublish v _ => if decide (j = length snt) then Some v else snt !! j
  | _ => snt !! j
  end.

Definition cell_at (s : State) (i : nat) : option T :=
  match cons_ s with
  | CPublish _ _ =>
    if decide (i = 0%nat) then None else queued (prod s) (sent s) (length (recvd s) + i)
  | _ => queued (prod s) (sent s) (length (recvd s) + i)
  end.

Definition prod_ok (s : State) : Prop :=
  match prod s with
  | PIdle => True
  | PTail _ t => t = tail (ring s)
  | PSlot _ t | PPublish _ t =>
    t = tail (ring s) ∧ (length (sent s) < p_seen s + length (buf (ring s)))%nat
  end.

Definition cons_ok (s : State) : Prop :=
  match cons_ s with
  | CIdle => True
  | CHead h => h = head (ring s)
  | CSlot h => h = head (ring s) ∧ (length (recvd s) < c_seen s)%nat
  | CPublish h v =>
    h = head (ring s) ∧ (length (recvd s) < c_seen s)%nat ∧
    sent s !! length (recvd s) = Some v
  end.

Record Inv (k : Z) (s : State) : Prop := mkInv {
  i_ok : ring_ok k (ring s);
  i_head : head (ring s) = wrap64 (Z.of_nat (length (recvd s)));
  i_tail : tail (ring s) = wrap64 (Z.of_nat (length (sent s)));
  i_fifo : recvd s `prefix_of` sent s;
  i_pseen : (p_seen s ≤ length (recvd s))%nat;
  i_fits : (length (sent s) ≤ p_seen s + length (buf (ring s)))%nat;
  i_cseen : (length (recvd s) ≤ c_seen s ≤ length (sent s))%nat;
  i_prod : prod_ok s;
  i_cons : cons_ok s;
  i_cells : cells (buf (ring s)) (length (recvd s)) (cell_at s)
}.

Lemma ring_init_inv capacity : capacity ≤ 2 ^ 63 → ∃ k, Inv k (init capacity).
Proof.
  intros (k & [Hok Hh Ht Hf Hc] & _)%channel_rep. exists k. split; try done; simpl; lia.
Qed.

Lemma prefix_next (l1 l2 : list T) v :
  l1 `prefix_of` l2 → l2 !! length l1 = Some v → l1 ++ [v] `prefix_of` l2.
Proof.
  intros [l ->] Hv. rewrite lookup_app_r, Nat.sub_diag in Hv by done.
  destruct l as [|w l]; [done|]. simplify_eq/=. exists l. by rewrite <- app_assoc.
Qed.

Lemma push_write_inv k s v t :
  Inv k s → prod s = PSlot v t →
  ∃ s', step PushWrite s = Some (Ok s') ∧ Inv k s'.
Proof.
  intros [Hok Hh Ht Hfi Hps Hft Hcs Hp Hc Hce] Hpc. destruct s as [r p c snt rcv ps cs].
  simpl in *. subst p. destruct Hp as [-> Hlt]. simpl in *.
  rewrite Ht, (slot_write_logical k) by done. simpl. eexists. split; [done|].
  pose proof (prefix_length _ _ Hfi) as Hle.
  split; simpl; rewrite ?length_insert; try done.
  - destruct Hok as (? & ? & ?). split; [done|]. split; [done|]. simpl. by rewrite length_insert.
  - split; simpl; [done|]. by rewrite length_insert.
  - assert (Hj : (length snt - length rcv < length (buf r))%nat) by lia.
    pose proof (cells_insert _ _ _ _ (Some v) Hj Hce) as Hce'.
    replace (length rcv + (length snt - length rcv))%nat with (length snt) in Hce' by lia.
    eapply cells_ext; [exact Hce'|]. intros i Hi. unfold cell_at. simpl.
    rewrite length_insert in Hi.
    destruct c as [| | |h w]; simpl; repeat case_decide; try done; try lia.
    exfalso. destruct Hc as (_ & Hc & _). simpl in Hc. lia.
Qed.

Lemma pop_read_inv k s h :
  Inv k s → cons_ s = CSlot h →
  ∃ s', step PopRead s = Some (Ok s') ∧ Inv k s'.
Proof.
  intros [Hok Hh Ht Hfi Hps Hft Hcs Hp Hc Hce] Hpc. destruct s as [r p c snt rcv ps cs].
  simpl in *. subst c. destruct Hc as [-> Hlt]. simpl in *.
  pose proof (prefix_length _ _ Hfi) as Hle. pose proof (ring_cap _ _ Hok) as [Hpos _].
  assert (Hv : is_Some (snt !! length rcv)) by (apply lookup_lt_is_Some; lia).
  destruct Hv as [v Hv].
  rewrite Hh, (slot_take_logical k _ _ v); [|done|].
  2: { rewrite <- (Nat.add_0_r (length rcv)) at 1. rewrite Hce by lia. unfold cell_at. simpl.
       unfold queued. rewrite Nat.add_0_r. destruct p; rewrite ?decide_False by lia; by rewrite Hv. }
  simpl. eexists. split; [done|]. split; simpl; rewrite ?length_insert; try done.
  - destruct Hok as (? & ? & ?). split; [done|]. split; [done|]. simpl. by rewrite length_insert.
  - unfold prod_ok in *. simpl in *. by rewrite length_insert.
  - pose proof (cells_insert _ _ _ 0 None Hpos Hce) as Hce'. rewrite Nat.add_0_r in Hce'.
    eapply cells_ext; [exact Hce'|]. intros i Hi. unfold cell_at. simpl. by case_decide.
Qed.

Lemma push_publish_inv k s v t :
  Inv k s → prod s = PPublish v t →
  ∃ s', step PushPublish s = Some (Ok s') ∧ Inv k s'.
Proof.
  intros [Hok Hh Ht Hfi Hps Hft Hcs Hp Hc Hce] Hpc. destruct s as [r p c snt rcv ps cs].
  simpl in *. subst p. destruct Hp as [-> Hlt]. simpl in *.
  eexists. split; [done|].
  split; simpl; rewrite ?length_app; simpl; try done; try lia.
  - rewrite Ht, wadd_succ. f_equal. lia.
  - by apply prefix_app_r.
  - unfold cons_ok in *. simpl in *. destruct c as [| | |h w]; try done.
    destruct Hc as (-> & Hc & Hw). split_and!; [done|done|]. by apply lookup_app_l_Some.
  - eapply cells_ext; [exact Hce|]. intros i Hi. unfold cell_at. simpl.
    assert (Hx : ∀ j, (if decide (j = length snt)%nat then Some v else snt !! j)
      = (snt ++ [v]) !! j).
    { intros j. case_decide as Hd; [by rewrite Hd, list_lookup_middle|].
      destruct (Nat.lt_ge_cases j (length snt)); [by rewrite lookup_app_l|].
      rewrite !lookup_ge_None_2; [done|rewrite length_app; simpl; lia|done]. }
    destruct c; by rewrite Hx.
Qed.

Lemma pop_publish_inv k s h v :
  Inv k s → cons_ s = CPublish h v →
  ∃ s', step PopPublish s = Some (Ok s') ∧ Inv k s'.
Proof.
  intros [Hok Hh Ht Hfi Hps Hft Hcs Hp Hc Hce] Hpc. destruct s as [r p c snt rcv ps cs].
  simpl in *. subst c. destruct Hc as (-> & Hlt & Hv). simpl in *.
  pose proof (ring_cap _ _ Hok) as [Hpos _].
  exists (mkState (set_head r (wadd (head r) 1)) p CIdle snt (rcv ++ [v]) ps cs).
  split; [done|].
  split; simpl; rewrite ?length_app; simpl; try done; try lia.
  - rewrite Hh, wadd_succ. f_equal. lia.
  - by apply prefix_next.
  - rewrite Nat.add_1_r. eapply cells_shift; [exact Hce| |]; unfold cell_at; simpl;
      rewrite length_app; simpl.
    + symmetry. unfold queued. unfold prod_ok in Hp. simpl in Hp.
      destruct p as [| | |w t]; [apply lookup_ge_None_2; lia..|].
      rewrite decide_False by lia. apply lookup_ge_None_2. lia.
    + intros i Hi. f_equal. lia.
Qed.

Lemma ring_step_inv k s l o :
  Inv k s → step l s = Some o → ∃ s', o = Ok s' ∧ Inv k s'.
Proof.
  intros Hi Hst. pose proof Hi as [Hok Hh Ht Hfi Hps Hft Hcs Hp Hc Hce].
  pose proof (prefix_length _ _ Hfi) as Hle. pose proof (ring_cap _ _ Hok) as [_ Hcap].
  assert (Hdone : ∀ s', (∃ s'', step l s = Some (Ok s'') ∧ Inv k s'') →
    Some o = s' → s' = step l s → ∃ s', o = Ok s' ∧ Inv k s').
  { intros s' (s'' & Hs & ?) <- He. rewrite Hs in He. simplify_eq. eauto. }
  destruct l as [v|j| | | |j| |].
  3: { destruct (prod s) as [| |v t|] eqn:Hpc; try (destruct s; simpl in *; by subst).
       eapply Hdone; [by eapply push_write_inv|done|done]. }
  3: { destruct (prod s) as [| | |v t] eqn:Hpc; try (destruct s; simpl in *; by subst).
       eapply Hdone; [by eapply push_publish_inv|done|done]. }
  5: { destruct (cons_ s) as [| |h|] eqn:Hpc;
         try (destruct s; simpl in *; by subst).
       eapply Hdone; [by eapply pop_read_inv|done|done]. }
  5: { destruct (cons_ s) as [| | |h v] eqn:Hpc;
         try (destruct s; simpl in *; by subst).
       eapply Hdone; [by eapply pop_publish_inv|done|done]. }
  all: clear Hdone Hi; destruct s as [r p c snt rcv ps cs]; simpl in *.
  - destruct p; simplify_eq/=. eexists. split; [done|]. by split.
  - destruct p as [|v t| |]; simplify_eq/=. destruct (_ && _)%nat eqn:Hb; simplify_eq/=.
    apply andb_true_iff in Hb as [Hb1%Nat.leb_le Hb2%Nat.leb_le].
    eexists. split; [done|]. unfold prod_ok in Hp. simpl in Hp. subst t.
    rewrite Ht, (is_full_logical k) by (done || lia).
    split; simpl; try done; try lia; destruct (Nat.eqb_spec (length snt) (j + length (buf r)));
      try done; try lia. split; [done|]. simpl. lia.
  - destruct c; simplify_eq/=. eexists. split; [done|]. by split.
  - destruct c as [|h| |]; simplify_eq/=. destruct (_ && _)%nat eqn:Hb; simplify_eq/=.
    apply andb_true_iff in Hb as [Hb1%Nat.leb_le Hb2%Nat.leb_le].
    eexists. split; [done|]. unfold cons_ok in Hc. simpl in Hc. subst h.
    rewrite Hh, wrap_eqb by lia.
    split; simpl; try done; try lia; destruct (Nat.eqb_spec (length rcv) j);
      try done; try lia. split; simpl; [done|lia].
Qed.

Lemma ring_reachable_inv capacity s :
  capacity ≤ 2 ^ 63 → reachable capacity s →
  (∃ k, Inv k s) ∧ length (buf (ring s)) = length (buf (channel capacity)).
Proof.
  intros Hc. induction 1 as [|s l s' _ [[k IH] IHl] Hst]; [by split; [apply ring_init_inv|]|].
  destruct (ring_step_inv _ _ _ _ IH Hst) as (s'' & [= <-] & Hi). split; [eauto|]. rewrite <- IHl.
  destruct l as [v|j| | | |j| |]; destruct s as [r p c snt rcv ps cs]; simpl in Hst;
    first [destruct p; simplify_eq/=; repeat case_match; simplify_eq/=; done
          |destruct c; simplify_eq/=; repeat case_match; simplify_eq/=; done
          |destruct p; simplify_eq/=; unfold slot_write in *; repeat case_match;
             simplify_eq/=; apply length_insert
          |destruct c; simplify_eq/=; unfold slot_take in *;
             destruct (buf r !! slot_of r h) as [[w|]|]; simplify_eq/=; apply length_insert].
Qed.

(** Running a sequence of accesses. *)
Fixpoint run_labels (ls : list label) (s : State) : option State :=
  match ls with
  | [] => Some s
  | l :: ls =>
    match step l s with
    | Some (Ok s') => run_labels ls s'
    | _ => None
    end
  end.

Lemma run_labels_reachable capacity ls : ∀ s s',
  reachable capacity s → run_labels ls s = Some s' → reachable capacity s'.
Proof.
  induction ls as [|l ls IH]; intros s s' Hr Hs; simplify_eq/=; [done|].
  destruct (step l s) as [[s1|]|] eqn:Hst; [|done..].
  apply (IH s1); [by eapply reach_step|done].
Qed.

(** ** Histories of whole calls *)

Inductive call : Type :=
| CPush (v : T)
| CPop
| CDrain (max : nat).

Inductive ret : Type :=
| RPush (rejected : option T)
| RPop (o : option T)
| RDrain (vs : list T) (n : nat).

(** The bounded queue of capacity [cap] the ring stands for. *)
Definition fifo_call (cap : nat) (c : call) (q : list T) : ret * list T :=
  match c with
  | CPush v =>
    if decide (length q < cap)%nat then (RPush None, q ++ [v]) else (RPush (Some v), q)
  | CPop => (RPop (List.hd_error q), List.tl q)
  | CDrain max => (RDrain (take max q) (Nat.min max (length q)), drop max q)
  end.

Definition ring_call (c : call) (r : Ring) : res (ret * Ring) :=
  match c with
  | CPush v => '(o, r) ←r push v r; Ok (RPush o, r)
  | CPop => '(o, r) ←r pop r; Ok (RPop o, r)
  | CDrain max => '(vs, n, r) ←r drain max r; Ok (RDrain vs n, r)
  end.

Fixpoint fifo_calls (cap : nat) (cs : list call) (q : list T) : list ret * list T :=
  match cs with
  | [] => ([], q)
  | c :: cs =>
    let '(x, q) := fifo_call cap c q in
    let '(xs, q) := fifo_calls cap cs q in (x :: xs, q)
  end.

Fixpoint ring_calls (cs : list call) (r : Ring) : res (list ret * Ring) :=
  match cs with
  | [] => Ok ([], r)
  | c :: cs =>
    '(x, r) ←r ring_call c r;
    '(xs, r) ←r ring_calls cs r;
    Ok (x :: xs, r)
  end.

Lemma drain_length max r vs n r' :
  drain max r = Ok (vs, n, r') → length (buf r') = length (buf r).
Proof.
  unfold drain. destruct (drain_loop max r) as [[ws r1]|] eqn:Hd; simpl; [|done].
  intros [= <- <- <-]. revert r ws Hd. induction max as [|max IH]; intros r ws Hd; simplify_eq/=; [done|].
  destruct (pop r) as [[[v|] r2]|] eqn:Hp; simplify_eq/=; cycle 1.
  - unfold pop in Hp. case_match; simplify_eq/=; [done|].
    by destruct (slot_take r (head r)) as [[]|].
  - destruct (drain_loop max r2) as [[ws' r3]|] eqn:Hd2; simplify_eq/=.
    rewrite (IH _ _ Hd2). unfold pop, slot_take in Hp. case_match; [done|].
    destruct (buf r !! slot_of r (head r)) as [[w|]|]; simplify_eq/=. apply length_insert.
Qed.

Lemma ring_call_ok k c r H q :
  ring_rep k r H q →
  ∃ r' H', ring_call c r = Ok (fst (fifo_call (length (buf r)) c q), r') ∧
    ring_rep k r' H' (snd (fifo_call (length (buf r)) c q)) ∧
    length (buf r') = length (buf r).
Proof.
  intros Hr. destruct c as [v| |max]; simpl.
  - destruct (push_spec k r H q v Hr) as [[Hlt (r' & -> & Hr' & Hl)]|[He ->]].
    + rewrite decide_True by done. simpl. eauto.
    + rewrite decide_False by lia. simpl. eauto.
  - pose proof (pop_spec k r H q Hr) as Hp. destruct q as [|v q].
    + rewrite Hp. simpl. eauto.
    + destruct Hp as (r' & -> & Hr' & Hl). simpl. eauto.
  - destruct (drain_spec k max r H q Hr) as (r' & Hd & Hr'). rewrite Hd. simpl.
    exists r'. eexists. split; [done|]. split; [done|]. by eapply drain_length.
Qed.

Lemma ring_calls_ok k cs : ∀ r H q,
  ring_rep k r H q →
  ∃ r' H', ring_calls cs r = Ok (fst (fifo_calls (length (buf r)) cs q), r') ∧
    ring_rep k r' H' (snd (fifo_calls (length (buf r)) cs q)) ∧
    length (buf r') = length (buf r).
Proof.
  induction cs as [|c cs IH]; intros r H q Hr; simpl; [eauto|].
  destruct (ring_call_ok k c r H q Hr) as (r1 & H1 & -> & Hr1 & Hl1). simpl.
  destruct (fifo_call (length (buf r)) c q) as [x q1]. simpl in *.
  destruct (IH r1 H1 q1 Hr1) as (r2 & H2 & -> & Hr2 & Hl2). rewrite Hl1 in *. simpl.
  destruct (fifo_calls (length (buf r)) cs q1) as [xs q2]. simpl in *.
  eexists _, _. split; [done|]. split; [done|]. by rewrite Hl2.
Qed.

End spsc.
Arguments Ring : clear implicits.
Arguments State : clear implicits.
Arguments label : clear implicits.
Arguments call : clear implicits.
Arguments ret : clear implicits.

(** ** Claims *)

(** [C7] The ring under both endpoints at once, each cursor load possibly
    lagging: in every reachable state what the consumer took is a prefix of
    what the producer published, at most the capacity is in flight, and
    whatever access either side makes next is free of faults (in bounds, never
    an uninitialised read). *)
Theorem spsc_safety {T : Type} (capacity : Z) (s : State T) (Hcap : capacity ≤ 2 ^ 63)
    (Hreach : reachable capacity s) :
  recvd s `prefix_of` sent s ∧
  (length (sent s) ≤ length (recvd s) + length (buf (channel (T := T) capacity)))%nat ∧
  ∀ l o, step l s = Some o → ∃ s', o = Ok s'.
Proof.
  destruct (ring_reachable_inv capacity s Hcap Hreach) as [[k Hi] Hl]. rewrite <- Hl.
  pose proof Hi as [Hok Hh Ht Hfi Hps Hft Hcs Hp Hc Hce].
  split; [done|]. split; [lia|]. intros l o Hst.
  destruct (ring_step_inv _ _ _ _ Hi Hst) as (s' & -> & _). eauto.
Qed.

(** Flow control: with up-to-date cursors [push] refuses exactly when the
    ring holds [capacity] values and [pop] returns [None] exactly when it is
    empty, whatever the wrap-around of the cursors; with a lagging cursor they
    may only err on the safe side. *)
Lemma spsc_flow_control {T : Type} (capacity : Z) (s s' : State T) (v : T) (t h : Z) (j : nat)
    (Hcap : capacity ≤ 2 ^ 63) (Hreach : reachable capacity s) :
  (prod s = PTail v t → step (PushLoadHead j) s = Some (Ok s') →
    (prod s' = PIdle ↔ length (sent s) = j + length (buf (channel (T := T) capacity)))%nat) ∧
  (cons_ s = CHead h → step (PopLoadTail j) s = Some (Ok s') →
    (cons_ s' = CIdle ↔ length (recvd s) = j)).
Proof.
  destruct (ring_reachable_inv capacity s Hcap Hreach) as [[k Hi] Hl]. rewrite <- Hl.
  pose proof Hi as [Hok Hh Ht Hfi Hps Hft Hcs Hp Hc Hce].
  pose proof (prefix_length _ _ Hfi) as Hle. pose proof (ring_cap _ _ Hok) as [_ Hcp].
  destruct s as [r p c snt rcv ps cs]. simpl in *. split; intros Hpc Hst; subst.
  - destruct ((ps <=? j) && (j <=? length rcv))%nat eqn:Hb; simplify_eq/=.
    apply andb_true_iff in Hb as [Hb1%Nat.leb_le Hb2%Nat.leb_le].
    unfold prod_ok in Hp. simpl in Hp. subst t. rewrite Ht, (is_full_logical k) by (done || lia).
    by destruct (Nat.eqb_spec (length snt) (j + length (buf r))).
  - destruct ((cs <=? j) && (j <=? length snt))%nat eqn:Hb; simplify_eq/=.
    apply andb_true_iff in Hb as [Hb1%Nat.leb_le Hb2%Nat.leb_le].
    unfold cons_ok in Hc. simpl in Hc. subst h. rewrite Hh, wrap_eqb by lia.
    by destruct (Nat.eqb_spec (length rcv) j).
Qed.

(** [C19] Whole calls refine a bounded queue: any sequence of [push], [pop] and
    [drain] on a new channel returns what it returns on a FIFO list of the
    ring's capacity, which is a power of two at least the requested one, and
    dropping the ring then drops exactly the values still queued, in order. *)
Theorem spsc_refines_fifo {T : Type} (capacity : Z) (cs : list (call T))
    (Hcap : capacity ≤ 2 ^ 63) :
  let cap := length (buf (channel (T := T) capacity)) in
  capacity ≤ Z.of_nat cap ∧
  ∃ r r',
    ring_calls cs (channel capacity) = Ok (fst (fifo_calls cap cs []), r) ∧
    drop_ring r = Ok (snd (fifo_calls cap cs []), r').
Proof.
  destruct (channel_rep (T := T) capacity Hcap) as (k & Hr & Hge & _ & _). split; [done|].
  destruct (ring_calls_ok k cs _ _ _ Hr) as (r & H & Hrun & [Hok Hh Ht Hf Hc] & Hl).
  destruct (drop_loop_spec k _ (length (buf r) + 1) r H Hok Hf Hc) as (r' & Hd & _); [lia|].
  exists r, r'. split; [done|]. unfold drop_ring. by rewrite Hh, Ht.
Qed.

(** ** Witnesses *)

Definition one_sent : State Z :=
  mkState (mkRing [Some 5; None] 1 1 0) PIdle CIdle [5] [] 0 0.

Lemma one_sent_reachable : reachable 2 one_sent.
Proof.
  eapply (run_labels_reachable _ [PushBegin 5; PushLoadHead 0; PushWrite; PushPublish]);
    [apply reach_init|]. vm_compute. reflexivity.
Qed.

Lemma spsc_safety_witness :
  2 ≤ 2 ^ 63 ∧
  recvd one_sent `prefix_of` sent one_sent ∧
  (length (sent one_sent) ≤ length (recvd one_sent) + length (buf (channel (T := Z) 2)))%nat ∧
  ∀ l o, step l one_sent = Some o → ∃ s', o = Ok s'.
Proof.
  split; [vm_compute; discriminate|].
  apply (spsc_safety 2 one_sent); [vm_compute; discriminate|apply one_sent_reachable].
Defined.

Lemma spsc_refines_fifo_witness :
  let cap := length (buf (channel (T := Z) 2)) in
  2 ≤ Z.of_nat cap ∧
  ∃ r r',
    ring_calls [CPush 1; CPush 2; CPush 3; CPop; CPush 4; CDrain 1] (channel 2)
      = Ok ([RPush None; RPush None; RPush (Some 3); RPop (Some 1); RPush None; RDrain [2] 1], r) ∧
    drop_ring r = Ok ([4], r').
Proof.
  apply (spsc_refines_fifo 2 [CPush 1; CPush 2; CPush 3; CPop; CPush 4; CDrain 1]).
  vm_compute. discriminate.
Defined.
