(* ===== verification/Shard.v ===== *)
(** * Shard: the hash-partitioned index

    Models [crates/zerokv/src/shard.rs] over any index with the laws of
    [IndexLaws]: routing by FNV-1a and a power-of-two mask, and the proof that
    the partition as a whole is again such an index. The epoch guard each
    operation pins has no effect on what a lone operation returns. *)

From S2P Require Import Prelude Index.
Local Open Scope Z_scope.
Local Open Scope zkv_scope.

(** [fnv1a]. *)
Definition fnv1a (bs : bytes) : Z :=
  foldl (λ h b, wmul (Z.lxor h b) 0x100000001B3) 0xcbf29ce484222325 bs.

Section shard.
Context {T : Type} `{!Index T}.

Record ShardedIndex : Type := mkSharded {
  shards : list T;
  mask : Z
}.

(** [ShardedIndex::new]; [build i hint] is the [i]-th call of
    [SkipList::with_capacity_hint]. *)
Fixpoint build_shards (build : nat → Z → res T) (hint : Z) (ix : list nat) : res (list T) :=
  match ix with
  | [] => Ok []
  | i :: ix =>
    t ←r build i hint;
    ts ←r build_shards build hint ix;
    Ok (t :: ts)
  end.

Definition ShardedIndex_new (build : nat → Z → res T) (num_shards capacity_hint : Z)
    : res ShardedIndex :=
  let k := next_power_of_two (Z.max num_shards 1) in
  let per_shard := Z.max (capacity_hint / k) 2 in
  v ←r build_shards build per_shard (seq 0 (Z.to_nat k));
  Ok (mkSharded v (wsub k 1)).

(** [ShardedIndex::shard]: the slot a key is routed to. *)
Definition route (mask : Z) (key : bytes) : nat := Z.to_nat (Z.land (fnv1a key) mask).

Definition shard (t : ShardedIndex) (key : bytes) : res T :=
  or_err Panic (shards t !! route (mask t) key).

Definition set_shard (t : ShardedIndex) (key : bytes) (s : T) : ShardedIndex :=
  mkSharded (<[route (mask t) key := s]> (shards t)) (mask t).

(** [insert], [get]/[get_owned], [remove], [len]. *)
Definition sh_insert (key val : bytes) (t : ShardedIndex) : res (bool * ShardedIndex) :=
  s ←r shard t key;
  '(b, s) ←r idx_insert key val s;
  Ok (b, set_shard t key s).

Definition sh_get (key : bytes) (t : ShardedIndex) : res (option bytes * ShardedIndex) :=
  s ←r shard t key;
  '(v, s) ←r idx_get key s;
  Ok (v, set_shard t key s).

Definition sh_remove (key : bytes) (t : ShardedIndex) : res (bool * ShardedIndex) :=
  s ←r shard t key;
  '(b, s) ←r idx_remove key s;
  Ok (b, set_shard t key s).

Definition sh_len (t : ShardedIndex) : Z := foldr (λ s n, wadd (idx_len s) n) 0 (shards t).
Definition sh_is_empty (t : ShardedIndex) : bool := sh_len t =? 0.
Definition num_shards (t : ShardedIndex) : nat := length (shards t).

(** ** The partition *)

(** The part of a map that lives in slot [i]. *)
Definition part (mask : Z) (i : nat) (M : store_map) : store_map :=
  filter (λ kv, route mask kv.1 = i) M.

Definition sh_rep (t : ShardedIndex) (M : store_map) (n : nat) : Prop :=
  (∃ p, 0 ≤ p < 64 ∧ mask t = 2 ^ p - 1 ∧ Z.of_nat (length (shards t)) = 2 ^ p) ∧
  ∀ i s, shards t !! i = Some s → idx_rep s (part (mask t) i M) n.

Lemma route_lt p key : 0 ≤ p → Z.of_nat (route (2 ^ p - 1) key) < 2 ^ p.
Proof.
  intros Hp. unfold route. rewrite land_mask by done.
  pose proof (Z.mod_pos_bound (fnv1a key) (2 ^ p)). pose proof (Z.pow_pos_nonneg 2 p). lia.
Qed.

Lemma shard_ok t M n key :
  sh_rep t M n → ∃ s, shard t key = Ok s ∧ shards t !! route (mask t) key = Some s ∧
    idx_rep s (part (mask t) (route (mask t) key) M) n.
Proof.
  intros [(p & Hp & Hm & Hl) Hs].
  assert (is_Some (shards t !! route (mask t) key)) as [s Hk].
  { apply lookup_lt_is_Some. pose proof (route_lt p key ltac:(lia)). rewrite Hm. lia. }
  exists s. unfold shard. rewrite Hk. split; [done|]. split; [done|]. by apply Hs.
Qed.

Lemma part_lookup mask key M : part mask (route mask key) M !! key = M !! key.
Proof.
  unfold part. destruct (M !! key) eqn:E.
  - apply map_lookup_filter_Some. done.
  - apply map_lookup_filter_None. by left.
Qed.

Lemma part_insert mask i key val M :
  part mask i (<[key := val]> M) =
  if decide (route mask key = i) then <[key := val]> (part mask i M) else part mask i M.
Proof.
  unfold part. case_decide as Hd.
  - by rewrite map_filter_insert_True.
  - rewrite map_filter_insert_False by done. rewrite map_filter_delete.
    apply delete_id, map_lookup_filter_None. right. intros x _. done.
Qed.

Lemma part_delete mask i key M :
  part mask i (delete key M) =
  if decide (route mask key = i) then delete key (part mask i M) else part mask i M.
Proof.
  unfold part. rewrite map_filter_delete. case_decide as Hd; [done|].
  apply delete_id, map_lookup_filter_None. right. intros x _. done.
Qed.

(** Replacing one shard by one that holds its part of [M']. *)
Lemma set_shard_rep t M M' n n' key s :
  sh_rep t M n →
  (∀ i, i ≠ route (mask t) key → part (mask t) i M' = part (mask t) i M) →
  idx_rep s (part (mask t) (route (mask t) key) M') n' →
  (∀ s M, idx_rep s M n → idx_rep s M n') →
  sh_rep (set_shard t key s) M' n'.
Proof.
  intros [(p & Hp & Hm & Hl) Hs] Ho Hr Hw. split.
  - exists p. simpl. by rewrite length_insert.
  - intros i s' Hi. simpl in *. apply list_lookup_insert_Some in Hi as [(<- & <- & _)|[Hne Hi]].
    + done.
    + rewrite Ho by done. apply Hw. by apply Hs.
Qed.

(** Two maps with the same parts have the same size as their parts together. *)
Lemma part_sizes mask (k : nat) M :
  map_Forall (λ key _, (route mask key < k)%nat) M →
  sum_list_with (λ i, size (part mask i M)) (seq 0 k) = size M.
Proof.
  revert M. induction k as [|k IH]; intros M HM.
  - assert (M = ∅) as ->; [|done]. apply map_empty. intros x. apply eq_None_not_Some.
    intros [y Hy]. specialize (HM x y Hy). simpl in HM. lia.
  - rewrite seq_S, sum_list_with_app. simpl. rewrite Nat.add_0_r.
    set (M' := filter (λ kv, route mask kv.1 ≠ k) M).
    assert (Hlow : ∀ i, (i < k)%nat → part mask i M = part mask i M').
    { intros i Hi. apply map_eq. intros x. unfold part, M'. apply option_eq. intros y.
      rewrite !map_lookup_filter_Some. simpl. naive_solver lia. }
    rewrite <- (map_filter_union_complement (λ kv, route mask kv.1 = k) M).
    rewrite map_size_disj_union by apply map_disjoint_filter_complement.
    rewrite map_filter_union_complement. fold (part mask k M). rewrite Nat.add_comm. f_equal.
    change (filter (λ v, ¬ route mask v.1 = k) M) with M'.
    rewrite <- (IH M').
    + assert (Hseq : ∀ l, Forall (λ i, (i < k)%nat) l →
        sum_list_with (λ i, size (part mask i M)) l = sum_list_with (λ i, size (part mask i M')) l).
      { induction 1 as [|i l Hi _ IHl]; simpl; [done|]. by rewrite IHl, Hlow. }
      apply Hseq, Forall_forall. intros i Hi%elem_of_seq. lia.
    + intros x y Hy. apply map_lookup_filter_Some in Hy as [Hy Hne]. specialize (HM x y Hy).
      simpl in *. lia.
Qed.

Context `{!IndexLaws T}.

Lemma len_parts (mask : Z) (n : nat) (M : store_map) : ∀ (ss : list T) (o : nat),
  (∀ i s, ss !! i = Some s → idx_rep s (part mask (o + i) M) n) →
  foldr (λ s acc, wadd (idx_len s) acc) 0 ss =
  wrap64 (Z.of_nat (sum_list_with (λ i, size (part mask i M)) (seq o (length ss)))).
Proof.
  induction ss as [|s ss IH]; intros o Hs; simpl; [done|].
  rewrite (IH (S o)).
  - specialize (Hs 0%nat s eq_refl). rewrite Nat.add_0_r in Hs.
    rewrite (idx_len_ok _ _ _ Hs), wadd_wrap_l. unfold wrap64. rewrite Zplus_mod_idemp_r.
    f_equal. lia.
  - intros i s' Hi. rewrite Nat.add_succ_comm. by apply (Hs (S i)).
Qed.

#[export] Instance sharded_index : Index ShardedIndex := {|
  idx_insert := sh_insert;
  idx_get := sh_get;
  idx_remove := sh_remove;
  idx_len := sh_len;
  idx_rep := sh_rep
|}.

#[export] Instance sharded_laws : IndexLaws ShardedIndex.
Proof.
  split; simpl.
  - intros k v t M n Hr. destruct (shard_ok t M (S n) k Hr) as (s & Hs & _ & Hi).
    destruct (idx_insert_ok k v s _ n Hi) as (s' & Hins & Hr').
    unfold sh_insert. rewrite Hs. simpl. rewrite Hins. simpl. rewrite part_lookup.
    eexists. split; [done|]. eapply set_shard_rep; [exact Hr| | |].
    + intros i Hne. rewrite part_insert, decide_False by congruence. done.
    + by rewrite part_insert, decide_True.
    + intros s0 M0 H0. eapply idx_rep_weaken; [exact H0|lia].
  - intros k t M n Hr. destruct (shard_ok t M n k Hr) as (s & Hs & Hlk & Hi).
    unfold sh_get. rewrite Hs. simpl. rewrite (idx_get_ok k s _ n Hi). simpl.
    rewrite part_lookup. unfold set_shard. rewrite list_insert_id by done. by destruct t.
  - intros k t M n Hr. destruct (shard_ok t M n k Hr) as (s & Hs & _ & Hi).
    destruct (idx_remove_ok k s _ n Hi) as (s' & Hrm & Hr').
    unfold sh_remove. rewrite Hs. simpl. rewrite Hrm. simpl. rewrite part_lookup.
    eexists. split; [done|]. eapply set_shard_rep; [exact Hr| | |done].
    + intros i Hne. rewrite part_delete, decide_False by congruence. done.
    + by rewrite part_delete, decide_True.
  - intros t M n [(p & Hp & Hm & Hl) Hs]. unfold sh_len.
    rewrite (len_parts (mask t) n M _ 0) by done. f_equal. f_equal. apply part_sizes.
    intros key v _. pose proof (route_lt p key ltac:(lia)). rewrite Hm. lia.
  - intros t M n n' [Hm Hs] Hn. split; [done|]. intros i s Hi.
    eapply idx_rep_weaken; [by apply Hs|done].
Qed.

Lemma build_shards_ok build hint n : ∀ ix,
  (∀ i, ∃ t, build i hint = Ok t ∧ idx_rep t ∅ n) →
  ∃ ts, build_shards build hint ix = Ok ts ∧ length ts = length ix ∧
    Forall (λ t, idx_rep t ∅ n) ts.
Proof.
  intros ix Hb. induction ix as [|i ix (ts & Hts & Hl & Hall)]; simpl; [by exists []|].
  destruct (Hb i) as (t & -> & Ht). simpl. rewrite Hts. simpl.
  exists (t :: ts). simpl. rewrite Hl. split; [done|]. split; [done|]. by constructor.
Qed.

Lemma sharded_new_rep build num hint n :
  num ≤ 2 ^ 63 → (∀ i h, ∃ t, build i h = Ok t ∧ idx_rep t ∅ n) →
  ∃ t, ShardedIndex_new build num hint = Ok t ∧ sh_rep t ∅ n ∧
    num ≤ Z.of_nat (num_shards t).
Proof.
  intros Hnum Hb. unfold ShardedIndex_new. set (k := next_power_of_two (Z.max num 1)).
  assert (Hk : Z.max num 1 ≤ k ≤ 2 ^ 63).
  { split; [apply next_power_of_two_ge|apply next_power_of_two_bound; lia]. }
  destruct (next_power_of_two_pow (Z.max num 1)) as (p & Hp & Hkp). fold k in Hkp.
  destruct (build_shards_ok build (Z.max (hint / k) 2) n (seq 0 (Z.to_nat k))) as
    (ts & -> & Hl & Hall); [eauto|]. simpl. rewrite length_seq in Hl.
  eexists. split; [done|]. split; [split|unfold num_shards; simpl; lia].
  - exists p. simpl. assert (p < 64) by (apply pow2_lt_W64; unfold W64; lia).
    unfold wsub. rewrite wrap64_small by (unfold is_u64, W64; lia). lia.
  - simpl. intros i s Hi. unfold part. rewrite map_filter_empty.
    by eapply (Forall_lookup_1 _ _ _ _ Hall).
Qed.

End shard.
Arguments ShardedIndex : clear implicits.

(** ** Claims *)

(** Routing partitions the key space: the shard count is a power of two
    at least the requested one, every key is routed to exactly one existing
    shard, and the routed slot depends on the key alone. *)
Lemma shard_routing {T : Type} `{!Index T, !IndexLaws T} (build : nat → Z → res T)
    (num hint : Z) (n : nat) (key : bytes)
    (Hnum : num ≤ 2 ^ 63) (Hbuild : ∀ i h, ∃ t, build i h = Ok t ∧ idx_rep t ∅ n) :
  ∃ t s, ShardedIndex_new build num hint = Ok t ∧ num ≤ Z.of_nat (num_shards t) ∧
    is_power_of_two (Z.of_nat (num_shards t)) = true ∧
    Z.of_nat (route (mask t) key) = fnv1a key mod Z.of_nat (num_shards t) ∧
    shard t key = Ok s.
Proof.
  destruct (sharded_new_rep build num hint n Hnum Hbuild) as (t & Hnew & Hr & Hge).
  destruct (shard_ok t ∅ n key Hr) as (s & Hs & _). destruct Hr as [(p & Hp & Hm & Hl) _].
  exists t, s. unfold num_shards in *. rewrite Hl in *. split_and!; try done.
  - apply is_power_of_two_spec. exists p. split; [lia|done].
  - unfold route. rewrite Hm, land_mask by lia. pose proof (Z.pow_pos_nonneg 2 p).
    pose proof (Z.mod_pos_bound (fnv1a key) (2 ^ p)). lia.
Qed.

(** [C18] The sharded index over any lawful shards implements a finite map:
    every history returns what it returns on a map, the length being the sum
    over the shards. *)
Theorem sharded_refines_map {T : Type} `{!Index T, !IndexLaws T} (build : nat → Z → res T)
    (num hint : Z) (os : list op)
    (Hnum : num ≤ 2 ^ 63)
    (Hbuild : ∀ i h, ∃ t, build i h = Ok t ∧ idx_rep t ∅ (length os)) :
  ∃ t t', ShardedIndex_new build num hint = Ok t ∧
    index_ops os t = Ok (fst (map_ops os ∅), t') ∧
    sh_rep t' (snd (map_ops os ∅)) 0.
Proof.
  destruct (sharded_new_rep build num hint _ Hnum Hbuild) as (t & Hnew & Hr & _).
  assert (Hr0 : idx_rep t ∅ (length os)) by exact Hr.
  destruct (index_ops_ok os t ∅ Hr0) as (t' & Hrun & Hr'). exists t, t'. done.
Qed.

(** ** Witnesses: shards that are plain maps *)

Definition map_build (i : nat) (h : Z) : res store_map := Ok ∅.

Lemma map_build_ok n : ∀ i h, ∃ t, map_build i h = Ok t ∧ idx_rep t ∅ n.
Proof. intros i h. by exists ∅. Qed.

Lemma sharded_refines_map_witness :
  ∃ t t', ShardedIndex_new map_build 3 100 = Ok t ∧
    index_ops [Put [1] [2]; Put [3] [4]; Del [1]; Len; Get [3]] t
    = Ok ([OBool true; OBool true; OBool true; OLen 1; OBytes (Some [4])], t') ∧
    sh_rep t' (delete [1] {[ [1] := [2]; [3] := [4] ]}) 0.
Proof.
  apply (sharded_refines_map map_build 3 100 [Put [1] [2]; Put [3] [4]; Del [1]; Len; Get [3]]);
    [vm_compute; discriminate|apply map_build_ok].
Defined.
