(* ===== verification/ShardLin.v ===== *)
(** * ShardLin: the sharded index shared by threads

    Threads call [insert] and [get], or [remove] and [get], of one
    [ShardedIndex] ([shard.rs]): a call routes its key and runs on the skiplist
    of that slot, and the accesses of all calls interleave in any order. Each
    slot is a pool of [SkipListPool.v] on a memory of its own; an event that is
    not for a slot only lets time pass there. The slots being linearizable
    ([SkipListLin], [SkipListRemLin]), so is the index. *)

From S2P Require Import Prelude Index Shard SkipList SkipListProof SkipListRep SkipListRemove.
From S2P Require Import SkipListPool SkipListLin SkipListConcRem SkipListRemLin.
Local Open Scope Z_scope.
Local Open Scope zkv_scope.

(** ** Events on the slots *)

Abbreviation slot := (SkipList * Pool)%type.

(** Thread [i] is inside a call on the slot. *)
Definition in_call (i : nat) (p : slot) : bool :=
  match threads p.2 !! i with Some (Some _) => true | _ => false end.
Definition busy (i : nat) (ps : list slot) : bool := existsb (in_call i) ps.

(** What slot [j] sees of an event of [n] threads; [Step n] is a step of
    nobody. *)
Definition local_event (n : nat) (mask : Z) (ps : list slot) (e : event) (j : nat) (p : slot) : event :=
  match e with
  | Invoke i c => if negb (busy i ps) && (route mask (call_key c) =? j)%nat then Invoke i c else Step n
  | Step i => if in_call i p then Step i else Step n
  end.

Fixpoint slots_event (fuel : nat) (ev : nat → slot → event) (j : nat) (ps : list slot) : res (list slot) :=
  match ps with
  | [] => Ok []
  | p :: ps =>
    σ ←r pool_event fuel p.1 (ev j p) p.2;
    ps ←r slots_event fuel ev (S j) ps;
    Ok ((p.1, σ) :: ps)
  end.

Definition index_event (fuel n : nat) (mask : Z) (e : event) (ps : list slot) : res (list slot) :=
  slots_event fuel (local_event n mask ps e) 0 ps.

Fixpoint index_exec (fuel n : nat) (mask : Z) (es : list event) (ps : list slot) : res (list slot) :=
  match es with
  | [] => Ok ps
  | e :: es => ps ←r index_event fuel n mask e ps; index_exec fuel n mask es ps
  end.

Lemma index_exec_snoc fuel n mask es e ps :
  index_exec fuel n mask (es ++ [e]) ps
  = (ps' ←r index_exec fuel n mask es ps; index_event fuel n mask e ps').
Proof.
  revert ps. induction es as [|e' es IH]; intros ps; simpl.
  - by destruct (index_event fuel n mask e ps).
  - destruct (index_event fuel n mask e' ps) as [ps1|]; simpl; [apply IH|done].
Qed.

Lemma pool_exec_snoc fuel sl es e σ :
  pool_exec fuel sl (es ++ [e]) σ = (σ' ←r pool_exec fuel sl es σ; pool_event fuel sl e σ').
Proof.
  revert σ. induction es as [|e' es IH]; intros σ; simpl.
  - by destruct (pool_event fuel sl e σ).
  - destruct (pool_event fuel sl e' σ) as [σ1|]; simpl; [apply IH|done].
Qed.

(** If every slot takes its event, so does the index. *)
Lemma slots_event_ok fuel ev ps : ∀ j,
  (∀ i p, ps !! i = Some p → ∃ σ, pool_event fuel p.1 (ev (j + i)%nat p) p.2 = Ok σ) →
  ∃ ps', slots_event fuel ev j ps = Ok ps' ∧ length ps' = length ps ∧
    ∀ i p, ps !! i = Some p → ∃ σ, pool_event fuel p.1 (ev (j + i)%nat p) p.2 = Ok σ ∧ ps' !! i = Some (p.1, σ).
Proof.
  induction ps as [|p ps IH]; intros j H; simpl; [by exists []|].
  destruct (H 0%nat p eq_refl) as [σ Hσ]. rewrite Nat.add_0_r in Hσ. rewrite Hσ. simpl.
  destruct (IH (S j)) as (ps' & -> & Hl & Hps).
  { intros i q Hq. destruct (H (S i) q Hq) as [σ' Hσ']. exists σ'. by rewrite Nat.add_succ_r in Hσ'. }
  simpl. eexists. split; [done|]. split; [simpl; lia|]. intros [|i] q Hq; simpl in *.
  - simplify_eq. exists σ. rewrite Nat.add_0_r. done.
  - destruct (Hps i q Hq) as (σ' & ? & ?). exists σ'. rewrite Nat.add_succ_r. done.
Qed.

(** ** A schedule, seen from the slots *)

Section run.
Context (fuel n : nat) (mask : Z) (ps0 : list slot).
(** Every schedule of a slot goes through, up to a number of insertions and
    of removals. *)
Context (I D : nat).
Hypothesis Hslots : ∀ j p ls, ps0 !! j = Some p → (inserts ls ≤ I)%nat → (removes ls ≤ D)%nat →
  ∃ σ, pool_exec fuel p.1 ls p.2 = Ok σ.
Hypothesis Hidle : ∀ j p, ps0 !! j = Some p → p.2 = pool_start n (pmem p.2).

Definition routed (j : nat) (σ : Pool) : Prop :=
  ∀ id op, ops σ !! id = Some op → route mask (call_key (o_call op)) = j.

(** [lss] are the events the slots have seen. *)
Record run_inv (es : list event) (ps : list slot) (lss : nat → list event) : Prop := mkRunInv {
  u_len : length ps = length ps0;
  u_slot : ∀ j p, ps0 !! j = Some p → ∃ σ, ps !! j = Some (p.1, σ) ∧
    pool_exec fuel p.1 (lss j) p.2 = Ok σ ∧ length (threads σ) = n ∧ routed j σ;
  u_events : ∀ j, length (lss j) = length es ∧ (inserts (lss j) ≤ inserts es)%nat ∧
    (removes (lss j) ≤ removes es)%nat;
  u_thread : ∀ i j j' p p', ps !! j = Some p → ps !! j' = Some p' →
    in_call i p = true → in_call i p' = true → j = j';
  u_step : ∀ u i i' j j', (j < length ps0)%nat → (j' < length ps0)%nat →
    lss j !! u = Some (Step i) → lss j' !! u = Some (Step i') → (i < n)%nat → (i' < n)%nat → j = j'
}.

Lemma run_start : run_inv [] ps0 (λ _, []).
Proof.
  split; [done| | | |by intros ? ? ? ? ? _ _ ?]; [| |].
  - intros j [sl σ] Hp. pose proof (Hidle j _ Hp) as E. simpl in *. exists σ. split_and!; [done|done|..].
    + rewrite E. simpl. by rewrite length_replicate.
    + rewrite E. by intros id op Ho.
  - done.
  - intros i j j' p p' Hp _ Hi. exfalso. unfold in_call in Hi. rewrite (Hidle j p Hp) in Hi. simpl in Hi.
    destruct (replicate n None !! i) as [th|] eqn:E; [|done]. by apply lookup_replicate in E as [-> _].
Qed.

(** What an event does to the threads of one slot. *)
Lemma event_in_call sl e σ σ' i :
  pool_event fuel sl e σ = Ok σ' → in_call i (sl, σ') = true →
  in_call i (sl, σ) = true ∨ ∃ c, e = Invoke i c.
Proof.
  unfold in_call. simpl. destruct e as [k c|k]; cbn [pool_event];
    destruct (threads σ !! k) as [[[id p]|]|] eqn:Hk; try by (intros [= <-]; auto).
  - intros [= <-]. simpl. destruct (decide (i = k)) as [->|Hne]; [eauto|].
    rewrite list_lookup_insert_ne by done. auto.
  - destruct p as [o|f|R a kk]; try by (intros [= <-]; auto).
    destruct (exec a (pmem σ)) as [[x m]|]; simpl; [|done].
    destruct (kk x); intros [= <-]; simpl; (destruct (decide (i = k)) as [->|Hne];
      [rewrite Hk; auto|rewrite list_lookup_insert_ne by done; auto]).
Qed.

Lemma event_routed sl e σ σ' j :
  pool_event fuel sl e σ = Ok σ' → routed j σ →
  (∀ i c, e = Invoke i c → route mask (call_key c) = j) → routed j σ'.
Proof.
  intros Hs Hr Hc. destruct e as [k c|k]; cbn [pool_event] in Hs;
    destruct (threads σ !! k) as [[[id p]|]|] eqn:Hk; try by simplify_eq.
  - simplify_eq. intros id op. simpl. intros [Ho|[_ Ho]]%lookup_app_Some; [by eapply Hr|].
    apply list_lookup_singleton_Some in Ho as [_ <-]. simpl. by eapply Hc.
  - destruct p as [o|f|R a kk]; try by simplify_eq.
    destruct (exec a (pmem σ)) as [[x m]|]; simpl in Hs; [|done].
    destruct (kk x); simplify_eq; try done.
    intros id' op. simpl. destruct (decide (id' = id)) as [->|Hne].
    + rewrite list_lookup_alter_eq. destruct (ops σ !! id) as [op'|] eqn:Ho; [|done].
      intros [= <-]. simpl. by eapply Hr.
    + rewrite list_lookup_alter_ne by done. by eapply Hr.
Qed.

Lemma local_counts ps e j p :
  (is_insert (local_event n mask ps e j p) ≤ is_insert e)%nat ∧
  (is_remove (local_event n mask ps e j p) ≤ is_remove e)%nat.
Proof. destruct e as [i c|i]; simpl; [destruct (_ && _)|destruct (in_call i p)]; simpl; lia. Qed.

Lemma counts_snoc es e :
  inserts (es ++ [e]) = (inserts es + is_insert e)%nat ∧
  removes (es ++ [e]) = (removes es + is_remove e)%nat.
Proof. unfold inserts, removes. induction es as [|x es IH]; simpl; lia. Qed.

Definition seen (ps : list slot) (e : event) (j : nat) : event :=
  match ps !! j with Some p => local_event n mask ps e j p | None => Step n end.

Lemma seen_step ps e j i :
  seen ps e j = Step i → (i < n)%nat → ∃ p, ps !! j = Some p ∧ e = Step i ∧ in_call i p = true.
Proof.
  unfold seen. destruct (ps !! j) as [p|]; [|intros [= <-]; lia]. destruct e as [k c|k]; simpl.
  - destruct (_ && _); [done|]. intros [= <-]. lia.
  - destruct (in_call k p) eqn:Hk; intros [= <-]; [|lia]. by exists p.
Qed.

Lemma seen_invoke ps e j i c :
  seen ps e j = Invoke i c →
  e = Invoke i c ∧ route mask (call_key c) = j ∧ ∀ j' p, ps !! j' = Some p → in_call i p = false.
Proof.
  unfold seen. destruct (ps !! j) as [p|]; [|done]. destruct e as [k c'|k]; simpl.
  - destruct (negb _ && _) eqn:Hb; [|done]. intros [= -> ->].
    apply andb_true_iff in Hb as [Hn%negb_true_iff Hr%Nat.eqb_eq]. split_and!; [done|done|].
    intros j' p' Hp'. unfold busy in Hn. destruct (in_call i p') eqn:Hi; [|done].
    assert (existsb (in_call i) ps = true); [|congruence]. apply existsb_exists. exists p'.
    split; [|done]. apply list_elem_of_In. by eapply list_elem_of_lookup_2.
  - by destruct (in_call k p).
Qed.

(** Every slot takes the event it sees. *)
Definition took (ps ps' : list slot) (e : event) : Prop :=
  ∀ j p', ps' !! j = Some p' → ∃ sl σ σ', ps !! j = Some (sl, σ) ∧ p' = (sl, σ') ∧
    pool_event fuel sl (seen ps e j) σ = Ok σ'.

Lemma took_thread es ps lss ps' e :
  run_inv es ps lss → took ps ps' e →
  ∀ i j j' p p', ps' !! j = Some p → ps' !! j' = Some p' →
  in_call i p = true → in_call i p' = true → j = j'.
Proof.
  intros HU Ht i j j' p p' Hp Hp' Hi Hi'.
  destruct (Ht j p Hp) as (sl & σ & σ1 & Hj & -> & He), (Ht j' p' Hp') as (sl' & σ' & σ1' & Hj' & -> & He').
  destruct (event_in_call _ _ _ _ _ He Hi) as [H1|[c Hc]], (event_in_call _ _ _ _ _ He' Hi') as [H2|[c' Hc']].
  - by eapply (u_thread _ _ _ HU).
  - apply seen_invoke in Hc' as (_ & _ & Hno). by rewrite (Hno _ _ Hj) in H1.
  - apply seen_invoke in Hc as (_ & _ & Hno). by rewrite (Hno _ _ Hj') in H2.
  - apply seen_invoke in Hc as (-> & <- & _), Hc' as (E & <- & _). by simplify_eq.
Qed.

Lemma took_step es ps lss e :
  run_inv es ps lss →
  ∀ u i i' j j', (j < length ps0)%nat → (j' < length ps0)%nat →
  (lss j ++ [seen ps e j]) !! u = Some (Step i) → (lss j' ++ [seen ps e j']) !! u = Some (Step i') →
  (i < n)%nat → (i' < n)%nat → j = j'.
Proof.
  intros HU u i i' j j' Hj Hj' Hu Hu' Hi Hi'.
  destruct (u_events _ _ _ HU j) as [L1 _], (u_events _ _ _ HU j') as [L2 _].
  apply lookup_app_Some in Hu as [Hu|[Hge Hu]], Hu' as [Hu'|[Hge' Hu']].
  - by eapply (u_step _ _ _ HU).
  - apply lookup_lt_Some in Hu. lia.
  - apply lookup_lt_Some in Hu'. lia.
  - apply list_lookup_singleton_Some in Hu as [_ Hu], Hu' as [_ Hu'].
    destruct (seen_step ps e j i Hu Hi) as (p & Hp & -> & Hin).
    destruct (seen_step ps _ j' i' Hu' Hi') as (p' & Hp' & [= <-] & Hin'). by eapply (u_thread _ _ _ HU).
Qed.

Lemma slot_takes es ps lss e j p0 :
  run_inv es ps lss → (inserts (lss j ++ [seen ps e j]) ≤ I)%nat →
  (removes (lss j ++ [seen ps e j]) ≤ D)%nat → ps0 !! j = Some p0 →
  ∃ σ σ', ps !! j = Some (p0.1, σ) ∧ pool_event fuel p0.1 (seen ps e j) σ = Ok σ' ∧
    pool_exec fuel p0.1 (lss j ++ [seen ps e j]) p0.2 = Ok σ' ∧ length (threads σ') = n ∧ routed j σ'.
Proof.
  intros HU Hins Hrem Hp0. destruct (u_slot _ _ _ HU j p0 Hp0) as (σ & Hj & Hx & Hth & Hro).
  destruct (Hslots j p0 (lss j ++ [seen ps e j]) Hp0 Hins Hrem) as [σ' Hx'].
  assert (He : pool_event fuel p0.1 (seen ps e j) σ = Ok σ') by (by rewrite pool_exec_snoc, Hx in Hx').
  exists σ, σ'. split_and!; try done.
  - by destruct (pool_event_threads _ _ _ _ _ He) as [-> _].
  - eapply event_routed; [done|done|]. intros i c Hc. by apply (seen_invoke ps e j i c).
Qed.

Lemma run_step es ps lss e :
  run_inv es ps lss → (inserts (es ++ [e]) ≤ I)%nat → (removes (es ++ [e]) ≤ D)%nat →
  ∃ ps', index_event fuel n mask e ps = Ok ps' ∧
    run_inv (es ++ [e]) ps' (λ j, lss j ++ [seen ps e j]).
Proof.
  intros HU HI HR. pose proof HU as [U1 U2 U3 U4 U5].
  assert (Hins : ∀ j, (inserts (lss j ++ [seen ps e j]) ≤ inserts (es ++ [e]))%nat ∧
    (removes (lss j ++ [seen ps e j]) ≤ removes (es ++ [e]))%nat).
  { intros j. destruct (counts_snoc es e) as [-> ->], (counts_snoc (lss j) (seen ps e j)) as [-> ->].
    destruct (U3 j) as (_ & ? & ?). unfold seen.
    destruct (ps !! j) as [p|]; [pose proof (local_counts ps e j p)|simpl]; lia. }
  assert (Hex : ∀ j p0, ps0 !! j = Some p0 → _)
    by (intros j p0; apply (slot_takes es ps lss e j p0 HU); destruct (Hins j); lia).
  destruct (slots_event_ok fuel (local_event n mask ps e) ps 0) as (ps' & Hs & Hl & Hps).
  { intros j p Hp. destruct (lookup_lt_is_Some_2 ps0 j) as [p0 Hp0].
    { rewrite <- U1. by eapply lookup_lt_Some. }
    destruct (Hex j p0 Hp0) as (σ & σ' & Hj & He & _).
    unfold seen in He. rewrite Hp in Hj, He. simplify_eq. by exists σ'. }
  assert (Ht : took ps ps' e).
  { intros j p' Hp'. destruct (lookup_lt_is_Some_2 ps j) as [[sl σ] Hp].
    { rewrite <- Hl. by eapply lookup_lt_Some. }
    destruct (Hps j _ Hp) as (σ' & He & Hj). simpl in *. exists sl, σ, σ'. unfold seen. rewrite Hp.
    split_and!; [done|congruence|done]. }
  exists ps'. split; [done|]. split; [congruence| | |by eapply took_thread|by eapply took_step].
  - intros j p0 Hp0. destruct (Hex j p0 Hp0) as (σ & σ' & Hj & He & Hx & Hth & Hro). exists σ'.
    destruct (Hps j _ Hj) as (σ2 & He2 & Hj2). unfold seen in He. rewrite Hj in He. simpl in *.
    rewrite He in He2. injection He2 as <-. done.
  - intros j. rewrite !length_app. simpl. destruct (U3 j) as [-> _]. split; [done|apply Hins].
Qed.

Lemma run_exec es :
  (inserts es ≤ I)%nat → (removes es ≤ D)%nat → ∃ ps lss, index_exec fuel n mask es ps0 = Ok ps ∧ run_inv es ps lss.
Proof.
  induction es as [|e es IH] using rev_ind; intros HI HR; [exists ps0, (λ _, []); split; [done|apply run_start]|].
  destruct (counts_snoc es e) as [E1 E2]. destruct IH as (ps & lss & Hx & HU); [lia|lia|].
  destruct (run_step es ps lss e HU HI HR) as (ps' & Hs & HU'). eexists ps', _.
  rewrite index_exec_snoc, Hx. simpl. split; [exact Hs|exact HU'].
Qed.

End run.

(** ** The map of the whole index *)

Lemma finite_choice {A} `{!Inhabited A} (P : nat → A → Prop) (K : nat) :
  (∀ j, (j < K)%nat → ∃ x, P j x) → ∃ f, ∀ j, (j < K)%nat → P j (f j).
Proof.
  induction K as [|K IH]; intros H; [exists (λ _, inhabitant); lia|].
  destruct IH as [f Hf]; [auto with lia|]. destruct (H K) as [x Hx]; [lia|].
  exists (λ j, if decide (j = K) then x else f j). intros j Hj. case_decide as E; [by subst|].
  apply Hf. lia.
Qed.

Lemma union_lookup (f : bytes → nat) (Ms : list store_map) : ∀ k,
  (∀ j M x, Ms !! j = Some M → M !! k = Some x → f k = j) →
  (⋃ Ms) !! k = Ms !! f k ≫= (.!! k).
Proof.
  revert f. induction Ms as [|M Ms IH]; intros f k H; simpl; [by rewrite lookup_empty|].
  rewrite lookup_union, (IH (λ k, Nat.pred (f k))).
  2:{ intros j M' x Hj Hx. by rewrite (H (S j) M' x Hj Hx). }
  destruct (f k) as [|j] eqn:Ej; simpl.
  - assert (Ms !! 0%nat ≫= (.!! k) = None) as ->; [|by destruct (M !! k)].
    destruct (Ms !! 0%nat) as [M'|] eqn:E; [|done]. simpl. destruct (M' !! k) as [x|] eqn:Ex; [|done].
    by specialize (H 1%nat M' x E Ex).
  - destruct (M !! k) as [x|] eqn:Ex; [by specialize (H 0%nat M x eq_refl Ex)|].
    by destruct (Ms !! j ≫= _).
Qed.

Lemma pool_exec_time fuel sl es : ∀ σ σ', pool_exec fuel sl es σ = Ok σ' → time σ' = (time σ + length es)%nat.
Proof.
  induction es as [|e es IH]; intros σ σ' Hx; simpl in *; [simplify_eq; lia|].
  destruct (pool_event fuel sl e σ) as [σ1|] eqn:He; simpl in Hx; [|done].
  destruct (pool_event_threads _ _ _ _ _ He) as [_ Et]. rewrite (IH _ _ Hx). lia.
Qed.

(** A history of a slot speaks of keys of that slot only. *)
Lemma history_routed mask j M0 σ h lin :
  linearized (part mask j M0) σ h lin → routed mask j σ →
  ∀ t M k x, h !! t = Some M → M !! k = Some x → route mask k = j.
Proof.
  intros HL Hr t. induction t as [|t IH]; intros M k x Ht Hk.
  - rewrite (l_first _ _ _ _ HL) in Ht. injection Ht as <-. by apply map_lookup_filter_Some in Hk as [_ ?].
  - assert (Hlt : (t < time σ)%nat).
    { apply lookup_lt_Some in Ht. rewrite (l_length _ _ _ _ HL) in Ht. lia. }
    destruct (lookup_lt_is_Some_2 h t) as [M' HM']; [rewrite (l_length _ _ _ _ HL); lia|].
    destruct (l_steps _ _ _ _ HL t M' Hlt HM') as [Hs|[id Hid]]; [rewrite Ht in Hs; simplify_eq; eauto|].
    destruct (l_calls _ _ _ _ HL id t Hid) as (op & Ho & _).
    destruct (l_ops _ _ _ _ HL id _ Ho) as [Hop _].
    destruct (Hop t Hid) as (M'' & _ & HM'' & HS). rewrite HM' in HM''. rewrite Ht in HS. simplify_eq.
    destruct (decide (k = call_key (o_call op))) as [->|Hne]; [exact (Hr id _ Ho)|].
    rewrite effect_other in Hk by done. eauto.
Qed.

(** The histories of the slots, side by side. *)
Definition whole (hs : list (list store_map)) (t : nat) : store_map :=
  ⋃ ((λ h, default ∅ (h !! t)) <$> hs).

Section whole.
Context (mask : Z) (hs : list (list store_map)).
Hypothesis Hkeys : ∀ j h t M k x, hs !! j = Some h → h !! t = Some M → M !! k = Some x → route mask k = j.

Lemma whole_lookup t k h M :
  hs !! route mask k = Some h → h !! t = Some M → whole hs t !! k = M !! k.
Proof.
  intros Hh HM. unfold whole. rewrite (union_lookup (route mask)).
  - rewrite list_lookup_fmap, Hh. simpl. by rewrite HM.
  - intros j M' x. rewrite list_lookup_fmap. destruct (hs !! j) as [h'|] eqn:Ej; [|done].
    simpl. intros [= <-] Hx. destruct (h' !! t) as [M1|] eqn:E; [|simpl in Hx; by rewrite lookup_empty in Hx].
    by eapply Hkeys.
Qed.

(** One slot changes by a call and the others stay. *)
Lemma whole_call (t j : nat) (c : call) (M : store_map) :
  (∀ k, is_Some (hs !! route mask k)) → (∀ j h, hs !! j = Some h → (S t < length h)%nat) →
  (∀ h, hs !! j = Some h → h !! t = Some M ∧ h !! S t = Some (effect_of c M)) → route mask (call_key c) = j →
  (∀ j' h, j' ≠ j → hs !! j' = Some h → h !! S t = h !! t) →
  whole hs (S t) = effect_of c (whole hs t).
Proof.
  intros Hall Hlen Hj Hk Hother. apply map_eq. intros k'.
  destruct (Hall k') as [h Hh].
  destruct (lookup_lt_is_Some_2 h t) as [M1 H1]; [specialize (Hlen _ _ Hh); lia|].
  destruct (lookup_lt_is_Some_2 h (S t)) as [M2 H2]; [by eapply Hlen|].
  pose proof (whole_lookup t k' h M1 Hh H1) as Hw. rewrite (whole_lookup (S t) k' h M2 Hh H2).
  destruct (decide (route mask k' = j)) as [E|Hne].
  - rewrite E in Hh. destruct (Hj h Hh) as [Ht HS]. simplify_eq.
    destruct (decide (k' = call_key c)) as [->|Hkk]; [by apply effect_key|by rewrite !effect_other].
  - rewrite (Hother _ _ Hne Hh), H1 in H2. injection H2 as <-.
    rewrite effect_other; [done|]. by intros ->.
Qed.

Lemma whole_same t :
  (∀ j h, hs !! j = Some h → h !! S t = h !! t) → whole hs (S t) = whole hs t.
Proof.
  intros H. unfold whole. f_equal. apply list_eq. intros j. rewrite !list_lookup_fmap.
  destruct (hs !! j) as [h|] eqn:E; [|done]. simpl. by rewrite (H j h E).
Qed.

End whole.

(** ** Linearizability of the index *)

(** Slot [j] holds its part of [M0], nobody is in a call on it, and there is
    fuel and room for [I] insertions, or fuel for removals. *)
Definition slot_ok (fuel n I R : nat) (mask : Z) (M0 : store_map) (j : nat) (p : slot) : Prop :=
  ∃ tl m es G gv, p.2 = pool_start n m ∧ rep p.1 tl m es G gv ∧ abs es = part mask j M0 ∧
    ((R = 0%nat ∧ (length es + I + 2 ≤ fuel)%nat ∧
      brk m + Z.of_nat I * op_room (length es + I) ≤ W64) ∨
     (I = 0%nat ∧ (pot_bound p.1 es + length es + 3 ≤ fuel)%nat)).

(** [h] lists the map of the index before every event and after the last;
    [lin j] gives the events at which the calls on slot [j] take effect. *)
Record index_linear (M0 : store_map) (evs : list event) (ps : list slot) (h : list store_map)
    (lin : nat → gmap nat nat) : Prop := mkIndexLinear {
  x_length : length h = S (length evs);
  x_first : h !! 0%nat = Some M0;
  x_ops : ∀ j p id op, ps !! j = Some p → ops p.2 !! id = Some op → op_linear h (lin j) id op;
  x_steps : ∀ t M, (t < length evs)%nat → h !! t = Some M →
    h !! S t = Some M ∨ ∃ j id, lin j !! id = Some t;
  x_calls : ∀ j id t, lin j !! id = Some t →
    ∃ p op, ps !! j = Some p ∧ ops p.2 !! id = Some op ∧ ∀ k, o_call op ≠ CGet k;
  x_once : ∀ j j' id id' t, lin j !! id = Some t → lin j' !! id' = Some t → j = j' ∧ id = id'
}.

Lemma op_room_mono N N' : (N ≤ N')%nat → op_room N ≤ op_room N'.
Proof. intros H. unfold op_room. change insert_room with 184. lia. Qed.

(** Enough for [I] insertions or [R] removals is enough for fewer. *)
Lemma slot_linearizes fuel n I R mask M0 j p ls :
  slot_ok fuel n I R mask M0 j p → (inserts ls ≤ I)%nat → (removes ls ≤ R)%nat →
  ∃ σ h lin, pool_exec fuel p.1 ls p.2 = Ok σ ∧ linearized (part mask j M0) σ h lin ∧
    (∀ id t, lin !! id = Some t → ∃ i, ls !! t = Some (Step i) ∧ (i < n)%nat).
Proof.
  intros (tl & m & es & G & gv & -> & Hr & <- & [(-> & Hf & Hb)|(-> & Hf)]) HI HR.
  2:{ destruct (pool_removes p.1 tl m es G gv n fuel ls Hr) as (σ & h & lin & rs & ? & ? & ? & _); [lia|lia|eauto 10]. }
  destruct (pool_linearizes p.1 tl m es G gv n fuel ls Hr) as (σ & h & lin & ? & ? & ? & _); [lia| |lia|eauto 10].
  pose proof (op_room_mono (length es + inserts ls) (length es + I) ltac:(lia)).
  pose proof (op_room_nonneg fuel (length es + inserts ls) ltac:(lia)).
  assert (Z.of_nat (inserts ls) * op_room (length es + inserts ls)
    ≤ Z.of_nat I * op_room (length es + I)) by (apply Z.mul_le_mono_nonneg; lia). lia.
Qed.

Section linear.
Context (fuel n : nat) (mask p2 : Z) (M0 : store_map) (evs : list event) (ps0 ps : list slot).
Context (lss : nat → list event) (hf : nat → list store_map) (lf : nat → gmap nat nat).
Hypothesis Hp2 : 0 ≤ p2.
Hypothesis Hmask : mask = 2 ^ p2 - 1.
Hypothesis Hsize : Z.of_nat (length ps0) = 2 ^ p2.
Hypothesis HU : run_inv fuel n mask ps0 evs ps lss.
Hypothesis Hlin : ∀ j, (j < length ps0)%nat → ∃ p σ, ps !! j = Some (p, σ) ∧
  linearized (part mask j M0) σ (hf j) (lf j) ∧ routed mask j σ ∧ time σ = length evs ∧
  (∀ id t, lf j !! id = Some t → ∃ i, lss j !! t = Some (Step i) ∧ (i < n)%nat).
Hypothesis Hout : ∀ j, (length ps0 ≤ j)%nat → lf j = ∅.

Let hs : list (list store_map) := hf <$> seq 0 (length ps0).
Let h : list store_map := whole hs <$> seq 0 (S (length evs)).

Lemma hs_lookup j hj : hs !! j = Some hj → (j < length ps0)%nat ∧ hj = hf j.
Proof. unfold hs. intros (i & -> & Hi)%list_lookup_fmap_Some. apply lookup_seq in Hi as [-> ?]. done. Qed.

Lemma hs_at j : (j < length ps0)%nat → hs !! j = Some (hf j).
Proof. intros Hj. unfold hs. rewrite list_lookup_fmap, lookup_seq_lt by done. done. Qed.

Lemma slot_of k : (route mask k < length ps0)%nat.
Proof. pose proof (route_lt p2 k Hp2) as H. rewrite <- Hmask in H. lia. Qed.

Lemma h_at t : (t ≤ length evs)%nat → h !! t = Some (whole hs t).
Proof. intros Ht. unfold h. rewrite list_lookup_fmap, lookup_seq_lt by lia. done. Qed.

Lemma hs_len j : (j < length ps0)%nat → length (hf j) = S (length evs).
Proof. intros Hj. destruct (Hlin j Hj) as (p & σ & _ & HL & _ & <- & _). apply HL. Qed.

Lemma hs_keys j hj t M k x : hs !! j = Some hj → hj !! t = Some M → M !! k = Some x → route mask k = j.
Proof.
  intros [Hj ->]%hs_lookup. destruct (Hlin j Hj) as (p & σ & _ & HL & Hr & _). by eapply history_routed.
Qed.

(** Two slots have no effect at one event. *)
Lemma effects_apart j j' id id' t :
  lf j !! id = Some t → lf j' !! id' = Some t → j = j' ∧ id = id'.
Proof.
  assert (Hin : ∀ j id t, lf j !! id = Some t → (j < length ps0)%nat).
  { intros i k u Hi. destruct (decide (i < length ps0)%nat) as [|Hge]; [done|].
    rewrite Hout in Hi by lia. by rewrite lookup_empty in Hi. }
  intros H1 H2. pose proof (Hin _ _ _ H1) as Hj. pose proof (Hin _ _ _ H2) as Hj'.
  destruct (Hlin j Hj) as (p & σ & _ & HL & _ & _ & Ha).
  destruct (Hlin j' Hj') as (p' & σ' & _ & _ & _ & _ & Ha').
  destruct (Ha id t H1) as (i & Hi & Hn), (Ha' id' t H2) as (i' & Hi' & Hn').
  assert (j = j') as <- by by eapply (u_step _ _ _ _ _ _ _ HU). split; [done|].
  by eapply (l_once _ _ _ _ HL).
Qed.

(** A slot without an effect at an event keeps its map. *)
Lemma slot_still j t :
  (j < length ps0)%nat → (t < length evs)%nat → (∀ id, lf j !! id ≠ Some t) → hf j !! S t = hf j !! t.
Proof.
  intros Hj Ht Hno. destruct (Hlin j Hj) as (p & σ & _ & HL & _ & Et & _).
  destruct (lookup_lt_is_Some_2 (hf j) t) as [M HM]; [rewrite hs_len by done; lia|].
  destruct (l_steps _ _ _ _ HL t M) as [->|[id Hid]]; [lia|done|done|]. by destruct (Hno id).
Qed.

Lemma whole_effect j id t op p σ :
  ps !! j = Some (p, σ) → ops σ !! id = Some op → lf j !! id = Some t → (j < length ps0)%nat →
  (o_start op ≤ t < length evs)%nat ∧ whole hs (S t) = effect_of (o_call op) (whole hs t).
Proof.
  intros Hp Ho Hid Hj. destruct (Hlin j Hj) as (p' & σ' & Hp' & HL & Hr & Et & _).
  rewrite Hp in Hp'. injection Hp' as <- <-.
  destruct (l_ops _ _ _ _ HL id _ Ho) as [Hop _]. destruct (Hop t Hid) as (M & Hs & HM & HS).
  assert (Ht : (t < length evs)%nat) by (apply lookup_lt_Some in HS; rewrite hs_len in HS by done; lia).
  split; [done|]. apply (whole_call mask hs hs_keys t j (o_call op) M); [..|exact (Hr id _ Ho)|].
  - intros k'. rewrite hs_at by apply slot_of. eauto.
  - intros j' h' [Hj' ->]%hs_lookup. rewrite hs_len by done. lia.
  - intros h' [_ ->]%hs_lookup. done.
  - intros j' h' Hne [Hj' ->]%hs_lookup. apply slot_still; [done|done|].
    intros id' H'. by destruct (effects_apart _ _ _ _ _ Hid H').
Qed.

Lemma forall_or_exists (A B : nat → Prop) K :
  (∀ j, (j < K)%nat → A j ∨ B j) → (∀ j, (j < K)%nat → A j) ∨ (∃ j, (j < K)%nat ∧ B j).
Proof.
  induction K as [|K IH]; intros H; [left; lia|].
  destruct IH as [Hall|(j & Hj & HB)]; [auto with lia| |right; eauto with lia].
  destruct (H K) as [HA|HB]; [lia| |right; eauto with lia]. left. intros j Hj.
  destruct (decide (j = K)) as [->|]; [done|]. apply Hall. lia.
Qed.

Lemma whole_start : whole hs 0 = M0.
Proof.
  apply map_eq. intros k. destruct (Hlin _ (slot_of k)) as (p & σ & _ & HL & _).
  rewrite (whole_lookup mask hs hs_keys 0 k _ _ (hs_at _ (slot_of k)) (l_first _ _ _ _ HL)).
  apply part_lookup.
Qed.

Lemma op_global j p σ id op :
  (j < length ps0)%nat → ps !! j = Some (p, σ) → ops σ !! id = Some op → op_linear h (lf j) id op.
Proof.
  intros Hj Hp Ho. destruct (Hlin j Hj) as (p' & σ' & Hp' & HL & Hr & Et & _).
  rewrite Hp in Hp'. injection Hp' as <- <-.
  destruct (l_ops _ _ _ _ HL id op Ho) as [_ H2]. pose proof (Hr id op Ho) as Hk. split.
  - intros t Hid. destruct (whole_effect _ _ _ _ _ _ Hp Ho Hid Hj) as ([Hs Ht] & HE).
    exists (whole hs t). split_and!; [done|apply h_at; lia|]. rewrite h_at by lia. by rewrite HE.
  - intros e o He. destruct (H2 e o He) as (t & M & Hs & HM & -> & Hcase). exists t, (whole hs t).
    assert (HV : M !! call_key (o_call op) = whole hs t !! call_key (o_call op)).
    { symmetry. eapply whole_lookup; [apply hs_keys|rewrite Hk; by apply hs_at|done]. }
    split_and!; [done| |by apply answer_key|].
    + apply h_at. apply lookup_lt_Some in HM. rewrite hs_len in HM by done. lia.
    + destruct (lf j !! id); [done|]. destruct Hcase as (? & Hid & ?). split_and!; [done| |done].
      by eapply effect_idle.
Qed.

Lemma linear_result : index_linear M0 evs ps h lf.
Proof.
  pose proof (u_len _ _ _ _ _ _ _ HU) as Hlen. split.
  - unfold h. by rewrite length_fmap, length_seq.
  - rewrite h_at by lia. by rewrite whole_start.
  - intros j [p σ] id op Hp Ho. eapply op_global; [|done|done]. rewrite <- Hlen. by eapply lookup_lt_Some.
  - intros t M Ht HM. rewrite h_at in HM by lia. injection HM as <-. rewrite h_at by lia.
    destruct (forall_or_exists (λ j, hf j !! S t = hf j !! t) (λ j, ∃ id, lf j !! id = Some t) (length ps0))
      as [Hall|(j & _ & id & Hid)]; [| |right; eauto].
    + intros j Hj. destruct (Hlin j Hj) as (p & σ & _ & HL & _ & Et & _).
      destruct (lookup_lt_is_Some_2 (hf j) t) as [M HM]; [rewrite hs_len by done; lia|].
      destruct (l_steps _ _ _ _ HL t M) as [->|?]; [lia|done|by left|by right].
    + left. f_equal. apply whole_same. intros j h' [Hj ->]%hs_lookup. by apply Hall.
  - intros j id t Hid. destruct (decide (j < length ps0)%nat) as [Hj|Hge].
    + destruct (Hlin j Hj) as (p & σ & Hp & HL & _).
      destruct (l_calls _ _ _ _ HL id t Hid) as (op & Ho & Hc). by exists (p, σ), op.
    + rewrite Hout in Hid by lia. by rewrite lookup_empty in Hid.
  - apply effects_apart.
Qed.

End linear.

(** ** Property *)

(** [C4] The sharded index is linearizable. For any number of threads that
    insert and look up, or remove and look up, through one index of 2^p
    skiplists, any calls and any interleaving of their atomic accesses, no
    access faults and no loop runs out of rounds, and there is one map for the
    whole index which changes exactly at the effects of calls, one event per
    call and one call per event, between call and return; an insertion reports
    whether its key was absent at that instant and a successful removal took
    its key out there; a removal that returns false and a lookup report what
    the map held for their key at some instant between call and return. *)
Theorem sharded_linearizable (fuel n : nat) (p2 : Z) (M0 : store_map) (ps0 : list slot)
    (evs : list event)
    (Hp2 : 0 ≤ p2) (Hsize : Z.of_nat (length ps0) = 2 ^ p2)
    (Hslots : ∀ j p, ps0 !! j = Some p → slot_ok fuel n (inserts evs) (removes evs) (2 ^ p2 - 1) M0 j p) :
  ∃ ps h lin, index_exec fuel n (2 ^ p2 - 1) evs ps0 = Ok ps ∧ index_linear M0 evs ps h lin.
Proof.
  set (mask := 2 ^ p2 - 1) in *.
  destruct (run_exec fuel n mask ps0 (inserts evs) (removes evs)) with (es := evs)
    as (ps & lss & Hx & HU); [| |done|done|].
  { intros j p ls Hp HI HR.
    destruct (slot_linearizes _ _ _ _ _ _ _ _ ls (Hslots j p Hp) HI HR) as (σ & _ & _ & ? & _). eauto. }
  { intros j p Hp. destruct (Hslots j p Hp) as (tl & m & es & G & gv & E & _). by rewrite E. }
  destruct (finite_choice (λ j x, ∃ p σ, ps !! j = Some (p, σ) ∧ linearized (part mask j M0) σ x.1 x.2 ∧
    routed mask j σ ∧ time σ = length evs ∧
    (∀ id t, x.2 !! id = Some t → ∃ i, lss j !! t = Some (Step i) ∧ (i < n)%nat)) (length ps0)) as [f Hf].
  { intros j Hj. destruct (lookup_lt_is_Some_2 ps0 j Hj) as [p0 Hp0].
    destruct (u_slot _ _ _ _ _ _ _ HU j p0 Hp0) as (σ & Hp & Hxs & _ & Hro).
    destruct (u_events _ _ _ _ _ _ _ HU j) as (El & Hi & HR).
    destruct (slot_linearizes _ _ _ _ _ _ _ _ (lss j) (Hslots j p0 Hp0) Hi HR) as (σ' & h & lin & Hx' & HL & Ha).
    rewrite Hxs in Hx'. injection Hx' as <-. exists (h, lin), p0.1, σ. split_and!; try done.
    rewrite (pool_exec_time _ _ _ _ _ Hxs), El.
    by destruct (Hslots j p0 Hp0) as (tl & m & es & G & gv & -> & _). }
  set (lf := λ j, if decide (j < length ps0)%nat then (f j).2 else ∅).
  eexists ps, _, lf. split; [done|].
  apply (linear_result fuel n mask p2 M0 evs ps0 ps lss (λ j, (f j).1) lf); try done.
  - intros j Hj. unfold lf. rewrite decide_True by done. by apply Hf.
  - intros j Hj. unfold lf. rewrite decide_False by lia. done.
Qed.

(** ** Witness: three threads on an index of two slots *)

Definition demo_slots : list slot := replicate 2 (lin_list, pool_start 3 (sentinels 3)).
Definition demo_events : list event :=
  [Invoke 0 (CInsert [7] [70]); Invoke 1 (CInsert [8] [80]); Invoke 2 (CGet [7])]
  ++ concat (replicate 40 [Step 1; Step 0]) ++ replicate 20 (Step 2).

Lemma sharded_linearizable_witness :
  (ps ←r index_exec 4 3 1 demo_events demo_slots; Ok ((λ p, snd <$> (ops p.2 ≫= λ op, option_list (o_res op))) <$> ps))
    = Ok [[OBool true; OBytes (Some [70])]; [OBool true]] ∧
  ∃ ps h lin, index_exec 4 3 1 demo_events demo_slots = Ok ps ∧ index_linear ∅ demo_events ps h lin.
Proof.
  split; [vm_compute; reflexivity|].
  apply (sharded_linearizable 4 3 1 ∅ demo_slots demo_events); [lia|reflexivity|].
  intros j p [-> _]%lookup_replicate. exists 176, (sentinels 3), [], [], [].
  split_and!; [reflexivity|apply (with_max_level_run 1 3); by apply Nat.leb_le| |].
  - symmetry. apply map_filter_empty.
  - left. split_and!; [reflexivity|by apply Nat.leb_le|]. apply Z.leb_le. vm_compute. reflexivity.
Defined.
