(* ===== verification/MmapLog.v ===== *)
(** * MmapLog: the pre-allocated append-only log

    Models [crates/zerokv/src/mmap_log.rs]. The page-aligned buffer is a byte
    list at an absolute address, and the spans are absolute pointers into it
    as in the source; resolving one outside the buffer is [UB]. A backing
    file is its contents and cursor; what the operating system does with a
    request (an allocation, an open, read, seek or flush that fails, a write
    that fails half-way) is an argument of the operation that makes it. *)

From S2P Require Import Prelude.
Local Open Scope Z_scope.
Local Open Scope zkv_scope.

Definition PAGE : Z := 4096.

(** ** The backing file *)

Record File : Type := mkFile {
  contents : bytes;
  pos : Z
}.

Definition seek (p : Z) (f : File) : File := mkFile (contents f) p.

(** Overwrite at the cursor, growing the file as needed. *)
Definition write_bytes (bs : bytes) (f : File) : File :=
  mkFile (take (Z.to_nat (pos f)) (contents f) ++ bs
            ++ drop (Z.to_nat (pos f) + length bs) (contents f))
    (pos f + blen bs).

(** [write_all]: [Some n] is an I/O error after [n] bytes went through. *)
Definition write_all (fails : option nat) (bs : bytes) (f : File) : bool * File :=
  match fails with
  | None => (true, write_bytes bs f)
  | Some n => (false, write_bytes (take n bs) f)
  end.

(** ** The log *)

Record MappedLog : Type := mkLog {
  base : Z;
  buf : bytes;
  cap : Z;
  len : Z;
  spans : list (Z * Z);
  file : File
}.

(** The system call of [open] that fails, if one does. *)
Inductive open_fault : Type :=
| OpenFails
| ReadFails
| SeekFails.

(** [MappedLog::open]; [addr] is what [alloc_zeroed] returned, [f] the file as
    found (empty when created), and [None] the propagated I/O error. *)
Definition log_open (fails : option open_fault) (addr : option Z) (f : File) (cap : Z)
    : res (option MappedLog) :=
  let cap := Z.land (wsub (wadd cap PAGE) 1) (wnot (PAGE - 1)) in
  if negb (layout_from_size_align cap PAGE) then Err Panic
  else if cap =? 0 then Err UB
  else
    base ←r or_err Abort addr;
    match fails with
    | Some OpenFails | Some ReadFails => Ok None
    | _ =>
      let existing := contents f in
      let len := Z.min (blen existing) cap in
      let buf := blit (replicate (Z.to_nat cap) 0) 0 (slice existing 0 len) in
      match fails with
      | Some _ => Ok None
      | None => Ok (Some (mkLog base buf cap len [] (seek (blen existing) f)))
      end
    end.

(** [MappedLog::append]. *)
Definition append (bs : bytes) (l : MappedLog) : option nat * MappedLog :=
  if cap l <? wadd (len l) (blen bs) then (None, l)
  else
    let dst := wadd (base l) (len l) in
    let spans' := spans l ++ [(dst, blen bs)] in
    (Some (length spans' - 1)%nat,
     mkLog (base l) (blit (buf l) (len l) bs) (cap l) (wadd (len l) (blen bs)) spans' (file l)).

(** A raw slice [(ptr, n)] read inside the buffer. *)
Definition from_raw_parts (l : MappedLog) (ptr n : Z) : res bytes :=
  if (base l <=? ptr) && (ptr + n <=? base l + cap l)
  then Ok (slice (buf l) (ptr - base l) n)
  else Err UB.

(** [MappedLog::record]. *)
Definition record (index : nat) (l : MappedLog) : res (option bytes) :=
  match spans l !! index with
  | None => Ok None
  | Some (ptr, n) => bs ←r from_raw_parts l ptr n; Ok (Some bs)
  end.

(** The system call of [flush] that fails, if one does: the seek, the write
    after [n] bytes, or the final flush. *)
Inductive flush_fault : Type :=
| FSeek
| FWrite (n : nat)
| FFlush.

Definition set_file (l : MappedLog) (f : File) : MappedLog :=
  mkLog (base l) (buf l) (cap l) (len l) (spans l) f.

(** [MappedLog::flush]: [false] is the propagated I/O error. *)
Definition flush (fails : option flush_fault) (l : MappedLog) : res (bool * MappedLog) :=
  data ←r from_raw_parts l (base l) (len l);
  match fails with
  | Some FSeek => Ok (false, l)
  | _ =>
    let f := seek 0 (file l) in
    let '(ok, f) := write_all (match fails with Some (FWrite n) => Some n | _ => None end) data f in
    if (ok : bool)
    then Ok (match fails with Some FFlush => false | _ => true end, set_file l f)
    else Ok (false, set_file l f)
  end.

Definition log_len (l : MappedLog) : Z := len l.
Definition log_capacity (l : MappedLog) : Z := cap l.
Definition log_is_empty (l : MappedLog) : bool := len l =? 0.

(** [Drop]: the layout handed to [dealloc] is the one [open] allocated. *)
Definition drop_layout (l : MappedLog) : res (Z * Z) :=
  if layout_from_size_align (cap l) PAGE then Ok (cap l, PAGE) else Err Panic.

(** The populated prefix. *)
Definition populated (l : MappedLog) : bytes := slice (buf l) 0 (len l).

(** ** Invariant *)

(** [spans_ok base o es ss]: [ss] points, from offset [o] on and back to back,
    at records of the lengths of [es]. *)
Fixpoint spans_ok (base o : Z) (es : list bytes) (ss : list (Z * Z)) : Prop :=
  match es, ss with
  | [], [] => True
  | e :: es, (p, n) :: ss => p = base + o ∧ n = blen e ∧ spans_ok base (o + blen e) es ss
  | _, _ => False
  end.

(** The log holds what it was opened with ([old]) and then the records [es]. *)
Record log_rep (l : MappedLog) (old : bytes) (es : list bytes) : Prop := mkLogRep {
  l_base : block_ok (base l) (cap l) PAGE;
  l_cap : blen (buf l) = cap l ∧ cap l mod PAGE = 0 ∧ 0 < cap l < 2 ^ 63;
  l_len : len l = blen (old ++ concat es) ∧ len l ≤ cap l;
  l_data : populated l = old ++ concat es;
  l_spans : spans_ok (base l) (blen old) es (spans l)
}.

Lemma spans_ok_snoc base o es ss e p :
  spans_ok base o es ss → p = base + (o + blen (concat es)) →
  spans_ok base o (es ++ [e]) (ss ++ [(p, blen e)]).
Proof.
  revert o ss. induction es as [|e' es IH]; intros o ss Hs Hp; destruct ss as [|[q m] ss];
    try done; simpl in *.
  - split_and!; [lia|done|done].
  - destruct Hs as (-> & -> & Hs). split_and!; [done|done|]. apply IH; [done|].
    rewrite Hp, length_app. lia.
Qed.

Lemma spans_ok_length base o es ss : spans_ok base o es ss → length ss = length es.
Proof.
  revert o ss. induction es as [|e es IH]; intros o [|[p n] ss]; simpl; try done.
  intros (_ & _ & H). f_equal. by eapply IH.
Qed.

(** The [i]-th span addresses the [i]-th record. *)
Lemma spans_ok_lookup base es : ∀ o ss i p n,
  spans_ok base o es ss → ss !! i = Some (p, n) →
  ∃ e l1 l2, es = l1 ++ e :: l2 ∧ length l1 = i ∧ p = base + o + blen (concat l1) ∧ n = blen e.
Proof.
  induction es as [|e es IH]; intros o [|[q m] ss] i p n Hs Hi; try done.
  destruct Hs as (-> & -> & Hs). destruct i as [|i]; simplify_eq/=.
  - exists e, [], es. split_and!; (done || simpl; lia).
  - destruct (IH _ _ _ _ _ Hs Hi) as (e' & l1 & l2 & -> & Hl & -> & ->).
    exists e', (e :: l1), l2. simpl. rewrite length_app. split_and!; (done || lia).
Qed.

Lemma slice_app_mid (a b c : bytes) : slice (a ++ b ++ c) (blen a) (blen b) = b.
Proof. unfold slice. by rewrite !Nat2Z.id, drop_app_length, take_app_length. Qed.

Lemma slice_slice0 (bs : bytes) n o m :
  0 ≤ o → 0 ≤ m → o + m ≤ n → slice (slice bs 0 n) o m = slice bs o m.
Proof.
  intros. apply list_eq. intros i. rewrite !slice_lookup by lia.
  destruct (decide (Z.of_nat i < m)); [|done]. rewrite decide_True by lia. f_equal.
Qed.

(** ** Operations *)

Lemma open_rep addr f c :
  0 < c → c + PAGE ≤ 2 ^ 63 → block_ok addr (align_up c PAGE) PAGE →
  ∃ l, log_open None (Some addr) f c = Ok (Some l) ∧ c ≤ cap l < c + PAGE ∧
    cap l = align_up c PAGE ∧
    log_rep l (take (Z.to_nat (cap l)) (contents f)) [] ∧
    base l = addr ∧ contents (file l) = contents f.
Proof.
  intros Hc Hb Hok. unfold log_open. fold (align_up c PAGE).
  assert (HP : PAGE = 2 ^ 12) by done.
  pose proof (align_up_spec c 12 ltac:(lia) ltac:(lia)) as Ha. rewrite <- HP in Ha.
  assert (HW : 2 ^ 63 < W64) by done. destruct Ha as [Hr Hm]; [lia|].
  set (k := align_up c PAGE) in *.
  assert (Hkm : k ≤ 2 ^ 63 - PAGE).
  { apply Z.mod_divide in Hm as [q Hq]; [|done]. unfold PAGE in *. lia. }
  assert (layout_from_size_align k PAGE = true) as ->.
  { unfold layout_from_size_align. apply andb_true_iff. split; [done|]. by apply Z.leb_le. }
  simpl negb. destruct (Z.eqb_spec k 0) as [|Hk0]; [unfold PAGE in *; lia|]. simpl.
  eexists. split; [done|]. simpl. split; [unfold PAGE in *; lia|]. split; [done|].
  split; [|done]. set (n := Z.min (blen (contents f)) k).
  assert (Hn : blen (slice (contents f) 0 n) = n).
  { apply length_slice; unfold PAGE in *; lia. }
  assert (Htk : slice (contents f) 0 n = take (Z.to_nat k) (contents f)).
  { unfold slice. rewrite drop_0. destruct (Z.le_ge_cases (blen (contents f)) k) as [Hle|Hle].
    - rewrite !take_ge by lia. done.
    - f_equal. lia. }
  assert (Hrep : blen (replicate (Z.to_nat k) 0) = k).
  { rewrite length_replicate. unfold PAGE in *. lia. }
  split; simpl; try done.
  - rewrite length_blit by (rewrite ?Hn, ?Hrep; unfold PAGE in *; lia).
    unfold PAGE in *. split_and!; (done || lia).
  - rewrite app_nil_r, <- Htk, Hn. lia.
  - rewrite app_nil_r, <- Htk. unfold populated. simpl. fold n.
    rewrite <- Hn at 2. apply slice_blit_same; [lia|]. rewrite Hn, Hrep. lia.
Qed.

(** A [&[u8]] is never longer than [isize::MAX]. *)
Definition is_slice (bs : bytes) : Prop := blen bs < 2 ^ 63.

Lemma append_spec l old es bs :
  log_rep l old es → is_slice bs →
  if decide (len l + blen bs ≤ cap l)
  then ∃ l', append bs l = (Some (length es), l') ∧ log_rep l' old (es ++ [bs]) ∧
         cap l' = cap l ∧ base l' = base l ∧ file l' = file l ∧ len l' = len l + blen bs
  else append bs l = (None, l).
Proof.
  intros [Hb (Hbl & Hpg & Hcap) (Hlen & Hle) Hd Hs] Hbs. unfold append, is_slice in *.
  assert (HW : 2 ^ 63 + 2 ^ 63 = W64) by done. destruct Hb as (Hb0 & Hba & Hb1).
  rewrite wadd_small by (unfold is_u64; lia).
  case_decide as Hfit; destruct (Z.ltb_spec (cap l) (len l + blen bs)); try lia; [|done].
  eexists. split.
  { f_equal. f_equal. rewrite length_app. simpl. rewrite (spans_ok_length _ _ _ _ Hs). lia. }
  split; [|done]. split; simpl; try done.
  - rewrite length_blit by lia. done.
  - rewrite concat_app. simpl. rewrite app_nil_r, app_assoc, length_app. lia.
  - unfold populated in *. simpl. rewrite slice_blit_prefix by lia.
    by rewrite Hd, concat_app, <- app_assoc; simpl; rewrite app_nil_r.
  - apply spans_ok_snoc; [done|]. rewrite wadd_small by (unfold is_u64; lia).
    rewrite Hlen, length_app. lia.
Qed.

Lemma record_spec l old es i :
  log_rep l old es → record i l = Ok (es !! i).
Proof.
  intros [Hb (Hbl & Hpg & Hcap) (Hlen & Hle) Hd Hs]. unfold record.
  destruct (spans l !! i) as [[p n]|] eqn:Hi.
  - destruct (spans_ok_lookup _ _ _ _ _ _ _ Hs Hi) as (e & l1 & l2 & He & Hl & -> & ->).
    assert (Hmid : old ++ concat es = (old ++ concat l1) ++ e ++ concat l2).
    { rewrite He, concat_app. simpl. by rewrite <- app_assoc. }
    unfold from_raw_parts. rewrite Hmid, !length_app in Hlen.
    assert ((base l <=? base l + blen old + blen (concat l1)) &&
      (base l + blen old + blen (concat l1) + blen e <=? base l + cap l) = true) as ->.
    { apply andb_true_iff. split; apply Z.leb_le; lia. }
    simpl. rewrite He, list_lookup_middle by done. do 2 f_equal.
    rewrite <- (slice_slice0 _ (len l)) by lia.
    change (slice (buf l) 0 (len l)) with (populated l). rewrite Hd, Hmid.
    replace (base l + blen old + blen (concat l1) - base l) with (blen (old ++ concat l1))
      by (rewrite length_app; lia).
    apply slice_app_mid.
  - apply lookup_ge_None in Hi. rewrite (spans_ok_length _ _ _ _ Hs) in Hi.
    by rewrite lookup_ge_None_2.
Qed.

Lemma flush_data l old es :
  log_rep l old es → from_raw_parts l (base l) (len l) = Ok (old ++ concat es).
Proof.
  intros [Hb (Hbl & Hpg & Hcap) (Hlen & Hle) Hd Hs]. unfold from_raw_parts.
  assert ((base l <=? base l) && (base l + len l <=? base l + cap l) = true) as ->.
  { apply andb_true_iff. split; apply Z.leb_le; lia. }
  rewrite Z.sub_diag. change (slice (buf l) 0 (len l)) with (populated l). by rewrite Hd.
Qed.

Lemma set_file_rep l f old es : log_rep l old es → log_rep (set_file l f) old es.
Proof. intros []. by split. Qed.

Lemma flush_spec l old es :
  log_rep l old es →
  ∃ l', flush None l = Ok (true, l') ∧ log_rep l' old es ∧ cap l' = cap l ∧
    contents (file l') =
      (old ++ concat es) ++ drop (length (old ++ concat es)) (contents (file l)).
Proof.
  intros Hr. unfold flush. rewrite (flush_data l old es Hr).
  eexists. split; [done|]. split; [by apply set_file_rep|]. done.
Qed.

(** A failed flush keeps the log: a failed seek leaves the file alone, a write
    that fails after [n] bytes puts at most those in front, and only the
    final flush fails with everything written. *)
Lemma flush_error_spec l old es e :
  log_rep l old es →
  ∃ l', flush (Some e) l = Ok (false, l') ∧ log_rep l' old es ∧ cap l' = cap l ∧
    let P := match e with
             | FSeek => []
             | FWrite n => take n (old ++ concat es)
             | FFlush => old ++ concat es
             end in
    contents (file l') = P ++ drop (length P) (contents (file l)).
Proof.
  intros Hr. unfold flush. rewrite (flush_data l old es Hr).
  destruct e; simpl; (eexists; split; [done|]; split; [|done]); by apply set_file_rep || done.
Qed.

(** An I/O error of [open] is returned, whichever call failed. *)
Lemma open_error_spec addr f c e :
  0 < c → c + PAGE ≤ 2 ^ 63 → block_ok addr (align_up c PAGE) PAGE →
  log_open (Some e) (Some addr) f c = Ok None.
Proof.
  intros Hc Hb Hok. destruct (open_rep addr f c Hc Hb Hok) as (l & Ho & _).
  unfold log_open in *. destruct (negb _); [done|]. destruct (_ =? 0); [done|]. by destruct e.
Qed.

(** ** Histories of appends *)

Fixpoint appends (bss : list bytes) (l : MappedLog) : list (option nat) * MappedLog :=
  match bss with
  | [] => ([], l)
  | bs :: bss =>
    let '(o, l) := append bs l in
    let '(os, l) := appends bss l in (o :: os, l)
  end.

(** The records a log with [room] bytes left and [n] records accepts. *)
Fixpoint accept (room : Z) (n : nat) (bss : list bytes) : list (option nat) * list bytes :=
  match bss with
  | [] => ([], [])
  | bs :: bss =>
    if decide (blen bs ≤ room) then
      let '(os, es) := accept (room - blen bs) (S n) bss in (Some n :: os, bs :: es)
    else let '(os, es) := accept room n bss in (None :: os, es)
  end.

Lemma appends_spec : ∀ bss l old es,
  log_rep l old es → Forall is_slice bss →
  let '(os, es') := accept (cap l - len l) (length es) bss in
  ∃ l', appends bss l = (os, l') ∧ log_rep l' old (es ++ es') ∧
    cap l' = cap l ∧ base l' = base l ∧ file l' = file l.
Proof.
  induction bss as [|bs bss IH]; intros l old es Hr Hbs; simpl.
  - exists l. by rewrite app_nil_r.
  - apply Forall_cons in Hbs as [Hbs Hbss]. pose proof (append_spec l old es bs Hr Hbs) as Ha.
    destruct (decide (blen bs ≤ cap l - len l)) as [Hfit|Hfit].
    + rewrite decide_True in Ha by lia. destruct Ha as (l1 & -> & Hr1 & Hc & Hb & Hf & Hln).
      specialize (IH l1 old _ Hr1 Hbss). rewrite length_app in IH. simpl in IH.
      rewrite Nat.add_1_r, Hc, Hln in IH.
      replace (cap l - (len l + blen bs)) with (cap l - len l - blen bs) in IH by lia.
      destruct (accept (cap l - len l - blen bs) (S (length es)) bss) as [os es'].
      destruct IH as (l2 & -> & Hr2 & Hc2 & Hb2 & Hf2). exists l2.
      rewrite <- app_assoc in Hr2. rewrite Hc2, Hb2, Hf2, Hb, Hf. done.
    + rewrite decide_False in Ha by lia. rewrite Ha. specialize (IH l old es Hr Hbss).
      destruct (accept (cap l - len l) (length es) bss) as [os es'].
      destruct IH as (l2 & -> & ?). by exists l2.
Qed.

Lemma opened_len l old : log_rep l old [] → len l = blen old.
Proof. intros [_ _ [H _] _ _]. simpl in H. by rewrite app_nil_r in H. Qed.

(** What a flush leaves of a file whose front, as much as fits, is [old]. *)
Lemma flushed_contents (k : Z) (C es : bytes) :
  let P := take (Z.to_nat k) C ++ es in
  0 ≤ k → blen P ≤ k →
  P ++ drop (length P) C = if decide (blen C ≤ k) then P else C.
Proof.
  intros P Hk HP. unfold P in *. rewrite length_app, length_take in *. case_decide.
  - rewrite drop_ge by lia. by rewrite app_nil_r.
  - assert (es = []) as -> by (apply length_zero_iff_nil; lia).
    rewrite app_nil_r. simpl length.
    replace (Nat.min (Z.to_nat k) (length C) + 0)%nat with (Z.to_nat k) by lia. apply take_drop.
Qed.

Lemma reloaded_prefix (k : Z) (C es : bytes) :
  let P := take (Z.to_nat k) C ++ es in
  0 ≤ k → blen P ≤ k →
  take (Z.to_nat k) (if decide (blen C ≤ k) then P else C) = P.
Proof.
  intros P Hk HP. case_decide; [rewrite take_ge by lia; done|].
  unfold P in *. rewrite length_app, length_take in HP.
  assert (es = []) as -> by (apply length_zero_iff_nil; lia). by rewrite app_nil_r.
Qed.

(** ** Claims *)

Section claims.
(** The block [alloc_zeroed] returned, the file and the requested capacity. *)
Context (addr : Z) (f : File) (c : Z).
Context (Hc : 0 < c) (Hcmax : c + PAGE ≤ 2 ^ 63).
Context (Hblock : block_ok addr (align_up c PAGE) PAGE).

(** [C23] Append and read back: after opening a log over a file and any
    sequence of appends, an append is refused exactly when the bytes left do
    not hold it and otherwise returns the next index; [record i] returns the
    [i]-th accepted record unchanged, [None] beyond; and the populated prefix
    is the loaded file contents followed by the accepted records. *)
Theorem mmap_log_history (bss : list bytes) (Hslices : Forall is_slice bss) :
  ∃ l, log_open None (Some addr) f c = Ok (Some l) ∧ c ≤ cap l < c + PAGE ∧
    let old := take (Z.to_nat (cap l)) (contents f) in
    let '(os, es) := accept (cap l - blen old) 0 bss in
    ∃ l', appends bss l = (os, l') ∧ (∀ i, record i l' = Ok (es !! i)) ∧
      populated l' = old ++ concat es.
Proof.
  destruct (open_rep addr f c Hc Hcmax Hblock) as (l & Ho & Hcl & _ & Hr & _ & _).
  exists l. split; [done|]. split; [done|].
  pose proof (appends_spec bss l _ _ Hr Hslices) as Ha. rewrite (opened_len _ _ Hr) in Ha.
  simpl in Ha |- *. destruct (accept _ _ bss) as [os es].
  destruct Ha as (l' & -> & Hr' & _). exists l'. split; [done|]. simpl in Hr'.
  split; [intros i; by eapply record_spec|]. apply (l_data _ _ _ Hr').
Qed.

(** [C26] Durability of the bytes: after any appends, a successful flush
    overwrites the front of the file with the populated prefix and keeps the
    file's tail beyond it (nothing is truncated). So a file that fitted the
    region when it was opened becomes exactly the populated prefix, and one
    that was longer is left as it was. Either way, opening the file again
    gives a log with the same populated prefix, in which no record can be
    addressed by index any more. *)
Theorem mmap_log_reopen (bss : list bytes) (Hslices : Forall is_slice bss) :
  ∃ l l' os,
    log_open None (Some addr) f c = Ok (Some l) ∧ appends bss l = (os, l') ∧
    ∃ l2 l3, flush None l' = Ok (true, l2) ∧
      contents (file l2) = populated l' ++ drop (length (populated l')) (contents f) ∧
      contents (file l2) =
        (if decide (blen (contents f) ≤ cap l) then populated l' else contents f) ∧
      log_open None (Some addr) (file l2) c = Ok (Some l3) ∧ populated l3 = populated l' ∧
      ∀ i, record i l3 = Ok None.
Proof.
  destruct (open_rep addr f c Hc Hcmax Hblock) as (l & Ho & Hcl & Hcap & Hr & _ & Hf).
  pose proof (appends_spec bss l _ _ Hr Hslices) as Ha.
  set (old := take (Z.to_nat (cap l)) (contents f)) in *. simpl in Ha.
  destruct (accept _ _ bss) as [os es]. destruct Ha as (l' & Happ & Hr' & Hcap' & _ & Hfile').
  destruct (flush_spec l' _ _ Hr') as (l2 & Hfl & Hr2 & Hcap2 & Hcon).
  rewrite Hfile', Hf in Hcon. simpl in *.
  destruct (open_rep addr (file l2) c Hc Hcmax Hblock) as (l3 & Ho3 & _ & Hcap3 & Hr3 & _ & _).
  exists l, l', os. split; [done|]. split; [done|]. exists l2, l3. split; [done|].
  rewrite (l_data _ _ _ Hr'), (l_data _ _ _ Hr3). simpl. rewrite app_nil_r, Hcap3, <- Hcap.
  destruct (l_len _ _ _ Hr') as [H1 H2]. rewrite Hcap' in H2.
  assert (Hfile : contents (file l2) =
    if decide (blen (contents f) ≤ cap l) then old ++ concat es else contents f).
  { rewrite Hcon. apply (flushed_contents (cap l)); fold old; lia. }
  split; [done|]. split; [done|]. split; [done|]. split.
  - rewrite Hfile. apply (reloaded_prefix (cap l)); fold old; lia.
  - intros i. rewrite (record_spec _ _ _ i Hr3). done.
Qed.

End claims.

(** ** Witnesses *)

Lemma demo_block : block_ok 4096 (align_up 10 PAGE) PAGE.
Proof. vm_compute. intuition congruence. Qed.

Lemma mmap_log_history_witness :
  ∃ l, log_open None (Some 4096) (mkFile [7; 8] 0) 10 = Ok (Some l) ∧ 10 ≤ cap l < 10 + PAGE ∧
    ∃ l', appends [[1]; [2; 3]] l = ([Some 0; Some 1]%nat, l') ∧
      (∀ i, record i l' = Ok ([[1]; [2; 3]] !! i)) ∧ populated l' = [7; 8; 1; 2; 3].
Proof.
  destruct (mmap_log_history 4096 (mkFile [7; 8] 0) 10 ltac:(done) ltac:(done) demo_block
    [[1]; [2; 3]]) as (l & Ho & Hc & H).
  { repeat constructor; done. }
  exists l. split; [exact Ho|]. split; [exact Hc|].
  assert (Hl : cap l = 4096) by (by vm_compute in Ho; simplify_eq). rewrite Hl in H. exact H.
Defined.

(** A short file, extended by the two records; and a file of 4100 bytes behind
    a log of one page, which flushing leaves alone. *)
Lemma mmap_log_reopen_witness :
  (∃ l l' os,
    log_open None (Some 4096) (mkFile [7; 8] 0) 10 = Ok (Some l) ∧
    appends [[1]; [2; 3]] l = (os, l') ∧
    ∃ l2 l3, flush None l' = Ok (true, l2) ∧ contents (file l2) = [7; 8; 1; 2; 3] ∧
      log_open None (Some 4096) (file l2) 10 = Ok (Some l3) ∧ populated l3 = [7; 8; 1; 2; 3] ∧
      ∀ i, record i l3 = Ok None) ∧
  (∃ l l' os,
    log_open None (Some 4096) (mkFile (replicate 4100 9) 0) 10 = Ok (Some l) ∧
    appends [[1]] l = (os, l') ∧
    ∃ l2, flush None l' = Ok (true, l2) ∧ contents (file l2) = replicate 4100 9).
Proof.
  split.
  - destruct (mmap_log_reopen 4096 (mkFile [7; 8] 0) 10 ltac:(done) ltac:(done) demo_block
      [[1]; [2; 3]]) as (l & l' & os & Ho & Ha & l2 & l3 & Hf & Hc & _ & Ho3 & Hp & Hr).
    { repeat constructor; done. }
    assert (HP : populated l' = [7; 8; 1; 2; 3]).
    { vm_compute in Ho. simplify_eq. vm_compute in Ha. simplify_eq. reflexivity. }
    rewrite HP in Hc, Hp. by eauto 12.
  - destruct (mmap_log_reopen 4096 (mkFile (replicate 4100 9) 0) 10 ltac:(done) ltac:(done)
      demo_block [[1]]) as (l & l' & os & Ho & Ha & l2 & l3 & Hf & _ & Hc & _).
    { repeat constructor; done. }
    assert (Hl : cap l = 4096).
    { pose proof (f_equal (λ x, match x with Ok (Some l) => cap l | _ => 0 end) Ho) as H.
      by vm_compute in H. }
    exists l, l', os. split; [exact Ho|]. split; [exact Ha|]. exists l2. split; [exact Hf|].
    rewrite Hc, Hl. reflexivity.
Defined.
