(* ===== verification/Store.v ===== *)
(** * Store: the public façade

    Models [crates/zerokv/src/store.rs]: an index, taken through the [Index]
    interface, behind an optional write-ahead log. The log's mutex serialises
    appends; a single caller sees it as plain state. *)

From S2P Require Import Prelude Index MmapLog.
Local Open Scope Z_scope.
Local Open Scope zkv_scope.

(** The WAL record of a put: [[klen|key|value]], [klen] as a little-endian
    [u32]. *)
Definition frame (key value : bytes) : bytes :=
  to_le_bytes 4 (blen key mod 2 ^ 32) ++ key ++ value.

Lemma length_frame key value : blen (frame key value) = 4 + blen key + blen value.
Proof. unfold frame. rewrite !length_app, length_to_le_bytes. lia. Qed.

Lemma frame_inj k v k' v' :
  blen k < 2 ^ 32 → blen k' < 2 ^ 32 → frame k v = frame k' v' → k = k' ∧ v = v'.
Proof.
  intros Hk Hk' He. apply app_inj_1 in He as [He1 He2]; [|by rewrite !length_to_le_bytes].
  assert (Hl : blen k = blen k').
  { apply (f_equal of_le_bytes) in He1. rewrite !of_to_le_bytes in He1.
    change (256 ^ Z.of_nat 4) with (2 ^ 32) in He1. rewrite !Z.mod_mod in He1 by done.
    rewrite !Z.mod_small in He1 by lia. done. }
  apply app_inj_1 in He2; [done|lia].
Qed.

Section store.
Context {T : Type} `{!Index T}.

Record KvStore : Type := mkStore {
  index : T;
  wal : option MappedLog
}.

(** [KvStore::in_memory] and [KvStore::durable], given the built index and the
    opened log. *)
Definition in_memory (t : T) : KvStore := mkStore t None.
Definition durable (t : T) (log : MappedLog) : KvStore := mkStore t (Some log).

(** [KvStore::put]: the result of [append] is discarded. *)
Definition put (key value : bytes) (s : KvStore) : res (bool * KvStore) :=
  let wal' :=
    match wal s with
    | Some log => Some (snd (append (frame key value) log))
    | None => None
    end in
  '(b, t) ←r idx_insert key value (index s);
  Ok (b, mkStore t wal').

(** [KvStore::get], [KvStore::delete], [KvStore::len]. *)
Definition store_get (key : bytes) (s : KvStore) : res (option bytes * KvStore) :=
  '(v, t) ←r idx_get key (index s); Ok (v, mkStore t (wal s)).
Definition delete_key (key : bytes) (s : KvStore) : res (bool * KvStore) :=
  '(b, t) ←r idx_remove key (index s); Ok (b, mkStore t (wal s)).
Definition store_len (s : KvStore) : Z := idx_len (index s).
Definition store_is_empty (s : KvStore) : bool := store_len s =? 0.

(** [KvStore::flush]: [false] is the propagated I/O error. *)
Definition store_flush (fails : option flush_fault) (s : KvStore) : res (bool * KvStore) :=
  match wal s with
  | None => Ok (true, s)
  | Some log => '(ok, log) ←r flush fails log; Ok (ok, mkStore (index s) (Some log))
  end.

(** ** Histories *)

Definition store_op (o : op) (s : KvStore) : res (out * KvStore) :=
  match o with
  | Put k v => '(b, s) ←r put k v s; Ok (OBool b, s)
  | Get k => '(v, s) ←r store_get k s; Ok (OBytes v, s)
  | Del k => '(b, s) ←r delete_key k s; Ok (OBool b, s)
  | Len => Ok (OLen (store_len s), s)
  end.

Fixpoint store_ops (os : list op) (s : KvStore) : res (list out * KvStore) :=
  match os with
  | [] => Ok ([], s)
  | o :: os =>
    '(r, s) ←r store_op o s;
    '(rs, s) ←r store_ops os s;
    Ok (r :: rs, s)
  end.

(** The frames a history writes to its log. *)
Definition frames (os : list op) : list bytes :=
  omap (λ o, match o with Put k v => Some (frame k v) | _ => None end) os.

(** The log after a history, whatever the index does. *)
Definition wal_after (os : list op) (w : option MappedLog) : option MappedLog :=
  (λ log, snd (appends (frames os) log)) <$> w.

Context `{!IndexLaws T}.

Lemma store_op_ok o s M n :
  idx_rep (index s) M (S n) →
  ∃ t, store_op o s = Ok (fst (map_op o M), mkStore t (wal_after [o] (wal s))) ∧
    idx_rep t (snd (map_op o M)) n.
Proof.
  intros Hr. assert (Hr' : idx_rep (index s) M n) by (eapply idx_rep_weaken; [exact Hr|lia]).
  assert (Hid : ∀ w : option MappedLog, (λ log, log) <$> w = w) by (by intros []).
  destruct s as [t w]. destruct o as [k v|k|k|]; unfold wal_after; simpl in *.
  - destruct (idx_insert_ok k v t M n Hr) as (t' & Hi & Hr1). unfold put. simpl.
    rewrite Hi. simpl. exists t'. split; [|done]. do 3 f_equal. destruct w as [log|]; [|done].
    simpl. by destruct (append (frame k v) log).
  - unfold store_get. simpl. rewrite (idx_get_ok k t M n Hr'), Hid. simpl. eauto.
  - destruct (idx_remove_ok k t M n Hr') as (t' & Hi & Hr1). unfold delete_key. simpl.
    rewrite Hi, Hid. simpl. eauto.
  - unfold store_len. simpl. rewrite (idx_len_ok t M n Hr'), Hid. eauto.
Qed.

Lemma appends_app bs1 bs2 l :
  snd (appends (bs1 ++ bs2) l) = snd (appends bs2 (snd (appends bs1 l))).
Proof.
  revert l. induction bs1 as [|b bs1 IH]; intros l; simpl; [done|].
  destruct (append b l) as [o l1]. specialize (IH l1).
  destruct (appends (bs1 ++ bs2) l1) as [? ?]. destruct (appends bs1 l1) as [? ?]. done.
Qed.

Lemma wal_after_cons o os w : wal_after (o :: os) w = wal_after os (wal_after [o] w).
Proof.
  destruct w as [l|]; [|done]. unfold wal_after. cbn [fmap option_fmap option_map].
  assert (frames (o :: os) = frames [o] ++ frames os) as -> by (by destruct o).
  by rewrite appends_app.
Qed.

Lemma store_ops_ok os : ∀ s M,
  idx_rep (index s) M (length os) →
  ∃ t, store_ops os s = Ok (fst (map_ops os M), mkStore t (wal_after os (wal s))) ∧
    idx_rep t (snd (map_ops os M)) 0.
Proof.
  induction os as [|o os IH]; intros s M Hr.
  - exists (index s). split; [|done]. destruct s as [t [w|]]; done.
  - cbn [store_ops map_ops]. destruct (store_op_ok o s M (length os) Hr) as (t1 & -> & Hr1).
    destruct (map_op o M) as [r M1]. simpl in *.
    destruct (IH (mkStore t1 (wal_after [o] (wal s))) M1 Hr1) as (t2 & -> & Hr2).
    destruct (map_ops os M1) as [rs M2]. simpl in *.
    exists t2. split; [|done]. by rewrite (wal_after_cons o os).
Qed.

End store.
Arguments KvStore : clear implicits.
