(* ===== verification/Engine.v ===== *)
(** * Engine: the whole store

    Puts the pieces together as [KvStore] does: skiplists behind the sharded
    index behind the façade, with the memory-mapped log as write-ahead log.
    The theorems are about the composed system; nothing of the index
    implementation shows through the [Index] interface. *)

From S2P Require Import Prelude Backoff Index SkipList SkipListProof.
From S2P Require Import SkipListRep SkipListRemove SkipListSpec Shard MmapLog.
From S2P Require Import Store.
Local Open Scope Z_scope.
Local Open Scope zkv_scope.

Section engine.
(** Loop fuel, the floating-point height estimate and the per-thread
    generator states the shards are used with. *)
Context (fuel : nat) (ceil_log4 : Z → Z) (seeds : nat → Z).

#[local] Instance engine_index : Index SL := SL_index fuel.
#[local] Instance engine_laws : IndexLaws SL := SL_laws fuel.

(** One shard: [SkipList::with_capacity_hint] in a fresh memory. *)
Definition build_shard (i : nat) (hint : Z) : res SL :=
  '(sl, m) ←r run (with_capacity_hint ceil_log4 hint) (empty_mem (seeds i));
  Ok (mkSL sl m).

Lemma build_shard_ok n :
  (n + 2 ≤ fuel)%nat → 344 + Z.of_nat n * insert_room ≤ W64 →
  ∀ i h, ∃ t, build_shard i h = Ok t ∧ idx_rep t ∅ n.
Proof.
  intros Hf Hb i h. unfold build_shard.
  destruct (with_capacity_hint_run ceil_log4 h (seeds i)) as (ml & Hml & -> & Hr).
  eexists. split; [reflexivity|]. by apply fresh_sl_rep.
Qed.

Definition engine_new (num_shards hint : Z) : res (ShardedIndex SL) :=
  ShardedIndex_new build_shard num_shards hint.

Definition engine_ops : list op → KvStore (ShardedIndex SL) →
    res (list out * KvStore (ShardedIndex SL)) := store_ops.

(** [C6] A durable store over any number of shards behaves as a finite map on
    every history, whether or not the log is full; and its log then holds the
    loaded file followed by the frames of the puts that fitted, in order. *)
Theorem kvstore_durable_history (num_shards hint : Z) (os : list op)
    (addr : Z) (f : File) (wal_bytes : Z)
    (Hnum : num_shards ≤ 2 ^ 63)
    (Hfuel : (length os + 2 ≤ fuel)%nat)
    (Hroom : 344 + Z.of_nat (length os) * insert_room ≤ W64)
    (Hwal : 0 < wal_bytes) (Hwmax : wal_bytes + PAGE ≤ 2 ^ 63)
    (Hblock : block_ok addr (align_up wal_bytes PAGE) PAGE)
    (Hslices : Forall is_slice (frames os)) :
  ∃ t log s log',
    engine_new num_shards hint = Ok t ∧ log_open None (Some addr) f wal_bytes = Ok (Some log) ∧
    engine_ops os (durable t log) = Ok (fst (map_ops os ∅), s) ∧
    wal s = Some log' ∧
    let old := take (Z.to_nat (cap log)) (contents f) in
    populated log' = old ++ concat (snd (accept (cap log - blen old) 0 (frames os))).
Proof.
  destruct (sharded_new_rep build_shard num_shards hint _ Hnum (build_shard_ok _ Hfuel Hroom))
    as (t & Hnew & Hr & _).
  destruct (open_rep addr f wal_bytes Hwal Hwmax Hblock) as (log & Ho & _ & _ & Hlog & _ & _).
  assert (Hr0 : idx_rep (index (durable t log)) ∅ (length os)) by exact Hr.
  destruct (store_ops_ok os (durable t log) ∅ Hr0) as (t' & Hrun & _).
  pose proof (appends_spec (frames os) log _ _ Hlog Hslices) as Ha.
  rewrite (opened_len _ _ Hlog) in Ha. simpl in Ha.
  eexists t, log, _, (snd (appends (frames os) log)).
  split; [exact Hnew|]. split; [exact Ho|]. split; [exact Hrun|]. split; [reflexivity|].
  cbv zeta. destruct (accept _ _ (frames os)) as [os' es].
  destruct Ha as (l' & -> & Hl' & _). apply (l_data _ _ _ Hl').
Qed.

End engine.

(** ** What the log does not record *)

(** [C28] The frame of a put has no value length, so the log is not uniquely
    decodable: two histories with different final maps leave the same bytes.
    Within one record the key length delimits the key, so a frame alone does
    determine its put. *)
Theorem wal_frames_ambiguous :
  (∀ k v k' v', blen k < 2 ^ 32 ∧ blen k' < 2 ^ 32 ∧ frame k v = frame k' v' →
     k = k' ∧ v = v') ∧
  let os1 := [Put [1] ([9] ++ frame [2] [8])] in
  let os2 := [Put [1] [9]; Put [2] [8]] in
  concat (frames os1) = concat (frames os2) ∧
  snd (map_ops os1 ∅) !! [2] = None ∧ snd (map_ops os2 ∅) !! [2] = Some [8].
Proof.
  split; [|done]. intros k v k' v' (Hk & Hk' & He). by eapply frame_inj.
Qed.

(** A store whose one-page log has no room for another frame. *)
Definition full_log : MappedLog :=
  mkLog 4096 (replicate 4096 0) 4096 4096 [] (mkFile [] 0).

(** [put] discards the result of [append]: on a full log it updates the
    index and reports success while the log keeps no trace of the record; and
    [delete] never reaches the log at all. *)
Lemma put_not_logged_when_full :
  ('(b, s) ←r put [1] [2] (durable (∅ : store_map) full_log); Ok (b, index s !! [1], wal s))
    = Ok (true, Some [2], Some full_log) ∧
  ∀ (k : bytes) (M : store_map) log s b,
    delete_key k (durable M log) = Ok (b, s) → wal s = Some log.
Proof.
  split; [vm_compute; reflexivity|]. intros k M log s b Hd. unfold delete_key in Hd.
  simpl in Hd. by simplify_eq.
Qed.

(** ** Witness *)

Definition engine_demo : list op :=
  [Put [1] [10]; Put [2] [20]; Get [2]; Del [1]; Get [1]; Len].

Lemma kvstore_durable_history_witness :
  fst (map_ops engine_demo ∅) =
    [OBool true; OBool true; OBytes (Some [20]); OBool true; OBytes None; OLen 1] ∧
  ∃ t log s log',
    engine_new (λ _, 2) (λ i, Z.of_nat i + 1) 4 64 = Ok t ∧
    log_open None (Some 4096) (mkFile [7; 8] 0) 10 = Ok (Some log) ∧
    engine_ops 10 engine_demo (durable t log) = Ok (fst (map_ops engine_demo ∅), s) ∧
    wal s = Some log' ∧
    let old := take (Z.to_nat (cap log)) [7; 8] in
    populated log' = old ++ concat (snd (accept (cap log - blen old) 0 (frames engine_demo))).
Proof.
  split; [vm_compute; reflexivity|].
  refine (kvstore_durable_history 10 (λ _, 2) (λ i, Z.of_nat i + 1) 4 64 engine_demo 4096
    (mkFile [7; 8] 0) 10 _ _ _ _ _ demo_block _).
  - discriminate.
  - apply Nat.leb_le. reflexivity.
  - apply Z.leb_le. reflexivity.
  - reflexivity.
  - apply Z.leb_le. reflexivity.
  - repeat constructor; reflexivity.
Defined.
