(* ===== verification/RegBuf.v ===== *)
(** * RegBuf: the registered fixed-buffer pool and positional file I/O

    Models [crates/zerokv/src/regbuf.rs]: the slab carved into page-sized
    buffers, the free list of 16-bit indices, the handles, and the portable
    backend. The kernel's answer to a [write_at]/[read_at] (an error, or how
    many bytes it transferred) is an argument: [resp i] for the [i]-th call. *)

From S2P Require Import Prelude MmapLog.
Local Open Scope Z_scope.
Local Open Scope zkv_scope.

(** ** The pool *)

Record Pool : Type := mkPool {
  pbase : Z;
  slab : bytes;
  buf_len : Z;
  count : Z;
  free : list Z
}.

(** [RegisteredBuffers::register]; [addr] is what [alloc_zeroed] returned. *)
Definition register (addr : option Z) (n blen : Z) : res Pool :=
  if negb ((0 <? n) && (n <=? 2 ^ 16 - 1)) then Err Panic
  else
    let buf_len := Z.land (wsub (wadd (Z.max blen 1) PAGE) 1) (wnot (PAGE - 1)) in
    if W64 <=? n * buf_len then Err Panic
    else if negb (layout_from_size_align (n * buf_len) PAGE) then Err Panic
    else if n * buf_len =? 0 then Err UB
    else
      base ←r or_err Abort addr;
      Ok (mkPool base (replicate (Z.to_nat (n * buf_len)) 0) buf_len n
            (Z.of_nat <$> seq 0 (Z.to_nat n))).

(** [struct FixedBuf]. *)
Record FixedBuf : Type := mkFixedBuf {
  fb_index : Z;
  fb_ptr : Z;
  fb_len : Z
}.

Definition set_free (p : Pool) (fs : list Z) : Pool :=
  mkPool (pbase p) (slab p) (buf_len p) (count p) fs.
Definition set_slab (p : Pool) (bs : bytes) : Pool :=
  mkPool (pbase p) bs (buf_len p) (count p) (free p).

(** [RegisteredBuffers::acquire]: [Vec::pop] takes the last free index. *)
Definition acquire (p : Pool) : option FixedBuf * Pool :=
  match last (free p) with
  | None => (None, p)
  | Some i =>
    (Some (mkFixedBuf i (wadd (pbase p) (wmul i (buf_len p))) (buf_len p)),
     set_free p (take (length (free p) - 1) (free p)))
  end.

(** [RegisteredBuffers::release], run by [Drop for FixedBuf]. *)
Definition release (i : Z) (p : Pool) : Pool := set_free p (free p ++ [i]).

(** [Drop for RegisteredBuffers]: the layout handed to [dealloc]. *)
Definition slab_layout (p : Pool) : res (Z * Z) :=
  let total := wmul (count p) (buf_len p) in
  if layout_from_size_align total PAGE then Ok (total, PAGE) else Err Panic.

Definition available (p : Pool) : nat := length (free p).

Definition in_slab (p : Pool) (ptr n : Z) : bool :=
  (pbase p <=? ptr) && (ptr + n <=? pbase p + blen (slab p)).

(** [FixedBuf::as_slice]. *)
Definition as_slice (b : FixedBuf) (p : Pool) : res bytes :=
  if in_slab p (fb_ptr b) (fb_len b)
  then Ok (slice (slab p) (fb_ptr b - pbase p) (fb_len b))
  else Err UB.

(** A write of [bs] at [off] through [FixedBuf::as_mut_slice]. *)
Definition write_slice (b : FixedBuf) (off : Z) (bs : bytes) (p : Pool) : res Pool :=
  if negb (in_slab p (fb_ptr b) (fb_len b)) then Err UB
  else if negb ((0 <=? off) && (off + blen bs <=? fb_len b)) then Err Panic
  else Ok (set_slab p (blit (slab p) (fb_ptr b - pbase p + off) bs)).

(** ** Positional file I/O *)

(** [pwrite]: what the file holds after [bs] went in at [off]. *)
Definition pwrite (c : bytes) (off : Z) (bs : bytes) : bytes :=
  match bs with
  | [] => c
  | _ => take (Z.to_nat off) (c ++ replicate (Z.to_nat off - length c) 0) ++ bs
           ++ drop (Z.to_nat off + length bs) c
  end.

(** [write_all_at]: the file and the result, [false] on an I/O error (one from
    the kernel or [WriteZero]); [i] counts the calls made so far. [write_at]
    transfers at most what it was given. *)
Fixpoint write_all_at (fuel : nat) (resp : nat → option nat) (i : nat) (data : bytes)
    (off : Z) (c : bytes) : res (bool * nat * bytes) :=
  match fuel with
  | O => Err OutOfFuel
  | S fuel' =>
    match data with
    | [] => Ok (true, i, c)
    | _ =>
      match resp i with
      | None => Ok (false, S i, c)
      | Some r =>
        let n := Nat.min r (length data) in
        if (n =? 0)%nat then Ok (false, S i, c)
        else write_all_at fuel' resp (S i) (drop n data) (wadd off (Z.of_nat n))
               (pwrite c off (take n data))
      end
    end
  end.

(** [write_vectored]: the total on success. *)
Fixpoint write_vectored (resp : nat → option nat) (i : nat) (bufs : list bytes)
    (pos total : Z) (c : bytes) : res (option Z * nat * bytes) :=
  match bufs with
  | [] => Ok (Some total, i, c)
  | bs :: bufs =>
    '(ok, i, c) ←r write_all_at (length bs + 1) resp i bs pos c;
    if (ok : bool)
    then write_vectored resp i bufs (wadd pos (blen bs)) (wadd total (blen bs)) c
    else Ok (None, i, c)
  end.

(** [read_fixed]: [None] is an I/O error; a successful [read_at] transfers at
    most what was asked and what the file holds past the offset. *)
Definition read_fixed (resp : option nat) (c : bytes) (off : Z) (b : FixedBuf) (n : Z)
    (p : Pool) : res (option Z * Pool) :=
  let n := Z.min n (fb_len b) in
  match resp with
  | None => Ok (None, p)
  | Some r =>
    let got := take (Nat.min r (Z.to_nat n)) (drop (Z.to_nat off) c) in
    p ←r write_slice b 0 got p;
    Ok (Some (blen got), p)
  end.

(** ** Writes to a file *)

Lemma pwrite_nonempty c off bs :
  bs ≠ [] →
  pwrite c off bs = take (Z.to_nat off) (c ++ replicate (Z.to_nat off - length c) 0) ++ bs
    ++ drop (Z.to_nat off + length bs) c.
Proof. by destruct bs. Qed.

Lemma pwrite_app c off a b :
  0 ≤ off → pwrite (pwrite c off a) (off + blen a) b = pwrite c off (a ++ b).
Proof.
  intros Hoff. destruct (decide (a = [])) as [->|Ha]; [simpl; by rewrite Z.add_0_r|].
  destruct (decide (b = [])) as [->|Hb]; [by rewrite app_nil_r|].
  rewrite (pwrite_nonempty c off a), (pwrite_nonempty c off (a ++ b)) by (try done; by destruct a).
  rewrite pwrite_nonempty by done. set (P := take (Z.to_nat off) _).
  assert (HP : length P = Z.to_nat off).
  { unfold P. rewrite length_take, length_app, length_replicate. lia. }
  replace (Z.to_nat (off + blen a)) with (length (P ++ a)) by (rewrite length_app; lia).
  rewrite (app_assoc P a), <- (app_assoc (P ++ a)), take_app_length, <- !app_assoc.
  do 3 f_equal.
  rewrite (app_assoc P a), <- drop_drop, drop_app_length, drop_drop.
  f_equal. rewrite length_app. lia.
Qed.

(** An answer that makes a write fail: an error, or no byte taken. *)
Definition refuses (answer : option nat) : Prop := answer = None ∨ answer = Some 0%nat.

(** The calls from the [i]-th on moved [moved] bytes each: at least one, no
    more than granted, and less than granted only to reach a boundary [B] of
    the data (counted from the first of them). *)
Definition transfers (resp : nat → option nat) (i : nat) (B : nat → Prop) (moved : list nat) : Prop :=
  ∀ j a, moved !! j = Some a → ∃ r, resp (i + j)%nat = Some r ∧ (0 < a ≤ r)%nat ∧
    (a = r ∨ B (sum_list (take (S j) moved))).

Lemma transfers_nil resp i B : transfers resp i B [].
Proof. intros j a Hj. by rewrite lookup_nil in Hj. Qed.

Lemma transfers_cons resp i B r a moved :
  resp i = Some r → (0 < a ≤ r)%nat → a = r ∨ B a →
  transfers resp (S i) (λ s, B (a + s)%nat) moved → transfers resp i B (a :: moved).
Proof.
  intros Hr Ha Hb Ht [|j] x Hx; simplify_eq/=.
  - exists r. rewrite Nat.add_0_r. split; [done|]. split; [done|].
    by rewrite Nat.add_0_r.
  - rewrite Nat.add_succ_r. exact (Ht j x Hx).
Qed.

Lemma transfers_app resp i (B B1 B2 : nat → Prop) m1 m2 :
  transfers resp i B1 m1 → transfers resp (i + length m1) B2 m2 →
  (∀ s, B1 s → B s) → (∀ s, B2 s → B (sum_list m1 + s)%nat) →
  transfers resp i B (m1 ++ m2).
Proof.
  intros H1 H2 HB1 HB2 j a Hj. destruct (decide (j < length m1)%nat) as [Hlt|Hge].
  - rewrite lookup_app_l in Hj by done. destruct (H1 j a Hj) as (r & ? & ? & H).
    exists r. split; [done|]. split; [done|]. rewrite take_app_le by lia. naive_solver.
  - rewrite lookup_app_r in Hj by lia. destruct (H2 _ a Hj) as (r & Hr & ? & H).
    exists r. split; [rewrite <- Hr; f_equal; lia|]. split; [done|].
    rewrite take_app_ge by lia. replace (S j - length m1)%nat with (S (j - length m1)) by lia.
    rewrite sum_list_with_app. naive_solver.
Qed.

(** [write_all_at] terminates. It reports success when the bytes moved add up
    to [data], and an error exactly when, with bytes still to write, the next
    call is refused; the file then has the bytes moved. *)
Lemma write_all_at_spec resp : ∀ fuel data i off c,
  (length data < fuel)%nat → 0 ≤ off → off + blen data < W64 →
  ∃ moved, transfers resp i (λ s, s = length data) moved ∧
    (sum_list moved = length data ∧
     write_all_at fuel resp i data off c = Ok (true, (i + length moved)%nat, pwrite c off data) ∨
     (sum_list moved < length data)%nat ∧ refuses (resp (i + length moved)%nat) ∧
     write_all_at fuel resp i data off c
       = Ok (false, S (i + length moved), pwrite c off (take (sum_list moved) data))).
Proof.
  induction fuel as [|fuel IH]; intros data i off c Hf Hoff Hle; [lia|].
  destruct data as [|x data].
  { exists []. split; [apply transfers_nil|]. left. by rewrite Nat.add_0_r. }
  cbn [write_all_at]. set (D := x :: data) in *.
  assert (HD : (0 < length D)%nat) by (simpl; lia).
  assert (Hfail : refuses (resp i) →
    ∃ moved, transfers resp i (λ s, s = length D) moved ∧
    (sum_list moved = length D ∧
     Ok (false, S i, c) = Ok (true, (i + length moved)%nat, pwrite c off D) ∨
     (sum_list moved < length D)%nat ∧ refuses (resp (i + length moved)%nat) ∧
     @Ok (bool * nat * bytes) (false, S i, c)
       = Ok (false, S (i + length moved), pwrite c off (take (sum_list moved) D)))).
  { intros Hr. exists []. split; [apply transfers_nil|]. right. cbn [length sum_list_with].
    rewrite Nat.add_0_r. by split_and!. }
  destruct (resp i) as [r|] eqn:Hresp; [|by apply Hfail; left].
  set (n := Nat.min r (length D)).
  destruct (Nat.eqb_spec n 0) as [Hn|Hn].
  { apply Hfail. right. f_equal. lia. }
  clear Hfail. destruct (IH (drop n D) (S i) (wadd off (Z.of_nat n)) (pwrite c off (take n D)))
    as (moved & Ht & Hr).
  { rewrite length_drop. lia. }
  { rewrite wadd_small by (unfold is_u64; lia). lia. }
  { rewrite wadd_small by (unfold is_u64; lia). rewrite length_drop. lia. }
  rewrite wadd_small in Hr |- * by (unfold is_u64; lia).
  assert (Hlt : Z.of_nat n = blen (take n D)) by (rewrite length_take; lia).
  exists (n :: moved). split.
  { apply (transfers_cons resp i _ r); [done|lia|lia|].
    intros j a Hj. destruct (Ht j a Hj) as (r' & ? & ? & H). exists r'. split; [done|]. split; [done|].
    destruct H as [->|H]; [by left|right]. rewrite H, length_drop. lia. }
  rewrite Hlt, !pwrite_app, take_drop, take_take_drop, length_drop in Hr by done. rewrite Hlt.
  cbn [length sum_list_with]. rewrite <- Nat.add_succ_comm. change (id n) with n.
  destruct Hr as [[Hs Hr]|(Hs & Hf' & Hr)]; [left|right].
  - split; [lia|exact Hr].
  - split; [lia|]. by split.
Qed.

Lemma write_vectored_run resp : ∀ bufs i pos total c,
  0 ≤ pos → pos + blen (concat bufs) < W64 → 0 ≤ total → total + blen (concat bufs) < W64 →
  ∃ moved, transfers resp i (λ s, ∃ m, s = length (concat (take m bufs))) moved ∧
    (sum_list moved = length (concat bufs) ∧
     write_vectored resp i bufs pos total c
       = Ok (Some (total + blen (concat bufs)), (i + length moved)%nat, pwrite c pos (concat bufs)) ∨
     (sum_list moved < length (concat bufs))%nat ∧ refuses (resp (i + length moved)%nat) ∧
     write_vectored resp i bufs pos total c
       = Ok (None, S (i + length moved), pwrite c pos (take (sum_list moved) (concat bufs)))).
Proof.
  induction bufs as [|bs bufs IH]; intros i pos total c Hp Hpl Ht Htl; simpl in *.
  - exists []. split; [apply transfers_nil|]. left. by rewrite Z.add_0_r, Nat.add_0_r.
  - rewrite length_app in *.
    destruct (write_all_at_spec resp (length bs + 1) bs i pos c)
      as (m1 & Ht1 & [[Hs1 ->]|(Hs1 & Hf1 & ->)]); [lia..| |]; simpl.
    + rewrite !wadd_small by (unfold is_u64; lia).
      destruct (IH (i + length m1)%nat (pos + blen bs) (total + blen bs) (pwrite c pos bs))
        as (m2 & Ht2 & Hr); [lia..|].
      exists (m1 ++ m2). split.
      { eapply (transfers_app resp i _ _ _ m1 m2 Ht1 Ht2).
        - intros s ->. exists 1%nat. simpl. by rewrite app_nil_r.
        - intros s [m ->]. exists (S m). simpl. rewrite length_app. lia. }
      rewrite sum_list_with_app, length_app, Nat.add_assoc. rewrite !pwrite_app in Hr by done.
      destruct Hr as [[Hs Hr]|(Hs & Hf & Hr)]; [left|right].
      * split; [lia|]. rewrite Hr. do 4 f_equal. lia.
      * split; [lia|]. split; [done|]. rewrite Hr, Hs1, take_app_add. done.
    + exists m1. split.
      { intros j a Hj. destruct (Ht1 j a Hj) as (r & ? & ? & H). exists r. split; [done|]. split; [done|].
        destruct H as [->|H]; [by left|right]. exists 1%nat. simpl. by rewrite app_nil_r. }
      right. split; [lia|]. split; [done|]. by rewrite take_app_le by lia.
Qed.

(** What the caller sees of it: all of the data, or an error and a prefix. *)
Lemma write_vectored_spec resp bufs i pos total c :
  0 ≤ pos → pos + blen (concat bufs) < W64 → 0 ≤ total → total + blen (concat bufs) < W64 →
  ∃ i' n, (n ≤ length (concat bufs))%nat ∧
    (write_vectored resp i bufs pos total c
       = Ok (Some (total + blen (concat bufs)), i', pwrite c pos (concat bufs)) ∨
     write_vectored resp i bufs pos total c = Ok (None, i', pwrite c pos (take n (concat bufs)))).
Proof.
  intros Hp Hpl Ht Htl.
  destruct (write_vectored_run resp bufs i pos total c) as (m & _ & [[Hs ->]|(Hs & _ & ->)]);
    [done..| |]; eexists _, (sum_list m); (split; [lia|]); eauto.
Qed.

(** ** The pool and its handles *)

(** The pool together with the handles checked out of it. *)
Record PState : Type := mkPState {
  pool : Pool;
  live : list FixedBuf
}.

Inductive pool_op : Type :=
| PAcquire
| PDrop (j : nat)
| PWrite (j : nat) (off : Z) (bs : bytes)
| PReadFixed (j : nat) (resp : option nat) (c : bytes) (off n : Z).

(** One operation by the holders of the handles; the result says whether
    [acquire] found a buffer. *)
Definition pool_exec (o : pool_op) (s : PState) : res PState :=
  match o with
  | PAcquire =>
    let '(b, p) := acquire (pool s) in
    Ok (mkPState p (match b with Some b => live s ++ [b] | None => live s end))
  | PDrop j =>
    match live s !! j with
    | Some b => Ok (mkPState (release (fb_index b) (pool s)) (delete j (live s)))
    | None => Ok s
    end
  | PWrite j off bs =>
    match live s !! j with
    | Some b => p ←r write_slice b off bs (pool s); Ok (mkPState p (live s))
    | None => Ok s
    end
  | PReadFixed j resp c off n =>
    match live s !! j with
    | Some b => '(_, p) ←r read_fixed resp c off b n (pool s); Ok (mkPState p (live s))
    | None => Ok s
    end
  end.

(** The handle of index [i]. *)
Definition handle (p : Pool) (i : Z) : FixedBuf :=
  mkFixedBuf i (pbase p + i * buf_len p) (buf_len p).

Record pool_inv (s : PState) : Prop := mkPoolInv {
  p_block : block_ok (pbase (pool s)) (count (pool s) * buf_len (pool s)) PAGE;
  p_size : blen (slab (pool s)) = count (pool s) * buf_len (pool s);
  p_page : 0 < buf_len (pool s) ∧ buf_len (pool s) mod PAGE = 0;
  p_count : 0 < count (pool s) < 2 ^ 16;
  p_handles : Forall (λ b, b = handle (pool s) (fb_index b)) (live s);
  p_indices : free (pool s) ++ (fb_index <$> live s) ≡ₚ Z.of_nat <$> seq 0 (Z.to_nat (count (pool s)))
}.

Lemma inv_index_range s i :
  pool_inv s → i ∈ free (pool s) ++ (fb_index <$> live s) → 0 ≤ i < count (pool s).
Proof.
  intros Hi Hin. rewrite (p_indices s Hi) in Hin.
  apply list_elem_of_fmap in Hin as (k & -> & Hk%elem_of_seq). pose proof (p_count s Hi). lia.
Qed.

Lemma inv_NoDup s : pool_inv s → NoDup (free (pool s) ++ (fb_index <$> live s)).
Proof.
  intros Hi. rewrite (p_indices s Hi). apply NoDup_fmap_2; [apply _|]. apply NoDup_seq.
Qed.

(** A live handle addresses its own page-aligned stretch of the slab. *)
Lemma live_range s j b :
  pool_inv s → live s !! j = Some b →
  0 ≤ fb_index b < count (pool s) ∧ b = handle (pool s) (fb_index b) ∧
  in_slab (pool s) (fb_ptr b) (fb_len b) = true.
Proof.
  intros Hi Hb. assert (Hr : 0 ≤ fb_index b < count (pool s)).
  { apply (inv_index_range s); [done|]. apply elem_of_app. right.
    apply list_elem_of_fmap_2. by eapply list_elem_of_lookup_2. }
  pose proof (Forall_lookup_1 _ _ _ _ (p_handles s Hi) Hb) as Hh.
  split; [done|]. split; [done|]. rewrite Hh. unfold in_slab. simpl.
  pose proof (p_size s Hi). pose proof (p_page s Hi). apply andb_true_iff.
  split; apply Z.leb_le; nia.
Qed.

(** Different indices have disjoint stretches. *)
Lemma handles_disjoint bl i k : 0 < bl → i ≠ k → i * bl + bl ≤ k * bl ∨ k * bl + bl ≤ i * bl.
Proof. intros. assert (i + 1 ≤ k ∨ k + 1 ≤ i) as [?|?] by lia; [left|right]; nia. Qed.

Lemma live_indices_differ s j k b b' :
  pool_inv s → live s !! j = Some b → live s !! k = Some b' → j ≠ k → fb_index b ≠ fb_index b'.
Proof.
  intros Hi Hb Hb' Hne He. pose proof (inv_NoDup s Hi) as Hnd.
  apply NoDup_app in Hnd as (_ & _ & Hnd). apply Hne.
  eapply (NoDup_lookup _ _ _ (fb_index b) Hnd).
  - by rewrite list_lookup_fmap, Hb.
  - by rewrite list_lookup_fmap, Hb', He.
Qed.

Lemma blit_lookup_in buf off bs (i : nat) :
  0 ≤ off → off + blen bs ≤ blen buf → off ≤ Z.of_nat i < off + blen bs →
  blit buf off bs !! i = bs !! (i - Z.to_nat off)%nat.
Proof.
  intros Hoff Hfit Hi. unfold blit. rewrite lookup_app_r by (rewrite length_take; lia).
  rewrite length_take, lookup_app_l by lia. f_equal. lia.
Qed.

(** Writing inside a window is writing to the window. *)
Lemma slice_blit_window buf o n off bs :
  0 ≤ o → 0 ≤ off → off + blen bs ≤ n → o + n ≤ blen buf →
  slice (blit buf (o + off) bs) o n = blit (slice buf o n) off bs.
Proof.
  intros Ho Hoff Hfit Hn. apply list_eq. intros i.
  assert (Hls : blen (slice buf o n) = n) by (apply length_slice; lia).
  destruct (decide (off ≤ Z.of_nat i < off + blen bs)) as [Hi|Hi].
  - rewrite (blit_lookup_in (slice buf o n)) by lia. rewrite slice_lookup by lia.
    rewrite decide_True by lia. rewrite blit_lookup_in by lia. f_equal. lia.
  - rewrite (blit_lookup_out (slice buf o n)) by lia. rewrite !slice_lookup by lia.
    case_decide; [|done]. apply blit_lookup_out; lia.
Qed.

Lemma register_inv addr n bl :
  0 < n < 2 ^ 16 → 0 ≤ bl ≤ 2 ^ 40 → block_ok addr (n * align_up (Z.max bl 1) PAGE) PAGE →
  ∃ p, register (Some addr) n bl = Ok p ∧ pool_inv (mkPState p []) ∧
    count p = n ∧ bl ≤ buf_len p ∧ buf_len p = align_up (Z.max bl 1) PAGE ∧ pbase p = addr.
Proof.
  intros Hn Hbl Hblk. unfold register.
  assert ((0 <? n) && (n <=? 2 ^ 16 - 1) = true) as ->.
  { apply andb_true_iff. split; [apply Z.ltb_lt|apply Z.leb_le]; lia. }
  cbn [negb]. fold (align_up (Z.max bl 1) PAGE).
  destruct (align_up_spec (Z.max bl 1) 12) as [Ha Hm]; [lia|lia|unfold W64; lia|].
  change (2 ^ 12) with PAGE in Ha, Hm. set (k := align_up (Z.max bl 1) PAGE) in *.
  assert (Hk : 0 < k < 2 ^ 41) by (unfold PAGE in *; lia).
  assert (Hnk : n * k < 2 ^ 57) by nia. assert (0 < n * k) by nia.
  destruct (Z.leb_spec W64 (n * k)) as [Hw|_]; [unfold W64 in *; lia|].
  assert (layout_from_size_align (n * k) PAGE = true) as ->.
  { unfold layout_from_size_align. apply andb_true_iff. split; [done|].
    apply Z.leb_le. unfold PAGE in *. lia. }
  cbn [negb]. destruct (Z.eqb_spec (n * k) 0); [lia|]. simpl.
  eexists. split; [done|]. split; [|simpl; split_and!; (done || lia)].
  split; simpl; try done.
  - rewrite length_replicate. lia.
  - split; [lia|done].
  - by rewrite app_nil_r.
Qed.

Lemma write_slice_inv s j b off bs :
  pool_inv s → live s !! j = Some b → 0 ≤ off → off + blen bs ≤ fb_len b →
  ∃ p d, write_slice b off bs (pool s) = Ok p ∧ pool_inv (mkPState p (live s)) ∧
    as_slice b (pool s) = Ok d ∧ as_slice b p = Ok (blit d off bs) ∧
    ∀ k b', k ≠ j → live s !! k = Some b' → as_slice b' p = as_slice b' (pool s).
Proof.
  intros Hi Hb Hoff Hfit. destruct (live_range s j b Hi Hb) as (Hr & Hh & Hin).
  pose proof Hi as [Hblk Hsz [Hp0 Hp1] Hc Hhs Hidx].
  unfold write_slice. rewrite Hin. cbn [negb].
  assert ((0 <=? off) && (off + blen bs <=? fb_len b) = true) as ->.
  { apply andb_true_iff. split; apply Z.leb_le; lia. }
  cbn [negb]. set (o := fb_ptr b - pbase (pool s)).
  assert (Ho : o = fb_index b * buf_len (pool s)) by (unfold o; rewrite Hh at 1; simpl; lia).
  assert (Hl : fb_len b = buf_len (pool s)) by (by rewrite Hh).
  assert (Hwin : 0 ≤ o ∧ o + fb_len b ≤ blen (slab (pool s))) by nia.
  assert (Hlen : length (blit (slab (pool s)) (o + off) bs) = length (slab (pool s))).
  { apply length_blit; lia. }
  assert (Hins : ∀ x n, in_slab (set_slab (pool s) (blit (slab (pool s)) (o + off) bs)) x n
    = in_slab (pool s) x n).
  { intros x n. unfold in_slab. simpl. by rewrite Hlen. }
  eexists _, _. split; [done|]. split; [split; simpl; try done; by rewrite Hlen|].
  split; [unfold as_slice; by rewrite Hin|]. split.
  - unfold as_slice. rewrite Hins, Hin. simpl. f_equal. apply slice_blit_window; lia.
  - intros k b' Hk Hb'. unfold as_slice. rewrite Hins.
    destruct (live_range s k b' Hi Hb') as (Hr' & Hh' & ->). simpl. f_equal.
    set (o' := fb_ptr b' - pbase (pool s)).
    assert (Ho' : o' = fb_index b' * buf_len (pool s)) by (unfold o'; rewrite Hh' at 1; simpl; lia).
    assert (Hl' : fb_len b' = buf_len (pool s)) by (by rewrite Hh').
    pose proof (live_indices_differ s j k b b' Hi Hb Hb' ltac:(done)) as Hd.
    pose proof (handles_disjoint (buf_len (pool s)) _ _ Hp0 Hd) as Hdis.
    apply slice_blit_disjoint; [lia|nia|lia|lia|]. rewrite Ho', Ho, Hl'. lia.
Qed.

Lemma acquire_inv s :
  pool_inv s → ∃ s', pool_exec PAcquire s = Ok s' ∧ pool_inv s' ∧
    length (live s') = (length (live s) +
      (if decide (Z.of_nat (length (live s)) < count (pool s))%Z then 1 else 0))%nat.
Proof.
  intros Hi. pose proof Hi as [Hblk Hsz [Hp0 Hp1] Hc Hhs Hidx]. simpl. unfold acquire.
  pose proof (Permutation_length Hidx) as Hlen.
  rewrite length_app, !length_fmap, length_seq in Hlen.
  destruct (last (free (pool s))) as [i|] eqn:Hl.
  - apply last_Some in Hl as [fs Hfs].
    assert (Hr : 0 ≤ i < count (pool s)).
    { apply (inv_index_range s); [done|]. rewrite Hfs. set_solver. }
    destruct Hblk as (Hb0 & Hb1 & Hb2).
    assert (Hlt : 0 ≤ i * buf_len (pool s) ∧
      i * buf_len (pool s) + buf_len (pool s) ≤ count (pool s) * buf_len (pool s)) by nia.
    unfold wmul. rewrite wrap64_small by (unfold is_u64; lia).
    rewrite wadd_small by (unfold is_u64; lia).
    eexists. split; [done|]. rewrite Hfs in Hlen, Hidx |- *. rewrite length_app in Hlen |- *.
    simpl in Hlen |- *.
    replace (length fs + 1 - 1)%nat with (length fs) by lia. rewrite take_app_length.
    split; [|rewrite length_app; simpl; rewrite decide_True by lia; lia].
    split; simpl; try done.
    + rewrite Forall_app. split; [|by constructor].
      eapply Forall_impl; [exact Hhs|]. intros b Hb. exact Hb.
    + rewrite fmap_app. simpl. rewrite <- Hidx, <- app_assoc. f_equiv.
      by rewrite Permutation_app_comm.
  - apply last_None in Hl. exists s. rewrite Hl in *. simpl in Hlen. destruct s as [p lv].
    simpl in *. split; [done|]. split; [done|]. rewrite decide_False by lia. lia.
Qed.

Lemma drop_inv s j : pool_inv s → ∃ s', pool_exec (PDrop j) s = Ok s' ∧ pool_inv s'.
Proof.
  intros Hi. pose proof Hi as [Hblk Hsz Hp Hc Hhs Hidx]. simpl.
  destruct (live s !! j) as [b|] eqn:Hb; [|eauto]. eexists. split; [done|].
  pose proof (delete_Permutation _ _ _ Hb) as Hd.
  split; simpl; try done.
  - rewrite Hd in Hhs. apply Forall_cons in Hhs as [_ Hhs].
    eapply Forall_impl; [exact Hhs|]. intros b' Hb'. exact Hb'.
  - rewrite <- Hidx, <- app_assoc. f_equiv. rewrite Hd at 2. done.
Qed.

(** The operations Rust lets a holder make without a panic: slices are
    indexed within a buffer of [bl] bytes. *)
Definition well_formed (bl : Z) (o : pool_op) : Prop :=
  match o with
  | PWrite _ off bs => 0 ≤ off ∧ off + blen bs ≤ bl
  | PReadFixed _ _ _ _ n => 0 ≤ n
  | _ => True
  end.

Lemma pool_exec_inv s o :
  pool_inv s → well_formed (buf_len (pool s)) o → ∃ s', pool_exec o s = Ok s' ∧ pool_inv s'.
Proof.
  intros Hi Ho. destruct o as [|j|j off bs|j resp c off n].
  - destruct (acquire_inv s Hi) as (s' & ? & ? & _). eauto.
  - by apply drop_inv.
  - simpl. destruct (live s !! j) as [b|] eqn:Hb; [|eauto]. destruct Ho as [H1 H2].
    destruct (live_range s j b Hi Hb) as (_ & Hh & _).
    destruct (write_slice_inv s j b off bs Hi Hb H1) as (p & d & -> & Hi' & _); [|eauto].
    by rewrite Hh.
  - simpl. destruct (live s !! j) as [b|] eqn:Hb; [|eauto]. unfold read_fixed.
    destruct resp as [r|]; [|simpl; exists s; by destruct s].
    set (got := take _ _). assert (Hg : blen got ≤ fb_len b).
    { unfold got. rewrite length_take. destruct (live_range s j b Hi Hb) as (_ & Hh & _).
      pose proof (p_page s Hi). simpl in Ho. rewrite Hh. simpl. lia. }
    destruct (write_slice_inv s j b 0 got Hi Hb) as (p & d & -> & Hi' & _); [lia|lia|].
    simpl. eauto.
Qed.

Lemma write_slice_buf_len b off bs p p' :
  write_slice b off bs p = Ok p' → buf_len p' = buf_len p ∧ count p' = count p.
Proof. unfold write_slice. by repeat case_match; intros; simplify_eq/=. Qed.

Lemma pool_exec_buf_len o s s' :
  pool_exec o s = Ok s' →
  buf_len (pool s') = buf_len (pool s) ∧ count (pool s') = count (pool s).
Proof.
  destruct o as [|j|j off bs|j resp c off n]; simpl.
  - unfold acquire. destruct (last (free (pool s))); intros [= <-]; done.
  - destruct (live s !! j); intros [= <-]; done.
  - case_match; [|by intros; simplify_eq/=].
    destruct (write_slice _ off bs (pool s)) as [p|] eqn:Hw; intros; simplify_eq/=.
    by eapply write_slice_buf_len.
  - case_match; [|by intros; simplify_eq/=]. unfold read_fixed.
    case_match; [|by intros; simplify_eq/=].
    destruct (write_slice _ 0 _ (pool s)) as [p|] eqn:Hw; intros; simplify_eq/=.
    by eapply write_slice_buf_len.
Qed.

Lemma pool_exec_base o s s' : pool_exec o s = Ok s' → pbase (pool s') = pbase (pool s).
Proof.
  assert (Hw : ∀ b off bs p p', write_slice b off bs p = Ok p' → pbase p' = pbase p).
  { intros b off bs p p'. unfold write_slice. by repeat case_match; intros; simplify_eq/=. }
  destruct o as [|j|j off bs|j resp c off n]; simpl.
  - unfold acquire. destruct (last (free (pool s))); intros [= <-]; done.
  - destruct (live s !! j); intros [= <-]; done.
  - case_match; [|by intros; simplify_eq/=].
    destruct (write_slice _ off bs (pool s)) as [p|] eqn:E; intros; simplify_eq/=.
    by eapply Hw.
  - case_match; [|by intros; simplify_eq/=]. unfold read_fixed.
    case_match; [|by intros; simplify_eq/=].
    destruct (write_slice _ 0 _ (pool s)) as [p|] eqn:E; intros; simplify_eq/=.
    by eapply Hw.
Qed.

(** Acquisitions, releases and I/O in any order. *)
Fixpoint pool_execs (os : list pool_op) (s : PState) : res PState :=
  match os with
  | [] => Ok s
  | o :: os => s ←r pool_exec o s; pool_execs os s
  end.

Lemma pool_execs_inv bl os : ∀ s,
  pool_inv s → buf_len (pool s) = bl → Forall (well_formed bl) os →
  ∃ s', pool_execs os s = Ok s' ∧ pool_inv s' ∧ count (pool s') = count (pool s) ∧
    buf_len (pool s') = bl.
Proof.
  induction os as [|o os IH]; intros s Hi Hbl Hw; simpl; [eauto|].
  apply Forall_cons in Hw as [Ho Hw]. rewrite <- Hbl in Ho.
  destruct (pool_exec_inv s o Hi Ho) as (s1 & Hs1 & Hi1).
  destruct (pool_exec_buf_len _ _ _ Hs1) as [Hb1 Hc1]. rewrite Hs1. simpl.
  destruct (IH s1 Hi1) as (s2 & ? & ? & Hc2 & ?); [by rewrite Hb1|done|].
  exists s2. by rewrite Hc2.
Qed.

(** ** Claims *)

Definition region_of (b : FixedBuf) : Z * Z := (fb_ptr b, fb_ptr b + fb_len b).

Lemma slab_layout_ok addr n bl p p' :
  register (Some addr) n bl = Ok p → count p' = count p → buf_len p' = buf_len p →
  slab_layout p' = Ok (blen (slab p), PAGE).
Proof.
  unfold register, slab_layout. destruct (negb _) eqn:Hn; [done|]. set (k := Z.land _ _).
  destruct (Z.leb_spec W64 (n * k)); [done|]. destruct (layout_from_size_align (n * k) PAGE) eqn:Hl; [|done].
  simpl. destruct (Z.eqb_spec (n * k) 0); [done|]. intros [= <-]. simpl. intros -> ->.
  apply negb_false_iff, andb_true_iff in Hn as [Hn%Z.ltb_lt _].
  assert (0 ≤ k) by (apply Z.land_nonneg; left; apply Z.mod_pos_bound; done).
  unfold wmul. rewrite wrap64_small by (unfold is_u64; nia). rewrite Hl.
  rewrite length_replicate, Z2Nat.id by nia. done.
Qed.

Section claims.
(** The block [alloc_zeroed] returned for [n] buffers of [bl] bytes. *)
Context (addr n bl : Z).
Context (Hn : 0 < n < 2 ^ 16) (Hbl : 0 ≤ bl ≤ 2 ^ 40).
Context (Hblock : block_ok addr (n * align_up (Z.max bl 1) PAGE) PAGE).

(** [C24] The buffer pool: after any sequence of acquisitions, releases, writes
    and reads into checked-out buffers, which all succeed, the checked-out
    buffers are page-aligned, of at least the requested size, and pairwise
    disjoint; free and checked-out buffers add up to the registered count,
    [acquire] fails exactly when all are checked out, and dropping the pool
    frees the slab with the layout it was allocated with. *)
Theorem regbuf_safety (os : list pool_op)
    (Hos : Forall (well_formed (align_up (Z.max bl 1) PAGE)) os) :
  ∃ p s, register (Some addr) n bl = Ok p ∧ pool_execs os (mkPState p []) = Ok s ∧
    (∀ j b, live s !! j = Some b → fb_ptr b mod PAGE = 0 ∧ bl ≤ fb_len b ∧
       addr ≤ fb_ptr b ∧ fb_ptr b + fb_len b ≤ addr + n * fb_len b) ∧
    (∀ j k b b', live s !! j = Some b → live s !! k = Some b' → j ≠ k →
       fb_ptr b + fb_len b ≤ fb_ptr b' ∨ fb_ptr b' + fb_len b' ≤ fb_ptr b) ∧
    Z.of_nat (available (pool s) + length (live s)) = n ∧
    (fst (acquire (pool s)) = None ↔ Z.of_nat (length (live s)) = n) ∧
    slab_layout (pool s) = Ok (blen (slab p), PAGE).
Proof.
  destruct (register_inv addr n bl Hn Hbl Hblock) as (p & Hreg & Hi & Hc & Hge & Hb & Hbase).
  destruct (pool_execs_inv _ os (mkPState p []) Hi Hb Hos) as (s & Hrun & Hi' & Hc' & Hb').
  exists p, s. split; [done|]. split; [done|]. simpl in Hc'. rewrite <- Hb in Hb'.
  assert (Hbase' : pbase (pool s) = addr).
  { rewrite <- Hbase. clear -Hrun. change (pbase p) with (pbase (pool (mkPState p []))).
    revert Hrun. generalize (mkPState p []). induction os as [|o os IH]; intros s0 Hr; simplify_eq/=; [done|].
    destruct (pool_exec o s0) as [s1|] eqn:Hs1; [|done]. rewrite (IH s1 Hr).
    by eapply pool_exec_base. }
  pose proof Hi' as [Hblk Hsz [Hp0 Hp1] Hcc Hhs Hidx].
  split_and!.
  - intros j b Hb1. destruct (live_range s j b Hi' Hb1) as (Hr & Hh & _). rewrite Hh. simpl.
    destruct Hblk as (_ & Hal & _). split_and!; [|lia|nia|nia].
    rewrite Z.add_mod, Hal, Z.mul_mod, Hp1, Z.mul_0_r by done. done.
  - intros j k b b' Hb1 Hb2 Hne. destruct (live_range s j b Hi' Hb1) as (_ & Hh & _).
    destruct (live_range s k b' Hi' Hb2) as (_ & Hh' & _).
    pose proof (live_indices_differ s j k b b' Hi' Hb1 Hb2 Hne) as Hd.
    pose proof (handles_disjoint (buf_len (pool s)) _ _ Hp0 Hd).
    rewrite Hh, Hh'. simpl. lia.
  - pose proof (Permutation_length Hidx) as Hl.
    rewrite length_app, !length_fmap, length_seq in Hl. unfold available. lia.
  - pose proof (Permutation_length Hidx) as Hl.
    rewrite length_app, !length_fmap, length_seq in Hl. unfold acquire.
    destruct (last (free (pool s))) as [i|] eqn:Hlast; simpl.
    + split; [done|]. intros He. destruct (free (pool s)); [done|]. simpl in Hl. lia.
    + apply last_None in Hlast. rewrite Hlast in Hl. simpl in Hl. split; [lia|done].
  - by eapply slab_layout_ok.
Qed.

(** Isolation: a write through one handle changes that buffer as asked
    and no other checked-out buffer. *)
Lemma regbuf_isolation (os : list pool_op) (j : nat) (b : FixedBuf) (off : Z) (bs : bytes)
    (p : Pool) (s : PState)
    (Hos : Forall (well_formed (align_up (Z.max bl 1) PAGE)) os)
    (Hreg : register (Some addr) n bl = Ok p)
    (Hrun : pool_execs os (mkPState p []) = Ok s)
    (Hb : live s !! j = Some b) (Hoff : 0 ≤ off) (Hfit : off + blen bs ≤ bl) :
  ∃ p' d, write_slice b off bs (pool s) = Ok p' ∧ as_slice b (pool s) = Ok d ∧
    as_slice b p' = Ok (blit d off bs) ∧
    ∀ k b', k ≠ j → live s !! k = Some b' → as_slice b' p' = as_slice b' (pool s).
Proof.
  destruct (register_inv addr n bl Hn Hbl Hblock) as (p0 & Hreg0 & Hi & _ & Hge & Hbl' & _).
  rewrite Hreg0 in Hreg. simplify_eq.
  destruct (pool_execs_inv _ os (mkPState p []) Hi Hbl' Hos) as (s' & Hrun' & Hi' & _ & Hb').
  rewrite Hrun' in Hrun. simplify_eq. destruct (live_range s j b Hi' Hb) as (_ & Hh & _).
  destruct (write_slice_inv s j b off bs Hi' Hb Hoff) as (p' & d & ? & _ & ?); [|eauto].
  rewrite Hh. simpl. lia.
Qed.

End claims.

(** [C25] Group-commit write, for every sequence of kernel answers: [moved]
    lists the bytes each answered call moved, at least one and as many as the
    kernel granted, or fewer only to finish a buffer. Either they add up to
    the whole data: then the call succeeds, reports the total length, and the
    buffers are in the file back to back from the offset. Or the next call,
    made with bytes still to write, is refused (an error or zero bytes): then
    an error is reported and exactly the bytes moved are in the file. *)
Theorem write_vectored_correct (resp : nat → option nat) (bufs : list bytes) (off : Z) (c : bytes)
    (Hoff : 0 ≤ off) (Hfits : off + blen (concat bufs) < W64) :
  ∃ moved : list nat,
    (∀ j a, moved !! j = Some a → ∃ r, resp j = Some r ∧ (0 < a ≤ r)%nat ∧
       (a = r ∨ ∃ m, sum_list (take (S j) moved) = length (concat (take m bufs)))) ∧
    (sum_list moved = length (concat bufs) ∧
     write_vectored resp 0 bufs off 0 c
       = Ok (Some (blen (concat bufs)), length moved, pwrite c off (concat bufs)) ∨
     (sum_list moved < length (concat bufs))%nat ∧
     (resp (length moved) = None ∨ resp (length moved) = Some 0%nat) ∧
     write_vectored resp 0 bufs off 0 c
       = Ok (None, S (length moved), pwrite c off (take (sum_list moved) (concat bufs)))).
Proof. apply (write_vectored_run resp bufs 0 off 0 c); lia. Qed.

(** ** Witnesses *)

Definition demo_pool_ops : list pool_op :=
  [PAcquire; PAcquire; PWrite 0 2 [5; 6]; PDrop 0; PAcquire; PReadFixed 1 (Some 3%nat) [1; 2; 3] 1 9].

Lemma demo_pool_block : block_ok 8192 (2 * align_up (Z.max 100 1) PAGE) PAGE.
Proof. vm_compute. intuition congruence. Qed.

Lemma demo_pool_ops_ok : Forall (well_formed (align_up (Z.max 100 1) PAGE)) demo_pool_ops.
Proof. repeat constructor; vm_compute; congruence. Qed.

Lemma regbuf_safety_witness :
  ∃ p s, register (Some 8192) 2 100 = Ok p ∧ pool_execs demo_pool_ops (mkPState p []) = Ok s ∧
    (∀ j b, live s !! j = Some b → fb_ptr b mod PAGE = 0 ∧ 100 ≤ fb_len b ∧
       8192 ≤ fb_ptr b ∧ fb_ptr b + fb_len b ≤ 8192 + 2 * fb_len b) ∧
    (∀ j k b b', live s !! j = Some b → live s !! k = Some b' → j ≠ k →
       fb_ptr b + fb_len b ≤ fb_ptr b' ∨ fb_ptr b' + fb_len b' ≤ fb_ptr b) ∧
    Z.of_nat (available (pool s) + length (live s)) = 2 ∧
    (fst (acquire (pool s)) = None ↔ Z.of_nat (length (live s)) = 2) ∧
    slab_layout (pool s) = Ok (blen (slab p), PAGE).
Proof.
  apply (regbuf_safety 8192 2 100); [lia|lia|apply demo_pool_block|apply demo_pool_ops_ok].
Defined.

(** A kernel that takes 2 bytes a call never refuses, so the write succeeds
    after three calls; one that grants 2 bytes and then none leaves them. *)
Lemma write_vectored_correct_witness :
  write_vectored (λ _, Some 2%nat) 0 [[1; 2; 3]; [4]] 2 0 [7]
    = Ok (Some 4, 3%nat, [7; 0; 1; 2; 3; 4]) ∧
  write_vectored (λ i, if (i =? 0)%nat then Some 2%nat else Some 0%nat) 0 [[1; 2; 3]; [4]] 2 0 [7]
    = Ok (None, 2%nat, [7; 0; 1; 2]).
Proof.
  split.
  - destruct (write_vectored_correct (λ _, Some 2%nat) [[1; 2; 3]; [4]] 2 [7] ltac:(lia) eq_refl)
      as (moved & _ & [[_ H]|(_ & [?|?] & _)]); [|done..].
    pose proof H as H'. rewrite H. vm_compute in H'. by simplify_eq.
  - destruct (write_vectored_correct (λ i, if (i =? 0)%nat then Some 2%nat else Some 0%nat)
      [[1; 2; 3]; [4]] 2 [7] ltac:(lia) eq_refl) as (moved & Hm & H).
    assert (Hlen : length moved = 1%nat).
    { destruct moved as [|a [|a' moved]]; [|done|].
      - destruct H as [[? _]|(_ & [?|?] & _)]; done.
      - destruct (Hm 1%nat a' eq_refl) as (r & Hr & Ha & _). simpl in Hr. simplify_eq. lia. }
    destruct moved as [|a [|]]; [done| |done].
    destruct (Hm 0%nat a eq_refl) as (r & [= <-] & Ha & Hb).
    destruct H as [[Hs _]|(_ & _ & H)]; [simpl in Hs; lia|].
    destruct Hb as [->|[[|[|[|m]]] Hb]]; [exact H|simpl in Hb; lia..].
Defined.
