(* ===== verification/Treiber.v ===== *)
(** * Treiber: the lock-free stack of pending nodes

    The same few lines occur three times in the crate: [Domain::retire] of
    [ebr.rs], [GroupCommitWal::append] of [group_commit.rs] and
    [Ingress::push] of [mesh.rs] push a boxed node with a compare-and-swap
    loop, and one consumer detaches the whole chain with a swap and unboxes
    its nodes one by one. This file models them over a heap of nodes; an
    address may be handed out again once its node has been unboxed, so the
    pushes are exposed to the reuse of an address they loaded earlier.

    The invariant [owned] splits the heap between the published chain, the
    detached chain and the nodes still private to a pusher. *)

From S2P Require Import Prelude.
Local Open Scope Z_scope.
Local Open Scope zkv_scope.

Section treiber.
Context {A : Type}.

(** The boxed nodes (payload and [next]) and the atomic head pointer. *)
Record Stack : Type := mkStack {
  nodes : gmap Z (A * Z);
  top : Z
}.

Definition stack_new : Stack := mkStack ∅ 0.

(** [Box::into_raw(Box::new(.. next: null))] at an address of the allocator. *)
Definition node_alloc (a : Z) (x : A) (s : Stack) : Stack :=
  mkStack (<[a := (x, 0)]> (nodes s)) (top s).

(** The body of the push loop after the load of [head]: write [next], then
    [compare_exchange_weak], which may also fail for no reason. *)
Definition try_push (spurious : bool) (a h : Z) (s : Stack) : res (bool * Stack) :=
  '(x, _) ←r or_err UB (nodes s !! a);
  let ns := <[a := (x, h)]> (nodes s) in
  if (top s =? h) && negb spurious then Ok (true, mkStack ns a)
  else Ok (false, mkStack ns (top s)).

(** [head.swap(null)]. *)
Definition detach (s : Stack) : Z * Stack := (top s, mkStack (nodes s) 0).

(** [Box::from_raw(node)]: the payload, its [next], and the box freed. *)
Definition unbox (p : Z) (s : Stack) : res (A * Z * Stack) :=
  '(x, nx) ←r or_err UB (nodes s !! p);
  Ok (x, nx, mkStack (delete p (nodes s)) (top s)).

(** ** Ownership *)

Fixpoint chain (ns : gmap Z (A * Z)) (p : Z) (l : list (Z * A)) : Prop :=
  match l with
  | [] => p = 0
  | (a, x) :: l => p = a ∧ a ≠ 0 ∧ ∃ nx, ns !! a = Some (x, nx) ∧ chain ns nx l
  end.

Lemma chain_elem ns p l a x :
  chain ns p l → (a, x) ∈ l → a ≠ 0 ∧ ∃ nx, ns !! a = Some (x, nx).
Proof.
  revert p. induction l as [|[b y] l IH]; simpl; intros p Hc Hin; [by apply elem_of_nil in Hin|].
  destruct Hc as (-> & Hnz & nx & Hb & Hc). apply elem_of_cons in Hin as [[= -> ->]|Hin].
  - eauto.
  - eauto.
Qed.

Lemma chain_addr ns p l a :
  chain ns p l → a ∈ l.*1 → a ≠ 0 ∧ is_Some (ns !! a).
Proof.
  intros Hc ([b x] & -> & Hin)%list_elem_of_fmap.
  destruct (chain_elem _ _ _ _ _ Hc Hin) as (? & nx & ?). eauto.
Qed.

(** A chain only depends on its own nodes. *)
Lemma stack_chain_ext ns ns' p l :
  (∀ a, a ∈ l.*1 → ns' !! a = ns !! a) → chain ns p l → chain ns' p l.
Proof.
  revert p. induction l as [|[b y] l IH]; simpl; intros p He Hc; [done|].
  destruct Hc as (-> & Hnz & nx & Hb & Hc). split; [done|]. split; [done|].
  exists nx. rewrite He by apply list_elem_of_here. split; [done|].
  apply IH; [|done]. intros a Ha. apply He. by apply list_elem_of_further.
Qed.

Lemma chain_null ns p l : chain ns p l → p = 0 ↔ l = [].
Proof. destruct l as [|[a x] l]; simpl; [done|]. intros (-> & ? & _). done. Qed.

Record owned (s : Stack) (cur : Z) (pub det : list (Z * A)) (priv : Z → A → Prop) : Prop :=
  mkOwned {
  o_pub : chain (nodes s) (top s) pub;
  o_det : chain (nodes s) cur det;
  o_nodup : NoDup (pub.*1 ++ det.*1);
  o_priv : ∀ a x, priv a x →
    a ≠ 0 ∧ (∃ nx, nodes s !! a = Some (x, nx)) ∧ a ∉ pub.*1 ++ det.*1
}.

Lemma owned_new : owned stack_new 0 [] [] (λ _ _, False).
Proof. split; try done. apply NoDup_nil_2. Qed.

Lemma owned_weaken s cur pub det (priv priv' : Z → A → Prop) :
  owned s cur pub det priv → (∀ a x, priv' a x → priv a x) → owned s cur pub det priv'.
Proof. intros [Hp Hd Hn Hv] Hs. split; auto. Qed.

Lemma owned_elem_in s cur pub det priv a :
  owned s cur pub det priv → a ∈ pub.*1 ++ det.*1 → is_Some (nodes s !! a).
Proof.
  intros Ho [Ha|Ha]%elem_of_app; eapply chain_addr; eauto; apply Ho.
Qed.

(** Allocation returns an address no live node has. *)
Lemma owned_alloc s cur pub det priv a x :
  owned s cur pub det priv → a ≠ 0 → nodes s !! a = None →
  owned (node_alloc a x s) cur pub det (λ b y, priv b y ∨ (b = a ∧ y = x)).
Proof.
  intros Ho Hnz Hfresh.
  assert (Hout : a ∉ pub.*1 ++ det.*1).
  { intros Hin. destruct (owned_elem_in _ _ _ _ _ _ Ho Hin). congruence. }
  destruct Ho as [Hp Hd Hn Hv]. rewrite not_elem_of_app in Hout. destruct Hout as [Ho1 Ho2].
  split; simpl.
  - eapply stack_chain_ext; [|exact Hp]. intros b Hb. apply lookup_insert_ne. by intros ->.
  - eapply stack_chain_ext; [|exact Hd]. intros b Hb. apply lookup_insert_ne. by intros ->.
  - done.
  - intros b y [Hb|[-> ->]].
    + destruct (Hv _ _ Hb) as (? & (nx & Hl) & ?). split; [done|]. split; [|done].
      exists nx. rewrite lookup_insert_ne by (intros ->; congruence). done.
    + split; [done|]. split; [|by apply not_elem_of_app].
      exists 0. by rewrite lookup_insert_eq.
Qed.

(** A push either publishes the private node on top of the chain or leaves
    the pusher where it was, whatever happened since [head] was loaded. *)
Lemma owned_try_push s cur pub det priv spurious a h x :
  owned s cur pub det priv → priv a x →
  ∃ ok s', try_push spurious a h s = Ok (ok, s') ∧
    if (ok : bool) then owned s' cur ((a, x) :: pub) det (λ b y, priv b y ∧ b ≠ a)
    else owned s' cur pub det priv.
Proof.
  intros [Hp Hd Hn Hv] Ha. destruct (Hv _ _ Ha) as (Hnz & (nx & Hl) & Hout).
  pose proof Hout as [Ho1 Ho2]%not_elem_of_app. unfold try_push. rewrite Hl. simpl.
  assert (Hfr : ∀ p l, a ∉ l.*1 → chain (nodes s) p l → chain (<[a := (x, h)]> (nodes s)) p l).
  { intros p l Hni. apply stack_chain_ext. intros b Hb. apply lookup_insert_ne. by intros ->. }
  assert (Hothers : ∀ b y, priv b y → ∃ nb, <[a := (x, h)]> (nodes s) !! b = Some (y, nb)).
  { intros b y Hb. destruct (Hv _ _ Hb) as (_ & (nb & Hlb) & _).
    destruct (decide (b = a)) as [->|Hne].
    - exists h. rewrite lookup_insert_eq. congruence.
    - exists nb. by rewrite lookup_insert_ne by done. }
  destruct (Z.eqb_spec (top s) h) as [<-|Hne]; simpl.
  2:{ eexists _, _. split; [reflexivity|]. simpl. split; simpl; auto.
      intros b y Hb. destruct (Hv _ _ Hb) as (? & _ & ?). auto. }
  destruct spurious; simpl.
  { eexists _, _. split; [reflexivity|]. simpl. split; simpl; auto.
    intros b y Hb. destruct (Hv _ _ Hb) as (? & _ & ?). auto. }
  eexists _, _. split; [reflexivity|]. simpl. split; simpl.
  - split; [done|]. split; [done|]. exists (top s). rewrite lookup_insert_eq. auto.
  - by apply Hfr.
  - by apply NoDup_cons.
  - intros b y [Hb Hne]. destruct (Hv _ _ Hb) as (? & _ & ?). split; [done|]. split; [auto|].
    by apply not_elem_of_cons.
Qed.

Lemma owned_detach s pub priv :
  owned s 0 pub [] priv → owned (snd (detach s)) (top s) [] pub priv.
Proof.
  intros [Hp Hd Hn Hv]. rewrite app_nil_r in *. by split.
Qed.

(** The consumer frees exactly the node it unboxes. *)
Lemma owned_unbox s a x cur pub det priv :
  owned s cur pub ((a, x) :: det) priv →
  cur = a ∧ ∃ nx s', unbox cur s = Ok (x, nx, s') ∧ owned s' nx pub det priv.
Proof.
  intros [Hp Hd Hn Hv]. simpl in *. destruct Hd as (-> & Hnz & nx & Hl & Hd). split; [done|].
  apply NoDup_app in Hn as (Hn1 & Hn2 & Hn3). apply NoDup_cons in Hn3 as [Hn3 Hn4].
  exists nx, (mkStack (delete a (nodes s)) (top s)). unfold unbox. rewrite Hl. split; [done|].
  split; simpl.
  - eapply stack_chain_ext; [|exact Hp]. intros b Hb. apply lookup_delete_ne.
    intros ->. apply (Hn2 _ Hb). apply list_elem_of_here.
  - eapply stack_chain_ext; [|exact Hd]. intros b Hb. apply lookup_delete_ne. by intros ->.
  - apply NoDup_app. split; [done|]. split; [|done]. intros b Hb Hb'. apply (Hn2 _ Hb).
    by apply list_elem_of_further.
  - intros b y Hb. destruct (Hv _ _ Hb) as (? & (nb & Hlb) & Hout).
    rewrite not_elem_of_app, not_elem_of_cons in Hout. destruct Hout as (? & ? & ?).
    split; [done|]. split; [|by apply not_elem_of_app]. exists nb. by rewrite lookup_delete_ne by done.
Qed.

End treiber.
Arguments Stack : clear implicits.
