(* ===== verification/GroupCommit.v ===== *)
(** * GroupCommit: the group-commit write-ahead log

    Models [crates/zerokv/src/group_commit.rs]: any number of threads append
    records, each getting a sequence number and pushing a node on the pending
    stack; the batcher thread detaches the stack, restores sequence order,
    writes the batch with one [write_vectored] and signals every record's
    completion; tasks poll the [CommitFuture]s meanwhile. [step] lets one
    party make one access to shared memory, so an execution is a list of
    labels under sequential consistency. Time is the label's: whether the
    coalescing window has expired at one evaluation of the wait condition. The
    kernel's answers to the writes are the label's too. *)

From Stdlib Require Import Sorted.
From S2P Require Import Prelude Treiber RegBuf.
Local Open Scope Z_scope.
Local Open Scope zkv_scope.

(** ** State *)

(** [struct Pending] without its link; [after] holds, for the theorems, the
    sequence numbers already published when this record took its own. *)
Record Pending : Type := mkPending {
  p_seq : Z;
  p_data : bytes;
  completion : nat;
  after : list Z
}.

(** [struct Completion]; a waker is the task it wakes. *)
Record Completion : Type := mkCompletion {
  c_done : bool;
  c_waker : option nat
}.

(** [Completion::new]. *)
Definition Completion_new : Completion := mkCompletion false None.

(** Where a thread is inside [append]. *)
Inductive apc : Type :=
| AIdle
| ALoad (a : Z) (p : Pending)
| APush (a h : Z) (p : Pending)
| ACount (p : Pending).

(** Where the batcher is; [r] is its local [running]. *)
Inductive bpc : Type :=
| BTop
| BWait
| BSwap (r : bool)
| BWalk (r : bool) (node : Z) (batch : list Pending)
| BSub (r : bool) (batch : list Pending)
| BReserve (r : bool) (batch : list Pending)
| BWrite (r : bool) (batch : list Pending) (off : Z)
| BSignal (r : bool) (rest : list Pending)
| BWake (r : bool) (p : Pending) (rest : list Pending)
| BExit.

(** A [CommitFuture] and where its task is inside [poll]. *)
Inductive fpc : Type :=
| FNone
| FFresh
| FLoaded (w : nat)
| FRegistered (w : nat)
| FPending (w : nat)
| FReady.

(** [struct Shared], the completions, the file, the threads; [submitted],
    [published], [committed], [failed] and [woken] record what happened. *)
Record State : Type := mkState {
  stk : Stack Pending;
  next_seq : Z;
  offset : Z;
  pending_count : Z;
  running : bool;
  comps : list Completion;
  file : bytes;
  writers : list apc;
  batcher : bpc;
  futures : list fpc;
  submitted : list Pending;
  published : list Z;
  committed : list Pending;
  failed : bool;
  woken : list (nat * nat)
}.

(** [GroupCommitWal::new]: [meta] is whether [file.metadata()] succeeded. *)
Definition GroupCommitWal_new (meta : bool) (file0 : bytes) (n : nat) : State :=
  mkState stack_new 0 (if meta then blen file0 else 0) 0 true [] file0
    (replicate n AIdle) BTop [] [] [] [] false [].

(** ** append *)

Definition set_writer (s : State) (t : nat) (p : apc) : State :=
  mkState (stk s) (next_seq s) (offset s) (pending_count s) (running s) (comps s) (file s)
    (<[t := p]> (writers s)) (batcher s) (futures s) (submitted s) (published s)
    (committed s) (failed s) (woken s).

Definition set_stk (s : State) (k : Stack Pending) : State :=
  mkState k (next_seq s) (offset s) (pending_count s) (running s) (comps s) (file s)
    (writers s) (batcher s) (futures s) (submitted s) (published s)
    (committed s) (failed s) (woken s).

(** The first accesses of [append]: a completion, a sequence number, and a
    node at the address [a] the allocator returns. [append] borrows the
    handle, so it cannot start once the handle is being dropped. *)
Definition append_start (t : nat) (record : bytes) (a : Z) (s : State) : option State :=
  match writers s !! t with
  | Some AIdle =>
    if running s && negb (a =? 0) && bool_decide (nodes (stk s) !! a = None) then
      let p := mkPending (next_seq s) record (length (comps s)) (published s) in
      Some (mkState (node_alloc a p (stk s)) (wadd (next_seq s) 1) (offset s)
              (pending_count s) (running s) (comps s ++ [Completion_new]) (file s)
              (<[t := ALoad a p]> (writers s)) (batcher s) (futures s ++ [FNone])
              (submitted s ++ [p]) (published s) (committed s) (failed s) (woken s))
    else None
  | _ => None
  end.

(** The push loop and the advisory count, which comes after the push. *)
Definition append_step (t : nat) (spurious : bool) (s : State) : option (res State) :=
  match writers s !! t with
  | Some (ALoad a p) => Some (Ok (set_writer s t (APush a (top (stk s)) p)))
  | Some (APush a h p) =>
    Some ('(ok, k) ←r try_push spurious a h (stk s);
          if (ok : bool) then
            Ok (mkState k (next_seq s) (offset s) (pending_count s) (running s) (comps s)
                  (file s) (<[t := ACount p]> (writers s)) (batcher s) (futures s)
                  (submitted s) (published s ++ [p_seq p]) (committed s) (failed s) (woken s))
          else Ok (set_writer (set_stk s k) t (ALoad a p)))
  | Some (ACount p) =>
    Some (Ok (mkState (stk s) (next_seq s) (offset s) (wadd (pending_count s) 1) (running s)
                (comps s) (file s) (<[t := AIdle]> (writers s)) (batcher s)
                (<[completion p := FFresh]> (futures s))
                (submitted s) (published s) (committed s) (failed s) (woken s)))
  | _ => None
  end.

(** ** batcher_loop *)

Definition set_batcher (s : State) (b : bpc) : State :=
  mkState (stk s) (next_seq s) (offset s) (pending_count s) (running s) (comps s) (file s)
    (writers s) b (futures s) (submitted s) (published s) (committed s) (failed s) (woken s).

Definition set_comps (s : State) (cs : list Completion) (wk : list (nat * nat)) : State :=
  mkState (stk s) (next_seq s) (offset s) (pending_count s) (running s) cs (file s)
    (writers s) (batcher s) (futures s) (submitted s) (published s) (committed s) (failed s) wk.

(** [sort_unstable_by_key(|p| p.seq)]. *)
Fixpoint insert_by_seq (p : Pending) (l : list Pending) : list Pending :=
  match l with
  | [] => [p]
  | q :: l' => if p_seq p <=? p_seq q then p :: l else q :: insert_by_seq p l'
  end.
Definition sort_by_seq (l : list Pending) : list Pending := foldr insert_by_seq [] l.

(** [batch.iter().map(|p| p.data.len()).sum()]. *)
Definition total_len (l : list Pending) : Z := foldr (λ p n, wadd (blen (p_data p)) n) 0 l.

(** The end of the loop body: leave when the flag read at its start was off
    and nothing is pending. *)
Definition loop_end (r : bool) (s : State) : bpc :=
  if negb r && (top (stk s) =? 0) then BExit else BTop.

Definition batcher_step (max_batch : Z) (expired : bool) (resp : nat → option nat) (s : State)
    : option (res State) :=
  match batcher s with
  | BTop => Some (Ok (set_batcher s (if running s then BWait else BSwap false)))
  | BWait =>
    if negb expired && (pending_count s <? max_batch) then Some (Ok s)
    else Some (Ok (set_batcher s (BSwap true)))
  | BSwap r =>
    let '(node, k) := detach (stk s) in
    Some (Ok (set_batcher (set_stk s k)
                (if node =? 0 then (if r then BTop else BExit) else BWalk r node [])))
  | BWalk r node batch =>
    if node =? 0 then Some (Ok (set_batcher s (BSub r batch)))
    else Some ('(p, nx, k) ←r unbox node (stk s);
               Ok (set_batcher (set_stk s k) (BWalk r nx (batch ++ [p]))))
  | BSub r batch =>
    Some (Ok (mkState (stk s) (next_seq s) (offset s) (wsub (pending_count s) (Z.of_nat (length batch)))
                (running s) (comps s) (file s) (writers s) (BReserve r (sort_by_seq batch))
                (futures s) (submitted s) (published s) (committed s) (failed s) (woken s)))
  | BReserve r batch =>
    Some (Ok (mkState (stk s) (next_seq s) (wadd (offset s) (total_len batch)) (pending_count s)
                (running s) (comps s) (file s) (writers s) (BWrite r batch (offset s))
                (futures s) (submitted s) (published s) (committed s) (failed s) (woken s)))
  | BWrite r batch off =>
    Some ('(result, _, f) ←r write_vectored resp 0 (p_data <$> batch) off 0 (file s);
          Ok (mkState (stk s) (next_seq s) (offset s) (pending_count s) (running s) (comps s) f
                (writers s) (BSignal r batch) (futures s) (submitted s) (published s)
                (committed s ++ batch) (failed s || negb (bool_decide (is_Some result))) (woken s)))
  | BSignal r [] => Some (Ok (set_batcher s (loop_end r s)))
  | BSignal r (p :: rest) =>
    let w := from_option c_waker None (comps s !! completion p) in
    Some (Ok (set_batcher
                (set_comps s (<[completion p := mkCompletion true w]> (comps s)) (woken s))
                (BWake r p rest)))
  | BWake r p rest =>
    let d := from_option c_done false (comps s !! completion p) in
    let w := from_option c_waker None (comps s !! completion p) in
    Some (Ok (set_batcher
                (set_comps s (<[completion p := mkCompletion d None]> (comps s))
                   (match w with Some w => woken s ++ [(completion p, w)] | None => woken s end))
                (BSignal r rest)))
  | BExit => None
  end.

(** ** CommitFuture::poll and Drop *)

Definition set_future (s : State) (c : nat) (f : fpc) : State :=
  mkState (stk s) (next_seq s) (offset s) (pending_count s) (running s) (comps s) (file s)
    (writers s) (batcher s) (<[c := f]> (futures s)) (submitted s) (published s)
    (committed s) (failed s) (woken s).

(** A task polls future [c] with waker [w]: the first load of [done]. *)
Definition poll_start (c w : nat) (s : State) : option State :=
  match futures s !! c, comps s !! c with
  | Some (FFresh | FPending _), Some k =>
    Some (set_future s c (if c_done k then FReady else FLoaded w))
  | _, _ => None
  end.

(** Register the waker, then load [done] again. *)
Definition poll_step (c : nat) (s : State) : option State :=
  match futures s !! c, comps s !! c with
  | Some (FLoaded w), Some k =>
    Some (set_future
            (set_comps s (<[c := mkCompletion (c_done k) (Some w)]> (comps s)) (woken s))
            c (FRegistered w))
  | Some (FRegistered w), Some k =>
    Some (set_future s c (if c_done k then FReady else FPending w))
  | _, _ => None
  end.

(** [Drop for GroupCommitWal]: the flag is cleared when no [append] borrows
    the handle; the [join] waits for [BExit]. *)
Definition drop_wal (s : State) : option State :=
  if running s && forallb (λ p, match p with AIdle => true | _ => false end) (writers s) then
    Some (mkState (stk s) (next_seq s) (offset s) (pending_count s) false (comps s) (file s)
            (writers s) (batcher s) (futures s) (submitted s) (published s)
            (committed s) (failed s) (woken s))
  else None.

Inductive label : Type :=
| LAppend (t : nat) (record : bytes) (a : Z)
| LWriter (t : nat) (spurious : bool)
| LBatcher (expired : bool) (resp : nat → option nat)
| LPoll (c w : nat)
| LFuture (c : nat)
| LDrop.

Definition step (max_batch : Z) (l : label) (s : State) : option (res State) :=
  match l with
  | LAppend t record a => Ok <$> append_start t record a s
  | LWriter t spurious => append_step t spurious s
  | LBatcher expired resp => batcher_step max_batch expired resp s
  | LPoll c w => Ok <$> poll_start c w s
  | LFuture c => Ok <$> poll_step c s
  | LDrop => Ok <$> drop_wal s
  end.

Fixpoint run_steps (max_batch : Z) (ls : list label) (s : State) : option (res State) :=
  match ls with
  | [] => Some (Ok s)
  | l :: ls =>
    match step max_batch l s with
    | Some (Ok s') => run_steps max_batch ls s'
    | o => o
    end
  end.

Inductive reachable (max_batch : Z) (file0 : bytes) (n : nat) : State → Prop :=
| reach_new : reachable max_batch file0 n (GroupCommitWal_new true file0 n)
| reach_step s l s' :
    reachable max_batch file0 n s → step max_batch l s = Some (Ok s') →
    reachable max_batch file0 n s'.

(** ** Who holds a record *)

Definition held (w : apc) : option (Z * Pending) :=
  match w with
  | ALoad a p | APush a _ p => Some (a, p)
  | _ => None
  end.
Definition owners (s : State) : list (option (Z * Pending)) := held <$> writers s.
Definition priv (os : list (option (Z * Pending))) (a : Z) (p : Pending) : Prop :=
  ∃ t : nat, os !! t = Some (Some (a, p)).

(** The node the batcher stands at, the records it has taken and not yet
    written, the ones it has written and not yet signalled. *)
Definition cur_node (b : bpc) : Z := match b with BWalk _ node _ => node | _ => 0 end.
Definition taken (b : bpc) : list Pending :=
  match b with
  | BWalk _ _ batch | BSub _ batch | BReserve _ batch | BWrite _ batch _ => batch
  | _ => []
  end.
Definition to_signal (b : bpc) : list Pending :=
  match b with
  | BSignal _ rest | BWake _ _ rest => rest
  | _ => []
  end.

(** Every record that has been published, in whosever hands. *)
Definition all (s : State) (pub det : list (Z * Pending)) : list Pending :=
  committed s ++ taken (batcher s) ++ det.*2 ++ pub.*2.

(** ** Custody: each record is in exactly one place *)

Record Custody (s : State) (pub det : list (Z * Pending)) : Prop := mkCustody {
  s_own : owned (stk s) (cur_node (batcher s)) pub det (priv (owners s));
  s_inj : ∀ t t' a a' p p', owners s !! t = Some (Some (a, p)) →
    owners s !! t' = Some (Some (a', p')) → a = a' ∨ p = p' → t = t';
  s_nodup : NoDup (all s pub det);
  s_published : ∀ x, x ∈ published s ↔ x ∈ p_seq <$> all s pub det;
  s_next : next_seq s = Z.of_nat (length (submitted s));
  s_index : ∀ i p, submitted s !! i = Some p →
    p_seq p = Z.of_nat i ∧ completion p = i ∧ ∀ x, x ∈ after p → x ∈ published s ∧ x < p_seq p;
  s_sub : ∀ p, p ∈ all s pub det → p ∈ submitted s;
  s_held : ∀ a p, priv (owners s) a p → p ∈ submitted s ∧ p ∉ all s pub det;
  s_cover : ∀ p, p ∈ submitted s → p ∈ all s pub det ∨ ∃ a, priv (owners s) a p;
  s_comps : length (comps s) = length (submitted s);
  s_futures : length (futures s) = length (submitted s)
}.

(** Sequence numbers fit their 64 bits and the log its 64-bit offsets. *)
Definition small (file0 : bytes) (s : State) : Prop :=
  Z.of_nat (length (submitted s)) < W64 ∧
  blen file0 + blen (concat (p_data <$> submitted s)) < W64.

(** A step that moves records about without publishing or starting one. *)
Lemma custody_frame s s' pub det pub' det' :
  Custody s pub det →
  owned (stk s') (cur_node (batcher s')) pub' det' (priv (owners s)) →
  all s' pub' det' ≡ₚ all s pub det →
  owners s' = owners s → published s' = published s → next_seq s' = next_seq s →
  submitted s' = submitted s → length (comps s') = length (comps s) →
  length (futures s') = length (futures s) → Custody s' pub' det'.
Proof.
  intros [Ho Hi Hn Hp Hx Hd Hs Hh Hc Hl Hf] Hown Hall Eo Ep En Es Ec Ef.
  split; rewrite ?Eo, ?Ep, ?En, ?Es, ?Ec, ?Ef; try done.
  - by rewrite Hall.
  - intros x. by rewrite Hall.
  - intros p. rewrite Hall. apply Hs.
  - intros a p. rewrite Hall. apply Hh.
  - intros p. rewrite Hall. apply Hc.
Qed.

Lemma owners_same (ws : list apc) t w w' :
  ws !! t = Some w → held w' = held w → held <$> <[t := w']> ws = held <$> ws.
Proof.
  intros Ht He. rewrite list_fmap_insert, He. apply list_insert_id.
  by rewrite list_lookup_fmap, Ht.
Qed.

Lemma priv_insert os t o a p :
  priv (<[t := o]> os) a p → o = Some (a, p) ∨ (∃ t', t' ≠ t ∧ os !! t' = Some (Some (a, p))).
Proof.
  intros [t' Ht']. destruct (decide (t' = t)) as [->|Hne].
  - apply list_lookup_insert_Some in Ht' as [(_ & -> & _)|[? _]]; [by left|done].
  - rewrite list_lookup_insert_ne in Ht' by done. right. eauto.
Qed.

Lemma submitted_seq s pub det p : Custody s pub det → p ∈ submitted s →
  0 ≤ p_seq p < Z.of_nat (length (submitted s)).
Proof.
  intros Hc [i Hi]%list_elem_of_lookup. destruct (s_index _ _ _ Hc i p Hi) as (-> & _).
  apply lookup_lt_Some in Hi. lia.
Qed.

Lemma submitted_inj s pub det p q : Custody s pub det → p ∈ submitted s → q ∈ submitted s →
  p_seq p = p_seq q ∨ completion p = completion q → p = q.
Proof.
  intros Hc [i Hi]%list_elem_of_lookup [j Hj]%list_elem_of_lookup He.
  destruct (s_index _ _ _ Hc i p Hi) as (Ei & Ci & _).
  destruct (s_index _ _ _ Hc j q Hj) as (Ej & Cj & _).
  assert (i = j) as -> by lia. congruence.
Qed.

(** A writer that takes a fresh node and record shares neither. *)
Lemma owners_fresh_inj (os : list (option (Z * Pending))) t a p :
  (t < length os)%nat →
  (∀ t1 t2 a1 a2 p1 p2, os !! t1 = Some (Some (a1, p1)) → os !! t2 = Some (Some (a2, p2)) →
     a1 = a2 ∨ p1 = p2 → t1 = t2) →
  (∀ b q t', os !! t' = Some (Some (b, q)) → b ≠ a ∧ q ≠ p) →
  ∀ t1 t2 a1 a2 p1 p2, <[t := Some (a, p)]> os !! t1 = Some (Some (a1, p1)) →
    <[t := Some (a, p)]> os !! t2 = Some (Some (a2, p2)) → a1 = a2 ∨ p1 = p2 → t1 = t2.
Proof.
  intros Hlt Hinj Hnew t1 t2 a1 a2 p1 p2 H1 H2 He.
  destruct (decide (t1 = t)) as [-> | N1], (decide (t2 = t)) as [-> | N2]; try done.
  - rewrite list_lookup_insert_eq in H1 by done. rewrite list_lookup_insert_ne in H2 by done.
    simplify_eq. destruct (Hnew _ _ _ H2). intuition congruence.
  - rewrite list_lookup_insert_eq in H2 by done. rewrite list_lookup_insert_ne in H1 by done.
    simplify_eq. destruct (Hnew _ _ _ H1). intuition congruence.
  - rewrite list_lookup_insert_ne in H1, H2 by done. eapply Hinj; eauto.
Qed.

(** Sequence numbers of written records are below the next one, which is not
    in use. *)
Lemma published_below s pub det x : Custody s pub det → x ∈ published s → x < next_seq s.
Proof.
  intros HC (q & -> & Hq)%(s_published _ _ _ HC)%list_elem_of_fmap.
  apply (s_sub _ _ _ HC) in Hq. apply (submitted_seq _ _ _ _ HC) in Hq.
  rewrite (s_next _ _ _ HC). lia.
Qed.

Lemma next_seq_fresh s pub det p : Custody s pub det → p_seq p = next_seq s → p ∉ submitted s.
Proof.
  intros HC Hp Hin. apply (submitted_seq _ _ _ _ HC) in Hin. rewrite Hp, (s_next _ _ _ HC) in Hin. lia.
Qed.

Lemma custody_append_start s s' pub det t record a :
  Custody s pub det → Z.of_nat (length (submitted s')) < W64 →
  append_start t record a s = Some s' → Custody s' pub det.
Proof.
  intros HC Hsmall. unfold append_start. destruct (writers s !! t) as [[]|] eqn:Ht; try done.
  destruct (running s); simpl; [|done]. destruct (Z.eqb_spec a 0) as [|Hnz]; simpl; [done|].
  case_bool_decide as Hfresh; [|done]. intros [= <-]. simpl in Hsmall.
  set (p := mkPending _ _ _ _) in *.
  assert (Hos : owners s !! t = Some None) by (unfold owners; by rewrite list_lookup_fmap, Ht).
  assert (Hlt : (t < length (owners s))%nat) by by eapply lookup_lt_Some.
  assert (Hnew : p ∉ submitted s) by (by eapply next_seq_fresh).
  pose proof (λ x, published_below s pub det x HC) as Hseqlt.
  assert (Hpriv : ∀ b q, priv (<[t := Some (a, p)]> (owners s)) b q →
    priv (owners s) b q ∨ (b = a ∧ q = p)).
  { intros b q [[= -> ->]|(t' & _ & Ht')]%priv_insert; [by right|]. left. by exists t'. }
  assert (Eo : owners (mkState (node_alloc a p (stk s)) (wadd (next_seq s) 1) (offset s)
              (pending_count s) true (comps s ++ [Completion_new]) (file s)
              (<[t := ALoad a p]> (writers s)) (batcher s) (futures s ++ [FNone])
              (submitted s ++ [p]) (published s) (committed s) (failed s) (woken s))
            = <[t := Some (a, p)]> (owners s)) by (unfold owners; simpl; by rewrite list_fmap_insert).
  pose proof (owned_alloc _ _ _ _ _ a p (s_own _ _ _ HC) Hnz Hfresh) as Hown.
  split; rewrite ?Eo; simpl in *.
  - eapply owned_weaken; [exact Hown|]. apply Hpriv.
  - apply owners_fresh_inj; [done|apply (s_inj _ _ _ HC)|]. intros b q t' Hl. split; intros ->.
    + destruct (o_priv _ _ _ _ _ (s_own _ _ _ HC) a q) as (_ & (nx & Hn) & _); [by exists t'|congruence].
    + apply Hnew. eapply (s_held _ _ _ HC). by exists t'.
  - apply HC.
  - apply (s_published _ _ _ HC).
  - rewrite (s_next _ _ _ HC), length_app in *. simpl in *. rewrite wadd_small; [lia|].
    unfold is_u64. lia.
  - intros i q [Hi|(Hi & Hq)]%lookup_app_Some.
    + by apply (s_index _ _ _ HC).
    + apply list_lookup_singleton_Some in Hq as [Hi0 <-]. simpl.
      rewrite (s_next _ _ _ HC), (s_comps _ _ _ HC).
      assert (i = length (submitted s)) as -> by lia. split; [done|]. split; [done|].
      intros x Hx. split; [done|]. rewrite <- (s_next _ _ _ HC). auto.
  - intros q Hq. apply elem_of_app. left. by apply (s_sub _ _ _ HC).
  - intros b q [Hb|[-> ->]]%Hpriv.
    + destruct (s_held _ _ _ HC _ _ Hb). split; [set_solver|done].
    + split; [set_solver|]. intros Hin. by apply Hnew, (s_sub _ _ _ HC).
  - intros q [Hq| ->%list_elem_of_singleton]%elem_of_app.
    + destruct (s_cover _ _ _ HC _ Hq) as [?|[b [t' Hb]]]; [by left|]. right. exists b, t'.
      rewrite list_lookup_insert_ne; [done|]. intros ->. congruence.
    + right. exists a, t. by rewrite list_lookup_insert_eq by done.
  - rewrite !length_app. simpl. by rewrite (s_comps _ _ _ HC).
  - rewrite !length_app. simpl. by rewrite (s_futures _ _ _ HC).
Qed.

(** The push that succeeds publishes the record. *)
Lemma custody_push s pub det t a h p k :
  Custody s pub det → writers s !! t = Some (APush a h p) →
  owned k (cur_node (batcher s)) ((a, p) :: pub) det (λ b y, priv (owners s) b y ∧ b ≠ a) →
  Custody (mkState k (next_seq s) (offset s) (pending_count s) (running s) (comps s)
             (file s) (<[t := ACount p]> (writers s)) (batcher s) (futures s)
             (submitted s) (published s ++ [p_seq p]) (committed s) (failed s) (woken s))
    ((a, p) :: pub) det.
Proof.
  intros HC Ht Hown. set (s' := mkState _ _ _ _ _ _ _ _ _ _ _ _ _ _ _).
  assert (Hos : owners s !! t = Some (Some (a, p))) by (unfold owners; by rewrite list_lookup_fmap, Ht).
  assert (Eo : owners s' = <[t := None]> (owners s)) by (unfold owners; simpl; by rewrite list_fmap_insert).
  assert (Hall : all s' ((a, p) :: pub) det ≡ₚ p :: all s pub det).
  { unfold all. simpl. rewrite <- !Permutation_middle. done. }
  destruct (s_held _ _ _ HC a p) as [Hps Hpa]; [by exists t|].
  assert (Hpriv : ∀ b q, priv (<[t := None]> (owners s)) b q → priv (owners s) b q ∧ b ≠ a ∧ q ≠ p).
  { intros b q [[=]|(t' & Hne & Ht')]%priv_insert. split; [by exists t'|].
    split; intros ->; apply Hne; eapply (s_inj _ _ _ HC); eauto. }
  split; rewrite ?Eo; simpl.
  - eapply owned_weaken; [exact Hown|]. intros b q Hb. by destruct (Hpriv _ _ Hb) as (? & ? & _).
  - intros t1 t2 a1 a2 p1 p2 H1 H2 He.
    apply list_lookup_insert_Some in H1 as [(_ & [=] & _)|[N1 H1]].
    apply list_lookup_insert_Some in H2 as [(_ & [=] & _)|[N2 H2]].
    eapply (s_inj _ _ _ HC); eauto.
  - rewrite Hall. apply NoDup_cons. split; [done|apply HC].
  - intros x. rewrite Hall. rewrite elem_of_app, list_elem_of_singleton, fmap_cons, elem_of_cons.
    rewrite (s_published _ _ _ HC). tauto.
  - apply HC.
  - intros i q Hi. destruct (s_index _ _ _ HC i q Hi) as (? & ? & Haf). split; [done|].
    split; [done|]. intros x Hx. destruct (Haf x Hx). split; [set_solver|done].
  - intros q. rewrite Hall. intros [->|Hq]%elem_of_cons; [done|by apply (s_sub _ _ _ HC)].
  - intros b q Hb. destruct (Hpriv _ _ Hb) as (Hb' & _ & Hne). rewrite Hall.
    destruct (s_held _ _ _ HC _ _ Hb'). split; [done|]. by apply not_elem_of_cons.
  - intros q Hq. rewrite Hall. destruct (s_cover _ _ _ HC _ Hq) as [Hin|[b [t' Hb]]].
    + left. by apply elem_of_cons; right.
    + destruct (decide (t' = t)) as [-> | Hne].
      * left. apply elem_of_cons. left. congruence.
      * right. exists b, t'. by rewrite list_lookup_insert_ne by done.
  - apply HC.
  - apply HC.
Qed.

Lemma custody_append_step s r pub det t spurious :
  Custody s pub det → append_step t spurious s = Some r →
  ∃ s' pub', r = Ok s' ∧ Custody s' pub' det.
Proof.
  intros HC. unfold append_step. destruct (writers s !! t) as [[|a p|a h p|p]|] eqn:Ht; try done.
  - intros [= <-]. eexists _, pub. split; [reflexivity|].
    eapply custody_frame; [exact HC|..]; try done; [apply HC|]. by eapply (owners_same (writers s)).
  - intros [= <-].
    destruct (owned_try_push _ _ _ _ _ spurious a h p (s_own _ _ _ HC)) as (ok & k & Hk & Hown).
    { exists t. unfold owners. by rewrite list_lookup_fmap, Ht. }
    rewrite Hk. simpl. destruct ok; (eexists _, _; split; [reflexivity|]).
    + by eapply custody_push.
    + eapply custody_frame; [exact HC|..]; try done. by eapply (owners_same (writers s)).
  - intros [= <-]. eexists _, pub. split; [reflexivity|].
    eapply custody_frame; [exact HC|..]; try done; [apply HC| |].
    + by eapply (owners_same (writers s)).
    + simpl. apply length_insert.
Qed.

Lemma insert_by_seq_perm p l : insert_by_seq p l ≡ₚ p :: l.
Proof.
  induction l as [|q l IH]; simpl; [done|]. destruct (p_seq p <=? p_seq q); [done|].
  rewrite IH. constructor.
Qed.

Lemma sort_by_seq_perm l : sort_by_seq l ≡ₚ l.
Proof. induction l as [|p l IH]; simpl; [done|]. by rewrite insert_by_seq_perm, IH. Qed.

(** Outside the walk nothing is detached. *)
Lemma custody_det s pub det : Custody s pub det → cur_node (batcher s) = 0 → det = [].
Proof. intros HC He. eapply chain_null; [apply (o_det _ _ _ _ _ (s_own _ _ _ HC))|done]. Qed.

(** ** Order: the log respects real time *)

(** Whatever was published before a record took its number precedes it. *)
Definition ordered (l : list Pending) : Prop :=
  ∀ i p x, l !! i = Some p → x ∈ after p → ∃ j q, (j < i)%nat ∧ l !! j = Some q ∧ p_seq q = x.

Definition seq_le (p q : Pending) : Prop := p_seq p ≤ p_seq q.

Definition sorted_batch (b : bpc) : Prop :=
  match b with
  | BReserve _ batch | BWrite _ batch _ => StronglySorted seq_le batch
  | _ => True
  end.

Record Order (s : State) (det : list (Z * Pending)) : Prop := mkOrder {
  r_committed : ordered (committed s);
  r_taken : ∀ p x, p ∈ taken (batcher s) ++ det.*2 → x ∈ after p →
    x ∈ p_seq <$> committed s ++ taken (batcher s) ++ det.*2;
  r_sorted : sorted_batch (batcher s)
}.

Lemma order_frame s s' det det' :
  Order s det → committed s' = committed s →
  taken (batcher s') ++ det'.*2 ≡ₚ taken (batcher s) ++ det.*2 →
  sorted_batch (batcher s') → Order s' det'.
Proof.
  intros [Hc Ht Hs] Ec Ep Hs'. split; rewrite ?Ec; try done.
  intros p x. rewrite Ep. apply Ht.
Qed.

Lemma insert_by_seq_sorted p l :
  StronglySorted seq_le l → StronglySorted seq_le (insert_by_seq p l).
Proof.
  induction 1 as [|q l Hl IH Hq]; simpl; [repeat constructor|].
  destruct (Z.leb_spec (p_seq p) (p_seq q)) as [Hle|Hlt].
  - constructor; [by constructor|]. constructor; [done|].
    eapply Forall_impl; [exact Hq|]. intros r Hr. unfold seq_le in *. lia.
  - constructor; [done|]. rewrite insert_by_seq_perm. constructor; [|done]. unfold seq_le. lia.
Qed.

Lemma sort_by_seq_sorted l : StronglySorted seq_le (sort_by_seq l).
Proof. induction l; simpl; [constructor|by apply insert_by_seq_sorted]. Qed.

Lemma sorted_lookup l i j p q :
  StronglySorted seq_le l → l !! i = Some p → l !! j = Some q → (i < j)%nat → p_seq p ≤ p_seq q.
Proof.
  intros Hs. revert i j. induction Hs as [|r l Hl IH Hr]; intros i j Hi Hj Hlt; [done|].
  destruct j as [|j]; [lia|]. destruct i as [|i]; simpl in *.
  - simplify_eq. rewrite Forall_forall in Hr. apply Hr. by eapply list_elem_of_lookup_2.
  - apply (IH i j); [done|done|lia].
Qed.

(** Writing a sorted batch after everything its records wait for. *)
Lemma ordered_app l b :
  ordered l → StronglySorted seq_le b →
  (∀ p x, p ∈ b → x ∈ after p → x < p_seq p ∧ x ∈ p_seq <$> l ++ b) → ordered (l ++ b).
Proof.
  intros Hl Hb Hx i p x [Hi|[Hlen Hi]]%lookup_app_Some Hin.
  - destruct (Hl _ _ _ Hi Hin) as (j & q & Hj & Hq & <-). exists j, q. split; [done|].
    split; [|done]. by apply lookup_app_l_Some.
  - destruct (Hx p x) as [Hlt Hin']; [by eapply list_elem_of_lookup_2|done|].
    rewrite fmap_app in Hin'. apply elem_of_app in Hin' as [Hin'|Hin'];
      apply list_elem_of_fmap in Hin' as (q & -> & [j Hj]%list_elem_of_lookup).
    + exists j, q. pose proof (lookup_lt_Some _ _ _ Hj). split; [lia|]. split; [|done].
      by apply lookup_app_l_Some.
    + exists (length l + j)%nat, q. rewrite lookup_app_r by lia.
      replace (length l + j - length l)%nat with j by lia. split; [|done].
      destruct (decide (i - length l < j)%nat) as [Hlt'|]; [|destruct (decide (j = i - length l)%nat)].
      * pose proof (sorted_lookup _ _ _ _ _ Hb Hi Hj Hlt'). lia.
      * subst. rewrite Hi in Hj. simplify_eq. lia.
      * lia.
Qed.

(** A step of the batcher that neither detaches nor writes. *)
Lemma batcher_moves s s' pub det det' :
  Custody s pub det →
  owned (stk s') (cur_node (batcher s')) pub det' (priv (owners s)) →
  committed s' = committed s →
  taken (batcher s') ++ det'.*2 ≡ₚ taken (batcher s) ++ det.*2 → sorted_batch (batcher s') →
  writers s' = writers s → published s' = published s → next_seq s' = next_seq s →
  submitted s' = submitted s → length (comps s') = length (comps s) →
  futures s' = futures s → Custody s' pub det' ∧ (Order s det → Order s' det').
Proof.
  intros HC Hown Ec Et Hs Ew Ep En Es El Ef. split.
  - eapply custody_frame; [exact HC|..]; try done.
    + unfold all. rewrite Ec, !(app_assoc (taken _)). by rewrite Et.
    + unfold owners. by rewrite Ew.
    + by rewrite Ef.
  - intros Ho. by eapply order_frame.
Qed.

Lemma custody_detach s pub rn :
  Custody s pub [] → batcher s = BSwap rn → top (stk s) ≠ 0 →
  let s' := set_batcher (set_stk s (snd (detach (stk s)))) (BWalk rn (top (stk s)) []) in
  Custody s' [] pub ∧ (Order s [] → Order s' pub).
Proof.
  intros HC Hb Hz s'. pose proof (s_own _ _ _ HC) as Hown. rewrite Hb in Hown. split.
  - eapply custody_frame; [exact HC|..]; try done.
    + simpl. by apply owned_detach.
    + unfold all. rewrite Hb. simpl. by rewrite app_nil_r.
  - intros [Hc _ _]. split; simpl; try done. intros p x Hp Hx.
    assert (Hall : all s pub [] = committed s ++ pub.*2) by (unfold all; by rewrite Hb).
    rewrite <- Hall. apply (s_published _ _ _ HC).
    assert (p ∈ submitted s) as [i Hi]%list_elem_of_lookup.
    { apply (s_sub _ _ _ HC). rewrite Hall. apply elem_of_app. by right. }
    by apply (s_index _ _ _ HC i p Hi).
Qed.

Lemma custody_write s pub rn batch off f fl :
  Custody s pub [] → batcher s = BWrite rn batch off →
  let s' := mkState (stk s) (next_seq s) (offset s) (pending_count s) (running s) (comps s) f
              (writers s) (BSignal rn batch) (futures s) (submitted s) (published s)
              (committed s ++ batch) fl (woken s) in
  Custody s' pub [] ∧ (Order s [] → Order s' []).
Proof.
  intros HC Hb s'. pose proof (s_own _ _ _ HC) as Hown. rewrite Hb in Hown. split.
  - eapply custody_frame; [exact HC|..]; try done. unfold all. rewrite Hb. simpl.
    by rewrite <- !app_assoc.
  - intros [Hc Ht Hs]. rewrite Hb in Ht, Hs. simpl in Ht, Hs. rewrite app_nil_r in Ht.
    split; simpl; [|by intros ? ? ?%elem_of_nil|done].
    apply ordered_app; [done|done|]. intros p x Hp Hx. split; [|by eapply Ht].
    assert (p ∈ submitted s) as [i Hi]%list_elem_of_lookup.
    { apply (s_sub _ _ _ HC). unfold all. rewrite Hb. simpl. set_solver. }
    by apply (s_index _ _ _ HC i p Hi).
Qed.

Lemma custody_batcher s r pub det max_batch expired resp :
  Custody s pub det →
  (∀ rn batch off, batcher s = BWrite rn batch off →
     ∃ res i f, write_vectored resp 0 (p_data <$> batch) off 0 (file s) = Ok (res, i, f)) →
  batcher_step max_batch expired resp s = Some r →
  ∃ s' pub' det', r = Ok s' ∧ Custody s' pub' det' ∧ (Order s det → Order s' det').
Proof.
  intros HC Hw. pose proof (s_own _ _ _ HC) as Hown. pose proof (custody_det _ _ _ HC) as Hdet.
  unfold batcher_step.
  destruct (batcher s) as [| |rn|rn node batch|rn batch|rn batch|rn batch off|rn [|p rest]|rn p rest|] eqn:Hb;
    simpl in Hown, Hdet; try specialize (Hdet eq_refl); try subst det.
  - intros [= <-]. eexists _, pub, []. split; [reflexivity|].
    apply (batcher_moves s); try done; simpl; rewrite ?Hb; by destruct (running s).
  - destruct (negb expired && _); intros [= <-]; (eexists _, pub, []; split; [reflexivity|]); [done|].
    apply (batcher_moves s); try done. by rewrite Hb.
  - intros [= <-]. destruct (Z.eqb_spec (top (stk s)) 0) as [Hz|Hz].
    + eexists _, pub, []. split; [reflexivity|].
      assert (mkStack (nodes (stk s)) 0 = stk s) as -> by (destruct (stk s); simpl in *; by subst).
      apply (batcher_moves s); try done; simpl; rewrite ?Hb; by destruct rn.
    + eexists _, [], pub. split; [reflexivity|]. by apply custody_detach.
  - destruct (Z.eqb_spec node 0) as [Hz|Hz].
    + intros [= <-]. eexists _, pub, det. split; [reflexivity|].
      apply (batcher_moves s); try done; simpl; rewrite ?Hb; by subst.
    + intros [= <-]. destruct det as [|[a p] det].
      { destruct Hz. eapply chain_null; [apply (o_det _ _ _ _ _ Hown)|done]. }
      destruct (owned_unbox _ _ _ _ _ _ _ Hown) as (_ & nx & k & Hk & Hown').
      rewrite Hk. simpl. eexists _, pub, det. split; [reflexivity|].
      apply (batcher_moves s); try done. rewrite Hb. simpl. by rewrite <- !app_assoc.
  - intros [= <-]. eexists _, pub, []. split; [reflexivity|].
    apply (batcher_moves s); try done; simpl; [|by apply sort_by_seq_sorted].
    rewrite Hb. simpl. by rewrite sort_by_seq_perm.
  - intros [= <-]. eexists _, pub, []. split; [reflexivity|]. split.
    + eapply custody_frame; [exact HC|..]; try done. unfold all. by rewrite Hb.
    + intros [Hc Ht Hs]. rewrite Hb in Ht, Hs. by split.
  - intros [= <-]. destruct (Hw _ _ _ eq_refl) as (res & i & f & Hr). rewrite Hr. simpl.
    eexists _, pub, []. split; [reflexivity|]. by eapply custody_write.
  - intros [= <-]. eexists _, pub, []. split; [reflexivity|]. unfold loop_end.
    apply (batcher_moves s); try done; simpl; rewrite ?Hb; by destruct (negb rn && _).
  - intros [= <-]. eexists _, pub, []. split; [reflexivity|].
    apply (batcher_moves s); try done; [by rewrite Hb|apply length_insert].
  - intros [= <-]. eexists _, pub, []. split; [reflexivity|].
    apply (batcher_moves s); try done; [by rewrite Hb|apply length_insert].
  - done.
Qed.

(** ** The log file *)

Definition datalen (l : list Pending) : Z := blen (concat (p_data <$> l)).

Definition reserved (b : bpc) : Z := match b with BWrite _ batch _ => datalen batch | _ => 0 end.

Record Logged (file0 : bytes) (s : State) : Prop := mkLogged {
  f_offset : offset s = blen file0 + datalen (committed s) + reserved (batcher s);
  f_write : ∀ r b off, batcher s = BWrite r b off → off = blen file0 + datalen (committed s);
  f_file : failed s = false → file s = file0 ++ concat (p_data <$> committed s)
}.

Lemma datalen_app l k : datalen (l ++ k) = datalen l + datalen k.
Proof. unfold datalen. rewrite fmap_app, concat_app, length_app. lia. Qed.

Lemma datalen_cons p l : datalen (p :: l) = blen (p_data p) + datalen l.
Proof. unfold datalen. rewrite fmap_cons. simpl. rewrite length_app. lia. Qed.

Lemma datalen_nonneg l : 0 ≤ datalen l.
Proof. unfold datalen. lia. Qed.

Lemma datalen_perm l k : l ≡ₚ k → datalen l = datalen k.
Proof. induction 1; rewrite ?datalen_cons in *; lia. Qed.

Lemma total_len_small l : datalen l < W64 → total_len l = datalen l.
Proof.
  induction l as [|p l IH]; [done|]. rewrite datalen_cons. intros Hlt. simpl.
  pose proof (datalen_nonneg l). rewrite IH by lia. apply wadd_small. unfold is_u64. lia.
Qed.

(** What is written or about to be is part of what was submitted. *)
Lemma custody_datalen s pub det :
  Custody s pub det → datalen (committed s) + datalen (taken (batcher s)) ≤ datalen (submitted s).
Proof.
  intros HC. assert (all s pub det ⊆+ submitted s) as [k Hk]%submseteq_Permutation.
  { apply NoDup_submseteq; [apply HC|]. intros p. apply (s_sub _ _ _ HC). }
  apply datalen_perm in Hk. unfold all in Hk. rewrite !datalen_app in Hk.
  pose proof (datalen_nonneg k). pose proof (datalen_nonneg det.*2). pose proof (datalen_nonneg pub.*2).
  lia.
Qed.

Lemma pwrite_end c bs : pwrite c (blen c) bs = c ++ bs.
Proof.
  destruct bs as [|b bs].
  { unfold pwrite. simpl. by rewrite app_nil_r. }
  rewrite pwrite_nonempty by done. rewrite Nat2Z.id, Nat.sub_diag. simpl.
  rewrite app_nil_r, firstn_all. rewrite (skipn_all2 c); [by rewrite app_nil_r|]. simpl. lia.
Qed.

(** The write of a batch returns, and unless the kernel fails it leaves the
    batch at the end of the log. *)
Lemma logged_write file0 s pub det rn batch off resp :
  Custody s pub det → Logged file0 s → small file0 s → batcher s = BWrite rn batch off →
  ∃ res i f, write_vectored resp 0 (p_data <$> batch) off 0 (file s) = Ok (res, i, f) ∧
    (is_Some res → failed s = false →
     f = file0 ++ concat (p_data <$> committed s ++ batch)).
Proof.
  intros HC [Ho Hw Hf] [_ Hsm] Hb. pose proof (custody_datalen _ _ _ HC) as Hle.
  rewrite Hb in Hle. simpl in Hle. pose proof (Hw _ _ _ Hb) as Hoff.
  pose proof (datalen_nonneg (committed s)). pose proof (datalen_nonneg batch).
  change (blen file0 + datalen (submitted s) < W64) in Hsm.
  destruct (write_vectored_spec resp (p_data <$> batch) 0 off 0 (file s)) as (i & n & Hn & [Hr|Hr]).
  1-4: unfold datalen in *; lia.
  - rewrite Hr. eexists _, _, _. split; [reflexivity|]. intros _ Hff. specialize (Hf Hff).
    rewrite Hf. assert (off = blen (file0 ++ concat (p_data <$> committed s))) as ->.
    { rewrite length_app. unfold datalen in Hoff. lia. }
    rewrite pwrite_end. by rewrite fmap_app, concat_app, app_assoc.
  - rewrite Hr. eexists _, _, _. split; [reflexivity|]. by intros [? [=]].
Qed.

Lemma logged_frame file0 s s' :
  Logged file0 s → offset s' = offset s → file s' = file s → committed s' = committed s →
  failed s' = failed s → reserved (batcher s') = reserved (batcher s) →
  (∀ r b off, batcher s' = BWrite r b off → batcher s = BWrite r b off) → Logged file0 s'.
Proof.
  intros [Ho Hw Hf] Eo Ef Ec El Er Hb. split; rewrite ?Eo, ?Ef, ?Ec, ?El, ?Er; try done. eauto.
Qed.

Lemma logged_batcher file0 s s' pub det max_batch expired resp :
  Custody s pub det → Logged file0 s → small file0 s →
  batcher_step max_batch expired resp s = Some (Ok s') → Logged file0 s'.
Proof.
  intros HC HL Hsm. unfold batcher_step.
  destruct (batcher s) as [| |rn|rn node batch|rn batch|rn batch|rn batch off|rn [|p rest]|rn p rest|] eqn:Hb.
  all: try (intros [= <-]; apply (logged_frame file0 s); try done; simpl; rewrite ?Hb; try done;
    unfold loop_end; repeat case_match; done).
  - destruct (negb expired && _); intros [= <-]; [done|].
    apply (logged_frame file0 s); try done. by rewrite Hb.
  - destruct (node =? 0).
    + intros [= <-]. apply (logged_frame file0 s); try done. by rewrite Hb.
    + destruct (unbox node (stk s)) as [[[p nx] k]|]; simpl; [|done]. intros [= <-].
      apply (logged_frame file0 s); try done. by rewrite Hb.
  - intros [= <-]. destruct HL as [Ho Hw Hf]. rewrite Hb in Ho. simpl in Ho.
    pose proof (custody_datalen _ _ _ HC) as Hle. rewrite Hb in Hle. simpl in Hle.
    destruct Hsm as [_ Hsm]. change (blen file0 + datalen (submitted s) < W64) in Hsm.
    pose proof (datalen_nonneg (committed s)). pose proof (datalen_nonneg batch).
    split; simpl; [|intros ? ? ? [= _ _ <-]; lia|done].
    rewrite total_len_small by lia. rewrite wadd_small by (unfold is_u64; lia). lia.
  - destruct (logged_write _ _ _ _ _ _ _ resp HC HL Hsm Hb) as (res & i & f & Hr & Hf).
    rewrite Hr. simpl. intros [= <-]. destruct HL as [Ho Hw Hf0]. rewrite Hb in Ho. simpl in Ho.
    split; simpl; [rewrite datalen_app; lia|done|].
    intros [Hff Hok]%orb_false_iff. apply negb_false_iff, bool_decide_eq_true in Hok. auto.
Qed.

(** ** Completions and wakers *)

Definition waking (b : bpc) : option nat :=
  match b with BWake _ p _ => Some (completion p) | _ => None end.

(** What a future's position says of its completion [k]. *)
Definition fut_ok (wk : list (nat * nat)) (b : bpc) (c : nat) (f : fpc) (k : Completion) : Prop :=
  match f with
  | FReady => c_done k = true
  | FRegistered w => c_waker k = Some w ∨ c_done k = true
  | FPending w =>
    (c, w) ∈ wk ∨ (c_waker k = Some w ∧ (c_done k = false ∨ waking b = Some c))
  | _ => True
  end.

Definition is_done (s : State) (c : nat) : Prop := ∃ k, comps s !! c = Some k ∧ c_done k = true.

Record Notified (s : State) : Prop := mkNotified {
  n_done : ∀ c, is_done s c → ∃ p, p ∈ committed s ∧ completion p = c;
  n_signal : ∀ p, p ∈ committed s → p ∈ to_signal (batcher s) ∨ is_done s (completion p);
  n_rest : ∀ p, p ∈ to_signal (batcher s) → p ∈ committed s;
  n_wake : ∀ r p rest, batcher s = BWake r p rest → p ∈ committed s ∧ is_done s (completion p);
  n_fut : ∀ c f k, futures s !! c = Some f → comps s !! c = Some k →
    fut_ok (woken s) (batcher s) c f k
}.

(** A step that touches no completion and no future. *)
Lemma notified_frame s s' :
  Notified s → comps s' = comps s → futures s' = futures s → woken s' = woken s →
  committed s' = committed s → to_signal (batcher s') = to_signal (batcher s) →
  waking (batcher s') = waking (batcher s) →
  (∀ r p rest, batcher s' = BWake r p rest → batcher s = BWake r p rest) → Notified s'.
Proof.
  intros [Hd Hs Hr Hw Hf] Ec Ef Ew Em Et Ek Hb.
  split; unfold is_done in *; rewrite ?Ec, ?Ef, ?Ew, ?Em, ?Et; eauto.
  intros c f k Hc Hk. specialize (Hf c f k Hc Hk). destruct f; simpl in *; auto. by rewrite Ek.
Qed.

Lemma notified_append_start s s' t record a :
  Notified s → length (futures s) = length (comps s) →
  append_start t record a s = Some s' → Notified s'.
Proof.
  intros [Hd Hs Hr Hw Hf] Hlen. unfold append_start. repeat case_match; intros; simplify_eq.
  assert (Hmono : ∀ c, is_done s c →
    ∃ k, (comps s ++ [mkCompletion false None]) !! c = Some k ∧ c_done k = true).
  { intros c (k & Hk & Hkd). exists k. split; [by apply lookup_app_l_Some|done]. }
  split; unfold is_done; simpl.
  - intros c (k & [Hk|[_ Hk]]%lookup_app_Some & Hkd); [apply Hd; by exists k|].
    apply list_lookup_singleton_Some in Hk as [_ <-]. done.
  - intros p Hp. destruct (Hs p Hp); eauto.
  - done.
  - intros r p rest Hb. destruct (Hw r p rest Hb). eauto.
  - intros c f k [Hc|[Hc0 Hc]]%lookup_app_Some [Hk|[Hk0 Hk]]%lookup_app_Some; [by apply Hf| | |].
    + apply lookup_lt_Some in Hc. lia.
    + apply lookup_lt_Some in Hk. lia.
    + apply list_lookup_singleton_Some in Hc as [_ <-]. done.
Qed.

Lemma notified_set_future s c f :
  Notified s → (∀ k, comps s !! c = Some k → fut_ok (woken s) (batcher s) c f k) →
  Notified (set_future s c f).
Proof.
  intros [Hd Hs Hr Hw Hf] Hc. split; try done. simpl. intros c' f' k.
  intros [(-> & -> & _)|[_ ?]]%list_lookup_insert_Some; auto.
Qed.

Lemma notified_append_step s s' t spurious :
  Notified s → append_step t spurious s = Some (Ok s') → Notified s'.
Proof.
  intros HN. unfold append_step. destruct (writers s !! t) as [[|a p|a h p|p]|]; try done.
  - intros [= <-]. by apply (notified_frame s).
  - destruct (try_push spurious a h (stk s)) as [[[] k]|]; simpl; try done;
      intros [= <-]; by apply (notified_frame s).
  - intros [= <-]. apply (notified_frame (set_future s (completion p) FFresh)); try done.
    by apply notified_set_future.
Qed.

(** [done.store(true)] of [signal]. *)
Lemma notified_store s p rest rn k :
  Notified s → batcher s = BSignal rn (p :: rest) → comps s !! completion p = Some k →
  Notified (set_batcher
    (set_comps s (<[completion p := mkCompletion true (c_waker k)]> (comps s)) (woken s))
    (BWake rn p rest)).
Proof.
  intros [Hd Hs Hr Hw Hf] Hb Hk. rewrite Hb in Hs, Hr, Hf. simpl in *.
  assert (Hlt : (completion p < length (comps s))%nat) by by eapply lookup_lt_Some.
  assert (Hp : p ∈ committed s) by (apply Hr; apply list_elem_of_here).
  assert (Hmono : ∀ c, is_done s c → ∃ k', <[completion p := mkCompletion true (c_waker k)]> (comps s) !! c = Some k'
    ∧ c_done k' = true).
  { intros c (k' & Hk' & Hd'). destruct (decide (c = completion p)) as [-> | Hne].
    - rewrite list_lookup_insert_eq by done. eauto.
    - rewrite list_lookup_insert_ne by done. eauto. }
  split; unfold is_done; simpl.
  - intros c (k' & [(<- & _ & _)|[_ Hk']]%list_lookup_insert_Some & Hd'); [eauto|]. apply Hd. by exists k'.
  - intros q Hq. destruct (Hs q Hq) as [[->|Hin]%elem_of_cons|Hq']; auto.
    right. rewrite list_lookup_insert_eq by done. eauto.
  - intros q Hq. apply Hr. by apply list_elem_of_further.
  - intros r q rest' [= <- <- <-]. split; [done|]. rewrite list_lookup_insert_eq by done. eauto.
  - intros c f k' Hc [(<- & <- & _)|[Hne Hk']]%list_lookup_insert_Some.
    + specialize (Hf _ _ _ Hc Hk). destruct f; simpl in *; auto.
      destruct Hf as [?|(? & _)]; [by left|]. right. auto.
    + specialize (Hf _ _ _ Hc Hk'). destruct f; simpl in *; auto.
      destruct Hf as [?|(? & [?|?])]; auto; done.
Qed.

(** The waker is taken and woken. *)
Lemma notified_take s p rest rn k :
  Notified s → batcher s = BWake rn p rest → comps s !! completion p = Some k →
  Notified (set_batcher
    (set_comps s (<[completion p := mkCompletion (c_done k) None]> (comps s))
       (match c_waker k with Some w => woken s ++ [(completion p, w)] | None => woken s end))
    (BSignal rn rest)).
Proof.
  intros [Hd Hs Hr Hw Hf] Hb Hk. rewrite Hb in Hs, Hr, Hf. simpl in *.
  assert (Hlt : (completion p < length (comps s))%nat) by by eapply lookup_lt_Some.
  destruct (Hw _ _ _ Hb) as (Hp & k0 & Hk0 & Hd0).
  assert (k0 = k) as -> by congruence. clear Hk0.
  assert (Hwk : ∀ x, x ∈ woken s → x ∈ match c_waker k with Some w => woken s ++ [(completion p, w)] | None => woken s end).
  { intros x Hx. destruct (c_waker k); [|done]. apply elem_of_app. by left. }
  assert (Hmono : ∀ c, is_done s c → ∃ k', <[completion p := mkCompletion (c_done k) None]> (comps s) !! c = Some k'
    ∧ c_done k' = true).
  { intros c (k' & Hk' & Hd'). destruct (decide (c = completion p)) as [-> | Hne].
    - rewrite list_lookup_insert_eq by done. eauto.
    - rewrite list_lookup_insert_ne by done. eauto. }
  split; unfold is_done; simpl.
  - intros c (k' & [(<- & _ & _)|[_ Hk']]%list_lookup_insert_Some & Hd'); [eauto|]. apply Hd. by exists k'.
  - intros q Hq. destruct (Hs q Hq); auto.
  - auto.
  - done.
  - intros c f k' Hc [(<- & <- & _)|[Hne Hk']]%list_lookup_insert_Some.
    + specialize (Hf _ _ _ Hc Hk). destruct f; simpl in *; auto.
      destruct Hf as [?|(Hwk' & _)]; [by left; apply Hwk|]. left. rewrite Hwk'.
      apply elem_of_app. right. apply list_elem_of_here.
    + specialize (Hf _ _ _ Hc Hk'). destruct f; simpl in *; auto.
      destruct Hf as [?|(? & [?|[=]])]; auto; congruence.
Qed.

Lemma notified_batcher s s' pub det max_batch expired resp :
  Custody s pub det → Notified s →
  batcher_step max_batch expired resp s = Some (Ok s') → Notified s'.
Proof.
  intros HC HN. unfold batcher_step.
  assert (Hcomp : ∀ p, p ∈ committed s → is_Some (comps s !! completion p)).
  { intros p Hp. assert (p ∈ submitted s) as [i Hi]%list_elem_of_lookup.
    { apply (s_sub _ _ _ HC). unfold all. set_solver. }
    destruct (s_index _ _ _ HC i p Hi) as (_ & -> & _). apply lookup_lt_is_Some_2.
    rewrite (s_comps _ _ _ HC). by eapply lookup_lt_Some. }
  destruct (batcher s) as [| |rn|rn node batch|rn batch|rn batch|rn batch off|rn [|p rest]|rn p rest|] eqn:Hb.
  all: try (intros [= <-]; apply (notified_frame s); try done; simpl; rewrite ?Hb; try done;
    unfold loop_end; repeat case_match; done).
  - destruct (negb expired && _); intros [= <-]; [done|].
    apply (notified_frame s); try done; by rewrite Hb.
  - destruct (node =? 0).
    + intros [= <-]. apply (notified_frame s); try done; by rewrite Hb.
    + destruct (unbox node (stk s)) as [[[p nx] k]|]; simpl; [|done]. intros [= <-].
      apply (notified_frame s); try done; by rewrite Hb.
  - destruct (write_vectored _ _ _ _ _ _) as [[[res i] f]|]; simpl; [|done]. intros [= <-].
    destruct HN as [Hd Hs Hr Hw Hf]. rewrite Hb in Hs, Hr, Hf.
    split; unfold is_done in *; simpl in *; try done.
    + intros c Hc. destruct (Hd c Hc) as (p & ? & ?). exists p. set_solver.
    + intros p [Hp|Hp]%elem_of_app; [|by left]. destruct (Hs p Hp) as [[]%elem_of_nil|]; auto.
    + intros p Hp. apply elem_of_app. by right.
  - intros [= <-]. assert (Hp : p ∈ committed s).
    { apply (n_rest _ HN). rewrite Hb. apply list_elem_of_here. }
    destruct (Hcomp p Hp) as [k Hk]. rewrite Hk. simpl. by apply notified_store.
  - intros [= <-]. destruct (n_wake _ HN _ _ _ Hb) as [_ (k & Hk & _)]. rewrite Hk. simpl.
    by apply notified_take.
Qed.

Lemma notified_poll_start s s' c w : Notified s → poll_start c w s = Some s' → Notified s'.
Proof.
  intros HN. unfold poll_start. destruct (futures s !! c) as [f|] eqn:Hf; [|done].
  destruct (comps s !! c) as [k|] eqn:Hk; [|by destruct f].
  assert (Hok : ∀ k', comps s !! c = Some k' →
    fut_ok (woken s) (batcher s) c (if c_done k then FReady else FLoaded w) k').
  { intros k' Hk'. assert (k' = k) as -> by congruence. by destruct (c_done k) eqn:?. }
  destruct f; try done; intros [= <-]; by apply notified_set_future.
Qed.

Lemma notified_poll_step s s' c : Notified s → poll_step c s = Some s' → Notified s'.
Proof.
  intros HN. unfold poll_step. destruct (futures s !! c) as [f|] eqn:Hf; [|done].
  destruct (comps s !! c) as [k|] eqn:Hk; [|by destruct f].
  assert (Hlt : (c < length (comps s))%nat) by by eapply lookup_lt_Some.
  destruct f as [| |w|w|w|]; try done; intros [= <-].
  - apply notified_set_future.
    2:{ simpl. rewrite list_lookup_insert_eq by done. intros k' [= <-]. by left. }
    destruct HN as [Hd Hs Hr Hw Hfu].
    assert (Hsame : ∀ c', is_done (set_comps s (<[c:={| c_done := c_done k; c_waker := Some w |}]> (comps s)) (woken s)) c'
      ↔ is_done s c').
    { intros c'. unfold is_done. simpl. destruct (decide (c' = c)) as [-> | Hne].
      - rewrite list_lookup_insert_eq by done. rewrite Hk.
        split; intros (? & [= <-] & ?); eauto.
      - by rewrite list_lookup_insert_ne by done. }
    split; try done.
    + intros c'. rewrite Hsame. apply Hd.
    + intros p. rewrite Hsame. apply Hs.
    + intros r p rest. rewrite Hsame. apply Hw.
    + simpl. intros c' f' k' Hf' [(-> & <- & _)|[_ Hk']]%list_lookup_insert_Some; [|by apply Hfu].
      rewrite Hf in Hf'. by simplify_eq.
  - apply notified_set_future; [done|]. intros k' Hk'. assert (k' = k) as -> by congruence.
    pose proof (n_fut _ HN _ _ _ Hf Hk) as Hok. simpl in Hok.
    destruct (c_done k) eqn:Hd; simpl; [done|]. destruct Hok as [?|[=]]. right. auto.
Qed.

(** ** Shutdown *)

(** The value of [running] the batcher's current round works with. *)
Definition local_running (b : bpc) : bool :=
  match b with
  | BTop | BWait => true
  | BSwap r | BWalk r _ _ | BSub r _ | BReserve r _ | BWrite r _ _ | BSignal r _ | BWake r _ _ => r
  | BExit => false
  end.

Record Stopping (s : State) : Prop := mkStopping {
  t_idle : running s = false → ∀ t w, writers s !! t = Some w → w = AIdle;
  t_local : local_running (batcher s) = false → running s = false;
  t_exit : batcher s = BExit → top (stk s) = 0
}.

Lemma stopping_batcher s s' max_batch expired resp :
  Stopping s → batcher_step max_batch expired resp s = Some (Ok s') → Stopping s'.
Proof.
  intros [Hi Hl Hx]. unfold batcher_step.
  destruct (batcher s) as [| |rn|rn node batch|rn batch|rn batch|rn batch off|rn [|p rest]|rn p rest|] eqn:Hb.
  all: try (intros [= <-]; split; simpl in *; auto; done).
  - intros [= <-]. split; simpl in *; auto; by destruct (running s).
  - destruct (negb expired && _); intros [= <-]; [|by split].
    split; [done| |]; rewrite Hb; done.
  - intros [= <-]. split; simpl in *; auto. destruct (top (stk s) =? 0), rn; simpl; auto.
  - destruct (node =? 0); [intros [= <-]; by split|].
    destruct (unbox node (stk s)) as [[[p nx] k]|]; simpl; [|done]. intros [= <-]. by split.
  - destruct (write_vectored _ _ _ _ _ _) as [[[res i] f]|]; simpl; [|done]. intros [= <-]. by split.
  - intros [= <-]. unfold loop_end. split; simpl in *; auto.
    + destruct rn; simpl; [done|]. destruct (top (stk s) =? 0); simpl; auto.
    + destruct rn; simpl; [done|]. by destruct (Z.eqb_spec (top (stk s)) 0).
Qed.

Record Inv (file0 : bytes) (s : State) (pub det : list (Z * Pending)) : Prop := mkInv {
  v_custody : Custody s pub det;
  v_order : Order s det;
  v_logged : Logged file0 s;
  v_notified : Notified s;
  v_stopping : Stopping s
}.

Lemma inv_new file0 n : Inv file0 (GroupCommitWal_new true file0 n) [] [].
Proof.
  assert (Hos : ∀ t o, owners (GroupCommitWal_new true file0 n) !! t = Some o → o = None).
  { intros t o. unfold owners. simpl. rewrite fmap_replicate. by intros [-> _]%lookup_replicate. }
  split; split; simpl; try done.
  - eapply owned_weaken; [apply owned_new|]. intros a x [t [=]%Hos].
  - intros t t' a a' p p' [=]%Hos.
  - apply NoDup_nil_2.
  - intros a p [t [=]%Hos].
  - intros p []%elem_of_nil.
  - intros p x []%elem_of_nil.
  - unfold datalen. simpl. lia.
  - by rewrite app_nil_r.
  - intros c (k & [=] & _).
  - intros p []%elem_of_nil.
Qed.

(** What a writer in the middle of [append] leaves alone. *)
Lemma append_step_frame s s' t spurious :
  append_step t spurious s = Some (Ok s') →
  ∃ w, writers s !! t = Some w ∧ w ≠ AIdle ∧ batcher s' = batcher s ∧ committed s' = committed s ∧
    offset s' = offset s ∧ file s' = file s ∧ failed s' = failed s ∧ running s' = running s.
Proof.
  unfold append_step. destruct (writers s !! t) as [[|a p|a h p|p]|]; try done.
  - intros [= <-]. eexists; done.
  - destruct (try_push spurious a h (stk s)) as [[[] k]|]; simpl; try done;
      intros [= <-]; eexists; done.
  - intros [= <-]. eexists; done.
Qed.

(** Appending, from an invariant state. *)
Lemma inv_append_start file0 s s' pub det t record a :
  Inv file0 s pub det → small file0 s' → append_start t record a s = Some s' → Inv file0 s' pub det.
Proof.
  intros [HC HO HL HN HS] [Hsm _] Hs.
  pose proof (custody_append_start _ _ _ _ _ _ _ HC Hsm Hs) as HC'.
  assert (Hlen : length (futures s) = length (comps s)).
  { rewrite (s_comps _ _ _ HC). apply HC. }
  pose proof (notified_append_start _ _ _ _ _ HN Hlen Hs) as HN'.
  unfold append_start in Hs. repeat case_match; simplify_eq. split; try done.
  - destruct HO. by split.
  - by apply (logged_frame file0 s).
  - destruct HS as [Hi Hl Hx]. destruct (running s) eqn:Hrun; [|done]. split; done.
Qed.

Lemma inv_append_step file0 s r pub det t spurious :
  Inv file0 s pub det → append_step t spurious s = Some r →
  ∃ s' pub', r = Ok s' ∧ Inv file0 s' pub' det.
Proof.
  intros [HC HO HL HN HS] Hs. destruct (custody_append_step _ _ _ _ _ _ HC Hs) as (s' & pub' & -> & HC').
  exists s', pub'. split; [done|].
  pose proof (notified_append_step _ _ _ _ HN Hs) as HN'.
  destruct (append_step_frame _ _ _ _ Hs) as (w & Ht & Hw & Eb & Ec & Eo & Ef & Ex & Er).
  destruct HS as [Hi Hl Hx]. assert (Hrun : running s = true).
  { destruct (running s) eqn:Hf; [done|]. destruct Hw. eauto. }
  split; try done.
  - destruct HO as [Ho1 Ho2 Ho3]. split; by rewrite ?Eb, ?Ec.
  - apply (logged_frame file0 s); try done; by rewrite Eb.
  - split; rewrite ?Eb, ?Er, ?Hrun; try done.
    + intros Hf. rewrite Hl in Hrun; done.
    + intros He. rewrite Hl in Hrun; [done|]. by rewrite He.
Qed.

(** A poll touches one completion and one future. *)
Lemma inv_poll file0 s s' pub det c w :
  Inv file0 s pub det → poll_start c w s = Some s' ∨ poll_step c s = Some s' → Inv file0 s' pub det.
Proof.
  intros [HC HO HL HN HS] Hs.
  assert (HN' : Notified s').
  { destruct Hs as [Hs|Hs]; [by eapply notified_poll_start|by eapply notified_poll_step]. }
  destruct Hs as [Hs|Hs]; unfold poll_start, poll_step in Hs; repeat case_match; simplify_eq;
    (split; [|by destruct HO|by apply (logged_frame file0 s)|done|by destruct HS]);
    (eapply custody_frame; [exact HC|..]; try done; [apply HC|..]; simpl; rewrite ?length_insert; done).
Qed.

Lemma inv_drop file0 s s' pub det :
  Inv file0 s pub det → drop_wal s = Some s' → Inv file0 s' pub det.
Proof.
  intros [HC HO HL HN HS] Hs. unfold drop_wal in Hs.
  destruct (running s) eqn:Hrun; simpl in Hs; [|done].
  destruct (forallb _ _) eqn:Hall; [|done]. simplify_eq. destruct HS as [Hi Hl Hx].
  split; [|by destruct HO|by apply (logged_frame file0 s)|by apply (notified_frame s)|].
  - eapply custody_frame; [exact HC|..]; try done. apply HC.
  - split; simpl; auto. intros _ t w Ht. rewrite forallb_forall in Hall.
    assert (Hin : w ∈ writers s) by by eapply list_elem_of_lookup_2.
    apply list_elem_of_In in Hin. specialize (Hall _ Hin). by destruct w.
Qed.

(** One step, from an invariant state: it never faults, and the invariant
    holds again as long as the counters do not overflow. *)
Lemma inv_step max_batch file0 s l r pub det :
  Inv file0 s pub det → small file0 s → step max_batch l s = Some r →
  ∃ s', r = Ok s' ∧ (small file0 s' → ∃ pub' det', Inv file0 s' pub' det').
Proof.
  intros HI Hsm. destruct l as [t record a|t spurious|expired resp|c w|c|]; simpl.
  - destruct (append_start t record a s) as [s'|] eqn:Hs; simpl; [|done]. intros [= <-].
    exists s'. split; [done|]. intros Hsm'. exists pub, det. by eapply inv_append_start.
  - intros Hs. destruct (inv_append_step _ _ _ _ _ _ _ HI Hs) as (s' & pub' & -> & HI'). eauto.
  - intros Hs. destruct HI as [HC HO HL HN HS].
    destruct (custody_batcher s r pub det max_batch expired resp HC) as (s' & pub' & det' & -> & HC' & HO').
    { intros rn batch off Hb.
      destruct (logged_write _ _ _ _ _ _ _ resp HC HL Hsm Hb) as (res & i & f & Hw & _). eauto. }
    { done. }
    exists s'. split; [done|]. intros _. exists pub', det'. split; auto.
    + exact (logged_batcher _ _ _ _ _ _ _ _ HC HL Hsm Hs).
    + exact (notified_batcher _ _ _ _ _ _ _ HC HN Hs).
    + exact (stopping_batcher _ _ _ _ _ HS Hs).
  - destruct (poll_start c w s) as [s'|] eqn:Hs; simpl; [|done]. intros [= <-].
    exists s'. split; [done|]. intros _. exists pub, det. eapply inv_poll; eauto.
  - destruct (poll_step c s) as [s'|] eqn:Hs; simpl; [|done]. intros [= <-].
    exists s'. split; [done|]. intros _. exists pub, det. eapply (inv_poll _ _ _ _ _ c 0); eauto.
  - destruct (drop_wal s) as [s'|] eqn:Hs; simpl; [|done]. intros [= <-].
    exists s'. split; [done|]. intros _. exists pub, det. by eapply inv_drop.
Qed.

Lemma batcher_submitted max_batch expired resp s s' :
  batcher_step max_batch expired resp s = Some (Ok s') → submitted s' = submitted s.
Proof.
  unfold batcher_step. repeat case_match; try done; intros; simplify_eq; try done.
  - destruct (unbox _ _) as [[[]]|]; simpl in *; by simplify_eq.
  - destruct (write_vectored _ _ _ _ _ _) as [[[]]|]; simpl in *; by simplify_eq.
Qed.

Lemma step_submitted max_batch l s s' :
  step max_batch l s = Some (Ok s') → ∃ k, submitted s' = submitted s ++ k.
Proof.
  destruct l as [t record a|t spurious|expired resp|c w|c|]; simpl.
  - unfold append_start. repeat case_match; try done. simpl. intros [= <-]. by eexists.
  - unfold append_step. destruct (writers s !! t) as [[|a p|a h p|p]|]; try done.
    + intros [= <-]. exists []. by rewrite app_nil_r.
    + destruct (try_push spurious a h (stk s)) as [[[] k]|]; simpl; try done;
        intros [= <-]; exists []; by rewrite app_nil_r.
    + intros [= <-]. exists []. by rewrite app_nil_r.
  - intros Hs%batcher_submitted. exists []. by rewrite app_nil_r.
  - unfold poll_start. repeat case_match; try done; intros [= <-]; exists []; by rewrite app_nil_r.
  - unfold poll_step. repeat case_match; try done; intros [= <-]; exists []; by rewrite app_nil_r.
  - unfold drop_wal. repeat case_match; try done; intros [= <-]; exists []; by rewrite app_nil_r.
Qed.

Lemma small_before file0 max_batch l s s' :
  step max_batch l s = Some (Ok s') → small file0 s' → small file0 s.
Proof.
  intros [k Hk]%step_submitted. unfold small. rewrite Hk, fmap_app, concat_app, !length_app. lia.
Qed.

Lemma reachable_inv max_batch file0 n s :
  reachable max_batch file0 n s → small file0 s → ∃ pub det, Inv file0 s pub det.
Proof.
  induction 1 as [|s l s' _ IH Hs]; intros Hsm; [eexists _, _; apply inv_new|].
  pose proof (small_before _ _ _ _ _ Hs Hsm) as Hsm0. destruct (IH Hsm0) as (pub & det & Hi).
  destruct (inv_step _ _ _ _ _ _ _ Hi Hsm0 Hs) as (s1 & [= <-] & H1). auto.
Qed.

(** ** Termination of the batcher after shutdown *)

Definition rounds (b : bpc) : nat :=
  match b with
  | BExit => 0
  | BSwap false => 1
  | BTop => 2
  | BSwap true => 3
  | BWait => 4
  | BSignal _ rest => 3 + 2 * length rest
  | BWake _ _ rest => 4 + 2 * length rest
  | BWrite _ b _ => 4 + 2 * length b
  | BReserve _ b => 5 + 2 * length b
  | BSub _ b => 6 + 2 * length b
  | BWalk _ _ b => 7 + 2 * length b
  end.

Definition work (s : State) : nat :=
  (rounds (batcher s) + 3 * size (nodes (stk s)) + if (top (stk s) =? 0)%Z then 0 else 10)%nat.

Lemma batcher_progress max_batch resp s s' :
  running s = false → batcher_step max_batch true resp s = Some (Ok s') →
  (work s' < work s)%nat ∧ running s' = false.
Proof.
  intros Hrun. unfold batcher_step, work.
  destruct (batcher s) as [| |rn|rn node batch|rn batch|rn batch|rn batch off|rn [|p rest]|rn p rest|] eqn:Hb;
    rewrite ?Hrun.
  - intros [= <-]. simpl. split; [lia|done].
  - simpl. intros [= <-]. simpl. split; [lia|done].
  - intros [= <-]. simpl. split; [|done].
    destruct (Z.eqb_spec (top (stk s)) 0); destruct rn; simpl; lia.
  - destruct (node =? 0); [intros [= <-]; simpl; split; [lia|done]|].
    unfold unbox. destruct (nodes (stk s) !! node) as [[p nx]|] eqn:Hn; simpl; [|done].
    intros [= <-]. simpl. split; [|done]. rewrite length_app, map_size_delete_Some by eauto. simpl.
    assert (size (nodes (stk s)) ≠ 0%nat).
    { rewrite map_size_non_empty_iff. intros He. by rewrite He, lookup_empty in Hn. }
    lia.
  - intros [= <-]. simpl. split; [|done].
    rewrite (Permutation_length (sort_by_seq_perm batch)). lia.
  - intros [= <-]. simpl. split; [lia|done].
  - destruct (write_vectored _ _ _ _ _ _) as [[[res i] f]|]; simpl; [|done].
    intros [= <-]. simpl. split; [lia|done].
  - intros [= <-]. unfold loop_end. simpl. split; [|done].
    destruct rn; simpl; [lia|]. destruct (top (stk s) =? 0); simpl; lia.
  - intros [= <-]. simpl. split; [lia|done].
  - intros [= <-]. simpl. split; [lia|done].
  - done.
Qed.

Lemma batcher_enabled max_batch expired resp s :
  batcher s ≠ BExit → is_Some (batcher_step max_batch expired resp s).
Proof.
  intros Hb. unfold batcher_step. repeat case_match; try done; by eexists.
Qed.

(** Left alone after the flag is cleared, the batcher drains and exits. *)
Lemma batcher_drains max_batch file0 n (resps : nat → nat → option nat) k s i :
  (work s ≤ k)%nat → reachable max_batch file0 n s → small file0 s → running s = false →
  ∃ m s', run_steps max_batch ((λ j, LBatcher true (resps j)) <$> seq i m) s = Some (Ok s') ∧
    reachable max_batch file0 n s' ∧ submitted s' = submitted s ∧ batcher s' = BExit.
Proof.
  revert s i. induction k as [|k IH]; intros s i Hk Hr Hsm Hrun.
  all: destruct (decide (rounds (batcher s) = 0%nat)) as [Hz|Hz].
  1,3: assert (batcher s = BExit) by (by destruct (batcher s) as [| |[]| | | | | | |]);
    exists 0%nat, s; by rewrite Hrun || done.
  { unfold work in Hk. lia. }
  assert (Hne : batcher s ≠ BExit) by (intros He; by rewrite He in Hz).
  destruct (batcher_enabled max_batch true (resps i) s Hne) as [r Hs].
  destruct (reachable_inv _ _ _ _ Hr Hsm) as (pub & det & Hi).
  destruct (inv_step max_batch file0 s (LBatcher true (resps i)) r _ _ Hi Hsm Hs) as (s1 & -> & _).
  destruct (batcher_progress _ _ _ _ Hrun Hs) as [Hlt Hrun1].
  assert (Hr1 : reachable max_batch file0 n s1).
  { eapply (reach_step _ _ _ s (LBatcher true (resps i))); done. }
  pose proof (batcher_submitted _ _ _ _ _ Hs) as Hsub.
  destruct (IH s1 (S i)) as (m & s' & Hm & Hr' & Hs' & Hb'); [lia|done|by unfold small; rewrite Hsub|done|].
  exists (S m), s'. simpl. unfold step. rewrite Hs. split; [done|]. split; [done|].
  split; [congruence|done].
Qed.

(** ** Properties *)


(** [C29] No wakeup is lost: a task whose [poll] returned [Pending] with a
    waker has been woken through it once the batcher is done signalling the
    record, however the poll interleaved with the signal. *)
Theorem group_commit_wakeup (max_batch : Z) (file0 : bytes) (n : nat) (s : State) (c w : nat)
    (Hr : reachable max_batch file0 n s) (Hsmall : small file0 s)
    (Hpend : futures s !! c = Some (FPending w)) (Hdone : is_done s c)
    (Hsig : waking (batcher s) ≠ Some c) :
  (c, w) ∈ woken s.
Proof.
  destruct (reachable_inv _ _ _ _ Hr Hsmall) as (pub & det & [_ _ _ HN _]).
  destruct Hdone as (k & Hk & Hd). pose proof (n_fut _ HN _ _ _ Hpend Hk) as Hf. simpl in Hf.
  destruct Hf as [?|(_ & [?|?])]; [done|congruence|done].
Qed.


(** ** Acknowledged without being written, and the counter below zero *)

Definition no_error : nat → option nat := λ _, Some 64%nat.
Definition disk_full : nat → option nat := λ _, None.

(** One append by writer [t] from start to return. *)
Definition append_alone (t : nat) (record : bytes) (a : Z) : list label :=
  [LAppend t record a; LWriter t false; LWriter t false; LWriter t false].

(** One round of the batcher over a batch of [k] records. *)
Definition batch_round (k : nat) (resp : nat → option nat) : list label :=
  replicate (3 + (k + 1) + 3 + (2 * k + 1)) (LBatcher true resp).


(** The count is raised after the push: a batcher that takes the record in
    between wraps it below zero, which also defeats the coalescing window. *)
Lemma pending_count_wraps :
  ∃ s, run_steps 8 ([LAppend 0 [1; 2] 4096; LWriter 0 false; LWriter 0 false]
                    ++ replicate 6 (LBatcher true no_error))
         (GroupCommitWal_new true [7] 1) = Some (Ok s) ∧
    pending_count s = W64 - 1 ∧ writers s = [ACount (mkPending 0 [1; 2] 0 [])].
Proof. eexists. split; [vm_compute; reflexivity|]. by vm_compute. Qed.

(** Two overlapping appends may reach the log against their numbers. *)
Lemma overlapping_appends_swap :
  ∃ s, run_steps 8 ([LAppend 0 [1; 2] 4096] ++ append_alone 1 [3] 8192 ++ batch_round 1 no_error
                    ++ replicate 3 (LWriter 0 false) ++ batch_round 1 no_error)
         (GroupCommitWal_new true [7] 2) = Some (Ok s) ∧
    p_seq <$> committed s = [1; 0] ∧ file s = [7; 3; 1; 2].
Proof. eexists. split; [vm_compute; reflexivity|]. by vm_compute. Qed.

(** ** A concrete execution *)

Lemma run_reachable max_batch file0 n ls s s' :
  reachable max_batch file0 n s → run_steps max_batch ls s = Some (Ok s') →
  reachable max_batch file0 n s'.
Proof.
  revert s. induction ls as [|l ls IH]; simpl; intros s Hr Hs; [by simplify_eq|].
  destruct (step max_batch l s) as [[s1|]|] eqn:Hl; try done.
  eapply IH; [|done]. by eapply reach_step.
Qed.

(** Two racing appends, one poll that goes to sleep, and one batch. *)
Definition demo_labels : list label :=
  [LAppend 0 [1; 2] 4096; LWriter 0 false] ++ append_alone 1 [3] 8192 ++
  replicate 4 (LWriter 0 false) ++ [LPoll 0 5; LFuture 0; LFuture 0] ++
  batch_round 2 no_error.

Definition demo_state : State :=
  match run_steps 8 demo_labels (GroupCommitWal_new true [7] 2) with
  | Some (Ok s) => s
  | _ => GroupCommitWal_new true [7] 2
  end.

Lemma demo_gc_reachable : reachable 8 [7] 2 demo_state.
Proof. eapply (run_reachable _ _ _ demo_labels); [apply reach_new|]. vm_compute. reflexivity. Qed.


Lemma group_commit_wakeup_witness :
  futures demo_state !! 0%nat = Some (FPending 5) ∧ (0%nat, 5%nat) ∈ woken demo_state.
Proof.
  split; [by vm_compute|].
  apply (group_commit_wakeup 8 [7] 2 demo_state 0 5 demo_gc_reachable).
  - by vm_compute.
  - by vm_compute.
  - eexists. split; [vm_compute; reflexivity|reflexivity].
  - by vm_compute.
Defined.

(** Both appends returned, nothing written yet, the handle dropped. *)
Definition dropped_labels : list label :=
  append_alone 0 [1; 2] 4096 ++ append_alone 1 [3] 8192 ++ [LDrop].

Definition dropped_state : State :=
  match run_steps 8 dropped_labels (GroupCommitWal_new true [7] 2) with
  | Some (Ok s) => s
  | _ => GroupCommitWal_new true [7] 2
  end.

Lemma dropped_reachable : reachable 8 [7] 2 dropped_state.
Proof. eapply (run_reachable _ _ _ dropped_labels); [apply reach_new|]. vm_compute. reflexivity. Qed.

