(* ===== verification/Channel.v ===== *)
(** * Channel: what a bounded queue promises its two ends

    The mesh only pushes into and pops from its queues. [Channel] lists these
    calls over a state type [C]; [ChannelLaws] says that they are a FIFO list
    of bounded length which hands a refused value back. [ring_channel] is the
    SPSC ring; that the ring behaves so when its two ends run concurrently,
    up to loads that lag and make a call fail early, is shown in [Spsc.v]. *)

From S2P Require Import Prelude Spsc.
Local Open Scope Z_scope.
Local Open Scope zkv_scope.

Class Channel (T C : Type) : Type := {
  ch_new : Z → C;
  ch_push : T → C → res (option T * C);
  ch_pop : C → res (option T * C);
  (** [ch_rep c cap q]: [c] has room for [cap] values and holds [q]. *)
  ch_rep : C → nat → list T → Prop
}.

Class ChannelLaws (T C : Type) `{!Channel T C} : Prop := {
  ch_new_ok capacity :
    0 ≤ capacity ≤ 2 ^ 63 →
    ∃ cap, (2 ≤ cap)%nat ∧ capacity ≤ Z.of_nat cap ∧ ch_rep (ch_new capacity) cap [];
  ch_push_ok v c cap q :
    ch_rep c cap q →
    if (length q <? cap)%nat
    then ∃ c', ch_push v c = Ok (None, c') ∧ ch_rep c' cap (q ++ [v])
    else ch_push v c = Ok (Some v, c);
  ch_pop_ok c cap q :
    ch_rep c cap q →
    match q with
    | [] => ch_pop c = Ok (None, c)
    | v :: q' => ∃ c', ch_pop c = Ok (Some v, c') ∧ ch_rep c' cap q'
    end
}.

#[export] Instance ring_channel (T : Type) : Channel T (@Ring T) := {
  ch_new := channel;
  ch_push := push;
  ch_pop := pop;
  ch_rep r cap q := length (buf r) = cap ∧ ∃ k H, ring_rep k r H q
}.

#[export] Instance ring_channel_laws (T : Type) : ChannelLaws T (@Ring T).
Proof.
  split.
  - intros capacity Hc. destruct (channel_rep (T := T) capacity) as (k & Hr & Hge & Hk & Hk1); [lia|].
    exists (length (buf (channel (T := T) capacity))).
    assert (2 ≤ 2 ^ k) by (apply (Z.pow_le_mono_r 2 1 k); lia).
    split; [lia|]. split; [done|]. split; [done|]. by exists k, 0%nat.
  - intros v r cap q [<- (k & H & Hr)]. simpl.
    destruct (push_spec k r H q v Hr) as [[Hlt (r' & Hp & Hr' & Hl)]|[Hf Hp]].
    + rewrite (proj2 (Nat.ltb_lt _ _) Hlt). eauto 10.
    + by rewrite Hf, Nat.ltb_irrefl.
  - intros r cap q [<- (k & H & Hr)]. simpl. pose proof (pop_spec k r H q Hr) as Hp.
    destruct q as [|v q]; [done|]. destruct Hp as (r' & Hp & Hr' & Hl). eauto 10.
Qed.
