(* ===== verification/Mesh.v ===== *)
(** * Mesh: the shared-nothing put workload

    Models the first half of [crates/zerokv/src/mesh.rs]: [Command], [Reply],
    [Worker] with [put], [pump] and [drain_replies], and the worker thread of
    [run_put_workload] with its quiescence protocol. Each worker is a program
    counter over its calls on the queues and its accesses to the shared
    counters; a step of [step] is one of them. The queues come through the
    [Channel] interface; a step may be told that its load of the other cursor
    lags, in which case a push is refused and a pop finds nothing. *)

From stdpp Require Import functions.
From S2P Require Import Prelude Channel.
Local Open Scope Z_scope.
Local Open Scope zkv_scope.

Inductive Command : Type :=
| CPut (key val : bytes)
| CGet (key : bytes) (from : nat) (token : Z).

Record Reply : Type := mkReply {
  token : Z;
  r_val : option bytes
}.

(** [route]: FNV-1a, masked. *)
Definition route (key : bytes) (mask : Z) : nat :=
  Z.to_nat (Z.land (foldl (λ h b, wmul (Z.lxor h b) 0x100000001B3) 0xcbf29ce484222325 key) mask).

Abbreviation items := (list (bytes * bytes)).

(** What [pump] returns to: the retry of a [put], the next item, the
    quiescence loop, or the last drain before the exit. *)
Inductive pret : Type :=
| PRetry (owner : nat) (cmd : Command) (rest : items)
| PItem (rest : items)
| PQuiesce
| PLast.

(** What [drain_replies] returns to. *)
Inductive dret : Type :=
| DPump (r : pret)
| DReply (src from : nat) (rep : Reply) (r : pret).

Inductive wpc : Type :=
| WItem (rest : items)
| WLocal (rest : items)
| WPush (owner : nat) (cmd : Command) (rest : items)
| WPump (src : nat) (r : pret)
| WCount (src : nat) (r : pret)
| WReply (src from : nat) (rep : Reply) (r : pret)
| WDrain (src : nat) (d : dret)
| WDone
| WLoadSent (all_done : bool)
| WLoadApplied (all_done : bool) (snt : Z)
| WExit.

Definition after_pump (r : pret) : wpc :=
  match r with
  | PRetry owner cmd rest => WPush owner cmd rest
  | PItem rest => WItem rest
  | PQuiesce => WDone
  | PLast => WExit
  end.

Definition after_drain (d : dret) : wpc :=
  match d with
  | DPump r => after_pump r
  | DReply src from rep r => WReply src from rep r
  end.

(** [struct Worker]: its thread, its shard, its resolved gets; [log] records
    for the theorems who wrote what to the shard, in order. *)
Record Worker : Type := mkWorker {
  pc : wpc;
  shard : gmap bytes bytes;
  inflight : gmap Z (option bytes);
  log : list (nat * (bytes * bytes))
}.

Section mesh.
Context {CC CR : Type} `{!Channel Command CC, !Channel Reply CR}.

(** [struct MeshShared], the two matrices and the workers. *)
Record Mesh : Type := mkMesh {
  n : nat;
  mask : Z;
  sent : Z;
  applied : Z;
  phase1_done : Z;
  cmd : gmap (nat * nat) CC;
  reply : gmap (nat * nat) CR;
  workers : list Worker
}.

(** [grid] and the loop that fills it: a channel per pair. *)
Definition grid {A} (k : nat) (c : A) : gmap (nat * nat) A :=
  list_to_map ((λ p, (p, c)) <$> list_prod (seq 0 k) (seq 0 k)).

(** [run_put_workload] up to the start of the threads; [workload] yields the
    items of a worker. *)
Definition run_put_workload (requested : Z) (workload : nat → nat → items) : Mesh :=
  let k := Z.to_nat (next_power_of_two (Z.max requested 1)) in
  mkMesh k (wsub (Z.of_nat k) 1) 0 0 0 (grid k (ch_new 4096)) (grid k (ch_new 4096))
    ((λ id, mkWorker (WItem (workload id k)) ∅ ∅ []) <$> seq 0 k).

Definition set_worker (m : Mesh) (t : nat) (w : Worker) : Mesh :=
  mkMesh (n m) (mask m) (sent m) (applied m) (phase1_done m) (cmd m) (reply m)
    (<[t := w]> (workers m)).
Definition set_pc (w : Worker) (p : wpc) : Worker := mkWorker p (shard w) (inflight w) (log w).
Definition set_cmd (m : Mesh) (ij : nat * nat) (c : CC) : Mesh :=
  mkMesh (n m) (mask m) (sent m) (applied m) (phase1_done m) (<[ij := c]> (cmd m)) (reply m)
    (workers m).
Definition set_reply (m : Mesh) (ij : nat * nat) (c : CR) : Mesh :=
  mkMesh (n m) (mask m) (sent m) (applied m) (phase1_done m) (cmd m) (<[ij := c]> (reply m))
    (workers m).
Definition set_counts (m : Mesh) (s a p : Z) : Mesh :=
  mkMesh (n m) (mask m) s a p (cmd m) (reply m) (workers m).

(** [self.shard.insert(key, val)]. *)
Definition shard_insert (src : nat) (k v : bytes) (w : Worker) : Worker :=
  mkWorker (pc w) (<[k := v]> (shard w)) (inflight w) (log w ++ [(src, (k, v))]).

(** A call on queue [ij], unless a lagging load makes it fail. *)
Definition push_cmd (lag : bool) (ij : nat * nat) (v : Command) (m : Mesh)
    : res (option Command * Mesh) :=
  c ←r or_err Panic (cmd m !! ij);
  if lag then Ok (Some v, m) else '(o, c) ←r ch_push v c; Ok (o, set_cmd m ij c).
Definition pop_cmd (lag : bool) (ij : nat * nat) (m : Mesh) : res (option Command * Mesh) :=
  c ←r or_err Panic (cmd m !! ij);
  if lag then Ok (None, m) else '(o, c) ←r ch_pop c; Ok (o, set_cmd m ij c).
Definition push_reply (lag : bool) (ij : nat * nat) (v : Reply) (m : Mesh)
    : res (option Reply * Mesh) :=
  c ←r or_err Panic (reply m !! ij);
  if lag then Ok (Some v, m) else '(o, c) ←r ch_push v c; Ok (o, set_reply m ij c).
Definition pop_reply (lag : bool) (ij : nat * nat) (m : Mesh) : res (option Reply * Mesh) :=
  c ←r or_err Panic (reply m !! ij);
  if lag then Ok (None, m) else '(o, c) ←r ch_pop c; Ok (o, set_reply m ij c).

(** One step of worker [id], not yet exited: its new state and the mesh. *)
Definition worker_step (id : nat) (lag : bool) (w : Worker) (m : Mesh) : res (Worker * Mesh) :=
  match pc w with
  | WItem [] =>
    Ok (set_pc w (WPump 0 PQuiesce), set_counts m (sent m) (applied m) (wadd (phase1_done m) 1))
  | WItem ((k, v) :: rest) =>
    let owner := route k (mask m) in
    let m' := set_counts m (wadd (sent m) 1) (applied m) (phase1_done m) in
    if (owner =? id)%nat
    then Ok (set_pc (shard_insert id k v w) (WLocal rest), m')
    else Ok (set_pc w (WPush owner (CPut k v) rest), m')
  | WLocal rest =>
    Ok (set_pc w (WPump 0 (PItem rest)),
        set_counts m (sent m) (wadd (applied m) 1) (phase1_done m))
  | WPush owner c rest =>
    '(o, m) ←r push_cmd lag (id, owner) c m;
    match o with
    | None => Ok (set_pc w (WPump 0 (PItem rest)), m)
    | Some c => Ok (set_pc w (WPump 0 (PRetry owner c rest)), m)
    end
  | WPump src r =>
    if (src <? n m)%nat then
      '(o, m) ←r pop_cmd lag (src, id) m;
      match o with
      | None => Ok (set_pc w (WPump (S src) r), m)
      | Some (CPut k v) => Ok (set_pc (shard_insert src k v w) (WCount src r), m)
      | Some (CGet k from tok) =>
        Ok (set_pc w (WReply src from (mkReply tok (shard w !! k)) r), m)
      end
    else Ok (set_pc w (WDrain 0 (DPump r)), m)
  | WCount src r =>
    Ok (set_pc w (WPump src r), set_counts m (sent m) (wadd (applied m) 1) (phase1_done m))
  | WReply src from rep r =>
    '(o, m) ←r push_reply lag (id, from) rep m;
    match o with
    | None => Ok (set_pc w (WCount src r), m)
    | Some rep => Ok (set_pc w (WDrain 0 (DReply src from rep r)), m)
    end
  | WDrain src d =>
    if (src <? n m)%nat then
      '(o, m) ←r pop_reply lag (src, id) m;
      match o with
      | None => Ok (set_pc w (WDrain (S src) d), m)
      | Some rep =>
        Ok (mkWorker (WDrain src d) (shard w) (<[token rep := r_val rep]> (inflight w)) (log w), m)
      end
    else Ok (set_pc w (after_drain d), m)
  | WDone => Ok (set_pc w (WLoadSent (phase1_done m =? Z.of_nat (n m))), m)
  | WLoadSent b => Ok (set_pc w (WLoadApplied b (sent m)), m)
  | WLoadApplied b snt =>
    Ok (set_pc w (WPump 0 (if b && (snt =? applied m) then PLast else PQuiesce)), m)
  | WExit => Ok (w, m)
  end.

(** [None]: no such worker, or it has exited. *)
Definition step (id : nat) (lag : bool) (m : Mesh) : option (res Mesh) :=
  match workers m !! id with
  | Some w =>
    match pc w with
    | WExit => None
    | _ => Some ('(w, m) ←r worker_step id lag w m; Ok (set_worker m id w))
    end
  | None => None
  end.

Fixpoint run_steps (sched : list (nat * bool)) (m : Mesh) : option (res Mesh) :=
  match sched with
  | [] => Some (Ok m)
  | (id, lag) :: sched =>
    match step id lag m with
    | Some (Ok m') => run_steps sched m'
    | o => o
    end
  end.

(** [Mesh::shutdown] joins the workers and returns [applied]. *)
Definition all_exited (m : Mesh) : Prop := ∀ t w, workers m !! t = Some w → pc w = WExit.
Definition shutdown_result (m : Mesh) : Z := applied m.
Definition num_shards (m : Mesh) : nat := n m.

Inductive reachable (requested : Z) (workload : nat → nat → items) : Mesh → Prop :=
| reach_start : reachable requested workload (run_put_workload requested workload)
| reach_step m id lag m' :
    reachable requested workload m → step id lag m = Some (Ok m') →
    reachable requested workload m'.

End mesh.
Arguments Mesh : clear implicits.
