(* ===== verification/MeshInv.v ===== *)
(** * MeshInv: the invariant of the put workload

    Each put is in exactly one place: not yet started by its worker, in its
    hand, in the queue to its owner, or in the owner's log; the three shared
    counters count these places. [mesh_inv_step] shows that every step keeps the
    invariant, does not fault, and either does some of the work left or only
    moves a program counter. *)

From stdpp Require Import functions.
From S2P Require Import Prelude Channel Mesh.
Local Open Scope Z_scope.
Local Open Scope zkv_scope.

(** ** Sums over workers and queues *)

Lemma sum_insert {A} (f : A → nat) l i x y :
  l !! i = Some x → (sum_list_with f (<[i := y]> l) + f x = sum_list_with f l + f y)%nat.
Proof.
  revert i. induction l as [|z l IH]; intros [|i] Hi; simpl in *; simplify_eq; [lia|].
  specialize (IH i Hi). lia.
Qed.

Lemma sum_lookup {A} (f : A → nat) l i x :
  l !! i = Some x → (f x ≤ sum_list_with f l)%nat.
Proof.
  revert i. induction l as [|z l IH]; intros [|i] Hi; simpl in *; simplify_eq; [lia|].
  specialize (IH i Hi). lia.
Qed.

Lemma sum_fn_insert {A B} `{EqDecision A} (g : B → nat) (F : A → B) l x v :
  NoDup l → x ∈ l →
  (sum_list_with (λ a, g (<[x := v]> F a)) l + g (F x) = sum_list_with (λ a, g (F a)) l + g v)%nat.
Proof.
  induction 1 as [|y l Hy Hl IH]; intros Hx; [by apply elem_of_nil in Hx|]. simpl.
  destruct (decide (x = y)) as [-> | Hne].
  - rewrite fn_lookup_insert.
    assert (sum_list_with (λ a, g (<[y := v]> F a)) l = sum_list_with (λ a, g (F a)) l) as ->; [|lia].
    clear IH Hx. induction l as [|z l IH]; simpl; [done|]. apply not_elem_of_cons in Hy as [? ?].
    apply NoDup_cons in Hl as [_ ?]. rewrite fn_lookup_insert_ne by done. auto.
  - rewrite fn_lookup_insert_ne by done. apply elem_of_cons in Hx as [?|Hx]; [done|].
    specialize (IH Hx). lia.
Qed.

(** ** What a program counter still owes *)

Definition cmd_items (c : Command) : items :=
  match c with
  | CPut k v => [(k, v)]
  | CGet _ _ _ => []
  end.

Definition ret_phase1 (r : pret) : bool :=
  match r with PRetry _ _ _ | PItem _ => true | _ => false end.
Definition ret_rest (r : pret) : items :=
  match r with PRetry _ _ rest | PItem rest => rest | _ => [] end.
Definition ret_hand (r : pret) : items :=
  match r with PRetry _ c _ => cmd_items c | _ => [] end.

Definition ret_of (p : wpc) : pret :=
  match p with
  | WItem rest | WLocal rest => PItem rest
  | WPush o c rest => PRetry o c rest
  | WPump _ r | WCount _ r | WReply _ _ _ r | WDrain _ (DPump r) | WDrain _ (DReply _ _ _ r) => r
  | WDone | WLoadSent _ | WLoadApplied _ _ => PQuiesce
  | WExit => PLast
  end.

Definition phase1 (p : wpc) : nat := if ret_phase1 (ret_of p) then 1 else 0.
Definition unstarted (p : wpc) : items := ret_rest (ret_of p).
Definition hand (p : wpc) : items := ret_hand (ret_of p).
Definition uncounted (p : wpc) : nat := match p with WLocal _ | WCount _ _ => 1 | _ => 0 end.

Definition ret_ok (mask : Z) (id : nat) (r : pret) : Prop :=
  match r with
  | PRetry owner c _ => ∃ k v, c = CPut k v ∧ route k mask = owner ∧ owner ≠ id
  | _ => True
  end.

(** The put workload sends no gets, so no worker is inside a reply. *)
Definition pc_ok (mask : Z) (id : nat) (p : wpc) : Prop :=
  ret_ok mask id (ret_of p) ∧
  match p with WReply _ _ _ _ | WDrain _ (DReply _ _ _ _) => False | _ => True end.

Definition pairs (k : nat) : list (nat * nat) := list_prod (seq 0 k) (seq 0 k).
Definition queued (k : nat) (Q : nat * nat → list Command) : nat :=
  sum_list_with (λ ij, length (Q ij)) (pairs k).

(** Entries of a log written on behalf of [i]; items that go to [j]. *)
Definition from_src (i : nat) (l : list (nat * (bytes * bytes))) : items :=
  (filter (λ e, e.1 = i) l).*2.
Definition routed (mask : Z) (j : nat) (l : items) : items :=
  filter (λ kv, route kv.1 mask = j) l.

#[global] Arguments routed : simpl never.
#[global] Arguments from_src : simpl never.

Definition apply_puts (l : items) : gmap bytes bytes := foldl (λ M kv, <[kv.1 := kv.2]> M) ∅ l.

Section invariant.
Context {CC CR : Type} `{!Channel Command CC, !Channel Reply CR}.

Definition total (p : wpc → nat) (m : Mesh CC CR) : nat := sum_list_with (λ w, p (pc w)) (workers m).
(** A shard is its log replayed, and every entry has a sender. *)
Definition shard_ok (k : nat) (w : Worker) : Prop :=
  shard w = apply_puts (log w).*2 ∧ Forall (λ e, (e.1 < k)%nat) (log w).

(** What the loads of the quiescence check establish. *)
Definition load_ok (m : Mesh CC CR) (p : wpc) : Prop :=
  match p with
  | WLoadSent true => phase1_done m = Z.of_nat (n m)
  | WLoadApplied true x => phase1_done m = Z.of_nat (n m) ∧ x = sent m
  | _ => ret_of p = PLast → phase1_done m = Z.of_nat (n m) ∧ applied m = sent m
  end.

Record Inv (k cap : nat) (work : nat → items) (m : Mesh CC CR) (Q : nat * nat → list Command) : Prop :=
  mkInv {
  i_n : n m = k;
  i_route : ∀ key, (route key (mask m) < k)%nat;
  i_workers : length (workers m) = k;
  i_cmd : ∀ i j, (i < k)%nat → (j < k)%nat → ∃ c, cmd m !! (i, j) = Some c ∧ ch_rep c cap (Q (i, j));
  i_reply : ∀ i j, (i < k)%nat → (j < k)%nat → ∃ c cp, reply m !! (i, j) = Some c ∧ ch_rep c cp [];
  i_puts : ∀ ij c, c ∈ Q ij → ∃ key v, c = CPut key v;
  i_self : ∀ i, Q (i, i) = [];
  i_pc : ∀ t w, workers m !! t = Some w → pc_ok (mask m) t (pc w);
  i_flow : ∀ i j wi wj, workers m !! i = Some wi → workers m !! j = Some wj →
    from_src i (log wj) ++ (Q (i, j) ≫= cmd_items)
      ++ routed (mask m) j (hand (pc wi) ++ unstarted (pc wi)) = routed (mask m) j (work i);
  i_shard : ∀ t w, workers m !! t = Some w → shard_ok k w;
  i_sent : sent m + Z.of_nat (total (λ p, length (unstarted p)) m)
    = Z.of_nat (sum_list_with (λ i, length (work i)) (seq 0 k));
  i_applied : applied m + Z.of_nat (total uncounted m + queued k Q
    + total (λ p, length (hand p)) m) = sent m;
  i_phase : phase1_done m + Z.of_nat (total phase1 m) = Z.of_nat k;
  i_load : ∀ t w, workers m !! t = Some w → load_ok m (pc w);
  i_nonneg : 0 ≤ applied m ∧ 0 ≤ sent m ∧ 0 ≤ phase1_done m
}.

(** How worker [t] passing from [w] to [w'] may change the rest. *)
Lemma inv_update k cap work m Q t w w' m' Q' :
  Inv k cap work m Q → workers m !! t = Some w →
  n m' = n m → mask m' = mask m → workers m' = <[t := w']> (workers m) →
  (∀ i j, (i < k)%nat → (j < k)%nat → ∃ c, cmd m' !! (i, j) = Some c ∧ ch_rep c cap (Q' (i, j))) →
  (∀ i j, (i < k)%nat → (j < k)%nat → ∃ c cp, reply m' !! (i, j) = Some c ∧ ch_rep c cp []) →
  (∀ ij c, c ∈ Q' ij → ∃ key v, c = CPut key v) → (∀ i, Q' (i, i) = []) →
  pc_ok (mask m) t (pc w') → shard_ok k w' →
  (∀ i j wi wj, <[t := w']> (workers m) !! i = Some wi → <[t := w']> (workers m) !! j = Some wj →
    from_src i (log wj) ++ (Q' (i, j) ≫= cmd_items)
      ++ routed (mask m) j (hand (pc wi) ++ unstarted (pc wi)) = routed (mask m) j (work i)) →
  sent m' + Z.of_nat (length (unstarted (pc w'))) = sent m + Z.of_nat (length (unstarted (pc w))) →
  applied m' + Z.of_nat (uncounted (pc w') + queued k Q' + length (hand (pc w'))) - sent m'
    = applied m + Z.of_nat (uncounted (pc w) + queued k Q + length (hand (pc w))) - sent m →
  phase1_done m' + Z.of_nat (phase1 (pc w')) = phase1_done m + Z.of_nat (phase1 (pc w)) →
  sent m ≤ sent m' → applied m ≤ applied m' → phase1_done m ≤ phase1_done m' →
  (load_ok m (pc w) → load_ok m' (pc w')) →
  Inv k cap work m' Q'.
Proof.
  intros [Hn Hro Hw Hc Hr Hp Hse0 Hpc Hf Hs Hse Ha Hph Hl (H0a & H0b & H0c)] Ht En Em Ew Hc' Hr' Hp' Hse0' Hpc' Hs' Hf'
    Es Ea Ep Ls La Lp Hl'.
  assert (Hsum : ∀ f, (total f m' + f (pc w) = total f m + f (pc w'))%nat).
  { intros f. unfold total. rewrite Ew. by apply (sum_insert (λ w, f (pc w))). }
  pose proof (Hsum uncounted) as S1. pose proof (Hsum phase1) as S2.
  pose proof (Hsum (λ p, length (unstarted p))) as S3. pose proof (Hsum (λ p, length (hand p))) as S4.
  simpl in S3, S4.
  assert (Hse' : sent m' + Z.of_nat (total (λ p, length (unstarted p)) m')
    = Z.of_nat (sum_list_with (λ i, length (work i)) (seq 0 k))) by lia.
  assert (Ha' : applied m' + Z.of_nat (total uncounted m' + queued k Q'
    + total (λ p, length (hand p)) m') = sent m') by lia.
  assert (Hph' : phase1_done m' + Z.of_nat (total phase1 m') = Z.of_nat k) by lia.
  (* once everyone has announced, nothing is unstarted *)
  assert (Hq : phase1_done m = Z.of_nat k → phase1_done m' = Z.of_nat k ∧ sent m' = sent m).
  { intros Hk. split; [lia|].
    assert (phase1 (pc w) = 0%nat) as Hz.
    { pose proof (sum_lookup (λ w, phase1 (pc w)) _ _ _ Ht). unfold total in Hph. simpl in *. lia. }
    assert (length (unstarted (pc w)) = 0%nat); [|lia].
    unfold unstarted. unfold phase1 in Hz. by destruct (ret_of (pc w)). }
  split; rewrite ?En, ?Em, ?Ew; try done; try lia.
  - by rewrite length_insert.
  - intros t' w0 [(<- & <- & _)|[_ H]]%list_lookup_insert_Some; auto.
  - intros t' w0 [(<- & <- & _)|[_ H]]%list_lookup_insert_Some; eauto.
  - intros t' w0 [(<- & <- & _)|[Hne H]]%list_lookup_insert_Some; [eauto|].
    specialize (Hl _ _ H). unfold load_ok in *. rewrite En, Hn in *.
    destruct (pc w0) as [| | | | | | | |[]|[]|]; try (intros Hlast; specialize (Hl Hlast));
      try (destruct Hl as [? ?]); try (destruct Hq; [assumption|]; lia); tauto.
Qed.

(** A step that leaves queues, log and items to send as they are. *)
Lemma inv_quiet k cap work m Q t w w' m' :
  Inv k cap work m Q → workers m !! t = Some w →
  n m' = n m → mask m' = mask m → workers m' = <[t := w']> (workers m) →
  (∀ i j, (i < k)%nat → (j < k)%nat → ∃ c, cmd m' !! (i, j) = Some c ∧ ch_rep c cap (Q (i, j))) →
  (∀ i j, (i < k)%nat → (j < k)%nat → ∃ c cp, reply m' !! (i, j) = Some c ∧ ch_rep c cp []) →
  log w' = log w → shard w' = shard w → pc_ok (mask m) t (pc w') →
  hand (pc w') ++ unstarted (pc w') = hand (pc w) ++ unstarted (pc w) →
  sent m' + Z.of_nat (length (unstarted (pc w'))) = sent m + Z.of_nat (length (unstarted (pc w))) →
  applied m' + Z.of_nat (uncounted (pc w') + length (hand (pc w'))) - sent m'
    = applied m + Z.of_nat (uncounted (pc w) + length (hand (pc w))) - sent m →
  phase1_done m' + Z.of_nat (phase1 (pc w')) = phase1_done m + Z.of_nat (phase1 (pc w)) →
  sent m ≤ sent m' → applied m ≤ applied m' → phase1_done m ≤ phase1_done m' →
  (load_ok m (pc w) → load_ok m' (pc w')) →
  Inv k cap work m' Q.
Proof.
  intros HI Ht En Em Ew Hc Hr El Esh Hpc Epe Es Ea Ep Ls La Lp Hl.
  eapply (inv_update k cap work m Q t w w'); try done; [apply HI|apply HI| | |lia].
  - unfold shard_ok. rewrite Esh, El. by apply (i_shard _ _ _ _ _ HI t).
  - assert (Hsame : ∀ i x, <[t := w']> (workers m) !! i = Some x → ∃ y, workers m !! i = Some y ∧
      log x = log y ∧ hand (pc x) ++ unstarted (pc x) = hand (pc y) ++ unstarted (pc y)).
    { intros i x [(<- & <- & _)|[_ H]]%list_lookup_insert_Some; eauto. }
    intros i j wi wj (yi & Hi & _ & Ei)%Hsame (yj & Hj & Ej & _)%Hsame. rewrite Ei, Ej.
    by apply (i_flow _ _ _ _ _ HI).
Qed.

Lemma cmd_update (k cap : nat) (c0 : gmap (nat * nat) CC) (Q : nat * nat → list Command) ij c' q' :
  (∀ i j, (i < k)%nat → (j < k)%nat → ∃ c, c0 !! (i, j) = Some c ∧ ch_rep c cap (Q (i, j))) →
  ch_rep c' cap q' →
  ∀ i j, (i < k)%nat → (j < k)%nat →
    ∃ c, <[ij := c']> c0 !! (i, j) = Some c ∧ ch_rep c cap (<[ij := q']> Q (i, j)).
Proof.
  intros H Hr i j Hi Hj. destruct (decide (ij = (i, j))) as [-> | Hne].
  - rewrite lookup_insert_eq, fn_lookup_insert. eauto.
  - rewrite lookup_insert_ne, fn_lookup_insert_ne by done. auto.
Qed.

Lemma cmd_keep (k cap : nat) (c0 : gmap (nat * nat) CC) (Q : nat * nat → list Command) ij c' :
  (∀ i j, (i < k)%nat → (j < k)%nat → ∃ c, c0 !! (i, j) = Some c ∧ ch_rep c cap (Q (i, j))) →
  ch_rep c' cap (Q ij) →
  ∀ i j, (i < k)%nat → (j < k)%nat →
    ∃ c, <[ij := c']> c0 !! (i, j) = Some c ∧ ch_rep c cap (Q (i, j)).
Proof.
  intros H Hr i j Hi Hj. destruct (decide (ij = (i, j))) as [-> | Hne].
  - rewrite lookup_insert_eq. eauto.
  - rewrite lookup_insert_ne by done. auto.
Qed.

Lemma pairs_elem k i j : (i < k)%nat → (j < k)%nat → (i, j) ∈ pairs k.
Proof.
  intros Hi Hj. apply list_elem_of_In, in_prod; apply in_seq; lia.
Qed.

Lemma pairs_NoDup k : NoDup (pairs k).
Proof.
  unfold pairs. rewrite <- list_cprod_list_prod. apply NoDup_bind.
  - intros i i' p _ _ (j & -> & _)%list_elem_of_fmap (j' & [= -> _] & _)%list_elem_of_fmap. done.
  - intros i _. apply NoDup_fmap; [intros a b; congruence|apply NoDup_seq].
  - apply NoDup_seq.
Qed.

Lemma queued_update k (Q : nat * nat → list Command) ij q :
  ij ∈ pairs k → (queued k (<[ij := q]> Q) + length (Q ij) = queued k Q + length q)%nat.
Proof. intros Hij. unfold queued. apply (sum_fn_insert length); [apply pairs_NoDup|done]. Qed.

Lemma from_src_app i l l' : from_src i (l ++ l') = from_src i l ++ from_src i l'.
Proof. unfold from_src. by rewrite filter_app, fmap_app. Qed.

Lemma from_src_one i j kv : from_src i [(j, kv)] = if decide (j = i) then [kv] else [].
Proof. unfold from_src. rewrite filter_cons, filter_nil. simpl. by destruct (decide (j = i)). Qed.

Lemma routed_app mk j l l' : routed mk j (l ++ l') = routed mk j l ++ routed mk j l'.
Proof. apply filter_app. Qed.

Lemma routed_cons mk j k v l :
  routed mk j ((k, v) :: l) = (if decide (route k mk = j) then [(k, v)] else []) ++ routed mk j l.
Proof. unfold routed. rewrite filter_cons. simpl. by destruct (decide (route k mk = j)). Qed.

Lemma apply_puts_snoc l k v : apply_puts (l ++ [(k, v)]) = <[k := v]> (apply_puts l).
Proof. unfold apply_puts. by rewrite foldl_app. Qed.

Lemma shard_ok_insert k src key v w p :
  shard_ok k w → (src < k)%nat → shard_ok k (set_pc (shard_insert src key v w) p).
Proof.
  intros [Hs Hl] Hlt. split; simpl.
  - rewrite fmap_app. simpl. by rewrite apply_puts_snoc, Hs.
  - apply Forall_app. split; [done|]. by constructor.
Qed.

Context `{!ChannelLaws Command CC, !ChannelLaws Reply CR}.

(** Counter arithmetic once the program counters are known. *)
Ltac solve_counts := unfold unstarted, hand, phase1; cbn; lia.

(** [put] on the own shard. *)
Lemma inv_local k cap work m Q t w key v rest :
  Inv k cap work m Q → workers m !! t = Some w → pc w = WItem ((key, v) :: rest) →
  route key (mask m) = t →
  Inv k cap work
    (set_worker (set_counts m (sent m + 1) (applied m) (phase1_done m)) t
       (set_pc (shard_insert t key v w) (WLocal rest))) Q.
Proof.
  intros HI Ht Hpc Hr. pose proof (i_nonneg _ _ _ _ _ HI).
  assert (Ht' : (t < k)%nat) by (rewrite <- (i_workers _ _ _ _ _ HI); by eapply lookup_lt_Some).
  eapply (inv_update k cap work m Q t w); try done; rewrite ?Hpc; try solve_counts; try apply HI.
  - apply shard_ok_insert; [by apply (i_shard _ _ _ _ _ HI t)|done].
  - set (w' := set_pc (shard_insert t key v w) (WLocal rest)).
    intros i j wi wj [(<- & <- & _)|[Ni Hi]]%list_lookup_insert_Some
      [(<- & <- & _)|[Nj Hj]]%list_lookup_insert_Some; simpl.
    + pose proof (i_flow _ _ _ _ _ HI t t w w Ht Ht) as Hf. rewrite Hpc in Hf.
      rewrite (i_self _ _ _ _ _ HI) in *. cbn in Hf |- *.
      rewrite routed_cons, decide_True in Hf by done.
      by rewrite from_src_app, from_src_one, decide_True, <- Hf, <- app_assoc by done.
    + pose proof (i_flow _ _ _ _ _ HI t j w wj Ht Hj) as Hf. rewrite Hpc in Hf. cbn in Hf |- *.
      by rewrite routed_cons, decide_False in Hf by congruence.
    + rewrite from_src_app, from_src_one, decide_False, app_nil_r by done.
      by apply (i_flow _ _ _ _ _ HI i t wi w).
    + by apply (i_flow _ _ _ _ _ HI i j).
Qed.

(** A command pushed to the queue of its owner. *)
Lemma inv_push k cap work m Q t w owner key v rest c' :
  Inv k cap work m Q → workers m !! t = Some w → pc w = WPush owner (CPut key v) rest →
  route key (mask m) = owner → owner ≠ t →
  ch_rep c' cap (Q (t, owner) ++ [CPut key v]) →
  Inv k cap work
    (set_worker (set_cmd m (t, owner) c') t (set_pc w (WPump 0 (PItem rest))))
    (<[(t, owner) := Q (t, owner) ++ [CPut key v]]> Q).
Proof.
  intros HI Ht Hpc Hr Hne Hc. pose proof (i_nonneg _ _ _ _ _ HI).
  assert (Ht' : (t < k)%nat) by (rewrite <- (i_workers _ _ _ _ _ HI); by eapply lookup_lt_Some).
  assert (Hp : (t, owner) ∈ pairs k) by (apply pairs_elem; [done|]; subst; apply HI).
  pose proof (queued_update k Q (t, owner) (Q (t, owner) ++ [CPut key v]) Hp) as Hq.
  rewrite length_app in Hq. simpl in Hq.
  eapply (inv_update k cap work m Q t w); try done; rewrite ?Hpc; try solve_counts; try apply HI.
  - by apply cmd_update; [apply HI|].
  - intros ij c. destruct (decide (ij = (t, owner))) as [-> | Hn].
    + rewrite fn_lookup_insert. intros [?| ->%list_elem_of_singleton]%elem_of_app; [|eauto].
      by eapply (i_puts _ _ _ _ _ HI).
    + rewrite fn_lookup_insert_ne by done. apply (i_puts _ _ _ _ _ HI).
  - intros i. rewrite fn_lookup_insert_ne by congruence. apply HI.
  - exact (i_shard _ _ _ _ _ HI t w Ht).
  - assert (Hsame : ∀ i x, <[t := set_pc w (WPump 0 (PItem rest))]> (workers m) !! i = Some x →
      ∃ y, workers m !! i = Some y ∧ log x = log y ∧ (i ≠ t → x = y) ∧
        (i = t → x = set_pc w (WPump 0 (PItem rest)))).
    { intros i x [(<- & <- & _)|[? H']]%list_lookup_insert_Some; [by exists w|by exists x]. }
    intros i j wi wj (yi & Hi & _ & Ei & Ei')%Hsame (yj & Hj & Ej & _)%Hsame. rewrite Ej.
    pose proof (i_flow _ _ _ _ _ HI i j yi yj Hi Hj) as Hf.
    destruct (decide (i = t)) as [-> | Ni].
    2:{ rewrite fn_lookup_insert_ne by congruence. by rewrite (Ei Ni). }
    rewrite (Ei' eq_refl). assert (yi = w) as -> by congruence. rewrite Hpc in Hf. cbn in Hf |- *.
    rewrite routed_cons in Hf. destruct (decide (owner = j)) as [-> | Nj].
    + rewrite fn_lookup_insert, bind_app. cbn. rewrite decide_True in Hf by done.
      by rewrite <- Hf, <- !app_assoc.
    + rewrite fn_lookup_insert_ne by congruence. by rewrite decide_False in Hf by congruence.
Qed.

(** A command popped and applied to the shard. *)
Lemma inv_pop k cap work m Q t w src r key v q c' :
  Inv k cap work m Q → workers m !! t = Some w → pc w = WPump src r → (src < k)%nat →
  Q (src, t) = CPut key v :: q → ch_rep c' cap q →
  Inv k cap work
    (set_worker (set_cmd m (src, t) c') t (set_pc (shard_insert src key v w) (WCount src r)))
    (<[(src, t) := q]> Q).
Proof.
  intros HI Ht Hpc Hsrc HQ Hc. pose proof (i_nonneg _ _ _ _ _ HI).
  assert (Ht' : (t < k)%nat) by (rewrite <- (i_workers _ _ _ _ _ HI); by eapply lookup_lt_Some).
  pose proof (queued_update k Q (src, t) q (pairs_elem _ _ _ Hsrc Ht')) as Hq.
  rewrite HQ in Hq. simpl in Hq.
  assert (Hst : src ≠ t) by (intros ->; by rewrite (i_self _ _ _ _ _ HI) in HQ).
  pose proof (i_pc _ _ _ _ _ HI _ _ Ht) as Hok. pose proof (i_load _ _ _ _ _ HI _ _ Ht) as Hld.
  rewrite Hpc in Hok, Hld.
  eapply (inv_update k cap work m Q t w); try done; rewrite ?Hpc; try solve_counts; try apply HI.
  - by apply cmd_update; [apply HI|].
  - intros ij c. destruct (decide (ij = (src, t))) as [-> | Hn].
    + rewrite fn_lookup_insert. intros Hin. apply (i_puts _ _ _ _ _ HI (src, t)). rewrite HQ.
      by apply list_elem_of_further.
    + rewrite fn_lookup_insert_ne by done. apply (i_puts _ _ _ _ _ HI).
  - intros i. rewrite fn_lookup_insert_ne by congruence. apply HI.
  - apply shard_ok_insert; [by apply (i_shard _ _ _ _ _ HI t)|done].
  - set (w' := set_pc (shard_insert src key v w) (WCount src r)).
    assert (Hsame : ∀ i x, <[t := w']> (workers m) !! i = Some x →
      ∃ y, workers m !! i = Some y ∧ hand (pc x) = hand (pc y) ∧ unstarted (pc x) = unstarted (pc y) ∧
        log x = log y ++ if decide (i = t) then [(src, (key, v))] else []).
    { intros i x [(<- & <- & _)|[? H']]%list_lookup_insert_Some.
      - exists w. rewrite decide_True by done. by rewrite Hpc.
      - exists x. by rewrite decide_False, app_nil_r by done. }
    intros i j wi wj (yi & Hi & Eh & Eu & _)%Hsame (yj & Hj & _ & _ & El)%Hsame. rewrite Eh, Eu, El.
    pose proof (i_flow _ _ _ _ _ HI i j yi yj Hi Hj) as Hf. rewrite from_src_app.
    destruct (decide (j = t)) as [-> | Nj].
    2:{ rewrite fn_lookup_insert_ne by congruence. cbn. by rewrite app_nil_r. }
    rewrite from_src_one. destruct (decide (src = i)) as [<- | Ni].
    + rewrite fn_lookup_insert. rewrite HQ in Hf. cbn in Hf. by rewrite <- Hf, <- app_assoc.
    + rewrite fn_lookup_insert_ne by congruence. by rewrite app_nil_r.
Qed.

(** ** One step *)

(** The work left: every step that touches shared state does some of it. *)
Definition owed (p : wpc) : nat :=
  5 * length (unstarted p) + 3 * length (hand p) + uncounted p + phase1 p.
Definition work_left (k : nat) (m : Mesh CC CR) (Q : nat * nat → list Command) : nat :=
  total owed m + 2 * queued k Q.

(** Where a worker goes when it finds nothing to do. *)
Definition idle_next (m : Mesh CC CR) (p : wpc) : wpc :=
  match p with
  | WPush o c rest => WPump 0 (PRetry o c rest)
  | WPump src r => if (src <? n m)%nat then WPump (S src) r else WDrain 0 (DPump r)
  | WDrain src d => if (src <? n m)%nat then WDrain (S src) d else after_drain d
  | WDone => WLoadSent (phase1_done m =? Z.of_nat (n m))
  | WLoadSent b => WLoadApplied b (sent m)
  | WLoadApplied b snt => WPump 0 (if b && (snt =? applied m) then PLast else PQuiesce)
  | p => p
  end.

(** When it finds nothing to do: an empty inbox, a full outbox. *)
Definition idle (cap : nat) (Q : nat * nat → list Command) (m : Mesh CC CR) (t : nat) (p : wpc) : Prop :=
  match p with
  | WPump src _ => (src < n m)%nat → Q (src, t) = []
  | WPush o _ _ => (cap ≤ length (Q (t, o)))%nat
  | WItem _ | WLocal _ | WCount _ _ | WExit => False
  | _ => True
  end.

(** [m'] is [m] with only worker [t] moved on. *)
Definition idled (cap : nat) (lag : bool) (t : nat) (w : Worker) (m m' : Mesh CC CR)
    (Q Q' : nat * nat → list Command) : Prop :=
  Q' = Q ∧ n m' = n m ∧ sent m' = sent m ∧ applied m' = applied m ∧
  phase1_done m' = phase1_done m ∧
  workers m' = <[t := set_pc w (idle_next m (pc w))]> (workers m) ∧
  (lag = false → idle cap Q m t (pc w)).

(** The same for the work left. *)
Ltac solve_owed := unfold owed; solve_counts.

Lemma work_left_update k m m' Q Q' t w w' :
  workers m !! t = Some w → workers m' = <[t := w']> (workers m) →
  (work_left k m' Q' + owed (pc w) + 2 * queued k Q
   = work_left k m Q + owed (pc w') + 2 * queued k Q')%nat.
Proof.
  intros Ht Ew. unfold work_left, total. rewrite Ew.
  pose proof (sum_insert (λ w, owed (pc w)) _ _ _ w' Ht). simpl in *. lia.
Qed.

(** A step that only moves the program counter. *)
Lemma inv_idle k cap work m Q t w m' lag :
  Inv k cap work m Q → workers m !! t = Some w →
  n m' = n m → mask m' = mask m → sent m' = sent m → applied m' = applied m →
  phase1_done m' = phase1_done m →
  workers m' = <[t := set_pc w (idle_next m (pc w))]> (workers m) →
  (∀ i j, (i < k)%nat → (j < k)%nat → ∃ c, cmd m' !! (i, j) = Some c ∧ ch_rep c cap (Q (i, j))) →
  (∀ i j, (i < k)%nat → (j < k)%nat → ∃ c cp, reply m' !! (i, j) = Some c ∧ ch_rep c cp []) →
  pc_ok (mask m) t (idle_next m (pc w)) → uncounted (pc w) = 0%nat →
  ret_of (idle_next m (pc w)) = ret_of (pc w) ∨ (∃ b x, pc w = WLoadApplied b x) →
  (lag = false → idle cap Q m t (pc w)) →
  Inv k cap work m' Q ∧ idled cap lag t w m m' Q Q.
Proof.
  intros HI Ht En Em Es Ea Ep Ew Hc Hr Hpc Hun Hret Hid. split; [|done].
  assert (Hun' : uncounted (idle_next m (pc w)) = 0%nat).
  { destruct (pc w) as [| | | | | |? [[]|]| | | |]; try done; simpl; by destruct (_ <? _)%nat. }
  assert (Hrs : hand (idle_next m (pc w)) = hand (pc w) ∧ unstarted (idle_next m (pc w)) = unstarted (pc w) ∧
    phase1 (idle_next m (pc w)) = phase1 (pc w)).
  { unfold hand, unstarted, phase1. destruct Hret as [-> |(b & x & ->)]; [done|]. simpl.
    by destruct (b && _). }
  destruct Hrs as (Eh & Eu & Eph).
  eapply (inv_quiet k cap work m Q t w); try done; simpl; rewrite ?Eh, ?Eu, ?Eph, ?Hun, ?Hun'; try done; try lia.
  intros Hl. unfold load_ok in *. rewrite En, Es, Ea, Ep.
  destruct (pc w) as [| | | | | |src [r|]| |[]|[]|] eqn:Hw; simpl in *; try done.
  - by destruct (src <? n m)%nat.
  - destruct (src <? n m)%nat; simpl; [done|]. by destruct r.
  - by destruct (src <? n m)%nat.
  - by destruct (Z.eqb_spec (phase1_done m) (Z.of_nat (n m))).
  - destruct Hl as [? ->]. destruct (Z.eqb_spec (sent m) (applied m)); by simpl.
Qed.

Section step.
Context (k cap : nat) (work : nat → items).
Hypothesis (Hk : Z.of_nat k < W64)
  (Hwork : Z.of_nat (sum_list_with (λ i, length (work i)) (seq 0 k)) < W64).

(** The outcome of a step: no fault, the invariant again, and either some work
    done or nothing but the program counter moved. *)
Definition good (t : nat) (lag : bool) (w : Worker) (m : Mesh CC CR) (Q : nat * nat → list Command)
    (r : res (Mesh CC CR)) : Prop :=
  ∃ m' Q', r = Ok m' ∧ Inv k cap work m' Q' ∧
    ((work_left k m' Q' < work_left k m Q)%nat ∨ idled cap lag t w m m' Q Q').

(** A step that does some of the work. *)
Lemma good_work m Q t lag w w' m' Q' :
  workers m !! t = Some w → workers m' = <[t := w']> (workers m) → Inv k cap work m' Q' →
  (owed (pc w') + 2 * queued k Q' < owed (pc w) + 2 * queued k Q)%nat →
  good t lag w m Q (Ok m').
Proof.
  intros Ht Ew HI Hlt. exists m', Q'. split; [done|]. split; [done|]. left.
  pose proof (work_left_update k m m' Q Q' t w w' Ht Ew). lia.
Qed.

Lemma good_idle m Q t lag w m' :
  Inv k cap work m Q → workers m !! t = Some w →
  n m' = n m → mask m' = mask m → sent m' = sent m → applied m' = applied m →
  phase1_done m' = phase1_done m →
  workers m' = <[t := set_pc w (idle_next m (pc w))]> (workers m) →
  (∀ i j, (i < k)%nat → (j < k)%nat → ∃ c, cmd m' !! (i, j) = Some c ∧ ch_rep c cap (Q (i, j))) →
  (∀ i j, (i < k)%nat → (j < k)%nat → ∃ c cp, reply m' !! (i, j) = Some c ∧ ch_rep c cp []) →
  pc_ok (mask m) t (idle_next m (pc w)) → uncounted (pc w) = 0%nat →
  ret_of (idle_next m (pc w)) = ret_of (pc w) ∨ (∃ b x, pc w = WLoadApplied b x) →
  (lag = false → idle cap Q m t (pc w)) → good t lag w m Q (Ok m').
Proof.
  intros HI Ht En Em Es Ea Ep Ew Hc Hr Hpc Hun Hret Hid.
  destruct (inv_idle k cap work m Q t w m' lag) as [HI' Hd]; try done.
  exists m', Q. auto.
Qed.

Lemma counters_small m Q :
  Inv k cap work m Q → 0 ≤ sent m < W64 ∧ 0 ≤ applied m < W64 ∧ 0 ≤ phase1_done m < W64.
Proof. intros HI. destruct (i_nonneg _ _ _ _ _ HI). destruct HI; lia. Qed.

Lemma good_item m Q t lag w rest :
  Inv k cap work m Q → workers m !! t = Some w → pc w = WItem rest →
  good t lag w m Q ('(w, m) ←r worker_step t lag w m; Ok (set_worker m t w)).
Proof.
  intros HI Ht Hpc. unfold worker_step. rewrite Hpc. pose proof (counters_small _ _ HI) as Hc.
  pose proof (i_pc _ _ _ _ _ HI _ _ Ht) as Hok. rewrite Hpc in Hok.
  pose proof (sum_lookup (λ w, length (unstarted (pc w))) _ _ _ Ht) as Hu.
  pose proof (sum_lookup (λ w, phase1 (pc w)) _ _ _ Ht) as Hp. simpl in Hu, Hp. rewrite Hpc in Hu, Hp.
  pose proof (i_sent _ _ _ _ _ HI) as Hs. pose proof (i_phase _ _ _ _ _ HI) as Hph.
  unfold total in Hs, Hph. cbn in Hp.
  destruct rest as [|[key v] rest]; cbn [rbind].
  - eapply (good_work _ Q _ _ _ _ _ Q); [done|reflexivity| |rewrite Hpc; solve_owed].
    rewrite wadd_small by (unfold is_u64; lia).
    eapply (inv_quiet k cap work m Q t w); try done; rewrite ?Hpc; try solve_counts; try apply HI; done.
  - cbn in Hu. rewrite wadd_small by (unfold is_u64; lia).
    destruct (Nat.eqb_spec (route key (mask m)) t) as [Hr|Hr]; cbn [rbind].
    + eapply (good_work _ Q _ _ _ _ _ Q); [done|reflexivity|by apply inv_local|rewrite Hpc; solve_owed].
    + eapply (good_work _ Q _ _ _ _ _ Q); [done|reflexivity| |rewrite Hpc; solve_owed].
      eapply (inv_quiet k cap work m Q t w); try done; rewrite ?Hpc; try solve_counts; try done.
      * apply HI.
      * apply HI.
      * split; [|done]. simpl. eauto.
Qed.

(** [applied.fetch_add(1)] after a command has been served. *)
Lemma good_count m Q t lag w r :
  Inv k cap work m Q → workers m !! t = Some w → uncounted (pc w) = 1%nat →
  ret_of r = ret_of (pc w) → uncounted r = 0%nat → pc_ok (mask m) t r →
  (load_ok m (pc w) → load_ok m r) →
  good t lag w m Q (Ok (set_worker
    (set_counts m (sent m) (wadd (applied m) 1) (phase1_done m)) t (set_pc w r))).
Proof.
  intros HI Ht Hun Hret Hr Hok Hl. pose proof (counters_small _ _ HI) as Hc.
  pose proof (sum_lookup (λ w, uncounted (pc w)) _ _ _ Ht) as Hu. simpl in Hu. rewrite Hun in Hu.
  pose proof (i_applied _ _ _ _ _ HI) as Ha. unfold total in Ha.
  eapply (good_work _ Q _ _ _ _ _ Q); [done|reflexivity| |unfold owed, unstarted, hand, phase1; simpl; rewrite Hret, Hr, Hun; lia].
  rewrite wadd_small by (unfold is_u64; lia).
  eapply (inv_quiet k cap work m Q t w); try done; try apply HI;
    unfold hand, unstarted, phase1; simpl; rewrite ?Hret, ?Hr, ?Hun; try done; try lia.
  intros Hl'. specialize (Hl Hl'). unfold load_ok in *. simpl.
  assert (applied m ≠ sent m) by lia. destruct r as [| | | | | | | |[]|[]|]; try done; tauto.
Qed.

Lemma good_push m Q t lag w owner c rest :
  Inv k cap work m Q → workers m !! t = Some w → pc w = WPush owner c rest →
  good t lag w m Q ('(w, m) ←r worker_step t lag w m; Ok (set_worker m t w)).
Proof.
  intros HI Ht Hpc. unfold worker_step, push_cmd. rewrite Hpc.
  assert (Htk : (t < k)%nat) by (rewrite <- (i_workers _ _ _ _ _ HI); by eapply lookup_lt_Some).
  pose proof (i_pc _ _ _ _ _ HI _ _ Ht) as Hok. rewrite Hpc in Hok.
  destruct Hok as [(key & v & -> & Hr & Hne) _].
  assert (Hok' : (owner < k)%nat) by (subst; apply HI).
  destruct (i_cmd _ _ _ _ _ HI t owner Htk Hok') as (ch & Hch & Hrep). rewrite Hch. cbn [rbind or_err].
  assert (Hrefused : ∀ m', cmd m' = cmd m → n m' = n m → mask m' = mask m → sent m' = sent m →
    applied m' = applied m → phase1_done m' = phase1_done m → reply m' = reply m → workers m' = workers m →
    (lag = false → (cap ≤ length (Q (t, owner)))%nat) →
    good t lag w m Q (Ok (set_worker m' t (set_pc w (WPump 0 (PRetry owner (CPut key v) rest)))))).
  { intros m' Ec En Em Es Ea Ep Er Ew Hf. apply good_idle; try done; simpl; rewrite ?Hpc, ?Ew, ?Ec, ?Er; try done;
      try apply HI.
    - split; [|done]. simpl. eauto.
    - by left. }
  destruct lag; cbn [rbind]; [by apply Hrefused|].
  pose proof (ch_push_ok (CPut key v) ch cap _ Hrep) as Hp.
  destruct (Nat.ltb_spec (length (Q (t, owner))) cap) as [Hlt|Hge].
  - destruct Hp as (c' & Hp & Hrep'). rewrite Hp. cbn [rbind].
    eapply good_work; [done|reflexivity|by apply inv_push|].
    pose proof (queued_update k Q (t, owner) (Q (t, owner) ++ [CPut key v]) (pairs_elem _ _ _ Htk Hok')) as Hq.
    rewrite length_app in Hq. rewrite Hpc. unfold owed, unstarted, hand, phase1. cbn in *. lia.
  - rewrite Hp. cbn [rbind]. apply Hrefused; try done. simpl. by apply insert_id.
Qed.

Lemma good_pump m Q t lag w src r :
  Inv k cap work m Q → workers m !! t = Some w → pc w = WPump src r →
  good t lag w m Q ('(w, m) ←r worker_step t lag w m; Ok (set_worker m t w)).
Proof.
  intros HI Ht Hpc. unfold worker_step, pop_cmd. rewrite Hpc.
  assert (Htk : (t < k)%nat) by (rewrite <- (i_workers _ _ _ _ _ HI); by eapply lookup_lt_Some).
  pose proof (i_pc _ _ _ _ _ HI _ _ Ht) as Hok. rewrite Hpc in Hok. pose proof (i_n _ _ _ _ _ HI) as Hn.
  destruct (Nat.ltb_spec src (n m)) as [Hlt|Hge]; cbn [rbind].
  2:{ apply good_idle; try done; simpl; rewrite ?Hpc; try apply HI; simpl;
        rewrite ?(proj2 (Nat.ltb_ge _ _) Hge); try done; [by left|]. intros _ ?. lia. }
  rewrite Hn in Hlt. destruct (i_cmd _ _ _ _ _ HI src t Hlt Htk) as (ch & Hch & Hrep).
  rewrite Hch. cbn [rbind or_err].
  assert (Hempty : ∀ m', cmd m' = cmd m → n m' = n m → mask m' = mask m → sent m' = sent m →
    applied m' = applied m → phase1_done m' = phase1_done m → reply m' = reply m → workers m' = workers m →
    (lag = false → Q (src, t) = []) →
    good t lag w m Q (Ok (set_worker m' t (set_pc w (WPump (S src) r))))).
  { intros m' Ec En Em Es Ea Ep Er Ew Hf.
    apply good_idle; try done; simpl; rewrite ?Hpc, ?Ew, ?Ec, ?Er; try apply HI; simpl;
      rewrite ?Hn, ?(proj2 (Nat.ltb_lt _ _) Hlt); try done; [by left|]. auto. }
  destruct lag; cbn [rbind]; [by apply Hempty|].
  pose proof (ch_pop_ok ch cap _ Hrep) as Hp. destruct (Q (src, t)) as [|c q] eqn:HQ.
  - rewrite Hp. cbn [rbind]. apply Hempty; try done. simpl. by apply insert_id.
  - destruct Hp as (c' & Hp & Hrep'). rewrite Hp. cbn [rbind].
    destruct (i_puts _ _ _ _ _ HI (src, t) c) as (key & v & ->); [rewrite HQ; apply list_elem_of_here|].
    cbn [rbind]. eapply good_work; [done|reflexivity|by eapply inv_pop|].
    pose proof (queued_update k Q (src, t) q (pairs_elem _ _ _ Hlt Htk)) as Hq. rewrite HQ in Hq.
    rewrite Hpc. unfold owed, unstarted, hand, phase1. cbn in *. lia.
Qed.

Lemma good_drain m Q t lag w src d :
  Inv k cap work m Q → workers m !! t = Some w → pc w = WDrain src d →
  good t lag w m Q ('(w, m) ←r worker_step t lag w m; Ok (set_worker m t w)).
Proof.
  intros HI Ht Hpc. unfold worker_step, pop_reply. rewrite Hpc.
  assert (Htk : (t < k)%nat) by (rewrite <- (i_workers _ _ _ _ _ HI); by eapply lookup_lt_Some).
  pose proof (i_pc _ _ _ _ _ HI _ _ Ht) as Hok. rewrite Hpc in Hok. pose proof (i_n _ _ _ _ _ HI) as Hn.
  destruct d as [r|]; [|by destruct Hok].
  destruct (Nat.ltb_spec src (n m)) as [Hlt|Hge]; cbn [rbind].
  2:{ apply good_idle; try done; simpl; rewrite ?Hpc; try apply HI; simpl;
        rewrite ?(proj2 (Nat.ltb_ge _ _) Hge); simpl; try done.
      - split; [|by destruct r]. destruct Hok as [Hok _]. by destruct r.
      - left. by destruct r. }
  rewrite Hn in Hlt. destruct (i_reply _ _ _ _ _ HI src t Hlt Htk) as (ch & cp & Hch & Hrep).
  rewrite Hch. cbn [rbind or_err].
  assert (Hempty : ∀ m', cmd m' = cmd m → n m' = n m → mask m' = mask m → sent m' = sent m →
    applied m' = applied m → phase1_done m' = phase1_done m → reply m' = reply m → workers m' = workers m →
    good t lag w m Q (Ok (set_worker m' t (set_pc w (WDrain (S src) (DPump r)))))).
  { intros m' Ec En Em Es Ea Ep Er Ew.
    apply good_idle; try done; simpl; rewrite ?Hpc, ?Ew, ?Ec, ?Er; try apply HI; simpl;
      rewrite ?Hn, ?(proj2 (Nat.ltb_lt _ _) Hlt); try done. by left. }
  destruct lag; cbn [rbind]; [by apply Hempty|].
  rewrite (ch_pop_ok ch cp _ Hrep). cbn [rbind]. apply Hempty; try done. simpl. by apply insert_id.
Qed.

(** No step of a reachable mesh faults. *)
Lemma mesh_inv_step m Q t lag r :
  Inv k cap work m Q → step t lag m = Some r →
  ∃ w, workers m !! t = Some w ∧ good t lag w m Q r.
Proof.
  intros HI. unfold step. destruct (workers m !! t) as [w|] eqn:Ht; [|done]. intros Hs.
  exists w. split; [done|].
  pose proof (i_pc _ _ _ _ _ HI _ _ Ht) as Hok. pose proof (i_load _ _ _ _ _ HI _ _ Ht) as Hl.
  destruct (pc w) as [rest|rest|o c rest|src p|src p|src from rep p|src d| |b|b x|] eqn:Hpc; simplify_eq.
  - by eapply good_item.
  - unfold worker_step. rewrite Hpc. cbn [rbind]. apply good_count; rewrite ?Hpc; try done.
  - by eapply good_push.
  - by eapply good_pump.
  - unfold worker_step. rewrite Hpc. cbn [rbind]. apply good_count; rewrite ?Hpc; try done.
  - by destruct Hok.
  - by eapply good_drain.
  - unfold worker_step. rewrite Hpc. cbn [rbind].
    apply good_idle; try done; rewrite ?Hpc; try done; try apply HI. by left.
  - unfold worker_step. rewrite Hpc. cbn [rbind].
    apply good_idle; try done; rewrite ?Hpc; try done; try apply HI. by left.
  - unfold worker_step. rewrite Hpc. cbn [rbind].
    apply good_idle; try done; rewrite ?Hpc; try done; try apply HI.
    + simpl. by destruct (b && _).
    + right. eauto.
Qed.

End step.

(** ** The start *)

Definition mesh_size (requested : Z) : nat := Z.to_nat (next_power_of_two (Z.max requested 1)).
Definition total_items (k : nat) (workload : nat → nat → items) : nat :=
  sum_list_with (λ i, length (workload i k)) (seq 0 k).

(** The shard count fits its word and so does the number of puts. *)
Definition fits (requested : Z) (workload : nat → nat → items) : Prop :=
  requested ≤ 2 ^ 63 ∧ Z.of_nat (total_items (mesh_size requested) workload) < W64.

Lemma mesh_size_pow requested :
  requested ≤ 2 ^ 63 →
  ∃ e, 0 ≤ e < 64 ∧ Z.of_nat (mesh_size requested) = 2 ^ e ∧
    requested ≤ Z.of_nat (mesh_size requested).
Proof.
  intros Hr. destruct (next_power_of_two_pow (Z.max requested 1)) as (e & He & Hp).
  pose proof (next_power_of_two_ge (Z.max requested 1)) as Hge.
  assert (Hle : next_power_of_two (Z.max requested 1) ≤ 2 ^ 63) by (apply next_power_of_two_bound; lia).
  exists e. unfold mesh_size. rewrite Z2Nat.id by lia. split; [|lia].
  split; [done|]. apply pow2_lt_W64. rewrite <- Hp. unfold W64. lia.
Qed.

Lemma route_bound key e : 0 ≤ e → (Z.of_nat (route key (2 ^ e - 1)) < 2 ^ e).
Proof.
  intros He. unfold route. rewrite land_mask by done.
  pose proof (Z.pow_pos_nonneg 2 e ltac:(lia) He).
  rewrite Z2Nat.id; apply Z.mod_pos_bound; lia.
Qed.

Lemma grid_lookup {A} k (c : A) i j : (i < k)%nat → (j < k)%nat → grid k c !! (i, j) = Some c.
Proof.
  intros Hi Hj. unfold grid. apply elem_of_list_to_map.
  - rewrite <- list_fmap_compose. rewrite (list_fmap_ext _ id) by done. rewrite list_fmap_id. apply pairs_NoDup.
  - apply list_elem_of_fmap. exists (i, j). split; [done|]. by apply pairs_elem.
Qed.

Lemma total_start f k (workload : nat → nat → items) m :
  workers m = (λ id, mkWorker (WItem (workload id k)) ∅ ∅ []) <$> seq 0 k →
  total f m = sum_list_with (λ id, f (WItem (workload id k))) (seq 0 k).
Proof.
  intros Hw. unfold total. rewrite Hw. clear. generalize (seq 0 k). intros l.
  induction l as [|x l IH]; [done|]. rewrite fmap_cons. simpl. by rewrite IH.
Qed.

Lemma sum_const {A} (f : A → nat) c l : (∀ x, f x = c) → sum_list_with f l = (c * length l)%nat.
Proof. intros H. induction l as [|x l IH]; simpl; [lia|]. rewrite H, IH. lia. Qed.

Lemma inv_start requested workload :
  requested ≤ 2 ^ 63 →
  let k := mesh_size requested in
  ∃ cap, (2 ≤ cap)%nat ∧
    Inv k cap (λ i, workload i k) (run_put_workload requested workload) (λ _, []).
Proof.
  intros Hr k. destruct (mesh_size_pow requested Hr) as (e & He & Hk & _). fold k in Hk.
  destruct (ch_new_ok (T := Command) (C := CC) 4096) as (cap & Hcap & _ & Hrep); [lia|].
  destruct (ch_new_ok (T := Reply) (C := CR) 4096) as (capr & _ & _ & Hrepr); [lia|].
  pose proof (Z.pow_pos_nonneg 2 e ltac:(lia) ltac:(lia)) as Hpos.
  assert (Hlt : 2 ^ e < W64) by (unfold W64; apply Z.pow_lt_mono_r; lia).
  assert (Hmask : wsub (Z.of_nat k) 1 = 2 ^ e - 1).
  { unfold wsub. rewrite Hk. apply wrap64_small. unfold is_u64. lia. }
  assert (Hw : ∀ t w, ((λ id, mkWorker (WItem (workload id k)) ∅ ∅ []) <$> seq 0 k) !! t = Some w →
    w = mkWorker (WItem (workload t k)) ∅ ∅ []).
  { intros t w. rewrite list_lookup_fmap. destruct (seq 0 k !! t) as [x|] eqn:Hx; [|done].
    apply lookup_seq in Hx as [-> _]. by intros [= <-]. }
  exists cap. split; [done|]. set (m := run_put_workload requested workload).
  assert (Htot : ∀ f, total f m = sum_list_with (λ id, f (WItem (workload id k))) (seq 0 k)).
  { intros f. by apply total_start. }
  split; fold k; try done.
  - intros key. change (mask m) with (wsub (Z.of_nat k) 1). rewrite Hmask. pose proof (route_bound key e ltac:(lia)). lia.
  - unfold m. simpl. by rewrite length_fmap, length_seq.
  - intros i j Hi Hj. eexists. split; [by apply grid_lookup|done].
  - intros i j Hi Hj. eexists _, _. split; [by apply grid_lookup|done].
  - intros ij c Hc. by apply elem_of_nil in Hc.
  - intros t w ->%Hw. by split.
  - intros i j wi wj ->%Hw ->%Hw. done.
  - intros t w ->%Hw. by split.
  - rewrite Htot. reflexivity.
  - rewrite !Htot. unfold m, queued, pairs. simpl.
    rewrite !(sum_const _ 0) by done. lia.
  - rewrite Htot. rewrite (sum_const _ 1) by done. rewrite length_seq. unfold m. simpl. lia.
  - intros t w ->%Hw. done.
Qed.

Lemma mesh_reachable_inv requested workload m :
  fits requested workload → reachable requested workload m →
  ∃ cap Q, (2 ≤ cap)%nat ∧
    Inv (mesh_size requested) cap (λ i, workload i (mesh_size requested)) m Q.
Proof.
  intros [Hr Ht] Hm. induction Hm as [|m id lag m' _ IH Hs].
  - destruct (inv_start requested workload Hr) as (cap & ? & ?). eauto.
  - destruct IH as (cap & Q & Hcap & HI).
    destruct (mesh_size_pow requested Hr) as (e & He & Hk & _).
    assert (Z.of_nat (mesh_size requested) < W64).
    { rewrite Hk. unfold W64. apply Z.pow_lt_mono_r; lia. }
    destruct (mesh_inv_step _ _ _ ltac:(done) Ht _ _ _ _ _ HI Hs) as (w & _ & m1 & Q1 & [= <-] & HI1 & _).
    eauto.
Qed.

End invariant.
