(* ===== verification/MeshSpec.v ===== *)
(** * MeshSpec: what the put workload guarantees

    When a worker leaves its quiescence loop every put has been applied to the
    shard that owns its key; from every state the workers can all finish. *)

From stdpp Require Import functions.
From S2P Require Import Prelude Spsc Channel Mesh MeshInv.
Local Open Scope Z_scope.
Local Open Scope zkv_scope.

Section spec.
Context {CC CR : Type} `{!Channel Command CC, !Channel Reply CR}.
Context `{!ChannelLaws Command CC, !ChannelLaws Reply CR}.

(** ** Quiescence *)

Lemma sum_zero {A} (f : A → nat) l x : sum_list_with f l = 0%nat → x ∈ l → f x = 0%nat.
Proof.
  induction l as [|y l IH]; simpl; intros Hz Hx; [by apply elem_of_nil in Hx|].
  apply elem_of_cons in Hx as [-> |Hx]; [lia|]. apply IH; [lia|done].
Qed.

Lemma total_zero f (m : Mesh CC CR) t w : total f m = 0%nat → workers m !! t = Some w → f (pc w) = 0%nat.
Proof.
  intros Hz Ht. apply (sum_zero (λ w, f (pc w)) (workers m) w Hz). by eapply list_elem_of_lookup_2.
Qed.

Lemma total_owed_zero (m : Mesh CC CR) :
  total owed m = 0%nat → ∀ f, (∀ p, owed p = 0%nat → f p = 0%nat) → total f m = 0%nat.
Proof.
  unfold total. intros Hz f Hf. induction (workers m) as [|w l IH]; simpl in *; [done|].
  rewrite IH, Hf; lia.
Qed.

Lemma queued_zero k Q i j :
  queued k Q = 0%nat → (i < k)%nat → (j < k)%nat → Q (i, j) = [].
Proof.
  intros Hz Hi Hj. apply length_zero_iff_nil.
  by apply (sum_zero (λ ij, length (Q ij)) (pairs k)); [|apply pairs_elem].
Qed.

(** A worker past its check knows that all work is done. *)
Lemma last_finished k cap work (m : Mesh CC CR) Q t w :
  Inv k cap work m Q → workers m !! t = Some w → ret_of (pc w) = PLast → work_left k m Q = 0%nat.
Proof.
  intros HI Ht Hlast. pose proof (i_load _ _ _ _ _ HI _ _ Ht) as Hl.
  assert (Hf : phase1_done m = Z.of_nat (n m) ∧ applied m = sent m).
  { unfold load_ok in Hl. destruct (pc w) as [| | | | | | | |[]|[]|]; try done; auto. }
  rewrite (i_n _ _ _ _ _ HI) in Hf. destruct Hf as [Hp Ha].
  pose proof (i_phase _ _ _ _ _ HI). pose proof (i_applied _ _ _ _ _ HI).
  assert (Ho : ∀ w', w' ∈ workers m → owed (pc w') = 0%nat).
  { intros w' [t' Ht']%list_elem_of_lookup.
    pose proof (total_zero phase1 m t' w' ltac:(lia) Ht') as H1.
    pose proof (total_zero uncounted m t' w' ltac:(lia) Ht') as H2. unfold owed. rewrite H1, H2.
    unfold phase1, unstarted, hand in *. by destruct (ret_of (pc w')). }
  unfold work_left. assert (total owed m = 0%nat) as ->; [|lia].
  unfold total. revert Ho. generalize (workers m). intros l Ho.
  induction l as [|x l IH]; simpl; [done|]. rewrite IH.
  - rewrite Ho by apply list_elem_of_here. lia.
  - intros w' Hw'. apply Ho. by apply list_elem_of_further.
Qed.

(** With no work left every put has reached its shard, in its sender's order. *)
Lemma finished_flow k cap work (m : Mesh CC CR) Q :
  Inv k cap work m Q → work_left k m Q = 0%nat →
  applied m = Z.of_nat (sum_list_with (λ i, length (work i)) (seq 0 k)) ∧
  ∀ i j wj, (i < k)%nat → workers m !! j = Some wj →
    from_src i (log wj) = routed (mask m) j (work i).
Proof.
  intros HI Hz. unfold work_left in Hz.
  assert (Ho : ∀ t w, workers m !! t = Some w → owed (pc w) = 0%nat).
  { intros t w Ht. apply (total_zero owed m t w); [lia|done]. }
  pose proof (total_owed_zero m ltac:(lia)) as Hsum.
  assert (Hpart : ∀ p, owed p = 0%nat → uncounted p = 0%nat ∧ length (hand p) = 0%nat ∧
    length (unstarted p) = 0%nat) by (unfold owed; lia).
  split.
  - pose proof (i_sent _ _ _ _ _ HI) as Hs. pose proof (i_applied _ _ _ _ _ HI) as Ha.
    rewrite (Hsum (λ p, length (unstarted p))) in Hs by (intros p Hp; by apply Hpart).
    rewrite (Hsum uncounted), (Hsum (λ p, length (hand p))) in Ha by (intros p Hp; by apply Hpart).
    lia.
  - intros i j wj Hi Hj.
    assert (Hjk : (j < k)%nat) by (rewrite <- (i_workers _ _ _ _ _ HI); by eapply lookup_lt_Some).
    assert (Hwi : (i < length (workers m))%nat) by (by rewrite (i_workers _ _ _ _ _ HI)).
    apply lookup_lt_is_Some_2 in Hwi as [wi Hwi].
    pose proof (i_flow _ _ _ _ _ HI i j wi wj Hwi Hj) as Hf.
    destruct (Hpart _ (Ho _ _ Hwi)) as (_ & Hh%length_zero_iff_nil & Hu%length_zero_iff_nil).
    rewrite (queued_zero k Q i j), Hh, Hu in Hf by (done || lia).
    cbn in Hf. by rewrite app_nil_r in Hf.
Qed.

(** ** A mesh can always finish *)

Definition reaches (m m' : Mesh CC CR) : Prop := ∃ sched, run_steps sched m = Some (Ok m').

Lemma reaches_refl (m : Mesh CC CR) : reaches m m.
Proof. by exists []. Qed.

Lemma reaches_step t lag (m m1 m2 : Mesh CC CR) : step t lag m = Some (Ok m1) → reaches m1 m2 → reaches m m2.
Proof. intros Hs [sched Hr]. exists ((t, lag) :: sched). simpl. by rewrite Hs. Qed.

Lemma reaches_trans (m1 m2 m3 : Mesh CC CR) : reaches m1 m2 → reaches m2 m3 → reaches m1 m3.
Proof.
  intros [sched Hr] H2. revert m1 Hr. induction sched as [|[t lag] sched IH]; simpl; intros m1 Hr.
  - by simplify_eq.
  - destruct (step t lag m1) as [[m|]|] eqn:Hs; try done. eapply reaches_step; eauto.
Qed.

Section finish.
Context (k cap : nat) (work : nat → items).
Hypothesis (Hk : Z.of_nat k < W64) (Hcap : (2 ≤ cap)%nat)
  (Hwork : Z.of_nat (sum_list_with (λ i, length (work i)) (seq 0 k)) < W64).

Lemma run_one (m : Mesh CC CR) Q t w :
  Inv k cap work m Q → workers m !! t = Some w → pc w ≠ WExit →
  ∃ m' Q', step t false m = Some (Ok m') ∧ Inv k cap work m' Q' ∧
    ((work_left k m' Q' < work_left k m Q)%nat ∨ idled cap false t w m m' Q Q').
Proof.
  intros HI Ht Hne.
  assert (Hs : is_Some (step t false m)).
  { unfold step. rewrite Ht. destruct (pc w); try done; by eexists. }
  destruct Hs as [r Hs].
  destruct (mesh_inv_step k cap work Hk Hwork m Q t false r HI Hs) as (w' & Ht' & m' & Q' & -> & HI' & Hg).
  simplify_eq. eauto.
Qed.

(** Idle steps leave the work where it is. *)
Lemma idle_owed Q (m : Mesh CC CR) t p : idle cap Q m t p → owed (idle_next m p) = owed p.
Proof.
  unfold owed, unstarted, hand, phase1.
  destruct p as [| | | | | |? [[]|]| | | |]; simpl; try done; intros _;
    try (by destruct (_ <? _)%nat); by destruct (_ && _).
Qed.

Definition same_counts (m m' : Mesh CC CR) : Prop :=
  n m' = n m ∧ sent m' = sent m ∧ applied m' = applied m ∧ phase1_done m' = phase1_done m.

(** Run worker [t] alone: as long as [P] holds of its program counter its idle
    steps keep [P] and bring [D] down, so it must do some of the work. *)
Lemma run_until t m0 Q (P : wpc → Prop) (D : wpc → nat) :
  (∀ (m : Mesh CC CR) w, Inv k cap work m Q → same_counts m0 m → workers m !! t = Some w → P (pc w) →
     pc w ≠ WExit ∧ (idle cap Q m t (pc w) →
       P (idle_next m (pc w)) ∧ (D (idle_next m (pc w)) < D (pc w))%nat)) →
  ∀ m w, Inv k cap work m Q → same_counts m0 m → workers m !! t = Some w → P (pc w) →
  ∃ m' Q', reaches m m' ∧ Inv k cap work m' Q' ∧ (work_left k m' Q' < work_left k m Q)%nat.
Proof.
  intros HP m w. remember (D (pc w)) as d eqn:Hd. revert m w Hd.
  induction d as [d IH] using lt_wf_ind. intros m w -> HI Hsame Ht Hp.
  destruct (HP m w HI Hsame Ht Hp) as [Hne Hid].
  destruct (run_one m Q t w HI Ht Hne) as (m' & Q' & Hs & HI' & [Hlt|Hidl]).
  - exists m', Q'. split; [|done]. eapply reaches_step; [done|apply reaches_refl].
  - destruct Hidl as (-> & En & Es & Ea & Ep & Ew & Hi). specialize (Hi eq_refl).
    destruct (Hid Hi) as [Hp' HD].
    assert (Ht' : workers m' !! t = Some (set_pc w (idle_next m (pc w)))).
    { rewrite Ew. apply list_lookup_insert_eq. by eapply lookup_lt_Some. }
    assert (Hsame' : same_counts m0 m') by (unfold same_counts in *; rewrite En, Es, Ea, Ep; done).
    destruct (IH _ HD m' (set_pc w (idle_next m (pc w))) eq_refl HI' Hsame' Ht' Hp')
      as (m2 & Q2 & Hr & HI2 & Hlt).
    exists m2, Q2. split; [by eapply reaches_step|]. split; [done|].
    pose proof (work_left_update k m m' Q Q t w _ Ht Ew) as Hwl. simpl in Hwl.
    rewrite (idle_owed Q m t) in Hwl by done. lia.
Qed.

(** A worker with a command waiting in its inbox comes round to it. *)
Lemma run_inbox (m : Mesh CC CR) Q t w i :
  Inv k cap work m Q → workers m !! t = Some w → (i < k)%nat → Q (i, t) ≠ [] →
  ∃ m' Q', reaches m m' ∧ Inv k cap work m' Q' ∧ (work_left k m' Q' < work_left k m Q)%nat.
Proof.
  intros HI Ht Hi HQ.
  apply (run_until t m Q (λ _, True) (λ p, match p with
    | WPump src _ => if (src <=? i)%nat then i - src else (k - src) + k + i + 12
    | WDrain src _ => (k - src) + i + 10
    | WDone => i + 8
    | WLoadSent _ => i + 7
    | WLoadApplied _ _ | WPush _ _ _ => i + 6
    | _ => 0
    end)%nat) with (w := w); try done.
  clear HI Ht. revert m w. intros m0 w0 m w HI _ Ht _. clear m0 w0.
  assert (Hlast : ret_of (pc w) ≠ PLast).
  { intros Hl. pose proof (last_finished _ _ _ _ _ _ _ HI Ht Hl) as Hz. unfold work_left in Hz.
    apply HQ, (queued_zero k); [lia|done|].
    rewrite <- (i_workers _ _ _ _ _ HI). by eapply lookup_lt_Some. }
  split; [by intros He; rewrite He in Hlast|]. intros Hid. split; [done|].
  pose proof (i_n _ _ _ _ _ HI) as Hn. pose proof (i_pc _ _ _ _ _ HI _ _ Ht) as Hok.
  destruct (pc w) as [| | |src r| | |src [r|]| | | |] eqn:Hpc; simpl in *; rewrite ?Hn in *; try done;
    try (by destruct Hok); try lia.
  - destruct (Nat.ltb_spec src k) as [Hlt|Hge].
    + destruct (Nat.leb_spec src i) as [Hle|Hgt]; destruct (Nat.leb_spec (S src) i); try lia.
      assert (src = i) as -> by lia. by destruct HQ; apply Hid.
    + destruct (Nat.leb_spec src i); lia.
  - destruct (Nat.ltb_spec src k) as [Hlt|Hge]; cbn -[Nat.sub Nat.add]; [lia|]. destruct r; simpl; lia || done.
Qed.

(** With every queue empty a worker that owes something gets it done. *)
Lemma run_owing (m : Mesh CC CR) Q t w :
  Inv k cap work m Q → workers m !! t = Some w → queued k Q = 0%nat → owed (pc w) ≠ 0%nat →
  ∃ m' Q', reaches m m' ∧ Inv k cap work m' Q' ∧ (work_left k m' Q' < work_left k m Q)%nat.
Proof.
  intros HI Ht HQ Ho.
  apply (run_until t m Q (λ p, owed p ≠ 0%nat) (λ p, match p with
    | WPump src _ => (k - src) + k + 4
    | WDrain src _ => (k - src) + 2
    | _ => 0
    end)%nat) with (w := w); try done.
  clear HI Ht Ho. revert m w. intros m0 w0 m w HI _ Ht Ho. clear m0 w0. split; [by intros He; rewrite He in Ho|].
  intros Hid. split; [by rewrite (idle_owed Q m t)|]. pose proof (i_n _ _ _ _ _ HI) as Hn.
  pose proof (i_pc _ _ _ _ _ HI _ _ Ht) as Hok.
  assert (Htk : (t < k)%nat) by (rewrite <- (i_workers _ _ _ _ _ HI); by eapply lookup_lt_Some).
  destruct (pc w) as [| |o c rest|src r| | |src [r|]| | | |] eqn:Hpc; simpl in *; rewrite ?Hn in *; try done;
    try (by destruct Hok); try lia.
  - destruct Hok as [(key & v & _ & Hr & _) _].
    assert (Hok : (o < k)%nat) by (subst; apply HI).
    rewrite (queued_zero k Q t o HQ Htk Hok) in Hid. simpl in Hid. lia.
  - destruct (Nat.ltb_spec src k); lia.
  - destruct (Nat.ltb_spec src k); cbn -[Nat.sub Nat.add]; [lia|]. destruct r; simpl; lia || done.
Qed.
(** With no work left a worker reaches its exit. *)
Definition to_exit (p : wpc) : nat :=
  match p with
  | WExit => 0
  | WDrain src (DPump PLast) => (k - src) + 1
  | WPump src PLast => (k - src) + k + 3
  | WLoadApplied true _ => 2 * k + 5
  | WLoadSent true => 2 * k + 6
  | WDone => 2 * k + 7
  | WDrain src _ => 2 * k + 8 + (k - src)
  | WPump src _ => 3 * k + 10 + (k - src)
  | WLoadApplied false _ => 4 * k + 12
  | WLoadSent false => 4 * k + 13
  | _ => 0
  end.

Lemma to_exit_step (m : Mesh CC CR) Q t w :
  Inv k cap work m Q → workers m !! t = Some w → work_left k m Q = 0%nat → pc w ≠ WExit →
  (to_exit (idle_next m (pc w)) < to_exit (pc w))%nat.
Proof.
  intros HI Ht Hz Hne. pose proof (i_n _ _ _ _ _ HI) as Hn. unfold work_left in Hz.
  assert (Ho : owed (pc w) = 0%nat) by (apply (total_zero owed m t w); [lia|done]).
  pose proof (total_owed_zero m ltac:(lia)) as Hall.
  assert (Hfin : phase1_done m = Z.of_nat k ∧ sent m = applied m).
  { pose proof (i_phase _ _ _ _ _ HI) as Hp. pose proof (i_applied _ _ _ _ _ HI) as Ha.
    rewrite (Hall phase1) in Hp by (unfold owed; lia).
    rewrite (Hall uncounted), (Hall (λ p, length (hand p))) in Ha by (unfold owed; lia). lia. }
  pose proof (i_load _ _ _ _ _ HI _ _ Ht) as Hl. pose proof (i_pc _ _ _ _ _ HI _ _ Ht) as Hok.
  destruct (pc w) as [[]|[]| |src [| | |]| | |src [[| | |]|]| |[]|[] x|] eqn:Hpc; try done;
    try (by destruct Hok); unfold owed, unstarted, hand, phase1 in Ho; simpl in *; rewrite ?Hn in *;
    try lia; try (destruct (Nat.ltb_spec src k); simpl; lia).
  - rewrite (proj1 Hfin), Z.eqb_refl. lia.
  - destruct Hl as [_ ->]. rewrite (proj2 Hfin), Z.eqb_refl. simpl. lia.
Qed.

Definition alive (w : Worker) : nat := match pc w with WExit => 0 | _ => 1 end.

Lemma alive_zero w : alive w = 0%nat ↔ pc w = WExit.
Proof. unfold alive. by destruct (pc w). Qed.

Lemma run_exit (m : Mesh CC CR) Q t w :
  Inv k cap work m Q → workers m !! t = Some w → work_left k m Q = 0%nat →
  ∃ m' w', reaches m m' ∧ Inv k cap work m' Q ∧ work_left k m' Q = 0%nat ∧
    pc w' = WExit ∧ workers m' = <[t := w']> (workers m).
Proof.
  remember (to_exit (pc w)) as d eqn:Hd. revert m w Hd.
  induction d as [d IH] using lt_wf_ind. intros m w -> HI Ht Hz.
  destruct (decide (alive w = 0%nat)) as [He%alive_zero|Hne'].
  { exists m, w. split; [apply reaches_refl|]. by rewrite list_insert_id. }
  rewrite alive_zero in Hne'.
  destruct (run_one m Q t w HI Ht Hne') as (m' & Q' & Hs & HI' & [Hlt|Hidl]); [lia|].
  destruct Hidl as (-> & En & Es & Ea & Ep & Ew & Hi). specialize (Hi eq_refl).
  pose proof (work_left_update k m m' Q Q t w _ Ht Ew) as Hwl. simpl in Hwl.
  rewrite (idle_owed Q m t) in Hwl by done.
  assert (Ht' : workers m' !! t = Some (set_pc w (idle_next m (pc w)))).
  { rewrite Ew. apply list_lookup_insert_eq. by eapply lookup_lt_Some. }
  destruct (IH _ (to_exit_step m Q t w HI Ht Hz Hne') m' (set_pc w (idle_next m (pc w))) eq_refl HI' Ht')
    as (m2 & w2 & Hr & HI2 & Hz2 & He2 & Ew2); [lia|].
  exists m2, w2. split; [by eapply reaches_step|]. split; [done|]. split; [done|]. split; [done|].
  by rewrite Ew2, Ew, list_insert_insert_eq.
Qed.

Lemma run_all_exit (m : Mesh CC CR) Q :
  Inv k cap work m Q → work_left k m Q = 0%nat →
  ∃ m', reaches m m' ∧ all_exited m' ∧ Inv k cap work m' Q ∧ work_left k m' Q = 0%nat.
Proof.
  remember (sum_list_with alive (workers m)) as d eqn:Hd. revert m Hd.
  induction d as [d IH] using lt_wf_ind. intros m -> HI Hz.
  destruct (decide (Forall (λ w, alive w = 0%nat) (workers m))) as [Hall|Hex].
  { exists m. split; [apply reaches_refl|]. split; [|done]. intros t w Ht.
    rewrite Forall_lookup in Hall. by apply alive_zero, (Hall t). }
  apply not_Forall_Exists in Hex; [|apply _]. apply Exists_exists in Hex as (w & [t Ht]%list_elem_of_lookup & Hw).
  destruct (run_exit m Q t w HI Ht Hz) as (m' & w' & Hr & HI' & Hz' & He & Ew).
  pose proof (sum_insert alive (workers m) t w w' Ht) as Hs. rewrite <- Ew in Hs.
  apply alive_zero in He. rewrite He in Hs. simpl in Hw.
  destruct (IH (sum_list_with alive (workers m')) ltac:(lia) m' eq_refl HI' Hz') as (m2 & Hr2 & ?).
  exists m2. split; [by eapply reaches_trans|done].
Qed.

Lemma mesh_finishes (m : Mesh CC CR) Q :
  Inv k cap work m Q →
  ∃ m' Q', reaches m m' ∧ all_exited m' ∧ Inv k cap work m' Q' ∧ work_left k m' Q' = 0%nat.
Proof.
  remember (work_left k m Q) as d eqn:Hd. revert m Q Hd.
  induction d as [d IH] using lt_wf_ind. intros m Q -> HI.
  destruct (decide (work_left k m Q = 0%nat)) as [Hz|Hnz].
  { destruct (run_all_exit m Q HI Hz) as (m' & ?). by exists m', Q. }
  assert (∃ m' Q', reaches m m' ∧ Inv k cap work m' Q' ∧ (work_left k m' Q' < work_left k m Q)%nat)
    as (m1 & Q1 & Hr & HI1 & Hlt).
  { destruct (decide (Forall (λ ij, length (Q ij) = 0%nat) (pairs k))) as [He|Hne].
    - assert (Hq : queued k Q = 0%nat).
      { unfold queued. induction He as [|x l Hx _ IHl]; simpl; [done|]. lia. }
      destruct (decide (Forall (λ w, owed (pc w) = 0%nat) (workers m))) as [Ho|Ho].
      + destruct Hnz. unfold work_left, total. rewrite Hq.
        induction Ho as [|x l Hx _ IHl]; simpl; [done|]. lia.
      + apply not_Forall_Exists in Ho; [|apply _].
        apply Exists_exists in Ho as (w & [t Ht]%list_elem_of_lookup & Hw). by eapply run_owing.
    - apply not_Forall_Exists in Hne; [|apply _].
      apply Exists_exists in Hne as ([i j] & Hij & HQ).
      apply list_elem_of_In, in_prod_iff in Hij as [Hi%in_seq Hj%in_seq].
      assert (Hj' : (j < length (workers m))%nat) by (rewrite (i_workers _ _ _ _ _ HI); lia).
      apply lookup_lt_is_Some_2 in Hj' as [w Hw].
      eapply (run_inbox m Q j w i); [done|done|lia|]. intros He. simpl in HQ. by rewrite He in HQ. }
  destruct (IH _ Hlt m1 Q1 eq_refl HI1) as (m2 & Q2 & Hr2 & ?).
  exists m2, Q2. split; [by eapply reaches_trans|done].
Qed.

End finish.

(** ** What the shards hold *)

Lemma apply_puts_elem l key v : apply_puts l !! key = Some v → (key, v) ∈ l.
Proof.
  induction l as [|[k' v'] l IH] using rev_ind; [done|]. rewrite apply_puts_snoc.
  intros [(-> & ->)|[_ H]]%lookup_insert_Some; apply elem_of_app; [right; apply list_elem_of_here|].
  left. auto.
Qed.

Lemma apply_puts_routed mk j l key :
  route key mk = j → apply_puts (routed mk j l) !! key = apply_puts l !! key.
Proof.
  intros Hr. induction l as [|[k' v'] l IH] using rev_ind; [done|].
  assert (Hsn : routed mk j (l ++ [(k', v')])
    = routed mk j l ++ if decide (route k' mk = j) then [(k', v')] else []).
  { rewrite routed_app, routed_cons. by destruct (decide _). }
  rewrite Hsn, apply_puts_snoc. destruct (decide (route k' mk = j)) as [He|Hne].
  - rewrite apply_puts_snoc. destruct (decide (k' = key)) as [-> | ].
    + by rewrite !lookup_insert_eq.
    + by rewrite !lookup_insert_ne by done.
  - rewrite app_nil_r, IH. rewrite lookup_insert_ne; [done|]. by intros ->.
Qed.

(** The surviving value of a key is the last one some sender gave it. *)
Lemma merged_lookup log key v :
  apply_puts log.*2 !! key = Some v → ∃ i, apply_puts (from_src i log) !! key = Some v.
Proof.
  induction log as [|[i [k' v']] log IH] using rev_ind; [done|].
  rewrite fmap_app. cbn [fmap list_fmap snd]. rewrite apply_puts_snoc.
  intros [(-> & ->)|[Hne H]]%lookup_insert_Some.
  - exists i. rewrite from_src_app, from_src_one, decide_True, apply_puts_snoc by done.
    by rewrite lookup_insert_eq.
  - destruct (IH H) as (i' & Hi'). exists i'. rewrite from_src_app, from_src_one.
    destruct (decide (i = i')); [|by rewrite app_nil_r].
    by rewrite apply_puts_snoc, lookup_insert_ne.
Qed.

Lemma merged_none log key i v :
  apply_puts (from_src i log) !! key = Some v → is_Some (apply_puts log.*2 !! key).
Proof.
  induction log as [|[i' [k' v']] log IH] using rev_ind; [done|].
  rewrite fmap_app, from_src_app, from_src_one. cbn [fmap list_fmap snd]. rewrite apply_puts_snoc.
  destruct (decide (k' = key)) as [-> | Hne]; [rewrite lookup_insert_eq; eauto|].
  rewrite lookup_insert_ne by done. destruct (decide (i' = i)); [|rewrite app_nil_r; auto].
  rewrite apply_puts_snoc, lookup_insert_ne by done. auto.
Qed.

(** ** Properties *)

(** [C11] The put workload is exact. Once some worker of the mesh has left its
    quiescence loop, the count of applied commands is the number of puts of
    all workloads, each shard has applied exactly the puts its keys route to
    it, those of one worker in that worker's order, and a key is found in the
    shard it routes to and nowhere else, with the last value one of the
    workers gave it. *)
Theorem mesh_workload_exact (requested : Z) (workload : nat → nat → items) (m : Mesh CC CR)
    (t : nat) (w : Worker)
    (Hfits : fits requested workload) (Hr : reachable requested workload m)
    (Ht : workers m !! t = Some w) (Hexit : pc w = WExit) :
  let k := mesh_size requested in
  shutdown_result m = Z.of_nat (total_items k workload) ∧
  (∀ i j wj, (i < k)%nat → workers m !! j = Some wj →
     from_src i (log wj) = routed (mask m) j (workload i k)) ∧
  (∀ j wj key v, workers m !! j = Some wj → shard wj !! key = Some v →
     j = route key (mask m) ∧ ∃ i, (i < k)%nat ∧ apply_puts (workload i k) !! key = Some v) ∧
  (∀ i key v, (i < k)%nat → apply_puts (workload i k) !! key = Some v →
     ∃ wj, workers m !! route key (mask m) = Some wj ∧ is_Some (shard wj !! key)).
Proof.
  intros k. destruct (mesh_reachable_inv _ _ _ Hfits Hr) as (cap & Q & _ & HI). fold k in HI.
  assert (Hz : work_left k m Q = 0%nat) by (eapply last_finished; [done..|by rewrite Hexit]).
  destruct (finished_flow _ _ _ _ _ HI Hz) as [Ha Hf]. split; [done|]. split; [done|]. split.
  - intros j wj key v Hj Hs. destruct (i_shard _ _ _ _ _ HI j wj Hj) as [Hsh Hsrc].
    rewrite Hsh in Hs. destruct (merged_lookup _ _ _ Hs) as (i & Hi).
    destruct (decide (i < k)%nat) as [Hik|Hik].
    + rewrite (Hf i j wj Hik Hj) in Hi. pose proof (apply_puts_elem _ _ _ Hi) as Hin.
      apply list_elem_of_filter in Hin as [Hrt _]. simpl in Hrt. split; [done|].
      exists i. split; [done|]. by rewrite <- (apply_puts_routed (mask m) j).
    + apply apply_puts_elem, list_elem_of_fmap in Hi as ([i' kv] & _ & [Hi' Hin]%list_elem_of_filter).
      simpl in Hi'. subst i'. rewrite Forall_forall in Hsrc. by destruct (Hik (Hsrc _ Hin)).
  - intros i key v Hi Hv. assert (Hj : (route key (mask m) < length (workers m))%nat).
    { rewrite (i_workers _ _ _ _ _ HI). apply HI. }
    apply lookup_lt_is_Some_2 in Hj as [wj Hj]. exists wj. split; [done|].
    rewrite (proj1 (i_shard _ _ _ _ _ HI _ wj Hj)). apply (merged_none _ _ i v).
    rewrite (Hf i _ wj Hi Hj). by rewrite apply_puts_routed.
Qed.

(** [C12] No deadlock. From every state a mesh can reach under backpressure, no
    step faults, and there is a schedule on which every worker exits, with all
    puts applied. *)
Theorem mesh_deadlock_free (requested : Z) (workload : nat → nat → items) (m : Mesh CC CR)
    (Hfits : fits requested workload) (Hr : reachable requested workload m) :
  (∀ t lag r, step t lag m = Some r → ∃ m', r = Ok m') ∧
  ∃ sched m', run_steps sched m = Some (Ok m') ∧ all_exited m' ∧
    shutdown_result m' = Z.of_nat (total_items (mesh_size requested) workload).
Proof.
  destruct (mesh_reachable_inv _ _ _ Hfits Hr) as (cap & Q & Hcap & HI). destruct Hfits as [Hreq Htot].
  assert (Hk : Z.of_nat (mesh_size requested) < W64).
  { destruct (mesh_size_pow requested Hreq) as (e & He & -> & _). unfold W64.
    apply Z.pow_lt_mono_r; lia. }
  split.
  - intros t lag r Hs. destruct (mesh_inv_step _ _ _ Hk Htot _ _ _ _ _ HI Hs) as (w & _ & m' & Q' & -> & _). eauto.
  - destruct (mesh_finishes _ _ _ Hk Hcap Htot m Q HI) as (m' & Q' & [sched Hs] & Hex & HI' & Hz).
    exists sched, m'. split; [done|]. split; [done|]. by apply (finished_flow _ _ _ _ _ HI' Hz).
Qed.

Lemma run_reachable_mesh requested workload sched (m m' : Mesh CC CR) :
  reachable requested workload m → run_steps sched m = Some (Ok m') →
  reachable requested workload m'.
Proof.
  revert m. induction sched as [|[t lag] sched IH]; simpl; intros m Hr Hs; [by simplify_eq|].
  destruct (step t lag m) as [[m1|]|] eqn:Hl; try done.
  eapply IH; [|done]. by eapply reach_step.
Qed.

End spec.

(** ** A concrete run over SPSC rings *)

Definition demo_workload (id k : nat) : items :=
  if (id =? 0)%nat then [([1], [10]); ([2], [20]); ([1], [11])] else [([2], [21]); ([3], [30])].

Definition demo_start : Mesh (@Ring Command) (@Ring Reply) := run_put_workload 2 demo_workload.

(** Both workers in turn; [demo_sched] is enough for them to exit. *)
Definition demo_sched : list (nat * bool) :=
  concat (replicate 28 [(0%nat, false); (1%nat, false)])
    ++ replicate 14 (0%nat, false) ++ replicate 15 (1%nat, false).

Definition demo_mesh : Mesh (@Ring Command) (@Ring Reply) :=
  match run_steps demo_sched demo_start with
  | Some (Ok m) => m
  | _ => demo_start
  end.

Lemma demo_mesh_reachable : reachable 2 demo_workload demo_mesh.
Proof.
  apply (run_reachable_mesh _ _ demo_sched demo_start); [apply reach_start|].
  vm_compute. reflexivity.
Qed.

Lemma mesh_workload_exact_witness :
  fits 2 demo_workload ∧ shutdown_result demo_mesh = 5 ∧
  (∀ i key v, (i < 2)%nat → apply_puts (demo_workload i 2) !! key = Some v →
     ∃ wj, workers demo_mesh !! route key (mask demo_mesh) = Some wj ∧ is_Some (shard wj !! key)).
Proof.
  assert (Hf : fits 2 demo_workload) by (split; [lia|reflexivity]).
  destruct (workers demo_mesh !! 0%nat) as [w|] eqn:Hw; [|exfalso; by vm_compute in Hw].
  assert (He : pc <$> workers demo_mesh !! 0%nat = Some WExit) by (vm_compute; reflexivity).
  rewrite Hw in He. simpl in He. injection He as He.
  destruct (mesh_workload_exact 2 demo_workload demo_mesh 0 w Hf demo_mesh_reachable Hw He)
    as (Ha & _ & _ & Hk).
  split; [done|]. split; [exact Ha|exact Hk].
Defined.

Lemma mesh_deadlock_free_witness :
  fits 2 demo_workload ∧ ∃ sched m', run_steps sched demo_start = Some (Ok m') ∧ all_exited m' ∧
    shutdown_result m' = 5.
Proof.
  assert (Hf : fits 2 demo_workload) by (split; [lia|reflexivity]).
  split; [done|]. apply (mesh_deadlock_free 2 demo_workload demo_start Hf (reach_start 2 demo_workload)).
Defined.
