(* ===== verification/Ingress.v ===== *)
(** * Ingress: the request inbox of a service worker

    Models [Ingress] of [crates/zerokv/src/mesh.rs] over the stack of
    [Treiber.v]. [Inbox] lists what the service needs of it; [stack_inbox] is
    the instance, for any allocator that returns a fresh non-null address. An
    operation is given at the moment it takes effect; that a push whose loaded
    head is out of date changes nothing, and that detached nodes belong to the
    consumer, is shown for every interleaving in [Treiber.v]. *)

From S2P Require Import Prelude Treiber.
Local Open Scope Z_scope.
Local Open Scope zkv_scope.

Class Inbox (T I : Type) : Type := {
  ib_new : I;
  (** the list says which weak compare-and-swaps fail for no reason *)
  ib_push : list bool → T → I → res I;
  ib_drain : I → res (list T * I);
  ib_is_null : I → bool;
  ib_rep : I → list T → Prop
}.

Class InboxLaws (T I : Type) `{!Inbox T I} : Prop := {
  ib_new_ok : ib_rep ib_new [];
  ib_push_ok sp v i q : ib_rep i q → ∃ i', ib_push sp v i = Ok i' ∧ ib_rep i' (v :: q);
  ib_drain_ok i q : ib_rep i q → ∃ i', ib_drain i = Ok (q, i') ∧ ib_rep i' [];
  ib_is_null_ok i q : ib_rep i q → ib_is_null i = true ↔ q = []
}.

Section ingress.
Context {T : Type} (alloc : gmap Z (T * Z) → Z).

(** The loop of [Ingress::push]: load the head, link, compare-and-swap. *)
Fixpoint push_loop (sp : list bool) (node : Z) (s : Stack T) : res (Stack T) :=
  match sp with
  | [] => '(ok, s) ←r try_push false node (top s) s; if ok : bool then Ok s else Err OutOfFuel
  | b :: sp => '(ok, s) ←r try_push b node (top s) s; if ok : bool then Ok s else push_loop sp node s
  end.

Definition ingress_push (sp : list bool) (v : T) (s : Stack T) : res (Stack T) :=
  let node := alloc (nodes s) in push_loop sp node (node_alloc node v s).

(** The loop of [Ingress::drain] over the detached chain. *)
Fixpoint drain_loop (fuel : nat) (node : Z) (s : Stack T) (out : list T) : res (list T * Stack T) :=
  if node =? 0 then Ok (out, s)
  else
    match fuel with
    | O => Err OutOfFuel
    | S fuel => '(x, nx, s) ←r unbox node s; drain_loop fuel nx s (out ++ [x])
    end.

Definition ingress_drain (s : Stack T) : res (list T * Stack T) :=
  let '(node, s) := detach s in drain_loop (size (nodes s)) node s [].

#[export] Instance stack_inbox : Inbox T (Stack T) := {
  ib_new := stack_new;
  ib_push := ingress_push;
  ib_drain := ingress_drain;
  ib_is_null s := top s =? 0;
  ib_rep s q := ∃ pub, owned s 0 pub [] (λ _ _, False) ∧ pub.*2 = q
}.

Hypothesis alloc_ok : ∀ ns, alloc ns ≠ 0 ∧ ns !! alloc ns = None.

Lemma push_loop_ok sp node v s pub (priv : Z → T → Prop) :
  owned s 0 pub [] priv → priv node v →
  ∃ s', push_loop sp node s = Ok s' ∧ owned s' 0 ((node, v) :: pub) [] (λ b y, priv b y ∧ b ≠ node).
Proof.
  revert s. induction sp as [|b sp IH]; intros s Ho Hp; simpl.
  - destruct (owned_try_push s 0 pub [] priv false node (top s) v Ho Hp) as (ok & s' & Ht & Ho').
    unfold try_push in *. destruct (o_priv _ _ _ _ _ Ho _ _ Hp) as (_ & (nx & Hl) & _).
    rewrite Hl in *. simpl in *. rewrite Z.eqb_refl in *. simpl in *. injection Ht as <- <-. eauto.
  - destruct (owned_try_push s 0 pub [] priv b node (top s) v Ho Hp) as (ok & s' & -> & Ho').
    simpl. destruct ok; eauto.
Qed.

Lemma chain_size (ns : gmap Z (T * Z)) p l : chain ns p l → NoDup l.*1 → (length l ≤ size ns)%nat.
Proof.
  intros Hc Hn. rewrite <- (length_fmap fst l), <- (size_list_to_set (C := gset Z)) by done.
  rewrite <- size_dom. apply subseteq_size. intros a Ha%elem_of_list_to_set.
  apply elem_of_dom. by apply (chain_addr ns p l a).
Qed.

Lemma drain_loop_ok fuel node s det out (priv : Z → T → Prop) :
  owned s node [] det priv → (length det ≤ fuel)%nat →
  ∃ s', drain_loop fuel node s out = Ok (out ++ det.*2, s') ∧ owned s' 0 [] [] priv.
Proof.
  revert node s det out. induction fuel as [|fuel IH]; intros node s det out Ho Hf.
  - destruct det; [|simpl in Hf; lia]. assert (node = 0) as -> by exact (o_det _ _ _ _ _ Ho). simpl.
    exists s. by rewrite app_nil_r.
  - simpl. destruct (Z.eqb_spec node 0) as [->|Hne].
    + pose proof (proj1 (chain_null _ _ _ (o_det _ _ _ _ _ Ho)) eq_refl) as ->.
      exists s. by rewrite app_nil_r.
    + destruct det as [|[a x] det]; [by destruct (Hne (o_det _ _ _ _ _ Ho))|].
      destruct (owned_unbox _ _ _ _ _ _ _ Ho) as (-> & nx & s' & -> & Ho'). simpl in *.
      destruct (IH nx s' det (out ++ [x])) as (s2 & -> & Ho2); [done|lia|].
      exists s2. by rewrite <- app_assoc.
Qed.

#[export] Instance stack_inbox_laws : InboxLaws T (Stack T).
Proof.
  split; simpl.
  - exists []. split; [apply owned_new|done].
  - intros sp v s q (pub & Ho & <-). destruct (alloc_ok (nodes s)) as [Hnz Hfr].
    pose proof (owned_alloc _ _ _ _ _ _ v Ho Hnz Hfr) as Ha. unfold ingress_push.
    destruct (push_loop_ok sp (alloc (nodes s)) v _ _ _ Ha) as (s' & -> & Ho'); [by right|].
    exists s'. split; [done|]. exists ((alloc (nodes s), v) :: pub). split; [|reflexivity].
    eapply owned_weaken; [exact Ho'|]. naive_solver.
  - intros s q (pub & Ho & <-). unfold ingress_drain.
    destruct (drain_loop_ok (size (nodes s)) (top s) (mkStack (nodes s) 0) pub [] (λ _ _, False))
      as (s' & Hd & Ho'); [by apply (owned_detach s)| |].
    { eapply chain_size; [apply Ho|]. pose proof (o_nodup _ _ _ _ _ Ho) as Hn. by rewrite app_nil_r in Hn. }
    exists s'. split; [exact Hd|]. by exists [].
  - intros s q (pub & Ho & <-). rewrite Z.eqb_eq, (chain_null _ _ _ (o_pub _ _ _ _ _ Ho)).
    split; [by intros ->|]. by intros ?%fmap_nil_inv.
Qed.

End ingress.
