(* ===== verification/Service.v ===== *)
(** * Service: the request service of the mesh

    Models the second half of [crates/zerokv/src/mesh.rs]: the clients of a
    [ServiceHandle] ([put], [get], [get_round_robin], [submit_to] and the wait
    for the completion) and the [ServiceWorker]s with [service_loop],
    [pump_matrix], [collect_replies] and [drain_ingress]. Clients and workers
    are program counters over their accesses to shared state; a label of
    [step] picks one of them. Queues and inboxes come through the [Channel] and
    [Inbox] interfaces.

    [hist] is for the theorems: it records each request with its answer when
    the shard is accessed for it. *)

From S2P Require Import Prelude Channel Ingress Mesh.
Local Open Scope Z_scope.
Local Open Scope zkv_scope.

Inductive ClientOp : Type :=
| OPut (key val : bytes)
| OGet (key : bytes).

#[export] Instance ClientOp_eq_dec : EqDecision ClientOp.
Proof. solve_decision. Defined.

(** [ClientReq]: the operation and its completion, by number. *)
Abbreviation ClientReq := (ClientOp * nat)%type.

(** [ReqCompletion], with the operation it was created for. [r_born] is the
    length of [hist] when it was created and [r_ret] what [wait] returned,
    with the length of [hist] then. *)
Record ReqCompletion : Type := mkReq {
  r_op : ClientOp;
  waiter : nat;
  done : bool;
  value : option bytes;
  r_born : nat;
  r_ret : option (option bytes * nat)
}.

(** ** Workers *)

(** What [pump_matrix] returns to: the loop, or the retry of a forward. *)
Inductive pk : Type :=
| KLoop
| KRetry (owner : nat) (c : Command) (req : nat) (rest : list ClientReq).

(** What [collect_replies] returns to: the end of [pump_matrix], or the retry
    of a reply inside it. *)
Inductive ck : Type :=
| KPumpEnd (progressed : bool) (p : pk)
| KReply (src from : nat) (rep : Reply) (p : pk).

(** What [fulfill] returns to. *)
Inductive fk : Type :=
| KServe (rest : list ClientReq)
| KCollect (src : nat) (c : ck).

(** The accesses of [fulfill]: the value, the flag, the unpark. *)
Inductive stage : Type := FValue | FDone | FUnpark.

Inductive spc : Type :=
| SPump (src : nat) (progressed : bool) (p : pk)
| SReply (src from : nat) (rep : Reply) (p : pk)
| SCollect (src : nat) (progressed : bool) (c : ck)
| SDrain (progressed : bool)
| SServe (reqs : list ClientReq)
| SPush (owner : nat) (c : Command) (req : nat) (rest : list ClientReq)
| SFulfil (st : stage) (req : nat) (val : option bytes) (f : fk)
| SStop (progressed : bool)
| SHead
| SExit.

Record ServiceWorker : Type := mkSWorker {
  spc_of : spc;
  sshard : gmap bytes bytes;
  client_waiters : gmap Z nat;
  next_token : Z
}.

(** ** Clients *)

Inductive cpc : Type :=
| CIdle
| CPush (accept : nat) (op : ClientOp)
| CSpin (req k : nat)
| CCheck (req : nat)
| CPark (req : nat)
| CTake (req : nat).

(** A client thread: where it is, and its park token. *)
Record Client : Type := mkClient {
  cpc_of : cpc;
  park_token : bool
}.

Inductive call : Type :=
| Put (key val : bytes)
| Get (key : bytes)
| GetRoundRobin (key : bytes).

(** ** Queues *)

Section net.
Context {T C : Type} `{!Channel T C}.

(** A call on the queue of a matrix, unless a lagging load makes it fail. *)
Definition net_push (lag : bool) (ij : nat * nat) (v : T) (g : gmap (nat * nat) C)
    : res (option T * gmap (nat * nat) C) :=
  c ←r or_err Panic (g !! ij);
  if lag then Ok (Some v, g) else '(o, c) ←r ch_push v c; Ok (o, <[ij := c]> g).
Definition net_pop (lag : bool) (ij : nat * nat) (g : gmap (nat * nat) C)
    : res (option T * gmap (nat * nat) C) :=
  c ←r or_err Panic (g !! ij);
  if lag then Ok (None, g) else '(o, c) ←r ch_pop c; Ok (o, <[ij := c]> g).
End net.

Section service.
Context {CC CR IB : Type} `{!Channel Command CC, !Channel Reply CR, !Inbox ClientReq IB}.

(** [ServiceShared], the matrices, the workers, the completions and the
    clients. *)
Record Service : Type := mkService {
  sn : nat;
  smask : Z;
  rr : Z;
  stop : bool;
  scmd : gmap (nat * nat) CC;
  sreply : gmap (nat * nat) CR;
  ingress : list IB;
  sworkers : list ServiceWorker;
  reqs : list ReqCompletion;
  clients : list Client;
  hist : list (nat * (ClientOp * option bytes))
}.

(** [MeshService::start], with [c] client threads. *)
Definition start (requested : Z) (c : nat) : Service :=
  let k := Z.to_nat (next_power_of_two (Z.max requested 1)) in
  mkService k (wsub (Z.of_nat k) 1) 0 false (grid k (ch_new 4096)) (grid k (ch_new 4096))
    (replicate k ib_new) (replicate k (mkSWorker (SPump 0 false KLoop) ∅ ∅ 0))
    [] (replicate c (mkClient CIdle false)) [].

Definition set_sworker (s : Service) (t : nat) (w : ServiceWorker) : Service :=
  mkService (sn s) (smask s) (rr s) (stop s) (scmd s) (sreply s) (ingress s)
    (<[t := w]> (sworkers s)) (reqs s) (clients s) (hist s).
Definition set_scmd (s : Service) (g : gmap (nat * nat) CC) : Service :=
  mkService (sn s) (smask s) (rr s) (stop s) g (sreply s) (ingress s) (sworkers s) (reqs s)
    (clients s) (hist s).
Definition set_sreply (s : Service) (g : gmap (nat * nat) CR) : Service :=
  mkService (sn s) (smask s) (rr s) (stop s) (scmd s) g (ingress s) (sworkers s) (reqs s)
    (clients s) (hist s).
Definition set_ingress (s : Service) (t : nat) (i : IB) : Service :=
  mkService (sn s) (smask s) (rr s) (stop s) (scmd s) (sreply s) (<[t := i]> (ingress s))
    (sworkers s) (reqs s) (clients s) (hist s).
Definition set_reqs (s : Service) (rs : list ReqCompletion) : Service :=
  mkService (sn s) (smask s) (rr s) (stop s) (scmd s) (sreply s) (ingress s) (sworkers s) rs
    (clients s) (hist s).
Definition set_client (s : Service) (c : nat) (cl : Client) : Service :=
  mkService (sn s) (smask s) (rr s) (stop s) (scmd s) (sreply s) (ingress s) (sworkers s)
    (reqs s) (<[c := cl]> (clients s)) (hist s).
Definition record (r : nat) (op : ClientOp) (v : option bytes) (s : Service) : Service :=
  mkService (sn s) (smask s) (rr s) (stop s) (scmd s) (sreply s) (ingress s) (sworkers s)
    (reqs s) (clients s) (hist s ++ [(r, (op, v))]).
Definition set_spc (w : ServiceWorker) (p : spc) : ServiceWorker :=
  mkSWorker p (sshard w) (client_waiters w) (next_token w).

Definition set_value (q : ReqCompletion) (v : option bytes) : ReqCompletion :=
  mkReq (r_op q) (waiter q) (done q) v (r_born q) (r_ret q).
Definition set_done (q : ReqCompletion) : ReqCompletion :=
  mkReq (r_op q) (waiter q) true (value q) (r_born q) (r_ret q).

(** [(self.id as u64) << 48 | self.next_token]. *)
Definition make_token (id : nat) (next : Z) : Z :=
  Z.lor (wrap64 (Z.shiftl (Z.of_nat id) 48)) next.

(** For [hist]: the request behind a forwarded get. *)
Definition waiting_for (s : Service) (from : nat) (tok : Z) : option nat :=
  w ← sworkers s !! from; client_waiters w !! tok.

Definition service_after_pump (p : pk) (progressed : bool) : spc :=
  match p with
  | KLoop => SDrain progressed
  | KRetry owner c req rest => SPush owner c req rest
  end.

(** One access of [fulfill] on completion [req]. *)
Definition fulfill (st : stage) (req : nat) (val : option bytes) (f : fk) (s : Service)
    : res (spc * Service) :=
  q ←r or_err UB (reqs s !! req);
  match st with
  | FValue => Ok (SFulfil FDone req val f, set_reqs s (<[req := set_value q val]> (reqs s)))
  | FDone => Ok (SFulfil FUnpark req val f, set_reqs s (<[req := set_done q]> (reqs s)))
  | FUnpark =>
    cl ←r or_err UB (clients s !! waiter q);
    Ok (match f with KServe rest => SServe rest | KCollect src c => SCollect src true c end,
        set_client s (waiter q) (mkClient (cpc_of cl) true))
  end.

(** The body of the loop of [drain_ingress] up to the first shared access. *)
Definition serve (id : nat) (op : ClientOp) (r : nat) (rest : list ClientReq)
    (w : ServiceWorker) (s : Service) : ServiceWorker * Service :=
  match op with
  | OPut k v =>
    let owner := route k (smask s) in
    if (owner =? id)%nat
    then (mkSWorker (SFulfil FValue r None (KServe rest)) (<[k := v]> (sshard w))
            (client_waiters w) (next_token w), record r (OPut k v) None s)
    else (set_spc w (SPush owner (CPut k v) r rest), s)
  | OGet k =>
    let owner := route k (smask s) in
    if (owner =? id)%nat
    then (set_spc w (SFulfil FValue r (sshard w !! k) (KServe rest)),
          record r (OGet k) (sshard w !! k) s)
    else
      let token := make_token id (next_token w) in
      (mkSWorker (SPush owner (CGet k id token) r rest) (sshard w)
         (<[token := r]> (client_waiters w)) (wadd (next_token w) 1), s)
  end.

(** One step of worker [id], not yet exited. *)
Definition sworker_step (id : nat) (lag : bool) (w : ServiceWorker) (s : Service)
    : res (ServiceWorker * Service) :=
  match spc_of w with
  | SPump src progressed p =>
    if (src <? sn s)%nat then
      '(o, g) ←r net_pop lag (src, id) (scmd s);
      let s := set_scmd s g in
      match o with
      | None => Ok (set_spc w (SPump (S src) progressed p), s)
      | Some (CPut k v) =>
        Ok (mkSWorker (SPump src true p) (<[k := v]> (sshard w)) (client_waiters w) (next_token w), s)
      | Some (CGet k from tok) =>
        let val := sshard w !! k in
        Ok (set_spc w (SReply src from (mkReply tok val) p),
            match waiting_for s from tok with Some r => record r (OGet k) val s | None => s end)
      end
    else Ok (set_spc w (SCollect 0 false (KPumpEnd progressed p)), s)
  | SReply src from rep p =>
    '(o, g) ←r net_push lag (id, from) rep (sreply s);
    let s := set_sreply s g in
    match o with
    | None => Ok (set_spc w (SPump src true p), s)
    | Some rep => Ok (set_spc w (SCollect 0 false (KReply src from rep p)), s)
    end
  | SCollect src progressed c =>
    if (src <? sn s)%nat then
      '(o, g) ←r net_pop lag (src, id) (sreply s);
      let s := set_sreply s g in
      match o with
      | None => Ok (set_spc w (SCollect (S src) progressed c), s)
      | Some rep =>
        match client_waiters w !! token rep with
        | Some r =>
          Ok (mkSWorker (SFulfil FValue r (r_val rep) (KCollect src c)) (sshard w)
                (delete (token rep) (client_waiters w)) (next_token w), s)
        | None => Ok (set_spc w (SCollect src true c), s)
        end
      end
    else
      Ok (set_spc w (match c with
                     | KPumpEnd b p => service_after_pump p (b || progressed)
                     | KReply src from rep p => SReply src from rep p
                     end), s)
  | SDrain progressed =>
    i ←r or_err Panic (ingress s !! id);
    '(l, i) ←r ib_drain i;
    Ok (set_spc w (match l with [] => SStop progressed | _ => SServe l end), set_ingress s id i)
  | SServe [] => Ok (set_spc w (SStop true), s)
  | SServe ((op, r) :: rest) => Ok (serve id op r rest w s)
  | SPush owner c r rest =>
    '(o, g) ←r net_push lag (id, owner) c (scmd s);
    let s := set_scmd s g in
    match o with
    | None =>
      Ok (set_spc w (match c with
                     | CPut _ _ => SFulfil FValue r None (KServe rest)
                     | CGet _ _ _ => SServe rest
                     end), s)
    | Some c => Ok (set_spc w (SPump 0 false (KRetry owner c r rest)), s)
    end
  | SFulfil st r val f =>
    '(p, s) ←r fulfill st r val f s;
    Ok (set_spc w p, s)
  | SStop progressed =>
    let quiet := stop s && negb progressed && bool_decide (client_waiters w = ∅) in
    Ok (set_spc w (if quiet then SHead else SPump 0 false KLoop), s)
  | SHead =>
    i ←r or_err Panic (ingress s !! id);
    Ok (set_spc w (if ib_is_null i then SExit else SPump 0 false KLoop), s)
  | SExit => Ok (w, s)
  end.

(** [put], [get] and [get_round_robin] up to the push. *)
Definition accept_of (c : call) (s : Service) : nat * ClientOp * Z :=
  match c with
  | Put k v => (route k (smask s), OPut k v, rr s)
  | Get k => (route k (smask s), OGet k, rr s)
  | GetRoundRobin k => (Z.to_nat (rr s mod Z.of_nat (sn s)), OGet k, wadd (rr s) 1)
  end.

(** The rounds [wait] spins before it parks. *)
Definition SPIN : nat := 2000.

(** One step of client [c] inside [submit_to]. *)
Definition client_step (c : nat) (sp : list bool) (spurious : bool) (cl : Client) (s : Service)
    : option (res Service) :=
  let goto p s := set_client s c (mkClient p (park_token cl)) in
  match cpc_of cl with
  | CIdle => None
  | CPush accept op =>
    Some (
      i ←r or_err Panic (ingress s !! accept);
      let r := length (reqs s) in
      i ←r ib_push sp (op, r) i;
      Ok (goto (CSpin r SPIN)
            (set_reqs (set_ingress s accept i)
               (reqs s ++ [mkReq op c false None (length (hist s)) None]))))
  | CSpin r k =>
    Some (
      match k with
      | O => Ok (goto (CCheck r) s)
      | S k =>
        q ←r or_err UB (reqs s !! r);
        Ok (goto (if done q then CTake r else CSpin r k) s)
      end)
  | CCheck r =>
    Some (
      q ←r or_err UB (reqs s !! r);
      Ok (goto (if done q then CTake r else CPark r) s))
  | CPark r =>
    if park_token cl || spurious
    then Some (Ok (set_client s c (mkClient (CCheck r) false)))
    else None
  | CTake r =>
    Some (
      q ←r or_err UB (reqs s !! r);
      Ok (goto CIdle
            (set_reqs s (<[r := mkReq (r_op q) (waiter q) (done q) None (r_born q)
                                 (Some (value q, length (hist s)))]> (reqs s)))))
  end.

Inductive slabel : Type :=
| LCall (c : nat) (k : call)
| LClient (c : nat) (sp : list bool) (spurious : bool)
| LWorker (id : nat) (lag : bool)
| LStop.

Definition step (l : slabel) (s : Service) : option (res Service) :=
  match l with
  | LCall c k =>
    match clients s !! c with
    | Some (mkClient CIdle tok) =>
      let '(accept, op, rr') := accept_of k s in
      Some (Ok (mkService (sn s) (smask s) rr' (stop s) (scmd s) (sreply s) (ingress s)
        (sworkers s) (reqs s) (<[c := mkClient (CPush accept op) tok]> (clients s)) (hist s)))
    | _ => None
    end
  | LClient c sp spurious =>
    match clients s !! c with
    | Some cl => client_step c sp spurious cl s
    | None => None
    end
  | LWorker id lag =>
    match sworkers s !! id with
    | Some w =>
      match spc_of w with
      | SExit => None
      | _ => Some ('(w, s) ←r sworker_step id lag w s; Ok (set_sworker s id w))
      end
    | None => None
    end
  | LStop =>
    Some (Ok (mkService (sn s) (smask s) (rr s) true (scmd s) (sreply s) (ingress s) (sworkers s)
      (reqs s) (clients s) (hist s)))
  end.

Fixpoint run_labels (ls : list slabel) (s : Service) : option (res Service) :=
  match ls with
  | [] => Some (Ok s)
  | l :: ls =>
    match step l s with
    | Some (Ok s') => run_labels ls s'
    | o => o
    end
  end.

(** No worker has used up the tokens it can tell apart. *)
Definition tokens_left (s : Service) : Prop :=
  Forall (λ w, next_token w < 2 ^ 48) (sworkers s).

Inductive reachable (requested : Z) (c : nat) : Service → Prop :=
| reach_start : reachable requested c (start requested c)
| reach_step s l s' :
    reachable requested c s → tokens_left s → step l s = Some (Ok s') →
    reachable requested c s'.

End service.
Arguments Service : clear implicits.
