(* ===== verification/ServiceInv.v ===== *)
(** * ServiceInv: the invariant of the request service

    Where each request is: in the inbox or the hands of a worker, being
    forwarded, in a command queue, being answered, in a reply queue, being
    fulfilled, or done. The invariant says what every container holds in
    terms of that location, that a waiting token has exactly one message under
    way, and that [hist] is a legal history of a map whose contents are the
    shards. *)

From stdpp Require Import functions.
From S2P Require Import Prelude Channel Ingress Mesh MeshInv Service.
Local Open Scope nat_scope.
Local Open Scope zkv_scope.

(** ** The sequential specification *)

Definition spec_step (op : ClientOp) (m : gmap bytes bytes) : option bytes * gmap bytes bytes :=
  match op with
  | OPut k v => (None, <[k := v]> m)
  | OGet k => (m !! k, m)
  end.

Fixpoint run_spec (ops : list ClientOp) (m : gmap bytes bytes) : list (option bytes) * gmap bytes bytes :=
  match ops with
  | [] => ([], m)
  | op :: ops =>
    let '(v, m) := spec_step op m in
    let '(vs, m) := run_spec ops m in
    (v :: vs, m)
  end.

Abbreviation history := (list (nat * (ClientOp * option bytes))).

Definition replay (h : history) : gmap bytes bytes := (run_spec (h.*2.*1) ∅).2.
Definition legal (h : history) : Prop := (run_spec (h.*2.*1) ∅).1 = h.*2.*2.

Lemma run_spec_snoc ops op m :
  run_spec (ops ++ [op]) m
  = let '(vs, m1) := run_spec ops m in
    let '(v, m2) := spec_step op m1 in (vs ++ [v], m2).
Proof.
  revert m. induction ops as [|o ops IH]; intros m; simpl.
  - by destruct (spec_step op m).
  - destruct (spec_step o m) as [v m1]. rewrite IH. destruct (run_spec ops m1) as [vs m2].
    by destruct (spec_step op m2).
Qed.

Lemma replay_snoc h r op v : replay (h ++ [(r, (op, v))]) = (spec_step op (replay h)).2.
Proof.
  unfold replay. rewrite !fmap_app. simpl. rewrite run_spec_snoc.
  destruct (run_spec h.*2.*1 ∅) as [vs m]. simpl. by destruct (spec_step op m).
Qed.

Lemma legal_snoc h r op v :
  legal h → v = (spec_step op (replay h)).1 → legal (h ++ [(r, (op, v))]).
Proof.
  unfold legal, replay. rewrite !fmap_app. simpl. rewrite run_spec_snoc.
  destruct (run_spec h.*2.*1 ∅) as [vs m]. simpl. intros -> ->. by destruct (spec_step op m).
Qed.

(** ** Where requests are *)

Inductive Loc : Type :=
| LOwn (w : nat)
| LPush (w : nat) (tok : Z)
| LCmd (w o : nat) (tok : Z)
| LRep (w o : nat) (tok : Z)
| LRepQ (w o : nat) (tok : Z)
| LFul (w : nat)
| LDone.

(** The worker and the token that wait for the request's reply. *)
Definition waits (l : Loc) : option (nat * Z) :=
  match l with
  | LPush w t | LCmd w _ t | LRep w _ t | LRepQ w _ t => Some (w, t)
  | _ => None
  end.

(** The worker whose hands it is in. *)
Definition holder (l : Loc) : option nat :=
  match l with
  | LOwn w | LPush w _ | LFul w => Some w
  | LRep _ o _ => Some o
  | _ => None
  end.

(** The shard has not been accessed yet. *)
Definition pre (l : Loc) : bool :=
  match l with
  | LOwn _ | LPush _ _ | LCmd _ _ _ => true
  | _ => false
  end.

Definition pk_hand (p : pk) : list ClientReq :=
  match p with KLoop => [] | KRetry _ _ _ rest => rest end.
Definition pk_push (p : pk) : option (nat * Command) :=
  match p with KLoop => None | KRetry o c _ _ => Some (o, c) end.
Definition ck_pk (c : ck) : pk := match c with KPumpEnd _ p => p | KReply _ _ _ p => p end.
Definition ck_rep (c : ck) : option (nat * Reply) :=
  match c with KPumpEnd _ _ => None | KReply _ from rep _ => Some (from, rep) end.

(** The requests a worker still has to look at. *)
Definition hand (p : spc) : list ClientReq :=
  match p with
  | SPump _ _ p | SReply _ _ _ p => pk_hand p
  | SCollect _ _ c => pk_hand (ck_pk c)
  | SServe l | SPush _ _ _ l => l
  | SFulfil _ _ _ (KServe l) => l
  | SFulfil _ _ _ (KCollect _ c) => pk_hand (ck_pk c)
  | _ => []
  end.

(** The command it is forwarding. *)
Definition pushing (p : spc) : option (nat * Command) :=
  match p with
  | SPump _ _ p | SReply _ _ _ p => pk_push p
  | SCollect _ _ c => pk_push (ck_pk c)
  | SPush o c _ _ => Some (o, c)
  | SFulfil _ _ _ (KCollect _ c) => pk_push (ck_pk c)
  | _ => None
  end.

(** The reply it is sending. *)
Definition replying (p : spc) : option (nat * Reply) :=
  match p with
  | SReply _ from rep _ => Some (from, rep)
  | SCollect _ _ c => ck_rep c
  | SFulfil _ _ _ (KCollect _ c) => ck_rep c
  | _ => None
  end.

(** The completion it is fulfilling. *)
Definition fulfilling (p : spc) : option (stage * nat * option bytes) :=
  match p with
  | SFulfil st r v _ => Some (st, r, v)
  | _ => None
  end.

(** The request a client waits for. *)
Definition client_req (p : cpc) : option nat :=
  match p with
  | CSpin r _ | CCheck r | CPark r | CTake r => Some r
  | _ => None
  end.

(** Tokens of one worker are distinct as long as the counter fits 48 bits. *)
Lemma make_token_inj w j j' :
  (0 ≤ j < 2 ^ 48)%Z → (0 ≤ j' < 2 ^ 48)%Z → make_token w j = make_token w j' → j = j'.
Proof.
  assert (Hlow : ∀ x, (0 ≤ x < 2 ^ 48)%Z → Z.land (make_token w x) (Z.ones 48) = x).
  { intros x Hx. apply Z.bits_inj'. intros i Hi. unfold make_token.
    rewrite Z.land_spec, Z.lor_spec. destruct (Z.lt_ge_cases i 48) as [Hlt|Hge].
    - rewrite Z.ones_spec_low by lia. rewrite andb_true_r. unfold wrap64.
      change W64 with (2 ^ 64)%Z. rewrite Z.mod_pow2_bits_low by lia.
      by rewrite Z.shiftl_spec_low by lia.
    - rewrite Z.ones_spec_high by lia. rewrite andb_false_r. symmetry.
      rewrite <- (Z.mod_small x (2 ^ 48)) by lia. by rewrite Z.mod_pow2_bits_high by lia. }
  intros Hj Hj' Heq. rewrite <- (Hlow j Hj), <- (Hlow j' Hj'). by rewrite Heq.
Qed.

Section invariant.
Context {CC CR IB : Type} `{!Channel Command CC, !Channel Reply CR, !Inbox ClientReq IB}.
Context `{!ChannelLaws Command CC, !ChannelLaws Reply CR, !InboxLaws ClientReq IB}.
Implicit Types (s : Service CC CR IB) (loc : nat → Loc).

Definition has_op s (r : nat) (op : ClientOp) : Prop := ∃ q, reqs s !! r = Some q ∧ r_op q = op.
Definition logged s (r : nat) (v : option bytes) : Prop := ∃ op, (r, (op, v)) ∈ hist s.

Record worker_ok s loc (q : list ClientReq) (w : nat) (wk : ServiceWorker) : Prop := mkWorkerOk {
  w_nodup : NoDup ((q ++ hand (spc_of wk)).*2);
  w_hand : ∀ op r, (op, r) ∈ q ++ hand (spc_of wk) →
    loc r = LOwn w ∧ has_op s r op ∧ (∀ k v, op = OPut k v → route k (smask s) = w);
  w_push : ∀ o c, pushing (spc_of wk) = Some (o, c) →
    ∃ key tok r, c = CGet key w tok ∧ o = route key (smask s) ∧ loc r = LPush w tok ∧
      has_op s r (OGet key);
  w_rep : ∀ from rep, replying (spc_of wk) = Some (from, rep) →
    from < sn s ∧ ∃ r, loc r = LRep from w (token rep) ∧ logged s r (r_val rep);
  w_ful : ∀ st r v, fulfilling (spc_of wk) = Some (st, r, v) → is_Some (reqs s !! r) ∧
    (st ≠ FUnpark → loc r = LFul w ∧ logged s r v) ∧
    (st = FDone → value <$> reqs s !! r = Some v);
  w_wait : ∀ tok r, client_waiters wk !! tok = Some r ↔ waits (loc r) = Some (w, tok);
  w_tok : ∀ tok r, client_waiters wk !! tok = Some r →
    ∃ j, (0 ≤ j < next_token wk)%Z ∧ tok = make_token w j;
  w_next : (0 ≤ next_token wk)%Z
}.

Definition cmd_ok s loc (i j : nat) (q : list Command) : Prop :=
  NoDup q ∧ ∀ c, c ∈ q → ∃ key tok r, c = CGet key i tok ∧ j = route key (smask s) ∧
    loc r = LCmd i j tok ∧ has_op s r (OGet key).

Definition rep_ok s loc (i j : nat) (q : list Reply) : Prop :=
  NoDup q ∧ ∀ rep, rep ∈ q → ∃ r, loc r = LRepQ j i (token rep) ∧ logged s r (r_val rep).

(** Requests and history. *)
Record hist_ok s loc : Prop := mkHistOk {
  h_fresh : ∀ r, length (reqs s) ≤ r → loc r = LDone;
  h_nodup : NoDup (hist s).*1;
  h_op : ∀ r op v, (r, (op, v)) ∈ hist s → has_op s r op;
  h_unlog : ∀ r, pre (loc r) = true → r ∉ (hist s).*1;
  h_legal : legal (hist s);
  h_done : ∀ r q, reqs s !! r = Some q → done q = true ↔ loc r = LDone;
  h_val : ∀ r q, reqs s !! r = Some q → done q = true → r_ret q = None → logged s r (value q);
  h_ret : ∀ r q v e, reqs s !! r = Some q → r_ret q = Some (v, e) →
    ∃ i, i < e ∧ hist s !! i = Some (r, (r_op q, v));
  h_notret : ∀ r q, reqs s !! r = Some q → done q = false → r_ret q = None;
  h_age : ∀ r q, reqs s !! r = Some q → r_born q ≤ length (hist s);
  h_born : ∀ i r x q, hist s !! i = Some (r, x) → reqs s !! r = Some q → r_born q ≤ i
}.

Definition shard_ok s : Prop :=
  ∀ key w wk, sworkers s !! w = Some wk → route key (smask s) = w →
    sshard wk !! key = replay (hist s) !! key.

(** An unpark of request [r] is still to come. *)
Definition unparking s (r : nat) : Prop :=
  ∃ w wk v f, sworkers s !! w = Some wk ∧ spc_of wk = SFulfil FUnpark r v f.

Record cli_ok s : Prop := mkCliOk {
  c_waiter : ∀ r q, reqs s !! r = Some q → waiter q < length (clients s);
  c_req : ∀ c cl r, clients s !! c = Some cl → client_req (cpc_of cl) = Some r →
    ∃ q, reqs s !! r = Some q ∧ waiter q = c ∧ r_ret q = None ∧
      (cpc_of cl = CTake r → done q = true) ∧
      (cpc_of cl = CPark r → done q = true → park_token cl = true ∨ unparking s r);
  c_accept : ∀ c cl a op, clients s !! c = Some cl → cpc_of cl = CPush a op →
    a < sn s ∧ ∀ k v, op = OPut k v → route k (smask s) = a
}.

Definition net_rep {T C} `{!Channel T C} (k cap : nat) (g : gmap (nat * nat) C)
    (Q : nat * nat → list T) : Prop :=
  ∀ i j, i < k → j < k → ∃ c, g !! (i, j) = Some c ∧ ch_rep c cap (Q (i, j)).

Record SInv (capc capr : nat) s loc (QI : nat → list ClientReq) (QC : nat * nat → list Command)
    (QR : nat * nat → list Reply) : Prop := mkSInv {
  v_route : ∀ key, route key (smask s) < sn s;
  v_workers : length (sworkers s) = sn s;
  v_cmd : net_rep (sn s) capc (scmd s) QC;
  v_reply : net_rep (sn s) capr (sreply s) QR;
  v_in : ∀ w, w < sn s → ∃ i, ingress s !! w = Some i ∧ ib_rep i (QI w);
  v_w : ∀ w wk, sworkers s !! w = Some wk → worker_ok s loc (QI w) w wk;
  v_cq : ∀ i j, cmd_ok s loc i j (QC (i, j));
  v_rq : ∀ i j, rep_ok s loc i j (QR (i, j));
  v_hist : hist_ok s loc;
  v_shard : shard_ok s;
  v_cli : cli_ok s
}.

(** ** Queues *)

Lemma net_push_ok {T C} `{!Channel T C, !ChannelLaws T C} (k cap : nat) (g : gmap (nat * nat) C)
    (Q : nat * nat → list T) (lag : bool) (i j : nat) (v : T) :
  net_rep k cap g Q → i < k → j < k →
  (net_push lag (i, j) v g = Ok (Some v, g) ∧ (lag = false → cap ≤ length (Q (i, j)))) ∨
  ∃ g', net_push lag (i, j) v g = Ok (None, g') ∧ net_rep k cap g' (<[(i, j) := Q (i, j) ++ [v]]> Q).
Proof.
  intros HN Hi Hj. destruct (HN i j Hi Hj) as (c & Hc & Hrep). unfold net_push. rewrite Hc. simpl.
  destruct lag; [by left|]. pose proof (ch_push_ok v c cap (Q (i, j)) Hrep) as Hp.
  destruct (Nat.ltb_spec (length (Q (i, j))) cap).
  - destruct Hp as (c' & -> & Hrep'). right. eexists. split; [reflexivity|]. intros i' j' Hi' Hj'.
    destruct (decide ((i', j') = (i, j))) as [[= -> ->]|Hne].
    + exists c'. by rewrite lookup_insert_eq, fn_lookup_insert.
    + rewrite lookup_insert_ne, fn_lookup_insert_ne by congruence. by apply HN.
  - rewrite Hp. left. simpl. by rewrite insert_id.
Qed.

Lemma net_pop_ok {T C} `{!Channel T C, !ChannelLaws T C} (k cap : nat) (g : gmap (nat * nat) C)
    (Q : nat * nat → list T) (lag : bool) (i j : nat) :
  net_rep k cap g Q → i < k → j < k →
  (net_pop lag (i, j) g = Ok (None, g) ∧ (lag = false → Q (i, j) = [])) ∨
  ∃ v q g', Q (i, j) = v :: q ∧ net_pop lag (i, j) g = Ok (Some v, g') ∧
    net_rep k cap g' (<[(i, j) := q]> Q).
Proof.
  intros HN Hi Hj. destruct (HN i j Hi Hj) as (c & Hc & Hrep). unfold net_pop. rewrite Hc. simpl.
  destruct lag; [by left|]. pose proof (ch_pop_ok c cap (Q (i, j)) Hrep) as Hp.
  destruct (Q (i, j)) as [|v q] eqn:HQ.
  - rewrite Hp. left. simpl. by rewrite insert_id.
  - destruct Hp as (c' & -> & Hrep'). right. eexists v, q, _. split; [done|]. split; [reflexivity|].
    intros i' j' Hi' Hj'. destruct (decide ((i', j') = (i, j))) as [[= -> ->]|Hne].
    + exists c'. by rewrite lookup_insert_eq, fn_lookup_insert.
    + rewrite lookup_insert_ne, fn_lookup_insert_ne by congruence. by apply HN.
Qed.

(** ** Frames *)

(** Later states keep the requests' operations and extend the history. *)
Record ext s s' : Prop := mkExt {
  e_n : sn s' = sn s;
  e_mask : smask s' = smask s;
  e_reqs : ∀ r q, reqs s !! r = Some q → ∃ q', reqs s' !! r = Some q' ∧ r_op q' = r_op q;
  e_hist : hist s `prefix_of` hist s'
}.

Lemma ext_same s s' :
  sn s' = sn s → smask s' = smask s → reqs s' = reqs s → hist s' = hist s → ext s s'.
Proof. intros H1 H2 H3 H4. split; [done|done| |by rewrite H4]. rewrite H3. eauto. Qed.

Lemma has_op_ext s s' r op : ext s s' → has_op s r op → has_op s' r op.
Proof. intros He (q & Hq & <-). destruct (e_reqs _ _ He r q Hq) as (q' & ? & ?). by exists q'. Qed.

Lemma has_op_inj s r key key' : has_op s r (OGet key) → has_op s r (OGet key') → key = key'.
Proof. intros (q & Hq & H1) (q' & Hq' & H2). congruence. Qed.

Lemma logged_ext s s' r v : ext s s' → logged s r v → logged s' r v.
Proof.
  intros He [op Hop]. exists op. destruct (e_hist _ _ He) as [k Hk]. rewrite Hk. apply elem_of_app. by left.
Qed.

Lemma reqs_ext s s' r : ext s s' → is_Some (reqs s !! r) → is_Some (reqs s' !! r).
Proof. intros He [q Hq]. destruct (e_reqs _ _ He r q Hq) as (q' & -> & _). eauto. Qed.

(** A request that did not move, or moved elsewhere from somewhere else. *)
Definition apart loc loc' (u : nat) : Prop :=
  ∀ r, loc' r = loc r ∨
    (holder (loc r) ≠ Some u ∧ ∀ t, waits (loc' r) = Some (u, t) ↔ waits (loc r) = Some (u, t)).

Lemma apart_refl loc u : apart loc loc u.
Proof. intros r. by left. Qed.

Lemma apart_insert loc r X u :
  holder (loc r) ≠ Some u →
  (∀ t, waits X = Some (u, t) ↔ waits (loc r) = Some (u, t)) → apart loc (<[r := X]> loc) u.
Proof.
  intros Hh Hw r'. destruct (decide (r' = r)) as [->|Hne].
  - right. by rewrite fn_lookup_insert.
  - left. by rewrite fn_lookup_insert_ne.
Qed.

Lemma apart_held loc loc' u r l :
  apart loc loc' u → loc r = l → holder l = Some u → loc' r = l.
Proof. intros Ha Hl Hh. destruct (Ha r) as [->|[Hn _]]; [done|]. by rewrite Hl in Hn. Qed.

Lemma worker_frame s s' loc loc' q u wk :
  worker_ok s loc q u wk → ext s s' → apart loc loc' u →
  (∀ r, loc r = LFul u → reqs s' !! r = reqs s !! r) → worker_ok s' loc' q u wk.
Proof.
  intros [Hn Hh Hp Hr Hf Hw Ht Hx] He Ha Hc. pose proof (e_mask _ _ He) as Hm.
  split; try done.
  - intros op r Hin. destruct (Hh op r Hin) as (Hl & Ho & Hrt). rewrite Hm.
    split; [by eapply apart_held|]. split; [by eapply has_op_ext|done].
  - intros o c Hpc. destruct (Hp o c Hpc) as (key & tok & r & -> & -> & Hl & Ho).
    exists key, tok, r. rewrite Hm. split_and!; [done|done|by eapply apart_held|by eapply has_op_ext].
  - intros from rep Hpc. destruct (Hr from rep Hpc) as (Hlt & r & Hl & Ho). rewrite (e_n _ _ He).
    split; [done|]. exists r. split; [by eapply apart_held|by eapply logged_ext].
  - intros st r v Hpc. destruct (Hf st r v Hpc) as (Hs & H1 & H2). split; [by eapply reqs_ext|]. split.
    + intros Hne. destruct (H1 Hne) as [Hl Hlg]. split; [by eapply apart_held|by eapply logged_ext].
    + intros ->. destruct (H1 ltac:(done)) as [Hl _]. rewrite (Hc r Hl). auto.
  - intros tok r. rewrite (Hw tok r). destruct (Ha r) as [->|[_ Hiff]]; [done|]. by rewrite Hiff.
Qed.

Lemma cmd_frame s s' loc loc' i j q :
  cmd_ok s loc i j q → ext s s' → (∀ r t, loc r = LCmd i j t → loc' r = loc r) → cmd_ok s' loc' i j q.
Proof.
  intros [Hn Hq] He Hl. split; [done|]. intros c Hc.
  destruct (Hq c Hc) as (key & tok & r & -> & -> & Hlr & Ho).
  exists key, tok, r. rewrite (e_mask _ _ He), (Hl r tok) by done.
  split_and!; try done. by eapply has_op_ext.
Qed.

Lemma rep_frame s s' loc loc' i j q :
  rep_ok s loc i j q → ext s s' → (∀ r t, loc r = LRepQ j i t → loc' r = loc r) → rep_ok s' loc' i j q.
Proof.
  intros [Hn Hq] He Hl. split; [done|]. intros rep Hr. destruct (Hq rep Hr) as (r & Hlr & Ho).
  exists r. rewrite (Hl r (token rep)) by done. split; [done|by eapply logged_ext].
Qed.

(** The same requests and history, with locations that agree on what counts. *)
Lemma hist_frame s s' loc loc' :
  hist_ok s loc → reqs s' = reqs s → hist s' = hist s →
  (∀ r, pre (loc' r) = true → pre (loc r) = true) → (∀ r, loc' r = LDone ↔ loc r = LDone) →
  hist_ok s' loc'.
Proof.
  intros [Hf Hn Ho Hu Hl Hd Hv Hr Hnr Hg Hb] Er Eh Hp Hdone.
  split; unfold logged, has_op in *; rewrite ?Er, ?Eh; try done.
  - intros r Hr'. by apply Hdone, Hf.
  - intros r Hr'. by apply Hu, Hp.
  - intros r q Hq. by rewrite Hdone, Hd.
Qed.

(** [s1] differs from [s] in its queues and its history only. *)
Record same s s1 : Prop := mkSame {
  m_n : sn s1 = sn s;
  m_mask : smask s1 = smask s;
  m_workers : sworkers s1 = sworkers s;
  m_reqs : reqs s1 = reqs s;
  m_clients : clients s1 = clients s
}.

(** A request is logged once, when the shard is accessed for it. *)
Lemma ext_log s s1 e : same s s1 → hist s1 = hist s ++ [e] → ext s s1.
Proof.
  intros [Hn Hm _ Hr _] Hh. split; [done|done| |by rewrite Hh; apply prefix_app_r].
  rewrite Hr. eauto.
Qed.

Lemma hist_log s s1 loc r op v X :
  hist_ok s loc → has_op s r op → pre (loc r) = true → pre X = false → X ≠ LDone →
  v = (spec_step op (replay (hist s))).1 → same s s1 → hist s1 = hist s ++ [(r, (op, v))] →
  hist_ok s1 (<[r := X]> loc) ∧ logged s1 r v.
Proof.
  intros [Hf Hn Ho Hu Hl Hd Hv Hr Hnr Hg Hb] (q & Hq & Hop) Hpre HX HX' Hval Hsame Hh1.
  pose proof (ext_log s s1 _ Hsame Hh1) as He. destruct Hsame as [_ _ _ Hr1 _].
  assert (Hnew : r ∉ (hist s).*1) by (by apply Hu).
  assert (Hlt : r < length (reqs s)) by (by eapply lookup_lt_Some).
  split; [|exists op; rewrite Hh1; set_solver].
  split; rewrite ?Hr1, ?Hh1.
  - intros r' Hr'. rewrite fn_lookup_insert_ne by lia. auto.
  - rewrite fmap_app. simpl. apply NoDup_app. split; [done|]. split; [|apply NoDup_singleton].
    intros r' Hr' ->%list_elem_of_singleton. done.
  - intros r' op' v' [Hin|Hin%list_elem_of_singleton]%elem_of_app; eapply has_op_ext; try done.
    + by eapply Ho.
    + simplify_eq. by exists q.
  - intros r' Hpre'. destruct (decide (r' = r)) as [->|Hne].
    { rewrite fn_lookup_insert in Hpre'. congruence. }
    rewrite fn_lookup_insert_ne in Hpre' by done. rewrite fmap_app, not_elem_of_app. simpl.
    split; [by apply Hu|]. by intros ?%list_elem_of_singleton.
  - by apply legal_snoc.
  - intros r' q' Hq'. destruct (decide (r' = r)) as [->|Hne].
    + rewrite fn_lookup_insert. rewrite (Hd r q' Hq'). by destruct (loc r).
    + rewrite fn_lookup_insert_ne by done. by apply Hd.
  - intros r' q' Hq' Hd' Hr'. eapply logged_ext; [exact He|by eapply Hv].
  - intros r' q' v' e Hq' Hr'. destruct (Hr r' q' v' e Hq' Hr') as (i & Hi & Hh).
    exists i. split; [done|]. by apply lookup_app_l_Some.
  - done.
  - intros r' q' Hq'. rewrite length_app. pose proof (Hg r' q' Hq'). lia.
  - intros i r' x q' [Hh|[Hge Hh]]%lookup_app_Some Hq'; [by eapply Hb|].
    pose proof (Hg r' q' Hq'). lia.
Qed.

Lemma ext_worker s s1 w wk : ext s s1 → ext s (set_sworker s1 w wk).
Proof. intros [H1 H2 H3 H4]. by split. Qed.

Lemma workers_update s s1 loc loc' QI QI' w wk wk' :
  (∀ u wku, sworkers s !! u = Some wku → worker_ok s loc (QI u) u wku) →
  sworkers s1 = sworkers s → sworkers s !! w = Some wk →
  worker_ok s1 loc' (QI' w) w wk' → ext s s1 →
  (∀ u, u ≠ w → apart loc loc' u ∧ QI' u = QI u) →
  (∀ r u, u ≠ w → loc r = LFul u → reqs s1 !! r = reqs s !! r) →
  ∀ u wku, sworkers (set_sworker s1 w wk') !! u = Some wku →
    worker_ok (set_sworker s1 w wk') loc' (QI' u) u wku.
Proof.
  intros Hall Hws Hw Hok He Ha Hr u wku. simpl. rewrite Hws.
  intros [(-> & <- & _)|(Hne & Hu)]%list_lookup_insert_Some.
  - destruct Hok. by split.
  - destruct (Ha u) as [Hap ->]; [done|].
    apply (worker_frame s _ loc); [auto|by apply ext_worker|done|]. intros r. simpl. by apply Hr.
Qed.

Lemma unparking_keep s s1 w wk wk' r :
  sworkers s1 = sworkers s → sworkers s !! w = Some wk →
  (∀ v f, spc_of wk ≠ SFulfil FUnpark r v f) → unparking s r → unparking (set_sworker s1 w wk') r.
Proof.
  intros Hws Hw Hne (u & wku & v & f & Hu & Hpc). exists u, wku, v, f. split; [|done]. simpl.
  rewrite Hws. rewrite list_lookup_insert_ne; [done|]. intros <-. simplify_eq. by apply (Hne v f).
Qed.

Lemma cli_frame s s' :
  cli_ok s → sn s' = sn s → smask s' = smask s → reqs s' = reqs s → clients s' = clients s →
  (∀ r, unparking s r → unparking s' r) → cli_ok s'.
Proof.
  intros [Hw Hc Ha] Hn Hm Hr Hcl Hu. split; rewrite ?Hr, ?Hcl, ?Hn, ?Hm; try done.
  intros c cl r Hcc Hreq. destruct (Hc c cl r Hcc Hreq) as (q & Hq & Hwq & Hret & Ht & Hp).
  exists q. split_and!; try done. intros Hpark Hd. destruct (Hp Hpark Hd) as [|Hup]; [by left|].
  right. by apply Hu.
Qed.

Section build.
Context (capc capr : nat) (s s1 : Service CC CR IB) (loc loc' : nat → Loc).
Context (QI QI' : nat → list ClientReq) (QC QC' : nat * nat → list Command).
Context (QR QR' : nat * nat → list Reply) (w : nat) (wk : ServiceWorker).
Hypothesis HI : SInv capc capr s loc QI QC QR.
Hypothesis Hw : sworkers s !! w = Some wk.
Hypothesis Hsame : same s s1.
Hypothesis Hcmd : net_rep (sn s) capc (scmd s1) QC'.
Hypothesis Hreply : net_rep (sn s) capr (sreply s1) QR'.
Hypothesis Hin : ∀ u, u < sn s → ∃ i, ingress s1 !! u = Some i ∧ ib_rep i (QI' u).
Hypothesis Hnot : ∀ r v f, spc_of wk ≠ SFulfil FUnpark r v f.

Lemma inv_build wk' :
  ext s s1 → worker_ok s1 loc' (QI' w) w wk' →
  (∀ u, u ≠ w → apart loc loc' u ∧ QI' u = QI u) →
  (∀ i j, cmd_ok s1 loc' i j (QC' (i, j))) → (∀ i j, rep_ok s1 loc' i j (QR' (i, j))) →
  hist_ok s1 loc' → shard_ok (set_sworker s1 w wk') →
  SInv capc capr (set_sworker s1 w wk') loc' QI' QC' QR'.
Proof.
  intros He Hok Hap Hcq Hrq Hh Hsh. destruct Hsame as [Hn Hm Hws Hr Hcl]. pose proof HI as HI0.
  destruct HI0 as [Vroute Vlen _ _ _ Vw _ _ _ _ Vcli]. split; simpl; rewrite ?Hn, ?Hm; try done.
  - rewrite Hws, length_insert. done.
  - eapply workers_update; try done. intros r u _ _. by rewrite Hr.
  - by destruct Hh.
  - apply (cli_frame s); simpl; try done. intros r. eapply unparking_keep; done.
Qed.

(** A step that moves no request and leaves the history alone. *)
Lemma inv_silent p :
  hist s1 = hist s → loc' = loc → QI' = QI → QC' = QC → QR' = QR →
  hand p = hand (spc_of wk) → pushing p = pushing (spc_of wk) →
  replying p = replying (spc_of wk) → fulfilling p = None →
  SInv capc capr (set_sworker s1 w (set_spc wk p)) loc' QI' QC' QR'.
Proof.
  intros Hh El EI EC ER E1 E2 E3 E4. pose proof Hsame as [Hn Hm Hws Hr Hcl].
  assert (He : ext s s1) by (by apply ext_same).
  apply inv_build; rewrite ?El, ?EI, ?EC, ?ER; try done.
  - pose proof (v_w _ _ _ _ _ _ _ HI w wk Hw) as Hok.
    apply (worker_frame s s1 loc loc) in Hok; [|exact He|apply apart_refl|by rewrite Hr].
    destruct Hok as [H1 H2 H3 H4 H5 H6 H7 H8]. split; simpl; rewrite ?E1, ?E2, ?E3, ?E4; done.
  - intros u _. split; [apply apart_refl|done].
  - intros i j. eapply cmd_frame; [apply HI|done|done].
  - intros i j. eapply rep_frame; [apply HI|done|done].
  - eapply hist_frame; [apply HI|done|done|done|done].
  - intros key u wku. simpl. rewrite Hws, Hh, Hm.
    intros [(-> & <- & _)|(Hne & Hu)]%list_lookup_insert_Some; simpl; by apply (v_shard _ _ _ _ _ _ _ HI).
Qed.

End build.

(** A request has one answer. *)
Lemma logged_inj s loc r v v' : hist_ok s loc → logged s r v → logged s r v' → v = v'.
Proof.
  intros Hh [op Hop] [op' Hop']. pose proof (h_nodup _ _ Hh) as Hn.
  apply list_elem_of_lookup in Hop as [i Hi]. apply list_elem_of_lookup in Hop' as [j Hj].
  assert (i = j) as <-; [|congruence].
  eapply NoDup_lookup; [exact Hn| |]; rewrite list_lookup_fmap; [by rewrite Hi|by rewrite Hj].
Qed.

(** ** The moves of a request *)

Lemma ins_keep loc r X r' l : loc r ≠ l → loc r' = l → (<[r := X]> loc) r' = l.
Proof. intros Hne Hl. rewrite fn_lookup_insert_ne; [done|]. by intros ->. Qed.

Lemma hand_rest (q : list ClientReq) op r rest :
  NoDup ((q ++ (op, r) :: rest).*2) →
  NoDup ((q ++ rest).*2) ∧ ∀ op' r', (op', r') ∈ q ++ rest → r' ≠ r.
Proof.
  rewrite !fmap_app. simpl. intros (N1 & N2 & N3)%NoDup_app. apply NoDup_cons in N3 as [N3 N4]. split.
  - apply NoDup_app. split; [done|]. split; [|done]. intros x Hx Hx'. apply (N2 x Hx). by right.
  - intros op' r' [Hin|Hin]%elem_of_app ->.
    + apply (N2 r); [|by left]. apply list_elem_of_fmap. by exists (op', r).
    + apply N3. apply list_elem_of_fmap. by exists (op', r).
Qed.

Section moves.
Context (capc capr : nat) (s : Service CC CR IB) (loc : nat → Loc).
Context (QI : nat → list ClientReq) (QC : nat * nat → list Command).
Context (QR : nat * nat → list Reply) (w : nat) (wk : ServiceWorker).
Hypothesis HI : SInv capc capr s loc QI QC QR.
Hypothesis Hw : sworkers s !! w = Some wk.

Lemma worker_lt u wku : sworkers s !! u = Some wku → u < sn s.
Proof. intros Hu%lookup_lt_Some. by rewrite (v_workers _ _ _ _ _ _ _ HI) in Hu. Qed.

Lemma worker_at u : u < sn s → ∃ wku, sworkers s !! u = Some wku.
Proof. intros Hu. apply lookup_lt_is_Some_2. by rewrite (v_workers _ _ _ _ _ _ _ HI). Qed.

(** Two requests never wait on one token. *)
Lemma waits_inj u t r r' :
  u < sn s → waits (loc r) = Some (u, t) → waits (loc r') = Some (u, t) → r = r'.
Proof.
  intros Hu H1 H2. destruct (worker_at u Hu) as [wku Hwu].
  pose proof (v_w _ _ _ _ _ _ _ HI u wku Hwu) as Hok.
  apply (w_wait _ _ _ _ _ Hok) in H1, H2. congruence.
Qed.

Lemma shard_same s1 wk' :
  same s s1 → replay (hist s1) = replay (hist s) → sshard wk' = sshard wk →
  shard_ok (set_sworker s1 w wk').
Proof.
  intros [Hn Hm Hws Hr Hcl] Hh Hs key u wku. simpl. rewrite Hws, Hh, Hm.
  intros [(-> & <- & _)|(Hne & Hu)]%list_lookup_insert_Some; simpl; [rewrite Hs|];
    by apply (v_shard _ _ _ _ _ _ _ HI).
Qed.

(** [pump_matrix] takes a forwarded get and reads the shard. *)
Lemma inv_pop_cmd src progressed p c q g :
  spc_of wk = SPump src progressed p → src < sn s → QC (src, w) = c :: q →
  net_rep (sn s) capc g (<[(src, w) := q]> QC) →
  ∃ key tok r loc', c = CGet key src tok ∧ waiting_for (set_scmd s g) src tok = Some r ∧
    SInv capc capr
      (set_sworker (record r (OGet key) (sshard wk !! key) (set_scmd s g)) w
         (set_spc wk (SReply src src (mkReply tok (sshard wk !! key)) p)))
      loc' QI (<[(src, w) := q]> QC) QR.
Proof.
  intros Hpc Hsrc HQ Hg. pose proof (v_cq _ _ _ _ _ _ _ HI src w) as [Hnd Hq]. rewrite HQ in Hnd, Hq.
  apply NoDup_cons in Hnd as [Hnc Hnd].
  destruct (Hq c) as (key & tok & r & -> & Hrt & Hl & Hop); [apply list_elem_of_here|].
  exists key, tok, r, (<[r := LRep src w tok]> loc). split; [done|].
  destruct (worker_at src Hsrc) as [wks Hws].
  pose proof (v_w _ _ _ _ _ _ _ HI src wks Hws) as Hsok.
  split. { unfold waiting_for. simpl. rewrite Hws. simpl. apply (w_wait _ _ _ _ _ Hsok). by rewrite Hl. }
  set (val := sshard wk !! key). set (s1 := record r (OGet key) val (set_scmd s g)).
  assert (Hs1 : same s s1) by done.
  assert (He : ext s s1) by (by eapply ext_log).
  destruct (hist_log s s1 loc r (OGet key) val (LRep src w tok)) as [Hh Hlog]; try done;
    [apply HI|by rewrite Hl| |].
  { exact (v_shard _ _ _ _ _ _ _ HI key w wk Hw (eq_sym Hrt)). }
  assert (Hap : ∀ u, apart loc (<[r := LRep src w tok]> loc) u).
  { intros u. apply apart_insert; rewrite Hl; done. }
  assert (Hr : ∀ (r' u : nat), loc r' = LFul u → reqs s1 !! r' = reqs s !! r') by done.
  apply (inv_build capc capr s s1 loc _ QI QI QC _ QR QR w wk); try done.
  - apply HI.
  - apply HI.
  - intros r' v f. by rewrite Hpc.
  - pose proof (v_w _ _ _ _ _ _ _ HI w wk Hw) as Hok.
    apply (worker_frame s s1 loc (<[r := LRep src w tok]> loc)) in Hok; [|done..].
    destruct Hok as [H1 H2 H3 H4 H5 H6 H7 H8]. rewrite Hpc in *. split; simpl in *; try done.
    intros from rep [= <- <-]. split; [done|]. exists r. rewrite fn_lookup_insert. done.
  - intros i j. destruct (decide ((i, j) = (src, w))) as [[= -> ->]|Hne].
    + rewrite fn_lookup_insert. split; [done|]. intros c' Hc'.
      destruct (Hq c') as (key' & tok' & r' & -> & Hrt' & Hl' & Hop'); [by apply list_elem_of_further|].
      exists key', tok', r'. split_and!; try done. rewrite fn_lookup_insert_ne; [done|]. intros ->.
      rewrite Hl in Hl'. injection Hl' as ->. by rewrite (has_op_inj _ _ _ _ Hop Hop') in Hnc.
    + rewrite fn_lookup_insert_ne by done. apply (cmd_frame s s1 loc); [apply HI|done|].
      intros r' t Hr'. rewrite Hr'. apply ins_keep; [congruence|done].
  - intros i j. apply (rep_frame s s1 loc); [apply HI|done|].
    intros r' t Hr'. rewrite Hr'. apply ins_keep; [congruence|done].
  - apply shard_same; [done| |done]. unfold s1. simpl. by rewrite replay_snoc.
Qed.

(** [pump_matrix] sends the reply it has at hand. *)
Lemma inv_push_reply src from rep p g :
  spc_of wk = SReply src from rep p →
  net_rep (sn s) capr g (<[(w, from) := QR (w, from) ++ [rep]]> QR) →
  ∃ loc', SInv capc capr (set_sworker (set_sreply s g) w (set_spc wk (SPump src true p)))
    loc' QI QC (<[(w, from) := QR (w, from) ++ [rep]]> QR).
Proof.
  intros Hpc Hg. pose proof (v_w _ _ _ _ _ _ _ HI w wk Hw) as Hok.
  destruct (w_rep _ _ _ _ _ Hok from rep) as (Hfrom & r & Hl & Hlog); [by rewrite Hpc|].
  set (X := LRepQ from w (token rep)). exists (<[r := X]> loc). set (s1 := set_sreply s g).
  assert (Hs1 : same s s1) by done. assert (He : ext s s1) by (by apply ext_same).
  assert (Hw_eq : ∀ u t, waits X = Some (u, t) ↔ waits (loc r) = Some (u, t)) by (by rewrite Hl).
  apply (inv_build capc capr s s1 loc _ QI QI QC QC QR _ w wk); try done.
  - apply HI.
  - apply HI.
  - intros r' v f. by rewrite Hpc.
  - destruct Hok as [H1 H2 H3 H4 H5 H6 H7 H8]. rewrite Hpc in *. split; simpl in *; try done.
    + intros op r' Hin. destruct (H2 op r' Hin) as (Hl' & Hrest). split; [|done].
      apply ins_keep; [congruence|done].
    + intros o c Hc. destruct (H3 o c Hc) as (key & tok & r' & ? & ? & Hl' & ?).
      exists key, tok, r'. split_and!; try done. apply ins_keep; [congruence|done].
    + intros tok r'. rewrite H6. destruct (decide (r' = r)) as [->|Hne].
      * rewrite fn_lookup_insert. symmetry. apply Hw_eq.
      * by rewrite fn_lookup_insert_ne.
  - intros u Hu. split; [|done]. apply apart_insert; [rewrite Hl; simpl; congruence|apply Hw_eq].
  - intros i j. apply (cmd_frame s s1 loc); [apply HI|done|].
    intros r' t Hr'. rewrite Hr'. apply ins_keep; [congruence|done].
  - intros i j. pose proof (v_rq _ _ _ _ _ _ _ HI i j) as Hq.
    apply (rep_frame s s1 loc (<[r := X]> loc)) in Hq;
      [|done|intros r' t Hr'; rewrite Hr'; apply ins_keep; [congruence|done]].
    destruct (decide ((i, j) = (w, from))) as [[= -> ->]|Hne]; [|by rewrite fn_lookup_insert_ne].
    rewrite fn_lookup_insert. destruct Hq as [Hnd Hq]. split.
    + apply NoDup_app. split; [done|]. split; [|apply NoDup_singleton].
      intros rep' Hin ->%list_elem_of_singleton.
      destruct (proj2 (v_rq _ _ _ _ _ _ _ HI w from) rep Hin) as (r' & Hl' & _).
      assert (r = r') as <- by (apply (waits_inj from (token rep)); [done|by rewrite Hl|by rewrite Hl']).
      congruence.
    + intros rep' [Hin|Hin%list_elem_of_singleton]%elem_of_app; [auto|]. subst rep'.
      exists r. by rewrite fn_lookup_insert.
  - apply (hist_frame s s1 loc); try done; [apply HI| |]; intros r';
      destruct (decide (r' = r)) as [->|Hne]; rewrite ?fn_lookup_insert, ?fn_lookup_insert_ne by done;
      rewrite ?Hl; done.
  - by apply shard_same.
Qed.

(** [collect_replies] takes a reply: its token is waiting. *)
Lemma inv_pop_reply src progressed c rep q g :
  spc_of wk = SCollect src progressed c → src < sn s → QR (src, w) = rep :: q →
  net_rep (sn s) capr g (<[(src, w) := q]> QR) →
  ∃ r loc', client_waiters wk !! token rep = Some r ∧
    SInv capc capr
      (set_sworker (set_sreply s g) w
         (mkSWorker (SFulfil FValue r (r_val rep) (KCollect src c)) (sshard wk)
            (delete (token rep) (client_waiters wk)) (next_token wk)))
      loc' QI QC (<[(src, w) := q]> QR).
Proof.
  intros Hpc Hsrc HQ Hg. pose proof (v_rq _ _ _ _ _ _ _ HI src w) as [Hnd Hq]. rewrite HQ in Hnd, Hq.
  apply NoDup_cons in Hnd as [Hnc Hnd].
  destruct (Hq rep) as (r & Hl & Hlog); [apply list_elem_of_here|].
  pose proof (v_w _ _ _ _ _ _ _ HI w wk Hw) as Hok. pose proof (v_hist _ _ _ _ _ _ _ HI) as Hh.
  assert (Hwait : client_waiters wk !! token rep = Some r) by (apply (w_wait _ _ _ _ _ Hok); by rewrite Hl).
  exists r, (<[r := LFul w]> loc). split; [done|]. set (s1 := set_sreply s g).
  assert (Hs1 : same s s1) by done. assert (He : ext s s1) by (by apply ext_same).
  apply (inv_build capc capr s s1 loc _ QI QI QC QC QR _ w wk); try done.
  - apply HI.
  - apply HI.
  - intros r' v f. by rewrite Hpc.
  - destruct Hok as [H1 H2 H3 H4 H5 H6 H7 H8]. rewrite Hpc in *. split; simpl in *; try done.
    + intros op r' Hin. destruct (H2 op r' Hin) as (Hl' & Hrest). split; [|done].
      apply ins_keep; [congruence|done].
    + intros o c' Hc. destruct (H3 o c' Hc) as (key & tok & r' & ? & ? & Hl' & ?).
      exists key, tok, r'. split_and!; try done. apply ins_keep; [congruence|done].
    + intros from rep' Hc. destruct (H4 from rep' Hc) as (? & r' & Hl' & ?). split; [done|].
      exists r'. split; [|done]. apply ins_keep; [congruence|done].
    + intros st r' v [= <- <- <-]. split; [|split; [|done]].
      * destruct Hlog as [op Hop]. destruct (h_op _ _ Hh r op (r_val rep) Hop) as (x & Hx & _). eauto.
      * intros _. by rewrite fn_lookup_insert.
    + intros tok r'. destruct (decide (r' = r)) as [->|Hne].
      * rewrite fn_lookup_insert, lookup_delete_Some. simpl. split; [|done].
        intros [Hne Ht]. apply H6 in Ht. rewrite Hl in Ht. simpl in Ht. congruence.
      * rewrite fn_lookup_insert_ne by done. rewrite lookup_delete_Some, <- H6. split; [naive_solver|].
        intros Ht. split; [|done]. intros <-. congruence.
    + intros tok r' [_ Ht]%lookup_delete_Some. by eapply H7.
  - intros u Hu. split; [|done]. apply apart_insert; rewrite Hl; simpl; [done|]. naive_solver.
  - intros i j. apply (cmd_frame s s1 loc); [apply HI|done|].
    intros r' t Hr'. rewrite Hr'. apply ins_keep; [congruence|done].
  - intros i j. destruct (decide ((i, j) = (src, w))) as [[= -> ->]|Hne].
    + rewrite fn_lookup_insert. split; [done|]. intros rep' Hin.
      destruct (Hq rep') as (r' & Hl' & Hlog'); [by apply list_elem_of_further|].
      exists r'. split; [|done]. rewrite fn_lookup_insert_ne; [done|]. intros Heq. subst r'.
      rewrite Hl in Hl'. injection Hl' as Htok.
      destruct rep as [t1 v1], rep' as [t2 v2]; simpl in *. subst t2.
      by rewrite (logged_inj s loc r v2 v1) in Hin.
    + rewrite fn_lookup_insert_ne by done. apply (rep_frame s s1 loc); [apply HI|done|].
      intros r' t Hr'. rewrite Hr'. apply ins_keep; [congruence|done].
  - apply (hist_frame s s1 loc); try done; intros r';
      destruct (decide (r' = r)) as [->|Hne]; rewrite ?fn_lookup_insert, ?fn_lookup_insert_ne by done;
      rewrite ?Hl; done.
  - by apply shard_same.
Qed.

(** [drain_ingress] takes the inbox into its hands. *)
Lemma inv_drain progressed i :
  spc_of wk = SDrain progressed → ib_rep i [] →
  SInv capc capr
    (set_sworker (set_ingress s w i) w
       (set_spc wk (match QI w with [] => SStop progressed | _ => SServe (QI w) end)))
    loc (<[w := []]> QI) QC QR.
Proof.
  intros Hpc Hi. pose proof (v_w _ _ _ _ _ _ _ HI w wk Hw) as Hok. set (s1 := set_ingress s w i).
  assert (Hs1 : same s s1) by done. assert (He : ext s s1) by (by apply ext_same).
  assert (Hview : ∀ l, (match l with [] => SStop progressed | _ => SServe l end) = SServe l ∨
    (l = [] ∧ (match l with [] => SStop progressed | _ => SServe l end) = SStop progressed)).
  { intros []; auto. }
  apply (inv_build capc capr s s1 loc loc QI _ QC QC QR QR w wk); try done.
  - apply HI.
  - apply HI.
  - intros u Hu. destruct (v_in _ _ _ _ _ _ _ HI u Hu) as (iu & Hiu & Hrep). simpl.
    destruct (decide (u = w)) as [->|Hne].
    + exists i. rewrite fn_lookup_insert. split; [|done]. apply list_lookup_insert_eq.
      by eapply lookup_lt_Some.
    + exists iu. rewrite fn_lookup_insert_ne by done. by rewrite list_lookup_insert_ne.
  - intros r' v f. by rewrite Hpc.
  - rewrite fn_lookup_insert. destruct Hok as [H1 H2 H3 H4 H5 H6 H7 H8]. rewrite Hpc in *.
    simpl in H1, H2. rewrite app_nil_r in H1, H2.
    destruct (Hview (QI w)) as [->|[HQ ->]]; split; simpl; try done.
    + apply NoDup_nil_2.
    + intros op r Hin. by apply elem_of_nil in Hin.
  - intros u Hu. split; [apply apart_refl|]. by rewrite fn_lookup_insert_ne.
  - intros a b. apply (cmd_frame s s1 loc); [apply HI|done|done].
  - intros a b. apply (rep_frame s s1 loc); [apply HI|done|done].
  - apply (hist_frame s s1 loc); try done. apply HI.
  - by apply shard_same.
Qed.

(** A request served locally: the shard answers and the history grows. *)
Lemma inv_serve_local op r rest v sh :
  spc_of wk = SServe ((op, r) :: rest) → v = (spec_step op (replay (hist s))).1 →
  (∀ key, route key (smask s) = w → sh !! key = (spec_step op (replay (hist s))).2 !! key) →
  (∀ key u, u ≠ w → route key (smask s) = u →
     (spec_step op (replay (hist s))).2 !! key = replay (hist s) !! key) →
  ∃ loc', SInv capc capr
    (set_sworker (record r op v s) w
       (mkSWorker (SFulfil FValue r v (KServe rest)) sh (client_waiters wk) (next_token wk)))
    loc' QI QC QR.
Proof.
  intros Hpc Hv Hsh Hother. pose proof (v_w _ _ _ _ _ _ _ HI w wk Hw) as Hok.
  destruct (w_hand _ _ _ _ _ Hok op r) as (Hl & Hop & Hrt); [rewrite Hpc; simpl; set_solver|].
  exists (<[r := LFul w]> loc). set (s1 := record r op v s).
  assert (Hs1 : same s s1) by done. assert (He : ext s s1) by (by eapply ext_log).
  destruct (hist_log s s1 loc r op v (LFul w)) as [Hh Hlog]; try done; [apply HI|by rewrite Hl|].
  apply (inv_build capc capr s s1 loc _ QI QI QC QC QR QR w wk); try done.
  - apply HI.
  - apply HI.
  - apply HI.
  - intros r' v' f. by rewrite Hpc.
  - destruct Hok as [H1 H2 H3 H4 H5 H6 H7 H8]. rewrite Hpc in *. simpl in H1, H2, H3.
    destruct (hand_rest _ _ _ _ H1) as [N1 Hne].
    split; simpl; try done.
    + intros op' r' Hin. destruct (H2 op' r') as (Hl' & Ho' & Hrt'); [set_solver|].
      rewrite fn_lookup_insert_ne by (apply not_eq_sym; by apply (Hne op')).
      split; [done|]. split; [by eapply has_op_ext|done].
    + intros st r' v' [= <- <- <-]. split; [|split; [|done]].
      * destruct Hop as (q & Hq & _). eauto.
      * intros _. by rewrite fn_lookup_insert.
    + intros tok r'. rewrite H6. destruct (decide (r' = r)) as [->|Hne'].
      * by rewrite fn_lookup_insert, Hl.
      * by rewrite fn_lookup_insert_ne.
  - intros u Hu. split; [|done]. apply apart_insert; rewrite Hl; simpl; [congruence|done].
  - intros i j. apply (cmd_frame s s1 loc); [apply HI|done|].
    intros r' t Hr'. rewrite Hr'. apply ins_keep; [congruence|done].
  - intros i j. apply (rep_frame s s1 loc); [apply HI|done|].
    intros r' t Hr'. rewrite Hr'. apply ins_keep; [congruence|done].
  - intros key u wku. simpl. rewrite replay_snoc.
    intros [(-> & <- & _)|(Hne & Hu)]%list_lookup_insert_Some Hk; simpl; [by apply Hsh|].
    rewrite (Hother key u) by done. by apply (v_shard _ _ _ _ _ _ _ HI) with (w := u).
Qed.

(** A get for another shard: the completion is filed under a new token. *)
Lemma inv_serve_forward key r rest :
  spc_of wk = SServe ((OGet key, r) :: rest) → (next_token wk < 2 ^ 48)%Z →
  let tok := make_token w (next_token wk) in
  ∃ loc', SInv capc capr
    (set_sworker s w
       (mkSWorker (SPush (route key (smask s)) (CGet key w tok) r rest) (sshard wk)
          (<[tok := r]> (client_waiters wk)) (wadd (next_token wk) 1)))
    loc' QI QC QR.
Proof.
  intros Hpc Hsmall tok. pose proof (v_w _ _ _ _ _ _ _ HI w wk Hw) as Hok.
  destruct (w_hand _ _ _ _ _ Hok (OGet key) r) as (Hl & Hop & _); [rewrite Hpc; simpl; set_solver|].
  exists (<[r := LPush w tok]> loc).
  assert (Hs1 : same s s) by done. assert (He : ext s s) by (by apply ext_same).
  pose proof (w_next _ _ _ _ _ Hok) as Hnn.
  assert (Hadd : wadd (next_token wk) 1 = (next_token wk + 1)%Z).
  { apply wrap64_small. unfold is_u64, W64. lia. }
  assert (Hfresh : client_waiters wk !! tok = None).
  { destruct (client_waiters wk !! tok) as [r'|] eqn:Ht; [|done].
    destruct (w_tok _ _ _ _ _ Hok tok r' Ht) as (j & Hj & Hjt).
    apply make_token_inj in Hjt; lia. }
  apply (inv_build capc capr s s loc _ QI QI QC QC QR QR w wk); try done; try apply HI.
  - intros r' v' f. by rewrite Hpc.
  - destruct Hok as [H1 H2 H3 H4 H5 H6 H7 H8]. rewrite Hpc in *. simpl in H1, H2, H3.
    destruct (hand_rest _ _ _ _ H1) as [N1 Hne]. split; simpl; try done.
    + intros op' r' Hin. destruct (H2 op' r') as (Hl' & Ho' & Hrt'); [set_solver|].
      rewrite fn_lookup_insert_ne by (apply not_eq_sym; by apply (Hne op')). done.
    + intros o c [= <- <-]. exists key, tok, r. by rewrite fn_lookup_insert.
    + intros t r'. rewrite lookup_insert_Some. destruct (decide (r' = r)) as [->|Hr].
      * rewrite fn_lookup_insert. simpl. split; [|naive_solver].
        intros [[-> _]|[Hne' Ht]]; [done|]. apply H6 in Ht. by rewrite Hl in Ht.
      * rewrite fn_lookup_insert_ne by done. rewrite <- H6. split; [naive_solver|].
        intros Ht. right. split; [|done]. intros <-. congruence.
    + rewrite Hadd. intros t r' [[<- _]|[_ Ht]]%lookup_insert_Some.
      * exists (next_token wk). split; [lia|done].
      * destruct (H7 t r' Ht) as (j & Hj & ->). exists j. split; [lia|done].
    + rewrite Hadd. lia.
  - intros u Hu. split; [|done]. apply apart_insert; rewrite Hl; simpl; [congruence|]. naive_solver.
  - intros i j. apply (cmd_frame s s loc); [apply HI|done|].
    intros r' t Hr'. rewrite Hr'. apply ins_keep; [congruence|done].
  - intros i j. apply (rep_frame s s loc); [apply HI|done|].
    intros r' t Hr'. rewrite Hr'. apply ins_keep; [congruence|done].
  - apply (hist_frame s s loc); try done; [apply HI| |]; intros r';
      destruct (decide (r' = r)) as [->|Hne]; rewrite ?fn_lookup_insert, ?fn_lookup_insert_ne by done;
      rewrite ?Hl; done.
  - by apply shard_same.
Qed.

(** The forwarded get reaches the queue of its owner. *)
Lemma inv_push_cmd owner c r0 rest g :
  spc_of wk = SPush owner c r0 rest →
  net_rep (sn s) capc g (<[(w, owner) := QC (w, owner) ++ [c]]> QC) →
  ∃ key tok loc', c = CGet key w tok ∧
    SInv capc capr (set_sworker (set_scmd s g) w (set_spc wk (SServe rest)))
      loc' QI (<[(w, owner) := QC (w, owner) ++ [c]]> QC) QR.
Proof.
  intros Hpc Hg. pose proof (v_w _ _ _ _ _ _ _ HI w wk Hw) as Hok.
  destruct (w_push _ _ _ _ _ Hok owner c) as (key & tok & r & -> & Ho & Hl & Hop); [by rewrite Hpc|].
  exists key, tok. set (X := LCmd w owner tok). exists (<[r := X]> loc). split; [done|].
  set (s1 := set_scmd s g).
  assert (Hs1 : same s s1) by done. assert (He : ext s s1) by (by apply ext_same).
  assert (Hw_eq : ∀ u t, waits X = Some (u, t) ↔ waits (loc r) = Some (u, t)) by (by rewrite Hl).
  apply (inv_build capc capr s s1 loc _ QI QI QC _ QR QR w wk); try done; try apply HI.
  - intros r' v f. by rewrite Hpc.
  - destruct Hok as [H1 H2 H3 H4 H5 H6 H7 H8]. rewrite Hpc in *. split; simpl in *; try done.
    + intros op r' Hin. destruct (H2 op r' Hin) as (Hl' & Hrest). split; [|done].
      apply ins_keep; [congruence|done].
    + intros t r'. rewrite H6. destruct (decide (r' = r)) as [->|Hne].
      * rewrite fn_lookup_insert. symmetry. apply Hw_eq.
      * by rewrite fn_lookup_insert_ne.
  - intros u Hu. split; [|done]. apply apart_insert; [rewrite Hl; simpl; congruence|apply Hw_eq].
  - intros i j. pose proof (v_cq _ _ _ _ _ _ _ HI i j) as Hq.
    apply (cmd_frame s s1 loc (<[r := X]> loc)) in Hq;
      [|done|intros r' t Hr'; rewrite Hr'; apply ins_keep; [congruence|done]].
    destruct (decide ((i, j) = (w, owner))) as [[= -> ->]|Hne]; [|by rewrite fn_lookup_insert_ne].
    rewrite fn_lookup_insert. destruct Hq as [Hnd Hq]. split.
    + apply NoDup_app. split; [done|]. split; [|apply NoDup_singleton].
      intros c' Hin ->%list_elem_of_singleton.
      destruct (proj2 (v_cq _ _ _ _ _ _ _ HI w owner) _ Hin) as (k' & t' & r' & [= <- <-] & _ & Hl' & _).
      assert (r = r') as <-; [|congruence].
      apply (waits_inj w tok); [by eapply worker_lt|by rewrite Hl|by rewrite Hl'].
    + intros c' [Hin|Hin%list_elem_of_singleton]%elem_of_app; [auto|]. subst c'.
      exists key, tok, r. by rewrite fn_lookup_insert.
  - intros i j. apply (rep_frame s s1 loc); [apply HI|done|].
    intros r' t Hr'. rewrite Hr'. apply ins_keep; [congruence|done].
  - apply (hist_frame s s1 loc); try done; [apply HI| |]; intros r';
      destruct (decide (r' = r)) as [->|Hne]; rewrite ?fn_lookup_insert, ?fn_lookup_insert_ne by done;
      rewrite ?Hl; done.
  - by apply shard_same.
Qed.

End moves.

(** ** Completions *)

(** One completion changes. *)
Lemma ext_req s s1 r q q' :
  sn s1 = sn s → smask s1 = smask s → hist s1 = hist s → reqs s !! r = Some q →
  reqs s1 = <[r := q']> (reqs s) → r_op q' = r_op q → ext s s1.
Proof.
  intros Hn Hm Hh Hq Hr Ho. split; [done|done| |by rewrite Hh].
  intros r' x Hx. rewrite Hr. destruct (decide (r' = r)) as [->|Hne].
  - exists q'. rewrite list_lookup_insert_eq by (by eapply lookup_lt_Some). split; [done|congruence].
  - exists x. by rewrite list_lookup_insert_ne.
Qed.

Lemma hist_req s s1 loc loc' r q q' :
  hist_ok s loc → reqs s !! r = Some q → reqs s1 = <[r := q']> (reqs s) → hist s1 = hist s →
  r_op q' = r_op q → r_born q' = r_born q → (∀ r', r' ≠ r → loc' r' = loc r') →
  (pre (loc' r) = true → pre (loc r) = true) → (done q' = true ↔ loc' r = LDone) →
  (done q' = true → r_ret q' = None → logged s r (value q')) →
  (∀ v e, r_ret q' = Some (v, e) → ∃ i, i < e ∧ hist s !! i = Some (r, (r_op q, v))) →
  (done q' = false → r_ret q' = None) → hist_ok s1 loc'.
Proof.
  intros [Hf Hn Ho Hu Hl Hd Hv Hr Hnr Hg Hb] Hq Hr1 Hh1 Eop Eborn Hloc Hpre Hdone Hval Hret Hnret.
  pose proof (lookup_lt_Some _ _ _ Hq) as Hlt.
  assert (Hcase : ∀ r' x, reqs s1 !! r' = Some x → (r' = r ∧ x = q') ∨ (r' ≠ r ∧ reqs s !! r' = Some x)).
  { intros r' x. rewrite Hr1. intros [(<- & <- & _)|(Hne & Hx)]%list_lookup_insert_Some; [by left|].
    right. by split. }
  split; unfold logged in *; rewrite ?Hh1; try done.
  - intros r' Hr'. rewrite Hr1, length_insert in Hr'. rewrite Hloc by lia. auto.
  - intros r' op v Hin. destruct (Ho r' op v Hin) as (x & Hx & Hxo). unfold has_op. rewrite Hr1.
    destruct (decide (r' = r)) as [->|Hne].
    + exists q'. rewrite list_lookup_insert_eq by done. split; [done|congruence].
    + exists x. by rewrite list_lookup_insert_ne.
  - intros r' Hp. apply Hu. destruct (decide (r' = r)) as [->|Hne]; [auto|]. by rewrite Hloc in Hp.
  - intros r' x [[-> ->]|[Hne Hx]]%Hcase; [done|]. rewrite Hloc by done. by apply Hd.
  - intros r' x [[-> ->]|[Hne Hx]]%Hcase; [done|]. by apply Hv.
  - intros r' x v e [[-> ->]|[Hne Hx]]%Hcase; [rewrite Eop; apply Hret|by apply Hr].
  - intros r' x [[-> ->]|[Hne Hx]]%Hcase; [done|]. by eapply Hnr.
  - intros r' x [[-> ->]|[Hne Hx]]%Hcase; [rewrite Eborn|]; by eapply Hg.
  - intros i r' y x Hi [[-> ->]|[Hne Hx]]%Hcase; [rewrite Eborn|]; by eapply Hb.
Qed.

(** [fulfill] writes the value, or the flag. *)
Lemma cli_req s s1 r q q' :
  cli_ok s → sn s1 = sn s → smask s1 = smask s → clients s1 = clients s →
  reqs s !! r = Some q → reqs s1 = <[r := q']> (reqs s) →
  waiter q' = waiter q → r_ret q' = r_ret q → (done q = true → done q' = true) →
  (∀ r', unparking s r' → unparking s1 r') →
  (done q' = true → done q = true ∨ unparking s1 r) → cli_ok s1.
Proof.
  intros [Hw Hc Ha] Hn Hm Hcl Hq Hr Ew Er Ed Hu Hdone.
  split; rewrite ?Hcl, ?Hn, ?Hm; [| |done].
  - intros r' x. rewrite Hr. intros [(<- & <- & _)|(Hne & Hx)]%list_lookup_insert_Some; [|by eapply Hw].
    rewrite Ew. by eapply Hw.
  - intros c cl r' Hcc Hreq. destruct (Hc c cl r' Hcc Hreq) as (x & Hx & Hwx & Hret & Ht & Hp).
    rewrite Hr. destruct (decide (r' = r)) as [->|Hne].
    + simplify_eq. exists q'. rewrite list_lookup_insert_eq by (by eapply lookup_lt_Some).
      split_and!; [done|done|congruence|auto|].
      intros Hpk Hd. destruct (Hdone Hd) as [Hd0|Hup]; [|by right].
      destruct (Hp Hpk Hd0) as [|Hup]; [by left|right; auto].
    + exists x. rewrite list_lookup_insert_ne by done. split_and!; try done.
      intros Hpk Hd. destruct (Hp Hpk Hd) as [|Hup]; [by left|right; auto].
Qed.

Section fulfil.
Context (capc capr : nat) (s : Service CC CR IB) (loc : nat → Loc).
Context (QI : nat → list ClientReq) (QC : nat * nat → list Command).
Context (QR : nat * nat → list Reply) (w : nat) (wk : ServiceWorker).
Hypothesis HI : SInv capc capr s loc QI QC QR.
Hypothesis Hw : sworkers s !! w = Some wk.

(** What every access of [fulfill] to completion [r] leaves alone. *)
Lemma inv_fulfil_build s1 loc' r q q' st v f st' :
  spc_of wk = SFulfil st r v f → st ≠ FUnpark → loc r = LFul w →
  reqs s !! r = Some q →
  s1 = set_reqs s (<[r := q']> (reqs s)) → r_op q' = r_op q →
  (∀ r', r' ≠ r → loc' r' = loc r') → (loc' r = LFul w ∨ loc' r = LDone) →
  is_Some (reqs s1 !! r) →
  (st' ≠ FUnpark → loc' r = LFul w ∧ logged s r v) → (st' = FDone → value q' = v) →
  hist_ok s1 loc' → cli_ok (set_sworker s1 w (set_spc wk (SFulfil st' r v f))) →
  SInv capc capr (set_sworker s1 w (set_spc wk (SFulfil st' r v f))) loc' QI QC QR.
Proof.
  intros Hpc Hst Hl Hq -> Eop Hloc Hlr Hsome Hful Hval Hh Hcli.
  set (s1 := set_reqs s (<[r := q']> (reqs s))).
  assert (He : ext s s1) by (by eapply ext_req).
  pose proof (v_w _ _ _ _ _ _ _ HI w wk Hw) as Hok.
  assert (Hkeep : ∀ r' l, loc r' = l → l ≠ LFul w → loc' r' = l).
  { intros r' l <- Hne. destruct (decide (r' = r)) as [->|]; [congruence|auto]. }
  assert (Hap : ∀ u, u ≠ w → apart loc loc' u).
  { intros u Hu r'. destruct (decide (r' = r)) as [->|Hne]; [|left; auto]. right. rewrite Hl. simpl.
    split; [congruence|]. intros t. by destruct Hlr as [-> | ->]. }
  pose proof HI as [V1 V2 V3 V4 V5 V6 V7 V8 V9 V10 V11]. split; try done.
  - simpl. by rewrite length_insert.
  - apply (workers_update s s1 loc loc' QI QI w wk); try done.
    + destruct Hok as [H1 H2 H3 H4 H5 H6 H7 H8]. rewrite Hpc in *. split; simpl in *; try done.
      * intros op r' Hin. destruct (H2 op r' Hin) as (Hl' & Ho' & Hrt). split; [by apply Hkeep|].
        split; [by eapply has_op_ext|done].
      * intros o c Hc. destruct (H3 o c Hc) as (key & tok & r' & ? & ? & Hl' & ?).
        exists key, tok, r'. split_and!; [done|done|by apply Hkeep|by eapply has_op_ext].
      * intros from rep Hc. destruct (H4 from rep Hc) as (? & r' & Hl' & ?). split; [done|].
        exists r'. split; [by apply Hkeep|done].
      * intros st0 r' v' [= <- <- <-]. split; [done|]. split; [done|]. intros ->.
        rewrite list_lookup_insert_eq by (by eapply lookup_lt_Some). simpl. f_equal. auto.
      * intros tok r'. rewrite H6. destruct (decide (r' = r)) as [->|Hne]; [|by rewrite Hloc].
        rewrite Hl. by destruct Hlr as [-> | ->].
    + intros u Hu. split; [by apply Hap|done].
    + intros r' u Hu Hr'. simpl. apply list_lookup_insert_ne. congruence.
  - intros i j. apply (cmd_frame s _ loc); [apply V7|by apply ext_worker|].
    intros r' t Hr'. rewrite Hr'. by apply Hkeep.
  - intros i j. apply (rep_frame s _ loc); [apply V8|by apply ext_worker|].
    intros r' t Hr'. rewrite Hr'. by apply Hkeep.
  - by destruct Hh.
  - intros key u wku. simpl.
    intros [(-> & <- & _)|(Hne & Hu)]%list_lookup_insert_Some; simpl; by apply V10.
Qed.

Lemma inv_fulfil_value r v f :
  spc_of wk = SFulfil FValue r v f →
  ∃ q loc', reqs s !! r = Some q ∧
    SInv capc capr
      (set_sworker (set_reqs s (<[r := set_value q v]> (reqs s))) w (set_spc wk (SFulfil FDone r v f)))
      loc' QI QC QR.
Proof.
  intros Hpc. pose proof (v_w _ _ _ _ _ _ _ HI w wk Hw) as Hok.
  pose proof (v_hist _ _ _ _ _ _ _ HI) as Hh.
  destruct (w_ful _ _ _ _ _ Hok FValue r v) as ([q Hq] & [Hl Hlog] & _); [by rewrite Hpc|done|].
  exists q, loc. split; [done|].
  assert (Hnd : done q = false).
  { apply not_true_is_false. intros Hd%(h_done _ _ Hh r q Hq). congruence. }
  eapply inv_fulfil_build; try done; [by left| | |].
  - simpl. rewrite list_lookup_insert_eq by (by eapply lookup_lt_Some). eauto.
  - eapply (hist_req s _ loc loc r q (set_value q v)); try done; simpl.
    + by rewrite (h_done _ _ Hh r q Hq).
    + intros v' e. by apply (h_ret _ _ Hh).
    + by apply (h_notret _ _ Hh r q Hq).
  - eapply (cli_req s _ r q (set_value q v)); try done; [apply HI| |by left].
    intros r'. eapply unparking_keep; try done. intros v' f'. by rewrite Hpc.
Qed.

Lemma inv_fulfil_done r v f :
  spc_of wk = SFulfil FDone r v f →
  ∃ q loc', reqs s !! r = Some q ∧
    SInv capc capr
      (set_sworker (set_reqs s (<[r := set_done q]> (reqs s))) w (set_spc wk (SFulfil FUnpark r v f)))
      loc' QI QC QR.
Proof.
  intros Hpc. pose proof (v_w _ _ _ _ _ _ _ HI w wk Hw) as Hok.
  pose proof (v_hist _ _ _ _ _ _ _ HI) as Hh.
  destruct (w_ful _ _ _ _ _ Hok FDone r v) as ([q Hq] & H1 & H2); [by rewrite Hpc|].
  destruct (H1 ltac:(done)) as [Hl Hlog]. specialize (H2 eq_refl). rewrite Hq in H2. simpl in H2.
  exists q, (<[r := LDone]> loc). split; [done|].
  assert (Hnd : done q = false).
  { apply not_true_is_false. intros Hd%(h_done _ _ Hh r q Hq). congruence. }
  assert (Hother : ∀ r', r' ≠ r → (<[r := LDone]> loc) r' = loc r').
  { intros r' Hne. by rewrite fn_lookup_insert_ne. }
  eapply inv_fulfil_build; try done; [by right; rewrite fn_lookup_insert| | |].
  - simpl. rewrite list_lookup_insert_eq by (by eapply lookup_lt_Some). eauto.
  - eapply (hist_req s _ loc _ r q (set_done q)); try done; simpl; rewrite ?fn_lookup_insert; try done.
    + intros _ _. by simplify_eq.
    + intros v' e. by apply (h_ret _ _ Hh).
  - eapply (cli_req s _ r q (set_done q)); try done; [apply HI| |].
    + intros r'. eapply unparking_keep; try done. intros v' f'. by rewrite Hpc.
    + intros _. right. exists w, (set_spc wk (SFulfil FUnpark r v f)), v, f. split; [|done]. simpl.
      apply list_lookup_insert_eq. by eapply lookup_lt_Some.
Qed.

Lemma inv_fulfil_unpark r v f p :
  spc_of wk = SFulfil FUnpark r v f →
  p = match f with KServe rest => SServe rest | KCollect src c => SCollect src true c end →
  ∃ q cl, reqs s !! r = Some q ∧ clients s !! waiter q = Some cl ∧
    SInv capc capr
      (set_sworker (set_client s (waiter q) (mkClient (cpc_of cl) true)) w (set_spc wk p))
      loc QI QC QR.
Proof.
  intros Hpc Hp. pose proof (v_w _ _ _ _ _ _ _ HI w wk Hw) as Hok.
  pose proof (v_cli _ _ _ _ _ _ _ HI) as Hcli.
  destruct (w_ful _ _ _ _ _ Hok FUnpark r v) as ([q Hq] & _); [by rewrite Hpc|].
  destruct (lookup_lt_is_Some_2 (clients s) (waiter q)) as [cl Hcl]; [by eapply (c_waiter _ Hcli)|].
  exists q, cl. split; [done|]. split; [done|].
  set (s1 := set_client s (waiter q) (mkClient (cpc_of cl) true)).
  assert (He : ext s s1) by (by apply ext_same).
  pose proof HI as [V1 V2 V3 V4 V5 V6 V7 V8 V9 V10 V11]. split; try done.
  - simpl. by rewrite length_insert.
  - apply (workers_update s s1 loc loc QI QI w wk); try done.
    + destruct Hok as [H1 H2 H3 H4 H5 H6 H7 H8]. rewrite Hpc in *.
      subst p. destruct f; split; simpl in *; done.
    + intros u Hu. split; [apply apart_refl|done].
  - by destruct V9.
  - intros key u wku. simpl.
    intros [(-> & <- & _)|(Hne & Hu)]%list_lookup_insert_Some; simpl; by apply V10.
  - destruct V11 as [C1 C2 C3]. split; simpl.
    + intros r' x Hx. rewrite length_insert. by eapply C1.
    + intros c cl' r' Hc Hreq.
      assert (Hold : ∃ cl0, clients s !! c = Some cl0 ∧ cpc_of cl0 = cpc_of cl' ∧
        (c ≠ waiter q → cl0 = cl') ∧ (c = waiter q → park_token cl' = true)).
      { apply list_lookup_insert_Some in Hc as [(<- & <- & _)|(Hne & Hc)]; [by exists cl|by exists cl']. }
      destruct Hold as (cl0 & Hc0 & Epc & Hsame & Hown).
      destruct (C2 c cl0 r' Hc0) as (x & Hx & Hwx & Hret & Ht & Hpk); [by rewrite Epc|].
      exists x. split_and!; try done; [by rewrite <- Epc|].
      intros Hpark Hd. destruct (decide (c = waiter q)) as [->|Hne]; [left; auto|].
      rewrite (Hsame Hne) in *. destruct (Hpk Hpark Hd) as [|Hup]; [by left|]. right.
      apply (unparking_keep s s1 w wk); try done. intros v' f'. rewrite Hpc. intros [= <- _ _].
      congruence.
    + intros c cl' a op [(<- & <- & _)|(Hne & Hc)]%list_lookup_insert_Some; simpl; by eapply C3.
Qed.

End fulfil.

(** ** Every worker step *)

Section worker.
Context (capc capr : nat) (s : Service CC CR IB) (loc : nat → Loc).
Context (QI : nat → list ClientReq) (QC : nat * nat → list Command).
Context (QR : nat * nat → list Reply) (w : nat) (wk : ServiceWorker) (lag : bool).
Hypothesis HI : SInv capc capr s loc QI QC QR.
Hypothesis Hw : sworkers s !! w = Some wk.
Hypothesis Htok : (next_token wk < 2 ^ 48)%Z.

(** The step succeeds and the invariant holds after it. *)
Definition goes_on (r : res (ServiceWorker * Service CC CR IB)) : Prop :=
  ∃ wk' s' loc' QI' QC' QR', r = Ok (wk', s') ∧
    SInv capc capr (set_sworker s' w wk') loc' QI' QC' QR'.

Lemma goes_silent s1 p :
  same s s1 → hist s1 = hist s → scmd s1 = scmd s → sreply s1 = sreply s → ingress s1 = ingress s →
  hand p = hand (spc_of wk) → pushing p = pushing (spc_of wk) →
  replying p = replying (spc_of wk) → fulfilling p = None →
  (∀ r v f, spc_of wk ≠ SFulfil FUnpark r v f) → goes_on (Ok (set_spc wk p, s1)).
Proof.
  intros Hs Hh E1 E2 E3 E4 E5 E6 E7 Hne. do 2 eexists. exists loc, QI, QC, QR. split; [reflexivity|].
  apply (inv_silent capc capr s s1 loc loc QI QI QC QC QR QR w wk); try done; rewrite ?E1, ?E2, ?E3; apply HI.
Qed.

Lemma scmd_id : set_scmd s (scmd s) = s.
Proof. by destruct s. Qed.
Lemma sreply_id : set_sreply s (sreply s) = s.
Proof. by destruct s. Qed.

Lemma serve_ok op r rest :
  spc_of wk = SServe ((op, r) :: rest) → goes_on (Ok (serve w op r rest wk s)).
Proof.
  intros Hpc. pose proof (v_w _ _ _ _ _ _ _ HI w wk Hw) as Hok.
  destruct (w_hand _ _ _ _ _ Hok op r) as (Hl & Hop & Hrt); [rewrite Hpc; simpl; set_solver|].
  pose proof (v_shard _ _ _ _ _ _ _ HI) as Hsh.
  unfold serve. destruct op as [k v|k]; simpl.
  - rewrite (Hrt k v eq_refl), Nat.eqb_refl. unfold goes_on.
    destruct (inv_serve_local capc capr s loc QI QC QR w wk HI Hw (OPut k v) r rest None
      (<[k := v]> (sshard wk))) as [loc' HI']; try done.
    + intros key Hk. simpl. destruct (decide (key = k)) as [->|Hne].
      * by rewrite !lookup_insert_eq.
      * rewrite !lookup_insert_ne by done. by apply (Hsh key w wk).
    + intros key u Hu Hk. simpl. rewrite lookup_insert_ne; [done|]. intros <-.
      apply Hu. by rewrite <- Hk, (Hrt k v).
    + do 2 eexists. exists loc', QI, QC, QR. by split.
  - destruct (Nat.eqb_spec (route k (smask s)) w) as [Hk|Hk].
    + destruct (inv_serve_local capc capr s loc QI QC QR w wk HI Hw (OGet k) r rest (sshard wk !! k)
        (sshard wk)) as [loc' HI']; try done.
      * simpl. by apply (Hsh k w wk).
      * intros key Hkey. by apply (Hsh key w wk).
      * do 2 eexists. exists loc', QI, QC, QR. by split.
    + destruct (inv_serve_forward capc capr s loc QI QC QR w wk HI Hw k r rest) as [loc' HI']; try done.
      do 2 eexists. exists loc', QI, QC, QR. by split.
Qed.

Lemma pump_ok src progressed p :
  spc_of wk = SPump src progressed p → goes_on (sworker_step w lag wk s).
Proof.
  intros Hpc. unfold sworker_step. rewrite Hpc.
  destruct (Nat.ltb_spec src (sn s)) as [Hlt|Hge]; [|by apply goes_silent; rewrite ?Hpc].
  pose proof (v_cmd _ _ _ _ _ _ _ HI) as HN.
  destruct (net_pop_ok (sn s) capc (scmd s) QC lag src w HN Hlt (worker_lt _ _ _ _ _ _ _ HI w wk Hw))
    as [[-> _]|(c & q & g & HQ & -> & Hg)]; simpl.
  - rewrite scmd_id. by apply goes_silent; rewrite ?Hpc.
  - destruct (inv_pop_cmd capc capr s loc QI QC QR w wk HI Hw src progressed p c q g)
      as (key & tok & r & loc' & -> & Hwf & HI'); try done.
    rewrite Hwf. do 2 eexists. exists loc', QI, (<[(src, w) := q]> QC), QR. by split.
Qed.

Lemma reply_ok src from rep p :
  spc_of wk = SReply src from rep p → goes_on (sworker_step w lag wk s).
Proof.
  intros Hpc. unfold sworker_step. rewrite Hpc.
  pose proof (v_reply _ _ _ _ _ _ _ HI) as HN. pose proof (v_w _ _ _ _ _ _ _ HI w wk Hw) as Hok.
  destruct (w_rep _ _ _ _ _ Hok from rep) as (Hfrom & _); [by rewrite Hpc|].
  destruct (net_push_ok (sn s) capr (sreply s) QR lag w from rep HN (worker_lt _ _ _ _ _ _ _ HI w wk Hw) Hfrom)
    as [[-> _]|(g & -> & Hg)]; simpl.
  - rewrite sreply_id. by apply goes_silent; rewrite ?Hpc.
  - destruct (inv_push_reply capc capr s loc QI QC QR w wk HI Hw src from rep p g) as (loc' & HI'); try done.
    do 2 eexists. exists loc', QI, QC, (<[(w, from) := QR (w, from) ++ [rep]]> QR). by split.
Qed.

Lemma collect_ok src progressed c :
  spc_of wk = SCollect src progressed c → goes_on (sworker_step w lag wk s).
Proof.
  intros Hpc. unfold sworker_step. rewrite Hpc.
  destruct (Nat.ltb_spec src (sn s)) as [Hlt|Hge].
  2:{ apply goes_silent; rewrite ?Hpc; try done;
        destruct c as [b p|src' from rep p]; try done; by destruct p. }
  pose proof (v_reply _ _ _ _ _ _ _ HI) as HN.
  destruct (net_pop_ok (sn s) capr (sreply s) QR lag src w HN Hlt (worker_lt _ _ _ _ _ _ _ HI w wk Hw))
    as [[-> _]|(rep & q & g & HQ & -> & Hg)]; simpl.
  - rewrite sreply_id. by apply goes_silent; rewrite ?Hpc.
  - destruct (inv_pop_reply capc capr s loc QI QC QR w wk HI Hw src progressed c rep q g)
      as (r & loc' & Hr & HI'); try done.
    rewrite Hr. do 2 eexists. exists loc', QI, QC, (<[(src, w) := q]> QR). by split.
Qed.

Lemma push_ok owner c r rest :
  spc_of wk = SPush owner c r rest → goes_on (sworker_step w lag wk s).
Proof.
  intros Hpc. unfold sworker_step. rewrite Hpc.
  pose proof (v_cmd _ _ _ _ _ _ _ HI) as HN. pose proof (v_w _ _ _ _ _ _ _ HI w wk Hw) as Hok.
  destruct (w_push _ _ _ _ _ Hok owner c) as (key & tok & r' & -> & -> & _); [by rewrite Hpc|].
  destruct (net_push_ok (sn s) capc (scmd s) QC lag w (route key (smask s)) (CGet key w tok) HN
    (worker_lt _ _ _ _ _ _ _ HI w wk Hw) (v_route _ _ _ _ _ _ _ HI key)) as [[-> _]|(g & -> & Hg)]; simpl.
  - rewrite scmd_id. by apply goes_silent; rewrite ?Hpc.
  - destruct (inv_push_cmd capc capr s loc QI QC QR w wk HI Hw _ _ r rest g Hpc Hg)
      as (key' & tok' & loc' & _ & HI').
    do 2 eexists. exists loc', QI, (<[(w, route key (smask s)) := QC (w, route key (smask s))
      ++ [CGet key w tok]]> QC), QR. by split.
Qed.

Lemma fulfil_ok st r v f : spc_of wk = SFulfil st r v f → goes_on (sworker_step w lag wk s).
Proof.
  intros Hpc. unfold sworker_step, fulfill. rewrite Hpc. destruct st.
  - destruct (inv_fulfil_value capc capr s loc QI QC QR w wk HI Hw r v f Hpc) as (q & loc' & Hq & HI').
    rewrite Hq. simpl. do 2 eexists. exists loc', QI, QC, QR. by split.
  - destruct (inv_fulfil_done capc capr s loc QI QC QR w wk HI Hw r v f Hpc) as (q & loc' & Hq & HI').
    rewrite Hq. simpl. do 2 eexists. exists loc', QI, QC, QR. by split.
  - destruct (inv_fulfil_unpark capc capr s loc QI QC QR w wk HI Hw r v f _ Hpc eq_refl)
      as (q & cl & Hq & Hcl & HI').
    rewrite Hq. simpl. rewrite Hcl. simpl. do 2 eexists. exists loc, QI, QC, QR. by split.
Qed.

Lemma sworker_step_ok : spc_of wk ≠ SExit → goes_on (sworker_step w lag wk s).
Proof.
  intros Hne. destruct (spc_of wk) as [src b p|src from rep p|src b c|b|[|[op r] rest]|o c r rest|st r v f|b| |]
    eqn:Hpc; [by eapply pump_ok|by eapply reply_ok|by eapply collect_ok| | | |by eapply push_ok
             |by eapply fulfil_ok| | |done];
    unfold sworker_step; rewrite Hpc.
  - destruct (v_in _ _ _ _ _ _ _ HI w (worker_lt _ _ _ _ _ _ _ HI w wk Hw)) as (i & Hi & Hrep).
    rewrite Hi. simpl. destruct (ib_drain_ok i (QI w) Hrep) as (i' & -> & Hrep'). simpl.
    do 2 eexists. exists loc, (<[w := []]> QI), QC, QR. split; [reflexivity|].
    by apply (inv_drain capc capr s loc QI QC QR w wk).
  - by apply goes_silent; rewrite ?Hpc.
  - by apply serve_ok.
  - apply goes_silent; rewrite ?Hpc; try done; by destruct (_ && _).
  - destruct (v_in _ _ _ _ _ _ _ HI w (worker_lt _ _ _ _ _ _ _ HI w wk Hw)) as (i & Hi & Hrep).
    rewrite Hi. simpl. apply goes_silent; rewrite ?Hpc; try done; by destruct (ib_is_null i).
Qed.

End worker.

(** ** Client steps *)

Section client.
Context (capc capr : nat) (s : Service CC CR IB) (loc : nat → Loc).
Context (QI : nat → list ClientReq) (QC : nat * nat → list Command).
Context (QR : nat * nat → list Reply) (c : nat) (cl : Client).
Hypothesis HI : SInv capc capr s loc QI QC QR.
Hypothesis Hc : clients s !! c = Some cl.

(** What a client may claim about the request it waits for. *)
Definition client_ok (s : Service CC CR IB) (c : nat) (cl : Client) : Prop :=
  (∀ r, client_req (cpc_of cl) = Some r → ∃ q, reqs s !! r = Some q ∧ waiter q = c ∧
     r_ret q = None ∧ (cpc_of cl = CTake r → done q = true) ∧
     (cpc_of cl = CPark r → done q = true → park_token cl = true ∨ unparking s r)) ∧
  (∀ a op, cpc_of cl = CPush a op → a < sn s ∧ ∀ k v, op = OPut k v → route k (smask s) = a).

(** A step that touches the client and flags only. *)
Lemma inv_client s1 cl' :
  sn s1 = sn s → smask s1 = smask s → scmd s1 = scmd s → sreply s1 = sreply s →
  ingress s1 = ingress s → sworkers s1 = sworkers s → reqs s1 = reqs s → hist s1 = hist s →
  clients s1 = <[c := cl']> (clients s) → client_ok s c cl' → SInv capc capr s1 loc QI QC QR.
Proof.
  intros E1 E2 E3 E4 E5 E6 E7 E8 E9 [Hreq Hacc].
  assert (He : ext s s1) by (by apply ext_same).
  assert (Hup : ∀ r, unparking s r → unparking s1 r).
  { intros r (u & wk & v & f & Hu & Hpc). exists u, wk, v, f. by rewrite E6. }
  pose proof HI as [V1 V2 V3 V4 V5 V6 V7 V8 V9 V10 V11]. split; rewrite ?E1, ?E2, ?E3, ?E4, ?E5, ?E6; try done.
  - intros u wk Hu. apply (worker_frame s s1 loc); [by apply V6|done|apply apart_refl|by rewrite E7].
  - intros i j. by apply (cmd_frame s s1 loc).
  - intros i j. by apply (rep_frame s s1 loc).
  - by apply (hist_frame s s1 loc).
  - unfold shard_ok. rewrite E2, E6, E8. exact V10.
  - destruct V11 as [C1 C2 C3]. split; rewrite ?E1, ?E2, ?E7, ?E9.
    + intros r q Hq. rewrite length_insert. by eapply C1.
    + intros c' x r [(<- & <- & _)|(Hne & Hx)]%list_lookup_insert_Some Hr;
        [destruct (Hreq r Hr) as (q & Hq & Hwq & Hret & Ht & Hp)
        |destruct (C2 c' x r Hx Hr) as (q & Hq & Hwq & Hret & Ht & Hp)];
        (exists q; split_and!; try done; intros Hpk Hd; destruct (Hp Hpk Hd); [by left|right; auto]).
    + intros c' x a op [(<- & <- & _)|(Hne & Hx)]%list_lookup_insert_Some Hpc; [by apply Hacc|by eapply C3].
Qed.

(** The completion [submit_to] appends. *)
Definition new_req (op : ClientOp) : ReqCompletion := mkReq op c false None (length (hist s)) None.

Lemma new_req_cases op (s1 : Service CC CR IB) :
  reqs s1 = reqs s ++ [new_req op] →
  reqs s1 !! length (reqs s) = Some (new_req op) ∧
  (∀ r' x, reqs s !! r' = Some x → reqs s1 !! r' = Some x ∧ length (reqs s) ≠ r') ∧
  (∀ r' x, reqs s1 !! r' = Some x →
     (r' = length (reqs s) ∧ x = new_req op) ∨ (r' ≠ length (reqs s) ∧ reqs s !! r' = Some x)).
Proof.
  intros Hr. rewrite Hr. split; [by apply list_lookup_middle|]. split.
  - intros r' x Hx. split; [by apply lookup_app_l_Some|]. apply lookup_lt_Some in Hx. lia.
  - intros r' x [Hx|[Hge Hx]]%lookup_app_Some.
    + right. split; [|done]. apply lookup_lt_Some in Hx. lia.
    + left. destruct (r' - length (reqs s)) eqn:Hd; [|done]. simplify_eq/=. split; [lia|done].
Qed.

Lemma hist_submit op accept (s1 : Service CC CR IB) :
  reqs s1 = reqs s ++ [new_req op] → hist s1 = hist s → ext s s1 →
  hist_ok s1 (<[length (reqs s) := LOwn accept]> loc).
Proof.
  intros Hr1 Hh1 He. destruct (new_req_cases op s1 Hr1) as (Hnew & Hold & Hcase).
  pose proof (v_hist _ _ _ _ _ _ _ HI) as [Hf Hn Ho Hu Hl Hd Hv Hr Hnr Hg Hb].
  assert (Hout : ∀ x, (length (reqs s), x) ∉ hist s).
  { intros [op0 v0] Hin. destruct (Ho _ _ _ Hin) as (x & Hx & _). by destruct (Hold _ x Hx). }
  split; unfold logged in *; rewrite ?Hh1; try done.
  - intros r' Hr'. rewrite Hr1, length_app in Hr'. simpl in Hr'.
    rewrite fn_lookup_insert_ne by lia. apply Hf. lia.
  - intros r' op' v Hin. eapply has_op_ext; [done|by eapply Ho].
  - intros r' Hp. destruct (decide (r' = length (reqs s))) as [->|Hr'].
    + intros ([r0 x0] & Hr0 & Hin)%list_elem_of_fmap. simpl in Hr0. subst r0. by apply (Hout x0).
    + rewrite fn_lookup_insert_ne in Hp by done. by apply Hu.
  - intros r' x [[-> ->]|[Hr' Hx]]%Hcase; [by rewrite fn_lookup_insert|].
    rewrite fn_lookup_insert_ne by done. by apply Hd.
  - intros r' x [[-> ->]|[Hr' Hx]]%Hcase; [done|]. by apply Hv.
  - intros r' x v e [[-> ->]|[Hr' Hx]]%Hcase; [done|]. by apply Hr.
  - intros r' x [[-> ->]|[Hr' Hx]]%Hcase; [done|]. by eapply Hnr.
  - intros r' x [[-> ->]|[Hr' Hx]]%Hcase; [done|]. by eapply Hg.
  - intros k r' y x Hk [[-> ->]|[Hr' Hx]]%Hcase; [|by eapply Hb].
    apply list_elem_of_lookup_2 in Hk. by destruct (Hout y).
Qed.

Lemma cli_submit op k (s1 : Service CC CR IB) :
  reqs s1 = reqs s ++ [new_req op] → sn s1 = sn s → smask s1 = smask s → sworkers s1 = sworkers s →
  clients s1 = <[c := mkClient (CSpin (length (reqs s)) k) (park_token cl)]> (clients s) → cli_ok s1.
Proof.
  intros Hr1 Hn Hm Hws Hcl. destruct (new_req_cases op s1 Hr1) as (Hnew & Hold & Hcase).
  pose proof (v_cli _ _ _ _ _ _ _ HI) as [C1 C2 C3]. split; rewrite ?Hcl, ?Hn, ?Hm.
  - intros r' x [[-> ->]|[Hr' Hx]]%Hcase; rewrite length_insert; [by eapply lookup_lt_Some|by eapply C1].
  - intros c' x r' [(<- & <- & _)|(Hcc & Hx)]%list_lookup_insert_Some Hreq.
    + simpl in Hreq. simplify_eq. exists (new_req op). by split_and!.
    + destruct (C2 c' x r' Hx Hreq) as (y & Hy & Hwy & Hret & Ht & Hp). exists y.
      split; [by apply Hold|]. split_and!; try done. intros Hpk Hd.
      destruct (Hp Hpk Hd) as [|(u & wk & v & f & Hu)]; [by left|]. right.
      exists u, wk, v, f. by rewrite Hws.
  - intros c' x a op' [(<- & <- & _)|(Hcc & Hx)]%list_lookup_insert_Some Hpc'; [done|by eapply C3].
Qed.

(** [submit_to] creates the completion and pushes the request. *)
Lemma inv_submit accept op i :
  cpc_of cl = CPush accept op → ib_rep i ((op, length (reqs s)) :: QI accept) →
  ∃ loc' QI', SInv capc capr
    (set_client (set_reqs (set_ingress s accept i) (reqs s ++ [new_req op])) c
       (mkClient (CSpin (length (reqs s)) SPIN) (park_token cl)))
    loc' QI' QC QR.
Proof.
  intros Hpc Hi. pose proof HI as [V1 V2 V3 V4 V5 V6 V7 V8 V9 V10 V11].
  destruct (c_accept _ V11 c cl accept op Hc Hpc) as [Hacc Hrt]. set (r := length (reqs s)) in *.
  exists (<[r := LOwn accept]> loc), (<[accept := (op, r) :: QI accept]> QI). set (s1 := set_client _ _ _).
  destruct (new_req_cases op s1 eq_refl) as (Hnew & Hold & _).
  assert (Hfr : loc r = LDone) by (by apply (h_fresh _ _ V9)).
  assert (He : ext s s1).
  { split; [done|done| |done]. intros r' x Hx. exists x. split; [by apply Hold|done]. }
  assert (Hloc : ∀ r' l, loc r' = l → l ≠ LDone → (<[r := LOwn accept]> loc) r' = l).
  { intros r' l Hl Hnl. apply ins_keep; [congruence|done]. }
  split; try done.
  - intros u Hu. destruct (V5 u Hu) as (iu & Hiu & Hrep). simpl. destruct (decide (u = accept)) as [->|Hua].
    + exists i. rewrite fn_lookup_insert. split; [|done]. apply list_lookup_insert_eq. by eapply lookup_lt_Some.
    + exists iu. rewrite fn_lookup_insert_ne by done. by rewrite list_lookup_insert_ne.
  - intros u wk Hu. pose proof (V6 u wk Hu) as Hok.
    assert (Hok1 : worker_ok s1 (<[r := LOwn accept]> loc) (QI u) u wk).
    { apply (worker_frame s s1 loc); [done|done| |].
      - apply apart_insert; rewrite Hfr; done.
      - intros r' Hr'. destruct (reqs s !! r') as [x|] eqn:Hx; [by apply Hold|].
        apply lookup_ge_None in Hx. by rewrite (h_fresh _ _ V9) in Hr'. }
    destruct (decide (u = accept)) as [->|Hua]; [|by rewrite fn_lookup_insert_ne].
    rewrite fn_lookup_insert. destruct Hok1 as [H1 H2 H3 H4 H5 H6 H7 H8]. split; try done.
    + simpl. apply NoDup_cons. split; [|done]. intros ([op' r'] & Hr' & Hin)%list_elem_of_fmap. simpl in Hr'.
      destruct (w_hand _ _ _ _ _ Hok op' r' Hin) as (_ & (x & Hx & _) & _). by destruct (Hold r' x Hx).
    + intros op' r' [[= -> ->]|Hin]%elem_of_cons; [|by apply H2].
      rewrite fn_lookup_insert. split; [done|]. split; [by exists (new_req op)|]. done.
  - intros a b. apply (cmd_frame s s1 loc); [apply V7|done|]. intros r' t Hr'. rewrite Hr'. by apply Hloc.
  - intros a b. apply (rep_frame s s1 loc); [apply V8|done|]. intros r' t Hr'. rewrite Hr'. by apply Hloc.
  - by apply (hist_submit op).
  - by eapply (cli_submit op).
Qed.

(** [wait] takes the value and returns it. *)
Lemma inv_take r q :
  cpc_of cl = CTake r → reqs s !! r = Some q →
  SInv capc capr
    (set_client (set_reqs s (<[r := mkReq (r_op q) (waiter q) (done q) None (r_born q)
                                     (Some (value q, length (hist s)))]> (reqs s))) c
       (mkClient CIdle (park_token cl)))
    loc QI QC QR.
Proof.
  intros Hpc Hq. set (q' := mkReq _ _ _ _ _ _). set (s1 := set_client _ _ _).
  pose proof HI as [V1 V2 V3 V4 V5 V6 V7 V8 V9 V10 V11].
  destruct (c_req _ V11 c cl r Hc) as (x & Hx & Hwx & Hret & Ht & _); [by rewrite Hpc|].
  rewrite Hq in Hx. injection Hx as <-. specialize (Ht Hpc).
  assert (He : ext s s1) by (by eapply ext_req).
  pose proof (proj1 (h_done _ _ V9 r q Hq) Ht) as Hl.
  split; try done.
  - intros u wk Hu. apply (worker_frame s s1 loc); [by apply V6|done|apply apart_refl|].
    intros r' Hr'. simpl. apply list_lookup_insert_ne. congruence.
  - intros i j. by apply (cmd_frame s s1 loc).
  - eapply (hist_req s s1 loc loc r q q'); try done; simpl.
    + intros v e [= <- <-]. destruct (h_val _ _ V9 r q Hq Ht Hret) as [op Hop].
      destruct (h_op _ _ V9 _ _ _ Hop) as (x & Hx & Hxo). simplify_eq.
      apply list_elem_of_lookup in Hop as [i Hi]. exists i. split; [|done]. by eapply lookup_lt_Some.
    + by rewrite Ht.
  - destruct V11 as [C1 C2 C3]. split; simpl.
    + intros r' x [(<- & <- & _)|(Hne & Hx)]%list_lookup_insert_Some; rewrite length_insert;
        [exact (C1 r q Hq)|by eapply C1].
    + intros c' x r' [(<- & <- & _)|(Hcc & Hx)]%list_lookup_insert_Some Hreq; [done|].
      destruct (C2 c' x r' Hx Hreq) as (y & Hy & Hwy & Hrety & Hty & Hpy). exists y.
      split; [|by split_and!]. rewrite list_lookup_insert_ne; [done|]. intros <-. congruence.
    + intros c' x a op [(<- & <- & _)|(Hcc & Hx)]%list_lookup_insert_Some Hpc'; [done|by eapply C3].
Qed.

Lemma client_step_ok sp spurious o :
  client_step c sp spurious cl s = Some o →
  ∃ s' loc' QI', o = Ok s' ∧ SInv capc capr s' loc' QI' QC QR.
Proof.
  pose proof (v_cli _ _ _ _ _ _ _ HI) as Hcli.
  assert (Hgo : ∀ p tok, client_ok s c (mkClient p tok) →
    ∃ s' loc' QI', @Ok (Service CC CR IB) (set_client s c (mkClient p tok)) = Ok s' ∧
      SInv capc capr s' loc' QI' QC QR).
  { intros p tok Hok. eexists _, loc, QI. split; [reflexivity|]. by eapply inv_client. }
  assert (Hreq : ∀ r, client_req (cpc_of cl) = Some r → ∃ q, reqs s !! r = Some q ∧ waiter q = c ∧
    r_ret q = None).
  { intros r Hr. destruct (c_req _ Hcli c cl r Hc Hr) as (q & ? & ? & ? & _). eauto. }
  unfold client_step. destruct (cpc_of cl) as [|accept op|r k|r|r|r] eqn:Hpc; [done|..].
  - intros [= <-]. destruct (c_accept _ Hcli c cl accept op Hc Hpc) as [Hacc _].
    destruct (v_in _ _ _ _ _ _ _ HI accept Hacc) as (i & Hi & Hrep). rewrite Hi. simpl.
    destruct (ib_push_ok sp (op, length (reqs s)) i (QI accept) Hrep) as (i' & -> & Hrep'). simpl.
    destruct (inv_submit accept op i' Hpc Hrep') as (loc' & QI' & HI'). eauto.
  - destruct (Hreq r eq_refl) as (q & Hq & Hwq & Hret). intros [= <-]. rewrite Hq. destruct k as [|k].
    + apply Hgo. split; [|done]. intros r' [= <-]. by exists q.
    + apply Hgo. split; [|by destruct (done q)]. intros r'. destruct (done q) eqn:Hd; intros [= <-]; exists q; done.
  - destruct (Hreq r eq_refl) as (q & Hq & Hwq & Hret). intros [= <-]. rewrite Hq. apply Hgo.
    split; [|by destruct (done q)]. intros r'. destruct (done q) eqn:Hd; intros [= <-]; exists q;
      split_and!; try done. by rewrite Hd.
  - destruct (Hreq r eq_refl) as (q & Hq & Hwq & Hret). destruct (park_token cl || spurious); [|done].
    intros [= <-]. apply Hgo. split; [|done]. intros r' [= <-]. by exists q.
  - destruct (Hreq r eq_refl) as (q & Hq & Hwq & Hret). intros [= <-]. rewrite Hq. simpl.
    eexists _, loc, QI. split; [reflexivity|]. by apply inv_take.
Qed.

Lemma call_ok k :
  cpc_of cl = CIdle →
  let '(accept, op, rr') := accept_of k s in
  client_ok s c (mkClient (CPush accept op) (park_token cl)).
Proof.
  intros Hpc. pose proof (v_route _ _ _ _ _ _ _ HI) as Hrt.
  destruct k as [key v|key|key]; (split; [done|]); intros a op [= <- <-]; (split; [|naive_solver]); try done.
  pose proof (Hrt []) as H0. assert (0 ≤ rr s mod Z.of_nat (sn s) < Z.of_nat (sn s))%Z; [|lia].
  apply Z.mod_pos_bound. lia.
Qed.

End client.

(** ** Every step, and the start *)

Lemma service_step_ok capc capr s loc QI QC QR l o :
  SInv capc capr s loc QI QC QR → tokens_left s → step l s = Some o →
  ∃ s' loc' QI' QC' QR', o = Ok s' ∧ SInv capc capr s' loc' QI' QC' QR'.
Proof.
  intros HI Htok. destruct l as [c k|c sp spurious|id lag|]; simpl.
  - destruct (clients s !! c) as [[p tok]|] eqn:Hc; [|done]. destruct p; try done.
    pose proof (call_ok capc capr s loc QI QC QR c (mkClient CIdle tok) HI k eq_refl) as Hok.
    destruct (accept_of k s) as [[accept op] rr']. intros [= <-].
    eexists _, loc, QI, QC, QR. split; [reflexivity|]. by eapply inv_client.
  - destruct (clients s !! c) as [cl|] eqn:Hc; [|done]. intros Hs.
    destruct (client_step_ok capc capr s loc QI QC QR c cl HI Hc sp spurious o Hs)
      as (s' & loc' & QI' & -> & HI'). eauto 10.
  - destruct (sworkers s !! id) as [wk|] eqn:Hw; [|done]. intros Hs.
    assert (Hne : spc_of wk ≠ SExit) by (intros He; by rewrite He in Hs).
    assert (Hs' : Some ('(w, s) ←r sworker_step id lag wk s; Ok (set_sworker s id w)) = Some o).
    { destruct (spc_of wk); done. }
    destruct (sworker_step_ok capc capr s loc QI QC QR id wk lag HI Hw) as
      (wk' & s' & loc' & QI' & QC' & QR' & Hr & HI'); [by eapply Forall_lookup_1 in Htok|done|].
    rewrite Hr in Hs'. simpl in Hs'. injection Hs' as <-. eauto 10.
  - intros [= <-]. eexists _, loc, QI, QC, QR. split; [reflexivity|].
    destruct HI as [V1 V2 V3 V4 V5 V6 V7 V8 V9 V10 V11]. split; try done.
    + intros w wk Hw. by destruct (V6 w wk Hw).
    + by destruct V9.
    + by destruct V11.
Qed.

Lemma service_start requested c :
  (requested ≤ 2 ^ 63)%Z →
  ∃ capc capr, 2 ≤ capc ∧ 2 ≤ capr ∧
    SInv capc capr (start requested c) (λ _, LDone) (λ _, []) (λ _, []) (λ _, []).
Proof.
  intros Hr. destruct (mesh_size_pow requested Hr) as (e & He & Hk & _).
  destruct (ch_new_ok (T := Command) (C := CC) 4096) as (capc & Hcapc & _ & Hrepc); [lia|].
  destruct (ch_new_ok (T := Reply) (C := CR) 4096) as (capr & Hcapr & _ & Hrepr); [lia|].
  pose proof (Z.pow_pos_nonneg 2 e ltac:(lia) ltac:(lia)) as Hpos.
  assert (Hlt : (2 ^ e < W64)%Z) by (unfold W64; apply Z.pow_lt_mono_r; lia).
  exists capc, capr. unfold start. fold (mesh_size requested). set (k := mesh_size requested) in *.
  assert (Hmask : wsub (Z.of_nat k) 1 = (2 ^ e - 1)%Z).
  { unfold wsub. rewrite Hk. apply wrap64_small. unfold is_u64. lia. }
  split; [done|]. split; [done|]. split; simpl; try done.
  - intros key. rewrite Hmask. pose proof (route_bound key e ltac:(lia)). lia.
  - by rewrite length_replicate.
  - intros i j Hi Hj. eexists. split; [by apply grid_lookup|done].
  - intros i j Hi Hj. eexists. split; [by apply grid_lookup|done].
  - intros w Hw. exists ib_new. split; [by apply lookup_replicate|apply ib_new_ok].
  - intros w wk [-> _]%lookup_replicate. split; simpl; try done.
    + apply NoDup_nil_2.
    + intros op r Hin. by apply elem_of_nil in Hin.
  - intros i j. split; [apply NoDup_nil_2|]. intros x Hx. by apply elem_of_nil in Hx.
  - intros i j. split; [apply NoDup_nil_2|]. intros x Hx. by apply elem_of_nil in Hx.
  - split; simpl; try done; [apply NoDup_nil_2|].
    intros r op v Hin. by apply elem_of_nil in Hin.
  - intros key w wk [-> _]%lookup_replicate. done.
  - split; simpl; try done.
    + intros c' cl r [-> _]%lookup_replicate. done.
    + intros c' cl a op [-> _]%lookup_replicate. done.
Qed.

Lemma service_reachable_inv requested c s :
  (requested ≤ 2 ^ 63)%Z → reachable requested c s →
  ∃ capc capr loc QI QC QR, SInv capc capr s loc QI QC QR.
Proof.
  intros Hr Hs. induction Hs as [|s l s' _ IH Htok Hs].
  - destruct (service_start requested c Hr) as (capc & capr & _ & _ & HI). eauto 10.
  - destruct IH as (capc & capr & loc & QI & QC & QR & HI).
    destruct (service_step_ok _ _ _ _ _ _ _ l _ HI Htok Hs) as (s1 & loc' & QI' & QC' & QR' & [= <-] & HI').
    eauto 10.
Qed.

End invariant.
