(* ===== verification/ServiceFlow.v ===== *)
(** * ServiceFlow: no request of the service gets lost

    [SInv] says that whatever a container of the service holds is where its
    request is. Here is the converse, while nobody has called [shutdown]: a
    request that is not done is in an inbox, in the hands of a worker, or
    awaited under a token ([held]); an awaited token has its message under way
    ([way]); and a client waits for every request that has not returned.
    [worker_flow] shows in addition that a step of a worker either lowers the
    work left ([work]) or is one of the silent moves ([idle_next]) of a worker
    that finds nothing to do ([stuck]). *)

From stdpp Require Import functions.
From S2P Require Import Prelude Channel Ingress Mesh MeshInv Service ServiceInv.
Local Open Scope nat_scope.
Local Open Scope zkv_scope.

(** ** The work left *)

Definition pk_work (p : pk) : nat :=
  match p with KLoop => 0 | KRetry _ _ _ rest => 10 + 11 * length rest end.
Definition ck_work (c : ck) : nat :=
  match c with KPumpEnd _ p => pk_work p | KReply _ _ _ p => 5 + pk_work p end.
Definition fk_work (f : fk) : nat :=
  match f with KServe rest => 11 * length rest | KCollect _ c => ck_work c end.
Definition stage_work (st : stage) : nat :=
  match st with FValue => 3 | FDone => 2 | FUnpark => 1 end.

Definition spc_work (p : spc) : nat :=
  match p with
  | SPump _ _ p => pk_work p
  | SReply _ _ _ p => 5 + pk_work p
  | SCollect _ _ c => ck_work c
  | SServe l => 11 * length l
  | SPush _ _ _ rest => 10 + 11 * length rest
  | SFulfil st _ _ f => stage_work st + fk_work f
  | _ => 0
  end.

Definition cpc_work (p : cpc) : nat :=
  match p with
  | CIdle => 0
  | CPush _ _ => 16
  | CSpin _ _ | CPark _ => 3
  | CCheck _ => 2
  | CTake _ => 1
  end.

(** The calls that have not submitted their request yet. *)
Definition cpc_new (p : cpc) : nat := match p with CPush _ _ => 1 | _ => 0 end.

(** Where a worker goes when it finds nothing to do. *)
Definition idle_next (n : nat) (p : spc) : spc :=
  match p with
  | SPump k b p => if k <? n then SPump (S k) b p else SCollect 0 false (KPumpEnd b p)
  | SReply src from rep p => SCollect 0 false (KReply src from rep p)
  | SCollect k b c =>
    if k <? n then SCollect (S k) b c
    else match c with
         | KPumpEnd b' p => service_after_pump p (b' || b)
         | KReply src from rep p => SReply src from rep p
         end
  | SDrain b => SStop b
  | SServe _ => SStop true
  | SPush o c r rest => SPump 0 false (KRetry o c r rest)
  | SStop _ => SPump 0 false KLoop
  | p => p
  end.

(** Nobody has called [shutdown], so no worker is on its way out. *)
Definition staying (p : spc) : Prop := match p with SHead | SExit => False | _ => True end.

(** A worker holds a request: in its hands, while it fulfils it, or awaited
    under a token. *)
Definition held_by (wk : ServiceWorker) (r : nat) : Prop :=
  (∃ op, (op, r) ∈ hand (spc_of wk)) ∨
  (∃ st v, fulfilling (spc_of wk) = Some (st, r, v) ∧ st ≠ FUnpark) ∨
  (∃ tok, client_waiters wk !! tok = Some r).

Section flow.
Context {CC CR IB : Type} `{!Channel Command CC, !Channel Reply CR, !Inbox ClientReq IB}.
Context `{!ChannelLaws Command CC, !ChannelLaws Reply CR, !InboxLaws ClientReq IB}.
Implicit Types (s : Service CC CR IB) (QI : nat → list ClientReq)
  (QC : nat * nat → list Command) (QR : nat * nat → list Reply).

Definition held s QI (r : nat) : Prop :=
  ∃ w wk, sworkers s !! w = Some wk ∧ (held_by wk r ∨ ∃ op, (op, r) ∈ QI w).

(** Worker [u] or its queues have the message of the token [tok] of [w]. *)
Definition way_at QC QR (w : nat) (tok : Z) (u : nat) (wk : ServiceWorker) : Prop :=
  (u = w ∧ ∃ o k, pushing (spc_of wk) = Some (o, CGet k w tok)) ∨
  (∃ k, CGet k w tok ∈ QC (w, u)) ∨
  (∃ v, replying (spc_of wk) = Some (w, mkReply tok v)) ∨
  (∃ v, mkReply tok v ∈ QR (u, w)).
Definition way s QC QR (w : nat) (tok : Z) : Prop :=
  ∃ u wk, sworkers s !! u = Some wk ∧ way_at QC QR w tok u wk.

Definition tokens s : nat := sum_list_with (λ wk, Z.to_nat (next_token wk)) (sworkers s).
Definition hands s : nat := sum_list_with (λ wk, length (hand (spc_of wk))) (sworkers s).
Definition inboxes s QI : nat := sum_list_with (λ w, length (QI w)) (seq 0 (sn s)).

Record flow s QI QC QR : Prop := mkFlow {
  f_stay : ∀ w wk, sworkers s !! w = Some wk → staying (spc_of wk);
  f_held : ∀ r q, reqs s !! r = Some q → done q = false → held s QI r;
  f_way : ∀ w wk tok r, sworkers s !! w = Some wk → client_waiters wk !! tok = Some r →
    way s QC QR w tok;
  f_ret : ∀ r q, reqs s !! r = Some q → r_ret q = None →
    ∃ cl, clients s !! waiter q = Some cl ∧ client_req (cpc_of cl) = Some r;
  f_count : tokens s + inboxes s QI + hands s ≤ length (reqs s)
}.

Definition work s QI QC QR : nat :=
  sum_list_with (λ wk, spc_work (spc_of wk)) (sworkers s)
  + 6 * sum_list_with (λ ij, length (QC ij)) (pairs (sn s))
  + 4 * sum_list_with (λ ij, length (QR ij)) (pairs (sn s))
  + 12 * inboxes s QI
  + sum_list_with (λ cl, cpc_work (cpc_of cl)) (clients s).

(** Why worker [w] found nothing to do at [p]. *)
Definition stuck (capc capr n : nat) QI QC QR (w : nat) (p : spc) : Prop :=
  match p with
  | SPump k _ _ => k < n → QC (k, w) = []
  | SReply _ from _ _ => from < n ∧ capr ≤ length (QR (w, from))
  | SCollect k _ _ => k < n → QR (k, w) = []
  | SDrain _ => QI w = []
  | SServe l => l = []
  | SPush o _ _ _ => o < n ∧ capc ≤ length (QC (w, o))
  | SStop _ => True
  | _ => False
  end.

(** What the queues and inboxes of a state hold. *)
Record reps (capc capr : nat) s QI QC QR : Prop := mkReps {
  p_cmd : net_rep (sn s) capc (scmd s) QC;
  p_reply : net_rep (sn s) capr (sreply s) QR;
  p_in : ∀ w, w < sn s → ∃ i, ingress s !! w = Some i ∧ ib_rep i (QI w)
}.

Lemma SInv_reps capc capr s loc QI QC QR : SInv capc capr s loc QI QC QR → reps capc capr s QI QC QR.
Proof. intros HI. split; apply HI. Qed.

(** The contents of a queue are determined by what it answers. *)
Lemma ch_rep_fun {T C} `{!Channel T C, !ChannelLaws T C} (q : list T) : ∀ c cap q',
  ch_rep c cap q → ch_rep c cap q' → q = q'.
Proof.
  induction q as [|v q IH]; intros c cap q' H1 H2; pose proof (ch_pop_ok _ _ _ H1) as P1;
    pose proof (ch_pop_ok _ _ _ H2) as P2; destruct q' as [|v' q']; simpl in *; try done.
  - by destruct P2 as (c' & E & _); rewrite E in P1.
  - by destruct P1 as (c' & E & _); rewrite E in P2.
  - destruct P1 as (c1 & E1 & R1), P2 as (c2 & E2 & R2). rewrite E1 in E2. simplify_eq.
    f_equal. eauto.
Qed.

Lemma net_rep_fun {T C} `{!Channel T C, !ChannelLaws T C} (k cap : nat) (g : gmap (nat * nat) C)
    (Q Q' : nat * nat → list T) (i j : nat) :
  net_rep k cap g Q → net_rep k cap g Q' → i < k → j < k → Q (i, j) = Q' (i, j).
Proof.
  intros H1 H2 Hi Hj. destruct (H1 i j Hi Hj) as (c & Hc & R1), (H2 i j Hi Hj) as (c' & Hc' & R2).
  rewrite Hc in Hc'. simplify_eq. by eapply ch_rep_fun.
Qed.

Lemma inbox_fun i (q q' : list ClientReq) : ib_rep (I := IB) i q → ib_rep i q' → q = q'.
Proof.
  intros H1 H2. destruct (ib_drain_ok i q H1) as (i1 & E1 & _), (ib_drain_ok i q' H2) as (i2 & E2 & _).
  rewrite E1 in E2. by simplify_eq.
Qed.

(** Two views of one state agree on the queues that exist. *)
Definition agree n QI QC QR QI' QC' QR' : Prop :=
  (∀ w, w < n → QI w = QI' w) ∧ (∀ i j, i < n → j < n → QC (i, j) = QC' (i, j)) ∧
  (∀ i j, i < n → j < n → QR (i, j) = QR' (i, j)).

Lemma reps_agree capc capr s QI QC QR QI' QC' QR' :
  reps capc capr s QI QC QR → reps capc capr s QI' QC' QR' → agree (sn s) QI QC QR QI' QC' QR'.
Proof.
  intros [C1 R1 I1] [C2 R2 I2]. split_and!.
  - intros w Hw. destruct (I1 w Hw) as (i & Hi & H1), (I2 w Hw) as (i' & Hi' & H2).
    rewrite Hi in Hi'. simplify_eq. by eapply inbox_fun.
  - intros i j Hi Hj. by eapply net_rep_fun.
  - intros i j Hi Hj. by eapply net_rep_fun.
Qed.

Lemma sum_ext {A} (f g : A → nat) l : (∀ x, x ∈ l → f x = g x) → sum_list_with f l = sum_list_with g l.
Proof.
  induction l as [|x l IH]; intros H; simpl; [done|]. rewrite (H x) by apply list_elem_of_here.
  rewrite IH; [done|]. intros y Hy. apply H. by apply list_elem_of_further.
Qed.

Lemma pairs_inv k i j : (i, j) ∈ pairs k → i < k ∧ j < k.
Proof. intros [Hi%in_seq Hj%in_seq]%list_elem_of_In%in_prod_iff. lia. Qed.

Lemma inboxes_agree s QI QI' : (∀ w, w < sn s → QI w = QI' w) → inboxes s QI = inboxes s QI'.
Proof. intros H. apply sum_ext. intros w Hw%elem_of_seq. rewrite H; [done|lia]. Qed.

Lemma work_agree s QI QC QR QI' QC' QR' :
  agree (sn s) QI QC QR QI' QC' QR' → work s QI QC QR = work s QI' QC' QR'.
Proof.
  intros (HI & HC & HR). unfold work. rewrite (inboxes_agree s QI QI') by done.
  rewrite (sum_ext (λ ij, length (QC ij)) (λ ij, length (QC' ij))),
    (sum_ext (λ ij, length (QR ij)) (λ ij, length (QR' ij))); [done|..];
    intros [i j] [Hi Hj]%pairs_inv; [by rewrite HR|by rewrite HC].
Qed.

Lemma flow_agree s QI QC QR QI' QC' QR' :
  length (sworkers s) = sn s → agree (sn s) QI QC QR QI' QC' QR' →
  flow s QI QC QR → flow s QI' QC' QR'.
Proof.
  intros Hn (HI & HC & HR) [F1 F2 F3 F4 F5].
  assert (Hlt : ∀ w wk, sworkers s !! w = Some wk → w < sn s).
  { intros w wk Hw%lookup_lt_Some. lia. }
  split; [done| | |done|by rewrite <- (inboxes_agree s QI QI')].
  - intros r q Hq Hd. destruct (F2 r q Hq Hd) as (w & wk & Hw & Hh). exists w, wk.
    split; [done|]. by rewrite <- HI by eauto.
  - intros w wk tok r Hw Ht. destruct (F3 w wk tok r Hw Ht) as (u & wku & Hu & Hway).
    exists u, wku. split; [done|]. unfold way_at. by rewrite <- HC, <- HR by eauto.
Qed.

Definition qlen {T} (n : nat) (Q : nat * nat → list T) : nat :=
  sum_list_with (λ ij, length (Q ij)) (pairs n).

Lemma qlen_update {T} n (Q : nat * nat → list T) i j q :
  i < n → j < n → qlen n (<[(i, j) := q]> Q) + length (Q (i, j)) = qlen n Q + length q.
Proof. intros Hi Hj. apply (sum_fn_insert length); [apply pairs_NoDup|by apply pairs_elem]. Qed.

Lemma fn_snoc_elem {T} (Q : nat * nat → list T) ij v ij' c :
  c ∈ Q ij' → c ∈ <[ij := Q ij ++ [v]]> Q ij'.
Proof.
  intros Hc. destruct (decide (ij' = ij)) as [-> | Hne].
  - rewrite fn_lookup_insert. set_solver.
  - by rewrite fn_lookup_insert_ne.
Qed.

Lemma inboxes_update s QI QI' w :
  w < sn s → (∀ u, u ≠ w → QI' u = QI u) →
  inboxes s QI' + length (QI w) = inboxes s QI + length (QI' w).
Proof.
  intros Hw Hne. rewrite (inboxes_agree s QI' (<[w := QI' w]> QI)).
  - apply (sum_fn_insert length); [apply NoDup_seq|]. apply elem_of_seq. lia.
  - intros u _. destruct (decide (u = w)) as [-> | Hu]; [by rewrite fn_lookup_insert|].
    rewrite fn_lookup_insert_ne by done. by apply Hne.
Qed.

Lemma scmd_same s : set_scmd s (scmd s) = s.
Proof. by destruct s. Qed.
Lemma sreply_same s : set_sreply s (sreply s) = s.
Proof. by destruct s. Qed.

(** ** A step of a worker *)

Section worker.
Context (capc capr : nat) (s : Service CC CR IB) (loc : nat → Loc).
Context (QI : nat → list ClientReq) (QC : nat * nat → list Command).
Context (QR : nat * nat → list Reply) (w : nat) (wk : ServiceWorker) (lag : bool).
Hypothesis HI : SInv capc capr s loc QI QC QR.
Hypothesis HF : flow s QI QC QR.
Hypothesis Hw : sworkers s !! w = Some wk.
Hypothesis Htok : (next_token wk < 2 ^ 48)%Z.
Hypothesis Hstop : stop s = false.

Local Lemma w_lt : w < sn s.
Proof. by eapply worker_lt. Qed.

(** What the rest of the state may look like after the step. *)
Record around (s1 : Service CC CR IB) : Prop := mkAround {
  a_n : sn s1 = sn s;
  a_stop : stop s1 = false;
  a_workers : sworkers s1 = sworkers s;
  a_len : length (reqs s1) = length (reqs s);
  a_reqs : ∀ r q, reqs s1 !! r = Some q → ∃ q0, reqs s !! r = Some q0 ∧ waiter q = waiter q0 ∧
    r_ret q = r_ret q0 ∧ (done q = false → done q0 = false);
  a_clients : cpc_of <$> clients s1 = cpc_of <$> clients s
}.

Lemma around_same s1 :
  sn s1 = sn s → stop s1 = stop s → sworkers s1 = sworkers s → reqs s1 = reqs s → clients s1 = clients s →
  around s1.
Proof. intros E1 E2 E3 E4 E5. split; rewrite ?E1, ?E2, ?E3, ?E4, ?E5; eauto. Qed.

Lemma flow_build s1 wk' QI' QC' QR' :
  around s1 → staying (spc_of wk') →
  (∀ r, held_by wk r ∨ (∃ op, (op, r) ∈ QI w) →
     held_by wk' r ∨ (∃ op, (op, r) ∈ QI' w) ∨ (∃ q, reqs s1 !! r = Some q ∧ done q = true)) →
  (∀ u, u ≠ w → QI' u = QI u) →
  (∀ tok r, client_waiters wk' !! tok = Some r →
     client_waiters wk !! tok = Some r ∨ way_at QC' QR' w tok w wk') →
  (∀ x tok u wku, sworkers s !! u = Some wku → way_at QC QR x tok u wku →
     (x = w → is_Some (client_waiters wk' !! tok)) →
     ∃ u' wku', <[w := wk']> (sworkers s) !! u' = Some wku' ∧ way_at QC' QR' x tok u' wku') →
  Z.to_nat (next_token wk') + length (hand (spc_of wk')) + length (QI' w)
    ≤ Z.to_nat (next_token wk) + length (hand (spc_of wk)) + length (QI w) →
  flow (set_sworker s1 w wk') QI' QC' QR'.
Proof.
  intros [A1 A2 A3 A4 A5 A6] Hst Hheld HQ Hwt Hway Hcnt. destruct HF as [F1 F2 F3 F4 F5].
  assert (Hlen : w < length (sworkers s)) by (by eapply lookup_lt_Some).
  split; simpl; rewrite ?A3.
  - intros u wku [(<- & <- & _)|(_ & Hu)]%list_lookup_insert_Some; [done|by eapply F1].
  - intros r q Hq Hd. destruct (A5 r q Hq) as (q0 & Hq0 & _ & _ & Hd0).
    destruct (F2 r q0 Hq0 (Hd0 Hd)) as (u & wku & Hu & Hh). unfold held. simpl. rewrite A3.
    destruct (decide (u = w)) as [-> | Hne].
    + rewrite Hw in Hu. simplify_eq. exists w, wk'. split; [by apply list_lookup_insert_eq|].
      destruct (Hheld r Hh) as [?|[?|(q' & ? & ?)]]; [auto|auto|]. congruence.
    + exists u, wku. rewrite list_lookup_insert_ne, HQ by done. done.
  - intros x wkx tok r [(<- & <- & _)|(Hne & Hx)]%list_lookup_insert_Some Ht; unfold way; simpl; rewrite A3.
    + destruct (Hwt tok r Ht) as [Hold|Hnew].
      * destruct (F3 w wk tok r Hw Hold) as (u & wku & Hu & Hat). eapply Hway; eauto.
      * exists w, wk'. split; [by apply list_lookup_insert_eq|done].
    + destruct (F3 x wkx tok r Hx Ht) as (u & wku & Hu & Hat). eapply Hway; [done|done|]. by intros ->.
  - intros r q Hq Hr. destruct (A5 r q Hq) as (q0 & Hq0 & -> & Hr0 & _). rewrite Hr in Hr0.
    destruct (F4 r q0 Hq0 (eq_sym Hr0)) as (cl & Hc & Hreq).
    apply (f_equal (.!! waiter q0)) in A6. rewrite !list_lookup_fmap, Hc in A6. simpl in A6.
    destruct (clients s1 !! waiter q0) as [cl'|]; [|done]. simpl in A6. simplify_eq.
    exists cl'. split; [done|]. congruence.
  - unfold tokens, hands, inboxes in *. simpl. rewrite A1, A3, A4.
    pose proof (inboxes_update s QI QI' w w_lt HQ) as Hi. unfold inboxes in Hi.
    pose proof (sum_insert (λ wk, Z.to_nat (next_token wk)) (sworkers s) w wk wk' Hw).
    pose proof (sum_insert (λ wk, length (hand (spc_of wk))) (sworkers s) w wk wk' Hw).
    simpl in *. lia.
Qed.

(** The message of every token stays where it is. *)
Lemma way_same wk' QC' QR' :
  pushing (spc_of wk') = pushing (spc_of wk) → replying (spc_of wk') = replying (spc_of wk) →
  (∀ ij c, c ∈ QC ij → c ∈ QC' ij) → (∀ ij c, c ∈ QR ij → c ∈ QR' ij) →
  ∀ x tok u wku, sworkers s !! u = Some wku → way_at QC QR x tok u wku →
  ∃ u' wku', <[w := wk']> (sworkers s) !! u' = Some wku' ∧ way_at QC' QR' x tok u' wku'.
Proof.
  intros Ep Er HC HR x tok u wku Hu Hat. unfold way_at in *.
  destruct (decide (u = w)) as [-> | Hne].
  - rewrite Hw in Hu. simplify_eq. exists w, wk'.
    split; [apply list_lookup_insert_eq; by eapply lookup_lt_Some|]. rewrite Ep, Er. naive_solver.
  - exists u, wku. rewrite list_lookup_insert_ne by done. split; [done|]. naive_solver.
Qed.

Lemma work_build s1 wk' QI' QC' QR' :
  around s1 → (∀ u, u ≠ w → QI' u = QI u) →
  work (set_sworker s1 w wk') QI' QC' QR' + spc_work (spc_of wk)
    + 6 * qlen (sn s) QC + 4 * qlen (sn s) QR + 12 * length (QI w)
  = work s QI QC QR + spc_work (spc_of wk')
    + 6 * qlen (sn s) QC' + 4 * qlen (sn s) QR' + 12 * length (QI' w).
Proof.
  intros [A1 A2 A3 A4 A5 A6] HQ. pose proof (inboxes_update s QI QI' w w_lt HQ) as Hi.
  unfold work, qlen, inboxes in *. simpl. rewrite A1, A3.
  pose proof (sum_insert (λ wk, spc_work (spc_of wk)) (sworkers s) w wk wk' Hw).
  assert (E : sum_list_with (λ cl, cpc_work (cpc_of cl)) (clients s1)
            = sum_list_with (λ cl, cpc_work (cpc_of cl)) (clients s)).
  { assert (H' : ∀ l, sum_list_with (λ cl, cpc_work (cpc_of cl)) l = sum_list_with cpc_work (cpc_of <$> l)).
    { intros l. induction l as [|x l IH]; simpl; [done|]. by rewrite IH. }
    by rewrite !H', A6. }
  simpl in *. lia.
Qed.

Lemma idle_keeps n p :
  staying p → fulfilling p = None → (∀ l, p = SServe l → l = []) →
  hand (idle_next n p) = hand p ∧ pushing (idle_next n p) = pushing p ∧
  replying (idle_next n p) = replying p ∧ fulfilling (idle_next n p) = None ∧
  staying (idle_next n p) ∧ spc_work (idle_next n p) = spc_work p.
Proof.
  intros Hs Hf Hl. destruct p as [k b p|src from rep p|k b c|b|l|o c r rest|st r v f|b| |]; try done; simpl.
  - by destruct (k <? n).
  - destruct (k <? n); [done|]. destruct c as [b' p|src from rep p]; [|done]. by destruct p.
  - by rewrite (Hl l eq_refl).
Qed.

(** The step goes through, keeps the flow, and does some of the work or is
    silent. *)
Definition moved (x : res (ServiceWorker * Service CC CR IB)) : Prop :=
  ∃ wk' s1 QI' QC' QR', x = Ok (wk', s1) ∧ around s1 ∧
    reps capc capr (set_sworker s1 w wk') QI' QC' QR' ∧ flow (set_sworker s1 w wk') QI' QC' QR' ∧
    (work (set_sworker s1 w wk') QI' QC' QR' < work s QI QC QR ∨
     (wk' = set_spc wk (idle_next (sn s) (spc_of wk)) ∧ QI' = QI ∧ QC' = QC ∧ QR' = QR ∧
      work (set_sworker s1 w wk') QI QC QR = work s QI QC QR ∧
      (lag = false → stuck capc capr (sn s) QI QC QR w (spc_of wk)))).

Lemma moved_silent s1 :
  around s1 → reps capc capr s1 QI QC QR →
  fulfilling (spc_of wk) = None → (∀ l, spc_of wk = SServe l → l = []) →
  (lag = false → stuck capc capr (sn s) QI QC QR w (spc_of wk)) →
  moved (Ok (set_spc wk (idle_next (sn s) (spc_of wk)), s1)).
Proof.
  intros Ha Hr Hf Hl Hst.
  destruct (idle_keeps (sn s) (spc_of wk)) as (E1 & E2 & E3 & E4 & E5 & E6);
    [by eapply (f_stay _ _ _ _ HF)|done|done|].
  eexists _, s1, QI, QC, QR. split; [reflexivity|]. split; [done|].
  split; [by destruct Hr|].
  split; [|right; split_and!; try done; pose proof (work_build s1 (set_spc wk (idle_next (sn s) (spc_of wk)))
    QI QC QR Ha ltac:(done)) as Hwk; simpl in Hwk; lia].
  apply flow_build; simpl; try done.
  - intros r Hh. destruct Hh as [Hh|?]; [left|by right; left]. unfold held_by in *. simpl.
    rewrite E1, E4, <- Hf. done.
  - auto.
  - intros x tok u wku Hu Hat _. by eapply way_same.
  - by rewrite E1.
Qed.

Lemma moved_idle :
  fulfilling (spc_of wk) = None → (∀ l, spc_of wk = SServe l → l = []) →
  (lag = false → stuck capc capr (sn s) QI QC QR w (spc_of wk)) →
  moved (Ok (set_spc wk (idle_next (sn s) (spc_of wk)), s)).
Proof. apply moved_silent; [by apply around_same|by eapply SInv_reps]. Qed.

Lemma moved_work s1 wk' QI' QC' QR' :
  around s1 → reps capc capr (set_sworker s1 w wk') QI' QC' QR' →
  flow (set_sworker s1 w wk') QI' QC' QR' → (∀ u, u ≠ w → QI' u = QI u) →
  spc_work (spc_of wk') + 6 * qlen (sn s) QC' + 4 * qlen (sn s) QR' + 12 * length (QI' w)
    < spc_work (spc_of wk) + 6 * qlen (sn s) QC + 4 * qlen (sn s) QR + 12 * length (QI w) →
  moved (Ok (wk', s1)).
Proof.
  intros Ha Hr Hf HQ Hlt. exists wk', s1, QI', QC', QR'. do 4 (split; [done|]). left.
  pose proof (work_build s1 wk' QI' QC' QR' Ha HQ). lia.
Qed.

Lemma pump_moved src progressed p :
  spc_of wk = SPump src progressed p → moved (sworker_step w lag wk s).
Proof.
  intros Hpc. unfold sworker_step. rewrite Hpc.
  assert (Hsil : (src < sn s → lag = false → QC (src, w) = []) →
    moved (Ok (set_spc wk (idle_next (sn s) (spc_of wk)), s))).
  { intros HQ. apply moved_idle; rewrite Hpc; simpl; try done. auto. }
  rewrite Hpc in Hsil. simpl in Hsil.
  destruct (Nat.ltb_spec src (sn s)) as [Hlt|Hge]; [|apply Hsil; lia].
  destruct (net_pop_ok (sn s) capc (scmd s) QC lag src w (v_cmd _ _ _ _ _ _ _ HI) Hlt w_lt)
    as [[-> HQ]|(c & q & g & HQ & -> & Hg)]; simpl.
  { rewrite scmd_same. auto. }
  destruct (proj2 (v_cq _ _ _ _ _ _ _ HI src w) c) as (key & tok & r & -> & _); [rewrite HQ; set_solver|].
  set (s1 := match waiting_for _ _ _ with Some _ => _ | None => _ end).
  assert (Ha : around s1 ∧ scmd s1 = g ∧ sreply s1 = sreply s ∧ ingress s1 = ingress s).
  { unfold s1. destruct (waiting_for _ _ _); by split_and!; [apply around_same|..]. }
  destruct Ha as (Ha & Eg & Er & Ei). clearbody s1.
  apply (moved_work _ _ QI (<[(src, w) := q]> QC) QR); try done.
  - destruct (SInv_reps _ _ _ _ _ _ _ HI) as [P1 P2 P3].
    split; simpl; rewrite ?Eg, ?Er, ?Ei, (a_n _ Ha); done.
  - apply flow_build; simpl; rewrite ?Hpc; simpl; try done.
    + intros r' [Hh|?]; [left|by right; left]. unfold held_by in *. simpl. by rewrite Hpc in Hh.
    + auto.
    + intros x tk u wku Hu Hat _. unfold way_at in Hat.
      destruct (decide (u = w)) as [-> | Hne].
      * rewrite Hw in Hu. simplify_eq. rewrite Hpc in Hat. simpl in Hat. eexists w, _.
        split; [apply list_lookup_insert_eq; by eapply lookup_lt_Some|]. unfold way_at. simpl.
        destruct Hat as [?|[[k Hk]|[[v Hv]|?]]]; [by left| |done|by do 3 right].
        destruct (decide (x = src)) as [-> | Hx].
        -- rewrite HQ in Hk. apply elem_of_cons in Hk as [[= -> ->]|Hk].
           ++ right. right. left. eauto.
           ++ right. left. exists k. by rewrite fn_lookup_insert.
        -- right. left. exists k. by rewrite fn_lookup_insert_ne by congruence.
      * exists u, wku. rewrite list_lookup_insert_ne by done. split; [done|]. unfold way_at.
        destruct Hat as [?|[[k Hk]|?]]; [by left| |by do 2 right].
        right. left. exists k. by rewrite fn_lookup_insert_ne by congruence.
  - pose proof (qlen_update (sn s) QC src w q Hlt w_lt) as E. rewrite HQ in E. rewrite Hpc. simpl in *. lia.
Qed.

Lemma reply_moved src from rep p :
  spc_of wk = SReply src from rep p → moved (sworker_step w lag wk s).
Proof.
  intros Hpc. unfold sworker_step. rewrite Hpc.
  destruct (w_rep _ _ _ _ _ (v_w _ _ _ _ _ _ _ HI w wk Hw) from rep) as (Hfrom & _); [by rewrite Hpc|].
  destruct (net_push_ok (sn s) capr (sreply s) QR lag w from rep (v_reply _ _ _ _ _ _ _ HI) w_lt Hfrom)
    as [[-> HQ]|(g & -> & Hg)]; simpl.
  { rewrite sreply_same. pose proof moved_idle as Hsil. rewrite Hpc in Hsil. apply Hsil; simpl; auto || done. }
  assert (Ha : around (set_sreply s g)) by by apply around_same.
  apply (moved_work _ _ QI QC (<[(w, from) := QR (w, from) ++ [rep]]> QR)); try done.
  - destruct (SInv_reps _ _ _ _ _ _ _ HI) as [P1 P2 P3]. by split.
  - apply flow_build; simpl; rewrite ?Hpc; simpl; try done.
    + intros r' [Hh|?]; [left|by right; left]. unfold held_by in *. simpl. by rewrite Hpc in Hh.
    + auto.
    + intros x tk u wku Hu Hat _. unfold way_at in Hat.
      destruct (decide (u = w)) as [-> | Hne].
      * rewrite Hw in Hu. simplify_eq. rewrite Hpc in Hat. simpl in Hat. eexists w, _.
        split; [apply list_lookup_insert_eq; by eapply lookup_lt_Some|]. unfold way_at. simpl.
        destruct Hat as [?|[?|[[v [= -> ->]]|[v Hv]]]]; [by left|by right; left| |].
        -- do 3 right. exists v. rewrite fn_lookup_insert. set_solver.
        -- do 3 right. exists v. by apply fn_snoc_elem.
      * exists u, wku. rewrite list_lookup_insert_ne by done. split; [done|]. unfold way_at.
        pose proof (λ v, fn_snoc_elem QR (w, from) rep (u, x) (mkReply tk v)). naive_solver.
  - pose proof (qlen_update (sn s) QR w from (QR (w, from) ++ [rep]) w_lt Hfrom) as E.
    rewrite length_app in E. rewrite Hpc. simpl in *. lia.
Qed.

Lemma collect_moved src progressed c :
  spc_of wk = SCollect src progressed c → moved (sworker_step w lag wk s).
Proof.
  intros Hpc. unfold sworker_step. rewrite Hpc.
  assert (Hsil : (src < sn s → lag = false → QR (src, w) = []) →
    moved (Ok (set_spc wk (idle_next (sn s) (spc_of wk)), s))).
  { intros HQ. apply moved_idle; rewrite Hpc; simpl; try done. auto. }
  rewrite Hpc in Hsil. simpl in Hsil.
  destruct (Nat.ltb_spec src (sn s)) as [Hlt|Hge]; [|apply Hsil; lia].
  destruct (net_pop_ok (sn s) capr (sreply s) QR lag src w (v_reply _ _ _ _ _ _ _ HI) Hlt w_lt)
    as [[-> HQ]|(rep & q & g & HQ & -> & Hg)]; simpl.
  { rewrite sreply_same. auto. }
  destruct (inv_pop_reply capc capr s loc QI QC QR w wk HI Hw src progressed c rep q g)
    as (r & _ & Hr & _); try done. rewrite Hr.
  assert (Ha : around (set_sreply s g)) by by apply around_same.
  apply (moved_work _ _ QI QC (<[(src, w) := q]> QR)); try done.
  - destruct (SInv_reps _ _ _ _ _ _ _ HI) as [P1 P2 P3]. by split.
  - apply flow_build; simpl; rewrite ?Hpc; simpl; try done.
    + intros r' [Hh|?]; [left|by right; left]. unfold held_by in *. simpl. rewrite Hpc in Hh. simpl in Hh.
      destruct Hh as [?|[(? & ? & ? & _)|[tok Ht]]]; [by left|done|].
      destruct (decide (tok = token rep)) as [-> | Hne].
      * right. left. exists FValue, (r_val rep). split; [congruence|done].
      * do 2 right. exists tok. by rewrite lookup_delete_ne.
    + intros tok r' [_ ?]%lookup_delete_Some. auto.
    + intros x tk u wku Hu Hat Hx. unfold way_at in Hat.
      assert (Hrest : ∀ v, mkReply tk v ∈ QR (u, x) → mkReply tk v ∈ <[(src, w) := q]> QR (u, x)).
      { intros v Hv. destruct (decide ((u, x) = (src, w))) as [[= -> ->]|Hne];
          [|by rewrite fn_lookup_insert_ne].
        rewrite fn_lookup_insert. rewrite HQ in Hv. apply elem_of_cons in Hv as [<-|]; [|done].
        destruct (Hx eq_refl) as [? [? _]%lookup_delete_Some]. done. }
      destruct (decide (u = w)) as [-> | Hne].
      * rewrite Hw in Hu. simplify_eq. rewrite Hpc in Hat. eexists w, _.
        split; [apply list_lookup_insert_eq; by eapply lookup_lt_Some|]. unfold way_at. simpl in *.
        naive_solver.
      * exists u, wku. rewrite list_lookup_insert_ne by done. split; [done|]. unfold way_at. naive_solver.
  - pose proof (qlen_update (sn s) QR src w q Hlt w_lt) as E. rewrite HQ in E. rewrite Hpc. simpl in *. lia.
Qed.

Lemma push_moved owner c r rest :
  spc_of wk = SPush owner c r rest → moved (sworker_step w lag wk s).
Proof.
  intros Hpc. unfold sworker_step. rewrite Hpc.
  destruct (w_push _ _ _ _ _ (v_w _ _ _ _ _ _ _ HI w wk Hw) owner c) as (key & tok & r' & -> & -> & _);
    [by rewrite Hpc|].
  pose proof (v_route _ _ _ _ _ _ _ HI key) as Ho. set (o := route key (smask s)) in *. clearbody o.
  destruct (net_push_ok (sn s) capc (scmd s) QC lag w o (CGet key w tok) (v_cmd _ _ _ _ _ _ _ HI) w_lt Ho)
    as [[-> HQ]|(g & -> & Hg)]; simpl.
  { rewrite scmd_same. pose proof moved_idle as Hsil. rewrite Hpc in Hsil. apply Hsil; simpl; auto || done. }
  assert (Ha : around (set_scmd s g)) by by apply around_same.
  apply (moved_work _ _ QI (<[(w, o) := QC (w, o) ++ [CGet key w tok]]> QC) QR); try done.
  - destruct (SInv_reps _ _ _ _ _ _ _ HI) as [P1 P2 P3]. by split.
  - apply flow_build; simpl; rewrite ?Hpc; simpl; try done.
    + intros r1 [Hh|?]; [left|by right; left]. unfold held_by in *. simpl. by rewrite Hpc in Hh.
    + auto.
    + intros x tk u wku Hu Hat _. unfold way_at in Hat.
      pose proof (λ k, fn_snoc_elem QC (w, o) (CGet key w tok) (x, u) (CGet k x tk)) as Hsn.
      destruct (decide (u = w)) as [-> | Hne].
      * rewrite Hw in Hu. injection Hu as <-. rewrite Hpc in Hat. simpl in Hat.
        destruct Hat as [(<- & o' & k & [= <- <- <-])|Hat].
        -- destruct (worker_at _ _ _ _ _ _ _ HI o Ho) as [wko Hwko].
           destruct (lookup_lt_is_Some_2 (<[w := set_spc wk (SServe rest)]> (sworkers s)) o) as [wk2 Hwk2].
           { rewrite length_insert. by eapply lookup_lt_Some. }
           exists o, wk2. split; [done|]. right. left. exists key. rewrite fn_lookup_insert. set_solver.
        -- eexists w, _. split; [apply list_lookup_insert_eq; by eapply lookup_lt_Some|].
           unfold way_at. simpl. naive_solver.
      * exists u, wku. rewrite list_lookup_insert_ne by done. split; [done|]. unfold way_at. naive_solver.
  - pose proof (qlen_update (sn s) QC w o (QC (w, o) ++ [CGet key w tok]) w_lt Ho) as E.
    rewrite length_app in E. rewrite Hpc. simpl in *. lia.
Qed.

Lemma drain_moved progressed : spc_of wk = SDrain progressed → moved (sworker_step w lag wk s).
Proof.
  intros Hpc. unfold sworker_step. rewrite Hpc.
  destruct (v_in _ _ _ _ _ _ _ HI w w_lt) as (i & Hi & Hrep). rewrite Hi. simpl.
  destruct (ib_drain_ok i (QI w) Hrep) as (i' & -> & Hrep'). simpl.
  assert (Ha : around (set_ingress s w i')) by by apply around_same.
  assert (Hl : w < length (ingress s)) by by eapply lookup_lt_Some.
  assert (Hr : reps capc capr (set_ingress s w i') (<[w := []]> QI) QC QR).
  { destruct (SInv_reps _ _ _ _ _ _ _ HI) as [P1 P2 P3]. split; simpl; try done.
    intros u Hu. destruct (decide (u = w)) as [-> | Hne].
    - exists i'. by rewrite list_lookup_insert_eq, fn_lookup_insert.
    - rewrite list_lookup_insert_ne, fn_lookup_insert_ne by done. by apply P3. }
  destruct (QI w) as [|x l] eqn:HQ.
  - pose proof (moved_silent (set_ingress s w i') Ha) as Hsil. rewrite Hpc in Hsil. apply Hsil; try done.
    destruct Hr as [P1 P2 P3]. split; try done. intros u Hu. destruct (P3 u Hu) as (j & Hj & Hrj).
    exists j. split; [done|]. destruct (decide (u = w)) as [-> | Hne].
    + rewrite fn_lookup_insert in Hrj. by rewrite HQ.
    + by rewrite fn_lookup_insert_ne in Hrj.
  - apply (moved_work _ _ (<[w := []]> QI) QC QR); try done.
    + by destruct Hr.
    + apply flow_build; simpl; try done.
      * unfold held_by. rewrite Hpc. simpl. intros r [[[? ?%elem_of_nil]|[(? & ? & ? & _)|?]]|Hin]; try done.
        -- left. by do 2 right.
        -- left. left. by rewrite HQ in Hin.
      * intros u Hu. by rewrite fn_lookup_insert_ne.
      * auto.
      * intros y tok u wku Hu Hat _. eapply way_same; rewrite ?Hpc; done.
      * rewrite Hpc, fn_lookup_insert, HQ. simpl. lia.
    + intros u Hu. by rewrite fn_lookup_insert_ne.
    + rewrite Hpc, fn_lookup_insert, HQ. simpl. lia.
Qed.

Lemma serve_reps s1 wk' :
  scmd s1 = scmd s → sreply s1 = sreply s → ingress s1 = ingress s → around s1 →
  reps capc capr (set_sworker s1 w wk') QI QC QR.
Proof.
  intros E1 E2 E3 Ha. destruct (SInv_reps _ _ _ _ _ _ _ HI) as [P1 P2 P3].
  split; simpl; rewrite ?E1, ?E2, ?E3, (a_n _ Ha); done.
Qed.

Lemma serve_local_moved op r rest s1 sh v :
  spc_of wk = SServe ((op, r) :: rest) →
  scmd s1 = scmd s → sreply s1 = sreply s → ingress s1 = ingress s → around s1 →
  moved (Ok (mkSWorker (SFulfil FValue r v (KServe rest)) sh (client_waiters wk) (next_token wk), s1)).
Proof.
  intros Hpc E1 E2 E3 Ha.
  apply (moved_work _ _ QI QC QR); try done; [by apply serve_reps| |rewrite Hpc; simpl; lia].
  apply flow_build; simpl; rewrite ?Hpc; simpl; try done; [|auto| |lia].
  - unfold held_by. rewrite Hpc. simpl. intros r' [[[op' Hop]|[(? & ? & ? & _)|?]]|?]; try done; [| |auto].
    + apply elem_of_cons in Hop as [[= _ ->]|Hop]; left; [right; left; eauto|left; eauto].
    + left. by do 2 right.
  - intros y tok u wku Hu Hat _. eapply way_same; rewrite ?Hpc; done.
Qed.

Lemma serve_forward_moved k r rest :
  spc_of wk = SServe ((OGet k, r) :: rest) →
  let tok := make_token w (next_token wk) in
  moved (Ok (mkSWorker (SPush (route k (smask s)) (CGet k w tok) r rest) (sshard wk)
               (<[tok := r]> (client_waiters wk)) (wadd (next_token wk) 1), s)).
Proof.
  intros Hpc tok. pose proof (v_w _ _ _ _ _ _ _ HI w wk Hw) as Hok.
  pose proof (w_next _ _ _ _ _ Hok) as Hnx.
  assert (Hfresh : client_waiters wk !! tok = None).
  { apply eq_None_not_Some. intros [r' Hr']. destruct (w_tok _ _ _ _ _ Hok tok r' Hr') as (j & Hj & He).
    apply make_token_inj in He; lia. }
  assert (Ha : around s) by by apply around_same.
  apply (moved_work _ _ QI QC QR); try done; [by apply serve_reps| |rewrite Hpc; simpl; lia].
  apply flow_build; simpl; rewrite ?Hpc; simpl; try done.
  - unfold held_by. rewrite Hpc. simpl. intros r' [[[op' Hop]|[(? & ? & ? & _)|[t Ht]]]|?]; try done; [| |auto].
    + apply elem_of_cons in Hop as [[= _ ->]|Hop]; left; [|left; eauto].
      do 2 right. exists tok. by rewrite lookup_insert_eq.
    + left. do 2 right. exists t. rewrite lookup_insert_ne; [done|]. intros <-. by rewrite Hfresh in Ht.
  - intros t r' [(<- & _)|(_ & ?)]%lookup_insert_Some; [right|by left]. left. split; [done|]. eauto.
  - intros y t u wku Hu Hat _. destruct (decide (u = w)) as [-> | Hne].
    + rewrite Hw in Hu. injection Hu as <-. unfold way_at in Hat. rewrite Hpc in Hat. eexists w, _.
      split; [apply list_lookup_insert_eq; by eapply lookup_lt_Some|]. unfold way_at. simpl in *. naive_solver.
    + exists u, wku. by rewrite list_lookup_insert_ne.
  - unfold wadd. rewrite wrap64_small by (unfold is_u64, W64; lia). lia.
Qed.

Lemma serve_moved op r rest :
  spc_of wk = SServe ((op, r) :: rest) → moved (sworker_step w lag wk s).
Proof.
  intros Hpc. unfold sworker_step. rewrite Hpc.
  destruct (w_hand _ _ _ _ _ (v_w _ _ _ _ _ _ _ HI w wk Hw) op r) as (_ & _ & Hrt);
    [rewrite Hpc; simpl; set_solver|].
  destruct op as [k v|k]; simpl.
  - rewrite (Hrt k v eq_refl), Nat.eqb_refl.
    by eapply serve_local_moved; [done..|apply around_same].
  - destruct (Nat.eqb_spec (route k (smask s)) w) as [Hk|Hk]; [|by apply serve_forward_moved].
    by eapply serve_local_moved; [done..|apply around_same].
Qed.

(** A store to completion [r] that keeps its owner and does not undo it. *)
Lemma around_req r q q' :
  reqs s !! r = Some q → waiter q' = waiter q → r_ret q' = r_ret q →
  (done q' = false → done q = false) → around (set_reqs s (<[r := q']> (reqs s))).
Proof.
  intros Hq E1 E2 E3. split; simpl; try done; [by rewrite length_insert|].
  intros r' x [(<- & <- & _)|(_ & Hx)]%list_lookup_insert_Some; eauto 10.
Qed.

Lemma fulfil_moved st r v f : spc_of wk = SFulfil st r v f → moved (sworker_step w lag wk s).
Proof.
  intros Hpc. unfold sworker_step, fulfill. rewrite Hpc.
  destruct (w_ful _ _ _ _ _ (v_w _ _ _ _ _ _ _ HI w wk Hw) st r v) as ([q Hq] & _); [by rewrite Hpc|].
  rewrite Hq. simpl.
  assert (Hgo : ∀ s1 p, around s1 → scmd s1 = scmd s → sreply s1 = sreply s → ingress s1 = ingress s →
    staying p → hand p = hand (spc_of wk) → pushing p = pushing (spc_of wk) →
    replying p = replying (spc_of wk) → spc_work p < spc_work (spc_of wk) →
    (st ≠ FUnpark → (∃ st', fulfilling p = Some (st', r, v) ∧ st' ≠ FUnpark)
       ∨ ∃ q, reqs s1 !! r = Some q ∧ done q = true) →
    moved (Ok (set_spc wk p, s1))).
  { intros s1 p Ha E1 E2 E3 Hst Eh Ep Er Hlt Hful.
    apply (moved_work _ _ QI QC QR); simpl; try done; [by apply serve_reps| |lia].
    apply flow_build; simpl; rewrite ?Eh; try done; [|auto|].
    - unfold held_by. rewrite Hpc. simpl. rewrite Eh, Hpc.
      intros r' [[?|[(? & ? & [= <- <- <-] & Hne)|?]]|?]; [by left; left| |by left; do 2 right|auto].
      destruct (Hful Hne) as [(st' & ? & ?)|?]; [|auto]. left. right. left. eauto.
    - intros y tok u wku Hu Hat _. by eapply way_same. }
  rewrite Hpc in Hgo. destruct st; simpl.
  - apply Hgo; try done; [by eapply around_req|simpl; lia|]. intros _. left. by exists FDone.
  - apply Hgo; try done; [by eapply around_req|simpl; lia|]. intros _. right. simpl.
    eexists. split; [apply list_lookup_insert_eq; by eapply lookup_lt_Some|done].
  - destruct (lookup_lt_is_Some_2 (clients s) (waiter q)) as [cl Hcl].
    { by eapply (c_waiter _ (v_cli _ _ _ _ _ _ _ HI)). }
    rewrite Hcl. simpl. apply Hgo; try done; try (by destruct f); [|destruct f; simpl; lia].
    split; simpl; try done; [eauto|]. rewrite list_fmap_insert. simpl. apply list_insert_id.
    by rewrite list_lookup_fmap, Hcl.
Qed.

Lemma worker_moved : moved (sworker_step w lag wk s).
Proof.
  pose proof (f_stay _ _ _ _ HF w wk Hw) as Hst. pose proof moved_idle as Hsil.
  destruct (spc_of wk) as [src b p|src from rep p|src b c|b|[|[op r] rest]|o c r rest|st r v f|b| |]
    eqn:Hpc; try done; [by eapply pump_moved|by eapply reply_moved|by eapply collect_moved
    |by eapply drain_moved| |by eapply serve_moved|by eapply push_moved|by eapply fulfil_moved|];
    unfold sworker_step; rewrite Hpc.
  - apply Hsil; naive_solver.
  - rewrite Hstop. by apply Hsil.
Qed.

End worker.

(** ** A step of a client *)

Lemma flow_client s s' QI QI' QC QR c cl cl' :
  length (sworkers s) = sn s → flow s QI QC QR → clients s !! c = Some cl →
  sn s' = sn s → sworkers s' = sworkers s → clients s' = <[c := cl']> (clients s) →
  (∀ u x, x ∈ QI u → x ∈ QI' u) →
  (∀ r q, reqs s' !! r = Some q → done q = false →
     (∃ q0, reqs s !! r = Some q0 ∧ done q0 = false) ∨ (∃ u op, u < sn s ∧ (op, r) ∈ QI' u)) →
  (∀ r q, reqs s' !! r = Some q → r_ret q = None →
     (client_req (cpc_of cl') = Some r ∧ waiter q = c) ∨
     (client_req (cpc_of cl) ≠ Some r ∧
      ∃ q0, reqs s !! r = Some q0 ∧ waiter q0 = waiter q ∧ r_ret q0 = None)) →
  inboxes s QI' + length (reqs s) ≤ inboxes s QI + length (reqs s') →
  flow s' QI' QC QR.
Proof.
  intros Hlen [F1 F2 F3 F4 F5] Hc En Ew Ec HQ Hheld Hret Hcnt. split; rewrite ?Ew.
  - done.
  - intros r q Hq Hd. unfold held. rewrite Ew. destruct (Hheld r q Hq Hd) as [(q0 & Hq0 & Hd0)|(u & op & Hu & Hin)].
    + destruct (F2 r q0 Hq0 Hd0) as (u & wku & Hu & [?|[op Hin]]); exists u, wku; split; eauto.
    + destruct (lookup_lt_is_Some_2 (sworkers s) u) as [wku Hwu]; [lia|]. exists u, wku. eauto.
  - intros u wku tok r Hu Ht. destruct (F3 u wku tok r Hu Ht) as (x & wkx & Hx & Hat).
    exists x, wkx. by rewrite Ew.
  - intros r q Hq Hr. rewrite Ec.
    destruct (Hret r q Hq Hr) as [[Hreq ->]|(Hne & q0 & Hq0 & Hw0 & Hr0)].
    + exists cl'. split; [|done]. apply list_lookup_insert_eq. by eapply lookup_lt_Some.
    + destruct (F4 r q0 Hq0 Hr0) as (x & Hx & Hreq). rewrite Hw0 in Hx. exists x. split; [|done].
      rewrite list_lookup_insert_ne; [done|]. intros Hcw. congruence.
  - unfold tokens, hands, inboxes in *. rewrite En, Ew. lia.
Qed.

(** Calls that have yet to submit their request. *)
Definition news s : nat := sum_list_with (λ cl, cpc_new (cpc_of cl)) (clients s).

Section client.
Context (capc capr : nat) (s : Service CC CR IB) (loc : nat → Loc).
Context (QI : nat → list ClientReq) (QC : nat * nat → list Command).
Context (QR : nat * nat → list Reply) (c : nat) (cl : Client).
Hypothesis HI : SInv capc capr s loc QI QC QR.
Hypothesis HF : flow s QI QC QR.
Hypothesis Hc : clients s !! c = Some cl.

(** A step that moves the client only. *)
Lemma goto_flow p tok :
  client_req p = client_req (cpc_of cl) → flow (set_client s c (mkClient p tok)) QI QC QR.
Proof.
  intros Hreq. eapply (flow_client s); try done; simpl; [apply HI|eauto|].
  intros r q Hq Hr. destruct (decide (client_req (cpc_of cl) = Some r)) as [He|Hne]; [left|right; eauto].
  destruct (c_req _ (v_cli _ _ _ _ _ _ _ HI) c cl r Hc He) as (q0 & Hq0 & Hw & _).
  split; congruence.
Qed.

(** The answer was there: the call returns. *)
Lemma take_flow r q x tok :
  cpc_of cl = CTake r → reqs s !! r = Some q →
  flow (set_client (set_reqs s (<[r := mkReq (r_op q) (waiter q) (done q) None (r_born q) (Some x)]> (reqs s)))
          c (mkClient CIdle tok)) QI QC QR.
Proof.
  intros Hpc Hq. eapply (flow_client s); try done; simpl; [apply HI| | |by rewrite length_insert].
  - intros r' q' [(<- & <- & _)|(_ & Hq')]%list_lookup_insert_Some Hd; eauto.
  - intros r' q' [(<- & <- & _)|(Hne & Hq')]%list_lookup_insert_Some Hr; [done|].
    right. rewrite Hpc. simpl. split; [congruence|eauto].
Qed.

(** The request goes into the inbox of the accepting worker. *)
Lemma submit_flow accept op i' tok k :
  cpc_of cl = CPush accept op → accept < sn s →
  let s' := set_client (set_reqs (set_ingress s accept i')
    (reqs s ++ [mkReq op c false None (length (hist s)) None])) c (mkClient (CSpin (length (reqs s)) k) tok) in
  flow s' (<[accept := (op, length (reqs s)) :: QI accept]> QI) QC QR.
Proof.
  intros Hpc Hacc s'. set (QI' := <[accept := _]> QI).
  assert (Hsub : ∀ u x, x ∈ QI u → x ∈ QI' u).
  { intros u x Hx. unfold QI'. destruct (decide (u = accept)) as [-> | Hne].
    - rewrite fn_lookup_insert. set_solver.
    - by rewrite fn_lookup_insert_ne. }
  eapply (flow_client s s' QI QI'); try done; simpl; [apply HI| | |].
  - intros r q [Hq|[Hge Hq]]%lookup_app_Some Hd; [eauto|right].
    apply list_lookup_singleton_Some in Hq as [Hr <-]. exists accept, op. split; [done|].
    unfold QI'. rewrite fn_lookup_insert. replace r with (length (reqs s)) by lia. set_solver.
  - intros r q [Hq|[Hge Hq]]%lookup_app_Some Hr; [right; rewrite Hpc; eauto|left].
    apply list_lookup_singleton_Some in Hq as [Hr' <-]. split; [|done]. f_equal. lia.
  - rewrite length_app. simpl. pose proof (inboxes_update s QI QI' accept Hacc) as Hi.
    unfold QI' in Hi at 3. rewrite fn_lookup_insert in Hi. simpl in Hi.
    assert (inboxes s QI' + length (QI accept) = inboxes s QI + S (length (QI accept))); [|lia].
    apply Hi. intros u Hu. unfold QI'. by rewrite fn_lookup_insert_ne.
Qed.

End client.
End flow.
