(* ===== verification/ServiceSpec.v ===== *)
(** * ServiceSpec: what the request service promises

    Linearizability of [put], [get] and [get_round_robin] over one map, the
    wake-up of waiting clients, and what happens to requests that are under
    way when a worker leaves at shutdown. *)

From stdpp Require Import functions.
From S2P Require Import Prelude Treiber Spsc Channel Ingress Mesh MeshInv Service ServiceInv.
Local Open Scope nat_scope.
Local Open Scope zkv_scope.

Section spec.
Context {CC CR IB : Type} `{!Channel Command CC, !Channel Reply CR, !Inbox ClientReq IB}.
Context `{!ChannelLaws Command CC, !ChannelLaws Reply CR, !InboxLaws ClientReq IB}.
Implicit Types (s : Service CC CR IB).

(** ** Waking up *)

(** The client's own steps, with no spurious wake-up. *)
Fixpoint client_alone (n c : nat) s : option (res (Service CC CR IB)) :=
  match n with
  | O => Some (Ok s)
  | S n =>
    match step (LClient c [] false) s with
    | Some (Ok s') => client_alone n c s'
    | o => o
    end
  end.

Lemma client_goto s c cl p tok r q :
  clients s !! c = Some cl → reqs s !! r = Some q →
  clients (set_client s c (mkClient p tok)) !! c = Some (mkClient p tok) ∧
  reqs (set_client s c (mkClient p tok)) !! r = Some q.
Proof. intros Hc Hq. split; [|done]. simpl. apply list_lookup_insert_eq. by eapply lookup_lt_Some. Qed.

Lemma take_returns s c cl r q :
  clients s !! c = Some cl → cpc_of cl = CTake r → reqs s !! r = Some q →
  ∃ s', step (LClient c [] false) s = Some (Ok s') ∧
    clients s' !! c = Some (mkClient CIdle (park_token cl)) ∧
    r_ret <$> reqs s' !! r = Some (Some (value q, length (hist s))).
Proof.
  intros Hc Hpc Hq. simpl. rewrite Hc. unfold client_step. rewrite Hpc, Hq. simpl.
  eexists. split; [reflexivity|]. simpl.
  rewrite !list_lookup_insert_eq by (by eapply lookup_lt_Some). done.
Qed.

Lemma check_returns s c cl r q :
  clients s !! c = Some cl → cpc_of cl = CCheck r → reqs s !! r = Some q → done q = true →
  ∃ s' cl', client_alone 2 c s = Some (Ok s') ∧ clients s' !! c = Some cl' ∧ cpc_of cl' = CIdle ∧
    r_ret <$> reqs s' !! r = Some (Some (value q, length (hist s))).
Proof.
  intros Hc Hpc Hq Hd.
  assert (H1 : step (LClient c [] false) s = Some (Ok (set_client s c (mkClient (CTake r) (park_token cl))))).
  { simpl. rewrite Hc. unfold client_step. rewrite Hpc, Hq. simpl. by rewrite Hd. }
  destruct (client_goto s c cl (CTake r) (park_token cl) r q Hc Hq) as [Hc1 Hq1].
  destruct (take_returns _ c _ r q Hc1 eq_refl Hq1) as (s' & H2 & Hc' & Hr').
  exists s'. eexists. cbn [client_alone]. rewrite H1, H2. split; [done|]. split; [done|]. done.
Qed.

(** ** Commands for a worker that has left *)

(** A pop of queue [(i, j)] would deliver something. *)
Definition cmd_ready s (i j : nat) : Prop :=
  ∃ c g, net_pop false (i, j) (scmd s) = Ok (Some c, g).

Lemma ready_intro (g : gmap (nat * nat) CC) ij ch cap q :
  g !! ij = Some ch → ch_rep ch cap q → q ≠ [] → ∃ c g', net_pop false ij g = Ok (Some c, g').
Proof.
  intros Hg Hrep Hq. unfold net_pop. rewrite Hg. simpl. pose proof (ch_pop_ok ch cap q Hrep) as Hp.
  destruct q as [|v q]; [done|]. destruct Hp as (c' & -> & _). simpl. eauto.
Qed.

Lemma cmd_ready_queue capc capr s loc QI QC QR i j :
  SInv capc capr s loc QI QC QR → i < sn s → j < sn s → cmd_ready s i j ↔ QC (i, j) ≠ [].
Proof.
  intros HI Hi Hj. destruct (v_cmd _ _ _ _ _ _ _ HI i j Hi Hj) as (c & Hc & Hrep).
  unfold cmd_ready. split; [|by eapply ready_intro].
  unfold net_pop. rewrite Hc. simpl. pose proof (ch_pop_ok c capc (QC (i, j)) Hrep) as Hp.
  destruct (QC (i, j)) as [|v q]; [|done]. rewrite Hp. simpl. naive_solver.
Qed.

(** Client steps do not touch the matrix or the workers. *)
Lemma client_step_frame c sp spurious cl s s' :
  client_step c sp spurious cl s = Some (Ok s') →
  scmd s' = scmd s ∧ sworkers s' = sworkers s ∧ stop s' = stop s.
Proof.
  unfold client_step. destruct (cpc_of cl) as [|accept op|r k|r|r|r]; [done|..].
  - destruct (ingress s !! accept) as [i|]; [|done]. simpl.
    destruct (ib_push sp _ i); simpl; [|done]. by intros [= <-].
  - destruct k; simpl; [by intros [= <-]|]. destruct (reqs s !! r); simpl; [|done]. by intros [= <-].
  - destruct (reqs s !! r); simpl; [|done]. by intros [= <-].
  - destruct (_ || _); [|done]. by intros [= <-].
  - destruct (reqs s !! r); simpl; [|done]. by intros [= <-].
Qed.

(** What a worker does to the command matrix. *)
Definition touches (id : nat) (g g' : gmap (nat * nat) CC) : Prop :=
  g' = g ∨ (∃ lag src o, net_pop lag (src, id) g = Ok (o, g')) ∨
  (∃ lag owner v o, net_push lag (id, owner) v g = Ok (o, g')).

Definition quiet (w : ServiceWorker) : Prop :=
  spc_of w = SHead ∨ spc_of w = SExit → client_waiters w = ∅.

Lemma sworker_step_frame id lag w s w' s' :
  sworker_step id lag w s = Ok (w', s') →
  sworkers s' = sworkers s ∧ stop s' = stop s ∧ touches id (scmd s) (scmd s') ∧ (quiet w → quiet w').
Proof.
  unfold sworker_step, quiet, touches.
  destruct (spc_of w) as [src b p|src from rep p|src b c|b|[|[op r] rest]|o c r rest|st r v f|b| |] eqn:Hpc.
  - destruct (src <? sn s); [|intros [= <- <-]; naive_solver].
    destruct (net_pop lag (src, id) (scmd s)) as [[o g]|] eqn:Hp; simpl; [|done].
    destruct o as [[k v|k from tok]|]; [| |]; intros [= <- <-]; simpl.
    + naive_solver.
    + destruct (waiting_for _ _ _); simpl; naive_solver.
    + naive_solver.
  - destruct (net_push lag (id, from) rep (sreply s)) as [[o g]|] eqn:Hp; simpl; [|done].
    destruct o; intros [= <- <-]; simpl; naive_solver.
  - destruct (src <? sn s).
    + destruct (net_pop lag (src, id) (sreply s)) as [[o g]|] eqn:Hp; simpl; [|done].
      destruct o as [rep|]; [destruct (client_waiters w !! token rep)|]; intros [= <- <-]; simpl; naive_solver.
    + intros [= <- <-]. destruct c as [b' []|]; simpl; naive_solver.
  - destruct (ingress s !! id) as [i|]; simpl; [|done]. destruct (ib_drain i) as [[l i']|]; simpl; [|done].
    intros [= <- <-]. simpl. destruct l; naive_solver.
  - intros [= <- <-]. naive_solver.
  - unfold serve. destruct op as [k v|k]; simpl; destruct (_ =? id); intros [= <- <-]; simpl; naive_solver.
  - destruct (net_push lag (id, o) c (scmd s)) as [[x g]|] eqn:Hp; simpl; [|done].
    destruct x, c; intros [= <- <-]; simpl; naive_solver.
  - unfold fulfill. destruct (reqs s !! r) as [q|]; simpl; [|done].
    destruct st; [intros [= <- <-]; simpl; naive_solver..|].
    destruct (clients s !! waiter q); simpl; [|done].
    intros [= <- <-]. simpl. destruct f; naive_solver.
  - intros [= <- <-]. simpl. split; [done|]. split; [done|]. split; [by left|]. intros _.
    destruct (stop s), b; simpl; try naive_solver. case_bool_decide; naive_solver.
  - destruct (ingress s !! id) as [i|]; simpl; [|done]. intros [= <- <-]. simpl.
    split; [done|]. split; [done|]. split; [by left|]. intros Hq _. auto.
  - intros [= <- <-]. naive_solver.
Qed.

Lemma touches_ready capc capr s s' loc QI QC QR i j id :
  SInv capc capr s loc QI QC QR → i < sn s → j < sn s → id ≠ j →
  touches id (scmd s) (scmd s') → cmd_ready s i j → cmd_ready s' i j.
Proof.
  intros HI Hi Hj Hid Ht Hr.
  destruct (v_cmd _ _ _ _ _ _ _ HI i j Hi Hj) as (ch & Hch & Hrep).
  pose proof (proj1 (cmd_ready_queue _ _ _ _ _ _ _ i j HI Hi Hj) Hr) as Hne.
  unfold cmd_ready. destruct Ht as [->|[(lag & src & o & Hp)|(lag & owner & v & o & Hp)]]; [done|..].
  - unfold net_pop in Hp. destruct (scmd s !! (src, id)) as [x|]; simpl in Hp; [|done].
    destruct lag; [by injection Hp as _ <-|].
    destruct (ch_pop x) as [[o' x']|]; simpl in Hp; [|done]. injection Hp as <- <-.
    eapply ready_intro; [|exact Hrep|done]. rewrite lookup_insert_ne by congruence. done.
  - unfold net_push in Hp. destruct (scmd s !! (id, owner)) as [x|] eqn:Hx; simpl in Hp; [|done].
    destruct lag; [by injection Hp as _ <-|].
    destruct (decide ((id, owner) = (i, j))) as [[= -> ->]|Hne'].
    + simplify_eq. pose proof (ch_push_ok v _ capc (QC (i, j)) Hrep) as Hps.
      destruct (length (QC (i, j)) <? capc).
      * destruct Hps as (x' & Hps & Hrep'). rewrite Hps in Hp. simpl in Hp. injection Hp as <- <-.
        eapply ready_intro; [apply lookup_insert_eq|exact Hrep'|]. by destruct (QC (i, j)).
      * rewrite Hps in Hp. simpl in Hp. injection Hp as <- <-.
        eapply ready_intro; [apply lookup_insert_eq|exact Hrep|done].
    + destruct (ch_push v x) as [[o' x']|]; simpl in Hp; [|done]. injection Hp as <- <-.
      eapply ready_intro; [|exact Hrep|done]. by rewrite lookup_insert_ne.
Qed.

(** The states that follow [s]. *)
Inductive later s : Service CC CR IB → Prop :=
| later_refl : later s s
| later_step s1 l s2 :
    later s s1 → tokens_left s1 → step l s1 = Some (Ok s2) → later s s2.

Lemma later_reachable requested c s s' :
  reachable requested c s → later s s' → reachable requested c s'.
Proof. intros Hr. induction 1; [done|]. by eapply reach_step. Qed.

Definition all_quiet s : Prop := ∀ w wk, sworkers s !! w = Some wk → quiet wk.

(** A step is a worker's, or leaves the matrix and the workers alone. *)
Lemma step_cases l s s' :
  step l s = Some (Ok s') →
  (scmd s' = scmd s ∧ sworkers s' = sworkers s) ∨
  ∃ id lag wk wk' s1, sworkers s !! id = Some wk ∧ spc_of wk ≠ SExit ∧
    sworker_step id lag wk s = Ok (wk', s1) ∧ s' = set_sworker s1 id wk'.
Proof.
  destruct l as [c k|c sp spurious|id lag|]; simpl; intros Hs.
  - left. destruct (clients s !! c) as [[[] tok]|]; try done. destruct (accept_of k s) as [[a op] rr'].
    by injection Hs as <-.
  - left. destruct (clients s !! c) as [cl|]; [|done].
    by apply client_step_frame in Hs as (? & ? & _).
  - right. destruct (sworkers s !! id) as [wk|] eqn:Hwk; [|done].
    assert (Hex : spc_of wk ≠ SExit) by (intros Hex; by rewrite Hex in Hs).
    assert (Hs' : Some ('(w, s) ←r sworker_step id lag wk s; Ok (set_sworker s id w)) = Some (Ok s')).
    { destruct (spc_of wk); done. }
    destruct (sworker_step id lag wk s) as [[wk' s1]|] eqn:Hst; simpl in Hs'; [|done].
    injection Hs' as <-. by exists id, lag, wk, wk', s1.
  - left. by injection Hs as <-.
Qed.

Lemma step_quiet l s s' : step l s = Some (Ok s') → all_quiet s → all_quiet s'.
Proof.
  intros Hs Hq.
  destruct (step_cases l s s' Hs) as [[_ E]|(id & lag & wk & wk' & s1 & Hwk & _ & Hst & ->)].
  - unfold all_quiet. by rewrite E.
  - destruct (sworker_step_frame _ _ _ _ _ _ Hst) as (E & _ & _ & Hqq). intros u wku. simpl. rewrite E.
    intros [(-> & <- & _)|(Hne & Hu)]%list_lookup_insert_Some; [by apply Hqq, (Hq u wk)|by apply (Hq u)].
Qed.

Lemma reachable_quiet requested c s : reachable requested c s → all_quiet s.
Proof.
  induction 1 as [|s l s' _ IH _ Hs]; [intros w wk [-> _]%lookup_replicate []; done|].
  by eapply step_quiet.
Qed.

(** One step, seen from a worker that has left and its queue. *)
Lemma step_strands capc capr s s' loc QI QC QR l i j wj :
  SInv capc capr s loc QI QC QR → step l s = Some (Ok s') → i < sn s → j < sn s →
  sworkers s !! j = Some wj → spc_of wj = SExit → cmd_ready s i j →
  sworkers s' !! j = Some wj ∧ cmd_ready s' i j ∧ length (sworkers s') = length (sworkers s).
Proof.
  intros HI Hs Hi Hj Hw Hex Hr.
  destruct (step_cases l s s' Hs) as [[E1 E2]|(id & lag & wk & wk' & s1 & Hwk & Hne & Hst & ->)].
  - unfold cmd_ready. by rewrite E1, E2.
  - destruct (sworker_step_frame _ _ _ _ _ _ Hst) as (E & _ & Ht & _).
    assert (Hid : id ≠ j) by congruence.
    split; [simpl; rewrite E; by rewrite list_lookup_insert_ne|].
    split; [|simpl; by rewrite length_insert, E].
    change (cmd_ready s1 i j). by eapply touches_ready.
Qed.

(** Whoever sent the command still waits, and its request is not done. *)
Lemma ready_waits capc capr s loc QI QC QR i j :
  SInv capc capr s loc QI QC QR → i < sn s → j < sn s → all_quiet s → cmd_ready s i j →
  ∃ wi tok r q, sworkers s !! i = Some wi ∧ spc_of wi ≠ SExit ∧
    client_waiters wi !! tok = Some r ∧ reqs s !! r = Some q ∧ done q = false.
Proof.
  intros HI Hi Hj Hq Hr.
  pose proof (proj1 (cmd_ready_queue _ _ _ _ _ _ _ i j HI Hi Hj) Hr) as Hne.
  pose proof (v_cq _ _ _ _ _ _ _ HI i j) as [_ Hc].
  destruct (QC (i, j)) as [|c0 q0]; [done|].
  destruct (Hc c0) as (key & tok & r & -> & _ & Hl & (q & Hrq & _)); [by left|].
  destruct (worker_at _ _ _ _ _ _ _ HI i Hi) as [wi Hwi]. exists wi, tok, r, q.
  assert (Hwait : client_waiters wi !! tok = Some r).
  { apply (w_wait _ _ _ _ _ (v_w _ _ _ _ _ _ _ HI i wi Hwi)). by rewrite Hl. }
  split_and!; try done.
  - intros Hex. rewrite (Hq i wi Hwi) in Hwait by auto. by rewrite lookup_empty in Hwait.
  - apply not_true_is_false. intros Hd%(h_done _ _ (v_hist _ _ _ _ _ _ _ HI) r q Hrq). congruence.
Qed.

(** ** Properties *)

(** [C13] The service is linearizable. In every state its clients and workers
    can reach, no step faults; the requests that have reached their shard,
    in that order, are a legal history of one map; a request has at most one
    place in it, after its submission; the value [put], [get] or
    [get_round_robin] returned is the answer of its request, whose place lies
    before the return; and a request that returned before another was
    submitted comes before it. *)
Theorem service_linearizable (requested : Z) (c : nat) (s : Service CC CR IB)
    (Hreq : (requested ≤ 2 ^ 63)%Z) (Hr : reachable requested c s) :
  (tokens_left s → ∀ l o, step l s = Some o → ∃ s', o = Ok s') ∧
  (run_spec ((hist s).*2.*1) ∅).1 = (hist s).*2.*2 ∧
  NoDup (hist s).*1 ∧
  (∀ i r op v, hist s !! i = Some (r, (op, v)) →
     ∃ q, reqs s !! r = Some q ∧ r_op q = op ∧ r_born q ≤ i) ∧
  (∀ r q v e, reqs s !! r = Some q → r_ret q = Some (v, e) →
     ∃ i, hist s !! i = Some (r, (r_op q, v)) ∧ r_born q ≤ i < e) ∧
  (∀ i1 i2 r1 r2 x1 x2 q1 q2 v e, hist s !! i1 = Some (r1, x1) → hist s !! i2 = Some (r2, x2) →
     reqs s !! r1 = Some q1 → r_ret q1 = Some (v, e) → reqs s !! r2 = Some q2 → e ≤ r_born q2 →
     i1 < i2).
Proof.
  destruct (service_reachable_inv _ _ _ Hreq Hr) as (capc & capr & loc & QI & QC & QR & HI).
  pose proof (v_hist _ _ _ _ _ _ _ HI) as Hh.
  assert (Hret : ∀ r q v e, reqs s !! r = Some q → r_ret q = Some (v, e) →
    ∃ i, hist s !! i = Some (r, (r_op q, v)) ∧ r_born q ≤ i < e).
  { intros r q v e Hq He. destruct (h_ret _ _ Hh r q v e Hq He) as (i & Hi & Hl). exists i.
    split; [done|]. split; [by eapply (h_born _ _ Hh)|done]. }
  split_and!; [|apply Hh|apply Hh| |done|].
  - intros Htok l o Hs.
    destruct (service_step_ok _ _ _ _ _ _ _ l o HI Htok Hs) as (s' & _ & _ & _ & _ & -> & _). eauto.
  - intros i r op v Hi. destruct (h_op _ _ Hh r op v) as (q & Hq & Hop); [by eapply list_elem_of_lookup_2|].
    exists q. split_and!; try done. by eapply (h_born _ _ Hh).
  - intros i1 i2 r1 r2 x1 x2 q1 q2 v e H1 H2 Hq1 Hr1 Hq2 Hle.
    destruct (Hret r1 q1 v e Hq1 Hr1) as (i & Hi & _ & Hlt).
    assert (i1 = i) as ->.
    { eapply NoDup_lookup; [apply (h_nodup _ _ Hh)| |]; rewrite list_lookup_fmap; [by rewrite H1|by rewrite Hi]. }
    pose proof (h_born _ _ Hh i2 r2 x2 q2 H2 Hq2). lia.
Qed.

(** [C31] A fulfilled request wakes its client: while the client is parked,
    its park token is there or the unpark is still to come, and once no unpark
    of the request is pending the client is back from the call within three
    of its own steps, with the answer that was stored. *)
Theorem service_wakeup (requested : Z) (c : nat) (s : Service CC CR IB) (i r : nat) (cl : Client)
    (q : ReqCompletion)
    (Hreq : (requested ≤ 2 ^ 63)%Z) (Hr : reachable requested c s)
    (Hc : clients s !! i = Some cl) (Hwait : client_req (cpc_of cl) = Some r)
    (Hq : reqs s !! r = Some q) (Hdone : done q = true) :
  (cpc_of cl = CPark r → park_token cl = true ∨ unparking s r) ∧
  (¬ unparking s r → ∃ n s' cl', n ≤ 3 ∧ client_alone n i s = Some (Ok s') ∧
     clients s' !! i = Some cl' ∧ cpc_of cl' = CIdle ∧
     r_ret <$> reqs s' !! r = Some (Some (value q, length (hist s)))).
Proof.
  destruct (service_reachable_inv _ _ _ Hreq Hr) as (capc & capr & loc & QI & QC & QR & HI).
  destruct (c_req _ (v_cli _ _ _ _ _ _ _ HI) i cl r Hc Hwait) as (x & Hx & _ & _ & _ & Hp).
  rewrite Hq in Hx. injection Hx as <-. split; [auto|]. intros Hnu.
  assert (Hgo : ∀ p tok, step (LClient i [] false) s = Some (Ok (set_client s i (mkClient p tok))) →
    p = CCheck r → ∃ n s' cl', n ≤ 3 ∧ client_alone n i s = Some (Ok s') ∧
     clients s' !! i = Some cl' ∧ cpc_of cl' = CIdle ∧
     r_ret <$> reqs s' !! r = Some (Some (value q, length (hist s)))).
  { intros p tok Hs ->. destruct (client_goto s i cl (CCheck r) tok r q Hc Hq) as [Hc1 Hq1].
    destruct (check_returns _ i _ r q Hc1 eq_refl Hq1 Hdone) as (s' & cl' & Ha & Hc' & Hi & Hret).
    exists 3, s', cl'. split; [lia|]. split; [|done]. cbn [client_alone] in *. by rewrite Hs. }
  simpl in Hgo. rewrite Hc in Hgo. unfold client_step in Hgo.
  destruct (cpc_of cl) as [|accept op|r' k|r'|r'|r'] eqn:Hpc; simplify_eq/=.
  - destruct k as [|k]; [by eapply Hgo|].
    destruct (client_goto s i cl (CTake r) (park_token cl) r q Hc Hq) as [Hc1 Hq1].
    destruct (take_returns _ i _ r q Hc1 eq_refl Hq1) as (s' & H2 & Hc' & Hr').
    exists 2, s'. eexists. split; [lia|]. cbn [client_alone].
    assert (step (LClient i [] false) s = Some (Ok (set_client s i (mkClient (CTake r) (park_token cl)))))
      as ->. { simpl. rewrite Hc. unfold client_step. rewrite Hpc, Hq. simpl. by rewrite Hdone. }
    rewrite H2. done.
  - destruct (check_returns s i cl r q Hc Hpc Hq Hdone) as (s' & cl' & Ha & Hrest).
    exists 2, s', cl'. split; [lia|]. done.
  - destruct (Hp eq_refl Hdone) as [Htok|]; [|done]. rewrite Htok in Hgo. by eapply Hgo.
  - destruct (take_returns s i cl r q Hc Hpc Hq) as (s' & H2 & Hc' & Hr').
    exists 1, s'. eexists. split; [lia|]. cbn [client_alone]. rewrite H2. done.
Qed.

(** [C32] Shutdown strands requests. A worker leaves when it is idle, although
    others may still forward to it. Once worker [j] has left and a command of
    worker [i] for it is queued, in every later state worker [i] has not left,
    so that [shutdown] never returns, and some request is never answered. *)
Theorem service_shutdown_strands (requested : Z) (c : nat) (s s' : Service CC CR IB) (i j : nat)
    (wj : ServiceWorker)
    (Hreq : (requested ≤ 2 ^ 63)%Z) (Hr : reachable requested c s) (Hi : i < sn s)
    (Hj : sworkers s !! j = Some wj) (Hexit : spc_of wj = SExit) (Hcmd : cmd_ready s i j)
    (Hlater : later s s') :
  ∃ wi tok r q, sworkers s' !! i = Some wi ∧ spc_of wi ≠ SExit ∧
    client_waiters wi !! tok = Some r ∧ reqs s' !! r = Some q ∧ done q = false.
Proof.
  assert (H : sworkers s' !! j = Some wj ∧ cmd_ready s' i j ∧ length (sworkers s') = length (sworkers s)).
  { induction Hlater as [|s1 l s2 Hl IH Htok Hs]; [done|]. destruct IH as (Hj1 & Hc1 & Hlen).
    destruct (service_reachable_inv _ _ _ Hreq (later_reachable _ _ _ _ Hr Hl))
      as (capc & capr & loc & QI & QC & QR & HI).
    destruct (service_reachable_inv _ _ _ Hreq Hr) as (a1 & a2 & a3 & a4 & a5 & a6 & HI0).
    assert (sn s1 = sn s) as Hn by (rewrite <- (v_workers _ _ _ _ _ _ _ HI), Hlen; apply HI0).
    destruct (step_strands _ _ _ _ _ _ _ _ l i j wj HI Hs) as (H1 & H2 & H3); try done; [lia| |].
    - rewrite <- (v_workers _ _ _ _ _ _ _ HI). by eapply lookup_lt_Some.
    - split_and!; [done|done|congruence]. }
  destruct H as (Hj' & Hc' & Hlen). pose proof (later_reachable _ _ _ _ Hr Hlater) as Hr'.
  destruct (service_reachable_inv _ _ _ Hreq Hr') as (capc & capr & loc & QI & QC & QR & HI).
  destruct (service_reachable_inv _ _ _ Hreq Hr) as (a1 & a2 & a3 & a4 & a5 & a6 & HI0).
  assert (sn s' = sn s) as Hn by (rewrite <- (v_workers _ _ _ _ _ _ _ HI), Hlen; apply HI0).
  apply (ready_waits _ _ _ _ _ _ _ i j HI); [lia| | |done].
  - rewrite <- (v_workers _ _ _ _ _ _ _ HI). by eapply lookup_lt_Some.
  - by eapply reachable_quiet.
Qed.

End spec.

(** ** Witnesses

    Two workers over rings and stacks, and one client. *)

Definition next_addr (ns : gmap Z (ClientReq * Z)) : Z :=
  (1 + map_fold (λ k _ acc, Z.max k acc) 0 ns)%Z.

Lemma next_addr_fresh ns : next_addr ns ≠ 0%Z ∧ ns !! next_addr ns = None.
Proof.
  unfold next_addr.
  assert (H : (0 ≤ map_fold (λ k (_ : ClientReq * Z) acc, Z.max k acc) 0 ns)%Z ∧
    ∀ k x, ns !! k = Some x → (k ≤ map_fold (λ k (_ : ClientReq * Z) acc, Z.max k acc) 0 ns)%Z).
  { apply (map_fold_weak_ind (λ acc m, (0 ≤ acc)%Z ∧ ∀ k x, m !! k = Some x → (k ≤ acc)%Z)); [done|].
    intros k x m acc Hk [H0 IH]. split; [lia|].
    intros k' x' [[<- _]|[_ Hx]]%lookup_insert_Some; [lia|]. specialize (IH k' x' Hx). lia. }
  destruct H as [H0 H]. split; [lia|].
  destruct (ns !! _) as [x|] eqn:Hx; [|done]. apply H in Hx. lia.
Qed.

#[local] Instance demo_inbox : Inbox ClientReq (Stack ClientReq) := stack_inbox next_addr.
#[local] Instance demo_inbox_laws : InboxLaws ClientReq (Stack ClientReq) :=
  stack_inbox_laws next_addr next_addr_fresh.

Abbreviation DemoService := (Service (@Ring Command) (@Ring Reply) (Stack ClientReq)).

Definition tokens_leftb (s : DemoService) : bool :=
  forallb (λ w, next_token w <? 2 ^ 48)%Z (sworkers s).

Fixpoint run_checked (ls : list slabel) (s : DemoService) : option DemoService :=
  match ls with
  | [] => Some s
  | l :: ls =>
    if tokens_leftb s then
      match step l s with
      | Some (Ok s') => run_checked ls s'
      | _ => None
      end
    else None
  end.

Lemma run_checked_reachable requested c ls s s' :
  reachable requested c s → run_checked ls s = Some s' → reachable requested c s'.
Proof.
  revert s. induction ls as [|l ls IH]; simpl; intros s Hr Hs; [by simplify_eq|].
  destruct (tokens_leftb s) eqn:Ht; [|done]. destruct (step l s) as [[s1|]|] eqn:Hl; try done.
  apply (IH s1); [|done]. eapply reach_step; [done| |done].
  apply Forall_forall. intros w Hw%list_elem_of_In. unfold tokens_leftb in Ht.
  rewrite forallb_forall in Ht. by apply Z.ltb_lt, Ht.
Qed.

Definition demo_client (k : nat) : list slabel := replicate k (LClient 0 [] false).
Definition demo_worker (id k : nat) : list slabel := replicate k (LWorker id false).

Lemma demo_reach ls (P : DemoService → bool) :
  match run_checked ls (start 2 1) with Some s => P s | None => false end = true →
  ∃ s, reachable (CC := @Ring Command) (CR := @Ring Reply) 2 1 s ∧ P s = true.
Proof.
  destruct (run_checked ls (start 2 1)) as [s|] eqn:Hs; [|done]. intros HP. exists s.
  split; [|done]. eapply run_checked_reachable; [apply reach_start|exact Hs].
Qed.

(** A put, then a get that is forwarded and comes back. *)
Lemma demo_roundtrip :
  ∃ s : DemoService, reachable 2 1 s ∧
    bool_decide (hist s = [(0, (OPut [2%Z] [9%Z], None)); (1, (OGet [2%Z], Some [9%Z]))]) = true.
Proof.
  apply (demo_reach ([LCall 0 (Put [2%Z] [9%Z])] ++ demo_client 1 ++ demo_worker 1 14 ++ demo_client 2
    ++ [LCall 0 (GetRoundRobin [2%Z])] ++ demo_client 1 ++ demo_worker 0 10 ++ demo_worker 1 16
    ++ demo_worker 0 16 ++ demo_client 2)).
  vm_compute. reflexivity.
Qed.

Lemma service_linearizable_witness :
  ∃ s : DemoService, NoDup (hist s).*1 ∧
    (run_spec ((hist s).*2.*1) ∅).1 = [None; Some [9%Z]].
Proof.
  destruct demo_roundtrip as (s & Hr & Hh%bool_decide_eq_true). exists s.
  destruct (service_linearizable 2 1 s ltac:(lia) Hr) as (_ & H1 & H2 & _).
  split; [exact H2|]. rewrite H1. by rewrite Hh.
Defined.

(** A parked client whose request is done and whose unpark is to come. *)
Lemma demo_parked :
  ∃ s : DemoService, reachable 2 1 s ∧
    match clients s !! 0, reqs s !! 0 with
    | Some cl, Some q =>
      match cpc_of cl with CPark 0 => done q && negb (park_token cl) | _ => false end
    | _, _ => false
    end = true.
Proof.
  apply (demo_reach ([LCall 0 (Put [2%Z] [9%Z])] ++ demo_client 2003 ++ demo_worker 1 10)
    (λ s, match clients s !! 0, reqs s !! 0 with
          | Some cl, Some q =>
            match cpc_of cl with CPark 0 => done q && negb (park_token cl) | _ => false end
          | _, _ => false
          end)).
  vm_compute. reflexivity.
Qed.

Lemma service_wakeup_witness :
  ∃ (s : DemoService) cl, clients s !! 0 = Some cl ∧ park_token cl = false ∧ unparking s 0.
Proof.
  destruct demo_parked as (s & Hr & Hs).
  destruct (clients s !! 0) as [cl|] eqn:Hc; [|done]. destruct (reqs s !! 0) as [q|] eqn:Hq; [|done].
  destruct (cpc_of cl) as [| | | |[|r]|] eqn:Hpc; try done.
  apply andb_true_iff in Hs as [Hd Ht%negb_true_iff].
  destruct (service_wakeup 2 1 s 0 0 cl q ltac:(lia) Hr Hc ltac:(by rewrite Hpc) Hq Hd) as [H _].
  exists s, cl. split; [done|]. split; [done|]. destruct (H Hpc) as [Ht'|Hu]; [congruence|exact Hu].
Defined.

(** Worker 1 leaves before the get accepted by worker 0 reaches it. *)
Lemma demo_strand :
  ∃ s : DemoService, reachable 2 1 s ∧
    (2 =? sn s) && match sworkers s !! 1 with Some w => match spc_of w with SExit => true | _ => false end | None => false end
    && match net_pop false (0, 1) (scmd s) with Ok (Some _, _) => true | _ => false end = true.
Proof.
  apply (demo_reach ([LCall 0 (GetRoundRobin [2%Z])] ++ demo_client 1 ++ [LStop] ++ demo_worker 1 9
    ++ demo_worker 0 10)
    (λ s, (2 =? sn s)
      && match sworkers s !! 1 with Some w => match spc_of w with SExit => true | _ => false end | None => false end
      && match net_pop false (0, 1) (scmd s) with Ok (Some _, _) => true | _ => false end)).
  vm_compute. reflexivity.
Qed.

Lemma service_shutdown_strands_witness :
  ∃ s : DemoService, ∃ wi tok r q, sworkers s !! 0 = Some wi ∧ spc_of wi ≠ SExit ∧
    client_waiters wi !! tok = Some r ∧ reqs s !! r = Some q ∧ done q = false.
Proof.
  destruct demo_strand as (s & Hr & [[Hn Hx]%andb_true_iff Hp]%andb_true_iff). exists s.
  apply Nat.eqb_eq in Hn. destruct (sworkers s !! 1) as [wj|] eqn:Hj; [|done].
  destruct (spc_of wj) eqn:Hex; try done.
  apply (service_shutdown_strands 2 1 s s 0 1 wj ltac:(lia) Hr ltac:(lia) Hj Hex); [|apply later_refl].
  unfold cmd_ready. destruct (net_pop false (0, 1) (scmd s)) as [[[c|] g]|]; try done. eauto.
Defined.
