(* ===== verification/ServiceLive.v ===== *)
(** * ServiceLive: while nobody calls [shutdown], every request can be answered

    From every reachable state of the service the clients and workers have a
    schedule on which all calls return. The schedule empties the reply queues
    first (every loop a worker can be caught in collects replies), then the
    command queues, then the inboxes and the workers' hands, and lets the
    clients take their answers. *)

From stdpp Require Import functions.
From S2P Require Import Prelude Spsc Channel Treiber Ingress Mesh MeshInv Service ServiceInv ServiceFlow ServiceSpec.
Local Open Scope nat_scope.
Local Open Scope zkv_scope.

Section live.
Context {CC CR IB : Type} `{!Channel Command CC, !Channel Reply CR, !Inbox ClientReq IB}.
Context `{!ChannelLaws Command CC, !ChannelLaws Reply CR, !InboxLaws ClientReq IB}.
Implicit Types (s : Service CC CR IB) (QI : nat → list ClientReq)
  (QC : nat * nat → list Command) (QR : nat * nat → list Reply).

(** ** One step *)

Definition advanced capc capr s s' QI QI' QC QR (before after : nat) : Prop :=
  reps capc capr s' QI' QC QR ∧ flow s' QI' QC QR ∧ stop s' = stop s ∧ sn s' = sn s ∧
  length (reqs s') + news s' = length (reqs s) + news s ∧
  work s' QI' QC QR + before = work s QI QC QR + after.

Section client.
Context (capc capr : nat) (s : Service CC CR IB) (loc : nat → Loc).
Context (QI : nat → list ClientReq) (QC : nat * nat → list Command).
Context (QR : nat * nat → list Reply) (c : nat) (cl : Client).
Hypothesis HI : SInv capc capr s loc QI QC QR.
Hypothesis HF : flow s QI QC QR.
Hypothesis Hc : clients s !! c = Some cl.

Lemma goto_advanced p tok :
  client_req p = client_req (cpc_of cl) → cpc_new p = cpc_new (cpc_of cl) →
  advanced capc capr s (set_client s c (mkClient p tok)) QI QI QC QR (cpc_work (cpc_of cl)) (cpc_work p).
Proof.
  intros Hreq Hnew. pose proof (SInv_reps _ _ _ _ _ _ _ HI) as HR.
  split_and!; try done; [by destruct HR|by eapply goto_flow|..].
  - pose proof (sum_insert (λ cl, cpc_new (cpc_of cl)) (clients s) c cl (mkClient p tok) Hc).
    unfold news in *. simpl in *. lia.
  - pose proof (sum_insert (λ cl, cpc_work (cpc_of cl)) (clients s) c cl (mkClient p tok) Hc).
    unfold work, inboxes in *. simpl in *. lia.
Qed.

Lemma take_advanced r q x tok :
  cpc_of cl = CTake r → reqs s !! r = Some q →
  advanced capc capr s
    (set_client (set_reqs s (<[r := mkReq (r_op q) (waiter q) (done q) None (r_born q) (Some x)]> (reqs s)))
       c (mkClient CIdle tok)) QI QI QC QR 1 0.
Proof.
  intros Hpc Hq. pose proof (SInv_reps _ _ _ _ _ _ _ HI) as HR.
  split_and!; try done; [by destruct HR|by eapply take_flow|..].
  - pose proof (sum_insert (λ cl, cpc_new (cpc_of cl)) (clients s) c cl (mkClient CIdle tok) Hc).
    unfold news in *. simpl in *. rewrite Hpc in *. rewrite length_insert. simpl in *. lia.
  - pose proof (sum_insert (λ cl, cpc_work (cpc_of cl)) (clients s) c cl (mkClient CIdle tok) Hc).
    unfold work, inboxes in *. simpl in *. rewrite Hpc in *. simpl in *. lia.
Qed.

Lemma submit_advanced accept op i i' tok :
  cpc_of cl = CPush accept op → accept < sn s → ingress s !! accept = Some i →
  ib_rep i' ((op, length (reqs s)) :: QI accept) →
  advanced capc capr s
    (set_client (set_reqs (set_ingress s accept i')
       (reqs s ++ [mkReq op c false None (length (hist s)) None])) c
       (mkClient (CSpin (length (reqs s)) SPIN) tok))
    QI (<[accept := (op, length (reqs s)) :: QI accept]> QI) QC QR 16 15.
Proof.
  intros Hpc Hacc Hi Hrep. pose proof (SInv_reps _ _ _ _ _ _ _ HI) as [P1 P2 P3].
  split_and!; try done; [|by eapply submit_flow|..].
  - split; simpl; try done. intros u Hu. destruct (decide (u = accept)) as [-> | Hne].
    + exists i'. rewrite fn_lookup_insert, list_lookup_insert_eq; [done|]. by eapply lookup_lt_Some.
    + rewrite fn_lookup_insert_ne, list_lookup_insert_ne by done. by apply P3.
  - pose proof (sum_insert (λ cl, cpc_new (cpc_of cl)) (clients s) c cl
      (mkClient (CSpin (length (reqs s)) SPIN) tok) Hc).
    unfold news in *. simpl in *. rewrite Hpc in *. rewrite length_app. simpl in *. lia.
  - pose proof (sum_insert (λ cl, cpc_work (cpc_of cl)) (clients s) c cl
      (mkClient (CSpin (length (reqs s)) SPIN) tok) Hc) as Hsum.
    set (QI' := <[accept := _]> QI).
    assert (Hin : inboxes s QI' + length (QI accept) = inboxes s QI + length (QI' accept)).
    { apply inboxes_update; [done|]. intros u Hu. unfold QI'. by rewrite fn_lookup_insert_ne. }
    unfold QI' in Hin at 2. rewrite fn_lookup_insert in Hin.
    simpl in Hsum. rewrite Hpc in Hsum.
    unfold work, inboxes in *. simpl in *. lia.
Qed.

Lemma client_flow sp spurious s' :
  client_step c sp spurious cl s = Some (Ok s') →
  ∃ QI' before after, advanced capc capr s s' QI QI' QC QR before after ∧
    ((∀ r q, client_req (cpc_of cl) = Some r → reqs s !! r = Some q → done q = true) → after < before).
Proof.
  pose proof (c_req _ (v_cli _ _ _ _ _ _ _ HI) c cl) as Hreq. pose proof goto_advanced as Hgo.
  unfold client_step. destruct (cpc_of cl) as [|accept op|r k|r|r|r] eqn:Hpc; simpl in *; [done|..].
  - intros Hs. destruct (c_accept _ (v_cli _ _ _ _ _ _ _ HI) c cl accept op Hc Hpc) as [Hacc _].
    destruct (v_in _ _ _ _ _ _ _ HI accept Hacc) as (i & Hi & Hrep). rewrite Hi in Hs. simpl in Hs.
    destruct (ib_push_ok sp (op, length (reqs s)) i (QI accept) Hrep) as (i' & Hp & Hrep').
    rewrite Hp in Hs. simpl in Hs. simplify_eq. eexists _, _, _. split; [by eapply submit_advanced|lia].
  - destruct (Hreq r Hc eq_refl) as (q & Hq & _). destruct k as [|k]; [|rewrite Hq; simpl]; intros Hs; simplify_eq.
    + eexists _, _, _. split; [by apply Hgo|simpl; lia].
    + eexists _, _, _. split; [by apply Hgo; destruct (done q)|].
      intros Hd. rewrite (Hd r q eq_refl Hq). simpl. lia.
  - destruct (Hreq r Hc eq_refl) as (q & Hq & _). rewrite Hq. simpl. intros Hs. simplify_eq.
    eexists _, _, _. split; [by apply Hgo; destruct (done q)|].
    intros Hd. rewrite (Hd r q eq_refl Hq). simpl. lia.
  - destruct (_ || _); [|done]. intros Hs. simplify_eq. eexists _, _, _. split; [by apply Hgo|simpl; lia].
  - destruct (Hreq r Hc eq_refl) as (q & Hq & _). rewrite Hq. simpl. intros Hs. simplify_eq.
    eexists _, _, _. split; [by apply take_advanced|lia].
Qed.

End client.

(** ** States without a shutdown *)

Record live (capc capr : nat) s QI QC QR : Prop := mkLive {
  l_inv : ∃ loc QI0 QC0 QR0, SInv capc capr s loc QI0 QC0 QR0;
  l_reps : reps capc capr s QI QC QR;
  l_flow : flow s QI QC QR;
  l_stop : stop s = false
}.

(** The requests there will be when all calls under way have submitted. *)
Definition room s : Prop := (Z.of_nat (length (reqs s) + news s) < 2 ^ 48)%Z.

Lemma live_view capc capr s QI QC QR :
  live capc capr s QI QC QR →
  ∃ loc QI0 QC0 QR0, SInv capc capr s loc QI0 QC0 QR0 ∧ flow s QI0 QC0 QR0 ∧
    agree (sn s) QI0 QC0 QR0 QI QC QR ∧ work s QI0 QC0 QR0 = work s QI QC QR.
Proof.
  intros [(loc & QI0 & QC0 & QR0 & HI) HR HF _]. exists loc, QI0, QC0, QR0. split; [done|].
  pose proof (reps_agree _ _ _ _ _ _ _ _ _ HR (SInv_reps _ _ _ _ _ _ _ HI)) as Ha.
  pose proof (reps_agree _ _ _ _ _ _ _ _ _ (SInv_reps _ _ _ _ _ _ _ HI) HR) as Ha'.
  split; [|split; [done|by apply work_agree]].
  eapply flow_agree; [by eapply v_workers|done|done].
Qed.

Lemma live_intro capc capr s loc QI QC QR QI' QC' QR' :
  SInv capc capr s loc QI QC QR → reps capc capr s QI' QC' QR' → flow s QI' QC' QR' → stop s = false →
  live capc capr s QI' QC' QR'.
Proof. intros HI HR HF Hs. split; eauto 10. Qed.

Lemma reps_ext capc capr s QI QC QR QI' QC' QR' :
  agree (sn s) QI QC QR QI' QC' QR' → reps capc capr s QI QC QR → reps capc capr s QI' QC' QR'.
Proof.
  intros (HI & HC & HR) [P1 P2 P3]. split.
  - intros i j Hi Hj. rewrite <- HC by done. by apply P1.
  - intros i j Hi Hj. rewrite <- HR by done. by apply P2.
  - intros u Hu. rewrite <- HI by done. by apply P3.
Qed.

Lemma stuck_ext capc capr n QI QC QR QI' QC' QR' w p :
  w < n → agree n QI QC QR QI' QC' QR' → stuck capc capr n QI QC QR w p → stuck capc capr n QI' QC' QR' w p.
Proof.
  intros Hw (HI & HC & HR). destruct p; simpl; try done.
  - intros H Hlt. rewrite <- HC by done. auto.
  - intros [? ?]. by rewrite <- HR.
  - intros H Hlt. rewrite <- HR by done. auto.
  - by rewrite <- HI.
  - intros [? ?]. by rewrite <- HC.
Qed.

Lemma live_tokens capc capr s QI QC QR : live capc capr s QI QC QR → room s → tokens_left s.
Proof.
  intros HL Hroom. pose proof (f_count _ _ _ _ (l_flow _ _ _ _ _ _ HL)) as Hcnt.
  apply Forall_lookup. intros w wk Hw.
  pose proof (sum_lookup (λ wk, Z.to_nat (next_token wk)) (sworkers s) w wk Hw).
  unfold room, tokens in *. simpl in *. lia.
Qed.

Lemma worker_label w lag s wk :
  sworkers s !! w = Some wk → staying (spc_of wk) →
  step (LWorker w lag) s = Some ('(wk', s1) ←r sworker_step w lag wk s; Ok (set_sworker s1 w wk')).
Proof. intros Hw Hst. simpl. rewrite Hw. by destruct (spc_of wk). Qed.

(** A step of a worker, seen through one fixed view while it is silent. *)
Lemma live_worker capc capr s QI QC QR w wk lag :
  live capc capr s QI QC QR → tokens_left s → sworkers s !! w = Some wk →
  ∃ s' QI' QC' QR', step (LWorker w lag) s = Some (Ok s') ∧ live capc capr s' QI' QC' QR' ∧
    sn s' = sn s ∧ length (reqs s') + news s' = length (reqs s) + news s ∧
    (work s' QI' QC' QR' < work s QI QC QR ∨
     (sworkers s' = <[w := set_spc wk (idle_next (sn s) (spc_of wk))]> (sworkers s) ∧
      QI' = QI ∧ QC' = QC ∧ QR' = QR ∧ work s' QI QC QR = work s QI QC QR ∧
      (lag = false → stuck capc capr (sn s) QI QC QR w (spc_of wk)))).
Proof.
  intros HL Htok Hw. destruct (live_view _ _ _ _ _ _ HL) as (loc & QI0 & QC0 & QR0 & HI & HF & Ha & Ewk).
  pose proof (f_stay _ _ _ _ HF w wk Hw) as Hst. pose proof (worker_label w lag s wk Hw Hst) as Hs.
  destruct (worker_moved capc capr s loc QI0 QC0 QR0 w wk lag HI HF Hw
    (Forall_lookup_1 _ _ _ _ Htok Hw) (l_stop _ _ _ _ _ _ HL))
    as (wk' & s1 & QI' & QC' & QR' & Hstep & Har & HR' & HF' & Hcase).
  rewrite Hstep in Hs. cbn [rbind] in Hs.
  destruct (service_step_ok _ _ _ _ _ _ _ _ _ HI Htok Hs) as (s2 & loc2 & QI2 & QC2 & QR2 & [= <-] & HI2).
  pose proof (a_n _ _ Har) as En.
  assert (Hreq : length (reqs (set_sworker s1 w wk')) + news (set_sworker s1 w wk') = length (reqs s) + news s).
  { unfold news. simpl. rewrite (a_len _ _ Har). f_equal.
    assert (H' : ∀ l, sum_list_with (λ cl, cpc_new (cpc_of cl)) l = sum_list_with cpc_new (cpc_of <$> l)).
    { intros l. induction l as [|x l IH]; simpl; [done|]. by rewrite IH. }
    by rewrite !H', (a_clients _ _ Har). }
  exists (set_sworker s1 w wk').
  destruct Hcase as [Hlt|(-> & -> & -> & -> & Ew & Hstuck)].
  - exists QI', QC', QR'. split; [done|]. split; [|split_and!; try done; left; lia].
    by eapply live_intro; [| | |apply (a_stop _ _ Har)].
  - exists QI, QC, QR. split; [done|]. split.
    + eapply live_intro; [done| | |apply (a_stop _ _ Har)].
      * eapply reps_ext; [simpl; rewrite En; exact Ha|done].
      * eapply flow_agree; [by eapply v_workers| |done]. simpl. by rewrite En.
    + split_and!; try done. right. split_and!; try done.
      * simpl. by rewrite (a_workers _ _ Har).
      * rewrite <- Ewk, <- Ew. apply eq_sym, work_agree. simpl. by rewrite En.
      * intros Hlag. eapply stuck_ext; [by eapply worker_lt|done|auto].
Qed.

Lemma live_client capc capr s QI QC QR c cl sp spurious s' :
  live capc capr s QI QC QR → tokens_left s → clients s !! c = Some cl →
  step (LClient c sp spurious) s = Some (Ok s') →
  ∃ QI' QC' QR', live capc capr s' QI' QC' QR' ∧
    length (reqs s') + news s' = length (reqs s) + news s ∧
    ((∀ r q, client_req (cpc_of cl) = Some r → reqs s !! r = Some q → done q = true) →
     work s' QI' QC' QR' < work s QI QC QR).
Proof.
  intros HL Htok Hc Hs. destruct (live_view _ _ _ _ _ _ HL) as (loc & QI0 & QC0 & QR0 & HI & HF & Ha & Ewk).
  destruct (service_step_ok _ _ _ _ _ _ _ _ _ HI Htok Hs) as (s2 & loc2 & QI2 & QC2 & QR2 & [= <-] & HI2).
  simpl in Hs. rewrite Hc in Hs.
  destruct (client_flow capc capr s loc QI0 QC0 QR0 c cl HI HF Hc sp spurious s' Hs)
    as (QI' & before & after & (HR' & HF' & Es & _ & Er & Ew) & Hlt).
  exists QI', QC0, QR0. split; [|split; [done|]].
  - eapply live_intro; [done..|]. rewrite Es. by apply HL.
  - intros Hd. specialize (Hlt Hd). lia.
Qed.

Lemma live_call capc capr s QI QC QR c k s' :
  live capc capr s QI QC QR → tokens_left s → step (LCall c k) s = Some (Ok s') →
  ∃ QI' QC' QR', live capc capr s' QI' QC' QR'.
Proof.
  intros HL Htok Hs. destruct (live_view _ _ _ _ _ _ HL) as (loc & QI0 & QC0 & QR0 & HI & HF & Ha & Ewk).
  destruct (service_step_ok _ _ _ _ _ _ _ _ _ HI Htok Hs) as (s2 & loc2 & QI2 & QC2 & QR2 & [= <-] & HI2).
  simpl in Hs. destruct (clients s !! c) as [[p tok]|] eqn:Hc; [|done]. destruct p; try done.
  destruct (accept_of k s) as [[accept op] rr']. simplify_eq. exists QI0, QC0, QR0.
  eapply live_intro; [done| | |apply HL].
  - by destruct (SInv_reps _ _ _ _ _ _ _ HI).
  - eapply (flow_client s); try done; simpl; [by eapply v_workers|eauto|].
    intros r q Hq Hr. right. eauto.
Qed.

Lemma live_step capc capr s QI QC QR l s' :
  live capc capr s QI QC QR → tokens_left s → step l s = Some (Ok s') → stop s' = false →
  ∃ QI' QC' QR', live capc capr s' QI' QC' QR'.
Proof.
  intros HL Htok Hs Hstop. destruct l as [c k|c sp spurious|w lag|].
  - by eapply live_call.
  - destruct (clients s !! c) as [cl|] eqn:Hc; [|simpl in Hs; by rewrite Hc in Hs].
    destruct (live_client _ _ _ _ _ _ _ _ _ _ _ HL Htok Hc Hs) as (QI' & QC' & QR' & ? & _). eauto.
  - destruct (sworkers s !! w) as [wk|] eqn:Hw; [|simpl in Hs; by rewrite Hw in Hs].
    destruct (live_worker _ _ _ _ _ _ _ _ lag HL Htok Hw) as (s2 & QI' & QC' & QR' & Hs2 & HL2 & _).
    rewrite Hs in Hs2. simplify_eq. eauto.
  - simpl in Hs. by simplify_eq.
Qed.

Lemma live_start requested c :
  (requested ≤ 2 ^ 63)%Z →
  ∃ capc capr, 2 ≤ capc ∧ 2 ≤ capr ∧
    live capc capr (start requested c) (λ _, []) (λ _, []) (λ _, []).
Proof.
  intros Hr. destruct (service_start requested c Hr) as (capc & capr & H1 & H2 & HI).
  exists capc, capr. split; [done|]. split; [done|]. eapply live_intro; [done|by eapply SInv_reps| |done].
  split; simpl; try done.
  - by intros w wk [-> _]%lookup_replicate.
  - intros w wk tok r [-> _]%lookup_replicate Ht. simpl in Ht. by rewrite lookup_empty in Ht.
  - assert (Hz : ∀ {A} (f : A → nat) l, (∀ x, x ∈ l → f x = 0) → sum_list_with f l = 0).
    { intros A f l Hf. rewrite (sum_ext f (λ _, 0)) by done. by rewrite (sum_const _ 0). }
    unfold tokens, inboxes, hands. rewrite !Hz; [done|..]; simpl; try done;
      by intros wk [-> _]%elem_of_replicate.
Qed.

(** Setting the flag is for good. *)
Lemma stop_mono l s s' : step l s = Some (Ok s') → stop s' = false → stop s = false.
Proof.
  intros Hs Hf. destruct l as [c k|c sp spurious|w lag|]; simpl in Hs.
  - destruct (clients s !! c) as [[p tok]|]; [|done]. destruct p; try done.
    destruct (accept_of k s) as [[? ?] ?]. by simplify_eq.
  - destruct (clients s !! c) as [cl|]; [|done]. apply client_step_frame in Hs as (_ & _ & E). congruence.
  - destruct (sworkers s !! w) as [wk|] eqn:Hw; [|done].
    assert (Hs' : ('(wk', s1) ←r sworker_step w lag wk s; Ok (set_sworker s1 w wk')) = Ok s').
    { destruct (spc_of wk); by simplify_eq. }
    destruct (sworker_step w lag wk s) as [[wk' s1]|] eqn:Hst; simpl in Hs'; [|done]. simplify_eq.
    apply sworker_step_frame in Hst as (_ & E & _). simpl in Hf. congruence.
  - by simplify_eq.
Qed.

Lemma live_reachable requested c s :
  (requested ≤ 2 ^ 63)%Z → reachable requested c s → stop s = false →
  ∃ capc capr QI QC QR, 2 ≤ capc ∧ 2 ≤ capr ∧ live capc capr s QI QC QR.
Proof.
  intros Hreq. induction 1 as [|s l s' _ IH Htok Hs]; intros Hstop.
  - destruct (live_start requested c Hreq) as (capc & capr & ? & ? & HL). eauto 10.
  - destruct (IH (stop_mono _ _ _ Hs Hstop)) as (capc & capr & QI & QC & QR & ? & ? & HL).
    destruct (live_step _ _ _ _ _ _ l s' HL Htok Hs Hstop) as (QI' & QC' & QR' & HL'). eauto 10.
Qed.

(** ** Schedules *)

(** Clients inside a call and workers take steps; nobody calls. *)
Definition running (l : slabel) : Prop :=
  match l with LClient _ _ _ | LWorker _ _ => True | _ => False end.

Inductive runs s : Service CC CR IB → Prop :=
| runs_refl : runs s s
| runs_step l s1 s2 : running l → tokens_left s → step l s = Some (Ok s1) → runs s1 s2 → runs s s2.

Lemma runs_trans s1 s2 s3 : runs s1 s2 → runs s2 s3 → runs s1 s3.
Proof. induction 1; [done|]. intros H3. by eapply runs_step; [| | |auto]. Qed.

Lemma runs_labels s s' :
  runs s s' → ∃ ls, Forall running ls ∧ run_labels ls s = Some (Ok s').
Proof.
  induction 1 as [s|s l s1 s2 Hl _ Hs _ (ls & Hls & Hr)].
  - exists []. done.
  - exists (l :: ls). split; [by constructor|]. simpl. by rewrite Hs.
Qed.

Lemma runs_reachable requested c s s' : runs s s' → reachable requested c s → reachable requested c s'.
Proof. induction 1; [done|]. intros Hr. apply IHruns. by eapply reach_step. Qed.

(** The work left can be lowered. *)
Definition helps capc capr s QI QC QR : Prop :=
  ∃ s' QI' QC' QR', runs s s' ∧ live capc capr s' QI' QC' QR' ∧
    length (reqs s') + news s' = length (reqs s) + news s ∧ work s' QI' QC' QR' < work s QI QC QR.

Section finish.
Context (capc capr : nat).
Hypothesis (Hcapc : 2 ≤ capc) (Hcapr : 2 ≤ capr).

(** Run worker [j] alone: as long as [P] holds its silent steps keep [P] and
    bring [D] down, so it must do some of the work. *)
Lemma run_worker n QI QC QR j (P : spc → Prop) (D : spc → nat) :
  (∀ p, P p → stuck capc capr n QI QC QR j p → P (idle_next n p) ∧ D (idle_next n p) < D p) →
  ∀ s wk, live capc capr s QI QC QR → sn s = n → room s → sworkers s !! j = Some wk → P (spc_of wk) →
  helps capc capr s QI QC QR.
Proof.
  intros HP s wk. remember (D (spc_of wk)) as d eqn:Hd. revert s wk Hd.
  induction d as [d IH] using lt_wf_ind. intros s wk -> HL Hn Hroom Hj Hp.
  pose proof (live_tokens _ _ _ _ _ _ HL Hroom) as Htok.
  destruct (live_worker _ _ _ _ _ _ j wk false HL Htok Hj)
    as (s' & QI' & QC' & QR' & Hs & HL' & En & Er & [Hlt|(Ew & -> & -> & -> & Ewk & Hst)]).
  - exists s', QI', QC', QR'. split_and!; try done.
    by eapply (runs_step _ (LWorker j false)); [| | |apply runs_refl].
  - rewrite Hn in *. destruct (HP _ Hp (Hst eq_refl)) as [Hp' HD].
    assert (Hj' : sworkers s' !! j = Some (set_spc wk (idle_next n (spc_of wk)))).
    { rewrite Ew. apply list_lookup_insert_eq. by eapply lookup_lt_Some. }
    destruct (IH _ HD s' (set_spc wk (idle_next n (spc_of wk))) eq_refl HL' En ltac:(unfold room in *; by rewrite Er) Hj' Hp')
      as (s2 & QI2 & QC2 & QR2 & Hr & HL2 & Er2 & Hlt).
    exists s2, QI2, QC2, QR2. split_and!; [by eapply (runs_step _ (LWorker j false))|done|lia|lia].
Qed.

(** A worker with a reply waiting comes round to it. *)
Lemma run_reply s QI QC QR src j wk :
  live capc capr s QI QC QR → room s → sworkers s !! j = Some wk → src < sn s → QR (src, j) ≠ [] →
  helps capc capr s QI QC QR.
Proof.
  intros HL Hroom Hj Hsrc HQ. set (n := sn s).
  eapply (run_worker n QI QC QR j (λ _, True) (λ p, match p with
    | SCollect k _ _ => if k <=? src then src - k else (n - k) + n + 4 + src
    | SReply _ _ _ _ => 1 + src
    | SPump k _ _ => (n - k) + 1 + src
    | SPush _ _ _ _ | SStop _ => n + 2 + src
    | SDrain _ | SServe _ => n + 3 + src
    | _ => 0
    end)); try done.
  intros p _ Hst. split; [done|]. destruct p as [k b p|? ? ? p|k b c|b|l|o c r rest|st r v f|b| |]; simpl in *; try done; try lia.
  - destruct (Nat.ltb_spec k n); simpl; lia.
  - destruct (Nat.leb_spec k src).
    + destruct (decide (k = src)) as [-> | Hne]; [by rewrite Hst in HQ|].
      destruct (Nat.ltb_spec k n); [|lia]. destruct (Nat.leb_spec (S k) src); lia.
    + destruct (Nat.ltb_spec k n).
      * destruct (Nat.leb_spec (S k) src); lia.
      * destruct c as [b' []|]; simpl; lia.
Qed.

(** With the reply queues empty, a worker comes round to a waiting command. *)
Lemma run_command s QI QC QR src j wk :
  live capc capr s QI QC QR → room s → sworkers s !! j = Some wk → src < sn s → QC (src, j) ≠ [] →
  (∀ i k, i < sn s → k < sn s → QR (i, k) = []) → j < sn s →
  helps capc capr s QI QC QR.
Proof.
  intros HL Hroom Hj Hsrc HQ HR Hjn. set (n := sn s).
  eapply (run_worker n QI QC QR j (λ _, True) (λ p, match p with
    | SPump k _ _ => if k <=? src then src - k else (n - k) + n + src + 6
    | SCollect k _ _ => (n - k) + src + 5
    | SPush _ _ _ _ | SStop _ => src + 1
    | SDrain _ | SServe _ => src + 2
    | _ => 0
    end)); try done.
  intros p _ Hst. split; [done|]. destruct p as [k b p|? from ? p|k b c|b|l|o c r rest|st r v f|b| |]; simpl in *; try done; try lia.
  - destruct (Nat.leb_spec k src).
    + destruct (decide (k = src)) as [-> | Hne]; [by rewrite Hst in HQ|].
      destruct (Nat.ltb_spec k n); [|lia]. destruct (Nat.leb_spec (S k) src); lia.
    + destruct (Nat.ltb_spec k n); [destruct (Nat.leb_spec (S k) src); lia|simpl; lia].
  - destruct Hst as [Hf Hlen]. rewrite HR in Hlen by done. simpl in Hlen. lia.
  - destruct (Nat.ltb_spec k n); [lia|]. destruct c as [b' []|]; simpl; lia.
Qed.

(** With all queues empty, a worker comes round to its inbox and to what it
    has in its hands. *)
Lemma run_hands s QI QC QR j wk :
  live capc capr s QI QC QR → room s → sworkers s !! j = Some wk →
  0 < spc_work (spc_of wk) ∨ QI j ≠ [] →
  (∀ i k, i < sn s → k < sn s → QC (i, k) = [] ∧ QR (i, k) = []) → j < sn s →
  helps capc capr s QI QC QR.
Proof.
  intros HL Hroom Hj Hp HE Hjn. set (n := sn s).
  eapply (run_worker n QI QC QR j (λ p, 0 < spc_work p ∨ QI j ≠ []) (λ p, match p with
    | SPump k _ _ => (n - k) + n + 4
    | SCollect k _ _ => (n - k) + 2
    | SDrain _ | SPush _ _ _ _ | SReply _ _ _ _ => 1
    | SStop _ => 2 * n + 5
    | SServe _ => 2 * n + 6
    | _ => 0
    end)); try done.
  intros p HP Hst.
  destruct p as [k b p|? from ? p|k b c|b|l|o c r rest|st r v f|b| |]; simpl in *; try done; try (split; [done|lia]).
  - destruct (Nat.ltb_spec k n); simpl; (split; [done|lia]).
  - destruct Hst as [Hf Hlen]. rewrite (proj2 (HE j from Hjn Hf)) in Hlen. simpl in Hlen. lia.
  - destruct (Nat.ltb_spec k n); simpl; [split; [done|lia]|]. destruct c as [b' []|]; simpl in *; (split; [done|lia]).
  - destruct HP; [lia|done].
  - subst l. split; [done|lia].
  - destruct Hst as [Ho Hlen]. rewrite (proj1 (HE j o Hjn Ho)) in Hlen. simpl in Hlen. lia.
Qed.

Lemma idle_hands p : spc_work p = 0 → hand p = [] ∧ pushing p = None ∧ replying p = None ∧ fulfilling p = None.
Proof.
  destruct p as [k b p|? ? ? p|k b c|b|l|o c r rest|st r v f|b| |]; simpl; try done.
  - by destruct p.
  - destruct c as [b' p|]; simpl; [by destruct p|done].
  - by destruct l.
  - by destruct st.
Qed.

(** Nothing is queued and no worker has anything to do. *)
Record drained s QI QC QR : Prop := mkDrained {
  d_in : ∀ w, w < sn s → QI w = [];
  d_q : ∀ i j, i < sn s → j < sn s → QC (i, j) = [] ∧ QR (i, j) = [];
  d_w : ∀ w wk, sworkers s !! w = Some wk → spc_work (spc_of wk) = 0
}.

Lemma drained_done s QI QC QR r q :
  live capc capr s QI QC QR → drained s QI QC QR → reqs s !! r = Some q → done q = true.
Proof.
  intros HL [D1 D2 D3] Hq. apply not_false_is_true. intros Hd.
  destruct (live_view _ _ _ _ _ _ HL) as (loc & QI0 & QC0 & QR0 & HI & _).
  assert (Hlt : ∀ w wk, sworkers s !! w = Some wk → w < sn s) by (intros; by eapply worker_lt).
  pose proof (l_flow _ _ _ _ _ _ HL) as HF.
  destruct (f_held _ _ _ _ HF r q Hq Hd) as (w & wk & Hw & [Hh|[op Hin]]).
  2:{ rewrite D1 in Hin by eauto. by apply elem_of_nil in Hin. }
  destruct (idle_hands _ (D3 w wk Hw)) as (Eh & _ & _ & Ef).
  destruct Hh as [[op Hin]|[(st & v & Hf & _)|[tok Ht]]].
  - rewrite Eh in Hin. by apply elem_of_nil in Hin.
  - by rewrite Ef in Hf.
  - destruct (f_way _ _ _ _ HF w wk tok r Hw Ht) as (u & wku & Hu & Hat).
    destruct (idle_hands _ (D3 u wku Hu)) as (_ & Ep & Er & _).
    destruct (D2 w u) as [EC _]; [by eauto..|]. destruct (D2 u w) as [_ ER]; [by eauto..|].
    unfold way_at in Hat. rewrite Ep, Er, EC, ER in Hat.
    destruct Hat as [(_ & ? & ? & ?)|[[? ?%elem_of_nil]|[[? ?]|[? ?%elem_of_nil]]]]; done.
Qed.

Lemma run_client s QI QC QR c cl :
  live capc capr s QI QC QR → room s → drained s QI QC QR →
  clients s !! c = Some cl → cpc_of cl ≠ CIdle → helps capc capr s QI QC QR.
Proof.
  intros HL Hroom HD Hc Hne. pose proof (live_tokens _ _ _ _ _ _ HL Hroom) as Htok.
  destruct (live_view _ _ _ _ _ _ HL) as (loc & QI0 & QC0 & QR0 & HI & _).
  assert (Hs : is_Some (step (LClient c [] false) s)).
  { simpl. rewrite Hc. unfold client_step. destruct (cpc_of cl) as [|accept op|r k|r|r|r] eqn:Hpc; try done; try by eexists.
    destruct (c_req _ (v_cli _ _ _ _ _ _ _ HI) c cl r Hc ltac:(by rewrite Hpc)) as (q & Hq & _ & _ & _ & Hp).
    destruct (Hp Hpc (drained_done _ _ _ _ _ _ HL HD Hq)) as [->|(w & wk & v & f & Hw & Hf)]; [by eexists|].
    pose proof (d_w _ _ _ _ HD w wk Hw) as Hz. by rewrite Hf in Hz. }
  destruct Hs as [o Hs]. destruct (service_step_ok _ _ _ _ _ _ _ _ _ HI Htok Hs) as (s' & _ & _ & _ & _ & -> & _).
  destruct (live_client _ _ _ _ _ _ _ _ _ _ _ HL Htok Hc Hs) as (QI' & QC' & QR' & HL' & Er & Hlt).
  exists s', QI', QC', QR'. split_and!; [|done|done|].
  - by eapply (runs_step _ (LClient c [] false)); [| | |apply runs_refl].
  - apply Hlt. intros r q _ Hq. by eapply (drained_done s QI QC QR).
Qed.

Lemma queue_dec {T} n (Q : nat * nat → list T) :
  (∀ i j, i < n → j < n → Q (i, j) = []) ∨ ∃ i j, i < n ∧ j < n ∧ Q (i, j) ≠ [].
Proof.
  destruct (decide (Forall (λ ij, length (Q ij) = 0) (pairs n))) as [He|Hne].
  - left. intros i j Hi Hj. rewrite Forall_forall in He. apply length_zero_iff_nil, He. by apply pairs_elem.
  - right. apply not_Forall_Exists in Hne; [|apply _]. apply Exists_exists in Hne as ([i j] & Hij & HQ).
    apply pairs_inv in Hij as [Hi Hj]. exists i, j. split_and!; [done..|]. intros E. simpl in HQ. by rewrite E in HQ.
Qed.

Lemma run_helps s QI QC QR :
  live capc capr s QI QC QR → room s →
  (∀ c cl, clients s !! c = Some cl → cpc_of cl = CIdle) ∨ helps capc capr s QI QC QR.
Proof.
  intros HL Hroom. destruct (live_view _ _ _ _ _ _ HL) as (loc & QI0 & QC0 & QR0 & HI & _).
  pose proof (worker_at _ _ _ _ _ _ _ HI) as Hat.
  assert (Hlt : ∀ w wk, sworkers s !! w = Some wk → w < sn s) by (intros; by eapply worker_lt).
  destruct (queue_dec (sn s) QR) as [ER|(i & j & Hi & Hj & HQ)].
  2:{ right. destruct (Hat j Hj) as [wk Hw]. by apply (run_reply s QI QC QR i j wk). }
  destruct (queue_dec (sn s) QC) as [EC|(i & j & Hi & Hj & HQ)].
  2:{ right. destruct (Hat j Hj) as [wk Hw]. by apply (run_command s QI QC QR i j wk). }
  destruct (decide (Forall (λ w, length (QI w) = 0) (seq 0 (sn s)))) as [EI|Hne].
  2:{ right. apply not_Forall_Exists in Hne; [|apply _].
      apply Exists_exists in Hne as (w & Hw%elem_of_seq & HQ). destruct (Hat w ltac:(lia)) as [wk Hwk].
      eapply run_hands; eauto. right. intros E. simpl in HQ. by rewrite E in HQ. }
  destruct (decide (Forall (λ wk, spc_work (spc_of wk) = 0) (sworkers s))) as [EW|Hne].
  2:{ right. apply not_Forall_Exists in Hne; [|apply _].
      apply Exists_exists in Hne as (wk & [w Hw]%list_elem_of_lookup & Hwk).
      eapply run_hands; eauto. left. simpl in Hwk. lia. }
  destruct (decide (Forall (λ cl, cpc_work (cpc_of cl) = 0) (clients s))) as [Ec|Hne].
  - left. intros c cl Hc. pose proof (Forall_lookup_1 _ _ _ _ Ec Hc) as Hz. simpl in Hz.
    by destruct (cpc_of cl).
  - right. apply not_Forall_Exists in Hne; [|apply _].
    apply Exists_exists in Hne as (cl & [c Hc]%list_elem_of_lookup & Hcl).
    eapply run_client; try done; [|intros E; simpl in Hcl; by rewrite E in Hcl]. split; auto.
    + intros w Hw. rewrite Forall_forall in EI. apply length_zero_iff_nil, EI, elem_of_seq. lia.
    + intros w wk Hw. by apply (Forall_lookup_1 _ _ _ _ EW Hw).
Qed.

Lemma run_all s QI QC QR :
  live capc capr s QI QC QR → room s →
  ∃ s' QI' QC' QR', runs s s' ∧ live capc capr s' QI' QC' QR' ∧
    length (reqs s') + news s' = length (reqs s) + news s ∧
    ∀ c cl, clients s' !! c = Some cl → cpc_of cl = CIdle.
Proof.
  remember (work s QI QC QR) as d eqn:Hd. revert s QI QC QR Hd.
  induction d as [d IH] using lt_wf_ind. intros s QI QC QR -> HL Hroom.
  destruct (run_helps s QI QC QR HL Hroom) as [Hidle|(s1 & QI1 & QC1 & QR1 & Hr & HL1 & Er & Hlt)].
  - exists s, QI, QC, QR. split; [apply runs_refl|done].
  - destruct (IH _ Hlt s1 QI1 QC1 QR1 eq_refl HL1) as (s2 & QI2 & QC2 & QR2 & Hr2 & HL2 & Er2 & ?).
    { unfold room in *. by rewrite Er. }
    exists s2, QI2, QC2, QR2. split_and!; [by eapply runs_trans|done|congruence|done].
Qed.

End finish.

Lemma news_bound s : news s ≤ length (clients s).
Proof.
  unfold news. induction (clients s) as [|cl l IH]; simpl; [done|]. destruct (cpc_of cl); simpl; lia.
Qed.

(** When all clients are idle, every request has returned. *)
Lemma idle_returned capc capr s QI QC QR :
  live capc capr s QI QC QR → (∀ c cl, clients s !! c = Some cl → cpc_of cl = CIdle) →
  ∀ r q, reqs s !! r = Some q → done q = true ∧ is_Some (r_ret q).
Proof.
  intros HL Hidle r q Hq.
  assert (Hret : is_Some (r_ret q)).
  { apply not_eq_None_Some. intros Hn.
    destruct (f_ret _ _ _ _ (l_flow _ _ _ _ _ _ HL) r q Hq Hn) as (cl & Hc & Hcr).
    by rewrite (Hidle _ _ Hc) in Hcr. }
  split; [|done]. apply not_false_is_true. intros Hd.
  destruct (live_view _ _ _ _ _ _ HL) as (loc & QI0 & QC0 & QR0 & HI & _).
  rewrite (h_notret _ _ (v_hist _ _ _ _ _ _ _ HI) r q Hq Hd) in Hret. by destruct Hret.
Qed.

(** ** Property *)

(** [C14] The service is free of deadlock. From every state that clients and
    workers can reach while nobody has called [shutdown], however full the
    queues are and wherever the workers wait for room, the workers and the
    clients have a schedule (no new calls, no failed queue loads needed) after
    which every call has returned and every request ever submitted has its
    answer, as long as the requests fit the 48 bits of a token. *)
Theorem service_progress (requested : Z) (c : nat) (s : Service CC CR IB)
    (Hreq : (requested ≤ 2 ^ 63)%Z) (Hr : reachable requested c s) (Hstop : stop s = false)
    (Hroom : (Z.of_nat (length (reqs s) + length (clients s)) < 2 ^ 48)%Z) :
  ∃ ls s', Forall running ls ∧ run_labels ls s = Some (Ok s') ∧ reachable requested c s' ∧
    (∀ i cl, clients s' !! i = Some cl → cpc_of cl = CIdle) ∧
    (∀ r q, reqs s' !! r = Some q → done q = true ∧ is_Some (r_ret q)).
Proof.
  destruct (live_reachable requested c s Hreq Hr Hstop) as (capc & capr & QI & QC & QR & H1 & H2 & HL).
  pose proof (news_bound s). destruct (run_all capc capr H1 H2 s QI QC QR HL) as (s' & QI' & QC' & QR' & Hrun & HL' & _ & Hidle).
  { unfold room. lia. }
  destruct (runs_labels _ _ Hrun) as (ls & Hls & Hrl). exists ls, s'.
  split_and!; [done|done|by eapply runs_reachable|done|]. by eapply idle_returned.
Qed.

End live.

(** ** Witness: a get that is waiting in a command queue *)

#[local] Existing Instance demo_inbox.
#[local] Existing Instance demo_inbox_laws.

Lemma demo_forwarded :
  ∃ s : DemoService, reachable 2 1 s ∧
    (negb (stop s) && (length (reqs s) =? 1) && (length (clients s) =? 1)
     && bool_decide (done <$> reqs s = [false])) = true.
Proof.
  apply (demo_reach ([LCall 0 (GetRoundRobin [2%Z])] ++ demo_client 1 ++ demo_worker 0 10)
    (λ s, negb (stop s) && (length (reqs s) =? 1) && (length (clients s) =? 1)
          && bool_decide (done <$> reqs s = [false]))).
  vm_compute. reflexivity.
Qed.

Lemma service_progress_witness :
  ∃ (s s' : DemoService) ls, done <$> reqs s = [false] ∧ run_labels ls s = Some (Ok s') ∧
    ∀ r q, reqs s' !! r = Some q → done q = true ∧ is_Some (r_ret q).
Proof.
  destruct demo_forwarded as (s & Hr & [[[Hst Hn]%andb_true_iff Hc]%andb_true_iff Hd]%andb_true_iff).
  apply negb_true_iff in Hst. apply Nat.eqb_eq in Hn, Hc. apply bool_decide_eq_true in Hd.
  destruct (service_progress 2 1 s ltac:(lia) Hr Hst) as (ls & s' & _ & Hrun & _ & _ & Hall);
    [by rewrite Hn, Hc|].
  exists s, s', ls. split; [exact Hd|]. split; [exact Hrun|exact Hall].
Defined.
