(* ===== verification/BlockOn.v ===== *)
(** * BlockOn: driving one future on the current thread

    Models the first part of [crates/zerokv/src/executor.rs]: the hand-written
    waker over a reference-counted [ThreadSignal], and [block_on] with its
    flag, its park token and the wakes of other threads. A future is whatever
    its polls answer: the outcome of a poll, and the wakes made while it ran,
    are part of the label of the step. *)

From S2P Require Import Prelude.
Local Open Scope Z_scope.
Local Open Scope zkv_scope.

(** ** The raw waker

    [ThreadSignal] behind its reference count, and how many of the counted
    references are wakers; [owner] says whether [block_on] still holds its own.
    A count of zero means the signal has been freed. *)

Record Signal : Type := mkSignal {
  strong : nat;
  flag : bool;
  unparked : bool;
  wakers : nat;
  owner : bool
}.

(** [Arc::clone] and the drop of an [Arc], on a live allocation. *)
Definition arc_clone (s : Signal) : res Signal :=
  match strong s with
  | O => Err UB
  | n => Ok (mkSignal (S n) (flag s) (unparked s) (wakers s) (owner s))
  end.
Definition arc_drop (s : Signal) : res Signal :=
  match strong s with
  | O => Err UB
  | S n => Ok (mkSignal n (flag s) (unparked s) (wakers s) (owner s))
  end.

(** [awake.store(true)] and [thread.unpark()] through a reference. *)
Definition arc_signal (s : Signal) : res Signal :=
  match strong s with
  | O => Err UB
  | n => Ok (mkSignal n true true (wakers s) (owner s))
  end.

Definition with_wakers (w : nat) (s : Signal) : Signal :=
  mkSignal (strong s) (flag s) (unparked s) w (owner s).

(** [rw_clone]: the borrowed reference is forgotten, the clone is a waker. *)
Definition rw_clone (s : Signal) : res Signal :=
  s ←r arc_clone s; Ok (with_wakers (S (wakers s)) s).

(** [rw_wake] consumes the waker. *)
Definition rw_wake (s : Signal) : res Signal :=
  s ←r arc_signal s; s ←r arc_drop s; Ok (with_wakers (wakers s - 1) s).

(** [rw_wake_by_ref] does not. *)
Definition rw_wake_by_ref (s : Signal) : res Signal := arc_signal s.

Definition rw_drop (s : Signal) : res Signal :=
  s ←r arc_drop s; Ok (with_wakers (wakers s - 1) s).

(** [Arc::new] and [waker_for] at the start of [block_on]. *)
Definition signal_new : Signal := mkSignal 1 true false 0 true.
Definition waker_for (s : Signal) : res Signal :=
  s ←r arc_clone s; Ok (with_wakers (S (wakers s)) s).

(** What the holders of wakers may do, and the end of [block_on], which drops
    its signal. An operation on a waker needs one. *)
Inductive wop : Type := OClone | OWake | OWakeByRef | ODrop | OReturn.

Definition wop_run (o : wop) (s : Signal) : option (res Signal) :=
  match o with
  | OReturn =>
    if owner s
    then Some (s ←r arc_drop s; Ok (mkSignal (strong s) (flag s) (unparked s) (wakers s) false))
    else None
  | _ =>
    if (0 <? wakers s)%nat
    then Some (match o with
               | OClone => rw_clone s
               | OWake => rw_wake s
               | OWakeByRef => rw_wake_by_ref s
               | _ => rw_drop s
               end)
    else None
  end.

Fixpoint wops_run (os : list wop) (s : Signal) : option (res Signal) :=
  match os with
  | [] => Some (Ok s)
  | o :: os =>
    match wop_run o s with
    | Some (Ok s') => wops_run os s'
    | r => r
    end
  end.

Definition counted (s : Signal) : Prop := strong s = (wakers s + Nat.b2n (owner s))%nat.

Lemma wop_counted o s r :
  counted s → wop_run o s = Some r → ∃ s', r = Ok s' ∧ counted s'.
Proof.
  unfold counted, wop_run, rw_clone, rw_wake, rw_wake_by_ref, rw_drop, arc_clone, arc_drop, arc_signal.
  destruct s as [st f u w ow]; simpl. intros Hc.
  destruct o, ow; simpl; destruct (0 <? w)%nat eqn:Hw; try done;
    try (apply Nat.ltb_lt in Hw); destruct st as [|st]; simpl in *; try lia;
    intros [= <-]; eexists; (split; [reflexivity|]); simpl; lia.
Qed.

(** The reference count of the waker is right: whatever its holders do with
    the wakers [block_on] hands out, no operation touches a freed signal, and
    the signal is freed exactly when the last waker and [block_on]'s own
    reference are gone. *)
Lemma waker_refcount os r :
  (s ←r Ok signal_new; waker_for s) = Ok (mkSignal 2 true false 1 true) ∧
  (wops_run os (mkSignal 2 true false 1 true) = Some r →
   ∃ s, r = Ok s ∧ (strong s = 0%nat ↔ wakers s = 0%nat ∧ owner s = false)).
Proof.
  split; [done|].
  assert (Hc : counted (mkSignal 2 true false 1 true)) by done.
  revert Hc. generalize (mkSignal 2 true false 1 true).
  induction os as [|o os IH]; simpl; intros s Hc Hr.
  - simplify_eq. exists s. split; [done|]. unfold counted in Hc. destruct (owner s); simpl in *; lia || naive_solver lia.
  - destruct (wop_run o s) as [r1|] eqn:Ho; [|done].
    destruct (wop_counted o s r1 Hc Ho) as (s1 & -> & Hc1). by apply (IH s1).
Qed.

(** ** The blocked thread *)

Section BlockOn.
Context {A : Type}.

(** Where the blocked thread is; [A] is the output of the future. *)
Inductive mpc : Type :=
| MSwap
| MPoll
| MPark
| MReturn (v : A).

(** [awake] of [ThreadSignal], the park token of the thread, and the wakes
    that have stored the flag and not yet unparked; [polls] counts the polls
    and [wakes] the wakes for the theorems. *)
Record State : Type := mkState {
  awake : bool;
  token : bool;
  unparks : nat;
  main : mpc;
  polls : nat;
  wakes : nat;
  seen : nat
}.

(** [block_on] up to its loop: the flag starts set. *)
Definition start : State := mkState true false 0 MSwap 0 0 0.

Inductive label : Type :=
| LSwap
| LPoll (ready : option A) (self_wakes : nat)
| LPark (spurious : bool)
| LWake
| LUnpark.

(** [rw_wake] and [rw_wake_by_ref] store the flag, then unpark. A poll may call
    the waker itself, in which case both happen before it returns. *)
Definition step (l : label) (s : State) : option State :=
  match l, main s with
  | LSwap, MSwap =>
    Some (mkState false (token s) (unparks s) (if awake s then MPoll else MPark)
            (polls s) (wakes s) (if awake s then wakes s else seen s))
  | LPoll r k, MPoll =>
    let '(aw, tk) := match k with O => (awake s, token s) | _ => (true, true) end in
    Some (mkState aw tk (unparks s)
            (match r with Some v => MReturn v | None => MSwap end)
            (S (polls s)) (wakes s + k) (seen s))
  | LPark spurious, MPark =>
    if token s || spurious
    then Some (mkState (awake s) false (unparks s) MSwap (polls s) (wakes s) (seen s))
    else None
  | LWake, _ =>
    Some (mkState true (token s) (S (unparks s)) (main s) (polls s) (S (wakes s)) (seen s))
  | LUnpark, _ =>
    match unparks s with
    | O => None
    | S u => Some (mkState (awake s) true u (main s) (polls s) (wakes s) (seen s))
    end
  | _, _ => None
  end.

Inductive reachable : State → Prop :=
| reach_start : reachable start
| reach_step s l s' : reachable s → step l s = Some s' → reachable s'.

(** No wake is forgotten: one newer than the last poll leaves the flag set. *)
Record Inv (s : State) : Prop := mkInv {
  v_flag : seen s ≠ wakes s → awake s = true;
  v_seen : (seen s ≤ wakes s)%nat;
  v_parked : main s = MPark → awake s = true → token s = true ∨ unparks s ≠ 0%nat
}.

Lemma block_on_inv s : reachable s → Inv s.
Proof.
  induction 1 as [|s l s' _ [Hf Hs Hp] Hst]; [by split|].
  unfold step in Hst. destruct l as [|r k|spurious| |]; destruct (main s) eqn:Hm; try done.
  - simplify_eq. destruct (awake s) eqn:Ha; split; simpl; auto; try lia; try done.
  - destruct k as [|k]; simplify_eq; split; simpl; rewrite ?Nat.add_0_r; auto; try lia; by destruct r.
  - destruct (token s || spurious); simplify_eq. by split.
  - simplify_eq. split; simpl; auto; lia.
  - simplify_eq. split; simpl; auto; lia.
  - simplify_eq. split; simpl; auto; lia.
  - simplify_eq. split; simpl; auto; lia.
  - destruct (unparks s); simplify_eq. split; simpl; auto.
  - destruct (unparks s); simplify_eq. split; simpl; auto.
  - destruct (unparks s); simplify_eq. split; simpl; auto.
  - destruct (unparks s); simplify_eq. split; simpl; auto.
Qed.

(** The thread's own steps once the wakes in progress have unparked it. *)
Fixpoint run (ls : list label) (s : State) : option State :=
  match ls with
  | [] => Some s
  | l :: ls => match step l s with Some s' => run ls s' | None => None end
  end.

(** [C35] No wake is lost in [block_on]: whenever a wake has come in since the
    flag was last taken, the thread is not stuck in [park] (its token is there
    or an [unpark] is on its way), and once the wakes in progress are through
    it reaches its next poll in at most three steps. *)
Theorem block_on_no_lost_wakeup (s : State) (Hr : reachable s)
    (Hwake : seen s ≠ wakes s) (Hrun : ∀ v, main s ≠ MReturn v) :
  (main s = MPark → token s = true ∨ unparks s ≠ 0%nat) ∧
  (unparks s = 0%nat → ∃ ls s', (length ls ≤ 3)%nat ∧ run ls s = Some s' ∧ main s' = MPoll ∧
     polls s' = polls s).
Proof.
  destruct (block_on_inv s Hr) as [Hf _ Hp]. specialize (Hf Hwake).
  split; [auto|]. intros Hu. destruct (main s) as [| | |v] eqn:Hm.
  - exists [LSwap]. eexists. split; [simpl; lia|]. cbn [run]. unfold step. rewrite Hm, Hf. done.
  - exists []. eexists. split; [simpl; lia|]. done.
  - destruct (Hp eq_refl Hf) as [Ht|]; [|done].
    exists [LPark false; LSwap]. eexists. split; [simpl; lia|]. cbn [run].
    unfold step at 1. rewrite Hm, Ht. cbn. by rewrite Hf.
  - by destruct (Hrun v).
Qed.

End BlockOn.
Arguments mpc A : clear implicits.
Arguments State A : clear implicits.
Arguments label A : clear implicits.

(** The thread polled once, took a second look and parked; then a wake. *)
Definition demo_state : State Z := mkState true false 1 MPark 1 1 0.

Lemma demo_blocked : reachable demo_state.
Proof.
  assert (H : run [LSwap; LPoll None 0; LSwap; LWake] start = Some demo_state) by reflexivity.
  revert H. generalize (reach_start (A := Z)).
  generalize (start (A := Z)), [LSwap; LPoll (A := Z) None 0; LSwap; LWake]. intros s0 ls. revert s0.
  induction ls as [|l ls IH]; simpl; intros s Hr Hs; [by simplify_eq|].
  destruct (step l s) as [s1|] eqn:Hl; [|done]. apply (IH s1); [by eapply reach_step|done].
Qed.

Lemma block_on_no_lost_wakeup_witness :
  seen demo_state ≠ wakes demo_state ∧
  (token demo_state = true ∨ unparks demo_state ≠ 0%nat).
Proof.
  split; [done|]. by apply (block_on_no_lost_wakeup demo_state demo_blocked).
Defined.
