(* ===== verification/RunQueue.v ===== *)
(** * RunQueue: the multi-task executor

    Models the second part of [crates/zerokv/src/executor.rs]: [Task], its
    [Wake] implementation, and the [Executor] with its run queue, counter and
    condition variable, run by one thread while others spawn and wake. The
    outcome of a poll, and the tasks it wakes, are part of the label of the
    step. *)

From S2P Require Import Prelude.
Local Open Scope Z_scope.
Local Open Scope zkv_scope.

(** Where the thread inside [run] is. *)
Inductive rpc : Type :=
| RIdle
| RPop
| RWait
| RTake (t : nat)
| RPoll (t : nat)
| RFinish
| RReturned.

#[export] Instance rpc_eq_dec : EqDecision rpc.
Proof. solve_decision. Defined.

(** The tasks (is the future still there?), [ready], [outstanding], the wakes
    that have pushed and not yet notified, the spawns that have counted and
    not yet pushed, and the runner. *)
Record State : Type := mkState {
  tasks : list bool;
  ready : list nat;
  outstanding : Z;
  notifies : nat;
  spawning : nat;
  runner : rpc
}.

(** [Executor::new]. *)
Definition new : State := mkState [] [] 0 0 0 RIdle.

Inductive label : Type :=
| LSpawnCount
| LSpawnPush
| LWake (t : nat)
| LNotify
| LSpurious
| LRun
| LStep (pending : bool) (woken : list nat).

Definition set_runner (s : State) (r : rpc) : State :=
  mkState (tasks s) (ready s) (outstanding s) (notifies s) (spawning s) r.

(** One step of [run]. The queue is locked from the pop to the wait, so that
    part is one step. A poll answers [pending] and may wake tasks; waking
    pushes them at once, and its [notify_one] finds the runner busy. *)
Definition run_step (pending : bool) (woken : list nat) (s : State) : option State :=
  match runner s with
  | RPop =>
    match ready s with
    | t :: rest => Some (mkState (tasks s) rest (outstanding s) (notifies s) (spawning s) (RTake t))
    | [] => Some (set_runner s (if outstanding s =? 0 then RReturned else RWait))
    end
  | RTake t =>
    match tasks s !! t with
    | Some true => Some (set_runner s (RPoll t))
    | Some false => Some (set_runner s RPop)
    | None => None
    end
  | RPoll t =>
    if forallb (λ t, bool_decide (t < length (tasks s))%nat) woken then
      if pending
      then Some (mkState (tasks s) (ready s ++ woken) (outstanding s) (notifies s) (spawning s) RPop)
      else Some (mkState (<[t := false]> (tasks s)) (ready s ++ woken) (outstanding s)
                   (notifies s) (spawning s) RFinish)
    else None
  | RFinish =>
    Some (mkState (tasks s) (ready s) (wsub (outstanding s) 1) (notifies s) (spawning s) RPop)
  | _ => None
  end.

(** [spawn] (which does not notify), [Task::wake]/[wake_by_ref], [run]. A
    waker exists only for a task that has been spawned. *)
Definition step (l : label) (s : State) : option State :=
  match l with
  | LSpawnCount =>
    Some (mkState (tasks s) (ready s) (wadd (outstanding s) 1) (notifies s) (S (spawning s)) (runner s))
  | LSpawnPush =>
    match spawning s with
    | O => None
    | S k => Some (mkState (tasks s ++ [true]) (ready s ++ [length (tasks s)]) (outstanding s)
                     (notifies s) k (runner s))
    end
  | LWake t =>
    if bool_decide (t < length (tasks s))%nat
    then Some (mkState (tasks s) (ready s ++ [t]) (outstanding s) (S (notifies s)) (spawning s) (runner s))
    else None
  | LNotify =>
    match notifies s with
    | O => None
    | S k => Some (mkState (tasks s) (ready s) (outstanding s) k (spawning s)
                     (match runner s with RWait => RPop | r => r end))
    end
  | LSpurious => match runner s with RWait => Some (set_runner s RPop) | _ => None end
  | LRun => match runner s with RIdle | RReturned => Some (set_runner s RPop) | _ => None end
  | LStep pending woken => run_step pending woken s
  end.

Inductive reachable : State → Prop :=
| reach_new : reachable new
| reach_step s l s' :
    reachable s → (l = LSpawnPush → runner s ≠ RWait) → step l s = Some s' → reachable s'.

(** ** Invariant *)

Definition alive (s : State) : nat := length (filter (λ b, b = true) (tasks s)).
Definition finishing (s : State) : nat := match runner s with RFinish => 1 | _ => 0 end.

Record Inv (s : State) : Prop := mkInv {
  q_count : outstanding s = wrap64 (Z.of_nat (alive s + spawning s + finishing s));
  q_ready : Forall (λ t, (t < length (tasks s))%nat) (ready s);
  q_task : ∀ t, runner s = RTake t ∨ runner s = RPoll t → (t < length (tasks s))%nat;
  q_poll : ∀ t, runner s = RPoll t → tasks s !! t = Some true;
  q_wait : runner s = RWait → ready s = [] ∨ notifies s ≠ 0%nat;
  q_live : runner s = RWait → (alive s + spawning s ≠ 0)%nat
}.

Lemma alive_false l t :
  l !! t = Some true →
  S (length (filter (λ b, b = true) (<[t := false]> l))) = length (filter (λ b, b = true) l).
Proof.
  revert t. induction l as [|b l IH]; intros [|t] Ht; simpl in *; simplify_eq.
  - by rewrite !filter_cons.
  - rewrite !filter_cons. destruct (decide (b = true)); simpl; by rewrite (IH t).
Qed.

Lemma alive_snoc l : length (filter (λ b, b = true) (l ++ [true])) = S (length (filter (λ b, b = true) l)).
Proof. rewrite filter_app, length_app. simpl. lia. Qed.

Lemma count_up (x : nat) : wadd (wrap64 (Z.of_nat x)) 1 = wrap64 (Z.of_nat (x + 1)).
Proof. rewrite wadd_wrap_l. f_equal. lia. Qed.

Lemma count_down (x : nat) : wsub (wrap64 (Z.of_nat (x + 1))) 1 = wrap64 (Z.of_nat x).
Proof.
  pose proof (wsub_wrap (Z.of_nat (x + 1)) 1) as H. change (wrap64 1) with 1 in H.
  rewrite H. f_equal. lia.
Qed.

Lemma ready_more l k (rd : list nat) :
  Forall (λ t, (t < length (A := bool) l)%nat) rd → Forall (λ t, (t < length (l ++ k))%nat) rd.
Proof. intros H. eapply Forall_impl; [exact H|]. intros t Ht. simpl in *. rewrite length_app. lia. Qed.

Lemma inv_run_step s s' pending woken :
  Inv s → run_step pending woken s = Some s' → Inv s'.
Proof.
  intros [Hc Hr Ht Hp Hw Hv]. unfold run_step. unfold finishing in Hc.
  destruct (runner s) as [| | |t|t| |] eqn:Hrun; try done.
  - destruct (ready s) as [|t rest] eqn:Hrd; intros [= <-].
    + destruct (Z.eqb_spec (outstanding s) 0) as [Hz|Hz]; split; unfold alive, finishing; simpl;
        rewrite ?Hrd; try done; try naive_solver.
      intros _ H0. apply Hz. rewrite Hc. unfold alive. rewrite Nat.add_0_r, H0. done.
    + apply Forall_cons in Hr as [Ht' Hr]. split; unfold alive, finishing; simpl; try done.
      intros t' [[= <-]|[=]]. done.
  - destruct (tasks s !! t) as [[]|] eqn:Hl; try done; intros [= <-];
      (split; unfold alive, finishing; simpl; try done); naive_solver.
  - destruct (forallb _ woken) eqn:Hall; [|done].
    assert (Hwk : Forall (λ t, (t < length (tasks s))%nat) woken).
    { apply Forall_forall. intros x Hx. rewrite forallb_forall in Hall.
      apply list_elem_of_In in Hx. by apply Hall, bool_decide_eq_true in Hx. }
    destruct pending; intros [= <-]; split; unfold alive, finishing; simpl;
      rewrite ?length_insert; try done; try naive_solver; try (by apply Forall_app).
    rewrite Hc. f_equal. f_equal. unfold alive. rewrite <- (alive_false (tasks s) t) by (by apply Hp). lia.
  - intros [= <-]. split; unfold alive, finishing; simpl; try done; try naive_solver.
    rewrite Hc. rewrite count_down. f_equal. unfold alive. lia.
Qed.

Lemma run_queue_inv_step s l s' :
  Inv s → (l = LSpawnPush → runner s ≠ RWait) → step l s = Some s' → Inv s'.
Proof.
  intros HI Hd. pose proof HI as [Hc Hr Ht Hp Hw Hv].
  destruct l as [| |t| | | |pending woken]; simpl.
  - intros [= <-]. split; unfold alive, finishing in *; simpl; try done; [|lia].
    rewrite Hc, count_up. f_equal. lia.
  - specialize (Hd eq_refl). destruct (spawning s) as [|k] eqn:Hs; [done|]. intros [= <-].
    split; unfold alive, finishing in *; simpl; try done.
    + rewrite Hc. f_equal. rewrite alive_snoc. lia.
    + apply Forall_app. split; [by apply ready_more|]. constructor; [|done]. rewrite length_app. simpl. lia.
    + intros t H'. specialize (Ht t H'). rewrite length_app. simpl. lia.
    + intros t H'. apply lookup_app_l_Some. by apply Hp.
  - case_bool_decide as Hlt; [|done]. intros [= <-].
    split; unfold alive, finishing in *; simpl; try done.
    + apply Forall_app. by repeat constructor.
    + intros _. by right.
  - destruct (notifies s) as [|k] eqn:Hn; [done|]. intros [= <-].
    destruct (runner s) eqn:Hrun; split; unfold alive, finishing in *; simpl; rewrite ?Hrun in *; try done;
      try naive_solver.
  - destruct (runner s) eqn:Hrun; try done. intros [= <-].
    split; unfold alive, finishing in *; simpl; rewrite ?Hrun in *; try done; naive_solver.
  - destruct (runner s) eqn:Hrun; try done; intros [= <-];
      (split; unfold alive, finishing in *; simpl; rewrite ?Hrun in *; try done; naive_solver).
  - by apply inv_run_step.
Qed.

Lemma run_queue_inv s : reachable s → Inv s.
Proof.
  induction 1 as [|s l s' _ IH Hd Hs]; [|by eapply run_queue_inv_step].
  split; try done. naive_solver.
Qed.

(** ** The runner on its own *)

(** The poll outcomes the runner meets, one per step. *)
Fixpoint run_alone (os : list (bool * list nat)) (s : State) : option State :=
  match os with
  | [] => Some s
  | (pending, woken) :: os =>
    match run_step pending woken s with
    | Some s' => run_alone os s'
    | None => None
    end
  end.

Definition outcomes_ok (s : State) (os : list (bool * list nat)) : Prop :=
  Forall (λ o, Forall (λ t, (t < length (tasks s))%nat) o.2) os.

Lemma run_step_enabled s pending woken :
  Inv s → Forall (λ t, (t < length (tasks s))%nat) woken →
  (∃ t, runner s = RPoll t) ∨ (∃ t, runner s = RTake t) ∨ runner s = RFinish ∨ runner s = RPop →
  ∃ s', run_step pending woken s = Some s' ∧ Inv s' ∧ length (tasks s') = length (tasks s) ∧
    match runner s with
    | RPop => ready s = [] ∨ ∃ t, ready s = t :: ready s' ∧ runner s' = RTake t
    | RTake t => ready s' = ready s ∧ (runner s' = RPoll t ∨ runner s' = RPop)
    | RPoll t => ready s' = ready s ++ woken ∧ (runner s' = RPop ∨ runner s' = RFinish)
    | _ => ready s' = ready s ∧ runner s' = RPop
    end.
Proof.
  intros HI Hwk Hrun.
  assert (∃ s', run_step pending woken s = Some s') as [s' Hs].
  { unfold run_step. destruct (runner s) as [| | |t|t| |] eqn:Hr; try (exfalso; naive_solver).
    - destruct (ready s); eauto.
    - assert (Hlt : (t < length (tasks s))%nat) by (apply (q_task s HI); by left).
      apply lookup_lt_is_Some_2 in Hlt as [[] ->]; eauto.
    - assert (Hall : forallb (λ t, bool_decide (t < length (tasks s))%nat) woken = true).
      { apply forallb_forall. intros x Hx%list_elem_of_In. rewrite Forall_forall in Hwk.
        apply bool_decide_eq_true. auto. }
      rewrite Hall. destruct pending; eauto.
    - eauto. }
  exists s'. split; [done|]. split; [by eapply inv_run_step|].
  unfold run_step in Hs. destruct (runner s) as [| | |t|t| |] eqn:Hr; try (exfalso; naive_solver).
  - destruct (ready s) as [|t rest] eqn:Hrd; simplify_eq; simpl; eauto.
  - destruct (tasks s !! t) as [[]|]; simplify_eq; simpl; auto.
  - destruct (forallb _ _), pending; simplify_eq; simpl; rewrite ?length_insert; auto.
  - simplify_eq. auto.
Qed.

(** From the pop of a task the runner is back at the queue in three steps. *)
Lemma run_round s os :
  Inv s → outcomes_ok s os → (3 ≤ length os)%nat →
  (∃ t, runner s = RPoll t) ∨ (∃ t, runner s = RTake t) ∨ runner s = RFinish →
  ∃ k s' extra, (k ≤ 3)%nat ∧ run_alone (take k os) s = Some s' ∧ Inv s' ∧
    length (tasks s') = length (tasks s) ∧ runner s' = RPop ∧ ready s' = ready s ++ extra.
Proof.
  intros HI Hok Hlen Hrun. destruct os as [|[p1 w1] [|[p2 w2] [|[p3 w3] os]]]; simpl in Hlen; try lia.
  apply Forall_cons in Hok as [H1 Hok]. apply Forall_cons in Hok as [H2 Hok].
  apply Forall_cons in Hok as [H3 _]. simpl in *.
  destruct (run_step_enabled s p1 w1 HI H1) as (s1 & Hs1 & HI1 & L1 & R1); [naive_solver|].
  assert (Hdone : runner s1 = RPop → (∃ e, ready s1 = ready s ++ e) →
    ∃ k s' extra, (k ≤ 3)%nat ∧ run_alone (take k ((p1, w1) :: (p2, w2) :: (p3, w3) :: os)) s = Some s' ∧
      Inv s' ∧ length (tasks s') = length (tasks s) ∧ runner s' = RPop ∧ ready s' = ready s ++ extra).
  { intros Hp [e He]. exists 1%nat, s1, e. simpl. rewrite Hs1. split; [lia|]. done. }
  assert (Hnext : ∀ e1, ready s1 = ready s ++ e1 → (∃ t, runner s1 = RPoll t) ∨ runner s1 = RFinish →
    ∃ k s' extra, (k ≤ 3)%nat ∧ run_alone (take k ((p1, w1) :: (p2, w2) :: (p3, w3) :: os)) s = Some s' ∧
      Inv s' ∧ length (tasks s') = length (tasks s) ∧ runner s' = RPop ∧ ready s' = ready s ++ extra).
  { intros e1 He1 Hr1.
    destruct (run_step_enabled s1 p2 w2 HI1) as (s2 & Hs2 & HI2 & L2 & R2); [by rewrite L1|naive_solver|].
    destruct (decide (runner s1 = RFinish)) as [Hf|Hf].
    - rewrite Hf in R2. destruct R2 as [R2 Hp2]. exists 2%nat, s2, e1. simpl. rewrite Hs1, Hs2.
      split; [lia|]. split; [done|]. split; [done|]. split; [congruence|]. split; [done|congruence].
    - destruct Hr1 as [[t Hr1]|]; [|done]. rewrite Hr1 in R2. destruct R2 as [R2 [Hp2|Hp2]].
      + exists 2%nat, s2, (e1 ++ w2). simpl. rewrite Hs1, Hs2. split; [lia|]. split; [done|].
        split; [done|]. split; [congruence|]. split; [done|]. by rewrite R2, He1, app_assoc.
      + destruct (run_step_enabled s2 p3 w3 HI2) as (s3 & Hs3 & HI3 & L3 & R3);
          [by rewrite L2, L1|naive_solver|].
        rewrite Hp2 in R3. destruct R3 as [R3 Hp3]. exists 3%nat, s3, (e1 ++ w2). simpl.
        rewrite Hs1, Hs2, Hs3. split; [lia|]. split; [done|]. split; [done|]. split; [congruence|].
        split; [done|]. by rewrite R3, R2, He1, app_assoc. }
  destruct (runner s) as [| | |t|t| |] eqn:Hr; try (exfalso; naive_solver).
  - destruct R1 as [R1 [Hp1|Hp1]].
    + apply (Hnext []); [by rewrite app_nil_r|]. left. eauto.
    + apply Hdone; [done|]. exists []. by rewrite app_nil_r.
  - destruct R1 as [R1 [Hp1|Hp1]].
    + apply Hdone; eauto.
    + apply (Hnext w1); auto.
  - destruct R1 as [R1 Hp1]. apply Hdone; [done|]. exists []. by rewrite app_nil_r.
Qed.

Lemma run_alone_app os1 os2 s :
  run_alone (os1 ++ os2) s
  = match run_alone os1 s with Some s' => run_alone os2 s' | None => None end.
Proof.
  revert s. induction os1 as [|[p w] os1 IH]; intros s; simpl; [done|].
  destruct (run_step p w s); auto.
Qed.

(** The pop of a non-empty queue. *)
Lemma run_pop s p w u rest :
  Inv s → runner s = RPop → ready s = u :: rest →
  ∃ s1, run_step p w s = Some s1 ∧ Inv s1 ∧ tasks s1 = tasks s ∧ ready s1 = rest ∧ runner s1 = RTake u.
Proof.
  intros HI Hrun Hrd.
  assert (Hs : run_step p w s
    = Some (mkState (tasks s) rest (outstanding s) (notifies s) (spawning s) (RTake u))).
  { unfold run_step. by rewrite Hrun, Hrd. }
  eexists. split; [exact Hs|]. split; [|done]. by eapply inv_run_step.
Qed.

Lemma run_to_task os s l1 t l2 :
  Inv s → outcomes_ok s os → (4 * length l1 + 1 ≤ length os)%nat →
  runner s = RPop → ready s = l1 ++ t :: l2 →
  ∃ k s', (k ≤ 4 * length l1 + 1)%nat ∧ run_alone (take k os) s = Some s' ∧ runner s' = RTake t.
Proof.
  revert os s l2. induction l1 as [|u l1 IH]; intros os s l2 HI Hok Hlen Hrun Hrd;
    (destruct os as [|[p w] os]; simpl in Hlen; [lia|]);
    apply Forall_cons in Hok as [Hw Hok]; simpl in Hw;
    destruct (run_pop s p w _ _ HI Hrun Hrd) as (s1 & Hs1 & HI1 & L1 & Hrd1 & Hr1).
  - exists 1%nat, s1. simpl. rewrite Hs1. split; [lia|done].
  - assert (Hok1 : outcomes_ok s1 os) by (unfold outcomes_ok; by rewrite L1).
    destruct (run_round s1 os HI1 Hok1) as (k & s2 & e & Hk & Hs2 & HI2 & L2 & Hr2 & Hrd2); [lia|eauto|].
    destruct (IH (drop k os) s2 (l2 ++ e)) as (k' & s' & Hk' & Hs' & Hr'); try done.
    + apply Forall_drop. by rewrite L2.
    + rewrite length_drop. lia.
    + rewrite Hrd2, Hrd1. by rewrite <- app_assoc.
    + exists (1 + k + k')%nat, s'. split; [simpl; lia|]. split; [|done]. simpl. rewrite Hs1.
      rewrite <- (take_drop k os) at 1. rewrite take_app, run_alone_app, take_take.
      assert (length (take k os) = k) as Hlk by (rewrite length_take; lia).
      rewrite Hlk. replace (k + k' - k)%nat with k' by lia.
      rewrite Nat.min_r, Hs2 by lia. done.
Qed.

(** [run] returns only with nothing left to run. *)
Lemma run_returned s s' pending woken :
  Inv s → Z.of_nat (alive s + spawning s + finishing s) < W64 →
  run_step pending woken s = Some s' → runner s' = RReturned →
  Forall (λ b, b = false) (tasks s') ∧ ready s' = [] ∧ spawning s' = 0%nat.
Proof.
  intros [Hc _ _ _ _ _] Hsmall Hs Hret. unfold run_step in Hs.
  destruct (runner s) as [| | |t|t| |] eqn:Hrun; try done.
  2: destruct (tasks s !! t) as [[]|]; simplify_eq; done.
  2: destruct (forallb _ _), pending; simplify_eq; done.
  2: simplify_eq; done.
  destruct (ready s) as [|t rest] eqn:Hrd; [|by simplify_eq]. simplify_eq. simpl in *.
  destruct (Z.eqb_spec (outstanding s) 0) as [Hz|]; [|done].
  rewrite Hc, wrap64_small in Hz by (unfold is_u64; lia).
  assert (Ha : alive s = 0%nat) by lia. split; [|split; [done|lia]].
  unfold alive in Ha. apply length_zero_iff_nil in Ha. apply Forall_forall. intros b Hb.
  destruct b; [|done]. exfalso.
  assert (Hin : true ∈ filter (λ b, b = true) (tasks s)) by (by apply list_elem_of_filter).
  rewrite Ha in Hin. by apply elem_of_nil in Hin.
Qed.

(** [C36] [run] returns only when everything is done, and sleeps only when it
    will be told: when it returns, every spawned task has completed and the
    queue is empty; while it waits there is an unfinished task, and if a task
    is ready a notification is on its way, provided no spawn pushes its task
    while the runner waits. *)
Theorem executor_run_complete (s : State) (Hr : reachable s)
    (Hsmall : Z.of_nat (alive s + spawning s + finishing s) < W64) :
  (∀ pending woken s', run_step pending woken s = Some s' → runner s' = RReturned →
     Forall (λ b, b = false) (tasks s') ∧ ready s' = [] ∧ spawning s' = 0%nat) ∧
  (runner s = RWait → (ready s ≠ [] → notifies s ≠ 0%nat) ∧ (alive s + spawning s ≠ 0)%nat).
Proof.
  pose proof (run_queue_inv s Hr) as HI. split.
  - intros pending woken s' Hs Hret. by eapply run_returned.
  - intros Hrun. split; [|by apply HI]. intros Hne. by destruct (q_wait s HI Hrun).
Qed.

(** [C37] The run queue is fair: whatever the polls answer and wake, a task
    that is ready behind [l1] others is taken after at most four steps for each of
    them and one more. *)
Theorem executor_fair (s : State) (os : list (bool * list nat)) (l1 l2 : list nat) (t : nat)
    (Hr : reachable s) (Hok : outcomes_ok s os) (Hlen : (4 * length l1 + 1 ≤ length os)%nat)
    (Hrun : runner s = RPop) (Hready : ready s = l1 ++ t :: l2) :
  ∃ k s', (k ≤ 4 * length l1 + 1)%nat ∧ run_alone (take k os) s = Some s' ∧ runner s' = RTake t.
Proof. eapply run_to_task; try done. by apply run_queue_inv. Qed.

Fixpoint run_labels (ls : list label) (s : State) : option State :=
  match ls with
  | [] => Some s
  | l :: ls => match step l s with Some s' => run_labels ls s' | None => None end
  end.

(** [spawn] does not notify: a task spawned while the runner sleeps is
    ready, no notification is on its way, and the runner cannot move. *)
Lemma spawn_not_notified :
  ∃ s, run_labels [LSpawnCount; LSpawnPush; LRun; LStep true []; LStep true []; LStep true [];
                   LStep true []; LSpawnCount; LSpawnPush] new = Some s ∧
    runner s = RWait ∧ ready s = [1%nat] ∧ notifies s = 0%nat ∧ spawning s = 0%nat ∧
    ∀ pending woken, run_step pending woken s = None.
Proof. eexists. split; [vm_compute; reflexivity|]. done. Qed.

(** Two tasks spawned before the run. *)
Definition demo_state : State := mkState [true; true] [0; 1]%nat 2 0 0 RPop.

Lemma demo_running : reachable demo_state.
Proof.
  apply (reach_step (mkState [true; true] [0; 1]%nat 2 0 0 RIdle) LRun); [|done|done].
  apply (reach_step (mkState [true] [0]%nat 2 0 1 RIdle) LSpawnPush); [|done|done].
  apply (reach_step (mkState [true] [0]%nat 1 0 0 RIdle) LSpawnCount); [|done|done].
  apply (reach_step (mkState [] [] 1 0 1 RIdle) LSpawnPush); [|done|done].
  apply (reach_step new LSpawnCount); [apply reach_new|done|done].
Qed.

(** One task, spawned and run to its end; the next step returns. *)
Definition demo_finished : State := mkState [false] [] 0 0 0 RPop.

Lemma demo_finishing : reachable demo_finished.
Proof.
  apply (reach_step (mkState [false] [] 1 0 0 RFinish) (LStep true [])); [|done|done].
  apply (reach_step (mkState [true] [] 1 0 0 (RPoll 0)) (LStep false [])); [|done|done].
  apply (reach_step (mkState [true] [] 1 0 0 (RTake 0)) (LStep true [])); [|done|done].
  apply (reach_step (mkState [true] [0]%nat 1 0 0 RPop) (LStep true [])); [|done|done].
  apply (reach_step (mkState [true] [0]%nat 1 0 0 RIdle) LRun); [|done|done].
  apply (reach_step (mkState [] [] 1 0 1 RIdle) LSpawnPush); [|done|done].
  apply (reach_step new LSpawnCount); [apply reach_new|done|done].
Qed.

Lemma executor_run_complete_witness :
  ∃ s', run_step true [] demo_finished = Some s' ∧ runner s' = RReturned ∧
    Forall (λ b, b = false) (tasks s') ∧ ready s' = [] ∧ spawning s' = 0%nat.
Proof.
  eexists. split; [reflexivity|]. split; [reflexivity|].
  by apply (proj1 (executor_run_complete demo_finished demo_finishing ltac:(vm_compute; reflexivity))
    true []).
Defined.

Lemma executor_fair_witness :
  ∃ k s', (k ≤ 5)%nat ∧ run_alone (take k (replicate 5 (true, [0%nat]))) demo_state = Some s' ∧
    runner s' = RTake 1.
Proof.
  apply (executor_fair demo_state (replicate 5 (true, [0%nat])) [0%nat] [] 1 demo_running).
  - repeat constructor.
  - simpl. lia.
  - reflexivity.
  - reflexivity.
Defined.
