(* ===== verification/CommitBench.v ===== *)
(** * CommitBench: the executor driving the group-commit log

    Models [group_commit_bench] of [crates/zerokv/src/main.rs], where the two
    largest asynchronous parts of the crate meet: the main thread spawns one
    task per record on an [Executor] and calls [run]; each task appends its
    record to a shared [GroupCommitWal] and awaits the [CommitFuture]; the
    batcher thread commits the records and wakes the tasks through the wakers
    the executor made. The state is the executor's ([RunQueue]) beside the
    log's ([GroupCommit]); [gc_step] lets one of the two threads, or a spurious
    wakeup of the condition variable, make one step of either. *)

From Stdlib Require Import Sorted.
From stdpp Require Import sorting.
From S2P Require Import Prelude.
From S2P Require Import Treiber.
From S2P Require Import RegBuf.
From S2P Require Import GroupCommit.
From S2P Require Import RunQueue.
Local Open Scope Z_scope.
Local Open Scope zkv_scope.

(** ** The program *)

(** Where the [async move] block of a task is: not polled yet, inside
    [wal.append], or holding the [CommitFuture] of a completion. *)
Inductive block : Type :=
| ANew
| AAppend (c : nat)
| AAwait (c : nat).

(** The batcher inside [w.wake()]: the waker of completion [c] has been taken
    and its task is to be pushed on the run queue, then the condition variable
    to be notified. The guard of the waker's mutex lives until the end of the
    [if let] of [signal], so until then the completion is locked. *)
Inductive waking_pc : Type :=
| WNone
| WPush (c w : nat)
| WNotify (c : nat).

Record GcState : Type := mkGc {
  ex : RunQueue.State;
  wal : GroupCommit.State;
  bodies : list block;
  wake : waking_pc
}.

(** [GroupCommitWal::new] on the truncated file, and [Executor::new]. *)
Definition gc_new : GcState := mkGc RunQueue.new (GroupCommitWal_new true [] 1) [] WNone.

(** [(i as u64).to_le_bytes()]. *)
Definition record_of (i : nat) : bytes := to_le_bytes 8 (Z.of_nat i).

(** [GroupCommitWal::new(.., 1024)]. *)
Definition bench_max_batch : Z := 1024.

(** The main thread outside [run]: the loop that spawns a task per record
    (nobody else touches the executor before the run), the call of [run], and
    [drop(wal)] after it: the tasks' clones of the handle are gone by then. *)
Definition main_step (records : nat) (s : GcState) : option (res GcState) :=
  match runner (ex s) with
  | RIdle =>
    if (length (bodies s) <? records)%nat then
      e ← RunQueue.step LSpawnCount (ex s);
      e ← RunQueue.step LSpawnPush e;
      Some (Ok (mkGc e (wal s) (bodies s ++ [ANew]) (wake s)))
    else e ← RunQueue.step LRun (ex s); Some (Ok (mkGc e (wal s) (bodies s) (wake s)))
  | RReturned => g ← drop_wal (wal s); Some (Ok (mkGc (ex s) g (bodies s) (wake s)))
  | _ => None
  end.

Definition locked (s : GcState) (c : nat) : bool :=
  match wake s with WPush c' _ | WNotify c' => (c =? c')%nat | WNone => false end.

(** One access of [CommitFuture::poll] by task [t]. Registering the waker
    waits for the mutex. *)
Definition poll_access (s : GcState) (t c : nat) : option GroupCommit.State :=
  match futures (wal s) !! c with
  | Some (FLoaded _) => if locked s c then None else poll_step c (wal s)
  | Some (FRegistered _) => poll_step c (wal s)
  | _ => poll_start c t (wal s)
  end.

(** What the last access of a poll leads to: the runner gets its answer. *)
Definition poll_answer (g : GroupCommit.State) (c : nat) (e : RunQueue.State)
    : option RunQueue.State :=
  match futures g !! c with
  | Some FReady => run_step false [] e
  | Some (FPending _) => run_step true [] e
  | _ => Some e
  end.

(** The thread inside [run]: while it polls task [t] it executes that task's
    block, whose [append] may find its CAS failing. *)
Definition runner_step (a : Z) (spurious : bool) (s : GcState) : option (res GcState) :=
  match runner (ex s) with
  | RPoll t =>
    match bodies s !! t with
    | Some ANew =>
      g ← append_start 0 (record_of t) a (wal s);
      Some (Ok (mkGc (ex s) g (<[t := AAppend (length (comps (wal s)))]> (bodies s)) (wake s)))
    | Some (AAppend c) =>
      r ← append_step 0 spurious (wal s);
      Some (g ←r r;
            Ok (mkGc (ex s) g
                  (match writers g !! 0%nat with
                   | Some AIdle => <[t := AAwait c]> (bodies s)
                   | _ => bodies s
                   end) (wake s)))
    | Some (AAwait c) =>
      g ← poll_access s t c;
      e ← poll_answer g c (ex s);
      Some (Ok (mkGc e g (bodies s) (wake s)))
    | None => None
    end
  | RIdle | RWait | RReturned => None
  | _ => e ← run_step true [] (ex s); Some (Ok (mkGc e (wal s) (bodies s) (wake s)))
  end.

(** The batcher thread: [Task::wake] when it has taken a waker, else a step of
    its loop. *)
Definition batcher_thread (expired : bool) (resp : nat → option nat) (s : GcState)
    : option (res GcState) :=
  match wake s with
  | WPush c w =>
    e ← RunQueue.step (LWake w) (ex s); Some (Ok (mkGc e (wal s) (bodies s) (WNotify c)))
  | WNotify c => e ← RunQueue.step LNotify (ex s); Some (Ok (mkGc e (wal s) (bodies s) WNone))
  | WNone =>
    r ← batcher_step bench_max_batch expired resp (wal s);
    Some (g ←r r;
          Ok (mkGc (ex s) g (bodies s)
                (match drop (length (woken (wal s))) (woken g) with
                 | (c, w) :: _ => WPush c w
                 | [] => WNone
                 end)))
  end.

Inductive GcLabel : Type :=
| GMain
| GRunner (a : Z) (spurious : bool)
| GBatcher (expired : bool) (resp : nat → option nat)
| GSpurious.

Definition gc_step (records : nat) (l : GcLabel) (s : GcState) : option (res GcState) :=
  match l with
  | GMain => main_step records s
  | GRunner a spurious => runner_step a spurious s
  | GBatcher expired resp => batcher_thread expired resp s
  | GSpurious => e ← RunQueue.step LSpurious (ex s); Some (Ok (mkGc e (wal s) (bodies s) (wake s)))
  end.

Fixpoint gc_run (records : nat) (ls : list GcLabel) (s : GcState) : option (res GcState) :=
  match ls with
  | [] => Some (Ok s)
  | l :: ls =>
    match gc_step records l s with
    | Some (Ok s') => gc_run records ls s'
    | o => o
    end
  end.

Inductive gc_reachable (records : nat) : GcState → Prop :=
| gc_reach_new : gc_reachable records gc_new
| gc_reach_step s l s' :
    gc_reachable records s → gc_step records l s = Some (Ok s') → gc_reachable records s'.

(** ** Invariant *)

Definition at_hand (r : rpc) : list nat := match r with RTake t | RPoll t => [t] | _ => [] end.

(** The completion of the append a writer is in. *)
Definition writing (w : apc) : option nat :=
  match w with ALoad _ p | APush _ _ p | ACount p => Some (completion p) | AIdle => None end.

(** What a future's position says of the task that awaits it. *)
Definition fut_at (e : RunQueue.State) (t : nat) (f : fpc) : Prop :=
  match f with
  | FNone => False
  | FFresh => runner e = RPoll t
  | FLoaded w | FRegistered w => w = t ∧ runner e = RPoll t
  | FPending w => w = t ∧ tasks e !! t = Some true
  | FReady => tasks e !! t = Some false
  end.

(** The [c]-th append is the one of task [c]. *)
Definition block_ok (e : RunQueue.State) (g : GroupCommit.State) (t : nat) (b : block) : Prop :=
  match b with
  | ANew => (length (submitted g) ≤ t)%nat
  | AAppend c =>
    c = t ∧ S t = length (submitted g) ∧ runner e = RPoll t ∧ futures g !! t = Some FNone ∧
    ∃ w, writers g !! 0%nat = Some w ∧ writing w = Some t
  | AAwait c =>
    c = t ∧ (t < length (submitted g))%nat ∧ ∃ f, futures g !! t = Some f ∧ fut_at e t f
  end.

Definition wake_ok (e : RunQueue.State) (k : nat) (w : waking_pc) : Prop :=
  match w with
  | WNone => notifies e = 0%nat
  | WPush c w => notifies e = 0%nat ∧ w = c ∧ (c < k)%nat
  | WNotify c => notifies e = 1%nat
  end.

(** Task [c] is about to be polled. *)
Definition scheduled (e : RunQueue.State) (w : waking_pc) (c : nat) : Prop :=
  c ∈ at_hand (runner e) ++ ready e ∨ w = WPush c c.

Record GInv (records : nat) (s : GcState) : Prop := mkGInv {
  g_ex : RunQueue.reachable (ex s);
  g_wal : GroupCommit.reachable bench_max_batch [] 1 (wal s);
  g_len : length (bodies s) = length (tasks (ex s));
  g_max : (length (submitted (wal s)) ≤ length (bodies s) ≤ records)%nat;
  g_spawn : spawning (ex s) = 0%nat;
  g_main : runner (ex s) = RIdle ∨ length (bodies s) = records;
  g_run : runner (ex s) ≠ RReturned → running (wal s) = true;
  g_ret : runner (ex s) = RReturned → Forall (λ b, b = false) (tasks (ex s));
  g_data : ∀ i p, submitted (wal s) !! i = Some p →
    p_data p = record_of i ∧ ∀ j, (j < i)%nat → Z.of_nat j ∈ after p;
  g_order : filter (λ t, (length (submitted (wal s)) ≤ t)%nat)
      (at_hand (runner (ex s)) ++ ready (ex s))
    = seq (length (submitted (wal s))) (length (bodies s) - length (submitted (wal s)));
  g_blocks : ∀ t b, bodies s !! t = Some b → block_ok (ex s) (wal s) t b;
  g_writer : ∃ w, writers (wal s) = [w] ∧ (w = AIdle ∨ ∃ t, bodies s !! t = Some (AAppend t));
  g_done : ∀ t, tasks (ex s) !! t = Some false → futures (wal s) !! t = Some FReady;
  g_waker : ∀ c k w, comps (wal s) !! c = Some k → c_waker k = Some w → w = c;
  g_wake : wake_ok (ex s) (length (submitted (wal s))) (wake s);
  g_woken : ∀ c w w', (c, w) ∈ woken (wal s) → is_done (wal s) c ∧
    (futures (wal s) !! c = Some (FPending w') → scheduled (ex s) (wake s) c)
}.

Lemma ginv_new records : GInv records gc_new.
Proof.
  split; simpl; try done; try (by intros ? ? []); try lia.
  - apply RunQueue.reach_new.
  - apply GroupCommit.reach_new.
  - by left.
  - exists AIdle. auto.
  - intros c w w' []%elem_of_nil.
Qed.

Lemma length_record_of i : length (record_of i) = 8%nat.
Proof. apply length_to_le_bytes. Qed.

Lemma concat_length_8 (l : list bytes) :
  (∀ i b, l !! i = Some b → length b = 8%nat) → length (concat l) = (8 * length l)%nat.
Proof.
  induction l as [|b l IH]; intros H; [done|]. simpl. rewrite length_app, IH.
  - rewrite (H 0%nat b eq_refl). lia.
  - intros i. apply (H (S i)).
Qed.

(** ** What a step of the batcher leaves alone *)

(** Completions only get done and lose their wakers. *)
Definition comps_after (g g' : GroupCommit.State) : Prop :=
  ∀ c k', comps g' !! c = Some k' → ∃ k, comps g !! c = Some k ∧
    (c_done k = true → c_done k' = true) ∧ (c_waker k' = None ∨ c_waker k' = c_waker k).

Lemma comps_after_insert g g' c k k' :
  comps g' = <[c := k']> (comps g) → comps g !! c = Some k → (c_done k = true → c_done k' = true) →
  c_waker k' = None ∨ c_waker k' = c_waker k → comps_after g g'.
Proof.
  intros E Hk Hd Hw c1 k1. rewrite E. destruct (decide (c1 = c)) as [->|Hne].
  - rewrite list_lookup_insert_eq by (by eapply lookup_lt_Some). intros [= <-]. eauto.
  - rewrite list_lookup_insert_ne by done. eauto.
Qed.

Lemma comps_after_same g g' : comps g' = comps g → comps_after g g'.
Proof. intros E c k. rewrite E. eauto. Qed.

Lemma batcher_frame mb expired resp g g' :
  batcher_step mb expired resp g = Some (Ok g') →
  submitted g' = submitted g ∧ futures g' = futures g ∧ writers g' = writers g ∧
  running g' = running g ∧ length (comps g') = length (comps g).
Proof.
  unfold batcher_step. repeat case_match; try done; intros; simplify_eq;
    try (simpl; by rewrite ?length_insert).
  - destruct (unbox _ _) as [[[]]|]; simpl in *; by simplify_eq.
  - destruct (write_vectored _ _ _ _ _ _) as [[[]]|]; simpl in *; by simplify_eq.
Qed.

(** It takes at most one waker, of a completion that is done. *)
Lemma batcher_comps mb expired resp g g' :
  batcher_step mb expired resp g = Some (Ok g') →
  (∀ r p rest, batcher g = BWake r p rest ∨ batcher g = BSignal r (p :: rest) →
     (completion p < length (comps g))%nat) →
  comps_after g g' ∧
  (woken g' = woken g ∨
   ∃ r p rest w k, batcher g = BWake r p rest ∧ comps g !! completion p = Some k ∧
     c_waker k = Some w ∧ woken g' = woken g ++ [(completion p, w)]).
Proof.
  intros Hs Hlt. unfold batcher_step in Hs.
  destruct (batcher g) as [| |rn|rn node batch|rn batch|rn batch|rn batch off|rn [|p rest]|rn p rest|] eqn:Hb.
  all: try (simplify_eq; split; [by apply comps_after_same|by left]).
  - destruct (negb expired && _); simplify_eq; (split; [by apply comps_after_same|by left]).
  - simpl in Hs. simplify_eq. split; [by apply comps_after_same|by left].
  - destruct (node =? 0); [simplify_eq; split; [by apply comps_after_same|by left]|].
    destruct (unbox node (stk g)) as [[[p nx] k]|]; simpl in Hs; simplify_eq.
    split; [by apply comps_after_same|by left].
  - destruct (write_vectored _ _ _ _ _ _) as [[[res i] f]|]; simpl in Hs; simplify_eq.
    split; [by apply comps_after_same|by left].
  - destruct (lookup_lt_is_Some_2 (comps g) (completion p)) as [k Hk]; [eapply Hlt; eauto|].
    rewrite Hk in Hs. simpl in Hs. simplify_eq. split; [|by left].
    eapply comps_after_insert; [done..|]. by right.
  - destruct (lookup_lt_is_Some_2 (comps g) (completion p)) as [k Hk]; [eapply Hlt; eauto|].
    rewrite Hk in Hs. simpl in Hs. simplify_eq. split; [eapply comps_after_insert; [done..|by left]|].
    simpl. destruct (c_waker k) as [w|] eqn:Hw; [|by left]. right. by exists rn, p, rest, w, k.
  - done.
Qed.

Lemma comps_after_done g g' c :
  comps_after g g' → length (comps g') = length (comps g) → is_done g c → is_done g' c.
Proof.
  intros H Hl (k & Hk & Hd). destruct (lookup_lt_is_Some_2 (comps g') c) as [k' Hk'].
  { rewrite Hl. by eapply lookup_lt_Some. }
  destruct (H c k' Hk') as (k0 & Hk0 & Hd' & _). simplify_eq. exists k'. auto.
Qed.

Lemma filter_seq_all (k j m : nat) : (k ≤ j)%nat → filter (λ t, (k ≤ t)%nat) (seq j m) = seq j m.
Proof.
  revert j. induction m as [|m IH]; intros j Hj; [done|]. simpl.
  rewrite filter_cons_True, IH by lia. done.
Qed.

Lemma order_next (k m : nat) (l : list nat) :
  filter (λ t, (k ≤ t)%nat) l = seq k (S m) → filter (λ t, (S k ≤ t)%nat) l = seq (S k) m.
Proof.
  intros H.
  transitivity (filter (λ t, (S k ≤ t)%nat) (filter (λ t, (k ≤ t)%nat) l)).
  { symmetry. rewrite list_filter_filter. apply list_filter_iff. intros x. lia. }
  rewrite H. simpl. rewrite filter_cons_False by lia. by apply filter_seq_all.
Qed.

(** A step inside [append] either stays there or returns its future. *)
Lemma append_step_cases spurious g g' w :
  append_step 0 spurious g = Some (Ok g') → writers g = [w] →
  submitted g' = submitted g ∧ comps g' = comps g ∧ woken g' = woken g ∧ running g' = running g ∧
  ((∃ w', writers g' = [w'] ∧ w' ≠ AIdle ∧ writing w' = writing w ∧ futures g' = futures g) ∨
   (∃ p, w = ACount p ∧ writers g' = [AIdle] ∧ futures g' = <[completion p := FFresh]> (futures g))).
Proof.
  intros Hs Hw. unfold append_step in Hs. rewrite Hw in Hs. simpl in Hs.
  destruct w as [|a p|a h p|p]; [done|..].
  - injection Hs as <-. simpl. rewrite ?Hw. split_and!; try done. left. by eexists.
  - destruct (try_push spurious a h (stk g)) as [[[] k]|]; simpl in Hs; try done; injection Hs as <-; simpl; rewrite ?Hw;
      (split_and!; [done..|]); left; by eexists.
  - injection Hs as <-. simpl. rewrite ?Hw. split_and!; try done. right. by eexists.
Qed.

Lemma sorted_of_lookups (l : list Pending) :
  (∀ i j p q, (i < j)%nat → l !! i = Some p → l !! j = Some q → seq_le p q) → StronglySorted seq_le l.
Proof.
  induction l as [|p l IH]; intros H; [constructor|]. constructor.
  - apply IH. intros i j x y Hij. apply (H (S i) (S j)). lia.
  - apply Forall_forall. intros q [j Hj]%list_elem_of_lookup. apply (H 0%nat (S j)); [lia|done..].
Qed.

Section bench_run.
Context (records : nat) (Hsmall : 8 * Z.of_nat records < W64).

Lemma gc_small s : GInv records s → small [] (wal s).
Proof.
  intros HG. pose proof (g_max _ _ HG). unfold small. simpl.
  rewrite concat_length_8, length_fmap; [lia|].
  intros i b. rewrite list_lookup_fmap_Some. intros (p & -> & Hp).
  rewrite (proj1 (g_data _ _ HG _ _ Hp)). apply length_record_of.
Qed.

Lemma gc_wal_inv s : GInv records s → ∃ pub det, GroupCommit.Inv [] (wal s) pub det.
Proof. intros HG. eapply reachable_inv; [apply HG|by apply gc_small]. Qed.

Lemma gc_ex_inv s : GInv records s → RunQueue.Inv (ex s).
Proof. intros HG. apply run_queue_inv, HG. Qed.

(** A pending future belongs to an unfinished task that awaits it. *)
Lemma gc_fut_block s c f :
  GInv records s → futures (wal s) !! c = Some f → f ≠ FNone →
  bodies s !! c = Some (AAwait c) ∧ fut_at (ex s) c f.
Proof.
  intros HG Hf Hne. destruct (gc_wal_inv s HG) as (pub & det & [HC _ _ _ _]).
  assert (Hk : (c < length (submitted (wal s)))%nat).
  { rewrite <- (s_futures _ _ _ HC). by eapply lookup_lt_Some. }
  pose proof (g_max _ _ HG). destruct (lookup_lt_is_Some_2 (bodies s) c) as [b Hb]; [lia|].
  pose proof (g_blocks _ _ HG c b Hb) as Hok. destruct b as [|c'|c']; simpl in Hok; [lia| |].
  - destruct Hok as (_ & _ & _ & Hn & _). congruence.
  - destruct Hok as (-> & _ & f' & Hf' & Hat). by simplify_eq.
Qed.

(** A step of the executor alone: nobody stops polling and nobody that was
    scheduled is dropped. *)
Lemma ginv_ex s e w :
  GInv records s → RunQueue.reachable e → tasks e = tasks (ex s) → spawning e = 0%nat →
  runner e = RIdle ∨ length (bodies s) = records →
  (runner (ex s) = RReturned → runner e = RReturned) →
  (runner e = RReturned → Forall (λ b, b = false) (tasks (ex s))) →
  filter (λ t, (length (submitted (wal s)) ≤ t)%nat) (at_hand (runner e) ++ ready e)
    = filter (λ t, (length (submitted (wal s)) ≤ t)%nat) (at_hand (runner (ex s)) ++ ready (ex s)) →
  (∀ t, runner (ex s) = RPoll t → runner e = RPoll t) →
  wake_ok e (length (submitted (wal s))) w →
  (∀ c, tasks (ex s) !! c = Some true → scheduled (ex s) (wake s) c → scheduled e w c) →
  GInv records (mkGc e (wal s) (bodies s) w).
Proof.
  intros HG He Et Es Hmain Hrun Hret Hord Hpoll Hwk Hsch. pose proof HG as HG'. destruct HG'.
  assert (Hfut : ∀ t f, fut_at (ex s) t f → fut_at e t f).
  { intros t f. destruct f; simpl; rewrite ?Et; naive_solver. }
  split; simpl; rewrite ?Et; try done.
  - naive_solver.
  - by rewrite Hord.
  - intros t b Hb. specialize (g_blocks0 t b Hb). destruct b; simpl in *; naive_solver.
  - intros c w1 w2 Hin. destruct (g_woken0 c w1 w2 Hin) as [Hd Hp]. split; [done|].
    intros Hf. destruct (gc_fut_block s c _ HG Hf) as [_ Hat]; [done|]. destruct Hat as [_ Ht]. auto.
Qed.

(** A label of the executor that spawns nothing keeps it reachable. *)
Lemma gc_ex_step s l e :
  GInv records s → l ≠ LSpawnPush → RunQueue.step l (ex s) = Some e → RunQueue.reachable e.
Proof. intros HG Hl Hs. eapply RunQueue.reach_step; [apply HG| |exact Hs]. by intros ->. Qed.

Lemma gc_started s : GInv records s → runner (ex s) ≠ RIdle → length (bodies s) = records.
Proof. intros HG Hr. by destruct (g_main _ _ HG). Qed.

Lemma ginv_spurious s e :
  GInv records s → RunQueue.step LSpurious (ex s) = Some e →
  GInv records (mkGc e (wal s) (bodies s) (wake s)).
Proof.
  intros HG Hs. pose proof (gc_ex_step s LSpurious e HG ltac:(done) Hs) as He. simpl in Hs.
  destruct (runner (ex s)) eqn:Hr; try done. simplify_eq. pose proof HG as HG'. destruct HG'.
  apply ginv_ex; simpl; rewrite ?Hr; try done.
  - right. eapply gc_started; [done|by rewrite Hr].
  - intros c _. unfold scheduled. by rewrite Hr.
Qed.

Lemma ginv_push s e c w :
  GInv records s → wake s = WPush c w → RunQueue.step (LWake w) (ex s) = Some e →
  GInv records (mkGc e (wal s) (bodies s) (WNotify c)).
Proof.
  intros HG Hw Hs. pose proof (gc_ex_step s (LWake w) e HG ltac:(done) Hs) as He. simpl in Hs.
  case_bool_decide; [|done]. simplify_eq. pose proof HG as HG'. destruct HG'.
  rewrite Hw in g_wake0. destruct g_wake0 as (Hn & -> & Hk).
  apply ginv_ex; simpl; try done.
  - rewrite app_assoc, filter_app, (filter_cons_False _ c) by lia. by rewrite filter_nil, app_nil_r.
  - by rewrite Hn.
  - intros c' _. unfold scheduled. rewrite Hw. simpl. set_solver.
Qed.

Lemma ginv_notify s e c :
  GInv records s → wake s = WNotify c → RunQueue.step LNotify (ex s) = Some e →
  GInv records (mkGc e (wal s) (bodies s) WNone).
Proof.
  intros HG Hw Hs. pose proof (gc_ex_step s LNotify e HG ltac:(done) Hs) as He. simpl in Hs.
  pose proof HG as HG'. destruct HG'. rewrite Hw in g_wake0. simpl in g_wake0. rewrite g_wake0 in Hs.
  simplify_eq. apply ginv_ex; simpl; try done.
  all: try (destruct (runner (ex s)) eqn:Hr; simpl; auto; done).
  - destruct (runner (ex s)) eqn:Hr; auto; right; by destruct g_main0.
  - intros c' _. unfold scheduled. rewrite Hw. destruct (runner (ex s)); simpl; intros [?|[=]]; auto.
Qed.

Lemma ginv_call_run s e :
  GInv records s → (records ≤ length (bodies s))%nat → runner (ex s) = RIdle →
  RunQueue.step LRun (ex s) = Some e → GInv records (mkGc e (wal s) (bodies s) (wake s)).
Proof.
  intros HG Hn Hr Hs. pose proof (gc_ex_step s LRun e HG ltac:(done) Hs) as He. simpl in Hs.
  rewrite Hr in Hs. simplify_eq. pose proof HG as HG'. destruct HG'.
  apply ginv_ex; simpl; rewrite ?Hr; try done; [right; lia|].
  intros c _. unfold scheduled. by rewrite Hr.
Qed.

Lemma gc_small_count s : GInv records s →
  Z.of_nat (alive (ex s) + spawning (ex s) + finishing (ex s)) < W64.
Proof.
  intros HG. rewrite (g_spawn _ _ HG). pose proof (g_max _ _ HG). pose proof (g_len _ _ HG).
  assert (alive (ex s) ≤ length (tasks (ex s)))%nat by apply length_filter.
  assert (finishing (ex s) ≤ 1)%nat by (unfold finishing; case_match; lia).
  unfold W64 in *. destruct records; lia.
Qed.

(** The runner between polls. *)
Lemma ginv_runner s e :
  GInv records s → (runner (ex s) = RPop ∨ runner (ex s) = RFinish ∨ ∃ t, runner (ex s) = RTake t) →
  run_step true [] (ex s) = Some e → GInv records (mkGc e (wal s) (bodies s) (wake s)).
Proof.
  intros HG Hr Hs. pose proof (gc_ex_step s (LStep true []) e HG ltac:(done) Hs) as He.
  pose proof (run_returned _ _ _ _ (gc_ex_inv s HG) (gc_small_count s HG) Hs) as Hret.
  pose proof HG as HG'. destruct HG'.
  assert (Hmain : ∀ P, P ∨ length (bodies s) = records).
  { intros P. right. apply gc_started; [done|]. by destruct Hr as [->|[->|[t ->]]]. }
  unfold run_step in Hs. destruct (runner (ex s)) as [| | |t|t| |] eqn:Hrun;
    try (by destruct Hr as [?|[?|[? ?]]]).
  - destruct (ready (ex s)) as [|t rest] eqn:Hrd; simplify_eq.
    + apply ginv_ex; simpl; rewrite ?Hrun, ?Hrd; try done; auto.
      * intros HH. by apply Hret.
      * f_equal. by case_match.
      * intros c _. unfold scheduled. rewrite Hrun, Hrd. simpl. set_solver.
    + apply ginv_ex; simpl; rewrite ?Hrun, ?Hrd; try done; auto.
      intros c _. unfold scheduled. by rewrite Hrun, Hrd.
  - destruct (tasks (ex s) !! t) as [[]|] eqn:Ht; simplify_eq.
    + apply ginv_ex; simpl; rewrite ?Hrun; try done; auto.
      intros c _. unfold scheduled. by rewrite Hrun.
    + assert (Hk : (t < length (submitted (wal s)))%nat).
      { destruct (gc_wal_inv s HG) as (pub & det & [HC _ _ _ _]). rewrite <- (s_futures _ _ _ HC).
        eapply lookup_lt_Some. by apply g_done0. }
      apply ginv_ex; simpl; rewrite ?Hrun; try done; auto.
      * simpl. rewrite (filter_cons_False _ t) by lia. done.
      * intros c Hc. unfold scheduled. rewrite Hrun. simpl. intros [[->|?]%elem_of_cons|?]; [congruence|auto..].
  - simplify_eq. apply ginv_ex; simpl; rewrite ?Hrun; try done; auto.
    intros c _. unfold scheduled. by rewrite Hrun.
Qed.

(** A step of the log alone that moves no future and no writer. *)
Lemma ginv_wal s g w :
  GInv records s → GroupCommit.reachable bench_max_batch [] 1 g →
  submitted g = submitted (wal s) → futures g = futures (wal s) → writers g = writers (wal s) →
  (runner (ex s) ≠ RReturned → running g = running (wal s)) →
  (∀ c k w, comps g !! c = Some k → c_waker k = Some w → w = c) →
  wake_ok (ex s) (length (submitted (wal s))) w →
  (∀ c w1 w2, (c, w1) ∈ woken g → is_done g c ∧
     (futures (wal s) !! c = Some (FPending w2) → scheduled (ex s) w c)) →
  GInv records (mkGc (ex s) g (bodies s) w).
Proof.
  intros HG Hg Es Ef Ew Hrun Hwk Hwake Hwoken. destruct HG.
  split; simpl; rewrite ?Es, ?Ef, ?Ew; try done.
  - intros Hr. rewrite Hrun; auto.
  - intros t b Hb. specialize (g_blocks0 t b Hb). by destruct b; simpl in *; rewrite ?Es, ?Ef, ?Ew.
Qed.

Lemma ginv_drop s g :
  GInv records s → runner (ex s) = RReturned → drop_wal (wal s) = Some g →
  GInv records (mkGc (ex s) g (bodies s) (wake s)).
Proof.
  intros HG Hr Hd.
  assert (GroupCommit.reachable bench_max_batch [] 1 g).
  { eapply (GroupCommit.reach_step _ _ _ (wal s) LDrop); [apply HG|]. simpl. by rewrite Hd. }
  unfold drop_wal in Hd. case_match; [|done]. simplify_eq.
  apply ginv_wal; simpl; try done; by destruct HG.
Qed.

Lemma ginv_batcher s expired resp g :
  GInv records s → wake s = WNone →
  batcher_step bench_max_batch expired resp (wal s) = Some (Ok g) →
  GInv records (mkGc (ex s) g (bodies s)
    (match drop (length (woken (wal s))) (woken g) with (c, w) :: _ => WPush c w | [] => WNone end)).
Proof.
  intros HG Hw Hs. destruct (gc_wal_inv s HG) as (pub & det & [HC _ _ HN _]).
  assert (Hg : GroupCommit.reachable bench_max_batch [] 1 g).
  { by eapply (GroupCommit.reach_step _ _ _ (wal s) (LBatcher expired resp)); [apply HG|]. }
  assert (Hlt : ∀ p, p ∈ committed (wal s) → (completion p < length (submitted (wal s)))%nat).
  { intros p Hp. assert (p ∈ submitted (wal s)) as [i Hi]%list_elem_of_lookup.
    { apply (s_sub _ _ _ HC). unfold all. set_solver. }
    destruct (s_index _ _ _ HC i p Hi) as (_ & -> & _). by eapply lookup_lt_Some. }
  destruct (batcher_frame _ _ _ _ _ Hs) as (Es & Ef & Ew & Er & Ec).
  destruct (batcher_comps _ _ _ _ _ Hs) as [Hca Hwk].
  { intros r p rest Hb. rewrite (s_comps _ _ _ HC). apply Hlt. destruct Hb as [Hb|Hb].
    - by apply (n_wake _ HN r p rest).
    - apply (n_rest _ HN). rewrite Hb. simpl. by left. }
  pose proof HG as HG'. destruct HG'. rewrite Hw in *. simpl in g_wake0.
  assert (Hold : ∀ c w1 w2 v, (c, w1) ∈ woken (wal s) → is_done g c ∧
     (futures (wal s) !! c = Some (FPending w2) → scheduled (ex s) v c)).
  { intros c w1 w2 v Hin. destruct (g_woken0 c w1 w2 Hin) as [Hd Hsch].
    split; [by eapply comps_after_done|]. intros Hf. destruct (Hsch Hf) as [?|[=]]. by left. }
  assert (Hwaker : ∀ c k w, comps g !! c = Some k → c_waker k = Some w → w = c).
  { intros c k w Hk Hkw. destruct (Hca c k Hk) as (k0 & Hk0 & _ & [?|E]); [congruence|].
    apply (g_waker0 c k0 w Hk0). congruence. }
  destruct Hwk as [E|(r & p & rest & w & k & Hb & Hk & Hkw & E)]; rewrite E.
  - rewrite drop_all. apply ginv_wal; try done; rewrite ?E; eauto.
  - rewrite drop_app_length. pose proof (g_waker0 _ _ _ Hk Hkw) as ->.
    destruct (n_wake _ HN _ _ _ Hb) as [Hcm Hdn].
    apply ginv_wal; try done; [by simpl; auto|].
    rewrite E. intros c w1 w2 [Hin|Hin]%elem_of_app; [by eauto|].
    apply list_elem_of_singleton in Hin. simplify_eq. split; [by eapply comps_after_done|].
    intros _. by right.
Qed.

Lemma ginv_spawn s e e' :
  GInv records s → runner (ex s) = RIdle → (length (bodies s) < records)%nat →
  RunQueue.step LSpawnCount (ex s) = Some e → RunQueue.step LSpawnPush e = Some e' →
  GInv records (mkGc e' (wal s) (bodies s ++ [ANew]) (wake s)).
Proof.
  intros HG Hr Hn H1 H2.
  pose proof (gc_ex_step s LSpawnCount e HG ltac:(done) H1) as He.
  assert (He' : RunQueue.reachable e').
  { eapply (RunQueue.reach_step e LSpawnPush); [done| |done]. intros _.
    simpl in H1. injection H1 as <-. simpl. by rewrite Hr. }
  simpl in H1. injection H1 as <-. simpl in H2. injection H2 as <-. destruct HG.
  assert (Hat : ∀ t f, fut_at (ex s) t f → fut_at (RunQueue.mkState (tasks (ex s) ++ [true])
    (ready (ex s) ++ [length (tasks (ex s))]) (wadd (outstanding (ex s)) 1) (notifies (ex s))
    (spawning (ex s)) (runner (ex s))) t f).
  { intros t f. destruct f; simpl; try done; [intros [-> ?]; split; [done|]|intros ?];
      by apply lookup_app_l_Some. }
  split; simpl in *; rewrite ?length_app; simpl; rewrite ?Hr in *; try done; try lia; auto.
  - simpl in *. rewrite filter_app, g_order0, (filter_cons_True _ (length (tasks (ex s)))), filter_nil by lia.
    replace (length (bodies s) + 1 - length (submitted (wal s)))%nat
      with (S (length (bodies s) - length (submitted (wal s)))) by lia.
    rewrite seq_S. do 2 f_equal. lia.
  - intros t b [[_ Hb]|[-> Hb]]%lookup_snoc_Some; [|by simplify_eq; simpl; lia].
    specialize (g_blocks0 t b Hb). destruct b as [| |]; simpl in *; [done| |].
    + by rewrite Hr in *.
    + destruct g_blocks0 as (-> & Hk & f & Hf & Ha). eauto 6.
  - destruct g_writer0 as (w & Hw & [->|(t & Ht)]); (eexists; split; [done|]); [by left|].
    right. exists t. by apply lookup_app_l_Some.
  - intros t [[_ Ht]|[_ ?]]%lookup_snoc_Some; [|done]. by apply g_done0.
  - intros c w1 w2 Hin. destruct (g_woken0 c w1 w2 Hin) as [Hd Hp]. split; [done|]. intros Hf.
    unfold scheduled in *. simpl. rewrite Hr in *. simpl in *. destruct (Hp Hf); set_solver.
Qed.

Lemma ginv_append_start s t a g :
  GInv records s → runner (ex s) = RPoll t → bodies s !! t = Some ANew →
  append_start 0 (record_of t) a (wal s) = Some g →
  GInv records (mkGc (ex s) g (<[t := AAppend (length (comps (wal s)))]> (bodies s)) (wake s)).
Proof.
  intros HG Hr Hb Hs. destruct (gc_wal_inv s HG) as (pub & det & [HC _ _ _ _]).
  assert (Hg : GroupCommit.reachable bench_max_batch [] 1 g).
  { eapply (GroupCommit.reach_step _ _ _ (wal s) (LAppend 0 (record_of t) a)); [apply HG|].
    simpl. by rewrite Hs. }
  pose proof (lookup_lt_Some _ _ _ Hb) as Hlt.
  pose proof (s_comps _ _ _ HC) as Ec. pose proof (s_futures _ _ _ HC) as Ef.
  unfold append_start in Hs. destruct (writers (wal s) !! 0%nat) as [[]|] eqn:Hw0; try done.
  case_match eqn:Hgd; [|done]. injection Hs as <-. destruct HG.
  destruct g_writer0 as (w & Hw & _). rewrite Hw in Hw0. simpl in Hw0. injection Hw0 as ->.
  rewrite Hr in g_order0. simpl in g_order0.
  assert (Hk : (length (submitted (wal s)) ≤ t)%nat) by exact (g_blocks0 t ANew Hb).
  rewrite filter_cons_True in g_order0 by done.
  destruct (length (bodies s) - length (submitted (wal s)))%nat as [|m] eqn:Em; [lia|].
  simpl in g_order0. injection g_order0 as Etk Hord.
  split; simpl; rewrite ?length_app, ?length_insert; simpl; try done; try lia.
  - intros i p [[_ Hi]|[-> <-]]%lookup_snoc_Some; [by apply g_data0|]. rewrite <- Etk. simpl.
    split; [done|]. intros j Hj. destruct (lookup_lt_is_Some_2 (submitted (wal s)) j) as [q Hq]; [lia|].
    destruct (s_index _ _ _ HC j q Hq) as (Hseq & _ & _).
    destruct (s_cover _ _ _ HC q) as [Hin|(a' & t' & Ht')]; [by eapply list_elem_of_lookup_2| |].
    + apply (s_published _ _ _ HC). apply list_elem_of_fmap. eauto.
    + unfold owners in Ht'. rewrite Hw in Ht'. by destruct t'.
  - rewrite Hr, <- Etk, Nat.add_1_r. replace (length (bodies s) - S t)%nat with m by lia.
    apply order_next. simpl. rewrite filter_cons_True by done. rewrite <- Etk in Hord. by rewrite Hord.
  - intros t' b. destruct (decide (t' = t)) as [->|Hne].
    + rewrite list_lookup_insert_eq by done. intros [= <-]. simpl. rewrite length_app, Ec. simpl.
      split_and!; [done|lia|done| |].
      * apply lookup_snoc_Some. right. split; [congruence|done].
      * rewrite Hw. simpl. eexists. split; [done|]. simpl. by rewrite Etk.
    + rewrite list_lookup_insert_ne by done. intros Hb'. specialize (g_blocks0 t' b Hb').
      destruct b as [|c|c]; simpl in *; rewrite ?length_app; simpl.
      * lia.
      * destruct g_blocks0 as (_ & _ & Hr' & _). congruence.
      * destruct g_blocks0 as (-> & ? & f & Hf & Ha). split_and!; [done|lia|].
        exists f. split; [by apply lookup_app_l_Some|done].
  - rewrite Hw. simpl. eexists. split; [done|]. right. exists t.
    rewrite list_lookup_insert_eq by done. by rewrite Ec, Etk.
  - intros t' Ht'. apply lookup_app_l_Some. auto.
  - intros c k w [[_ Hc]|[_ <-]]%lookup_snoc_Some; [|done]. by apply g_waker0.
  - destruct (wake s); simpl in *; [done| |done]. destruct g_wake0 as (? & ? & ?). split_and!; [done..|lia].
  - intros c w1 w2 Hin. destruct (g_woken0 c w1 w2 Hin) as [(k & Hk' & Hd) Hp]. split.
    + exists k. split; [by apply lookup_app_l_Some|done].
    + intros [[_ Hf]|[_ ?]]%lookup_snoc_Some; [|done]. auto.
Qed.

(** Only one task is polled. *)
Lemma block_ok_other e g g' t t' b :
  runner e = RPoll t → t' ≠ t → submitted g' = submitted g → futures g' !! t' = futures g !! t' →
  block_ok e g t' b → block_ok e g' t' b.
Proof.
  intros Hr Hne Es Ef. destruct b as [|c|c]; simpl; rewrite Es, ?Ef; try done.
  intros (_ & _ & Hr' & _). congruence.
Qed.

Lemma ginv_append_step s t c spurious g :
  GInv records s → runner (ex s) = RPoll t → bodies s !! t = Some (AAppend c) →
  append_step 0 spurious (wal s) = Some (Ok g) →
  GInv records (mkGc (ex s) g
    (match writers g !! 0%nat with Some AIdle => <[t := AAwait c]> (bodies s) | _ => bodies s end)
    (wake s)).
Proof.
  intros HG Hr Hb Hs.
  assert (Hg : GroupCommit.reachable bench_max_batch [] 1 g).
  { by eapply (GroupCommit.reach_step _ _ _ (wal s) (LWriter 0 spurious)); [apply HG|]. }
  pose proof (lookup_lt_Some _ _ _ Hb) as Hlt. destruct HG.
  destruct (g_blocks0 t _ Hb) as (-> & Hk & _ & Hf & w & Hw & Hwt).
  destruct g_writer0 as (w0 & Hw0 & _). rewrite Hw0 in Hw. injection Hw as ->.
  destruct (append_step_cases _ _ _ _ Hs Hw0) as (Es & Ec & Ek & Er & Hcase).
  destruct Hcase as [(w' & Hw' & Hne & Hwr & Ef)|(p & -> & Hw' & Ef)]; rewrite Hw'; simpl.
  - assert (Hmatch : match w' with AIdle => <[t := AAwait t]> (bodies s) | _ => bodies s end = bodies s)
      by (by destruct w').
    rewrite Hmatch. split; simpl; rewrite ?Es, ?Ec, ?Ek, ?Er, ?Ef; try done.
    + intros t' b Hb'. destruct (decide (t' = t)) as [->|Hne'].
      * rewrite Hb in Hb'. injection Hb' as <-. simpl. rewrite Es, Ef, Hw'. split_and!; try done.
        exists w'. split; [done|]. congruence.
      * apply (block_ok_other _ (wal s) _ t); auto. by rewrite Ef.
    + exists w'. split; [done|]. right. eauto.
    + unfold is_done in *. by rewrite Ec.
  - simpl in Hwt. injection Hwt as Hpt. rewrite Hpt in Ef.
    assert (Hft : futures g !! t = Some FFresh).
    { rewrite Ef. apply list_lookup_insert_eq. by eapply lookup_lt_Some. }
    assert (Hfo : ∀ t', t' ≠ t → futures g !! t' = futures (wal s) !! t').
    { intros t' Ht'. rewrite Ef. by apply list_lookup_insert_ne. }
    split; simpl; rewrite ?Es, ?Ec, ?Ek, ?Er, ?length_insert; try done.
    + intros t' b. destruct (decide (t' = t)) as [->|Hne'].
      * rewrite list_lookup_insert_eq by done. intros [= <-]. simpl. rewrite Es.
        split_and!; [done|lia|]. exists FFresh. done.
      * rewrite list_lookup_insert_ne by done. intros Hb'. apply (block_ok_other _ (wal s) _ t); auto.
    + exists AIdle. auto.
    + intros t' Ht'. specialize (g_done0 t' Ht').
      rewrite Hfo; [done|]. intros ->. congruence.
    + unfold is_done in *. rewrite Ec. intros c w1 w2 Hin.
      destruct (g_woken0 c w1 w2 Hin) as [Hd Hp]. split; [done|]. intros Hfc. apply Hp.
      rewrite <- Hfo; [done|]. intros ->. congruence.
Qed.

(** What one access of a poll changes. *)
Record Polled (g g' : GroupCommit.State) (t : nat) (f : fpc) : Prop := mkPolled {
  o_futures : futures g' = <[t := f]> (futures g);
  o_submitted : submitted g' = submitted g;
  o_writers : writers g' = writers g;
  o_running : running g' = running g;
  o_woken : woken g' = woken g;
  o_done : ∀ c, is_done g' c ↔ is_done g c;
  o_waker : ∀ c k w, comps g' !! c = Some k → c_waker k = Some w →
    (∃ k', comps g !! c = Some k' ∧ c_waker k' = Some w) ∨ c = t ∧ w = t;
  o_future : match f with
    | FLoaded w | FRegistered w => w = t
    | FReady => True
    | FPending w => w = t ∧ ¬ is_done g t
    | FNone | FFresh => False
    end
}.

Lemma polled_same g t f :
  match f with
  | FLoaded w | FRegistered w => w = t
  | FReady => True
  | FPending w => w = t ∧ ¬ is_done g t
  | FNone | FFresh => False
  end → Polled g (set_future g t f) t f.
Proof. intros H. split; try done. eauto. Qed.

Lemma polled_register g t k :
  comps g !! t = Some k →
  Polled g (set_future (set_comps g (<[t := mkCompletion (c_done k) (Some t)]> (comps g)) (woken g))
              t (FRegistered t)) t (FRegistered t).
Proof.
  intros Hk. pose proof (lookup_lt_Some _ _ _ Hk) as Hlt.
  split; try done; unfold is_done; simpl.
  - intros c. destruct (decide (c = t)) as [->|Hne].
    + rewrite list_lookup_insert_eq, Hk by done. split; intros (k' & [= <-] & Hd); eauto.
    + by rewrite list_lookup_insert_ne.
  - intros c k' w. destruct (decide (c = t)) as [->|Hne].
    + rewrite list_lookup_insert_eq by done. intros [= <-] [= <-]. by right.
    + rewrite list_lookup_insert_ne by done. eauto.
Qed.

Lemma poll_access_polled s t g :
  GInv records s → runner (ex s) = RPoll t → bodies s !! t = Some (AAwait t) →
  poll_access s t t = Some g → ∃ f, Polled (wal s) g t f.
Proof.
  intros HG Hr Hb Hp. destruct (g_blocks _ _ HG t _ Hb) as (_ & _ & f & Hf & Hat).
  unfold poll_access, poll_step, poll_start in Hp. rewrite Hf in Hp.
  destruct (comps (wal s) !! t) as [k|] eqn:Hk.
  2: by destruct f; try done; destruct (locked s t).
  destruct f as [| |w|w|w|]; try done; simpl in Hp, Hat.
  - injection Hp as <-. destruct (c_done k); eexists; by apply polled_same.
  - destruct Hat as [-> _]. destruct (locked s t); [done|]. injection Hp as <-.
    eexists. by apply polled_register.
  - destruct Hat as [-> _]. injection Hp as <-. destruct (c_done k) eqn:Hd; eexists; apply polled_same; [done|].
    split; [done|]. intros (k' & Hk' & Hd'). congruence.
  - injection Hp as <-. destruct (c_done k); eexists; by apply polled_same.
Qed.

(** After an access of a poll, whatever the runner makes of it. *)
Lemma ginv_polled s g e t f :
  GInv records s → runner (ex s) = RPoll t → bodies s !! t = Some (AAwait t) → Polled (wal s) g t f →
  RunQueue.reachable e → GroupCommit.reachable bench_max_batch [] 1 g →
  ready e = ready (ex s) → notifies e = notifies (ex s) → spawning e = 0%nat →
  (∀ t', t' ≠ t → tasks e !! t' = tasks (ex s) !! t') → length (tasks e) = length (tasks (ex s)) →
  fut_at e t f → (tasks e !! t = Some false → f = FReady) →
  runner e = RPop ∨ runner e = RFinish ∨ runner e = RPoll t →
  GInv records (mkGc e g (bodies s) (wake s)).
Proof.
  intros HG Hr Hb [Ef Es Ew Er Ek Hd Hwk Hfo] He Hg Erd En Esp Htk Hlen Hat Hfalse Hre. destruct HG.
  destruct (g_blocks0 t _ Hb) as (_ & Hk & f0 & Hf0 & _).
  assert (Hft : futures g !! t = Some f).
  { rewrite Ef. apply list_lookup_insert_eq. by eapply lookup_lt_Some. }
  assert (Hfs : ∀ t', t' ≠ t → futures g !! t' = futures (wal s) !! t').
  { intros t' Ht'. rewrite Ef. by apply list_lookup_insert_ne. }
  assert (Hret : runner e ≠ RReturned) by (by destruct Hre as [->|[->| ->]]).
  split; simpl; rewrite ?Es, ?Ew, ?Er, ?Ek, ?Hlen, ?Erd; try done.
  - right. destruct g_main0 as [?|?]; [congruence|done].
  - intros _. apply g_run0. by rewrite Hr.
  - rewrite <- g_order0, Hr. simpl. rewrite filter_cons_False by lia.
    destruct Hre as [->|[->| ->]]; simpl; try done. by rewrite filter_cons_False by lia.
  - intros t' b Hb'. destruct (decide (t' = t)) as [->|Hne].
    + rewrite Hb in Hb'. injection Hb' as <-. simpl. rewrite Es. eauto.
    + specialize (g_blocks0 t' b Hb'). destruct b as [|c|c]; simpl in *; rewrite Es, ?Hfs by done; [done| |].
      * destruct g_blocks0 as (_ & _ & Hr' & _). congruence.
      * destruct g_blocks0 as (-> & Hk' & f1 & Hf1 & Ha). split_and!; try done. exists f1. split; [done|].
        destruct f1; simpl in *; rewrite ?Htk by done; try done; first [congruence|destruct Ha; congruence].
  - intros t' Ht'. destruct (decide (t' = t)) as [->|Hne]; [by rewrite Hft, Hfalse|].
    rewrite Hfs by done. apply g_done0. by rewrite <- Htk.
  - intros c k w Hc Hw. destruct (Hwk c k w Hc Hw) as [(k' & Hc' & Hw')|[-> ->]]; eauto.
  - destruct (wake s); simpl in *; by rewrite ?En.
  - intros c w1 w2 Hin. rewrite Hd. destruct (g_woken0 c w1 w2 Hin) as [Hdone Hsch]. split; [done|].
    intros Hfc. destruct (decide (c = t)) as [->|Hne].
    + rewrite Hft in Hfc. injection Hfc as ->. by destruct Hfo.
    + rewrite Hfs in Hfc by done. unfold scheduled in *. rewrite Hr in Hsch. simpl in Hsch. rewrite Erd.
      destruct (Hsch Hfc) as [?|?]; [|by right]. left. set_solver.
Qed.

Lemma ginv_poll s t c g e :
  GInv records s → runner (ex s) = RPoll t → bodies s !! t = Some (AAwait c) →
  poll_access s t c = Some g → poll_answer g c (ex s) = Some e →
  GInv records (mkGc e g (bodies s) (wake s)).
Proof.
  intros HG Hr Hb Hp Ha. destruct (g_blocks _ _ HG t _ Hb) as (-> & _ & f0 & Hf0 & Hat0).
  destruct (poll_access_polled s t g HG Hr Hb Hp) as [f HP].
  assert (Hft : futures g !! t = Some f).
  { rewrite (o_futures _ _ _ _ HP). apply list_lookup_insert_eq. by eapply lookup_lt_Some. }
  assert (Hg : GroupCommit.reachable bench_max_batch [] 1 g).
  { unfold poll_access in Hp. pose proof (g_wal _ _ HG) as Hw. rewrite Hf0 in Hp.
    destruct f0; try (eapply (GroupCommit.reach_step _ _ _ (wal s) (LPoll t t)); [done|]; simpl; by rewrite Hp);
      (eapply (GroupCommit.reach_step _ _ _ (wal s) (LFuture t)); [done|]); simpl.
    - destruct (locked s t); [done|]. by rewrite Hp.
    - by rewrite Hp. }
  pose proof (q_poll _ (gc_ex_inv s HG) t Hr) as Htrue. pose proof (lookup_lt_Some _ _ _ Htrue) as Hlt.
  unfold poll_answer in Ha. rewrite Hft in Ha. pose proof (o_future _ _ _ _ HP) as Hfo.
  assert (Hstep : ∀ b, run_step b [] (ex s) = Some e → RunQueue.reachable e).
  { intros b Hb'. by apply (gc_ex_step s (LStep b []) e HG). }
  pose proof (g_spawn _ _ HG) as Hsp.
  destruct f as [| |w|w|w|]; try done.
  - injection Ha as <-. subst w. apply (ginv_polled _ _ _ t (FLoaded t)); try done; [apply HG| |auto]. congruence.
  - injection Ha as <-. subst w. apply (ginv_polled _ _ _ t (FRegistered t)); try done; [apply HG| |auto]. congruence.
  - destruct Hfo as [-> _]. pose proof (Hstep _ Ha) as He. unfold run_step in Ha. rewrite Hr in Ha.
    simpl in Ha. rewrite app_nil_r in Ha. injection Ha as <-.
    apply (ginv_polled _ _ _ t (FPending t)); simpl; try done; [congruence|auto].
  - pose proof (Hstep _ Ha) as He. unfold run_step in Ha. rewrite Hr in Ha.
    simpl in Ha. rewrite app_nil_r in Ha. injection Ha as <-.
    apply (ginv_polled _ _ _ t FReady); simpl; try done; auto.
    + intros t' Ht'. by rewrite list_lookup_insert_ne.
    + apply length_insert.
    + by apply list_lookup_insert_eq.
Qed.

(** One step from an invariant state never faults and keeps the invariant. *)
Lemma ginv_step s l r :
  GInv records s → gc_step records l s = Some r → ∃ s', r = Ok s' ∧ GInv records s'.
Proof.
  intros HG. destruct (gc_wal_inv s HG) as (pub & det & HI). pose proof (gc_small s HG) as Hsm.
  destruct l as [|a spurious|expired resp|]; cbn [gc_step].
  - unfold main_step. destruct (runner (ex s)) eqn:Hr; try done.
    + case_match eqn:Hn; [apply Nat.ltb_lt in Hn|apply Nat.ltb_ge in Hn].
      * destruct (RunQueue.step LSpawnCount (ex s)) as [e|] eqn:H1; [|done].
        cbn [mbind option_bind]. destruct (RunQueue.step LSpawnPush e) as [e'|] eqn:H2; [|done].
        intros [= <-]. eexists. split; [done|].
        by eapply ginv_spawn.
      * destruct (RunQueue.step LRun (ex s)) as [e|] eqn:He; [|done]. intros [= <-].
        eexists. split; [done|]. by apply ginv_call_run.
    + destruct (drop_wal (wal s)) as [g|] eqn:Hd; simpl; [|done]. intros [= <-].
      eexists. split; [done|]. by apply ginv_drop.
  - unfold runner_step. destruct (runner (ex s)) as [| | |t|t| |] eqn:Hr; try done.
    1,2,4: destruct (run_step true [] (ex s)) as [e|] eqn:He; simpl; [|done]; intros [= <-];
      eexists; (split; [done|]); apply ginv_runner; eauto.
    destruct (bodies s !! t) as [[|c|c]|] eqn:Hb; try done.
    + destruct (append_start 0 (record_of t) a (wal s)) as [g|] eqn:Hg; simpl; [|done]. intros [= <-].
      eexists. split; [done|]. by eapply ginv_append_start.
    + destruct (append_step 0 spurious (wal s)) as [rg|] eqn:Hg; simpl; [|done]. intros [= <-].
      destruct (inv_step bench_max_batch [] (wal s) (LWriter 0 spurious) rg _ _ HI Hsm Hg) as (g & -> & _).
      eexists. split; [done|]. by eapply ginv_append_step.
    + destruct (poll_access s t c) as [g|] eqn:Hg; simpl; [|done].
      destruct (poll_answer g c (ex s)) as [e|] eqn:He; simpl; [|done]. intros [= <-].
      eexists. split; [done|]. by eapply ginv_poll.
  - unfold batcher_thread. destruct (wake s) as [|c w|c] eqn:Hw.
    + destruct (batcher_step bench_max_batch expired resp (wal s)) as [rg|] eqn:Hg; simpl; [|done].
      intros [= <-].
      destruct (inv_step bench_max_batch [] (wal s) (LBatcher expired resp) rg _ _ HI Hsm Hg) as (g & -> & _).
      eexists. split; [done|]. by eapply ginv_batcher.
    + destruct (RunQueue.step (LWake w) (ex s)) as [e|] eqn:He; [|done]. intros [= <-]. eexists. split; [done|]. by eapply ginv_push.
    + destruct (RunQueue.step LNotify (ex s)) as [e|] eqn:He; [|done]. intros [= <-]. eexists. split; [done|]. by eapply ginv_notify.
  - destruct (RunQueue.step LSpurious (ex s)) as [e|] eqn:He; [|done]. intros [= <-]. eexists. split; [done|]. by eapply ginv_spurious.
Qed.

Lemma gc_reachable_inv s : gc_reachable records s → GInv records s.
Proof.
  induction 1 as [|s l s' _ IH Hs]; [apply ginv_new|].
  destruct (ginv_step _ _ _ IH Hs) as (s1 & [= <-] & H1). done.
Qed.

(** ** When the run returns *)

(** The log respects the order of the appends of one thread. *)
Lemma gc_sorted s pub det : GInv records s → GroupCommit.Inv [] (wal s) pub det →
  StronglySorted seq_le (committed (wal s)).
Proof.
  intros HG [HC HO _ _ _]. apply sorted_of_lookups. intros i j p q Hij Hp Hq. unfold seq_le.
  assert (Hsub : ∀ n x, committed (wal s) !! n = Some x →
    ∃ m, submitted (wal s) !! m = Some x ∧ p_seq x = Z.of_nat m).
  { intros n x Hx. assert (x ∈ submitted (wal s)) as [m Hm]%list_elem_of_lookup.
    { apply (s_sub _ _ _ HC). unfold all. apply elem_of_app. left. by eapply list_elem_of_lookup_2. }
    exists m. split; [done|]. by destruct (s_index _ _ _ HC m x Hm). }
  destruct (Hsub _ _ Hp) as (m & Hm & Em). destruct (Hsub _ _ Hq) as (m' & Hm' & Em').
  destruct (decide (m ≤ m')%nat) as [|Hlt]; [lia|]. exfalso.
  destruct (g_data _ _ HG m p Hm) as [_ Haft].
  destruct (r_committed _ _ HO i p (Z.of_nat m') Hp) as (j' & q' & Hj' & Hq' & Eq').
  { apply Haft. lia. }
  destruct (Hsub _ _ Hq') as (m2 & Hm2 & Em2). assert (m2 = m') as -> by lia. simplify_eq.
  pose proof (s_nodup _ _ _ HC) as Hnd. unfold all in Hnd. apply NoDup_app in Hnd as [Hnd _].
  assert (j' = j) by (by eapply NoDup_lookup). lia.
Qed.

(** By then every future has resolved, so every record is in the log. *)
Lemma gc_all_resolved s :
  GInv records s → runner (ex s) = RReturned →
  length (submitted (wal s)) = records ∧ ∀ t, (t < records)%nat → futures (wal s) !! t = Some FReady.
Proof.
  intros HG Hr. destruct (gc_wal_inv s HG) as (pub & det & [HC _ _ _ _]).
  assert (Hn : length (bodies s) = records) by (apply gc_started; [done|by rewrite Hr]).
  pose proof (g_ret _ _ HG Hr) as Hall. rewrite Forall_lookup in Hall.
  assert (Hready : ∀ t, (t < records)%nat → futures (wal s) !! t = Some FReady).
  { intros t Ht. apply (g_done _ _ HG).
    destruct (lookup_lt_is_Some_2 (tasks (ex s)) t) as [b Hb]; [rewrite <- (g_len _ _ HG); lia|].
    by rewrite Hb, (Hall t b Hb). }
  split; [|done].
  pose proof (g_max _ _ HG). destruct (decide (length (submitted (wal s)) < records)%nat) as [Hlt|]; [|lia].
  apply Hready, lookup_lt_Some in Hlt. rewrite (s_futures _ _ _ HC) in Hlt. lia.
Qed.

Lemma gc_resolved_committed s pub det t p :
  GroupCommit.Inv [] (wal s) pub det → futures (wal s) !! t = Some FReady →
  submitted (wal s) !! t = Some p → p ∈ committed (wal s).
Proof.
  intros [HC _ _ HN _] Hf Ht.
  destruct (lookup_lt_is_Some_2 (comps (wal s)) t) as [k Hc].
  { rewrite (s_comps _ _ _ HC). by eapply lookup_lt_Some. }
  pose proof (n_fut _ HN _ _ _ Hf Hc) as Hd. simpl in Hd.
  destruct (n_done _ HN t) as (q & Hq & Eq); [by exists k|].
  assert (Hin : q ∈ submitted (wal s)).
  { apply (s_sub _ _ _ HC). unfold all. apply elem_of_app. by left. }
  assert (q = p) as ->; [|done]. eapply submitted_inj; [done..|by eapply list_elem_of_lookup_2|].
  right. by destruct (s_index _ _ _ HC t p Ht) as (_ & -> & _).
Qed.

Lemma gc_returned s :
  GInv records s → runner (ex s) = RReturned →
  committed (wal s) = submitted (wal s) ∧ p_data <$> submitted (wal s) = record_of <$> seq 0 records.
Proof.
  intros HG Hr. destruct (gc_wal_inv s HG) as (pub & det & HI). pose proof HI as [HC _ _ _ _].
  destruct (gc_all_resolved s HG Hr) as [Hk Hready].
  assert (Hin : ∀ p, p ∈ committed (wal s) ↔ p ∈ submitted (wal s)).
  { intros p. split.
    - intros Hp. apply (s_sub _ _ _ HC). unfold all. apply elem_of_app. by left.
    - intros [t Ht]%list_elem_of_lookup. eapply gc_resolved_committed; [done| |done].
      apply Hready. rewrite <- Hk. by eapply lookup_lt_Some. }
  split.
  - apply (StronglySorted_unique_strong seq_le).
    + intros p q Hp%Hin Hq Hpq Hqp. eapply (submitted_inj (wal s)); try done. unfold seq_le in *. lia.
    + by eapply gc_sorted.
    + apply sorted_of_lookups. intros i j p q Hij Hp Hq. unfold seq_le.
      destruct (s_index _ _ _ HC i p Hp) as (-> & _). destruct (s_index _ _ _ HC j q Hq) as (-> & _). lia.
    + apply NoDup_Permutation; [| |done].
      * pose proof (s_nodup _ _ _ HC) as Hnd. unfold all in Hnd. by apply NoDup_app in Hnd as [Hnd _].
      * apply NoDup_alt. intros i j p Hi Hj. destruct (s_index _ _ _ HC i p Hi) as (_ & <- & _).
        by destruct (s_index _ _ _ HC j p Hj) as (_ & <- & _).
  - apply list_eq. intros i. rewrite !list_lookup_fmap.
    destruct (submitted (wal s) !! i) as [p|] eqn:Hp; simpl.
    + rewrite lookup_seq_lt by (rewrite <- Hk; by eapply lookup_lt_Some). simpl.
      by rewrite (proj1 (g_data _ _ HG i p Hp)).
    + apply lookup_ge_None in Hp. rewrite lookup_seq_ge by lia. done.
Qed.

(** ** Progress *)

Definition runner_work (s : GcState) : nat :=
  match runner (ex s) with
  | RIdle => 5
  | RPop => 1
  | RTake _ => 9
  | RPoll t =>
    match futures (wal s) !! t with Some (FLoaded _) => 7 | Some (FRegistered _) => 6 | _ => 8 end
  | RFinish => 3
  | RWait | RReturned => 0
  end.

Definition writer_work (g : GroupCommit.State) : nat :=
  match writers g !! 0%nat with
  | Some (ALoad _ _) => 60
  | Some (APush _ h _) => if (top (stk g) =? h)%Z then 55 else 65
  | Some (ACount _) => 10
  | _ => 0
  end.

Definition wake_work (w : waking_pc) : nat :=
  match w with WNone => 0 | WPush _ _ => 17 | WNotify _ => 5 end.

Definition batcher_pos (b : bpc) : nat :=
  match b with
  | BExit | BSwap _ => 0
  | BWait => 1
  | BTop => 2
  | BSignal _ rest => 3 + 20 * length rest
  | BWake _ _ rest => 22 + 20 * length rest
  | BWrite _ b _ => 4 + 20 * length b
  | BReserve _ b => 5 + 20 * length b
  | BSub _ b => 6 + 20 * length b
  | BWalk _ _ b => 7 + 20 * length b
  end.

Definition batcher_work (g : GroupCommit.State) : nat :=
  (batcher_pos (batcher g) + 25 * size (nodes (stk g)) + if (top (stk g) =? 0)%Z then 0 else 20)%nat.

(** What is left to do; each record accounts for its task and its commit. *)
Definition gc_work (s : GcState) : nat :=
  (250 * (records - length (submitted (wal s))) + 20 * (records - length (bodies s))
   + 10 * length (ready (ex s)) + runner_work s + writer_work (wal s) + wake_work (wake s)
   + batcher_work (wal s))%nat.

(** The batcher has a record in its hands or on the stack. *)
Definition busy (g : GroupCommit.State) : Prop :=
  top (stk g) ≠ 0 ∨ match batcher g with BTop | BWait | BSwap _ | BExit => False | _ => True end.

Lemma batcher_decreases mb resp g g' :
  running g = true → busy g → batcher_step mb true resp g = Some (Ok g') →
  (batcher_work g' + wake_work (match drop (length (woken g)) (woken g') with
                                | (c, w) :: _ => WPush c w
                                | [] => WNone
                                end) < batcher_work g)%nat.
Proof.
  intros Hrun Hbusy. unfold batcher_step, batcher_work, busy in *.
  destruct (batcher g) as [| |rn|rn node batch|rn batch|rn batch|rn batch off|rn [|p rest]|rn p rest|] eqn:Hb;
    rewrite ?Hrun.
  - intros [= <-]. simpl. rewrite drop_all. simpl. lia.
  - simpl. intros [= <-]. simpl. rewrite drop_all. simpl. lia.
  - intros [= <-]. simpl. rewrite drop_all. simpl. destruct Hbusy as [Htop|[]].
    rewrite (proj2 (Z.eqb_neq _ _) Htop). simpl. lia.
  - destruct (node =? 0); [intros [= <-]; simpl; rewrite drop_all; simpl; lia|].
    unfold unbox. destruct (nodes (stk g) !! node) as [[p nx]|] eqn:Hn; simpl; [|done].
    intros [= <-]. simpl. rewrite drop_all, length_app, map_size_delete_Some by eauto. simpl.
    assert (size (nodes (stk g)) ≠ 0%nat).
    { rewrite map_size_non_empty_iff. intros He. by rewrite He, lookup_empty in Hn. }
    lia.
  - intros [= <-]. simpl. rewrite drop_all, (Permutation_length (sort_by_seq_perm batch)). simpl. lia.
  - intros [= <-]. simpl. rewrite drop_all. simpl. lia.
  - destruct (write_vectored _ _ _ _ _ _) as [[[res i] f]|]; simpl; [|done].
    intros [= <-]. simpl. rewrite drop_all. simpl. lia.
  - intros [= <-]. unfold loop_end. simpl. rewrite drop_all. simpl.
    destruct (negb rn && _); simpl; lia.
  - intros [= <-]. simpl. rewrite drop_all. simpl. lia.
  - intros [= <-]. simpl. destruct (from_option c_waker None (comps g !! completion p)) as [w|]; simpl.
    + rewrite drop_app_length. simpl. lia.
    + rewrite drop_all. simpl. lia.
  - done.
Qed.

(** The writer is idle unless a task is inside [append]. *)
Lemma gc_writer_idle s :
  GInv records s → (∀ t, runner (ex s) = RPoll t → bodies s !! t ≠ Some (AAppend t)) →
  writers (wal s) = [AIdle].
Proof.
  intros HG Hn. destruct (g_writer _ _ HG) as (w & Hw & [->|(t & Ht)]); [done|].
  destruct (g_blocks _ _ HG t _ Ht) as (_ & _ & Hr & _). by destruct (Hn t Hr).
Qed.

Lemma gc_unsignalled_busy s pub det t p k :
  GInv records s → GroupCommit.Inv [] (wal s) pub det → writers (wal s) = [AIdle] →
  submitted (wal s) !! t = Some p → comps (wal s) !! t = Some k → c_done k = false → busy (wal s).
Proof.
  intros HG [HC _ _ HN _] Hw Hp Hk Hd. unfold busy.
  destruct (s_index _ _ _ HC t p Hp) as (_ & Ec & _).
  destruct (s_cover _ _ _ HC p) as [Hin|(a & t' & Ht')]; [by eapply list_elem_of_lookup_2| |].
  2: { unfold owners in Ht'. rewrite Hw in Ht'. by destruct t'. }
  unfold all in Hin. rewrite !elem_of_app in Hin. destruct Hin as [Hc|[Ht|[Hdet|Hpub]]].
  - destruct (n_signal _ HN p Hc) as [Hs|(k' & Hk' & Hd')]; [|rewrite Ec in Hk'; congruence].
    right. destruct (batcher (wal s)); try done; by apply elem_of_nil in Hs.
  - right. destruct (batcher (wal s)); try done; by apply elem_of_nil in Ht.
  - right. destruct (decide (cur_node (batcher (wal s)) = 0)) as [Hz|Hz].
    + rewrite (custody_det _ _ _ HC Hz) in Hdet. by apply elem_of_nil in Hdet.
    + by destruct (batcher (wal s)).
  - left. intros Hz. pose proof (o_pub _ _ _ _ _ (s_own _ _ _ HC)) as Hch.
    apply chain_null in Hch. apply Hch in Hz as ->. by apply elem_of_nil in Hpub.
Qed.

(** A runner that waits for nobody's push waits for the batcher. *)
Lemma gc_waiting_busy s :
  GInv records s → runner (ex s) = RWait → wake s = WNone → busy (wal s).
Proof.
  intros HG Hr Hw. destruct (gc_wal_inv s HG) as (pub & det & HI). pose proof HI as [HC _ _ HN _].
  pose proof (gc_ex_inv s HG) as HQ.
  assert (Hn0 : notifies (ex s) = 0%nat) by (pose proof (g_wake _ _ HG) as H; by rewrite Hw in H).
  assert (Hrd : ready (ex s) = []) by (by destruct (q_wait _ HQ Hr)).
  assert (∃ t, tasks (ex s) !! t = Some true) as [t Ht].
  { pose proof (q_live _ HQ Hr) as Ha. rewrite (g_spawn _ _ HG), Nat.add_0_r in Ha. unfold alive in Ha.
    destruct (filter (λ b, b = true) (tasks (ex s))) as [|b l] eqn:Hf; [done|].
    assert (Hin : b ∈ filter (λ b, b = true) (tasks (ex s))) by (rewrite Hf; by left).
    apply list_elem_of_filter in Hin as [-> Hin]. by apply list_elem_of_lookup. }
  pose proof (g_order _ _ HG) as Hord. rewrite Hr, Hrd in Hord. simpl in Hord.
  assert (Hlt : (t < length (bodies s))%nat) by (rewrite (g_len _ _ HG); by eapply lookup_lt_Some).
  destruct (lookup_lt_is_Some_2 _ _ Hlt) as [b Hb]. pose proof (g_blocks _ _ HG t b Hb) as Hok.
  destruct (length (bodies s) - length (submitted (wal s)))%nat eqn:Em; [|done].
  assert (Hidle : writers (wal s) = [AIdle]) by (apply gc_writer_idle; [done|]; by rewrite Hr).
  destruct b as [|c|c]; simpl in Hok; rewrite ?Hr in Hok; [lia|naive_solver|].
  destruct Hok as (-> & Hk & f & Hf & Hat).
  destruct (lookup_lt_is_Some_2 _ _ Hk) as [p Hp].
  destruct (lookup_lt_is_Some_2 (comps (wal s)) t) as [k Hc]; [by rewrite (s_comps _ _ _ HC)|].
  pose proof (n_fut _ HN _ _ _ Hf Hc) as Hfo.
  destruct f as [| |w|w|w|]; simpl in Hat, Hfo; rewrite ?Hr in Hat; try (by destruct Hat); try congruence.
  destruct Hfo as [Hwk|(_ & [Hd|Hwk])].
  - destruct (g_woken _ _ HG t w w Hwk) as [_ Hsch]. destruct (Hsch Hf) as [Hin|Hin]; [|congruence].
    rewrite Hr, Hrd in Hin. by apply elem_of_nil in Hin.
  - by eapply gc_unsignalled_busy.
  - right. by destruct (batcher (wal s)).
Qed.

Definition progress (s : GcState) (resp : nat → option nat) : Prop :=
  ∃ l s', gc_step records l s = Some (Ok s') ∧ (gc_work s' < gc_work s)%nat ∧
    ∀ e r, l = GBatcher e r → r = resp.

Lemma progress_wake s resp : GInv records s → wake s ≠ WNone → progress s resp.
Proof.
  intros HG Hw. pose proof (g_wake _ _ HG) as Hwk. pose proof (g_max _ _ HG).
  assert (Hs : ∃ s', batcher_thread true resp s = Some (Ok s') ∧ (gc_work s' < gc_work s)%nat).
  { unfold batcher_thread, gc_work, runner_work. destruct (wake s) as [|c w|c]; [done|..]; simpl in Hwk |- *.
    - destruct Hwk as (Hn & -> & Hk). rewrite bool_decide_eq_true_2 by (rewrite <- (g_len _ _ HG); lia).
      eexists. split; [done|]. simpl. rewrite length_app. simpl. lia.
    - rewrite Hwk. eexists. split; [done|]. simpl. destruct (runner (ex s)); simpl; lia. }
  destruct Hs as (s' & Hs & Hlt). exists (GBatcher true resp), s'. split; [done|]. split; [done|].
  by intros e r [= _ ->].
Qed.

Lemma progress_main s resp : GInv records s → runner (ex s) = RIdle → progress s resp.
Proof.
  intros HG Hr. pose proof (g_max _ _ HG). exists GMain. unfold gc_step, main_step, gc_work, runner_work.
  rewrite Hr. destruct (Nat.ltb_spec (length (bodies s)) records) as [Hlt|Hge].
  - eexists. split; [reflexivity|]. split; [|done]. simpl. rewrite Hr, !length_app. simpl. lia.
  - eexists. simpl. rewrite Hr. split; [reflexivity|]. split; [|done]. simpl. lia.
Qed.

Lemma progress_batcher s resp :
  GInv records s → runner (ex s) = RWait → wake s = WNone → progress s resp.
Proof.
  intros HG Hr Hw. destruct (gc_wal_inv s HG) as (pub & det & HI). pose proof (gc_small s HG) as Hsm.
  assert (Hrun : running (wal s) = true) by (apply HG; by rewrite Hr).
  pose proof (gc_waiting_busy s HG Hr Hw) as Hbusy.
  assert (Hne : batcher (wal s) ≠ BExit).
  { intros Hb. pose proof (t_exit _ (v_stopping _ _ _ _ HI) Hb) as Ht. unfold busy in Hbusy.
    rewrite Hb in Hbusy. by destruct Hbusy. }
  destruct (batcher_enabled bench_max_batch true resp _ Hne) as [r Hs].
  destruct (inv_step bench_max_batch [] (wal s) (LBatcher true resp) r _ _ HI Hsm Hs) as (g & -> & _).
  pose proof (batcher_decreases _ _ _ _ Hrun Hbusy Hs) as Hlt.
  destruct (batcher_frame _ _ _ _ _ Hs) as (Es & Ef & Ew & _ & _).
  exists (GBatcher true resp). eexists. unfold gc_step, batcher_thread. rewrite Hw, Hs.
  split; [reflexivity|]. split; [|by intros e r [= _ ->]].
  unfold gc_work, runner_work, writer_work. simpl. rewrite Hr, Es, Ew, Hw.
  assert (Hidle : writers (wal s) = [AIdle]) by (apply gc_writer_idle; [done|]; by rewrite Hr).
  rewrite Hidle. simpl. lia.
Qed.

(** A step of the runner is progress as soon as it decreases the work. *)
Lemma progress_of_runner s resp a s' :
  runner_step a false s = Some (Ok s') → (gc_work s' < gc_work s)%nat → progress s resp.
Proof. intros Hs Hlt. by exists (GRunner a false), s'. Qed.

Lemma progress_runner s resp :
  GInv records s → (runner (ex s) = RPop ∨ runner (ex s) = RFinish ∨ ∃ t, runner (ex s) = RTake t) →
  progress s resp.
Proof.
  intros HG Hr. pose proof (gc_ex_inv s HG) as HQ.
  assert (Hs : ∃ e, run_step true [] (ex s) = Some e ∧
    runner_step 0 false s = Some (Ok (mkGc e (wal s) (bodies s) (wake s))) ∧
    (10 * length (ready e) + runner_work (mkGc e (wal s) (bodies s) (wake s))
     < 10 * length (ready (ex s)) + runner_work s)%nat).
  { unfold runner_step, runner_work. destruct Hr as [Hr|[Hr|[t Hr]]]; rewrite Hr; unfold run_step; rewrite Hr.
    - destruct (ready (ex s)) as [|t rest] eqn:Hrd; eexists; (split; [done|]); split; try done; simpl; [|lia].
      rewrite Hrd. destruct (outstanding (ex s) =? 0); simpl; lia.
    - eexists. split; [done|]. split; [done|]. simpl. lia.
    - destruct (lookup_lt_is_Some_2 (tasks (ex s)) t) as [[] Ht]; [by apply (q_task _ HQ); left|..];
        rewrite Ht; eexists; (split; [done|]); (split; [done|]); simpl; repeat case_match; lia. }
  destruct Hs as (e & _ & Hs & Hlt). eapply progress_of_runner; [exact Hs|].
  unfold gc_work. simpl. lia.
Qed.

Lemma progress_append_start s resp t :
  GInv records s → runner (ex s) = RPoll t → bodies s !! t = Some ANew → progress s resp.
Proof.
  intros HG Hr Hb. destruct (gc_wal_inv s HG) as (pub & det & [HC _ _ _ _]).
  assert (Hidle : writers (wal s) = [AIdle]).
  { apply gc_writer_idle; [done|]. intros t' Hr'. assert (t' = t) as -> by congruence. by rewrite Hb. }
  assert (Hrun : running (wal s) = true) by (apply HG; by rewrite Hr).
  assert (∃ a, a ≠ 0 ∧ nodes (stk (wal s)) !! a = None) as (a & Ha & Hfree).
  { pose proof (is_fresh ({[0]} ∪ dom (nodes (stk (wal s))) : gset Z)) as Hf.
    set (a := fresh _) in Hf. exists a. split; [set_solver|]. apply not_elem_of_dom. set_solver. }
  assert (Hk : (length (submitted (wal s)) ≤ t)%nat) by exact (g_blocks _ _ HG t _ Hb).
  pose proof (lookup_lt_Some _ _ _ Hb) as Hlt. pose proof (g_max _ _ HG) as Hmax.
  assert (Hnf : futures (wal s) !! t = None) by (apply lookup_ge_None; by rewrite (s_futures _ _ _ HC)).
  eapply (progress_of_runner s resp a).
  { unfold runner_step, append_start. rewrite Hr, Hb, Hidle. simpl. rewrite Hrun.
    rewrite (proj2 (Z.eqb_neq _ _) Ha), (bool_decide_eq_true_2 _ Hfree). simpl. reflexivity. }
  unfold gc_work, runner_work, writer_work, batcher_work. simpl.
  rewrite Hr, Hnf, Hidle, length_insert, length_app, map_size_insert_None by done. simpl.
  repeat case_match; lia.
Qed.

Lemma progress_append s resp t c :
  GInv records s → runner (ex s) = RPoll t → bodies s !! t = Some (AAppend c) → progress s resp.
Proof.
  intros HG Hr Hb. destruct (gc_wal_inv s HG) as (pub & det & HI). pose proof (gc_small s HG) as Hsm.
  destruct (g_blocks _ _ HG t _ Hb) as (-> & Hk & _ & Hf & w & Hw & Hwt).
  destruct (g_writer _ _ HG) as (w0 & Hw0 & _). rewrite Hw0 in Hw. injection Hw as ->.
  assert (∃ r, append_step 0 false (wal s) = Some r) as [r Hs].
  { unfold append_step. rewrite Hw0. simpl. destruct w; try done; eauto. }
  destruct (inv_step bench_max_batch [] (wal s) (LWriter 0 false) r _ _ HI Hsm Hs) as (g & -> & _).
  eapply (progress_of_runner s resp 0). { unfold runner_step. rewrite Hr, Hb, Hs. reflexivity. }
  destruct (append_step_cases _ _ _ _ Hs Hw0) as (Es & _ & _ & _ & _).
  assert (Hlen : ∀ b : bool, length (if b then <[t := AAwait t]> (bodies s) else bodies s) = length (bodies s))
    by (intros []; [apply length_insert|done]).
  assert (Hrw : ∀ bs, (runner_work (mkGc (ex s) g bs (wake s)) ≤ runner_work s)%nat).
  { intros bs. unfold runner_work. simpl. rewrite Hr, Hf. repeat case_match; lia. }
  assert (Hdec : (writer_work g + batcher_work g < writer_work (wal s) + batcher_work (wal s))%nat).
  { unfold append_step in Hs. rewrite Hw0 in Hs. simpl in Hs. unfold writer_work, batcher_work. rewrite Hw0. simpl.
    destruct w as [|a p|a h p|p]; [done|..].
    - injection Hs as <-. simpl. rewrite Hw0. simpl. rewrite Z.eqb_refl. lia.
    - unfold try_push in Hs. destruct (nodes (stk (wal s)) !! a) as [[x nx]|] eqn:Hn; simpl in Hs; [|done].
      rewrite andb_true_r in Hs. destruct (top (stk (wal s)) =? h); simpl in Hs; injection Hs as <-; simpl;
        rewrite ?Hw0; simpl; rewrite map_size_insert_Some by eauto; repeat case_match; lia.
    - injection Hs as <-. simpl. lia. }
  pose proof (Hrw (match writers g !! 0%nat with Some AIdle => <[t := AAwait t]> (bodies s) | _ => bodies s end)).
  unfold gc_work. simpl. rewrite Es.
  replace (length (match writers g !! 0%nat with Some AIdle => <[t := AAwait t]> (bodies s) | _ => bodies s end))
    with (length (bodies s)) by (repeat case_match; by rewrite ?length_insert).
  lia.
Qed.

Lemma progress_poll s resp t c :
  GInv records s → runner (ex s) = RPoll t → wake s = WNone → bodies s !! t = Some (AAwait c) →
  progress s resp.
Proof.
  intros HG Hr Hw Hb. destruct (gc_wal_inv s HG) as (pub & det & [HC _ _ _ _]).
  destruct (g_blocks _ _ HG t _ Hb) as (-> & Hk & f & Hf & Hat).
  pose proof (q_poll _ (gc_ex_inv s HG) t Hr) as Htrue.
  pose proof (lookup_lt_Some _ _ _ Hf) as Hlt.
  destruct (lookup_lt_is_Some_2 (comps (wal s)) t) as [k Hc]; [by rewrite (s_comps _ _ _ HC)|].
  assert (Hs : ∃ g e, poll_access s t t = Some g ∧ poll_answer g t (ex s) = Some e ∧
    submitted g = submitted (wal s) ∧ stk g = stk (wal s) ∧ writers g = writers (wal s) ∧
    batcher g = batcher (wal s) ∧ ready e = ready (ex s) ∧
    (runner_work (mkGc e g (bodies s) (wake s)) < runner_work s)%nat).
  { unfold poll_access, poll_start, poll_step, locked, runner_work. rewrite Hf, Hc, Hw, Hr.
    destruct f as [| |w|w|w|]; simpl in Hat; try done; [..|congruence]; destruct (c_done k).
    all: eexists _, _; split; [reflexivity|]; split;
      [unfold poll_answer, run_step; simpl; rewrite list_lookup_insert_eq, ?Hr by done; reflexivity|]; simpl;
      rewrite ?app_nil_r, ?Hr, ?list_lookup_insert_eq, ?Hf by done; split_and!; try done; lia. }
  destruct Hs as (g & e & Hp & Ha & Es & Ek & Ew & Ebt & Erd & Hdec).
  eapply (progress_of_runner s resp 0).
  { unfold runner_step. rewrite Hr, Hb, Hp. simpl. rewrite Ha. reflexivity. }
  unfold gc_work, writer_work, batcher_work in *. simpl. rewrite Es, Ek, Ew, Ebt, Erd. lia.
Qed.

Lemma gc_progress s resp : GInv records s → runner (ex s) ≠ RReturned → progress s resp.
Proof.
  intros HG Hret. destruct (wake s) eqn:Hw; [|by apply progress_wake; [|rewrite Hw]..].
  destruct (runner (ex s)) as [| | |t|t| |] eqn:Hr; try done.
  - by apply progress_main.
  - apply progress_runner; auto.
  - by apply progress_batcher.
  - apply progress_runner; eauto.
  - pose proof (q_task _ (gc_ex_inv s HG) t (or_intror Hr)) as Hlt.
    rewrite <- (g_len _ _ HG) in Hlt. destruct (lookup_lt_is_Some_2 _ _ Hlt) as [[|c|c] Hb].
    + by eapply progress_append_start.
    + by eapply progress_append.
    + by eapply progress_poll.
  - apply progress_runner; auto.
Qed.

(** Scheduled by its enabled parties the benchmark ends. *)
Lemma gc_completes s (resps : nat → nat → option nat) :
  GInv records s →
  ∃ ls s', gc_run records ls s = Some (Ok s') ∧ runner (ex s') = RReturned ∧ GInv records s' ∧
    (length ls ≤ gc_work s)%nat ∧ ∀ i e r, ls !! i = Some (GBatcher e r) → r = resps i.
Proof.
  remember (gc_work s) as n eqn:Hn. revert s resps Hn.
  induction n as [n IH] using lt_wf_ind. intros s resps -> HG.
  destruct (decide (runner (ex s) = RReturned)) as [Hr|Hr].
  { exists [], s. split_and!; try done. simpl. lia. }
  destruct (gc_progress s (resps 0%nat) HG Hr) as (l & s1 & Hs & Hlt & Hl).
  destruct (ginv_step s l _ HG Hs) as (s1' & [= <-] & HG1).
  destruct (IH _ Hlt s1 (λ i, resps (S i)) eq_refl HG1) as (ls & s' & Hrun & Hret & HG' & Hlen & Hans).
  exists (l :: ls), s'. simpl. rewrite Hs. split_and!; try done; [lia|].
  intros [|i] e r; simpl; [intros [= ->]; by eapply Hl|apply Hans].
Qed.

End bench_run.

(** ** Properties *)

(** [C10] The commit benchmark does what it times. For any number of records,
    in every state the executor's thread and the batcher can reach: no step
    faults; if [run] has returned, every record has been handed to the write
    once, in the order of the tasks, and as long as no write failed the file
    holds exactly those records; and whatever the kernel answers to the
    writes, there is a schedule on which [run] does return (condition
    variables may wake spuriously in it, as they may in the program). *)
Theorem commit_bench_complete (records : nat) (s : GcState) (resps : nat → nat → option nat)
    (Hr : gc_reachable records s) (Hsmall : 8 * Z.of_nat records < W64) :
  (∀ l r, gc_step records l s = Some r → ∃ s', r = Ok s') ∧
  (runner (ex s) = RReturned →
     p_data <$> committed (wal s) = record_of <$> seq 0 records ∧
     (failed (wal s) = false → file (wal s) = concat (record_of <$> seq 0 records))) ∧
  (∃ ls s', gc_run records ls s = Some (Ok s') ∧ runner (ex s') = RReturned ∧
     ∀ i e r, ls !! i = Some (GBatcher e r) → r = resps i).
Proof.
  pose proof (gc_reachable_inv records Hsmall s Hr) as HG. split_and!.
  - intros l r Hl. destruct (ginv_step records Hsmall s l r HG Hl) as (s' & -> & _). eauto.
  - intros Hret. destruct (gc_returned records Hsmall s HG Hret) as [Hc Hd]. rewrite Hc, Hd. split; [done|].
    intros Hf. destruct (gc_wal_inv records Hsmall s HG) as (pub & det & HI).
    by rewrite (f_file _ _ (v_logged _ _ _ _ HI) Hf), Hc, Hd.
  - destruct (gc_completes records Hsmall s resps HG) as (ls & s' & Hrun & Hret & _ & _ & Hans). eauto.
Qed.

(** ** A concrete run *)

(** Two records: both tasks go to sleep, one batch, both woken. *)
Definition gc_demo_labels : list GcLabel :=
  replicate 3 GMain ++ ((λ i, GRunner (4096 * (i + 1)) false) <$> seqZ 0 19) ++
  replicate 19 (GBatcher true no_error) ++ replicate 9 (GRunner 0 false).

Definition gc_demo : GcState :=
  match gc_run 2 gc_demo_labels gc_new with Some (Ok s) => s | _ => gc_new end.

Lemma gc_run_reachable records ls s s' :
  gc_reachable records s → gc_run records ls s = Some (Ok s') → gc_reachable records s'.
Proof.
  revert s. induction ls as [|l ls IH]; simpl; intros s Hr Hs; [by simplify_eq|].
  destruct (gc_step records l s) as [[s1|]|] eqn:Hl; try done. eapply IH; [|done]. by eapply gc_reach_step.
Qed.

Lemma commit_bench_complete_witness :
  runner (ex gc_demo) = RReturned ∧ failed (wal gc_demo) = false ∧
  file (wal gc_demo) = [0; 0; 0; 0; 0; 0; 0; 0] ++ [1; 0; 0; 0; 0; 0; 0; 0].
Proof.
  assert (Hr : gc_reachable 2 gc_demo).
  { eapply (gc_run_reachable _ gc_demo_labels); [apply gc_reach_new|]. vm_compute. reflexivity. }
  assert (Hret : runner (ex gc_demo) = RReturned) by (vm_compute; reflexivity).
  assert (Hf : failed (wal gc_demo) = false) by (vm_compute; reflexivity).
  split; [exact Hret|]. split; [exact Hf|].
  exact (proj2 (proj1 (proj2 (commit_bench_complete 2 gc_demo (λ _, no_error) Hr eq_refl)) Hret) Hf).
Defined.
