(* ===== verification/DirectIo.v ===== *)
(** * DirectIo: the page-aligned read

    Models the third part of [crates/zerokv/src/executor.rs]: [AlignedBuf], the
    future [DirectIoRead], and [block_on] of it. *)

From S2P Require Import Prelude BlockOn.
Local Open Scope Z_scope.
Local Open Scope zkv_scope.

Definition ALIGN : Z := 4096.

(** [AlignedBuf]: the block and its bytes. *)
Record AlignedBuf : Type := mkBuf {
  ptr : Z;
  len : Z;
  data : bytes
}.

(** [AlignedBuf::new]; [addr] is what [alloc_zeroed] returned. *)
Definition AlignedBuf_new (addr : option Z) (len : Z) : res AlignedBuf :=
  let len := Z.land (wsub (wadd len ALIGN) 1) (wnot (ALIGN - 1)) in
  if negb (layout_from_size_align len ALIGN) then Err Panic
  else if len =? 0 then Err UB
  else
    ptr ←r or_err Abort addr;
    Ok (mkBuf ptr len (replicate (Z.to_nat len) 0)).

(** [as_slice]. *)
Definition as_slice (b : AlignedBuf) : bytes := slice (data b) 0 (len b).

(** [Drop for AlignedBuf]: the layout handed to [dealloc]. *)
Definition drop_layout (b : AlignedBuf) : res (Z * Z) :=
  if layout_from_size_align (len b) ALIGN then Ok (len b, ALIGN) else Err Panic.

Record DirectIoRead : Type := mkRead {
  dbuf : AlignedBuf;
  source : bytes;
  submitted : bool
}.

(** [DirectIoRead::new]. *)
Definition DirectIoRead_new (addr : option Z) (source : bytes) (buf_len : Z) : res DirectIoRead :=
  buf ←r AlignedBuf_new addr (Z.max buf_len (blen source));
  Ok (mkRead buf source false).

Definition ALIGN_OUT : Z := 4096.

(** [poll]: the buffer when it is ready, and how often the waker was called.
    [addr] is where the replacement buffer is allocated. *)
Definition poll (addr : option Z) (d : DirectIoRead) : res (option AlignedBuf * nat * DirectIoRead) :=
  if negb (submitted d)
  then Ok (None, 1%nat, mkRead (dbuf d) (source d) true)
  else
    let n := blen (source d) in
    if len (dbuf d) <? n then Err Panic
    else
      let out := mkBuf (ptr (dbuf d)) (len (dbuf d)) (blit (data (dbuf d)) 0 (source d)) in
      fresh ←r AlignedBuf_new addr ALIGN_OUT;
      Ok (Some out, 0%nat, mkRead fresh (source d) true).

(** [block_on] of the read with no other waker about: [None] when the thread
    parks for good. *)
Fixpoint block_on (fuel : nat) (addr : option Z) (s : BlockOn.State AlignedBuf) (d : DirectIoRead)
    : res (option (AlignedBuf * nat)) :=
  match fuel with
  | O => Err OutOfFuel
  | S fuel =>
    let continue (l : BlockOn.label AlignedBuf) (d : DirectIoRead) :=
      match BlockOn.step l s with
      | Some s' => block_on fuel addr s' d
      | None => Ok None
      end in
    match BlockOn.main s with
    | BlockOn.MReturn v => Ok (Some (v, BlockOn.polls s))
    | BlockOn.MSwap => continue BlockOn.LSwap d
    | BlockOn.MPark => continue (BlockOn.LPark false) d
    | BlockOn.MPoll =>
      r ←r poll addr d;
      let '(ready, wakes, d') := r in
      continue (BlockOn.LPoll ready wakes) d'
    end
  end.

Lemma AlignedBuf_new_ok addr n :
  0 < n ≤ 2 ^ 62 →
  ∃ k, AlignedBuf_new (Some addr) n = Ok (mkBuf addr k (replicate (Z.to_nat k) 0)) ∧
    n ≤ k < n + ALIGN ∧ k mod ALIGN = 0.
Proof.
  intros Hn. destruct (align_up_spec n 12) as [Ha Hm]; [lia|lia|unfold W64; lia|].
  change (2 ^ 12) with ALIGN in Ha, Hm. exists (align_up n ALIGN). split; [|done].
  unfold AlignedBuf_new. fold (align_up n ALIGN). set (k := align_up n ALIGN) in *.
  assert (Hl : layout_from_size_align k ALIGN = true).
  { unfold layout_from_size_align. apply andb_true_iff. split; [done|].
    apply Z.leb_le. unfold ALIGN in *. lia. }
  rewrite Hl. cbn [negb]. destruct (Z.eqb_spec k 0); [lia|]. done.
Qed.

(** Blitting a prefix over zeros leaves the zeros behind it. *)
Lemma blit_zeros n (bs : bytes) :
  (length bs ≤ n)%nat → blit (replicate n 0) 0 bs = bs ++ replicate (n - length bs) 0.
Proof. intros Hn. unfold blit. simpl. by rewrite drop_replicate. Qed.

(** A direct read completes after exactly two polls. For a request of at
    most [2^62] bytes, [new] fails only on the empty request (whose block would
    have size zero), and otherwise [block_on] of the read returns, without
    parking, the very block submitted at the first poll: a whole number of
    pages, starting with the source and zero after it, freed with the layout it
    was allocated with. *)
Lemma direct_read_completes (src : bytes) (buf_len addr addr2 : Z)
    (Hlen : 0 ≤ buf_len) (Hmax : Z.max buf_len (blen src) ≤ 2 ^ 62) :
  if decide (Z.max buf_len (blen src) = 0)
  then DirectIoRead_new (Some addr) src buf_len = Err UB
  else ∃ d out, DirectIoRead_new (Some addr) src buf_len = Ok d ∧
    block_on 6 (Some addr2) BlockOn.start d = Ok (Some (out, 2%nat)) ∧
    ptr out = addr ∧ len out mod ALIGN = 0 ∧
    Z.max buf_len (blen src) ≤ len out < Z.max buf_len (blen src) + ALIGN ∧
    as_slice out = src ++ replicate (Z.to_nat (len out) - length src) 0 ∧
    drop_layout out = Ok (len out, ALIGN).
Proof.
  unfold DirectIoRead_new. destruct (decide _) as [->|Hne]; [done|].
  destruct (AlignedBuf_new_ok addr (Z.max buf_len (blen src))) as (k & Hnew & Hk & Hm); [lia|].
  destruct (AlignedBuf_new_ok addr2 ALIGN_OUT) as (k2 & Hnew2 & _); [unfold ALIGN_OUT; lia|].
  rewrite Hnew. cbn [rbind]. eexists. eexists. split; [reflexivity|].
  split.
  { cbn -[AlignedBuf_new]. destruct (Z.ltb_spec k (blen src)); [lia|].
    rewrite Hnew2. cbn -[AlignedBuf_new]. reflexivity. }
  cbn [ptr len]. split; [done|]. split; [done|]. split; [done|]. split.
  - unfold as_slice. cbn [data len]. rewrite blit_zeros by lia.
    unfold slice. rewrite drop_0, take_ge; [done|].
    rewrite length_app, length_replicate. lia.
  - unfold drop_layout, layout_from_size_align. cbn [len].
    destruct (Z.leb_spec k (2 ^ 63 - ALIGN)); [done|unfold ALIGN in *; lia].
Qed.

Lemma direct_read_completes_witness :
  ∃ d out, DirectIoRead_new (Some 8192) [1; 2; 3] 100 = Ok d ∧
    block_on 6 (Some 16384) BlockOn.start d = Ok (Some (out, 2%nat)) ∧ len out mod ALIGN = 0.
Proof.
  destruct (direct_read_completes [1; 2; 3] 100 8192 16384 ltac:(lia) ltac:(simpl; lia))
    as (d & out & H1 & H2 & _ & H3 & _).
  by exists d, out.
Defined.
