(* ===== verification/Derive.v ===== *)
(** * Derive: the ZeroCopy derive macro and the Pod types

    Models [crates/zerokv-derive/src/lib.rs] and the [Pod]/[ZeroCopy] traits of
    [crates/zerokv/src/zerocopy.rs]: which inputs the macro and the guards it
    emits accept, and the [encode], [decode] and [view] it generates. Where a
    field lies in the struct is the compiler's choice: the layout is an
    argument, constrained only by what the Rust reference promises of every
    representation (fields lie inside the struct and do not overlap). *)

From stdpp Require Import strings.
From S2P Require Import Prelude.
Local Open Scope nat_scope.
Local Open Scope zkv_scope.

(** ** Types *)

(** The types of [impl_pod!]. *)
Inductive prim : Type :=
| U8 | U16 | U32 | U64 | U128 | Usize
| I8 | I16 | I32 | I64 | I128 | Isize
| F32 | F64.

Definition prim_size (p : prim) : nat :=
  match p with
  | U8 | I8 => 1
  | U16 | I16 => 2
  | U32 | I32 | F32 => 4
  | U64 | I64 | Usize | Isize | F64 => 8
  | U128 | I128 => 16
  end.

(** A field type. [TOther] is a type without a [Pod] instance, with its size,
    its alignment and its valid bit patterns. *)
Inductive ty : Type :=
| TPrim (p : prim)
| TArray (t : ty) (n : nat)
| TOther (size align : nat) (valid : bytes → bool).

Fixpoint size_of (t : ty) : nat :=
  match t with
  | TPrim p => prim_size p
  | TArray t n => n * size_of t
  | TOther size _ _ => size
  end.

(** 64-bit targets align a primitive to its size. *)
Fixpoint align_of (t : ty) : nat :=
  match t with
  | TPrim p => prim_size p
  | TArray t _ => align_of t
  | TOther _ align _ => align
  end.

(** The instances of [Pod] in [zerocopy.rs]. An [unsafe impl Pod] in a
    client crate is code outside the repository; its type is a [TOther]. *)
Fixpoint is_pod (t : ty) : bool :=
  match t with
  | TPrim _ => true
  | TArray t _ => is_pod t
  | TOther _ _ _ => false
  end.

(** Which bytes are a value of the type: all of the right length for the
    primitives, element by element for an array. *)
Fixpoint valid_bits (t : ty) (bs : bytes) : bool :=
  match t with
  | TPrim p => length bs =? prim_size p
  | TArray t n =>
    (length bs =? n * size_of t)
    && forallb (λ i, valid_bits t (take (size_of t) (drop (i * size_of t) bs))) (seq 0 n)
  | TOther size _ valid => (length bs =? size) && valid bs
  end.

(** ** The macro *)

Inductive Fields : Type :=
| Named (named : list (string * ty))
| Unnamed (unnamed : list ty)
| Unit.

Inductive Data : Type :=
| Struct (fields : Fields)
| Enum
| Union.

(** [DeriveInput]: [generics] says whether the type has parameters, [packed]
    is the [N] of [repr(packed(N))]. *)
Record DeriveInput : Type := mkInput {
  generics : bool;
  packed : option nat;
  data : Data
}.

(** The compiler's layout of the type. *)
Record Layout : Type := mkLayout {
  size : nat;
  align : nat;
  offsets : list nat
}.

Inductive CompileError : Type :=
| OnlyStructs
| ParameterNotInScope
| NotPod (field : nat)
| HasPadding
| PackedReference (field : nat).

(** The type of every field. *)
Definition field_tys (fields : Fields) : list ty :=
  match fields with
  | Named n => n.*2
  | Unnamed u => u
  | Unit => []
  end.

(** [0 + size_of::<T0>() + ...]. *)
Definition size_sum (ts : list ty) : nat := foldl (λ acc t, acc + size_of t) 0 ts.

(** The fields an emitted item is rejected for. *)
Fixpoint failing (ok : ty → bool) (i : nat) (ts : list ty) : list nat :=
  match ts with
  | [] => []
  | t :: ts => (if ok t then [] else [i]) ++ failing ok (S i) ts
  end.

(** A reference to a field of a packed struct is refused by the compiler
    unless the field needs no more alignment than the packing. *)
Definition reference_ok (pk : option nat) (t : ty) : bool :=
  match pk with
  | None => true
  | Some k => align_of t <=? k
  end.

(** [derive_zero_copy] and the compilation of what it expands to: the errors
    among its guards. The items the macro emits outside the [impl] name the
    type with its parameters, which are not in scope there; the last one
    borrows every field. *)
Definition derive_zero_copy (ast : DeriveInput) (l : Layout) : list CompileError :=
  match data ast with
  | Enum | Union => [OnlyStructs]
  | Struct fields =>
    let ts := field_tys fields in
    if generics ast then [ParameterNotInScope]
    else
      (NotPod <$> failing is_pod 0 ts)
      ++ (if size l =? size_sum ts then [] else [HasPadding])
      ++ (PackedReference <$> failing (reference_ok (packed ast)) 0 ts)
  end.

(** ** The generated implementation *)

(** The bytes of a struct in memory: those of its fields at their offsets,
    uninitialised elsewhere. *)
Fixpoint byte_at (fs : list (nat * bytes)) (i : nat) : option Z :=
  match fs with
  | [] => None
  | (off, bs) :: fs =>
    if (off <=? i) && (i <? off + length bs) then bs !! (i - off) else byte_at fs i
  end.

Definition SERIALIZED_SIZE (l : Layout) : nat := size l.

Definition self_bytes (l : Layout) (vals : list bytes) : list (option Z) :=
  byte_at (zip (offsets l) vals) <$> seq 0 (size l).

(** [encode]: an uninitialised byte must not reach [dst]. *)
Definition encode (l : Layout) (vals : list bytes) (dst : bytes) : res bytes :=
  if length dst <? SERIALIZED_SIZE l then Err Panic
  else
    match mapM (M := option) id (self_bytes l vals) with
    | Some bs => Ok (bs ++ drop (SERIALIZED_SIZE l) dst)
    | None => Err UB
    end.

(** The field values a block of memory holds; bytes that are no value of the
    field's type are undefined behaviour. *)
Definition read_fields (ts : list ty) (l : Layout) (mem : bytes) : res (list bytes) :=
  let vals := zip_with (λ off t, take (size_of t) (drop off mem)) (offsets l) ts in
  if forallb (λ tv, valid_bits tv.1 tv.2) (zip ts vals) then Ok vals else Err UB.

(** [decode]. *)
Definition decode (ts : list ty) (l : Layout) (src : bytes) : res (list bytes) :=
  if length src <? SERIALIZED_SIZE l then Err Panic
  else read_fields ts l (take (SERIALIZED_SIZE l) src).

(** [view]: [ptr] is the address of [src]. *)
Definition view (ts : list ty) (l : Layout) (ptr : nat) (src : bytes) : res (option (list bytes)) :=
  if length src <? SERIALIZED_SIZE l then Ok None
  else if negb (ptr mod align l =? 0) then Ok None
  else
    vals ←r read_fields ts l (take (SERIALIZED_SIZE l) src);
    Ok (Some vals).

(** ** What the compiler promises of a layout *)

Definition inside (off sz i : nat) : Prop := off ≤ i < off + sz.

Record layout_ok (ts : list ty) (l : Layout) : Prop := mkLayoutOk {
  l_len : length (offsets l) = length ts;
  l_fit : ∀ k off t, offsets l !! k = Some off → ts !! k = Some t → off + size_of t ≤ size l;
  l_disj : ∀ j k off off' t t' i, offsets l !! j = Some off → ts !! j = Some t →
    offsets l !! k = Some off' → ts !! k = Some t' →
    inside off (size_of t) i → inside off' (size_of t') i → j = k
}.

(** Byte [i] belongs to a field. *)
Definition covered (ts : list ty) (l : Layout) (i : nat) : Prop :=
  ∃ k off t, offsets l !! k = Some off ∧ ts !! k = Some t ∧ inside off (size_of t) i.

(** A struct value: one value of its type per field. *)
Definition value_ok (ts : list ty) (vals : list bytes) : Prop :=
  Forall2 (λ t v, valid_bits t v = true) ts vals.

(** ** Coverage by counting *)

Definition region (offs : list nat) (ts : list ty) : list nat :=
  concat (zip_with (λ off t, seq off (size_of t)) offs ts).

Definition total (ts : list ty) : nat := sum_list (size_of <$> ts).

Lemma size_sum_total ts : size_sum ts = total ts.
Proof.
  unfold size_sum, total.
  assert (∀ acc, foldl (λ acc t, acc + size_of t) acc ts = acc + sum_list (size_of <$> ts)) as H.
  { induction ts as [|t ts IH]; intros acc; csimpl; [lia|]. rewrite IH. lia. }
  apply H.
Qed.

Lemma region_length offs ts : length offs = length ts → length (region offs ts) = total ts.
Proof.
  revert ts. induction offs as [|off offs IH]; intros [|t ts] Hl; simplify_eq/=; [done|].
  unfold region, total in *. csimpl. rewrite length_app, length_seq, IH by done. done.
Qed.

Lemma region_elem offs ts i :
  i ∈ region offs ts ↔
  ∃ k off t, offs !! k = Some off ∧ ts !! k = Some t ∧ inside off (size_of t) i.
Proof.
  revert ts. induction offs as [|off offs IH]; intros ts.
  { unfold region. simpl. split; [intros []%elem_of_nil|]. intros (k & o & t & H & _). done. }
  destruct ts as [|t ts].
  { unfold region. simpl. split; [intros []%elem_of_nil|]. intros (k & o & t & _ & H & _). done. }
  unfold region in *. simpl. rewrite elem_of_app, IH, elem_of_seq. split.
  - intros [Hi|(k & o & t' & Ho & Ht & Hi)]; [by exists 0, off, t|by exists (S k), o, t'].
  - intros ([|k] & o & t' & Ho & Ht & Hi); simplify_eq/=; [by left|right; by exists k, o, t'].
Qed.

Lemma layout_ok_tail off offs t ts sz al :
  layout_ok (t :: ts) (mkLayout sz al (off :: offs)) → layout_ok ts (mkLayout sz al offs).
Proof.
  intros [Hl Hf Hd]. split; simpl in *.
  - by simplify_eq.
  - intros k. apply (Hf (S k)).
  - intros j k o o' u u' i H1 H2 H3 H4 H5 H6. by apply (inj S), (Hd (S j) (S k) o o' u u' i).
Qed.

Lemma region_nodup offs ts sz al : layout_ok ts (mkLayout sz al offs) → NoDup (region offs ts).
Proof.
  revert ts. induction offs as [|off offs IH]; intros [|t ts] HL; try apply NoDup_nil_2.
  pose proof (layout_ok_tail _ _ _ _ _ _ HL) as HT. unfold region. simpl. apply NoDup_app.
  split; [apply NoDup_seq|]. split; [|by apply IH].
  intros i Hi%elem_of_seq (k & o & t' & Ho & Ht & Hin)%region_elem.
  by pose proof (l_disj _ _ HL 0 (S k) off o t t' i eq_refl eq_refl Ho Ht Hi Hin).
Qed.

(** The size guard is exact: no padding if and only if the sizes add up. *)
Lemma guard_exact ts l :
  layout_ok ts l → size l = total ts ↔ ∀ i, i < size l → covered ts l i.
Proof.
  intros HL. destruct l as [sz al offs]. simpl. pose proof (region_nodup _ _ _ _ HL) as Hnd.
  pose proof (l_len _ _ HL) as Hlen. simpl in Hlen.
  assert (Hsub : ∀ i, i ∈ region offs ts → i ∈ seq 0 sz).
  { intros i (k & o & t & Ho & Ht & [Hi1 Hi2])%region_elem. apply elem_of_seq.
    pose proof (l_fit _ _ HL k o t Ho Ht). simpl in *. lia. }
  pose proof (NoDup_submseteq _ _ Hnd Hsub) as Hle. split.
  - intros Hsz i Hi. apply region_elem.
    assert (Hp : region offs ts ≡ₚ seq 0 sz).
    { apply submseteq_length_Permutation; [done|]. rewrite length_seq, region_length; lia. }
    rewrite Hp. apply elem_of_seq. lia.
  - intros Hc. apply submseteq_length in Hle. rewrite length_seq, region_length in Hle by done.
    assert (Hge : seq 0 sz ⊆+ region offs ts).
    { apply NoDup_submseteq; [apply NoDup_seq|]. intros i Hi%elem_of_seq.
      apply region_elem, Hc. lia. }
    apply submseteq_length in Hge. rewrite length_seq, region_length in Hge by done. lia.
Qed.

Lemma failing_nil ok i ts : failing ok i ts = [] ↔ Forall (λ t, ok t = true) ts.
Proof.
  revert i. induction ts as [|t ts IH]; intros i; simpl; [by split|].
  rewrite Forall_cons, <- (IH (S i)). destruct (ok t); simpl; naive_solver.
Qed.

(** ** The round trip *)

Lemma valid_bits_length t bs : valid_bits t bs = true → length bs = size_of t.
Proof. destruct t; simpl; rewrite ?andb_true_iff; intros H; apply Nat.eqb_eq; by destruct_and?. Qed.

Lemma pod_valid t bs : is_pod t = true → length bs = size_of t → valid_bits t bs = true.
Proof.
  revert bs. induction t as [p|t IH n|]; intros bs Hp Hl; simpl in *; [by apply Nat.eqb_eq| |done].
  apply andb_true_iff. split; [by apply Nat.eqb_eq|]. apply forallb_forall.
  intros i Hi%in_seq. apply IH; [done|]. rewrite length_take, length_drop. nia.
Qed.

Lemma byte_at_field offs vals ts sz al k off t v i :
  layout_ok ts (mkLayout sz al offs) → Forall2 (λ t v, length v = size_of t) ts vals →
  offs !! k = Some off → ts !! k = Some t → vals !! k = Some v → inside off (size_of t) i →
  byte_at (zip offs vals) i = v !! (i - off).
Proof.
  intros HL Hv. revert offs k HL. induction Hv as [|t0 v0 ts vals Hl0 Hv IH]; intros offs k HL Ho Ht Hvk Hi;
    [done|].
  destruct offs as [|off0 offs]; [done|]. simpl. destruct k as [|k]; simplify_eq/=.
  - destruct Hi as [Hi1 Hi2]. rewrite (proj2 (Nat.leb_le off i)) by done.
    rewrite (proj2 (Nat.ltb_lt i (off + length v))) by lia. done.
  - destruct (off0 <=? i) eqn:H1, (i <? off0 + length v0) eqn:H2; simpl;
      try (eapply IH; try done; by eapply layout_ok_tail).
    apply Nat.leb_le in H1. apply Nat.ltb_lt in H2.
    pose proof (l_disj _ _ HL 0 (S k) off0 off t0 t i eq_refl eq_refl Ho Ht) as Hd.
    discriminate Hd; [|done]. split; lia.
Qed.

Section RoundTrip.
Context (ts : list ty) (l : Layout).
Hypothesis HL : layout_ok ts l.
Hypothesis Hcov : ∀ i, i < size l → covered ts l i.

Lemma self_bytes_init vals :
  Forall2 (λ t v, length v = size_of t) ts vals →
  ∃ bs, mapM (M := option) id (self_bytes l vals) = Some bs ∧ length bs = size l ∧
    ∀ k off t v i, offsets l !! k = Some off → ts !! k = Some t → vals !! k = Some v →
      inside off (size_of t) i → bs !! i = v !! (i - off).
Proof.
  intros Hv. destruct l as [sz al offs] eqn:El.
  assert (Hsome : is_Some (mapM (M := option) id (self_bytes (mkLayout sz al offs) vals))).
  { apply mapM_is_Some. unfold self_bytes. apply Forall_fmap, Forall_forall. intros i Hi%elem_of_seq.
    destruct (Hcov i) as (k & off & t & Ho & Ht & Hin); [simpl in *; lia|].
    destruct (Forall2_lookup_l _ _ _ _ _ Hv Ht) as (v & Hvk & Hlv). unfold compose, id. simpl.
    rewrite (byte_at_field offs vals ts sz al k off t v i) by done.
    apply lookup_lt_is_Some_2. destruct Hin. lia. }
  destruct Hsome as [bs Hbs]. exists bs. split; [done|].
  pose proof Hbs as HF. apply mapM_Some_1 in HF.
  assert (Hlen : length bs = sz).
  { apply Forall2_length in HF. unfold self_bytes in HF. by rewrite length_fmap, length_seq in HF. }
  split; [done|]. intros k off t v i Ho Ht Hvk Hin. simpl in Ho.
  pose proof (l_fit _ _ HL k off t Ho Ht) as Hfit. simpl in Hfit.
  destruct (lookup_lt_is_Some_2 bs i) as [b Hb]; [destruct Hin; lia|].
  destruct (Forall2_lookup_r _ _ _ _ _ HF Hb) as (x & Hx & Hid). unfold self_bytes in Hx.
  apply list_lookup_fmap_Some in Hx as (i' & -> & [-> Hlt]%lookup_seq).
  rewrite Hb. unfold id in Hid. simpl in Hid. rewrite <- Hid.
  by apply (byte_at_field offs vals ts sz al k off t v).
Qed.

Lemma field_slice (bs : bytes) off t (v : bytes) :
  off + size_of t ≤ length bs → length v = size_of t →
  (∀ i, inside off (size_of t) i → bs !! i = v !! (i - off)) →
  take (size_of t) (drop off bs) = v.
Proof.
  intros Hfit Hl H. apply list_eq. intros j. destruct (decide (j < size_of t)) as [Hj|Hj].
  - rewrite lookup_take_lt, lookup_drop by done. rewrite H by (unfold inside; lia). f_equal. lia.
  - rewrite lookup_take_ge by lia. symmetry. apply lookup_ge_None. lia.
Qed.

(** Reading the fields of a full block; on plain old data it cannot fail. *)
Lemma read_fields_pod mem :
  Forall (λ t, is_pod t = true) ts → length mem = size l →
  ∃ vals, read_fields ts l mem = Ok vals ∧ value_ok ts vals ∧
    ∀ k off t v, offsets l !! k = Some off → ts !! k = Some t → vals !! k = Some v →
      v = take (size_of t) (drop off mem).
Proof.
  intros Hpod Hlen. unfold read_fields.
  set (vals := zip_with (λ off t, take (size_of t) (drop off mem)) (offsets l) ts).
  assert (Hval : value_ok ts vals).
  { pose proof (l_len _ _ HL). apply Forall2_lookup. intros k.
    destruct (ts !! k) as [t|] eqn:Ht.
    - destruct (lookup_lt_is_Some_2 (offsets l) k) as [off Ho]; [apply lookup_lt_Some in Ht; lia|].
      assert (vals !! k = Some (take (size_of t) (drop off mem))) as ->.
      { apply lookup_zip_with_Some. by exists off, t. }
      constructor. apply pod_valid; [by eapply Forall_lookup_1 in Hpod|].
      pose proof (l_fit _ _ HL k off t Ho Ht). rewrite length_take, length_drop. lia.
    - assert (vals !! k = None) as ->; [|constructor]. apply lookup_ge_None in Ht.
      apply lookup_ge_None. unfold vals. rewrite length_zip_with. lia. }
  exists vals. split; [|split; [done|]].
  - assert (forallb (λ tv, valid_bits tv.1 tv.2) (zip ts vals) = true) as ->; [|done].
    apply forallb_forall. intros [t v] [k Hk]%list_elem_of_In%list_elem_of_lookup.
    apply lookup_zip_with_Some in Hk as (t' & v' & [= -> ->] & Ht & Hv).
    by apply (Forall2_lookup_lr _ _ _ _ _ _ Hval Ht Hv).
  - intros k off t v Ho Ht Hv. apply lookup_zip_with_Some in Hv as (o & t' & -> & Ho' & Ht').
    by simplify_eq.
Qed.

Lemma value_ok_length vals : value_ok ts vals → Forall2 (λ t v, length v = size_of t) ts vals.
Proof. intros H. eapply Forall2_impl; [exact H|]. intros t v. apply valid_bits_length. Qed.

Lemma decode_encoded vals bs rest :
  value_ok ts vals → mapM (M := option) id (self_bytes l vals) = Some bs →
  decode ts l (bs ++ rest) = Ok vals.
Proof.
  intros Hv Hbs. destruct (self_bytes_init vals (value_ok_length vals Hv)) as (bs' & Hbs' & Hlen & Hat).
  rewrite Hbs in Hbs'. injection Hbs' as <-. unfold decode, SERIALIZED_SIZE.
  rewrite length_app, (proj2 (Nat.ltb_ge _ _)) by lia. rewrite <- Hlen, take_app_length.
  unfold read_fields.
  assert (zip_with (λ off t, take (size_of t) (drop off bs)) (offsets l) ts = vals) as ->.
  { pose proof (l_len _ _ HL). pose proof (Forall2_length _ _ _ Hv) as Hl. apply list_eq. intros k.
    destruct (vals !! k) as [v|] eqn:Hvk.
    - destruct (Forall2_lookup_r _ _ _ _ _ Hv Hvk) as (t & Ht & Hvb).
      destruct (lookup_lt_is_Some_2 (offsets l) k) as [off Ho]; [apply lookup_lt_Some in Ht; lia|].
      apply lookup_zip_with_Some. exists off, t. split; [|done]. symmetry. apply field_slice.
      + rewrite Hlen. by eapply l_fit.
      + by apply valid_bits_length.
      + intros i Hi. by eapply Hat.
    - apply lookup_ge_None in Hvk. apply lookup_ge_None. rewrite length_zip_with. lia. }
  assert (forallb (λ tv, valid_bits tv.1 tv.2) (zip ts vals) = true) as ->; [|done].
  apply forallb_forall. intros [t v] [k Hk]%list_elem_of_In%list_elem_of_lookup.
  apply lookup_zip_with_Some in Hk as (t' & v' & [= -> ->] & Ht & Hvk).
  by apply (Forall2_lookup_lr _ _ _ _ _ _ Hv Ht Hvk).
Qed.

Lemma encode_decoded mem vals :
  Forall (λ t, is_pod t = true) ts → length mem = size l → read_fields ts l mem = Ok vals →
  mapM (M := option) id (self_bytes l vals) = Some mem.
Proof.
  intros Hpod Hlen Hr. destruct (read_fields_pod mem Hpod Hlen) as (vals' & Hr' & Hv & Hat).
  rewrite Hr in Hr'. injection Hr' as <-.
  destruct (self_bytes_init vals (value_ok_length vals Hv)) as (bs & Hbs & Hlb & Hb).
  rewrite Hbs. f_equal. apply list_eq. intros i. destruct (decide (i < size l)) as [Hi|Hi].
  - destruct (Hcov i Hi) as (k & off & t & Ho & Ht & Hin).
    destruct (Forall2_lookup_l _ _ _ _ _ Hv Ht) as (v & Hvk & _).
    rewrite (Hb k off t v i) by done. rewrite (Hat k off t v) by done. destruct Hin as [Hi1 Hi2].
    rewrite lookup_take_lt, lookup_drop by lia. f_equal. lia.
  - rewrite !(proj2 (lookup_ge_None _ _)) by lia. done.
Qed.

End RoundTrip.

Lemma fmap_is_nil {A B} (f : A → B) (k : list A) : f <$> k = [] ↔ k = [].
Proof. by destruct k. Qed.

Lemma derive_accepts fields pk l :
  layout_ok (field_tys fields) l →
  derive_zero_copy (mkInput false pk (Struct fields)) l = [] ↔
  Forall (λ t, is_pod t = true) (field_tys fields) ∧
  (∀ i, i < size l → covered (field_tys fields) l i) ∧
  Forall (λ t, reference_ok pk t = true) (field_tys fields).
Proof.
  intros HL. unfold derive_zero_copy. simpl. rewrite <- (guard_exact _ _ HL), <- size_sum_total.
  rewrite !app_nil, !fmap_is_nil, !failing_nil.
  destruct (Nat.eqb_spec (size l) (size_sum (field_tys fields))); naive_solver.
Qed.

(** [C33] The guards of the macro are exact. Whatever layout the compiler
    picks, the derive goes through if and only if the input is a struct without
    parameters whose fields are plain old data, which has no padding byte, and
    whose packing, if any, misaligns no field; so a padding byte is never
    missed, no padding-free record is refused for its layout, and a packed
    struct with a wider field is always refused. *)
Theorem derive_guards (ast : DeriveInput) (l : Layout)
    (Hlayout : ∀ fields, data ast = Struct fields → layout_ok (field_tys fields) l) :
  derive_zero_copy ast l = [] ↔
  ∃ fields, data ast = Struct fields ∧ generics ast = false ∧
    Forall (λ t, is_pod t = true) (field_tys fields) ∧
    (∀ i, i < size l → covered (field_tys fields) l i) ∧
    (∀ k, packed ast = Some k → Forall (λ t, align_of t ≤ k) (field_tys fields)).
Proof.
  destruct ast as [g pk [fields| |]]; simpl in *; [|naive_solver..].
  specialize (Hlayout fields eq_refl). destruct g.
  { unfold derive_zero_copy. simpl. naive_solver. }
  rewrite derive_accepts by done. split.
  - intros (H1 & H2 & H3). exists fields. split_and!; try done. intros k ->.
    eapply Forall_impl; [exact H3|]. intros t. apply Nat.leb_le.
  - intros (f & [= <-] & _ & H1 & H2 & H3). split_and!; try done. apply Forall_forall.
    intros t Ht. destruct pk as [k|]; [|done]. apply Nat.leb_le.
    by apply (proj1 (Forall_forall _ _) (H3 k eq_refl)).
Qed.

(** [C34] The generated code of an accepted record is sound and lossless on
    every layout: [encode] into a buffer that is long enough never touches an
    uninitialised byte, writes exactly [SERIALIZED_SIZE] bytes and [decode]
    recovers the record; any [SERIALIZED_SIZE] bytes decode to a record that
    encodes back to them; [view] returns the same record as [decode] exactly
    when the slice is long enough and aligned, and [None] otherwise; a short
    buffer panics in [encode] and [decode]. *)
Theorem derive_roundtrip (fields : Fields) (pk : option nat) (l : Layout)
    (Hlayout : layout_ok (field_tys fields) l)
    (Hderive : derive_zero_copy (mkInput false pk (Struct fields)) l = []) :
  let ts := field_tys fields in
  let n := SERIALIZED_SIZE l in
  (∀ vals dst, value_ok ts vals → n ≤ length dst →
     ∃ bs, encode l vals dst = Ok (bs ++ drop n dst) ∧ length bs = n ∧
       decode ts l (bs ++ drop n dst) = Ok vals) ∧
  (∀ src dst, n ≤ length src → n ≤ length dst →
     ∃ vals, decode ts l src = Ok vals ∧ value_ok ts vals ∧
       encode l vals dst = Ok (take n src ++ drop n dst)) ∧
  (∀ ptr src, view ts l ptr src =
     if decide (n ≤ length src ∧ ptr mod align l = 0)
     then vals ←r decode ts l src; Ok (Some vals) else Ok None) ∧
  (∀ vals b, length b < n → encode l vals b = Err Panic ∧ decode ts l b = Err Panic).
Proof.
  intros ts n. apply (derive_accepts fields pk l Hlayout) in Hderive as (Hpod & Hcov & _).
  fold ts in Hlayout, Hpod, Hcov. split_and!.
  - intros vals dst Hv Hdst.
    destruct (self_bytes_init ts l Hlayout Hcov vals (value_ok_length ts vals Hv)) as (bs & Hbs & Hlen & _).
    exists bs. unfold encode. rewrite (proj2 (Nat.ltb_ge _ _)), Hbs by done.
    split_and!; [done|done|]. by eapply decode_encoded.
  - intros src dst Hsrc Hdst.
    assert (Hl : length (take n src) = size l) by (rewrite length_take; unfold n, SERIALIZED_SIZE in *; lia).
    destruct (read_fields_pod ts l Hlayout (take n src) Hpod Hl) as (vals & Hr & Hv & _).
    exists vals. unfold decode, encode. rewrite !(proj2 (Nat.ltb_ge _ _)) by done. fold n.
    split_and!; [done|done|]. by rewrite (encode_decoded ts l Hlayout Hcov (take n src) vals Hpod Hl Hr).
  - intros ptr src. unfold view, decode. fold n. destruct (Nat.ltb_spec (length src) n).
    { rewrite decide_False by lia. done. }
    destruct (Nat.eqb_spec (ptr mod align l) 0); simpl; case_decide; tauto || done.
  - intros vals b Hb. unfold encode, decode. fold n. by rewrite (proj2 (Nat.ltb_lt _ _)).
Qed.

(** [Trade] of the demo and the tests, laid out by [repr(C)]. *)
Definition trade : Fields :=
  Named [("id"%string, TPrim U64); ("price"%string, TPrim U64);
         ("qty"%string, TPrim U32); ("side"%string, TPrim U32)].
Definition trade_layout : Layout := mkLayout 24 8 [0; 8; 16; 20].

Lemma trade_layout_ok : layout_ok (field_tys trade) trade_layout.
Proof.
  split; [done| |].
  - intros [|[|[|[|k]]]] off t Ho Ht; simplify_eq/=; lia.
  - intros [|[|[|[|j]]]] [|[|[|[|k]]]] off off' t t' i Ho Ht Ho' Ht' [] []; simplify_eq/=; (done || lia).
Qed.

Lemma derive_guards_witness :
  ∃ fields, data (mkInput false None (Struct trade)) = Struct fields ∧
    ∀ i, i < 24 → covered (field_tys fields) trade_layout i.
Proof.
  destruct (proj1 (derive_guards (mkInput false None (Struct trade)) trade_layout
    (λ fields H, match H with eq_refl => trade_layout_ok end)) eq_refl) as (f & Hf & _ & _ & Hc & _).
  by exists f.
Defined.

Lemma derive_roundtrip_witness :
  ∃ vals, decode (field_tys trade) trade_layout (replicate 24 7%Z) = Ok vals ∧
    encode trade_layout vals (replicate 24 0%Z) = Ok (replicate 24 7%Z).
Proof.
  destruct (derive_roundtrip trade None trade_layout trade_layout_ok eq_refl) as (_ & H & _).
  destruct (H (replicate 24 7%Z) (replicate 24 0%Z)) as (vals & Hd & _ & He); [simpl; lia..|].
  by exists vals.
Defined.
