(* ===== verification/Bench.v ===== *)
(** * Bench: the demo and benchmark binary

    Models [crates/zerokv/src/main.rs]: the argument defaults, the keys, the
    operations every benchmark thread issues, the threads of a [scoped] call in
    any order of their operations, and the two functional demos. An index is
    taken through the [Index] interface, so one operation is one step. What the
    clock reads is in [Latency]. *)

From S2P Require Import Derive Prelude Index Shard MmapLog Store.
Local Open Scope Z_scope.
Local Open Scope zkv_scope.

(** ** Arguments *)

Definition digit (c : Z) : option Z :=
  if (48 <=? c) && (c <=? 57) then Some (c - 48) else None.

Fixpoint parse_digits (acc : Z) (s : bytes) : option Z :=
  match s with
  | [] => Some acc
  | c :: s =>
    d ← digit c;
    let acc := acc * 10 + d in
    if acc <? W64 then parse_digits acc s else None
  end.

(** [str::parse::<usize>().ok()]: digits after an optional plus sign. *)
Definition parse_usize (s : bytes) : option Z :=
  match s with
  | [] => None
  | c :: s' =>
    if c =? 43 then (if decide (s' = []) then None else parse_digits 0 s')
    else parse_digits 0 s
  end.

(** The command line without the program name: [threads] and [per_thread].
    [cores] is what [available_parallelism] answered. *)
Definition config (args : list bytes) (cores : option Z) : Z * Z :=
  (default (default 4 cores) (head args ≫= parse_usize),
   default 1000000 (args !! 1%nat ≫= parse_usize)).

(** [threads * per_thread] and the number of shards. *)
Definition total (threads per_thread : Z) : Z := wmul threads per_thread.
Definition main_shards (threads : Z) : Z :=
  Z.max (wrap64 (next_power_of_two (wmul threads 8))) 32.

(** ** Threads *)

(** [key]. *)
Definition key (t i per_thread : Z) : bytes := to_le_bytes 8 (wadd (wmul t per_thread) i).

(** [scoped(threads, f)] spawns one thread per index and joins them all. *)
Definition scoped {A} (threads : Z) (f : Z → A) : list A := f <$> seqZ 0 threads.

(** One order of the operations of the spawned threads: [sched] names the
    thread that moves; [None] when a thread is not there, has nothing left, or
    is not done at the join. *)
Fixpoint weave {A} (sched : list nat) (ps : list (list A)) : option (list (nat * A)) :=
  match sched with
  | [] => if forallb (λ p, match p with [] => true | _ => false end) ps then Some [] else None
  | i :: sched =>
    match ps !! i with
    | Some (x :: p) => cons (i, x) <$> weave sched (<[i := p]> ps)
    | _ => None
    end
  end.

(** ** What the threads do *)

Definition bench_writes (threads per_thread : Z) : list (list op) :=
  scoped threads (λ t, (λ i, let k := key t i per_thread in Put k k) <$> seqZ 0 per_thread).

Definition bench_reads_owned (threads per_thread : Z) : list (list op) :=
  scoped threads (λ t, (λ i, Get (key t i per_thread)) <$> seqZ 0 per_thread).

Definition bench_reads_zerocopy (threads per_thread : Z) : list (list op) :=
  scoped threads (λ t, (λ i, Get (key t i per_thread)) <$> seqZ 0 per_thread).

(** [acc = acc.wrapping_add(v.len())] over what the reads of a thread returned. *)
Definition acc_of (outs : list out) : Z :=
  foldl (λ acc o, match o with OBytes (Some v) => wadd acc (blen v) | _ => acc end) 0 outs.

(** [bench_mixed]: the generator of thread [t] and its next state. *)
Definition mixed_seed (t : Z) : Z :=
  Z.lxor 0x9E3779B97F4A7C15 (wmul (wadd t 1) 0xD1B54A32D192ED03).
Definition mixed_next (rng : Z) : Z :=
  let rng := Z.lxor rng (wshl rng 13) in
  let rng := Z.lxor rng (Z.shiftr rng 7) in
  Z.lxor rng (wshl rng 17).
Definition mixed_write (rng : Z) : bool := Z.land rng 9 =? 9.

Fixpoint mixed_loop (t per_thread : Z) (n : nat) (rng : Z) : list op :=
  match n with
  | O => []
  | S n =>
    let rng := mixed_next rng in
    let k := key t (rng mod per_thread) per_thread in
    (if mixed_write rng then Put k k else Get k) :: mixed_loop t per_thread n rng
  end.

Definition bench_mixed (threads per_thread : Z) : list (list op) :=
  scoped threads (λ t, mixed_loop t per_thread (Z.to_nat per_thread) (mixed_seed t)).

(** The lookups of [latency_percentiles], by one thread. *)
Definition latency_reads (samples : Z) : list op :=
  (λ i, Get (key 0 i samples)) <$> seqZ 0 samples.

(** The phases of [main] on its sharded index. *)
Definition main_phases (threads per_thread : Z) : list (list (list op)) :=
  [bench_writes threads per_thread;
   bench_reads_owned threads per_thread;
   bench_reads_zerocopy threads per_thread;
   bench_mixed threads per_thread;
   [latency_reads (Z.min (total threads per_thread) 2000000)]].

(** The hot index: 50000 keys in 256 shards, filled by the main thread. *)
Definition hot_n : Z := 50000.
Definition hot_fill : list op :=
  (λ i, let k := to_le_bytes 8 i in Put k k) <$> seqZ 0 hot_n.

(** [shared_nothing_ab] on the shared index: the writes are those of
    [bench_writes]; the reads stride over the whole key space. *)
Definition shared_reads (n per_thread : Z) : list (list op) :=
  scoped n (λ t, (λ i, Get (to_le_bytes 8
    (wadd (wmul t 7919) (wmul i 104729) mod total n per_thread))) <$> seqZ 0 per_thread).

(** On the lists of their own: what a thread does on its list. *)
Definition local_writes (per_thread : Z) : list op :=
  (λ i, let k := to_le_bytes 8 i in Put k k) <$> seqZ 0 per_thread.
Definition local_reads (per_thread : Z) : list op :=
  (λ i, Get (to_le_bytes 8 (wmul i 2654435761 mod per_thread))) <$> seqZ 0 per_thread.

(** ** The demos *)

Section demo.
Context {T : Type} `{!Index T}.

(** [functional_demo]: the calls in order, and the lines it prints, one per
    lookup and one for the length. *)
Definition demo_calls : list op :=
  let user1 := [117; 115; 101; 114; 58; 49] in
  let user2 := [117; 115; 101; 114; 58; 50] in
  [Put user1 [97; 108; 105; 99; 101]; Put user2 [98; 111; 98]; Get user1;
   Put user1 [97; 108; 105; 99; 101; 45; 118; 50]; Get user1; Del user2; Get user2; Len].

Definition functional_demo (build : nat → Z → res T) : res (list out) :=
  t ←r ShardedIndex_new build 8 1024;
  '(outs, _) ←r store_ops demo_calls (in_memory t);
  Ok (omap (λ o, match o with OBool _ => None | _ => Some o end) outs).

End demo.

(** [derive_demo]: the size it prints and whether the view equals the record.
    [ptr] is where the stack holds the byte array, whose alignment is 1. *)
Definition derive_demo (ptr : nat) : res (nat * bool) :=
  let t := [to_le_bytes 8 7; to_le_bytes 8 10125; to_le_bytes 4 50; to_le_bytes 4 1] in
  buf ←r Derive.encode trade_layout t (replicate (SERIALIZED_SIZE trade_layout) 0);
  v ←r view (field_tys trade) trade_layout ptr buf;
  v ←r or_err Panic v;
  Ok (SERIALIZED_SIZE trade_layout, bool_decide (v = t)).

(** ** Weaving *)

Lemma weave_perm {A} (sched : list nat) : ∀ (ps : list (list A)) w,
  weave sched ps = Some w → w.*2 ≡ₚ concat ps.
Proof.
  induction sched as [|i sched IH]; intros ps w Hw; simpl in Hw.
  - destruct (forallb _ ps) eqn:E; simplify_eq. simpl.
    assert (concat ps = []) as ->; [|done].
    apply concat_nil_Forall, Forall_forall. intros p Hp.
    rewrite forallb_forall in E. specialize (E p (proj1 (list_elem_of_In _ _) Hp)). by destruct p.
  - destruct (ps !! i) as [[|x p]|] eqn:E; try done.
    apply fmap_Some in Hw as (w' & Hw & ->). apply IH in Hw. csimpl. rewrite Hw.
    rewrite <- (take_drop_middle ps i _ E) at 2.
    rewrite insert_take_drop by (by eapply lookup_lt_Some).
    rewrite !concat_app. simpl. by rewrite Permutation_middle.
Qed.

(** The operations of one thread, in its own order. *)
Definition of_thread {A B} (j : nat) (w : list (nat * A)) (rs : list B) : list B :=
  omap (λ '((i, _), r), if decide (i = j) then Some r else None) (zip w rs).

Lemma weave_thread {A} (sched : list nat) : ∀ (ps : list (list A)) w j,
  weave sched ps = Some w → default [] (ps !! j) = of_thread j w (w.*2).
Proof.
  induction sched as [|i sched IH]; intros ps w j Hw; simpl in Hw.
  - destruct (forallb _ ps) eqn:E; simplify_eq. unfold of_thread. simpl.
    destruct (ps !! j) as [p|] eqn:Hp; [|done]. simpl. rewrite forallb_forall in E.
    specialize (E p (proj1 (list_elem_of_In _ _) (list_elem_of_lookup_2 _ _ _ Hp))). by destruct p.
  - destruct (ps !! i) as [[|x p]|] eqn:E; try done.
    apply fmap_Some in Hw as (w' & Hw & ->). specialize (IH _ _ j Hw).
    unfold of_thread in *. csimpl. case_decide as Hij.
    + subst j. rewrite E. simpl. rewrite list_lookup_insert_eq in IH by (by eapply lookup_lt_Some).
      by rewrite <- IH.
    + by rewrite list_lookup_insert_ne in IH.
Qed.

Lemma of_thread_fmap {A B C} (f : B → C) j (w : list (nat * A)) rs :
  of_thread j w (f <$> rs) = f <$> of_thread j w rs.
Proof.
  unfold of_thread. revert rs. induction w as [|[i x] w IH]; intros [|r rs]; csimpl; try done.
  rewrite IH. by case_decide.
Qed.

(** ** Writing and reading self-mapped keys on a map *)

Definition self_put (k : bytes) : op := Put k k.

(** An operation on a key that maps to itself. *)
Definition self_op (M : store_map) (o : op) : Prop :=
  ∃ k, (o = Get k ∨ o = Put k k) ∧ M !! k = Some k.

(** What such an operation returns: a hit, or an update in place. *)
Definition hit (o : op) : out :=
  match o with
  | Get k => OBytes (Some k)
  | _ => OBool false
  end.

Lemma map_ops_app os1 os2 M :
  map_ops (os1 ++ os2) M =
  (fst (map_ops os1 M) ++ fst (map_ops os2 (snd (map_ops os1 M))),
   snd (map_ops os2 (snd (map_ops os1 M)))).
Proof.
  revert M. induction os1 as [|o os1 IH]; intros M; simpl.
  - by destruct (map_ops os2 M).
  - destruct (map_op o M) as [r M1]. rewrite IH. by destruct (map_ops os1 M1).
Qed.

Lemma map_ops_hits os : ∀ M, Forall (self_op M) os → map_ops os M = (hit <$> os, M).
Proof.
  induction os as [|o os IH]; intros M Hos; simpl; [done|].
  apply Forall_cons in Hos as [(k & [->| ->] & Hk) Hos]; simpl; rewrite Hk.
  - by rewrite IH.
  - rewrite insert_id by done. by rewrite IH.
Qed.

Lemma map_ops_fills ks : ∀ M, NoDup ks → (∀ k, k ∈ ks → M !! k = None) →
  ∃ M', map_ops (self_put <$> ks) M = (replicate (length ks) (OBool true), M') ∧
    size M' = (length ks + size M)%nat ∧
    ∀ k, M' !! k = if decide (k ∈ ks) then Some k else M !! k.
Proof.
  induction ks as [|k ks IH]; intros M Hnd Hnew.
  - exists M. split_and!; [done|done|]. intros k. by rewrite decide_False by set_solver.
  - apply NoDup_cons in Hnd as [Hk Hnd]. csimpl. rewrite Hnew by set_solver. simpl.
    destruct (IH (<[k := k]> M) Hnd) as (M' & -> & Hs & HM').
    { intros k' Hk'. rewrite lookup_insert_ne by congruence. apply Hnew. set_solver. }
    exists M'. split_and!; [done| |].
    + rewrite Hs, map_size_insert_None by (apply Hnew; set_solver). lia.
    + intros k'. rewrite HM'. destruct (decide (k' = k)) as [->|Hne].
      * rewrite lookup_insert_eq, decide_False, decide_True by set_solver. done.
      * rewrite lookup_insert_ne by done. by repeat case_decide; set_solver.
Qed.

(** ** Keys *)

Lemma le8_inj x y : is_u64 x → is_u64 y → to_le_bytes 8 x = to_le_bytes 8 y → x = y.
Proof.
  intros Hx Hy H%(f_equal of_le_bytes). rewrite !of_to_le_bytes in H.
  change (256 ^ Z.of_nat 8) with W64 in H. by rewrite !Z.mod_small in H by done.
Qed.

Lemma NoDup_le8 n : n ≤ W64 → NoDup (to_le_bytes 8 <$> seqZ 0 n).
Proof.
  intros Hn. apply NoDup_fmap_2_strong; [|apply NoDup_seqZ].
  intros x y Hx%elem_of_seqZ Hy%elem_of_seqZ. apply le8_inj; unfold is_u64; lia.
Qed.

Lemma fmap_concat {A B} (f : A → B) (ls : list (list A)) :
  (f <$> concat ls : list B) = concat (((λ l : list A, f <$> l) : list A → list B) <$> ls : list (list B)).
Proof. apply concat_map. Qed.

Lemma main_shards_bound threads : 0 ≤ threads → threads * 8 ≤ 2 ^ 63 →
  main_shards threads ≤ 2 ^ 63.
Proof.
  intros Ht Hb. unfold main_shards. apply Z.max_lub; [|by compute].
  assert (wmul threads 8 = threads * 8) as -> by (apply wrap64_small; unfold is_u64, W64; lia).
  pose proof (next_power_of_two_bound (threads * 8) 63 ltac:(lia) Hb).
  pose proof (next_power_of_two_ge (threads * 8)).
  rewrite wrap64_small; unfold is_u64, W64; lia.
Qed.

Section keys.
Context (threads per_thread : Z).
Context (Ht : 0 ≤ threads) (Hp : 0 ≤ per_thread) (Hfit : threads * per_thread < W64).

Lemma total_fits : total threads per_thread = threads * per_thread.
Proof. apply wrap64_small. unfold is_u64. nia. Qed.

Lemma key_fits t i : 0 ≤ t < threads → 0 ≤ i < per_thread →
  key t i per_thread = to_le_bytes 8 (t * per_thread + i) ∧
  0 ≤ t * per_thread + i < threads * per_thread.
Proof.
  intros Hti Hi. assert (Hlt : t * per_thread + i < threads * per_thread) by nia.
  split; [|nia]. unfold key, wadd, wmul. unfold wrap64 at 2. rewrite Z.mod_small by nia.
  rewrite wrap64_small by (unfold is_u64; nia). done.
Qed.

(** The keys of the threads one after the other are the first [total] numbers. *)
Lemma thread_blocks (n : nat) :
  concat ((λ t, (λ i, t * per_thread + i) <$> seqZ 0 per_thread) <$> seqZ 0 (Z.of_nat n))
  = seqZ 0 (Z.of_nat n * per_thread).
Proof.
  induction n as [|n IH]; [done|].
  rewrite Nat2Z.inj_succ, <- Z.add_1_r, seqZ_app by lia.
  rewrite fmap_app, concat_app, IH. rewrite Z.mul_add_distr_r, Z.mul_1_l.
  rewrite (seqZ_app 0 (Z.of_nat n * per_thread) per_thread) by nia. f_equal.
  simpl. rewrite app_nil_r, Z.add_0_l. rewrite fmap_add_seqZ. f_equal. lia.
Qed.

Lemma bench_writes_keys :
  concat (bench_writes threads per_thread)
  = self_put <$> (to_le_bytes 8 <$> seqZ 0 (threads * per_thread)).
Proof.
  rewrite <- (Z2Nat.id threads) by done. rewrite <- thread_blocks, !fmap_concat.
  rewrite Z2Nat.id by done. f_equal. unfold bench_writes, scoped. rewrite <- !list_fmap_compose.
  apply list_fmap_ext. intros j t Ht'%list_elem_of_lookup_2%elem_of_seqZ. simpl.
  rewrite <- !list_fmap_compose. apply list_fmap_ext.
  intros l i Hi%list_elem_of_lookup_2%elem_of_seqZ. simpl.
  destruct (key_fits t i) as [-> _]; [lia..|]. done.
Qed.

(** The map that holds exactly the keys written. *)
Definition filled (n : Z) (M : store_map) : Prop :=
  ∀ k, M !! k = if decide (k ∈ to_le_bytes 8 <$> seqZ 0 n) then Some k else None.

Lemma filled_key n M x : filled n M → 0 ≤ x < n → M !! to_le_bytes 8 x = Some (to_le_bytes 8 x).
Proof.
  intros HM Hx. rewrite HM, decide_True; [done|]. apply list_elem_of_fmap_2.
  apply elem_of_seqZ. lia.
Qed.

Lemma filled_own M t i : filled (threads * per_thread) M → 0 ≤ t < threads → 0 ≤ i < per_thread →
  M !! key t i per_thread = Some (key t i per_thread).
Proof. intros HM Hti Hi. destruct (key_fits t i Hti Hi) as [-> ?]. by eapply filled_key. Qed.

(** Every operation of the later phases is on a key that was written. *)
Lemma scoped_self M (f : Z → list op) :
  (∀ t, 0 ≤ t < threads → Forall (self_op M) (f t)) → Forall (self_op M) (concat (scoped threads f)).
Proof.
  intros Hf. apply Forall_concat, Forall_fmap, Forall_forall.
  intros t Ht'%elem_of_seqZ. apply Hf. lia.
Qed.

Lemma reads_self M (g : Z → bytes) n :
  (∀ i, 0 ≤ i < n → M !! g i = Some (g i)) → Forall (self_op M) ((λ i, Get (g i)) <$> seqZ 0 n).
Proof.
  intros Hg. apply Forall_fmap, Forall_forall. intros i Hi%elem_of_seqZ. exists (g i).
  split; [by left|]. apply Hg. lia.
Qed.

Lemma mixed_self M t : filled (threads * per_thread) M → 0 ≤ t < threads → ∀ n rng,
  per_thread = 0 ∧ n = O ∨ 0 < per_thread → Forall (self_op M) (mixed_loop t per_thread n rng).
Proof.
  intros HM Hti n. induction n as [|n IH]; intros rng Hn; simpl; [constructor|].
  destruct Hn as [[]|Hn]; [done|]. constructor; [|apply IH; by right].
  set (k := key _ _ _). exists k. split; [case_match; auto|].
  apply filled_own; [done..|]. by apply Z.mod_pos_bound.
Qed.

Lemma latency_self M samples : filled (threads * per_thread) M →
  0 ≤ samples ≤ threads * per_thread → Forall (self_op M) (latency_reads samples).
Proof.
  intros HM Hs. apply (reads_self M (λ i, key 0 i samples)). intros i Hi. unfold key.
  rewrite wadd_small; unfold wmul; rewrite ?Z.mul_0_l, ?Z.add_0_l;
    [|unfold wrap64, is_u64; simpl; nia]. eapply filled_key; [done|]. unfold wrap64. simpl. lia.
Qed.

Lemma main_phases_self M : filled (threads * per_thread) M →
  Forall (λ ph, Forall (self_op M) (concat ph)) (drop 1 (main_phases threads per_thread)).
Proof.
  intros HM. unfold main_phases. simpl. repeat constructor.
  - apply scoped_self. intros t Ht'. apply reads_self. intros i Hi. by apply filled_own.
  - apply scoped_self. intros t Ht'. apply reads_self. intros i Hi. by apply filled_own.
  - apply scoped_self. intros t Ht'. apply mixed_self; [done..|]. lia.
  - simpl. rewrite app_nil_r. apply latency_self; [done|]. rewrite total_fits. nia.
Qed.

(** Whatever order the threads run in: the write phase, then phases that stay
    on the written keys. *)
Lemma phases_run (phs : list (list (list op))) (w0 : list (nat * op)) (ws : list (list (nat * op))) :
  (∀ M, filled (threads * per_thread) M → Forall (λ ph, Forall (self_op M) (concat ph)) phs) →
  w0.*2 ≡ₚ concat (bench_writes threads per_thread) →
  Forall2 (λ ph w, w.*2 ≡ₚ concat ph) phs ws →
  ∃ M, filled (threads * per_thread) M ∧ size M = Z.to_nat (threads * per_thread) ∧
    map_ops (w0.*2 ++ (concat ws).*2) ∅
    = (replicate (Z.to_nat (threads * per_thread)) (OBool true) ++ (hit <$> (concat ws).*2), M).
Proof.
  intros Hself H0 Hws. rewrite bench_writes_keys in H0.
  apply Permutation_map_inv in H0 as (ks & -> & Hks).
  assert (Hlen : length ks = Z.to_nat (threads * per_thread)).
  { rewrite <- Hks, length_fmap, length_seqZ. done. }
  destruct (map_ops_fills ks ∅) as (M & HM & Hsz & Hlk).
  { rewrite <- Hks. apply NoDup_le8. lia. }
  { intros k _. apply lookup_empty. }
  exists M. assert (Hf : filled (threads * per_thread) M).
  { intros k. rewrite Hlk, lookup_empty. apply decide_ext. by rewrite Hks. }
  split_and!; [done|rewrite Hsz, map_size_empty; lia|].
  rewrite map_ops_app. change (map self_put ks) with (self_put <$> ks). rewrite HM. simpl.
  rewrite map_ops_hits, Hlen; [done|].
  specialize (Hself M Hf). apply Forall_fmap, Forall_concat.
  revert Hself. induction Hws as [|ph w phs ws' Hp' _ IH]; intros Hself; constructor.
  - apply Forall_cons in Hself as [Hs _]. apply Forall_fmap. by rewrite Hp'.
  - apply IH. by apply Forall_cons in Hself as [_ Hs].
Qed.

(** The same on any lawful index with room for the operations. *)
Lemma phases_index {T : Type} `{!Index T, !IndexLaws T} (t : T) (phs : list (list (list op)))
    (w0 : list (nat * op)) (ws : list (list (nat * op))) :
  (∀ M, filled (threads * per_thread) M → Forall (λ ph, Forall (self_op M) (concat ph)) phs) →
  w0.*2 ≡ₚ concat (bench_writes threads per_thread) →
  Forall2 (λ ph w, w.*2 ≡ₚ concat ph) phs ws →
  idx_rep t ∅ (length (w0 ++ concat ws)) →
  ∃ t', index_ops ((w0 ++ concat ws).*2) t
        = Ok (replicate (Z.to_nat (threads * per_thread)) (OBool true)
              ++ (hit <$> (concat ws).*2), t') ∧
    idx_len t' = threads * per_thread.
Proof.
  intros Hself H0 Hws Hr. destruct (phases_run phs w0 ws Hself H0 Hws) as (M & _ & Hsz & Hrun).
  rewrite <- (length_fmap (@snd nat op)) in Hr. destruct (index_ops_ok _ t ∅ Hr) as (t' & Hops & Hr').
  rewrite fmap_app in *. rewrite Hrun in *. exists t'. split; [exact Hops|].
  rewrite (idx_len_ok _ _ _ Hr'). simpl. rewrite Hsz, Z2Nat.id by nia.
  apply wrap64_small. unfold is_u64. nia.
Qed.

Lemma acc_reads (g : Z → bytes) n : 0 ≤ n → (∀ i, length (g i) = 8%nat) →
  acc_of (hit <$> ((λ i, Get (g i)) <$> seqZ 0 n)) = wmul n 8.
Proof.
  intros Hn Hg. unfold acc_of, wmul.
  enough (∀ ix a, foldl (λ acc o, match o with OBytes (Some v) => wadd acc (blen v) | _ => acc end)
    (wrap64 a) (hit <$> ((λ i, Get (g i)) <$> ix)) = wrap64 (a + 8 * Z.of_nat (length ix))) as Hf.
  { etransitivity; [apply (Hf (seqZ 0 n) 0)|]. rewrite length_seqZ. f_equal. lia. }
  intros ix. induction ix as [|i ix IH]; intros a; csimpl; [f_equal; lia|].
  rewrite Hg, wadd_wrap_l, IH. f_equal. lia.
Qed.

Lemma zerocopy_acc sched w j :
  weave sched (bench_reads_zerocopy threads per_thread) = Some w → Z.of_nat j < threads →
  acc_of (of_thread j w (hit <$> w.*2)) = wmul per_thread 8.
Proof.
  intros Hw Hj. rewrite of_thread_fmap, <- (weave_thread _ _ _ _ Hw).
  unfold bench_reads_zerocopy, scoped. rewrite list_lookup_fmap, (lookup_seqZ_lt 0) by lia. simpl.
  apply acc_reads; [done|]. intros i. apply length_to_le_bytes.
Qed.

Lemma shared_reads_self M : filled (threads * per_thread) M →
  Forall (self_op M) (concat (shared_reads threads per_thread)).
Proof.
  intros HM. apply scoped_self. intros t Ht'.
  apply (reads_self M (λ i, to_le_bytes 8 (wadd (wmul t 7919) (wmul i 104729) mod total threads per_thread))).
  intros i Hi. eapply filled_key; [done|]. rewrite total_fits. apply Z.mod_pos_bound. nia.
Qed.

End keys.

(** One thread on its own: the writes of [local_writes] are those of a
    benchmark with one thread. *)
Lemma local_writes_keys n : 0 ≤ n < W64 → concat (bench_writes 1 n) = local_writes n.
Proof.
  intros Hn. rewrite bench_writes_keys by lia. rewrite Z.mul_1_l, <- list_fmap_compose. done.
Qed.

Lemma local_index {T : Type} `{!Index T, !IndexLaws T} (t : T) (n : Z) (rs : list op) :
  0 ≤ n < W64 → (∀ M, filled n M → Forall (self_op M) rs) →
  idx_rep t ∅ (length (local_writes n ++ rs)) →
  ∃ t', index_ops (local_writes n ++ rs) t
        = Ok (replicate (Z.to_nat n) (OBool true) ++ (hit <$> rs), t') ∧ idx_len t' = n.
Proof.
  intros Hn Hself Hr. set (tag := λ os : list op, (λ o, (0%nat, o)) <$> os).
  assert (Htag : ∀ os, (tag os).*2 = os).
  { intros os. unfold tag. rewrite <- list_fmap_compose. apply list_fmap_id. }
  destruct (phases_index 1 n ltac:(lia) ltac:(lia) ltac:(lia) t [[rs]] (tag (local_writes n)) [tag rs])
    as (t' & Hops & Hlen).
  - intros M HM. rewrite Z.mul_1_l in HM. repeat constructor. simpl. rewrite app_nil_r. by apply Hself.
  - by rewrite Htag, local_writes_keys.
  - repeat constructor. by rewrite Htag, concat_cons, app_nil_r.
  - simpl. rewrite app_nil_r. rewrite <- (length_fmap (@snd nat op)), fmap_app, !Htag. done.
  - exists t'. simpl in Hops. rewrite app_nil_r, fmap_app, !Htag, Z.mul_1_l in Hops.
    rewrite Z.mul_1_l in Hlen. done.
Qed.

Lemma local_reads_self n M : filled n M → 0 ≤ n → Forall (self_op M) (local_reads n).
Proof.
  intros HM Hn. apply (reads_self M (λ i, to_le_bytes 8 (wmul i 2654435761 mod n))).
  intros i Hi. eapply filled_key; [done|]. apply Z.mod_pos_bound. lia.
Qed.

(** ** Claims *)

(** [C38] The benchmark measures what it means to measure: for all thread and
    operation counts whose product fits a word, and in whatever order the
    threads of a phase take turns, every insert of the write phase adds a new
    key, afterwards every lookup of the owned, zero-copy, mixed and latency
    phases hits and returns the key written there, every insert of the mixed
    phase is an update, a zero-copy thread sums eight bytes per operation, and
    the index ends with exactly [total] keys. *)
Theorem bench_all_hits {T : Type} `{!Index T, !IndexLaws T} (build : nat → Z → res T)
    (threads per_thread : Z) (w0 wo wz wm wl : list (nat * op)) (s0 so sz sm sl : list nat)
    (Ht : 0 ≤ threads) (Ht' : threads * 8 ≤ 2 ^ 63) (Hp : 0 ≤ per_thread)
    (Hfit : threads * per_thread < W64)
    (Hbuild : ∀ i h, ∃ t, build i h = Ok t ∧ idx_rep t ∅ (length (w0 ++ wo ++ wz ++ wm ++ wl)))
    (Hweave : Forall2 (λ ph sw, weave (fst sw) ph = Some (snd sw)) (main_phases threads per_thread)
      [(s0, w0); (so, wo); (sz, wz); (sm, wm); (sl, wl)]) :
  ∃ t t' outs, ShardedIndex_new build (main_shards threads) (total threads per_thread) = Ok t ∧
    index_ops ((w0 ++ wo ++ wz ++ wm ++ wl).*2) t = Ok (outs, t') ∧
    outs = replicate (Z.to_nat (total threads per_thread)) (OBool true)
           ++ (hit <$> (wo ++ wz ++ wm ++ wl).*2) ∧
    idx_len t' = total threads per_thread ∧
    ∀ j, Z.of_nat j < threads →
      acc_of (of_thread j wz (hit <$> wz.*2)) = wmul per_thread 8.
Proof.
  rewrite total_fits by done. unfold main_phases in Hweave.
  repeat match goal with H : Forall2 _ (_ :: _) (_ :: _) |- _ => apply Forall2_cons in H as [? H] end.
  simpl in *.
  destruct (sharded_new_rep build (main_shards threads) (threads * per_thread) _
    (main_shards_bound threads Ht Ht') Hbuild) as (t & Hnew & Hr & _).
  destruct (phases_index threads per_thread Ht Hp Hfit t (drop 1 (main_phases threads per_thread))
    w0 [wo; wz; wm; wl]) as (t' & Hops & Hlen).
  { by apply main_phases_self. }
  { by eapply weave_perm. }
  { unfold main_phases. simpl. repeat constructor; by eapply weave_perm. }
  { simpl. rewrite app_nil_r. exact Hr. }
  simpl in Hops. rewrite app_nil_r in Hops.
  eexists t, t', _. split_and!; [exact Hnew|exact Hops|reflexivity|exact Hlen|].
  intros j Hj. eapply zerocopy_acc; done.
Qed.

(** The derive demo depends on where the stack places its byte array,
    which the language aligns to one byte only: at a multiple of eight it
    prints 24 bytes and a view equal to the record, anywhere else [view]
    answers [None] and the [unwrap] panics. *)
Lemma derive_demo_alignment (ptr : nat) :
  derive_demo ptr = if decide (ptr mod 8 = 0)%nat then Ok (24%nat, true) else Err Panic.
Proof.
  unfold derive_demo. set (t := [_; _; _; _]).
  assert (Derive.encode trade_layout t (replicate (SERIALIZED_SIZE trade_layout) 0) = Ok (concat t)) as ->
    by (vm_compute; reflexivity).
  cbn [rbind]. unfold view. change (length (concat t) <? SERIALIZED_SIZE trade_layout)%nat with false.
  change (align trade_layout) with 8%nat. cbn iota.
  destruct (Nat.eqb_spec (ptr mod 8) 0) as [He|He]; cbn [negb].
  - rewrite decide_True by done. vm_compute. reflexivity.
  - by rewrite decide_False.
Qed.

(** The functional demo prints what a map would answer: the value, its update,
    nothing for the deleted key, and one remaining key. *)
Lemma functional_demo_prints {T : Type} `{!Index T, !IndexLaws T} (build : nat → Z → res T) :
  (∀ i h, ∃ t, build i h = Ok t ∧ idx_rep t ∅ 8) →
  functional_demo build =
  Ok [OBytes (Some [97; 108; 105; 99; 101]);
      OBytes (Some [97; 108; 105; 99; 101; 45; 118; 50]); OBytes None; OLen 1].
Proof.
  intros Hb. destruct (sharded_new_rep build 8 1024 8 ltac:(by compute) Hb) as (t & Hnew & Hr & _).
  unfold functional_demo. rewrite Hnew. cbn [rbind].
  destruct (store_ops_ok demo_calls (in_memory t) ∅) as (t' & -> & _); [exact Hr|].
  vm_compute. reflexivity.
Qed.

(** The hot index: filled with its 50000 keys, every sampled read hits. *)
Lemma hot_hits {T : Type} `{!Index T, !IndexLaws T} (t : T) :
  idx_rep t ∅ (length (hot_fill ++ latency_reads hot_n)) →
  ∃ t', index_ops (hot_fill ++ latency_reads hot_n) t
    = Ok (replicate (Z.to_nat hot_n) (OBool true) ++ (hit <$> latency_reads hot_n), t') ∧
    idx_len t' = hot_n.
Proof.
  intros Hr. apply (local_index t hot_n (latency_reads hot_n)); [by compute| |exact Hr].
  intros M HM. eapply (latency_self 1 hot_n); [rewrite ?Z.mul_1_l; done || by compute..].
Qed.

(** A step of the mixed phase writes for four of the sixteen values of the low
    four bits. *)
Lemma mixed_write_share rng :
  mixed_write rng = bool_decide (rng mod 16 ∈ [9; 11; 13; 15]).
Proof.
  unfold mixed_write. replace (Z.land rng 9) with (Z.land (rng mod 16) 9).
  - pose proof (Z.mod_pos_bound rng 16 ltac:(lia)) as Hb. set (r := rng mod 16) in *.
    assert (Hr : r ∈ seqZ 0 16) by (apply elem_of_seqZ; lia). clearbody r.
    clear Hb. revert r Hr. apply Forall_forall. by repeat constructor.
  - change 16 with (2 ^ 4). rewrite <- Z.land_ones by lia. by rewrite <- Z.land_assoc.
Qed.

(** ** Witnesses *)

Definition demo_sched : list nat := [0; 1; 1; 0]%nat.

Lemma bench_all_hits_witness :
  ∃ t t' outs, ShardedIndex_new map_build (main_shards 2) (total 2 2) = Ok t ∧
    index_ops (concat ((λ ph, default [] (weave demo_sched ph)) <$> take 4 (main_phases 2 2))
               ++ default [] (weave (replicate 4 0%nat) [latency_reads 4])).*2 t = Ok (outs, t') ∧
    idx_len t' = 4 ∧ take 4 outs = replicate 4 (OBool true).
Proof.
  set (w := λ ph, default [] (weave demo_sched ph)).
  destruct (bench_all_hits map_build 2 2 (w (bench_writes 2 2)) (w (bench_reads_owned 2 2))
    (w (bench_reads_zerocopy 2 2)) (w (bench_mixed 2 2))
    (default [] (weave (replicate 4 0%nat) [latency_reads 4]))
    demo_sched demo_sched demo_sched demo_sched (replicate 4 0%nat)) as (t & t' & outs & H1 & H2 & H3 & H4 & _).
  - by compute.
  - by compute.
  - by compute.
  - by compute.
  - apply map_build_ok.
  - repeat constructor; vm_compute; reflexivity.
  - exists t, t', outs. split_and!; [exact H1|exact H2|exact H4|by rewrite H3].
Defined.
