(* ===== verification/BenchAb.v ===== *)
(** * BenchAb: the shared-nothing comparison of [main.rs]

    Models [shared_nothing_ab]: the same number of threads first work on one
    sharded index, then each on a skiplist of its own. The threads of a phase
    take turns in any order; on the lists of their own they cannot disturb each
    other, which is what the comparison is about, so the second half reduces to
    every thread running alone. Pinning a thread to a core does not touch the
    state. *)

From S2P Require Import Prelude.
From S2P Require Import Index.
From S2P Require Import Shard.
From S2P Require Import Bench.
Local Open Scope Z_scope.
Local Open Scope zkv_scope.

(** [threads.max(1)]. *)
Definition ab_threads (threads : Z) : Z := Z.max threads 1.

(** The writes on the shared index. *)
Definition shared_writes (n per_thread : Z) : list (list op) :=
  scoped n (λ t, (λ i, let k := to_le_bytes 8 (wadd (wmul t per_thread) i) in Put k k)
    <$> seqZ 0 per_thread).

Lemma of_thread_cons {A B} j i (x : A) w (r : B) rs :
  of_thread j ((i, x) :: w) (r :: rs)
  = if decide (i = j) then r :: of_thread j w rs else of_thread j w rs.
Proof. unfold of_thread. csimpl. by case_decide. Qed.

Section ab.
Context {T : Type} `{!Index T}.

(** Operations of threads that each own one list: thread [j] works on
    [local[j]]. *)
Fixpoint local_ops (w : list (nat * op)) (ls : list T) : res (list out * list T) :=
  match w with
  | [] => Ok ([], ls)
  | (j, o) :: w =>
    t ←r or_err Panic (ls !! j);
    '(r, t) ←r index_op o t;
    '(rs, ls) ←r local_ops w (<[j := t]> ls);
    Ok (r :: rs, ls)
  end.

(** What the operations of the two halves return, each with the orders
    [sw], [sr], [lw], [lr] in which the threads of its phases took turns; no
    result when one of them is not an order of all operations of its phase.
    [new_list i hint] is the [i]-th [SkipList::with_capacity_hint]. *)
Definition shared_nothing_ab (new_list : nat → Z → res T) (threads per_thread : Z) (sw sr lw lr : list nat)
    : option (res (list out * list (nat * op) * list out)) :=
  let n := ab_threads threads in
  let total := wmul n per_thread in
  ws ← weave sw (shared_writes n per_thread);
  rs ← weave sr (shared_reads n per_thread);
  wl ← weave lw (scoped n (λ _, local_writes per_thread));
  rl ← weave lr (scoped n (λ _, local_reads per_thread));
  Some (shared ←r ShardedIndex_new new_list (wrap64 (next_power_of_two n)) total;
        '(o1, _) ←r index_ops ((ws ++ rs).*2) shared;
        local ←r build_shards new_list per_thread (seq 0 (Z.to_nat n));
        '(o2, _) ←r local_ops (wl ++ rl) local;
        Ok (o1, wl ++ rl, o2)).

(** On lists of their own any interleaving is every thread alone. *)
Lemma local_ops_alone w : ∀ ls : list T,
  Forall (λ x, (x.1 < length ls)%nat) w →
  (∀ j t, ls !! j = Some t → ∃ os t', index_ops (of_thread j w (w.*2)) t = Ok (os, t')) →
  ∃ outs ls', local_ops w ls = Ok (outs, ls') ∧
    ∀ j t, ls !! j = Some t → ∃ t', ls' !! j = Some t' ∧
      index_ops (of_thread j w (w.*2)) t = Ok (of_thread j w outs, t').
Proof.
  induction w as [|[i o] w IH]; intros ls Hlt Hrun.
  { eexists _, _. split; [done|]. intros j t Ht. eauto. }
  cbn [fmap list_fmap snd] in *. setoid_rewrite of_thread_cons in Hrun. setoid_rewrite of_thread_cons.
  apply Forall_cons in Hlt as [Hi Hlt]. simpl in Hi.
  destruct (lookup_lt_is_Some_2 _ _ Hi) as [t Ht]. cbn [local_ops]. rewrite Ht. simpl.
  destruct (Hrun i t Ht) as (os & t2 & Hops). rewrite decide_True in Hops by done. simpl in Hops.
  destruct (index_op o t) as [[r t1]|] eqn:Ho; simpl in Hops; [|done].
  destruct (IH (<[i := t1]> ls)) as (outs & ls' & Hl & Hall).
  { by rewrite length_insert. }
  { intros j tj Hj. destruct (decide (i = j)) as [<-|Hne].
    - rewrite list_lookup_insert_eq in Hj by done. injection Hj as <-.
      destruct (index_ops _ t1) as [[rs t3]|]; [eauto|done].
    - rewrite list_lookup_insert_ne in Hj by done. destruct (Hrun j tj Hj) as (os' & t' & H').
      rewrite decide_False in H' by done. eauto. }
  simpl. rewrite Hl. simpl. eexists _, _. split; [done|]. intros j tj Hj. rewrite of_thread_cons.
  destruct (decide (i = j)) as [<-|Hne]; simpl.
  - rewrite Ht in Hj. injection Hj as <-. rewrite Ho. simpl.
    destruct (Hall i t1) as (t' & Ht' & ->); [by apply list_lookup_insert_eq|]. simpl. eauto.
  - destruct (Hall j tj) as (t' & Ht' & H'); [by rewrite list_lookup_insert_ne|]. eauto.
Qed.

End ab.

Lemma weave_threads {A} (sched : list nat) : ∀ (ps : list (list A)) w,
  weave sched ps = Some w → Forall (λ x, (x.1 < length ps)%nat) w.
Proof.
  induction sched as [|i sched IH]; intros ps w Hw; simpl in Hw.
  - destruct (forallb _ ps); by simplify_eq.
  - destruct (ps !! i) as [[|x p]|] eqn:E; try done. apply fmap_Some in Hw as (w' & Hw & ->).
    apply IH in Hw. rewrite length_insert in Hw. constructor; [|done]. by eapply lookup_lt_Some.
Qed.

Lemma of_thread_app {A} j (w1 w2 : list (nat * A)) :
  of_thread j (w1 ++ w2) ((w1 ++ w2).*2) = of_thread j w1 (w1.*2) ++ of_thread j w2 (w2.*2).
Proof.
  unfold of_thread. rewrite fmap_app, zip_with_app by (by rewrite length_fmap). apply omap_app.
Qed.

Lemma of_thread_length {A B} j (w : list (nat * A)) (rs : list B) : (length (of_thread j w rs) ≤ length w)%nat.
Proof.
  revert rs. induction w as [|[i x] w IH]; intros [|r rs]; try (unfold of_thread; simpl; lia).
  rewrite of_thread_cons. specialize (IH rs). case_decide; simpl; lia.
Qed.

(** What one thread does on its list over the two local phases. *)
Lemma local_thread n per_thread lw lr wl rl j :
  weave lw (scoped n (λ _, local_writes per_thread)) = Some wl →
  weave lr (scoped n (λ _, local_reads per_thread)) = Some rl → Z.of_nat j < n →
  of_thread j (wl ++ rl) ((wl ++ rl).*2) = local_writes per_thread ++ local_reads per_thread.
Proof.
  intros Hw Hr Hj. rewrite of_thread_app, <- (weave_thread _ _ _ _ Hw), <- (weave_thread _ _ _ _ Hr).
  unfold scoped. rewrite !list_lookup_fmap, (lookup_seqZ_lt 0) by lia. done.
Qed.

(** The second half: each list sees its own thread only. *)
Lemma local_half {T : Type} `{!Index T, !IndexLaws T} (ts : list T) n per_thread lw lr wl rl :
  0 ≤ per_thread < W64 → length ts = Z.to_nat n →
  weave lw (scoped n (λ _, local_writes per_thread)) = Some wl →
  weave lr (scoped n (λ _, local_reads per_thread)) = Some rl →
  Forall (λ t, idx_rep t ∅ (length (wl ++ rl))) ts →
  ∃ outs ts', local_ops (wl ++ rl) ts = Ok (outs, ts') ∧
    ∀ j, Z.of_nat j < n → of_thread j (wl ++ rl) outs
      = replicate (Z.to_nat per_thread) (OBool true) ++ (hit <$> local_reads per_thread).
Proof.
  intros Hp Hts Hlw Hlr Hrep.
  assert (Halone : ∀ j s, ts !! j = Some s → ∃ s', index_ops (of_thread j (wl ++ rl) ((wl ++ rl).*2)) s
    = Ok (replicate (Z.to_nat per_thread) (OBool true) ++ (hit <$> local_reads per_thread), s')).
  { intros j s Hj. pose proof (lookup_lt_Some _ _ _ Hj) as Hlt.
    pose proof (of_thread_length j (wl ++ rl) ((wl ++ rl).*2)) as Hlen.
    rewrite (local_thread _ _ _ _ _ _ j Hlw Hlr) in * by lia.
    destruct (local_index s per_thread (local_reads per_thread)) as (s' & Hs' & _); [lia| | |eauto].
    - intros M HM. apply local_reads_self; [done|lia].
    - eapply idx_rep_weaken; [|exact Hlen]. rewrite Forall_lookup in Hrep. by apply (Hrep j). }
  destruct (local_ops_alone (wl ++ rl) ts) as (outs & ts' & Hops & Hall).
  { apply Forall_app. apply weave_threads in Hlw, Hlr. unfold scoped in Hlw, Hlr.
    rewrite length_fmap, length_seqZ in Hlw, Hlr. rewrite Hts. done. }
  { intros j s Hj. destruct (Halone j s Hj) as (s' & ->). eauto. }
  exists outs, ts'. split; [done|]. intros j Hj.
  destruct (lookup_lt_is_Some_2 ts j) as [s Hs]; [lia|].
  destruct (Halone j s Hs) as (s1 & H1). destruct (Hall j s Hs) as (s2 & _ & H2). congruence.
Qed.

(** The comparison reads only what it wrote: on the shared index, whatever the
    order of the threads, every write is new and every read hits; on the lists
    of their own every thread gets the same answers as if it were alone. *)
Lemma shared_nothing_hits {T : Type} `{!Index T, !IndexLaws T} (new_list : nat → Z → res T)
    (threads per_thread : Z) (sw sr lw lr : list nat) ws rs wl rl :
  let n := ab_threads threads in
  n ≤ 2 ^ 63 → 0 ≤ per_thread → n * per_thread < W64 →
  weave sw (shared_writes n per_thread) = Some ws → weave sr (shared_reads n per_thread) = Some rs →
  weave lw (scoped n (λ _, local_writes per_thread)) = Some wl →
  weave lr (scoped n (λ _, local_reads per_thread)) = Some rl →
  (∀ i h, ∃ t, new_list i h = Ok t ∧ idx_rep t ∅ (length (ws ++ rs) + length (wl ++ rl))) →
  ∃ o1 o2, shared_nothing_ab new_list threads per_thread sw sr lw lr = Some (Ok (o1, wl ++ rl, o2)) ∧
    o1 = replicate (Z.to_nat (n * per_thread)) (OBool true) ++ (hit <$> rs.*2) ∧
    ∀ j, Z.of_nat j < n → of_thread j (wl ++ rl) o2
      = replicate (Z.to_nat per_thread) (OBool true) ++ (hit <$> local_reads per_thread).
Proof.
  intros n Hn Hp Hfit Hsw Hsr Hlw Hlr Hnew. unfold shared_nothing_ab. fold n. rewrite Hsw, Hsr, Hlw, Hlr. simpl.
  assert (Hn1 : 1 ≤ n) by (unfold n, ab_threads; lia).
  pose proof (next_power_of_two_bound n 63 ltac:(lia) Hn) as Hpow.
  pose proof (next_power_of_two_ge n) as Hge.
  assert (wrap64 (next_power_of_two n) = next_power_of_two n) as ->
    by (apply wrap64_small; unfold is_u64, W64; lia).
  destruct (sharded_new_rep new_list (next_power_of_two n) (wmul n per_thread) (length (ws ++ rs)))
    as (t & -> & Ht & _); [lia| |].
  { intros i h. destruct (Hnew i h) as (t & Hi & Hrep). exists t. split; [done|].
    eapply idx_rep_weaken; [exact Hrep|lia]. }
  simpl.
  destruct (phases_index n per_thread ltac:(lia) Hp Hfit t [shared_reads n per_thread] ws [rs])
    as (t' & Hops & _).
  { intros M HM. repeat constructor. apply shared_reads_self; (done || lia). }
  { by eapply weave_perm. }
  { repeat constructor. by eapply weave_perm. }
  { rewrite concat_cons, app_nil_r. exact Ht. }
  simpl in Hops. rewrite app_nil_r in Hops. rewrite Hops. simpl.
  destruct (build_shards_ok new_list per_thread (length (wl ++ rl)) (seq 0 (Z.to_nat n)))
    as (ts & -> & Hts & Hrep).
  { intros i. destruct (Hnew i per_thread) as (s & Hi & Hs). exists s. split; [done|].
    eapply idx_rep_weaken; [exact Hs|lia]. }
  rewrite length_seq in Hts. simpl.
  destruct (local_half ts n per_thread lw lr wl rl) as (o2 & ts' & -> & Hall); [nia|done..|].
  simpl. by eexists _, _.
Qed.
