(* ===== verification/BenchService.v ===== *)
(** * BenchService: the mesh service under the benchmark

    Models [mesh_service_bench] and [bench_gets] of [crates/zerokv/src/main.rs]:
    [n] client threads drive one [MeshService], each through its own list of
    calls, first all puts, then, once every thread has been joined, gets sent
    to the owner, then gets sent round robin. A phase interleaves the calls of
    the clients with the steps of clients and workers in any order. *)

From S2P Require Import Bench Prelude Spsc Channel Treiber Ingress Mesh MeshInv Service ServiceInv ServiceFlow ServiceSpec ServiceLive.
Local Open Scope nat_scope.
Local Open Scope zkv_scope.

(** ** The scripts *)

Definition bench_clients (client_threads : Z) : Z := Z.max client_threads 1.

(** Populate: client [c] puts its keys, each as its own value. *)
Definition mesh_puts (n per_client : Z) : list (list call) :=
  scoped n (λ c, (λ i, let k := Bench.key c i per_client in Put k k) <$> seqZ 0 per_client).

(** [bench_gets]. *)
Definition bench_gets (n per_client : Z) (round_robin : bool) : list (list call) :=
  scoped n (λ c, (λ i, let k := Bench.key c i per_client in
    if round_robin then GetRoundRobin k else Get k) <$> seqZ 0 per_client).

(** The three phases of [mesh_service_bench]. *)
Definition mesh_phases (n per_client : Z) : list (list (list call)) :=
  [mesh_puts n per_client; bench_gets n per_client false; bench_gets n per_client true].

Section bench.
Context {CC CR IB : Type} `{!Channel Command CC, !Channel Reply CR, !Inbox ClientReq IB}.
Context `{!ChannelLaws Command CC, !ChannelLaws Reply CR, !InboxLaws ClientReq IB}.
Implicit Types (s : Service CC CR IB).

(** Clients take their next call when they are idle; everybody else runs. *)
Inductive drives : list (list call) → Service CC CR IB → list (list call) → Service CC CR IB → Prop :=
| drives_refl rem s : drives rem s rem s
| drives_call rem s c k rest s1 rem2 s2 :
    drives rem s rem2 s1 → tokens_left s1 → rem2 !! c = Some (k :: rest) →
    step (LCall c k) s1 = Some (Ok s2) → drives rem s (<[c := rest]> rem2) s2
| drives_run rem s l s1 rem2 s2 :
    drives rem s rem2 s1 → tokens_left s1 → running l → step l s1 = Some (Ok s2) →
    drives rem s rem2 s2.

(** [std::thread::scope]: all scripts have been run and all threads joined. *)
Definition phase (ps : list (list call)) s s' : Prop :=
  ∃ rem, drives ps s rem s' ∧ Forall (λ l, l = []) rem ∧
    ∀ c cl, clients s' !! c = Some cl → cpc_of cl = CIdle.

(** The benchmark up to its [shutdown]. *)
Fixpoint phases (pss : list (list (list call))) s s' : Prop :=
  match pss with
  | [] => s' = s
  | ps :: pss => ∃ s1, phase ps s s1 ∧ phases pss s1 s'
  end.

Definition mesh_service_bench (client_threads per_client : Z) s' : Prop :=
  let n := bench_clients client_threads in
  phases (mesh_phases n per_client) (start n (Z.to_nat n)) s'.

Lemma drives_reachable requested c ps s rem s' :
  drives ps s rem s' → reachable requested c s → reachable requested c s'.
Proof. intros Hd Hr. induction Hd; [done|..]; by eapply reach_step; [apply IHHd| |]. Qed.

(** ** What a step does to requests, history and calls under way *)

Record advance s s' (l : slabel) : Prop := mkAdvance {
  v_stop : l ≠ LStop → stop s' = stop s;
  v_len : length (clients s') = length (clients s);
  v_log : hist s `prefix_of` hist s';
  v_old : ∀ r q, reqs s !! r = Some q → ∃ q', reqs s' !! r = Some q' ∧ r_op q' = r_op q;
  v_new : ∀ r q', reqs s' !! r = Some q' →
    (∃ q, reqs s !! r = Some q ∧ r_op q' = r_op q ∧ r_born q' = r_born q) ∨
    (∃ c cl a, clients s !! c = Some cl ∧ cpc_of cl = CPush a (r_op q') ∧ r_born q' = length (hist s));
  v_push : ∀ c cl a op, clients s' !! c = Some cl → cpc_of cl = CPush a op →
    (∃ cl0, clients s !! c = Some cl0 ∧ cpc_of cl0 = CPush a op) ∨
    (∃ k, l = LCall c k ∧ op = (accept_of k s).1.2);
  v_gone : ∀ c cl a op, clients s !! c = Some cl → cpc_of cl = CPush a op →
    (∃ cl', clients s' !! c = Some cl' ∧ cpc_of cl' = CPush a op) ∨
    (∃ r q, reqs s' !! r = Some q ∧ r_op q = op)
}.

(** Requests that are only written to, and clients that stay where they are. *)
Record quietly s s' : Prop := mkQuietly {
  y_stop : stop s' = stop s;
  y_log : hist s `prefix_of` hist s';
  y_reqs : (λ q, (r_op q, r_born q)) <$> reqs s' = (λ q, (r_op q, r_born q)) <$> reqs s;
  y_clients : cpc_of <$> clients s' = cpc_of <$> clients s
}.

Lemma quietly_same s s' :
  stop s' = stop s → hist s' = hist s → reqs s' = reqs s → clients s' = clients s → quietly s s'.
Proof. intros E1 E2 E3 E4. split; [done|by rewrite E2|by rewrite E3|by rewrite E4]. Qed.

Lemma quietly_log s r op v : quietly s (record r op v s).
Proof. split; simpl; try done. by apply prefix_app_r. Qed.

Lemma quietly_req s r q q' :
  reqs s !! r = Some q → r_op q' = r_op q → r_born q' = r_born q →
  quietly s (set_reqs s (<[r := q']> (reqs s))).
Proof.
  intros Hq E1 E2. split; simpl; try done. rewrite list_fmap_insert. apply list_insert_id.
  rewrite list_lookup_fmap, Hq. simpl. congruence.
Qed.

Lemma worker_quietly id lag w s w' s' : sworker_step id lag w s = Ok (w', s') → quietly s s'.
Proof.
  unfold sworker_step.
  destruct (spc_of w) as [src b p|src from rep p|src b c|b|[|[op r] rest]|o c r rest|st r v f|b| |].
  - destruct (src <? sn s); [|intros [= _ <-]; by apply quietly_same].
    destruct (net_pop lag (src, id) (scmd s)) as [[o g]|]; simpl; [|done].
    destruct o as [[k v|k from tok]|]; intros [= _ <-]; try by apply quietly_same.
    destruct (waiting_for _ _ _); [|by apply quietly_same]. split; simpl; try done. by apply prefix_app_r.
  - destruct (net_push lag (id, from) rep (sreply s)) as [[o g]|]; simpl; [|done].
    destruct o; intros [= _ <-]; by apply quietly_same.
  - destruct (src <? sn s); [|intros [= _ <-]; by apply quietly_same].
    destruct (net_pop lag (src, id) (sreply s)) as [[o g]|]; simpl; [|done].
    destruct o as [rep|]; [destruct (client_waiters w !! token rep)|]; intros [= _ <-]; by apply quietly_same.
  - destruct (ingress s !! id) as [i|]; simpl; [|done]. destruct (ib_drain i) as [[l i']|]; simpl; [|done].
    intros [= _ <-]. by apply quietly_same.
  - intros [= _ <-]. by apply quietly_same.
  - unfold serve. destruct op as [k v|k]; simpl; destruct (_ =? id); intros [= _ <-];
      first [apply quietly_log|by apply quietly_same].
  - destruct (net_push lag (id, o) c (scmd s)) as [[x g]|]; simpl; [|done].
    destruct x, c; intros [= _ <-]; by apply quietly_same.
  - unfold fulfill. destruct (reqs s !! r) as [q|] eqn:Hq; simpl; [|done].
    destruct st; [intros [= _ <-]; by eapply quietly_req..|].
    destruct (clients s !! waiter q) as [cl|] eqn:Hcl; simpl; [|done]. intros [= _ <-].
    split; simpl; try done. rewrite list_fmap_insert. apply list_insert_id. by rewrite list_lookup_fmap, Hcl.
  - intros [= _ <-]. by apply quietly_same.
  - destruct (ingress s !! id) as [i|]; simpl; [|done]. intros [= _ <-]. by apply quietly_same.
  - intros [= _ <-]. by apply quietly_same.
Qed.

Lemma quietly_advance s s1 s' l :
  quietly s s1 → stop s' = stop s1 → hist s' = hist s1 → reqs s' = reqs s1 → clients s' = clients s1 →
  advance s s' l.
Proof.
  intros [Y1 Y2 Y3 Y4] E1 E2 E3 E4.
  assert (Hr : ∀ r, (λ q, (r_op q, r_born q)) <$> reqs s1 !! r = (λ q, (r_op q, r_born q)) <$> reqs s !! r).
  { intros r. by rewrite <- !list_lookup_fmap, Y3. }
  assert (Hc : ∀ c, cpc_of <$> clients s1 !! c = cpc_of <$> clients s !! c).
  { intros c. by rewrite <- !list_lookup_fmap, Y4. }
  split; rewrite ?E1, ?E2, ?E3, ?E4; try done.
  - apply (f_equal length) in Y4. by rewrite !length_fmap in Y4.
  - intros r q Hq. specialize (Hr r). rewrite Hq in Hr. destruct (reqs s1 !! r) as [q'|]; [|done].
    simpl in Hr. exists q'. split; [done|congruence].
  - intros r q' Hq. left. specialize (Hr r). rewrite Hq in Hr. destruct (reqs s !! r) as [q|]; [|done].
    simpl in Hr. exists q. split_and!; [done|congruence|congruence].
  - intros c cl a op Hcl Hp. left. specialize (Hc c). rewrite Hcl in Hc.
    destruct (clients s !! c) as [cl0|]; [|done]. simpl in Hc. exists cl0. split; [done|congruence].
  - intros c cl a op Hcl Hp. left. specialize (Hc c). rewrite Hcl in Hc.
    destruct (clients s1 !! c) as [cl0|]; [|done]. simpl in Hc. exists cl0. split; [done|congruence].
Qed.

(** A client goes on inside its call. *)
Lemma client_advance s s' c cl cl' l :
  clients s !! c = Some cl → (∀ a op, cpc_of cl ≠ CPush a op) → (∀ a op, cpc_of cl' ≠ CPush a op) →
  clients s' = <[c := cl']> (clients s) → stop s' = stop s → hist s' = hist s →
  (λ q, (r_op q, r_born q)) <$> reqs s' = (λ q, (r_op q, r_born q)) <$> reqs s → advance s s' l.
Proof.
  intros Hc Hn Hn' Ec Es Eh Er.
  assert (Hr : ∀ r, (λ q, (r_op q, r_born q)) <$> reqs s' !! r = (λ q, (r_op q, r_born q)) <$> reqs s !! r).
  { intros r. by rewrite <- !list_lookup_fmap, Er. }
  split; [done|by rewrite Ec, length_insert|by rewrite Eh|..]; rewrite ?Ec.
  - intros r q Hq. specialize (Hr r). rewrite Hq in Hr. destruct (reqs s' !! r) as [q'|]; [|done].
    simpl in Hr. exists q'. split; [done|congruence].
  - intros r q' Hq. left. specialize (Hr r). rewrite Hq in Hr. destruct (reqs s !! r) as [q|]; [|done].
    simpl in Hr. exists q. split_and!; [done|congruence|congruence].
  - intros c' x a op [(<- & <- & _)|(Hne & Hx)]%list_lookup_insert_Some Hp; [by destruct (Hn' a op)|eauto].
  - intros c' x a op Hx Hp. left. exists x. split; [|done]. rewrite list_lookup_insert_ne; [done|].
    intros <-. rewrite Hc in Hx. injection Hx as <-. by destruct (Hn a op).
Qed.

Lemma submit_advance s c cl a op i' p tok l :
  clients s !! c = Some cl → cpc_of cl = CPush a op → (∀ a op, p ≠ CPush a op) →
  advance s (set_client (set_reqs (set_ingress s a i') (reqs s ++ [mkReq op c false None (length (hist s)) None]))
    c (mkClient p tok)) l.
Proof.
  intros Hc Hpc Hp. split; simpl; try done; [by rewrite length_insert|..].
  - intros r q Hq. exists q. split; [by apply lookup_app_l_Some|done].
  - intros r q' [Hq|[_ Hq]]%lookup_app_Some; [left; eauto|right].
    apply list_lookup_singleton_Some in Hq as [_ <-]. simpl. exists c, cl, a. by rewrite Hpc.
  - intros c' x a' op' [(<- & <- & _)|(Hne & Hx)]%list_lookup_insert_Some Hx'; [by destruct (Hp a' op')|eauto].
  - intros c' x a' op' Hx Hpx. destruct (decide (c' = c)) as [->|Hne].
    + right. rewrite Hc in Hx. injection Hx as <-. rewrite Hpc in Hpx. injection Hpx as <- <-.
      exists (length (reqs s)). eexists. split; [by apply list_lookup_middle|done].
    + left. exists x. split; [|done]. by rewrite list_lookup_insert_ne.
Qed.

Lemma step_advance l s s' : step l s = Some (Ok s') → advance s s' l.
Proof.
  destruct l as [c k|c sp spurious|id lag|]; simpl.
  - destruct (clients s !! c) as [[p tok]|] eqn:Hc; [|done]. destruct p; try done.
    destruct (accept_of k s) as [[accept op] rr'] eqn:Ha. intros [= <-]. split; simpl; try done; [by rewrite length_insert|eauto|eauto|..].
    + intros c' x a op' [(<- & <- & _)|(Hne & Hx)]%list_lookup_insert_Some Hp; [right|left; eauto].
      simpl in Hp. injection Hp as <- <-. exists k. by rewrite Ha.
    + intros c' x a op' Hx Hp. left. exists x. split; [|done]. rewrite list_lookup_insert_ne; [done|].
      intros <-. rewrite Hc in Hx. injection Hx as <-. done.
  - destruct (clients s !! c) as [cl|] eqn:Hc; [|done]. unfold client_step.
    assert (Hgo : ∀ p tok s', (∀ a op, cpc_of cl ≠ CPush a op) → (∀ a op, p ≠ CPush a op) →
      clients s' = <[c := mkClient p tok]> (clients s) → stop s' = stop s → hist s' = hist s →
      (λ q, (r_op q, r_born q)) <$> reqs s' = (λ q, (r_op q, r_born q)) <$> reqs s →
      advance s s' (LClient c sp spurious)).
    { intros p tok s2 H1 H2 H3. by eapply (client_advance s s2 c cl (mkClient p tok)). }
    revert Hgo. destruct (cpc_of cl) as [|a op|r k|r|r|r] eqn:Hpc; intros Hgo; [done|..].
    + destruct (ingress s !! a) as [i|]; simpl; [|done]. destruct (ib_push sp _ i) as [i'|]; simpl; [|done].
      intros [= <-]. by eapply submit_advance.
    + destruct k as [|k]; simpl; [intros [= <-]; by eapply (Hgo (CCheck r))|].
      destruct (reqs s !! r) as [q|]; simpl; [|done]. intros [= <-].
      eapply (Hgo (if done q then CTake r else CSpin r k)); try done. by destruct (done q).
    + destruct (reqs s !! r) as [q|]; simpl; [|done]. intros [= <-].
      eapply (Hgo (if done q then CTake r else CPark r)); try done. by destruct (done q).
    + destruct (_ || _); [|done]. intros [= <-]. by eapply (Hgo (CCheck r)).
    + destruct (reqs s !! r) as [q|] eqn:Hq; simpl; [|done]. intros [= <-].
      eapply (Hgo CIdle); try done. simpl. rewrite list_fmap_insert. apply list_insert_id.
      by rewrite list_lookup_fmap, Hq.
  - destruct (sworkers s !! id) as [w|] eqn:Hw; [|done]. intros Hs.
    assert (Hs' : ('(w, s) ←r sworker_step id lag w s; Ok (set_sworker s id w)) = Ok s').
    { destruct (spc_of w); by simplify_eq. }
    destruct (sworker_step id lag w s) as [[w' s1]|] eqn:Hst; simpl in Hs'; [|done]. injection Hs' as <-.
    eapply quietly_advance; [by eapply worker_quietly|done..].
  - intros [= <-]. split; simpl; eauto; done.
Qed.

(** ** What holds of all requests *)

Definition op_of (k : call) : ClientOp :=
  match k with Put k v => OPut k v | Get k | GetRoundRobin k => OGet k end.

Lemma accept_op k s : (accept_of k s).1.2 = op_of k.
Proof. by destruct k. Qed.

(** [P b op] holds of every request [op] submitted when the history had length
    [b], and will hold of the calls under way. *)
Record kind (P : nat → ClientOp → Prop) s : Prop := mkKind {
  k_req : ∀ r q, reqs s !! r = Some q → P (r_born q) (r_op q);
  k_push : ∀ c cl a op, clients s !! c = Some cl → cpc_of cl = CPush a op → P (length (hist s)) op
}.

Section kind.
Context (P : nat → ClientOp → Prop).
Hypothesis Pmono : ∀ b b' op, b ≤ b' → P b op → P b' op.

Lemma kind_step s s' l :
  kind P s → advance s s' l → (∀ c k, l = LCall c k → P (length (hist s)) (op_of k)) → kind P s'.
Proof.
  intros [K1 K2] HA Hc. pose proof (prefix_length _ _ (v_log _ _ _ HA)) as Hle. split.
  - intros r q' Hq'. destruct (v_new _ _ _ HA r q' Hq') as [(q & Hq & -> & ->)|(c & cl & a & Hcl & Hp & ->)];
      eauto.
  - intros c cl a op Hcl Hp. eapply Pmono; [exact Hle|].
    destruct (v_push _ _ _ HA c cl a op Hcl Hp) as [(cl0 & ? & ?)|(k & -> & ->)]; [eauto|].
    rewrite accept_op. eauto.
Qed.

(** Scripts whose calls are of the kind keep it. *)
Lemma kind_drives ps s rem s' :
  drives ps s rem s' → kind P s →
  (∀ c l k, ps !! c = Some l → k ∈ l → P (length (hist s)) (op_of k)) →
  kind P s' ∧ hist s `prefix_of` hist s' ∧ stop s' = stop s ∧
  (∀ c l k, rem !! c = Some l → k ∈ l → P (length (hist s)) (op_of k)).
Proof.
  intros Hd HK Hps.
  induction Hd as [ps s|ps s c k rest s1 rem2 s2 _ IH _ Hr Hs|ps s l s1 rem2 s2 _ IH _ Hrun Hs]; [done|..];
    destruct (IH HK Hps) as (K1 & Hpre & Est & Hrem); pose proof (step_advance _ _ _ Hs) as HA.
  - split_and!.
    + eapply kind_step; [done|done|]. intros c' k' [= <- <-]. eapply Pmono; [by apply prefix_length|].
      eapply Hrem; [done|]. apply list_elem_of_here.
    + etrans; [done|apply HA].
    + rewrite <- Est. by apply (v_stop _ _ _ HA).
    + intros c' l k' [(<- & <- & _)|(_ & Hl)]%list_lookup_insert_Some Hk; [|eauto].
      eapply Hrem; [done|]. by apply list_elem_of_further.
  - split_and!; [|etrans; [done|apply HA]| |done].
    + eapply kind_step; [done|done|]. by intros c' k' ->.
    + rewrite <- Est. apply (v_stop _ _ _ HA). by intros ->.
Qed.

End kind.

(** Every call a client has taken from its script has become a request, or is
    about to. *)
Definition issued (ps rem : list (list call)) s : Prop :=
  ∀ c l, ps !! c = Some l → ∃ taken rest, l = taken ++ rest ∧ rem !! c = Some rest ∧
    ∀ k, k ∈ taken → (∃ r q, reqs s !! r = Some q ∧ r_op q = op_of k) ∨
      (∃ cl a, clients s !! c = Some cl ∧ cpc_of cl = CPush a (op_of k)).

Lemma issued_step ps rem s s' l : issued ps rem s → advance s s' l → issued ps rem s'.
Proof.
  intros Hi HA c ks Hc. destruct (Hi c ks Hc) as (taken & rest & -> & Hr & Hk).
  exists taken, rest. split_and!; [done|done|]. intros k Hin.
  destruct (Hk k Hin) as [(r & q & Hq & Ho)|(cl & a & Hcl & Hp)].
  - left. destruct (v_old _ _ _ HA r q Hq) as (q' & Hq' & E). exists r, q'. split; [done|congruence].
  - destruct (v_gone _ _ _ HA c cl a _ Hcl Hp) as [(cl' & ? & ?)|?]; [right; eauto|by left].
Qed.

Lemma drives_issued ps s rem s' : drives ps s rem s' → issued ps rem s'.
Proof.
  induction 1 as [ps s|ps s c k rest s1 rem2 s2 _ IH _ Hr Hs|ps s l s1 rem2 s2 _ IH _ Hrun Hs].
  - intros c l Hl. exists [], l. split_and!; [done|done|]. by intros k Hk%elem_of_nil.
  - pose proof (issued_step _ _ _ _ _ IH (step_advance _ _ _ Hs)) as Hi. intros c' l Hl.
    destruct (Hi c' l Hl) as (taken & rest' & -> & Hr' & Hk). destruct (decide (c' = c)) as [->|Hne].
    + rewrite Hr in Hr'. injection Hr' as <-. exists (taken ++ [k]), rest. split_and!.
      * by rewrite <- app_assoc.
      * apply list_lookup_insert_eq. by eapply lookup_lt_Some.
      * intros k' [Hin|Hin]%elem_of_app; [auto|]. apply list_elem_of_singleton in Hin as ->. right.
        simpl in Hs. destruct (clients s1 !! c) as [[[] tok]|] eqn:Hc; try done.
        destruct (accept_of k s1) as [[a op] rr'] eqn:Ha. injection Hs as <-. simpl.
        eexists. exists a. split; [apply list_lookup_insert_eq; by eapply lookup_lt_Some|]. simpl.
        f_equal. by rewrite <- (accept_op k s1), Ha.
    + exists taken, rest'. split_and!; [done|by rewrite list_lookup_insert_ne|done].
  - by eapply issued_step, step_advance.
Qed.

(** ** Histories of self-puts *)

Lemma legal_at h : ∀ i r op v,
  legal h → h !! i = Some (r, (op, v)) → v = (spec_step op (replay (take i h))).1.
Proof.
  induction h as [|x h IH] using rev_ind; intros i r op v HL Hi; [done|].
  assert (Hsn : legal h ∧ x.2.2 = (spec_step x.2.1 (replay h)).1).
  { unfold legal, replay in *. rewrite !fmap_app in HL. simpl in HL. rewrite run_spec_snoc in HL.
    destruct (run_spec h.*2.*1 ∅) as [vs m]. destruct (spec_step x.2.1 m) as [v' m'] eqn:E. simpl in *.
    apply app_inj_tail in HL as [-> <-]. by rewrite E. }
  destruct Hsn as [HL' Hx]. apply lookup_app_Some in Hi as [Hi|[Hge Hi]].
  - rewrite take_app_le by (apply lookup_lt_Some in Hi; lia). by eapply IH.
  - apply list_lookup_singleton_Some in Hi as [Hi ->]. replace i with (length h) by lia.
    by rewrite take_app_length.
Qed.

Lemma replay_self h k :
  (∀ r k' v' o, (r, (OPut k' v', o)) ∈ h → v' = k') → (∃ r v o, (r, (OPut k v, o)) ∈ h) →
  replay h !! k = Some k.
Proof.
  induction h as [|[r [op o]] h IH] using rev_ind; intros Hself (r' & v & o' & Hin); [by apply elem_of_nil in Hin|].
  assert (Hself' : ∀ r k' v' o, (r, (OPut k' v', o)) ∈ h → v' = k').
  { intros. eapply Hself. apply elem_of_app. by left. }
  rewrite replay_snoc. destruct op as [k' v'|k']; simpl.
  - assert (v' = k') as -> by (eapply Hself; apply elem_of_app; right; apply list_elem_of_here).
    destruct (decide (k' = k)) as [->|Hne]; [by rewrite lookup_insert_eq|]. rewrite lookup_insert_ne by done.
    apply IH; [done|]. apply elem_of_app in Hin as [?|Hin]; [eauto|].
    apply list_elem_of_singleton in Hin. by simplify_eq.
  - apply IH; [done|]. apply elem_of_app in Hin as [?|Hin]; [eauto|]. by apply list_elem_of_singleton in Hin.
Qed.

(** Requests of the benchmark: keys are their own values, and only keys put
    before history position [b] are asked for. *)
Definition asks (h : history) (b : nat) (op : ClientOp) : Prop :=
  match op with
  | OPut k v => v = k
  | OGet k => length h ≤ b ∧ ∃ r v o, (r, (OPut k v, o)) ∈ h
  end.

Lemma gets_hit requested c s h :
  (requested ≤ 2 ^ 63)%Z → reachable requested c s → kind (asks h) s → h `prefix_of` hist s →
  ∀ r q k v e, reqs s !! r = Some q → r_op q = OGet k → r_ret q = Some (v, e) → v = Some k.
Proof.
  intros Hreq Hr HK [h' Hh] r q k v e Hq Hop Hret.
  destruct (service_reachable_inv _ _ _ Hreq Hr) as (capc & capr & loc & QI & QC & QR & HI).
  pose proof (v_hist _ _ _ _ _ _ _ HI) as HH.
  destruct (h_ret _ _ HH r q v e Hq Hret) as (i & _ & Hi). rewrite Hop in Hi.
  pose proof (h_born _ _ HH i r _ q Hi Hq) as Hb.
  pose proof (k_req _ _ HK r q Hq) as Ha. rewrite Hop in Ha. destruct Ha as [Hlen (r1 & v1 & o1 & Hin)].
  rewrite (legal_at _ i r _ v (h_legal _ _ HH) Hi). simpl. apply replay_self.
  - intros r2 k2 v2 o2 Hin2.
    assert (Hin3 : (r2, (OPut k2 v2, o2)) ∈ hist s).
    { rewrite <- (take_drop i (hist s)). apply elem_of_app. by left. }
    destruct (h_op _ _ HH r2 _ o2 Hin3) as (q2 & Hq2 & Hop2).
    pose proof (k_req _ _ HK r2 q2 Hq2) as Ha. by rewrite Hop2 in Ha.
  - exists r1, v1, o1. rewrite Hh, take_app_ge by lia. apply elem_of_app. by left.
Qed.

(** ** The phases *)

Lemma scripts_match n per rr c l k :
  bench_gets n per rr !! c = Some l → k ∈ l →
  ∃ key l', op_of k = OGet key ∧ mesh_puts n per !! c = Some l' ∧ Put key key ∈ l'.
Proof.
  unfold bench_gets, mesh_puts, scoped. intros (x & -> & Hx)%list_lookup_fmap_Some.
  intros (i & -> & Hi)%list_elem_of_fmap. exists (Bench.key x i per). eexists.
  split_and!; [by destruct rr|by rewrite list_lookup_fmap, Hx|].
  apply list_elem_of_fmap. by exists i.
Qed.

Lemma puts_self n per c l k : mesh_puts n per !! c = Some l → k ∈ l → ∃ key, op_of k = OPut key key.
Proof.
  unfold mesh_puts, scoped. intros (x & -> & _)%list_lookup_fmap_Some (i & -> & _)%list_elem_of_fmap. eauto.
Qed.

Lemma asks_mono h b b' op : b ≤ b' → asks h b op → asks h b' op.
Proof. destruct op; simpl; [done|]. intros ? [? ?]. split; [lia|done]. Qed.

(** After a phase every call of its scripts has become a request. *)
Lemma phase_requests ps s s' : phase ps s s' → ∀ c l k, ps !! c = Some l → k ∈ l →
  ∃ r q, reqs s' !! r = Some q ∧ r_op q = op_of k.
Proof.
  intros (rem & Hd & Hnil & Hidle) c l k Hl Hk.
  destruct (drives_issued _ _ _ _ Hd c l Hl) as (taken & rest & -> & Hr & Hiss).
  rewrite (Forall_lookup_1 _ _ _ _ Hnil Hr), app_nil_r in Hk.
  destruct (Hiss k Hk) as [?|(cl & a & Hcl & Hp)]; [done|]. by rewrite (Hidle c cl Hcl) in Hp.
Qed.

Section run.
Context (n per : Z).
Hypothesis Hn : (n ≤ 2 ^ 63)%Z.

(** After the puts every key is in the history, with itself as its value. *)
Lemma puts_phase nc s1 :
  phase (mesh_puts n per) (start n nc) s1 →
  reachable n nc s1 ∧ stop s1 = false ∧ kind (asks (hist s1)) s1 ∧
  ∀ c l k, mesh_puts n per !! c = Some l → Put k k ∈ l → ∃ r v o, (r, (OPut k v, o)) ∈ hist s1.
Proof.
  intros Hph. pose proof Hph as (rem & Hd & _ & Hidle).
  assert (Hr : reachable n nc s1) by (eapply drives_reachable; [done|apply reach_start]).
  destruct (kind_drives (asks []) (asks_mono []) _ _ _ _ Hd) as (HK & _ & Hstop & _).
  { split; [done|]. by intros c cl a op [-> _]%lookup_replicate. }
  { intros c l k Hl Hk. destruct (puts_self _ _ _ _ _ Hl Hk) as (key & ->). done. }
  assert (Hno : ∀ b k, ¬ asks [] b (OGet k)) by (intros b k (_ & ? & ? & ? & ?%elem_of_nil); done).
  split_and!; [done|done| |].
  - destruct HK as [K1 K2]. split.
    + intros r q Hq. specialize (K1 r q Hq). destruct (r_op q); [done|by apply Hno in K1].
    + intros c cl a op Hc Hp. specialize (K2 c cl a op Hc Hp). destruct op; [done|by apply Hno in K2].
  - intros c l k Hl Hk. destruct (phase_requests _ _ _ Hph c l _ Hl Hk) as (r & q & Hq & Hop).
    destruct (live_reachable n nc s1 Hn Hr Hstop) as (capc & capr & QI & QC & QR & _ & _ & HL).
    destruct (idle_returned _ _ _ _ _ _ HL Hidle r q Hq) as [_ [[v e] Hret]].
    destruct (live_view _ _ _ _ _ _ HL) as (loc & QI0 & QC0 & QR0 & HI & _).
    destruct (h_ret _ _ (v_hist _ _ _ _ _ _ _ HI) r q v e Hq Hret) as (i & _ & Hi).
    rewrite Hop in Hi. exists r, k, v. by eapply list_elem_of_lookup_2.
Qed.

Lemma gets_phase h rr nc s s' :
  phase (bench_gets n per rr) s s' → reachable n nc s → stop s = false → kind (asks h) s →
  h `prefix_of` hist s →
  (∀ c l k, mesh_puts n per !! c = Some l → Put k k ∈ l → ∃ r v o, (r, (OPut k v, o)) ∈ h) →
  reachable n nc s' ∧ stop s' = false ∧ kind (asks h) s' ∧ h `prefix_of` hist s'.
Proof.
  intros (rem & Hd & _ & _) Hr Hstop HK Hpre Hput.
  destruct (kind_drives (asks h) (asks_mono h) _ _ _ _ Hd HK) as (HK' & Hpre' & Es & _).
  { intros c l k Hl Hk. destruct (scripts_match _ _ _ _ _ _ Hl Hk) as (key & l' & -> & Hl' & Hin). simpl.
    split; [by apply prefix_length|eauto]. }
  split_and!; [by eapply drives_reachable|congruence|done|by etrans].
Qed.

Lemma mesh_bench_answers nc s' :
  phases (mesh_phases n per) (start n nc) s' →
  ∀ r q, reqs s' !! r = Some q →
    ∃ v e, r_ret q = Some (v, e) ∧ match r_op q with OPut k v' => v' = k | OGet k => v = Some k end.
Proof.
  intros (s1 & H1 & s2 & H2 & s3 & H3 & ->).
  destruct (puts_phase nc s1 H1) as (R1 & St1 & K1 & Hput).
  destruct (gets_phase _ _ nc _ _ H2 R1 St1 K1 ltac:(done) Hput) as (R2 & St2 & K2 & P2).
  destruct (gets_phase _ _ nc _ _ H3 R2 St2 K2 P2 Hput) as (R3 & St3 & K3 & P3).
  intros r q Hq. destruct (live_reachable n nc s3 Hn R3 St3) as (capc & capr & QI & QC & QR & _ & _ & HL).
  destruct H3 as (rem & _ & _ & Hidle).
  destruct (idle_returned _ _ _ _ _ _ HL Hidle r q Hq) as [_ [[v e] Hret]].
  exists v, e. split; [done|]. pose proof (k_req _ _ K3 r q Hq) as Ha.
  destruct (r_op q) as [k v'|k] eqn:Hop; [done|]. by eapply gets_hit.
Qed.

End run.

(** ** The benchmark can run to its end *)

Lemma drives_runs ps s0 rem s s' :
  drives ps s0 rem s → runs s s' → drives ps s0 rem s' ∧ length (clients s') = length (clients s).
Proof.
  intros Hd Hr. revert Hd. induction Hr as [s|s l s1 s2 Hl Ht Hs _ IH]; intros Hd; [done|].
  destruct IH as [Hd' E]; [by eapply drives_run|]. split; [done|].
  rewrite E. apply (v_len _ _ _ (step_advance _ _ _ Hs)).
Qed.

Lemma news_idle s : (∀ c cl, clients s !! c = Some cl → cpc_of cl = CIdle) → news s = 0.
Proof.
  intros H. unfold news. rewrite (sum_ext _ (λ _, 0)); [by rewrite (sum_const _ 0)|].
  intros cl [c Hc]%list_elem_of_lookup. by rewrite (H c cl Hc).
Qed.

Lemma call_idle s c k cl capc capr QI QC QR :
  live capc capr s QI QC QR → tokens_left s → clients s !! c = Some cl → cpc_of cl = CIdle →
  ∃ s' QI' QC' QR', step (LCall c k) s = Some (Ok s') ∧ live capc capr s' QI' QC' QR' ∧
    length (reqs s') = length (reqs s) ∧ news s' = S (news s) ∧ length (clients s') = length (clients s).
Proof.
  intros HL Htok Hc Hi. destruct cl as [p tok]. simpl in Hi. subst p.
  assert (Hs : ∃ s', step (LCall c k) s = Some (Ok s') ∧ length (reqs s') = length (reqs s) ∧
    news s' = S (news s)).
  { simpl. rewrite Hc. destruct (accept_of k s) as [[a op] rr']. eexists. split; [reflexivity|].
    split; [done|]. unfold news. simpl.
    pose proof (sum_insert (λ cl, cpc_new (cpc_of cl)) (clients s) c _ (mkClient (CPush a op) tok) Hc) as E.
    simpl in E. lia. }
  destruct Hs as (s' & Hs & Er & En). destruct (live_call _ _ _ _ _ _ _ _ _ HL Htok Hs) as (QI' & QC' & QR' & HL').
  exists s', QI', QC', QR'. split_and!; try done. apply (v_len _ _ _ (step_advance _ _ _ Hs)).
Qed.

Section complete.
Context (capc capr : nat).
Hypothesis (Hcapc : 2 ≤ capc) (Hcapr : 2 ≤ capr).

Lemma drive_all ps s0 d : ∀ rem s QI QC QR,
  sum_list_with length rem = d → drives ps s0 rem s → live capc capr s QI QC QR →
  (Z.of_nat (length (reqs s) + news s + d) < 2 ^ 48)%Z → length rem ≤ length (clients s) →
  ∃ s' QI' QC' QR', phase ps s0 s' ∧ live capc capr s' QI' QC' QR' ∧
    length (reqs s') = length (reqs s) + news s + d ∧ news s' = 0 ∧
    length (clients s') = length (clients s).
Proof.
  induction d as [|d IH]; intros rem s QI QC QR Hd Hdr HL Hroom Hlen;
    (destruct (run_all capc capr Hcapc Hcapr s QI QC QR HL) as (s1 & QI1 & QC1 & QR1 & Hr & HL1 & Er & Hidle);
     [unfold room; lia|]); destruct (drives_runs _ _ _ _ _ Hdr Hr) as [Hdr1 El];
    pose proof (news_idle s1 Hidle) as Hn0.
  - exists s1, QI1, QC1, QR1. split_and!; [|done|lia|done|done]. exists rem. split_and!; [done| |done].
    apply Forall_lookup. intros c l Hl. pose proof (sum_lookup length rem c l Hl). destruct l; [done|simpl in *; lia].
  - assert (Hex : ∃ c k rest, rem !! c = Some (k :: rest)).
    { clear -Hd. induction rem as [|[|k rest] rem IHr]; simpl in Hd; [done| |by exists 0, k, rest].
      destruct (IHr Hd) as (c & k & rest & Hc). by exists (S c), k, rest. }
    destruct Hex as (c & k & rest & Hc).
    destruct (lookup_lt_is_Some_2 (clients s1) c) as [cl Hcl]; [apply lookup_lt_Some in Hc; lia|].
    assert (Htok : tokens_left s1) by (eapply live_tokens; [done|unfold room; lia]).
    destruct (call_idle s1 c k cl _ _ _ _ _ HL1 Htok Hcl (Hidle c cl Hcl))
      as (s2 & QI2 & QC2 & QR2 & Hs & HL2 & Er2 & En2 & El2).
    pose proof (sum_insert length rem c (k :: rest) rest Hc) as Hsum. simpl in Hsum.
    destruct (IH (<[c := rest]> rem) s2 QI2 QC2 QR2) as (s' & QI' & QC' & QR' & ? & ? & ? & ? & ?);
      [lia|by eapply drives_call|done|lia|rewrite length_insert; lia|].
    exists s', QI', QC', QR'. split_and!; [done|done|lia|done|lia].
Qed.

Lemma phases_all pss : ∀ s QI QC QR,
  live capc capr s QI QC QR → news s = 0 →
  (Z.of_nat (length (reqs s) + sum_list_with (sum_list_with length) pss) < 2 ^ 48)%Z →
  Forall (λ ps, length ps ≤ length (clients s)) pss → ∃ s', phases pss s s'.
Proof.
  induction pss as [|ps pss IH]; intros s QI QC QR HL Hn Hroom Hlen; simpl in *; [eauto|].
  apply Forall_cons in Hlen as [Hl Hlen].
  destruct (drive_all ps s (sum_list_with length ps) ps s QI QC QR eq_refl (drives_refl _ _) HL)
    as (s1 & QI1 & QC1 & QR1 & Hph & HL1 & Er & Hn1 & Ec); [lia|done|].
  destruct (IH s1 QI1 QC1 QR1 HL1 Hn1) as (s' & Hs'); [rewrite Er; lia|by rewrite Ec|].
  exists s', s1. done.
Qed.

End complete.

Lemma script_calls (f : Z → Z → call) n per : (0 ≤ n)%Z → (0 ≤ per)%Z →
  sum_list_with length (scoped n (λ c, f c <$> seqZ 0 per)) = Z.to_nat (n * per) ∧
  length (scoped n (λ c, f c <$> seqZ 0 per)) = Z.to_nat n.
Proof.
  intros Hn Hp. unfold scoped. rewrite length_fmap, length_seqZ. split; [|done].
  rewrite Z2Nat.inj_mul, <- (length_seqZ 0 n) by done. induction (seqZ 0 n) as [|x l IH]; [done|].
  rewrite fmap_cons. cbn [sum_list_with length]. rewrite IH, length_fmap, length_seqZ. lia.
Qed.

(** ** Property *)

(** [C39] The service benchmark measures hits only. For all client and operation
    counts whose requests fit the tokens, the three phases can be run to their
    end, and however the clients and workers take turns, when they have ended
    every request has returned, each key was put with itself as its value, and
    every get, sent to the owner or round robin, returned its key. *)
Theorem mesh_bench_hits (client_threads per_client : Z)
    (Ht : (client_threads ≤ 2 ^ 40)%Z) (Hp : (0 ≤ per_client)%Z)
    (Hfit : (3 * (bench_clients client_threads * per_client) < 2 ^ 48)%Z) :
  (∃ s' : Service CC CR IB, mesh_service_bench client_threads per_client s') ∧
  ∀ s' : Service CC CR IB, mesh_service_bench client_threads per_client s' →
  ∀ r q, reqs s' !! r = Some q →
    ∃ v e, r_ret q = Some (v, e) ∧ match r_op q with OPut k v' => v' = k | OGet k => v = Some k end.
Proof.
  unfold mesh_service_bench. set (n := bench_clients client_threads) in *.
  assert (Hn : (1 ≤ n ≤ 2 ^ 40)%Z) by (unfold n, bench_clients; lia). split.
  - destruct (live_start n (Z.to_nat n) ltac:(lia)) as (capc & capr & Hc & Hr & HL).
    assert (Hcalls : ∀ f ps, ps = scoped n (λ c, f c <$> seqZ 0 per_client) →
      sum_list_with length ps = Z.to_nat (n * per_client) ∧ length (A := list call) ps = Z.to_nat n).
    { intros f ps ->. apply script_calls; lia. }
    destruct (Hcalls (λ c i, let k := Bench.key c i per_client in Put k k) (mesh_puts n per_client) eq_refl)
      as [E1 L1].
    destruct (Hcalls (λ c i, let k := Bench.key c i per_client in Get k) (bench_gets n per_client false) eq_refl)
      as [E2 L2].
    destruct (Hcalls (λ c i, let k := Bench.key c i per_client in GetRoundRobin k)
      (bench_gets n per_client true) eq_refl) as [E3 L3].
    eapply (phases_all capc capr Hc Hr); [exact HL|..].
    + apply news_idle. by intros c cl [-> _]%lookup_replicate.
    + unfold mesh_phases. cbn [sum_list_with]. rewrite E1, E2, E3. simpl. lia.
    + unfold mesh_phases. rewrite !Forall_cons, L1, L2, L3. simpl. by rewrite length_replicate.
  - intros s' Hs'. eapply (mesh_bench_answers n per_client); [lia|exact Hs'].
Qed.

End bench.

(** ** Witness: two clients with three operations each *)

#[local] Existing Instance demo_inbox.
#[local] Existing Instance demo_inbox_laws.

Lemma mesh_bench_hits_witness :
  ∃ s' : DemoService, mesh_service_bench 2 3 s' ∧
    ∀ r q, reqs s' !! r = Some q → ∃ v e, r_ret q = Some (v, e) ∧
      match r_op q with OPut k v' => v' = k | OGet k => v = Some k end.
Proof.
  destruct (mesh_bench_hits (CC := @Ring Command) (CR := @Ring Reply) (IB := Stack ClientReq) 2 3)
    as [[s' Hs] H]; [lia|lia|reflexivity|].
  exists s'. split; [exact Hs|exact (H s' Hs)].
Defined.
