(* ===== verification/Latency.v ===== *)
(** * Latency: the percentiles of [latency_percentiles]

    Models the arithmetic of [latency_percentiles] in [crates/zerokv/src/main.rs]
    on the readings of the clock: the subtraction of the timer overhead, the
    sort, and the index of a percentile, computed in binary64 as the source
    does. The readings and the estimated overhead are arguments. *)

From Stdlib Require Import SpecFloat.
From stdpp Require Import sorting.
From S2P Require Import Prelude.
Local Open Scope Z_scope.
Local Open Scope zkv_scope.

(** ** Binary64 *)

(** [n as f64], a decimal literal [n / d], and a product. *)
Definition f64_of (n : Z) : spec_float := binary_normalize 53 1024 n 0 false.
Definition f64_lit (n d : Z) : spec_float := SFdiv 53 1024 (f64_of n) (f64_of d).
Definition f64_mul : spec_float → spec_float → spec_float := SFmul 53 1024.

(** [x as usize]: truncation that saturates, with [NaN] going to zero. *)
Definition f64_to_usize (x : spec_float) : Z :=
  match x with
  | S754_finite false m e =>
    Z.min (if 0 <=? e then Z.shiftl (Zpos m) e else Z.shiftr (Zpos m) (- e)) (W64 - 1)
  | S754_infinity false => W64 - 1
  | _ => 0
  end.

(** ** The histogram *)

(** [ns.saturating_sub(timer_overhead_ns)] of a reading cast to [u64]. *)
Definition net (overhead ns : Z) : Z := Z.max (wrap64 ns - overhead) 0.

Definition sorted_lat (overhead : Z) (readings : list Z) : list Z :=
  merge_sort Z.le (net overhead <$> readings).

(** [pct]: in release builds [lat.len() - 1] wraps on an empty list, and the
    index is then out of range. *)
Definition pct_index (len : Z) (p : spec_float) : Z :=
  Z.min (f64_to_usize (f64_mul (f64_of len) p)) (wsub len 1).
Definition pct (lat : list Z) (p : spec_float) : res Z :=
  or_err Panic (lat !! Z.to_nat (pct_index (blen lat) p)).

Record Report : Type := mkReport {
  p50 : Z;
  p90 : Z;
  p99 : Z;
  p999 : Z;
  max_ns : Z;
  under_1ms : bool
}.

(** The lines [latency_percentiles] prints. *)
Definition latency_percentiles (overhead : Z) (readings : list Z) : res Report :=
  let lat := sorted_lat overhead readings in
  a ←r pct lat (f64_lit 50 100);
  b ←r pct lat (f64_lit 90 100);
  c ←r pct lat (f64_lit 99 100);
  d ←r pct lat (f64_lit 999 1000);
  m ←r or_err Panic (lat !! Z.to_nat (wsub (blen lat) 1));
  Ok (mkReport a b c d m (m <? 1000000)).

(** ** Lemmas *)

Lemma sorted_lat_sorted overhead rs : StronglySorted Z.le (sorted_lat overhead rs).
Proof. apply StronglySorted_merge_sort; apply _. Qed.

Lemma sorted_lat_perm overhead rs : sorted_lat overhead rs ≡ₚ net overhead <$> rs.
Proof. apply merge_sort_Permutation. Qed.

Lemma sorted_lookup_le (l : list Z) (i j : nat) (x y : Z) :
  StronglySorted Z.le l → l !! i = Some x → l !! j = Some y → (i ≤ j)%nat → x ≤ y.
Proof.
  intros Hl. revert i j. induction Hl as [|a l Hl IH Ha]; intros [|i] [|j] Hi Hj Hij; simplify_eq/=.
  - done.
  - rewrite Forall_forall in Ha. apply Ha. by eapply list_elem_of_lookup_2.
  - lia.
  - apply (IH i j); [done..|lia].
Qed.

Lemma f64_to_usize_nonneg x : 0 ≤ f64_to_usize x.
Proof.
  destruct x as [| [] | |[] m e]; simpl; try (unfold W64; lia).
  apply Z.min_glb; [|unfold W64; lia]. case_match; [apply Z.shiftl_nonneg|apply Z.shiftr_nonneg]; lia.
Qed.

(** A percentile of a sample that is not empty is in range. *)
Lemma pct_index_range len p : 0 < len < W64 → 0 ≤ pct_index len p ≤ len - 1.
Proof.
  intros Hl. unfold pct_index, wsub. rewrite wrap64_small by (unfold is_u64; lia).
  pose proof (f64_to_usize_nonneg (f64_mul (f64_of len) p)). lia.
Qed.

Lemma pct_some (lat : list Z) p :
  0 < blen lat < W64 →
  ∃ x, pct lat p = Ok x ∧ lat !! Z.to_nat (pct_index (blen lat) p) = Some x.
Proof.
  intros Hl. pose proof (pct_index_range (blen lat) p Hl).
  destruct (lookup_lt_is_Some_2 lat (Z.to_nat (pct_index (blen lat) p))) as [x Hx]; [lia|].
  exists x. unfold pct. by rewrite Hx.
Qed.

Lemma latency_run overhead rs :
  0 < blen rs < W64 →
  ∃ r, latency_percentiles overhead rs = Ok r ∧
    let lat := sorted_lat overhead rs in
    let at_ x i := lat !! Z.to_nat i = Some x in
    at_ (p50 r) (pct_index (blen rs) (f64_lit 50 100)) ∧
    at_ (p90 r) (pct_index (blen rs) (f64_lit 90 100)) ∧
    at_ (p99 r) (pct_index (blen rs) (f64_lit 99 100)) ∧
    at_ (p999 r) (pct_index (blen rs) (f64_lit 999 1000)) ∧
    at_ (max_ns r) (blen rs - 1) ∧ under_1ms r = (max_ns r <? 1000000).
Proof.
  intros Hl. unfold latency_percentiles. set (lat := sorted_lat overhead rs).
  assert (Hlen : length lat = length rs).
  { unfold lat. rewrite sorted_lat_perm. apply length_fmap. }
  rewrite <- Hlen in *.
  destruct (pct_some lat (f64_lit 50 100) Hl) as (a & -> & Ha).
  destruct (pct_some lat (f64_lit 90 100) Hl) as (b & -> & Hb).
  destruct (pct_some lat (f64_lit 99 100) Hl) as (c & -> & Hc).
  destruct (pct_some lat (f64_lit 999 1000) Hl) as (d & -> & Hd). cbn [rbind].
  destruct (lookup_lt_is_Some_2 lat (Z.to_nat (blen lat - 1))) as [m Hm]; [lia|].
  unfold wsub. rewrite wrap64_small by (unfold is_u64; lia). rewrite Hm. simpl.
  eexists. split; [reflexivity|]. done.
Qed.

(** The ranks at the two sample counts of [main]. *)
Lemma pct_exact n : n ∈ [50000; 2000000] →
  pct_index n (f64_lit 50 100) = 50 * n / 100 ∧ pct_index n (f64_lit 90 100) = 90 * n / 100 ∧
  pct_index n (f64_lit 99 100) = 99 * n / 100 ∧ pct_index n (f64_lit 999 1000) = 999 * n / 1000.
Proof.
  rewrite !elem_of_cons, elem_of_nil. intros [->|[->|[]]]; vm_compute; by split_and!.
Qed.

(** ** Claims *)

(** [C40] For every list of readings that is not empty the report is printed,
    each percentile and the maximum is the net latency of one of the lookups,
    no lookup took longer than the maximum and no percentile exceeds it, and
    the last line says whether all lookups stayed under a millisecond. With
    50000 samples (the hot count of [main]) or 2000000 (the cap on its cold
    count) the percentiles are the entries at the exact ranks, in increasing
    order. Without a sample the function panics. *)
Theorem latency_report (overhead : Z) (readings : list Z) (Hlen : blen readings < W64) :
  let lat := net overhead <$> readings in
  match latency_percentiles overhead readings with
  | Ok r =>
    Forall (λ x, x ∈ lat ∧ x ≤ max_ns r) [p50 r; p90 r; p99 r; p999 r; max_ns r] ∧
    Forall (λ x, x ≤ max_ns r) lat ∧
    (under_1ms r = true ↔ Forall (λ x, x < 1000000) lat) ∧
    (blen readings ∈ [50000; 2000000] →
       let at_ n d := merge_sort Z.le lat !! Z.to_nat (n * blen readings / d) in
       at_ 50 100 = Some (p50 r) ∧ at_ 90 100 = Some (p90 r) ∧ at_ 99 100 = Some (p99 r) ∧
       at_ 999 1000 = Some (p999 r) ∧ p50 r ≤ p90 r ≤ p99 r ∧ p99 r ≤ p999 r)
  | Err f => readings = [] ∧ f = Panic
  end.
Proof.
  intros lat. destruct (decide (readings = [])) as [->|Hne]; [done|].
  assert (Hpos : 0 < blen readings) by (destruct readings; simpl; [done|lia]).
  destruct (latency_run overhead readings) as (r & -> & H50 & H90 & H99 & H999 & Hmax & Hms); [done|].
  pose proof (sorted_lat_sorted overhead readings) as Hs.
  assert (Hlat : sorted_lat overhead readings ≡ₚ lat) by apply sorted_lat_perm.
  assert (Hslen : length (sorted_lat overhead readings) = length readings).
  { rewrite Hlat. apply length_fmap. }
  assert (Hin : ∀ i x, sorted_lat overhead readings !! i = Some x → x ∈ lat ∧ x ≤ max_ns r).
  { intros i x Hi. split; [rewrite <- Hlat; by eapply list_elem_of_lookup_2|].
    pose proof (lookup_lt_Some _ _ _ Hi). eapply (sorted_lookup_le _ i); [done..|]. lia. }
  assert (Hle : Forall (λ x, x ≤ max_ns r) lat).
  { rewrite <- Hlat. apply Forall_lookup. intros i x Hi. by apply (Hin i). }
  split_and!.
  - repeat (apply Forall_cons; split; [by eapply Hin|]). constructor.
  - done.
  - rewrite Hms, Z.ltb_lt. split.
    + intros Hlt. eapply Forall_impl; [exact Hle|]. simpl. lia.
    + intros Hall. rewrite Forall_forall in Hall. apply Hall. by eapply (Hin _ (max_ns r)).
  - intros Hn at_. destruct (pct_exact _ Hn) as (E50 & E90 & E99 & E999).
    rewrite E50 in H50. rewrite E90 in H90. rewrite E99 in H99. rewrite E999 in H999.
    assert (Ho : ∀ a b x y : Z, (0 ≤ a ≤ b) →
      sorted_lat overhead readings !! Z.to_nat a = Some x →
      sorted_lat overhead readings !! Z.to_nat b = Some y → x ≤ y).
    { intros a b x y Hab Hx Hy. apply (sorted_lookup_le _ _ _ _ _ Hs Hx Hy). lia. }
    split_and!; [exact H50|exact H90|exact H99|exact H999|..]; eapply Ho; try eassumption;
      clear -Hpos; Z.div_mod_to_equations; lia.
Qed.

(** ** Witness *)

Lemma latency_report_witness :
  latency_percentiles 10 [40; 25; 5; 1000300; 30] = Ok (mkReport 20 1000290 1000290 1000290 1000290 false) ∧
  Forall (λ x, x ≤ 1000290) (net 10 <$> [40; 25; 5; 1000300; 30]).
Proof.
  assert (Hr : latency_percentiles 10 [40; 25; 5; 1000300; 30]
    = Ok (mkReport 20 1000290 1000290 1000290 1000290 false)) by (vm_compute; reflexivity).
  split; [exact Hr|].
  pose proof (latency_report 10 [40; 25; 5; 1000300; 30] ltac:(reflexivity)) as H.
  cbv zeta in H. rewrite Hr in H. exact (proj1 (proj2 H)).
Defined.
